(* ===== verification/_CoqProject ===== *)
-Q . S2P
Prelude.v
Slots.v
Serialization.v
Remote.v
Worker.v
Delegation.v
Util.v
Scheduler.v
ServiceOrder.v
FiberPool.v
Latch.v
SharedLatch.v
System.v
Service.v
Refinement.v
Interleaving.v
WorkerLoop.v
Linear.v
Starvation.v
History.v
Shutdown.v
Nested.v
Pooled.v
Ownership.v
Trust.v
Ints.v
Captures.v
Sequential.v
Latched.v
F64.v
Bank.v
BankMain.v
Increments.v
Examples.v
