(* ===== verification/Prelude.v ===== *)
(** * trust-tee in Rocq

    This development models the trust-tee crate, in which a property of type
    [T] is owned by one thread (its trustee) and other threads send closures
    to it, and proves that the crate does what its interface promises.  Paths
    below are relative to the repository's crate, [src/].

    ** The program and its parts

    A client handle [Remote<T>] ([trust/remote.rs]) owns a channel: a request
    slot and a response slot of 1152 bytes, each starting with a flag word
    ([runtime/slots.rs]).  A method encodes its closure into the request slot
    ([runtime/serialization.rs]), flips the ready bit of the request word and
    polls the response word.  The worker ([runtime/runtime.rs]) drains new
    channels from a queue, visits its channels in rounds, parses the records
    of those whose bits differ, runs the closures on the property, writes the
    results into the response slot and flips the response bit.  [launch]
    closures are given to pooled fibers, which answer by themselves.
    [Local<T>] ([trust/local.rs]) is the same interface without threads, and
    [Trust] ([trust/common.rs]) wraps either.  [single_thread/] is a latch for
    the property, [util/] holds waiting, thread ids, pinning.

    ** The files

    - [Prelude]: outcomes of Rust code ([res]: a value, a panic, undefined
      behaviour), machine integers, bytes, bounded reads and writes, tactics.
    - [Slots] ([runtime/slots.rs]): flag words, placement of blocks, [repr(C)]
      layouts, record headers as bytes, channels as two byte arrays.
    - [Serialization] ([runtime/serialization.rs]): closures (captured bytes,
      layout, body) and their vtables, the slot writer, [encode_closure],
      [decode_and_call].  A closure body is a [prog], a sequence of accesses
      to the property that ends in a result or a panic.
    - [Remote] ([trust/remote.rs]): the typed view of slots ([Repr]), the
      closures the methods build, where a call runs, records, [signal], [poll],
      [collect].
    - [Worker] ([runtime/runtime.rs]): the visit to one client, record by
      record; the launched job and its completion guard.
    - [Delegation]: one call from submission to result, for every method.
    - [Util] ([util/]): [WaitBudget], thread ids, the trustee flag, pinning.
    - [Scheduler] ([runtime/runtime.rs]): draining of registrations, the order
      of visits, idling.  [ServiceOrder]: which client a busy round serves.
    - [FiberPool] ([runtime/runtime.rs]): dispatch of jobs, the loop of a fiber,
      the shutdown protocol of [Terminate].
    - [Latch] ([single_thread/]): the latch, its guard, [lock_apply] and its
      variants.
    - [SharedLatch] ([util/latch.rs]): the latch of threads, on a mutex and a
      condition variable.
    - [System]: any number of clients, the worker and the fibers, interleaved; a
      visit is one step.
    - [Service] ([runtime/runtime.rs]): the visit taken apart, access by access,
      and the system with the worker inside a visit.
    - [Refinement]: the abstract object, the simulation relation of [System],
      progress.  [Interleaving]: the same for [Service]; with it the object
      whose exclusive closures a launched one can observe half done.
    - [WorkerLoop] ([runtime/runtime.rs]): the loop of the worker, [Scheduler]'s
      policies around [System]'s visits.  [Linear]: the order in which overlapping
      calls take effect.  [Starvation]: its rounds among clients
      that call again at once.
    - [History]: the calls and answers of an execution, and their types.
    - [Shutdown] ([runtime/runtime.rs]): [Drop for Runtime] and the [Terminate]
      arm next to the machine of [Service]; the drop's channel waits in the
      queue of registrations before the worker can visit it.  [Nested]: a call
      from inside the worker's own closure.
    - [Ownership] ([runtime/runtime.rs], [trust/]): [Runtime] and [Remote]
      values, their reference counts and channels; the property's own [Arc],
      the copy that [into_inner] hands out, and their drops.
    - [Pooled] ([runtime/runtime.rs]): [Shutdown]'s machine with its launched
      closures on the fibers of [FiberPool].
    - [Trust] ([trust/]): the interface as a class with laws, [Local], [Remote]
      and the wrapper as instances, client programs.
    - [Sequential]: clients whose calls do not overlap, and their programs,
      those of [Trust] among them, over the machine of [Service].
    - [Captures] ([runtime/serialization.rs], [examples/bincode.rs]): closures
      that own what they capture, with their drops; strings on a heap.
    - [Ints]: bounded integers as property and result types.  [Latched]: the
      sections of [Latch] access by access, behind a remote handle.
    - [F64], [Bank] and [BankMain] ([examples/remote_complex.rs]): binary64
      arithmetic on integers, the bank that the example entrusts to a trustee,
      and what the threads of its [main] do to it.
    - [Increments] ([examples/remote_simple.rs]): [main] and two threads, as
      clients of the machine of [Service].  [Examples]: the programs of
      [examples/] that use one handle.

    ** What the theorems show

    The claims are numbered C1, C2, ... in the order of their importance.

    - The whole system ([Interleaving]).  Every interleaving shows only calls and
      returns of an object that runs each request once (C1); without launches
      calls are linearizable (C2), and between two moments of rest they are an
      interleaving of what the clients call ([Linear], C24); with launches they
      are not, since a launched closure sees half an update (C17).  As long as
      records and results fit their slots no step is undefined, with one
      exception: a caller reads its answer at its result type, and what a
      panicked [launch] has left in the slot need not be a value of it (C3).  A
      call in progress can be completed by the worker, its client and its fiber
      alone, unless the worker stops or that read is met (C4); slots are handed
      back and forth without overlap (C18); answers are values of the type
      their caller reads ([History], C20).  The steps of a visit, run without
      interruption, are the visit of [System] ([service_is_visit]).
    - Fibers ([Pooled], [FiberPool]).  The pool cannot be seen from outside (C5);
      every launched closure of calls that are linked and fit is on exactly one
      fiber until it is over (C6); calls and drops can still be completed (C7);
      the shutdown protocol ends (C29).
    - The worker's own loop, left alone, serves everyone ([WorkerLoop], C8), but
      its rounds are not fair: clients that call again as soon as they are
      answered can shut one out for ever ([ServiceOrder], [Starvation], C28).
    - Ends ([Shutdown], [Ownership]).  The drop of a runtime is never stuck: by
      steps of worker, fibers and the dropping thread it can be brought to its
      return (C9), though eager clients can keep a scheduler from it (C28), and
      it leaves nothing running (C10); join handles are used once (C21), handles
      have their own channels (C22); the runtime drops the property once, and
      after [into_inner] its caller drops it again (C30).
    - Clients.  Calls that do not overlap are calls on a cell of one's own
      ([Sequential], C11), so that programs against the interface run over
      the concurrent machine as over [Local] (C12), in executions that have no
      other calls; method by method this is C19 ([Trust]), for closures that
      return and fit, and C23 ([Delegation]), with results that do not fit
      (C37).  A launch from inside the handle's own trustee waits for ever
      ([Nested], C36).
    - Programs.  [Increments]: the assertions hold in every interleaving (C13)
      and the program can always finish (C14).  [Bank]: exact arithmetic (C33),
      and [main] with its threads' counters in every order of its threads (C34),
      which C24 says there is.
      [examples/bincode.rs] on a heap: C35 ([Captures]).
    - Bytes ([Slots], [Serialization]): encoding and decoding are inverse (C25),
      stay in bounds (C26), place blocks optimally (C27).  What a closure owns
      is moved once, dropped or leaked ([Captures], C32).
    - The latches (C39, C40), and a latch behind a handle ([Latched]): closures
      of the trustee exclude each other and leave the latch free, whatever their
      sections do (C16), launched ones do not (C15).

    Some of these state faults: unless the number of busy clients is a power of
    two, one of them may never be served (C28); an oversized result overruns its
    slot (C37); a panicking launch returns stale bytes (C23); a launched
    closure sees half an update (C17), is not excluded by
    a latch (C15) and works on a property that [into_inner] has moved out
    ([into_inner_leaves_fibers_running]) and that is dropped twice (C30); a
    zero-sized closure is dropped before it is called (C38); a caller waits for
    ever if its runtime was dropped before its call was answered (C31), or if
    it launches from inside its own trustee (C36).
    Theorems without a number are proved like the others: the coarse machine of
    [System] ([system_refines_object] and its companions), the other methods
    ([apply_runs_closure], [apply_with_runs_closure], [apply_batch_mut_repeats],
    [into_inner_returns_property]), [launch_free_is_atomic],
    [programs_run_through], [remote_examples_hold], [jobs_run_once], [registration_fifo_and_bounded],
    [record_header_roundtrip], [env_alignment_of_slot], [shortcut_is_local],
    [owning_handle_keeps_worker], [shared_latch_exclusion],
    [calls_on_trustee_threads], [busy_service_fair_iff], [wait_budget_schedule], [thread_ids_distinct], [round_visits],
    [trustee_guard_flag], [pin_current_thread_sets],
    [transfer_accepts_any_amount], [local_examples_hold] and more.

    ** Modelling choices

    - Integers are [Z] with the wrap-around of their width written out;
      pointers are addresses, memory is a byte array per slot, and every raw
      access is checked: outside its slot it yields [UB].  An [f64] is a
      [spec_float] of precision 53.
    - A panic that unwinds through the worker ends it ([Unwind]); one in a
      launched closure ends its fiber.
    - In [Delegation] the worker visits right after the submission.  [System]
      and [Service] drop this: their actions interleave freely, visits come in
      any order (so the results hold for [Scheduler]'s order).  Accesses are
      sequentially consistent: the code loads flag words with Acquire and stores
      them with Release, one client per channel (C22).  A closure is a sequence
      of accesses to the property, so a launched closure can run between two
      accesses of an exclusive one; in the source that is a data race whenever
      the accesses are not atomic, and the model only says which values an
      interleaving of accesses gives.
    - In [Ownership] a completed operation is one step, the drop of a runtime
      included (what happens inside it is [Shutdown]'s).
    - Fuel: [drain_loop] has 256, the code's own bound; [acquire] needs one more
      than the number of failures, which [acquire_lock_terminates] assumes
      finite; [serve_out] has as much as [service_is_visit] says is enough;
      [call_repeat] and
      [process_records] recurse on the counts the code loops over.  Executions
      are action lists, without fuel.
    - Parameters: the object representation of the user's types ([Repr]), the
      serializer bincode ([Bincode], of which only the round trip is used), the
      addresses of static vtables, the size of [cpu_set_t].  The queue of
      registrations and the pool are first-in first-out, channels of fibers
      are queues that fail once the other end is gone.

    ** Not modelled

    [Display] and [Debug] of handles, whose text is a string on the heap that
    threads share (handles have no heap here; [Latch] has its own); the Miri
    shim of fibers, another configuration; request words that announce several
    records (no client writes one); a runtime dropped by a closure on its own
    worker, whose join is for the operating system to answer; benches and tests,
    which measure or depend on the scheduler of the fiber library.  Printing,
    timing and sleeping of the examples are left out.

    ** What could follow

    Requests of several records; results that own memory, behind handles;
    calls that overlap with launched ones on a latch. *)
From stdpp Require Export base tactics numbers list gmap strings option relations.
From Stdlib Require Export ZArith Lia.

Declare Scope trust_scope.
Delimit Scope trust_scope with trust.

(** ** Outcomes of Rust code *)

(** The outcome of a fallible piece of Rust code: a value, a panic
    (with its message), or undefined behaviour (an out-of-bounds raw
    access, a read at the wrong type). *)
Inductive res (A : Type) : Type :=
| Ok (a : A)
| Panic (why : string)
| UB (why : string).
Arguments Ok {A} a.
Arguments Panic {A} why%_string.
Arguments UB {A} why%_string.

#[export] Instance res_ret : MRet res := fun A a => Ok a.
#[export] Instance res_bind : MBind res := fun A B f r =>
  match r with Ok a => f a | Panic s => Panic s | UB s => UB s end.
#[export] Instance res_fmap : FMap res := fun A B f r =>
  match r with Ok a => Ok (f a) | Panic s => Panic s | UB s => UB s end.

Definition res_of_option {A} (why : string) (o : option A) : res A :=
  match o with Some a => Ok a | None => UB why end.

Definition is_Ok {A} (r : res A) : bool := match r with Ok _ => true | _ => false end.

Section res_lemmas.
Context {A B : Type}.
Implicit Types (r : res A) (f : A -> res B).

Lemma res_bind_Ok r f b : r ≫= f = Ok b -> exists a, r = Ok a /\ f a = Ok b.
Proof. destruct r; simpl; intros; simplify_eq; eauto. Qed.

Lemma res_of_option_Ok why (o : option A) a : res_of_option why o = Ok a <-> o = Some a.
Proof. destruct o; simpl; split; intros; simplify_eq; done. Qed.
End res_lemmas.

(** [inv_ok H] takes a successful monadic computation apart. *)
Ltac inv_ok H :=
  lazymatch type of H with
  | mbind _ _ = Ok _ =>
      let x := fresh "x" in let H1 := fresh H in
      apply res_bind_Ok in H as (x & H1 & H); try inv_ok H1; try inv_ok H
  | Ok _ = Ok _ => simplify_eq H
  | _ => idtac
  end.

Ltac case_ifs :=
  repeat match goal with
  | |- context [if decide ?P then _ else _] => destruct (decide P)
  | H : context [if decide ?P then _ else _] |- _ => destruct (decide P)
  end.

(** Boolean comparisons to propositions, then linear arithmetic. *)
Ltac zbool :=
  repeat match goal with
  | H : (_ && _)%bool = true |- _ => apply andb_true_iff in H as [? ?]
  | H : (_ && _)%bool = false |- _ => apply andb_false_iff in H
  | H : (_ || _)%bool = false |- _ => apply orb_false_iff in H as [? ?]
  | H : (_ <? _)%Z = true |- _ => apply Z.ltb_lt in H
  | H : (_ <? _)%Z = false |- _ => apply Z.ltb_ge in H
  | H : (_ <=? _)%Z = true |- _ => apply Z.leb_le in H
  | H : (_ <=? _)%Z = false |- _ => apply Z.leb_gt in H
  | H : (_ =? _)%Z = true |- _ => apply Z.eqb_eq in H
  | H : (_ =? _)%Z = false |- _ => apply Z.eqb_neq in H
  end.
Ltac zlia := zbool; lia.

(** ** Machine integers *)
Section machine_integers.
Local Open Scope Z_scope.

Definition u32_modulus : Z := 2 ^ 32.
Definition usize_modulus : Z := 2 ^ 64.

(** [x as u32] *)
Definition as_u32 (x : Z) : Z := x mod u32_modulus.
Definition usize_add (a b : Z) : Z := (a + b) mod usize_modulus.
Definition usize_sub (a b : Z) : Z := (a - b) mod usize_modulus.
(** [!m] on a [usize]. *)
Definition usize_not (m : Z) : Z := Z.lxor m (Z.ones 64).

Lemma as_u32_small x : 0 <= x < u32_modulus -> as_u32 x = x.
Proof. apply Z.mod_small. Qed.
Lemma as_u32_range x : 0 <= as_u32 x < u32_modulus.
Proof. apply Z.mod_pos_bound. done. Qed.
Lemma usize_add_small a b : 0 <= a + b < usize_modulus -> usize_add a b = a + b.
Proof. apply Z.mod_small. Qed.
Lemma usize_sub_small a b : 0 <= a - b < usize_modulus -> usize_sub a b = a - b.
Proof. apply Z.mod_small. Qed.

(** Clearing the low [k] bits of a [usize] rounds down to a multiple of [2^k]. *)
Lemma land_usize_not_mask x k :
  0 <= x < usize_modulus -> 0 <= k <= 64 ->
  Z.land x (usize_not (2 ^ k - 1)) = x - x mod 2 ^ k.
Proof.
  intros [Hx Hlt] Hk. unfold usize_not.
  replace (2 ^ k - 1) with (Z.ones k) by (rewrite Z.ones_equiv; lia).
  replace (Z.land x (Z.lxor (Z.ones k) (Z.ones 64))) with (Z.ldiff x (Z.ones k)).
  - rewrite Z.ldiff_ones_r by lia. rewrite Z.shiftl_mul_pow2, Z.shiftr_div_pow2 by lia.
    pose proof (Z.div_mod x (2 ^ k)). lia.
  - apply Z.bits_inj'. intros n Hn.
    rewrite Z.ldiff_spec, Z.land_spec, Z.lxor_spec, !Z.testbit_ones_nonneg by lia.
    destruct (decide (n < 64)).
    + destruct (Z.ltb_spec n 64), (Z.ltb_spec n k); try lia; done.
    + assert (Z.testbit x n = false) as ->; [|done].
      destruct (decide (x = 0)) as [->|]; [apply Z.testbit_0_l|].
      apply Z.bits_above_log2; [done|].
      assert (Z.log2 x < 64) by (apply Z.log2_lt_pow2; [lia|exact Hlt]). lia.
Qed.
End machine_integers.

(** ** Byte strings *)
Section bytes.
Local Open Scope Z_scope.

Definition is_byte (b : Z) : Prop := 0 <= b < 256.

(** Little-endian representation on [n] bytes. *)
Fixpoint le_bytes (n : nat) (z : Z) : list Z :=
  match n with
  | O => []
  | S n => z mod 256 :: le_bytes n (z / 256)
  end.
Fixpoint le_val (bs : list Z) : Z :=
  match bs with
  | [] => 0
  | b :: bs => b + 256 * le_val bs
  end.

Lemma length_le_bytes n z : length (le_bytes n z) = n.
Proof. revert z. induction n; intros; simpl; auto. Qed.

Lemma le_val_bytes n z : 0 <= z < 256 ^ Z.of_nat n -> le_val (le_bytes n z) = z.
Proof.
  revert z. induction n as [|n IH]; intros z Hz.
  - simpl in *. lia.
  - rewrite Nat2Z.inj_succ, Z.pow_succ_r in Hz by lia. cbn [le_bytes le_val].
    rewrite IH.
    + pose proof (Z.div_mod z 256). lia.
    + split; [apply Z.div_pos; lia|]. apply Z.div_lt_upper_bound; lia.
Qed.

Lemma le_bytes_range n z : Forall is_byte (le_bytes n z).
Proof.
  revert z. induction n; intros z; simpl; constructor; auto.
  apply Z.mod_pos_bound. lia.
Qed.

Lemma le_val_range bs :
  Forall is_byte bs -> 0 <= le_val bs < 256 ^ Z.of_nat (length bs).
Proof.
  induction 1 as [|b bs Hb _ IH]; [done|].
  cbn [le_val length]. rewrite Nat2Z.inj_succ, Z.pow_succ_r by lia.
  unfold is_byte in Hb. lia.
Qed.
End bytes.

(** ** Bounded random access into a byte array *)
Section raw_access.
Local Open Scope Z_scope.
Implicit Types (m bs : list Z).

Definition zlen {A} (l : list A) : Z := Z.of_nat (length l).

(** [core::ptr::read] of [n] bytes at offset [off]. *)
Definition read_at m (off n : Z) : option (list Z) :=
  if (0 <=? off) && (0 <=? n) && (off + n <=? zlen m)
  then Some (take (Z.to_nat n) (drop (Z.to_nat off) m)) else None.

(** [core::ptr::write] / [copy_nonoverlapping] of [bs] at offset [off]. *)
Definition write_at m (off : Z) bs : option (list Z) :=
  if (0 <=? off) && (off + zlen bs <=? zlen m)
  then Some (take (Z.to_nat off) m ++ bs ++ drop (Z.to_nat off + length bs) m) else None.

Lemma zlen_app {A} (l k : list A) : zlen (l ++ k) = zlen l + zlen k.
Proof. unfold zlen. rewrite length_app. lia. Qed.

Lemma write_at_Some m off bs :
  0 <= off -> off + zlen bs <= zlen m -> exists m', write_at m off bs = Some m'.
Proof.
  intros H1 H2. unfold write_at.
  apply Z.leb_le in H1 as ->. apply Z.leb_le in H2 as ->. eauto.
Qed.

Lemma write_at_None m off bs :
  zlen m < off + zlen bs -> write_at m off bs = None.
Proof.
  intros H. unfold write_at. destruct (Z.leb_spec (off + zlen bs) (zlen m)); [lia|].
  by rewrite andb_false_r.
Qed.

Lemma write_at_inv m off bs m' :
  write_at m off bs = Some m' ->
  0 <= off /\ off + zlen bs <= zlen m /\
  m' = take (Z.to_nat off) m ++ bs ++ drop (Z.to_nat off + length bs) m.
Proof.
  unfold write_at. intros H. case_match eqn:E; simplify_eq. zbool. done.
Qed.

Lemma write_at_length m off bs m' : write_at m off bs = Some m' -> length m' = length m.
Proof.
  intros (? & ? & ->)%write_at_inv. unfold zlen in *.
  rewrite !length_app, length_take, length_drop. lia.
Qed.

Lemma read_write_same m off bs m' n :
  write_at m off bs = Some m' -> n = zlen bs -> read_at m' off n = Some bs.
Proof.
  intros Hw ->. pose proof (write_at_length _ _ _ _ Hw) as Hl.
  apply write_at_inv in Hw as (H1 & H2 & ->).
  unfold read_at, zlen in *. rewrite Hl.
  destruct (Z.leb_spec 0 off), (Z.leb_spec 0 (Z.of_nat (length bs))),
    (Z.leb_spec (off + Z.of_nat (length bs)) (Z.of_nat (length m))); try lia.
  simpl. rewrite Nat2Z.id, drop_app_length', take_app_length'; [done|done|].
  rewrite length_take. lia.
Qed.

Lemma read_write_before m off bs m' o n :
  write_at m off bs = Some m' -> o + n <= off -> read_at m' o n = read_at m o n.
Proof.
  intros Hw Hlt. pose proof (write_at_length _ _ _ _ Hw) as Hl.
  apply write_at_inv in Hw as (H1 & H2 & ->).
  unfold read_at, zlen in *. rewrite Hl.
  destruct (Z.leb_spec 0 o), (Z.leb_spec 0 n); simpl; try done. case_match; [|done].
  zbool. f_equal. rewrite drop_app_le by (rewrite length_take; lia).
  rewrite take_app_le by (rewrite length_drop, length_take; lia).
  rewrite skipn_firstn_comm, take_take. f_equal. lia.
Qed.

Lemma read_write_after m off bs m' o n :
  write_at m off bs = Some m' -> off + zlen bs <= o -> read_at m' o n = read_at m o n.
Proof.
  intros Hw Hlt. pose proof (write_at_length _ _ _ _ Hw) as Hl.
  apply write_at_inv in Hw as (H1 & H2 & ->).
  unfold read_at, zlen in *. rewrite Hl. case_match eqn:E; [|done].
  zbool. f_equal. f_equal.
  rewrite app_assoc, drop_app_ge by (rewrite length_app, length_take; lia).
  rewrite drop_drop, length_app, length_take. f_equal. lia.
Qed.

(** A read is unaffected by a write to a disjoint range. *)
Lemma read_write_disjoint m off bs m' o n :
  write_at m off bs = Some m' -> o + n <= off \/ off + zlen bs <= o ->
  read_at m' o n = read_at m o n.
Proof. intros ? [?|?]; eauto using read_write_before, read_write_after. Qed.

Lemma read_at_length m o n bs : read_at m o n = Some bs -> zlen bs = n.
Proof.
  unfold read_at, zlen. intros H. case_match eqn:E; simplify_eq. zbool.
  rewrite length_take, length_drop. lia.
Qed.

Lemma read_at_None m o n : zlen m < o + n -> read_at m o n = None.
Proof.
  intros H. unfold read_at. destruct (Z.leb_spec (o + n) (zlen m)); [lia|].
  by rewrite andb_false_r.
Qed.
End raw_access.

(** ** Traces of machines that show events *)
Section traces.
Context {S E : Type}.
Implicit Types (R : S -> list E -> S -> Prop).

(** Executions of a step relation, with the events they show. *)
Inductive traces R : S -> list E -> S -> Prop :=
| traces_nil s : traces R s [] s
| traces_cons s ev s1 evs s2 : R s ev s1 -> traces R s1 evs s2 -> traces R s (ev ++ evs) s2.

Lemma traces_one R s ev s1 : R s ev s1 -> traces R s ev s1.
Proof. intros. rewrite <-(app_nil_r ev). econstructor; [done|constructor]. Qed.
Lemma traces_app R s ev s1 evs s2 :
  traces R s ev s1 -> traces R s1 evs s2 -> traces R s (ev ++ evs) s2.
Proof. induction 1; intros; [done|]. rewrite <-app_assoc. econstructor; eauto. Qed.
Lemma traces_mono R R' s evs s' :
  (forall s ev s', R s ev s' -> R' s ev s') -> traces R s evs s' -> traces R' s evs s'.
Proof. intros Hi. induction 1; econstructor; eauto. Qed.
(** What holds of all events of a trace holds at each of its steps. *)
Lemma traces_events R (P : E -> Prop) s evs s' :
  traces R s evs s' -> Forall P evs -> traces (fun s ev s' => R s ev s' /\ Forall P ev) s evs s'.
Proof.
  induction 1 as [s|s ev s1 evs s2 Hst _ IH]; intros Hp; [constructor|].
  apply Forall_app in Hp as [Hp1 Hp2]. econstructor; eauto.
Qed.
End traces.

(** A step relation that simulates another, step by trace. *)
Lemma traces_simulate {S S' E} (R : S -> list E -> S -> Prop) (R' : S' -> list E -> S' -> Prop)
    (rel : S -> S' -> Prop) s evs s1 s' :
  (forall s ev s1 s', R s ev s1 -> rel s s' -> exists s1', traces R' s' ev s1' /\ rel s1 s1') ->
  traces R s evs s1 -> rel s s' -> exists s1', traces R' s' evs s1' /\ rel s1 s1'.
Proof.
  intros Hsim Htr. revert s'. induction Htr as [s|s ev s1 evs s2 Hst _ IH]; intros s' Hrel.
  - exists s'. split; [constructor|done].
  - destruct (Hsim _ _ _ _ Hst Hrel) as (s1' & Hs1 & Hrel1).
    destruct (IH _ Hrel1) as (s2' & Hs2 & Hrel2). exists s2'. split; [by eapply traces_app|done].
Qed.

Create HintDb trust.
#[export] Hint Resolve length_le_bytes le_bytes_range as_u32_range : trust.
#[export] Hint Constructors traces : trust.
#[export] Hint Resolve traces_one traces_app : trust.
