(* ===== verification/Slots.v ===== *)
(** * Slots: the slot layout and the header word ([src/runtime/slots.rs])

    Sizes of the two-part slots, the ready/count word, the boundary-aware
    offset allocator, the [repr(C)] layouts the raw casts of the runtime rely
    on, the byte representation of [RequestRecordHeader], and the channel
    pair that a client and its trustee share. *)
From S2P Require Import Prelude.
Local Open Scope Z_scope.

(** ** Sizes *)
Definition PRIMARY_BYTES : Z := 128.
Definition TRAILING_BYTES : Z := 1024.
Definition SLOT_BYTES : Z := PRIMARY_BYTES + TRAILING_BYTES.
Definition HEADER_BYTES : Z := 4.

(** ** The header word *)
Module header.
Definition READY_BIT : Z := Z.shiftl 1 0.
Definition COUNT_SHIFT : Z := 1.
Definition COUNT_MASK : Z := 0xFFFFFFFE.

(** [count << 1] is a [u32] shift: the top bit of [count] is lost. *)
Definition pack_ready_count (ready : bool) (count : Z) : Z :=
  Z.lor (Z.land (as_u32 (Z.shiftl count COUNT_SHIFT)) COUNT_MASK) (Z.b2z ready).
Definition ready (word : Z) : bool := negb (Z.land word READY_BIT =? 0).
Definition count (word : Z) : Z := Z.shiftr (Z.land word COUNT_MASK) COUNT_SHIFT.

Definition next_boundary_offset (cursor size align : Z) : Z :=
  let mask := usize_sub (Z.max align 1) 1 in
  let start := Z.land (usize_add cursor mask) (usize_not mask) in
  if (start <? PRIMARY_BYTES) && (PRIMARY_BYTES <? usize_add start size) then
    let new_start := PRIMARY_BYTES in
    Z.land (usize_add new_start mask) (usize_not mask)
  else start.
End header.
Import header.

(** ** [repr(C)] layouts *)

Record layout := Layout { l_size : Z; l_align : Z }.

(** Rounding up to a multiple of [a], as the layout algorithm does. *)
Definition round_up (x a : Z) : Z := (x + a - 1) / a * a.

(** Field offsets of a [repr(C)] struct, in declaration order. *)
Fixpoint repr_C_offsets (cur : Z) (fields : list layout) : list Z * Z :=
  match fields with
  | [] => ([], cur)
  | f :: fs =>
      let off := round_up cur (l_align f) in
      let '(offs, fin) := repr_C_offsets (off + l_size f) fs in
      (off :: offs, fin)
  end.
Definition struct_align (fields : list layout) : Z :=
  foldr (fun f a => Z.max (l_align f) a) 1 fields.
Definition repr_C (fields : list layout) : layout :=
  let '(_, fin) := repr_C_offsets 0 fields in
  Layout (round_up fin (struct_align fields)) (struct_align fields).

Definition layout_u8s (n : Z) : layout := Layout n 1.
Definition layout_u32 : layout := Layout 4 4.
Definition layout_u64 : layout := Layout 8 8.
Definition layout_ptr : layout := Layout 8 8.

Definition fields_FatClosurePtr : list layout := [layout_ptr; layout_ptr].
Definition fields_RequestRecordHeader : list layout :=
  [repr_C fields_FatClosurePtr; layout_u64; layout_u32; layout_u32; layout_u32; layout_u32].
(** [SlotHeader] is [repr(transparent)] over an [AtomicU32]. *)
Definition layout_SlotHeader : layout := layout_u32.
Definition fields_RequestPrimary : list layout :=
  [layout_SlotHeader; layout_u8s (PRIMARY_BYTES - HEADER_BYTES)].
Definition fields_ResponsePrimary : list layout :=
  [layout_SlotHeader; layout_u8s (PRIMARY_BYTES - HEADER_BYTES)].
Definition fields_RequestSlot : list layout :=
  [repr_C fields_RequestPrimary; layout_u8s TRAILING_BYTES].
Definition fields_ResponseSlot : list layout :=
  [repr_C fields_ResponsePrimary; layout_u8s TRAILING_BYTES].
Definition fields_ChannelPair : list layout :=
  [repr_C fields_RequestSlot; repr_C fields_ResponseSlot].
(** [#[repr(align(64))] struct Aligned<N>([u8; N])]. *)
Definition layout_Aligned (n : Z) : layout := Layout (round_up n 64) 64.
(** [Arc::new] puts its value behind two word-sized counters. *)
Definition fields_ArcInner (l : layout) : list layout := [layout_u64; layout_u64; l].

(** [size_of] / [align_of] of the record header, as the code asks for them. *)
Definition size_of_RequestRecordHeader : Z := l_size (repr_C fields_RequestRecordHeader).
Definition align_of_RequestRecordHeader : Z := l_align (repr_C fields_RequestRecordHeader).
Definition MIN_REQUEST_RECORD_BYTES : Z := l_size (repr_C fields_FatClosurePtr) + 8.

(** ** Request records *)

Record FatClosurePtr := { data : Z; vtable : Z }.

Inductive PropertyPtr :=
| CallMutRetUnit
| CallMutOutPtr
| CallMutArgsOutPtr
| IntoInner
| Launch
| Terminate.

#[export] Instance PropertyPtr_eq_dec : EqDecision PropertyPtr.
Proof. solve_decision. Defined.

(** The [repr(u64)] discriminants; any other value is not a [PropertyPtr]. *)
Definition discriminant (p : PropertyPtr) : Z :=
  match p with
  | CallMutRetUnit => 0
  | CallMutOutPtr => 1
  | CallMutArgsOutPtr => 2
  | IntoInner => 3
  | Launch => 4
  | Terminate => 2 ^ 64 - 1
  end.
Definition of_discriminant (d : Z) : option PropertyPtr :=
  if d =? 0 then Some CallMutRetUnit
  else if d =? 1 then Some CallMutOutPtr
  else if d =? 2 then Some CallMutArgsOutPtr
  else if d =? 3 then Some IntoInner
  else if d =? 4 then Some Launch
  else if d =? 2 ^ 64 - 1 then Some Terminate
  else None.

Record RequestRecordHeader := {
  closure : FatClosurePtr;
  property_ptr : PropertyPtr;
  captured_len : Z;
  args_len : Z;
  args_offset : Z;
  repeat_count : Z;
}.

(** Object representation of a header ([repr(C)], no padding). *)
Definition hdr_to_bytes (h : RequestRecordHeader) : list Z :=
  le_bytes 8 (data (closure h)) ++ le_bytes 8 (vtable (closure h)) ++
  le_bytes 8 (discriminant (property_ptr h)) ++
  le_bytes 4 (captured_len h) ++ le_bytes 4 (args_len h) ++
  le_bytes 4 (args_offset h) ++ le_bytes 4 (repeat_count h).

(** The field of [len] bytes at [off]. *)
Definition field_at (bs : list Z) (off len : nat) : Z := le_val (take len (drop off bs)).

Definition hdr_of_bytes (bs : list Z) : option RequestRecordHeader :=
  if decide (length bs = 40%nat) then
    p ← of_discriminant (field_at bs 16 8);
    Some {| closure := {| data := field_at bs 0 8; vtable := field_at bs 8 8 |};
            property_ptr := p;
            captured_len := field_at bs 24 4;
            args_len := field_at bs 28 4;
            args_offset := field_at bs 32 4;
            repeat_count := field_at bs 36 4 |}
  else None.

Definition hdr_ok (h : RequestRecordHeader) : Prop :=
  0 <= data (closure h) < usize_modulus /\ 0 <= vtable (closure h) < usize_modulus /\
  0 <= captured_len h < u32_modulus /\ 0 <= args_len h < u32_modulus /\
  0 <= args_offset h < u32_modulus /\ 0 <= repeat_count h < u32_modulus.

(** ** Slots *)

Record SlotHeader := { flags : Z }.
Record RequestPrimary := { rq_header : SlotHeader; rq_data : list Z }.
Record ResponsePrimary := { rs_header : SlotHeader; rs_data : list Z }.
Record RequestSlot := { rq_primary : RequestPrimary; rq_trailing : list Z }.
Record ResponseSlot := { rs_primary : ResponsePrimary; rs_trailing : list Z }.

Definition SlotHeader_default : SlotHeader := {| flags := 0 |}.
Definition RequestPrimary_default : RequestPrimary :=
  {| rq_header := SlotHeader_default;
     rq_data := replicate (Z.to_nat (PRIMARY_BYTES - HEADER_BYTES)) 0 |}.
Definition ResponsePrimary_default : ResponsePrimary :=
  {| rs_header := SlotHeader_default;
     rs_data := replicate (Z.to_nat (PRIMARY_BYTES - HEADER_BYTES)) 0 |}.
Definition RequestSlot_default : RequestSlot :=
  {| rq_primary := RequestPrimary_default;
     rq_trailing := replicate (Z.to_nat TRAILING_BYTES) 0 |}.
Definition ResponseSlot_default : ResponseSlot :=
  {| rs_primary := ResponsePrimary_default;
     rs_trailing := replicate (Z.to_nat TRAILING_BYTES) 0 |}.

(** The slots seen through the raw casts ([request.get() as *mut u8]). *)
Definition request_bytes (s : RequestSlot) : list Z :=
  le_bytes 4 (flags (rq_header (rq_primary s))) ++ rq_data (rq_primary s) ++ rq_trailing s.
Definition response_bytes (s : ResponseSlot) : list Z :=
  le_bytes 4 (flags (rs_header (rs_primary s))) ++ rs_data (rs_primary s) ++ rs_trailing s.

(** A channel pair: where its request slot lies, and the bytes of both slots. *)
Record ChannelPair := { cp_base : Z; request : list Z; response : list Z }.

Definition ChannelPair_default (base : Z) : ChannelPair :=
  {| cp_base := base;
     request := request_bytes RequestSlot_default;
     response := response_bytes ResponseSlot_default |}.

(** The [AtomicU32] at the start of a slot. *)
Definition load_flags (slot : list Z) : Z := le_val (take 4 slot).
Definition store_flags (slot : list Z) (w : Z) : list Z := le_bytes 4 w ++ drop 4 slot.

Definition set_request (c : ChannelPair) (m : list Z) : ChannelPair :=
  {| cp_base := cp_base c; request := m; response := response c |}.
Definition set_response (c : ChannelPair) (m : list Z) : ChannelPair :=
  {| cp_base := cp_base c; request := request c; response := m |}.

(** Both slots have their declared size. *)
Definition channel_ok (c : ChannelPair) : Prop :=
  zlen (request c) = SLOT_BYTES /\ zlen (response c) = SLOT_BYTES.

(** ** The header word: lemmas *)
Section header_word.
Implicit Types (b : bool) (c w : Z).

Lemma pack_ready_count_eq b c :
  pack_ready_count b c = 2 * (c mod 2 ^ 31) + Z.b2z b.
Proof.
  assert (Hm : Z.land (as_u32 (Z.shiftl c COUNT_SHIFT)) COUNT_MASK = 2 * (c mod 2 ^ 31)).
  { unfold as_u32, u32_modulus, COUNT_SHIFT. rewrite Z.shiftl_mul_pow2 by lia.
    replace (c * 2 ^ 1) with (2 * c) by lia.
    replace (2 ^ 32) with (2 * 2 ^ 31) by lia. rewrite Z.mul_mod_distr_l by lia.
    set (y := c mod 2 ^ 31).
    assert (0 <= y < 2 ^ 31) by (apply Z.mod_pos_bound; lia).
    apply Z.bits_inj'. intros n Hn. rewrite Z.land_spec.
    destruct (decide (n = 0)) as [->|].
    { rewrite Z.testbit_even_0. done. }
    destruct (decide (n < 32)).
    - assert (Z.testbit COUNT_MASK n = true) as ->; [|by rewrite andb_true_r].
      change COUNT_MASK with (Z.shiftl (Z.ones 31) 1).
      rewrite Z.shiftl_spec, Z.testbit_ones_nonneg by lia. apply Z.ltb_lt. lia.
    - assert (Z.testbit (2 * y) n = false) as ->; [|done].
      destruct (decide (y = 0)) as [->|]; [apply Z.testbit_0_l|].
      apply Z.bits_above_log2; [lia|].
      assert (Z.log2 (2 * y) < 32) by (apply Z.log2_lt_pow2; lia). lia. }
  unfold pack_ready_count. rewrite Hm.
  destruct b; simpl Z.b2z; [|by rewrite Z.lor_0_r, Z.add_0_r].
  apply Z.bits_inj'. intros n Hn. rewrite Z.lor_spec.
  destruct (decide (n = 0)) as [->|].
  - rewrite Z.testbit_even_0, Z.testbit_odd_0. done.
  - replace n with (Z.succ (n - 1)) by lia.
    rewrite Z.testbit_odd_succ, Z.testbit_even_succ by lia.
    replace (Z.testbit 1 (Z.succ (n - 1))) with false; [by rewrite orb_false_r|].
    symmetry. apply Z.bits_above_log2; simpl; lia.
Qed.

Lemma ready_eq w : ready w = Z.odd w.
Proof.
  unfold ready, READY_BIT. change (Z.shiftl 1 0) with (Z.ones 1).
  rewrite Z.land_ones by lia. change (2 ^ 1) with 2. rewrite Zmod_odd.
  by destruct (Z.odd w).
Qed.

Lemma count_eq w : 0 <= w < u32_modulus -> count w = w / 2.
Proof.
  intros Hw. unfold count, COUNT_SHIFT. rewrite <-(Z.div2_spec (Z.land _ _)), Z.div2_div.
  change COUNT_MASK with (Z.ldiff (Z.ones 32) 1).
  assert (Z.land w (Z.ldiff (Z.ones 32) 1) = w - w mod 2) as ->.
  - replace (Z.land w (Z.ldiff (Z.ones 32) 1)) with (Z.ldiff w (Z.ones 1)).
    + rewrite Z.ldiff_ones_r by lia. rewrite Z.shiftl_mul_pow2, Z.shiftr_div_pow2 by lia.
      change (2 ^ 1) with 2. pose proof (Z.div_mod w 2). lia.
    + apply Z.bits_inj'. intros n Hn.
      change (Z.ones 1) with 1.
      rewrite Z.land_spec, !Z.ldiff_spec, Z.testbit_ones_nonneg by lia.
      destruct (Z.ltb_spec n 32); [done|]. rewrite andb_false_l, andb_false_r.
      assert (Z.testbit w n = false) as ->; [|done].
      destruct (decide (w = 0)) as [->|]; [apply Z.testbit_0_l|].
      apply Z.bits_above_log2; [lia|]. unfold u32_modulus in Hw.
      assert (Z.log2 w < 32) by (apply Z.log2_lt_pow2; lia). lia.
  - pose proof (Z.div_mod w 2). replace (w - w mod 2) with (w / 2 * 2) by lia.
    apply Z.div_mul. lia.
Qed.

Lemma pack_range b c : 0 <= pack_ready_count b c < u32_modulus.
Proof.
  rewrite pack_ready_count_eq. unfold u32_modulus.
  pose proof (Z.mod_pos_bound c (2 ^ 31)). destruct b; simpl; lia.
Qed.

Lemma ready_pack b c : ready (pack_ready_count b c) = b.
Proof.
  rewrite ready_eq, pack_ready_count_eq, Z.odd_add, Z.odd_mul. by destruct b.
Qed.

Lemma count_pack b c : count (pack_ready_count b c) = c mod 2 ^ 31.
Proof.
  rewrite count_eq by apply pack_range. rewrite pack_ready_count_eq.
  rewrite Z.mul_comm, Z.div_add_l by lia. destruct b; simpl; rewrite ?Z.add_0_r; done.
Qed.
End header_word.
#[export] Hint Resolve pack_range : trust.

(** ** Offsets *)

(** What the allocator may return for a request at [cursor]: an aligned
    offset, not below the cursor, whose block does not straddle the boundary
    between the primary and the trailing part. *)
Definition placement (cursor size align o : Z) : Prop :=
  cursor <= o /\ o mod align = 0 /\ ~ (o < PRIMARY_BYTES < o + size).

Section offsets.
Implicit Types (cursor size align k x : Z).

Definition up x align : Z := x + (align - 1) - (x + (align - 1)) mod align.

Lemma up_spec x a : 0 < a -> x <= up x a < x + a /\ up x a mod a = 0.
Proof.
  intros Ha. unfold up. pose proof (Z.mod_pos_bound (x + (a - 1)) a Ha). split; [lia|].
  pose proof (Z.div_mod (x + (a - 1)) a).
  replace (_ - _) with ((x + (a - 1)) / a * a) by lia. apply Z.mod_mul. lia.
Qed.

(** The least multiple of [a] above [x]. *)
Lemma up_least x a o : 0 < a -> x <= o -> o mod a = 0 -> up x a <= o.
Proof.
  intros Ha Hx Ho. destruct (up_spec x a Ha) as [Hb Hm].
  apply Z.mod_divide in Ho as [q ->]; [|lia]. apply Z.mod_divide in Hm as [p Hp]; [|lia].
  rewrite Hp in Hb |- *. apply Z.mul_le_mono_nonneg_r; [lia|].
  apply Z.lt_succ_r, (Z.mul_lt_mono_pos_r a); lia.
Qed.

Lemma align_step x align k :
  Z.max align 1 = 2 ^ k -> 0 <= k <= 62 -> 0 <= x -> x + 2 ^ k < usize_modulus ->
  let mask := usize_sub (Z.max align 1) 1 in
  Z.land (usize_add x mask) (usize_not mask) = up x (2 ^ k).
Proof.
  intros -> Hk Hx Hlt. cbv zeta.
  assert (0 < 2 ^ k) by (apply Z.pow_pos_nonneg; lia).
  assert (2 ^ k <= 2 ^ 62) by (apply Z.pow_le_mono_r; lia).
  unfold usize_modulus in *.
  rewrite usize_sub_small, usize_add_small by (unfold usize_modulus; lia).
  rewrite land_usize_not_mask by (unfold usize_modulus; lia). reflexivity.
Qed.

Lemma next_boundary_offset_eq cursor size align k :
  Z.max align 1 = 2 ^ k -> 0 <= k <= 62 -> 0 <= cursor -> 0 <= size ->
  cursor + size + 2 ^ k + PRIMARY_BYTES < usize_modulus ->
  next_boundary_offset cursor size align =
  if (up cursor (2 ^ k) <? PRIMARY_BYTES) && (PRIMARY_BYTES <? up cursor (2 ^ k) + size)
  then up PRIMARY_BYTES (2 ^ k) else up cursor (2 ^ k).
Proof.
  intros Ha Hk Hc Hs Hlt. unfold next_boundary_offset, PRIMARY_BYTES in *. cbv zeta.
  rewrite !(align_step _ align k) by (done || lia).
  assert (0 < 2 ^ k) by (apply Z.pow_pos_nonneg; lia).
  pose proof (up_spec cursor (2 ^ k)). rewrite usize_add_small by lia. done.
Qed.

Lemma next_boundary_offset_best cursor size align k :
  Z.max align 1 = 2 ^ k -> 0 <= k <= 62 -> 0 <= cursor -> 0 <= size ->
  cursor + size + 2 ^ k + PRIMARY_BYTES < usize_modulus ->
  let r := next_boundary_offset cursor size align in
  placement cursor size (2 ^ k) r /\
  (forall o, placement cursor size (2 ^ k) o -> r <= o).
Proof.
  intros Ha Hk Hc Hs Hlt. cbv zeta. rewrite (next_boundary_offset_eq _ _ _ k) by done.
  assert (0 < 2 ^ k) by (apply Z.pow_pos_nonneg; lia).
  destruct (up_spec cursor (2 ^ k)) as [Hb Hm]; [done|].
  destruct (up_spec PRIMARY_BYTES (2 ^ k)) as [Hb' Hm']; [done|].
  unfold placement. case_match eqn:E; zbool.
  - split; [split; [lia|split; [done|lia]]|]. intros o (Ho & Hoa & Hns).
    apply up_least; [done| |done]. pose proof (up_least cursor _ o ltac:(done) Ho Hoa). lia.
  - split; [split; [lia|split; [done|]]|].
    + destruct E; zlia.
    + intros o (Ho & Hoa & _). by apply up_least.
Qed.

Lemma next_boundary_offset_ge cursor size align k :
  Z.max align 1 = 2 ^ k -> 0 <= k <= 62 -> 0 <= cursor -> 0 <= size ->
  cursor + size + 2 ^ k + PRIMARY_BYTES < usize_modulus ->
  cursor <= next_boundary_offset cursor size align.
Proof. intros. by eapply next_boundary_offset_best. Qed.
End offsets.

(** ** Slot bytes and flags: lemmas *)
Section slot_bytes.
Implicit Types (m bs : list Z) (w : Z).

Lemma load_store_flags m w : 0 <= w < u32_modulus -> load_flags (store_flags m w) = w.
Proof.
  intros Hw. unfold load_flags, store_flags.
  rewrite take_app_length' by (symmetry; apply length_le_bytes). by apply le_val_bytes.
Qed.

Lemma store_flags_zlen m w : HEADER_BYTES <= zlen m -> zlen (store_flags m w) = zlen m.
Proof.
  unfold store_flags, HEADER_BYTES, zlen. rewrite length_app, length_drop, length_le_bytes. lia.
Qed.

(** Storing the flags leaves the data region alone. *)
Lemma read_store_flags m w o n :
  HEADER_BYTES <= zlen m -> HEADER_BYTES <= o -> read_at (store_flags m w) o n = read_at m o n.
Proof.
  intros Hm Ho. apply (read_write_after m 0 (le_bytes 4 w)).
  - unfold write_at, HEADER_BYTES, store_flags, zlen in *. rewrite length_le_bytes.
    destruct (Z.leb_spec (0 + Z.of_nat 4) (Z.of_nat (length m))); [done|lia].
  - unfold zlen. rewrite length_le_bytes. exact Ho.
Qed.

(** Writing in the data region leaves the flags alone. *)
Lemma load_flags_write m o bs m' :
  write_at m o bs = Some m' -> HEADER_BYTES <= o -> load_flags m' = load_flags m.
Proof.
  intros Hw Ho. unfold HEADER_BYTES in Ho.
  apply write_at_inv in Hw as (? & ? & ->). unfold load_flags.
  rewrite take_app_le by (rewrite length_take; unfold zlen in *; lia).
  rewrite take_take. f_equal. f_equal. lia.
Qed.

Lemma load_flags_read m m' :
  HEADER_BYTES <= zlen m -> HEADER_BYTES <= zlen m' ->
  read_at m' 0 HEADER_BYTES = read_at m 0 HEADER_BYTES -> load_flags m' = load_flags m.
Proof.
  unfold read_at, HEADER_BYTES. intros Hm Hm'.
  destruct (Z.leb_spec (0 + 4) (zlen m)), (Z.leb_spec (0 + 4) (zlen m')); try lia.
  intros E. injection E as E. unfold load_flags. f_equal. exact E.
Qed.

Lemma write_at_zlen m o bs m' : write_at m o bs = Some m' -> zlen m' = zlen m.
Proof. unfold zlen. by intros ->%write_at_length. Qed.

Lemma ChannelPair_default_ok base : channel_ok (ChannelPair_default base).
Proof. split; reflexivity. Qed.
End slot_bytes.

(** ** Header records: lemmas *)
Section header_records.
Implicit Types (h : RequestRecordHeader) (p : PropertyPtr).

Lemma of_discriminant_inj p : of_discriminant (discriminant p) = Some p.
Proof. by destruct p. Qed.

Lemma discriminant_range p : 0 <= discriminant p < usize_modulus.
Proof. by destruct p. Qed.

Lemma length_hdr_to_bytes h : length (hdr_to_bytes h) = 40%nat.
Proof. unfold hdr_to_bytes. by rewrite !length_app, !length_le_bytes. Qed.

Lemma field_at_here bs rest n z :
  bs = le_bytes n z ++ rest -> 0 <= z < 256 ^ Z.of_nat n -> field_at bs 0 n = z.
Proof.
  intros -> Hz. unfold field_at. rewrite drop_0, take_app_length' by (by rewrite length_le_bytes).
  by apply le_val_bytes.
Qed.

Lemma field_at_skip n z rest off len :
  (n <= off)%nat -> field_at (le_bytes n z ++ rest) off len = field_at rest (off - n) len.
Proof.
  intros Hn. unfold field_at. rewrite drop_app_ge by (by rewrite length_le_bytes).
  by rewrite length_le_bytes.
Qed.

(** Each field is found at its [repr(C)] offset. *)
Lemma hdr_fields h :
  hdr_ok h ->
  field_at (hdr_to_bytes h) 0 8 = data (closure h) /\
  field_at (hdr_to_bytes h) 8 8 = vtable (closure h) /\
  field_at (hdr_to_bytes h) 16 8 = discriminant (property_ptr h) /\
  field_at (hdr_to_bytes h) 24 4 = captured_len h /\
  field_at (hdr_to_bytes h) 28 4 = args_len h /\
  field_at (hdr_to_bytes h) 32 4 = args_offset h /\
  field_at (hdr_to_bytes h) 36 4 = repeat_count h.
Proof.
  intros (Hd & Hv & Hc & Hl & Ho & Hr).
  pose proof (discriminant_range (property_ptr h)).
  unfold hdr_to_bytes, usize_modulus, u32_modulus in *.
  rewrite <-(app_nil_r (le_bytes 4 (repeat_count h))).
  repeat split; repeat (rewrite field_at_skip by lia; simpl Nat.sub);
    (eapply field_at_here; [reflexivity|simpl; lia]).
Qed.

Lemma hdr_of_to_bytes h : hdr_ok h -> hdr_of_bytes (hdr_to_bytes h) = Some h.
Proof.
  intros (E0 & E1 & E2 & E3 & E4 & E5 & E6)%hdr_fields. unfold hdr_of_bytes.
  rewrite decide_True by apply length_hdr_to_bytes.
  rewrite E0, E1, E2, E3, E4, E5, E6, of_discriminant_inj. simpl. by destruct h as [[]].
Qed.
End header_records.

(** ** Properties *)

(** The header word carries its two fields faithfully: the ready bit
    always, the count modulo [2^31] (a [u32] count whose top bit is set loses
    it), and a word read from a slot is the packing of what was read. *)
Theorem header_word_roundtrip (b : bool) (c w : Z) :
  0 <= w < u32_modulus ->
  ready (pack_ready_count b c) = b /\ count (pack_ready_count b c) = c mod 2 ^ 31 /\
  pack_ready_count (ready w) (count w) = w.
Proof.
  intros Hw. split; [apply ready_pack|]. split; [apply count_pack|].
  rewrite pack_ready_count_eq, ready_eq, count_eq by done.
  unfold u32_modulus in Hw. rewrite (Z.mod_small (w / 2))
    by (split; [apply Z.div_pos; lia|apply Z.div_lt_upper_bound; lia]).
  pose proof (Z.div_mod w 2). pose proof (Zmod_odd w). destruct (Z.odd w); simpl; lia.
Qed.
Lemma header_word_roundtrip_witness :
  0 <= 7 < u32_modulus /\ ready 7 = true /\ count 7 = 3 /\
  (ready (pack_ready_count true (2 ^ 31 + 5)) = true /\
   count (pack_ready_count true (2 ^ 31 + 5)) = 5 /\
   pack_ready_count (ready 7) (count 7) = 7).
Proof.
  split; [done|]. split; [done|]. split; [done|].
  apply (header_word_roundtrip true (2 ^ 31 + 5) 7). done.
Defined.

(** C27: [next_boundary_offset] returns a legal place for the block (aligned,
    not below the cursor, not straddling the primary/trailing boundary), and
    the lowest one; no [usize] operation in it wraps. *)
Theorem next_boundary_offset_optimal (cursor size align k : Z) :
  Z.max align 1 = 2 ^ k -> 0 <= k <= 62 -> 0 <= cursor -> 0 <= size ->
  cursor + size + 2 ^ k + PRIMARY_BYTES < usize_modulus ->
  placement cursor size (2 ^ k) (next_boundary_offset cursor size align) /\
  (forall o, placement cursor size (2 ^ k) o -> next_boundary_offset cursor size align <= o).
Proof. intros. by apply next_boundary_offset_best. Qed.
Lemma next_boundary_offset_optimal_witness :
  next_boundary_offset 100 40 8 = 128 /\
  placement 100 40 (2 ^ 3) (next_boundary_offset 100 40 8) /\
  (forall o, placement 100 40 (2 ^ 3) o -> next_boundary_offset 100 40 8 <= o).
Proof. split; [done|]. apply (next_boundary_offset_optimal 100 40 8 3); done. Defined.

(** A record header survives the raw write and the raw read through the
    slot; its byte image has the size and the field offsets that [repr(C)]
    gives the struct, whose discriminants are distinct. *)
Theorem record_header_roundtrip (h : RequestRecordHeader) :
  hdr_ok h ->
  hdr_of_bytes (hdr_to_bytes h) = Some h /\
  zlen (hdr_to_bytes h) = size_of_RequestRecordHeader /\
  (repr_C_offsets 0 fields_RequestRecordHeader).1 = [0; 16; 24; 28; 32; 36] /\
  field_at (hdr_to_bytes h) 16 8 = discriminant (property_ptr h) /\
  field_at (hdr_to_bytes h) 32 4 = args_offset h /\
  field_at (hdr_to_bytes h) 36 4 = repeat_count h.
Proof.
  intros Hok. split; [by apply hdr_of_to_bytes|]. split.
  { unfold zlen. by rewrite length_hdr_to_bytes. }
  split; [done|]. destruct (hdr_fields h Hok) as (_ & _ & ? & _ & _ & ? & ?). done.
Qed.
Lemma record_header_roundtrip_witness :
  let h := {| closure := {| data := 4096; vtable := 8192 |}; property_ptr := Terminate;
              captured_len := 8; args_len := 3; args_offset := 56; repeat_count := 255 |} in
  hdr_ok h /\ hdr_of_bytes (hdr_to_bytes h) = Some h /\
  zlen (hdr_to_bytes h) = size_of_RequestRecordHeader /\
  (repr_C_offsets 0 fields_RequestRecordHeader).1 = [0; 16; 24; 28; 32; 36] /\
  field_at (hdr_to_bytes h) 16 8 = discriminant (property_ptr h) /\
  field_at (hdr_to_bytes h) 32 4 = args_offset h /\
  field_at (hdr_to_bytes h) 36 4 = repeat_count h.
Proof.
  set (h := Build_RequestRecordHeader _ _ _ _ _ _). cbv zeta.
  assert (Hok : hdr_ok h) by (unfold hdr_ok, usize_modulus, u32_modulus; simpl; lia).
  split; [exact Hok|]. exact (record_header_roundtrip h Hok).
Defined.
