(* ===== verification/Serialization.v ===== *)
(** * Serialization: closures in slots ([src/runtime/serialization.rs])

    A closure value is its captured bytes (its env) together with its code,
    which is reached through a static vtable.  [SlotWriter] packs envs and
    argument bytes into a slot; [encode_closure] produces the record header;
    [decode_and_call] reads the env back through the header's fat pointer and
    runs the code the vtable names. *)
From S2P Require Import Prelude Slots.
Import header.
Local Open Scope Z_scope.

(** ** What a closure does to the property *)

(** How a call ends: normally, or by unwinding. *)
Inductive exit (R : Type) : Type :=
| Returned (r : R)
| Panicked.
Arguments Returned {R} r.
Arguments Panicked {R}.

(** The body of a closure over a property of type [T]: a sequence of atomic
    accesses to the property, ended by a result or a panic.  [Worker] executes
    whole the bodies that the trustee runs itself, [Service] access by access;
    bodies of launched fibers are always interleaved. *)
Inductive prog (T R : Type) : Type :=
| PRet (r : R)
| PPanic
| PStep (upd : T -> T) (k : T -> prog T R).
Arguments PRet {T R} r.
Arguments PPanic {T R}.
Arguments PStep {T R} upd k.

Fixpoint run_prog {T R} (p : prog T R) (t : T) : T * exit R :=
  match p with
  | PRet r => (t, Returned r)
  | PPanic => (t, Panicked)
  | PStep upd k => run_prog (k t) (upd t)
  end.

Definition prog_of_exit {T R} (e : exit R) : prog T R :=
  match e with Returned r => PRet r | Panicked => PPanic end.

(** A [FnOnce(&mut T) -> R] given by its effect and outcome. *)
Definition prog_of_fn {T R} (f : T -> T * exit R) : prog T R :=
  PStep (fun t => (f t).1) (fun t => prog_of_exit (f t).2).

Fixpoint prog_map {T R S} (g : R -> S) (p : prog T R) : prog T S :=
  match p with
  | PRet r => PRet (g r)
  | PPanic => PPanic
  | PStep upd k => PStep upd (fun t => prog_map g (k t))
  end.

Definition exit_map {R S} (g : R -> S) (e : exit R) : exit S :=
  match e with Returned r => Returned (g r) | Panicked => Panicked end.

Lemma run_prog_of_fn {T R} (f : T -> T * exit R) t : run_prog (prog_of_fn f) t = f t.
Proof. simpl. destruct (f t) as [t' []]; done. Qed.

Lemma run_prog_map {T R S} (g : R -> S) (p : prog T R) t :
  run_prog (prog_map g p) t = ((run_prog p t).1, exit_map g (run_prog p t).2).
Proof. revert t. induction p; intros t; simpl; auto. Qed.

(** ** Closure types and vtables *)

(** The three argument tuples with which the runtime calls closures:
    [(&mut T,)]; the property and an out pointer, where the body's result is
    the bytes it leaves there; the same with an argument slice. *)
Inductive fn_once (T : Type) : Type :=
| FnMut1 (run : list Z -> prog T unit)
| FnOut (run : list Z -> prog T (list Z))
| FnArgsOut (run : list Z -> list Z -> prog T (list Z)).
Arguments FnMut1 {T} run.
Arguments FnOut {T} run.
Arguments FnArgsOut {T} run.

(** A closure type [F]: [size_of::<F>()], [align_of::<F>()], its code, and
    the address of its static vtable. *)
Record closure_type (T : Type) := {
  f_size : Z;
  f_align : Z;
  f_run : fn_once T;
  f_vtable : Z;
}.
Arguments f_size {T} _.
Arguments f_align {T} _.
Arguments f_run {T} _.
Arguments f_vtable {T} _.

Record ErasedVTable (T : Type) := {
  vt_fn : closure_type T;     (* what [call_once_in_place] and [drop_in_place] were made from *)
  env_align : Z;
  env_size : Z;
}.
Arguments vt_fn {T} _.
Arguments env_align {T} _.
Arguments env_size {T} _.

Definition VTABLE {T} (F : closure_type T) : ErasedVTable T :=
  {| vt_fn := F; env_align := as_u32 (f_align F); env_size := as_u32 (f_size F) |}.

(** What [rustc] guarantees of a type's size and alignment. *)
Definition closure_ok {T} (F : closure_type T) : Prop :=
  0 <= f_size F < 2 ^ 63 /\ (exists k, 0 <= k <= 29 /\ f_align F = 2 ^ k) /\
  0 <= f_vtable F < usize_modulus.

(** ** Calling through the vtable *)
Section calls.
Context {T : Type}.
(** The static vtables of the program, by address. *)
Context (statics : Z -> option (ErasedVTable T)).

(** Moving [F] out of the slot; a zero-sized [F] is conjured. *)
Definition read_env (base : Z) (mem : list Z) (F : closure_type T) (env : Z) : res (list Z) :=
  if f_size F =? 0 then Ok []
  else res_of_option "env read out of the slot" (read_at mem (env - base) (f_size F)).

Definition call_once_shim_mut base mem F env : res (prog T unit) :=
  match f_run F with
  | FnMut1 run => f ← read_env base mem F env; Ok (run f)
  | _ => UB "vtable of another signature"
  end.
Definition call_once_shim_out base mem F env : res (prog T (list Z)) :=
  match f_run F with
  | FnOut run => f ← read_env base mem F env; Ok (run f)
  | _ => UB "vtable of another signature"
  end.
Definition call_once_shim_args base mem F env (args : list Z) : res (prog T (list Z)) :=
  match f_run F with
  | FnArgsOut run => f ← read_env base mem F env; Ok (run f args)
  | _ => UB "vtable of another signature"
  end.

Definition vtable_of (hdr : RequestRecordHeader) : res (ErasedVTable T) :=
  res_of_option "dangling vtable" (statics (vtable (closure hdr))).

(** [decode_and_call::<(&mut T,), ()>]. *)
Definition decode_and_call_mut base mem hdr : res (prog T unit) :=
  vt ← vtable_of hdr; call_once_shim_mut base mem (vt_fn vt) (data (closure hdr)).
(** [decode_and_call::<( *mut T, *mut u8), ()>]. *)
Definition decode_and_call_out base mem hdr : res (prog T (list Z)) :=
  vt ← vtable_of hdr; call_once_shim_out base mem (vt_fn vt) (data (closure hdr)).
(** [decode_and_call::<( *mut T, *mut u8, *const u8, u32), ()>]. *)
Definition decode_and_call_args base mem hdr (args : list Z) : res (prog T (list Z)) :=
  vt ← vtable_of hdr; call_once_shim_args base mem (vt_fn vt) (data (closure hdr)) args.
End calls.

(** ** The slot writer *)

Record SlotWriter := { base : Z; len : Z; cursor : Z }.

(** [SlotWriter::new] over a buffer of [n] bytes at address [addr]. *)
Definition SlotWriter_new (addr n : Z) : SlotWriter := {| base := addr; len := n; cursor := 0 |}.

Definition alloc_aligned (w : SlotWriter) (size align : Z) : res (Z * SlotWriter) :=
  let pos := next_boundary_offset (cursor w) size align in
  let cursor' := usize_add pos size in
  if cursor' <=? len w
  then Ok (base w + pos, {| base := base w; len := len w; cursor := cursor' |})
  else Panic "slot overflow".

(** Raw copy of [bs] to address [p] inside the writer's buffer [mem]. *)
Definition copy_to (w : SlotWriter) (mem : list Z) (p : Z) (bs : list Z) : res (list Z) :=
  res_of_option "write out of the slot" (write_at mem (p - base w) bs).

Definition write_bytes (w : SlotWriter) (mem : list Z) (bs : list Z)
    : res (Z * SlotWriter * list Z) :=
  '(p, w) ← alloc_aligned w (zlen bs) 1;
  mem ← copy_to w mem p bs;
  Ok (p, w, mem).

(** [NonNull::<u8>::dangling()]. *)
Definition dangling : Z := 1.

Definition encode_closure {T} (out : SlotWriter) (mem : list Z) (pp : PropertyPtr)
    (F : closure_type T) (f : list Z) (serialized_args : list Z)
    : res (RequestRecordHeader * SlotWriter * list Z) :=
  '(env_ptr_in_slot, out) ← alloc_aligned out (f_size F) (f_align F);
  mem ← (if f_size F =? 0 then Ok mem else copy_to out mem env_ptr_in_slot f);
  '(args_ptr_in_slot, out) ← alloc_aligned out (zlen serialized_args) 1;
  mem ← copy_to out mem args_ptr_in_slot serialized_args;
  let env_ptr := if f_size F =? 0 then dangling else env_ptr_in_slot in
  Ok ({| closure := {| data := env_ptr; vtable := f_vtable F |};
         property_ptr := pp;
         captured_len := as_u32 (f_size F);
         args_len := as_u32 (zlen serialized_args);
         args_offset := as_u32 (usize_sub args_ptr_in_slot (base out));
         repeat_count := 1 |}, out, mem).

(** A writer over the buffer [mem]: its cursor is inside, its length honest. *)
Definition writer_ok (w : SlotWriter) (mem : list Z) : Prop :=
  0 <= cursor w <= len w /\ len w = zlen mem /\ zlen mem < 2 ^ 32 /\
  0 <= base w /\ base w + zlen mem < usize_modulus.

(** ** The writer: lemmas *)
Section writer.
Implicit Types (w : SlotWriter) (mem : list Z) (size align k : Z).

Lemma writer_ok_mem w mem mem' : zlen mem' = zlen mem -> writer_ok w mem -> writer_ok w mem'.
Proof. unfold writer_ok. by intros ->. Qed.

(** Everything an allocation decides: where the block lies, or a panic. *)
Lemma alloc_aligned_spec w mem size align k :
  writer_ok w mem -> 0 <= size < 2 ^ 63 -> Z.max align 1 = 2 ^ k -> 0 <= k <= 29 ->
  let pos := next_boundary_offset (cursor w) size align in
  placement (cursor w) size (2 ^ k) pos /\
  alloc_aligned w size align =
    if pos + size <=? len w
    then Ok (base w + pos, {| base := base w; len := len w; cursor := pos + size |})
    else Panic "slot overflow".
Proof.
  intros ([Hc Hcl] & Hl & Hm & Hb) Hs Ha Hk pos.
  assert (Hp : 0 < 2 ^ k <= 2 ^ 29).
  { split; [apply Z.pow_pos_nonneg; lia|apply Z.pow_le_mono_r; lia]. }
  destruct (next_boundary_offset_best (cursor w) size align k) as [Hpl Hleast];
    unfold PRIMARY_BYTES, usize_modulus; try lia.
  assert (Hpos : pos <= up PRIMARY_BYTES (2 ^ k) + up (cursor w) (2 ^ k)).
  { pose proof (up_spec PRIMARY_BYTES (2 ^ k)). pose proof (up_spec (cursor w) (2 ^ k)).
    unfold pos. rewrite (next_boundary_offset_eq _ _ _ k) by (unfold PRIMARY_BYTES, usize_modulus; lia).
    unfold PRIMARY_BYTES in *. case_match; lia. }
  split; [exact Hpl|]. unfold alloc_aligned. fold pos.
  pose proof (up_spec PRIMARY_BYTES (2 ^ k)). pose proof (up_spec (cursor w) (2 ^ k)).
  destruct Hpl as [? _]. unfold PRIMARY_BYTES in *.
  rewrite usize_add_small by (unfold usize_modulus; lia). done.
Qed.

Lemma alloc_aligned_Ok w mem size align k p w' :
  writer_ok w mem -> 0 <= size < 2 ^ 63 -> Z.max align 1 = 2 ^ k -> 0 <= k <= 29 ->
  alloc_aligned w size align = Ok (p, w') ->
  let pos := p - base w in
  placement (cursor w) size (2 ^ k) pos /\
  w' = {| base := base w; len := len w; cursor := pos + size |} /\ pos + size <= len w.
Proof.
  intros Hw Hs Ha Hk Hal. cbv zeta.
  destruct (alloc_aligned_spec w mem size align k) as [Hpl He]; [done..|].
  rewrite He in Hal. case_match eqn:E; simplify_eq. zbool.
  replace (base w + _ - base w) with (next_boundary_offset (cursor w) size align) by lia.
  auto.
Qed.

Lemma placement_writer w mem size a pos :
  writer_ok w mem -> placement (cursor w) size a pos -> 0 <= size -> pos + size <= len w ->
  writer_ok {| base := base w; len := len w; cursor := pos + size |} mem.
Proof. intros ([Hc Hl] & Hrest) [Ho _] Hs Hp. split; simpl in *; [lia|done]. Qed.

Lemma placement_unaligned cursor size pos :
  0 <= size -> placement cursor size 1 pos -> cursor <= pos.
Proof. by intros _ [? _]. Qed.

Lemma copy_to_inv w mem p bs mem' :
  copy_to w mem p bs = Ok mem' -> write_at mem (p - base w) bs = Some mem'.
Proof. apply res_of_option_Ok. Qed.

Lemma copy_to_fits w mem p bs :
  0 <= p - base w -> p - base w + zlen bs <= zlen mem -> exists mem', copy_to w mem p bs = Ok mem'.
Proof. intros H1 H2. destruct (write_at_Some _ _ _ H1 H2) as [m' E]. unfold copy_to. rewrite E. by eexists. Qed.
End writer.

(** ** Encoding: lemmas *)
Section encoding.
Context {T : Type}.
Implicit Types (w : SlotWriter) (mem f args : list Z) (F : closure_type T) (hdr : RequestRecordHeader).

(** Writing the env: nothing for a zero-sized closure. *)
Definition put_env w mem (p : Z) F f : res (list Z) :=
  if f_size F =? 0 then Ok mem else copy_to w mem p f.

Lemma put_env_spec w mem p F f mem' :
  zlen f = f_size F -> put_env w mem p F f = Ok mem' ->
  zlen mem' = zlen mem /\
  (f_size F <> 0 -> read_at mem' (p - base w) (f_size F) = Some f) /\
  (forall o n, o + n <= p - base w -> read_at mem' o n = read_at mem o n).
Proof.
  unfold put_env. intros Hf H. destruct (Z.eqb_spec (f_size F) 0) as [E|E].
  - simplify_eq. done.
  - apply copy_to_inv in H. split_and!.
    + by eapply write_at_zlen.
    + intros _. by eapply read_write_same.
    + intros o n Ho. eapply read_write_before; eauto.
Qed.

(** The header that describes an env at [envo] and arguments at [argo]. *)
Definition record_header w pp F args envo argo : RequestRecordHeader :=
  {| closure := {| data := if f_size F =? 0 then dangling else base w + envo;
                   vtable := f_vtable F |};
     property_ptr := pp; captured_len := f_size F; args_len := zlen args;
     args_offset := argo; repeat_count := 1 |}.

Lemma closure_ok_align F :
  closure_ok F -> exists k, 0 <= k <= 29 /\ f_align F = 2 ^ k /\ Z.max (f_align F) 1 = 2 ^ k.
Proof.
  intros (_ & (k & Hk & ->) & _). exists k. split; [done|]. split; [done|].
  assert (0 < 2 ^ k) by (apply Z.pow_pos_nonneg; lia). lia.
Qed.

(** The allocation of the argument bytes and their copy. *)
Lemma put_args_inv w mem args q w' mem' :
  writer_ok w mem -> zlen args < 2 ^ 63 ->
  alloc_aligned w (zlen args) 1 = Ok (q, w') -> copy_to w' mem q args = Ok mem' ->
  exists argo,
    placement (cursor w) (zlen args) 1 argo /\ argo + zlen args <= len w /\
    q = base w + argo /\
    w' = {| base := base w; len := len w; cursor := argo + zlen args |} /\
    writer_ok w' mem' /\ zlen mem' = zlen mem /\
    read_at mem' argo (zlen args) = Some args /\
    (forall o n, o + n <= argo -> read_at mem' o n = read_at mem o n).
Proof.
  intros Hw Hz Hal Hcp.
  eapply (alloc_aligned_Ok _ _ _ _ 0) in Hal as (Hpl & -> & Hfit);
    [|exact Hw|unfold zlen in *; lia|done|lia].
  apply copy_to_inv in Hcp. simpl base in Hcp.
  pose proof (write_at_zlen _ _ _ _ Hcp) as Hl. exists (q - base w).
  split; [done|]. split; [done|]. split; [lia|]. split; [done|].
  split; [|split; [done|split; [by eapply read_write_same|]]].
  - apply (writer_ok_mem _ mem); [done|].
    eapply placement_writer; [done..|unfold zlen; lia|done].
  - intros o n Ho. by eapply read_write_before.
Qed.

Lemma encode_closure_inv w mem pp F f args hdr w' mem' :
  writer_ok w mem -> closure_ok F -> zlen f = f_size F -> zlen args < 2 ^ 63 ->
  encode_closure w mem pp F f args = Ok (hdr, w', mem') ->
  exists envo argo,
    placement (cursor w) (f_size F) (f_align F) envo /\
    placement (envo + f_size F) (zlen args) 1 argo /\
    hdr = record_header w pp F args envo argo /\
    cursor w' = argo + zlen args /\ writer_ok w' mem' /\ zlen mem' = zlen mem /\
    (f_size F <> 0 -> read_at mem' envo (f_size F) = Some f) /\
    read_at mem' argo (zlen args) = Some args /\
    (forall o n, o + n <= cursor w -> read_at mem' o n = read_at mem o n).
Proof.
  intros Hw HF Hf Hz He. pose proof (closure_ok_align F HF) as (k & Hk & Ha & Hmax).
  destruct HF as (Hs & _ & Hv). unfold encode_closure in He.
  apply res_bind_Ok in He as ((p & w1) & Hal & He).
  eapply (alloc_aligned_Ok _ _ _ _ k) in Hal as (Hpl & -> & Hfit); [|done..].
  apply res_bind_Ok in He as (m1 & Hm1 & He).
  apply (put_env_spec {| base := base w; len := len w; cursor := _ |}) in Hm1
    as (Hl1 & Hr1 & Hb1); [|done]. simpl base in Hr1, Hb1.
  pose proof (placement_writer _ _ _ _ _ Hw Hpl (proj1 Hs) Hfit) as Hw1.
  apply (writer_ok_mem _ _ m1) in Hw1; [|done].
  apply res_bind_Ok in He as ((q & w2) & Hal & He).
  apply res_bind_Ok in He as (m2 & Hm2 & He).
  destruct (put_args_inv _ _ _ _ _ _ Hw1 Hz Hal Hm2)
    as (argo & Hpl2 & Hfit2 & -> & -> & Hw2 & Hl2 & Hr2 & Hb2).
  simpl in *. injection He as <- <- <-.
  exists (p - base w), argo. rewrite <-Ha in Hpl.
  destruct Hpl2 as [Hge Hns]. destruct Hw as (Hc & Hlen & H32 & Hbase), Hpl as [Hge1 Hns1].
  assert (0 <= zlen args) by (unfold zlen; lia).
  split; [done|]. split; [done|]. split.
  { unfold record_header. rewrite !as_u32_small, usize_sub_small by
      (unfold u32_modulus, usize_modulus in *; lia || (rewrite usize_sub_small; unfold usize_modulus in *; lia)).
    repeat f_equal; [|lia]. case_match; lia. }
  split; [done|]. split; [done|]. split; [lia|]. split; [|split; [done|]].
  - intros Hne. rewrite Hb2 by lia. auto.
  - intros o n Ho. rewrite Hb2, Hb1 by lia. done.
Qed.

(** Its fields are within their widths. *)
Lemma record_header_ok w mem pp F args envo argo n :
  writer_ok w mem -> closure_ok F -> 0 <= envo -> envo + f_size F <= argo ->
  argo + zlen args <= len w -> 0 <= n < u32_modulus ->
  let h := record_header w pp F args envo argo in
  hdr_ok {| closure := closure h; property_ptr := pp; captured_len := captured_len h;
            args_len := args_len h; args_offset := args_offset h; repeat_count := n |}.
Proof.
  intros (Hc & Hl & H32 & Hb0 & Hb) ((Hs & _) & _ & Hv) H1 H2 H3 Hn.
  unfold hdr_ok, u32_modulus, usize_modulus in *. simpl. unfold zlen in *.
  case_match; unfold dangling; lia.
Qed.

(** Whether env and arguments fit below the writer's length. *)
Definition encoding_fits w F args : bool :=
  let envo := next_boundary_offset (cursor w) (f_size F) (f_align F) in
  let argo := next_boundary_offset (envo + f_size F) (zlen args) 1 in
  (envo + f_size F <=? len w) && (argo + zlen args <=? len w).

Lemma put_env_fits w mem p F f :
  zlen f = f_size F -> 0 <= p - base w -> p - base w + f_size F <= zlen mem ->
  exists mem', put_env w mem p F f = Ok mem' /\ zlen mem' = zlen mem.
Proof.
  intros Hf H1 H2. unfold put_env. case_match; [by eexists|].
  rewrite <-Hf in H2. destruct (copy_to_fits w mem p f H1 H2) as [m' Hm]. exists m'.
  split; [done|]. by eapply write_at_zlen, copy_to_inv.
Qed.

(** Encoding succeeds exactly when everything fits, and otherwise panics:
    it never writes outside the slot. *)
Lemma encode_closure_cases w mem pp F f args :
  writer_ok w mem -> closure_ok F -> zlen f = f_size F -> zlen args < 2 ^ 63 ->
  if encoding_fits w F args
  then exists r, encode_closure w mem pp F f args = Ok r
  else encode_closure w mem pp F f args = Panic "slot overflow".
Proof.
  intros Hw HF Hf Hz. pose proof (closure_ok_align F HF) as (k & Hk & Ha & Hmax).
  destruct HF as (Hs & _ & _). assert (0 <= zlen args) by (unfold zlen; lia).
  unfold encoding_fits, encode_closure.
  destruct (alloc_aligned_spec w mem (f_size F) (f_align F) k) as [Hpl ->]; [done..|].
  set (envo := next_boundary_offset (cursor w) (f_size F) (f_align F)) in *.
  destruct (envo + f_size F <=? len w) eqn:E1; cbn [mbind res_bind andb]; [|done]. zbool.
  pose proof (placement_writer _ _ _ _ _ Hw Hpl (proj1 Hs) E1) as Hw1.
  set (w1 := {| base := base w; len := len w; cursor := envo + f_size F |}) in *.
  destruct Hpl as [Hge _], Hw as ([Hc _] & Hlen & _).
  destruct (put_env_fits w1 mem (base w + envo) F f) as (m1 & Hput & Hl1); simpl; [lia..|].
  unfold put_env in Hput. rewrite Hput. cbn [mbind res_bind].
  apply (writer_ok_mem _ mem m1) in Hw1; [|done].
  destruct (alloc_aligned_spec w1 m1 (zlen args) 1 0) as [[Hge2 _] ->]; [done|lia|done|lia|].
  simpl cursor in *. simpl len in *. simpl base in *.
  destruct (_ + zlen args <=? len w) eqn:E2; cbn [mbind res_bind]; [|done]. zbool.
  edestruct (copy_to_fits {| base := base w; len := len w; cursor := 0 |} m1
               (base w + next_boundary_offset (envo + f_size F) (zlen args) 1) args)
    as [m2 Hcp]; simpl; [lia|lia|].
  unfold copy_to in *. simpl base in *. rewrite Hcp. by eexists.
Qed.
End encoding.

(** ** Decoding: lemmas *)
Section decoding.
Context {T : Type} (statics : Z -> option (ErasedVTable T)).
Implicit Types (mem f args : list Z) (F : closure_type T) (hdr : RequestRecordHeader).

(** The env [f] of an [F] lies where the header's fat pointer says. *)
Definition env_stored (bs : Z) mem hdr F f : Prop :=
  statics (vtable (closure hdr)) = Some (VTABLE F) /\ zlen f = f_size F /\
  (f_size F <> 0 -> read_at mem (data (closure hdr) - bs) (f_size F) = Some f).

Lemma read_env_stored bs mem hdr F f :
  env_stored bs mem hdr F f -> read_env bs mem F (data (closure hdr)) = Ok f.
Proof.
  intros (_ & Hf & Hr). unfold read_env. destruct (Z.eqb_spec (f_size F) 0) as [E|E].
  - rewrite E in Hf. destruct f; [done|]. unfold zlen in Hf. simpl in Hf. lia.
  - by rewrite Hr.
Qed.

Lemma decode_stored_mut bs mem hdr F f run :
  env_stored bs mem hdr F f -> f_run F = FnMut1 run ->
  decode_and_call_mut statics bs mem hdr = Ok (run f).
Proof.
  intros Hs Hrun. pose proof (read_env_stored _ _ _ _ _ Hs) as Hr. destruct Hs as [Hv _].
  unfold decode_and_call_mut, vtable_of. rewrite Hv. simpl.
  unfold call_once_shim_mut. rewrite Hrun, Hr. done.
Qed.

Lemma decode_stored_out bs mem hdr F f run :
  env_stored bs mem hdr F f -> f_run F = FnOut run ->
  decode_and_call_out statics bs mem hdr = Ok (run f).
Proof.
  intros Hs Hrun. pose proof (read_env_stored _ _ _ _ _ Hs) as Hr. destruct Hs as [Hv _].
  unfold decode_and_call_out, vtable_of. rewrite Hv. simpl.
  unfold call_once_shim_out. rewrite Hrun, Hr. done.
Qed.

Lemma decode_stored_args bs mem hdr F f run args :
  env_stored bs mem hdr F f -> f_run F = FnArgsOut run ->
  decode_and_call_args statics bs mem hdr args = Ok (run f args).
Proof.
  intros Hs Hrun. pose proof (read_env_stored _ _ _ _ _ Hs) as Hr. destruct Hs as [Hv _].
  unfold decode_and_call_args, vtable_of. rewrite Hv. simpl.
  unfold call_once_shim_args. rewrite Hrun, Hr. done.
Qed.

(** An encoded closure is stored, also after writes below the old cursor. *)
Lemma encoded_stored w mem pp F f args hdr w' mem' mem'' :
  writer_ok w mem -> closure_ok F -> zlen f = f_size F -> zlen args < 2 ^ 63 ->
  statics (f_vtable F) = Some (VTABLE F) ->
  encode_closure w mem pp F f args = Ok (hdr, w', mem') ->
  (forall o n, cursor w <= o -> read_at mem'' o n = read_at mem' o n) ->
  env_stored (base w) mem'' hdr F f /\
  read_at mem'' (args_offset hdr) (args_len hdr) = Some args.
Proof.
  intros Hw HF Hf Hz Hv He Hsame.
  destruct (encode_closure_inv _ _ _ _ _ _ _ _ _ Hw HF Hf Hz He)
    as (envo & argo & [Hge _] & [Hge2 _] & -> & _ & _ & _ & Hr & Ha & _).
  destruct HF as [[Hs _] _].
  split; [split; [done|split; [done|]]|]; simpl.
  - intros Hne. apply Z.eqb_neq in Hne as E. rewrite E.
    replace (base w + envo - base w) with envo by lia. rewrite Hsame by lia. auto.
  - rewrite Hsame by lia. done.
Qed.
End decoding.

(** ** Properties *)

(** C25: a closure encoded with its argument bytes is decoded as that closure
    on those bytes: after any later writes below the old cursor (the record
    header is one), calling through the header runs the closure's own code on
    the captured bytes that were written, and the args window of the header
    holds exactly the serialized arguments. *)
Theorem encode_decode_roundtrip {T} (statics : Z -> option (ErasedVTable T))
    (w w' : SlotWriter) (mem mem' mem'' : list Z) (pp : PropertyPtr) (F : closure_type T)
    (f args : list Z) (hdr : RequestRecordHeader) (run : list Z -> list Z -> prog T (list Z)) :
  writer_ok w mem -> closure_ok F -> zlen f = f_size F -> zlen args < 2 ^ 63 ->
  statics (f_vtable F) = Some (VTABLE F) -> f_run F = FnArgsOut run ->
  encode_closure w mem pp F f args = Ok (hdr, w', mem') ->
  (forall o n, cursor w <= o -> read_at mem'' o n = read_at mem' o n) ->
  read_at mem'' (args_offset hdr) (args_len hdr) = Some args /\
  decode_and_call_args statics (base w) mem'' hdr args = Ok (run f args) /\
  property_ptr hdr = pp /\ repeat_count hdr = 1 /\ captured_len hdr = f_size F.
Proof.
  intros Hw HF Hf Hz Hv Hrun He Hsame.
  destruct (encoded_stored statics _ _ _ _ _ _ _ _ _ _ Hw HF Hf Hz Hv He Hsame) as [Hst Ha].
  destruct (encode_closure_inv _ _ _ _ _ _ _ _ _ Hw HF Hf Hz He)
    as (envo & argo & _ & _ & -> & _).
  split; [done|]. split; [by eapply decode_stored_args|done].
Qed.

(** C26: encoding never writes outside the slot: it either succeeds, leaving
    the writer's cursor inside the slot and every byte below the old cursor
    untouched, or panics with "slot overflow", and it succeeds exactly when
    env and arguments, placed as [next_boundary_offset] says, end inside. *)
Theorem encode_closure_in_bounds {T} (w : SlotWriter) (mem : list Z) (pp : PropertyPtr)
    (F : closure_type T) (f args : list Z) :
  writer_ok w mem -> closure_ok F -> zlen f = f_size F -> zlen args < 2 ^ 63 ->
  if encoding_fits w F args then
    exists hdr w' mem', encode_closure w mem pp F f args = Ok (hdr, w', mem') /\
      writer_ok w' mem' /\ zlen mem' = zlen mem /\ cursor w <= cursor w' /\
      (forall o n, o + n <= cursor w -> read_at mem' o n = read_at mem o n)
  else encode_closure w mem pp F f args = Panic "slot overflow".
Proof.
  intros Hw HF Hf Hz. pose proof (encode_closure_cases w mem pp F f args Hw HF Hf Hz) as He.
  destruct (encoding_fits w F args); [|done]. destruct He as [[[hdr w'] mem'] He].
  exists hdr, w', mem'.
  destruct (encode_closure_inv _ _ _ _ _ _ _ _ _ Hw HF Hf Hz He)
    as (envo & argo & [? _] & [? _] & _ & -> & Hw' & Hl & _ & _ & Hb).
  destruct HF as [[? _] _]. split; [done|]. split; [done|]. split; [done|].
  split; [unfold zlen; lia|done].
Qed.

(** An env is as aligned as the slot it lies in: offsets are aligned, but
    the slots are not.  [ChannelPair] has alignment 4, and 8 inside the [Arc]
    that holds it, 16 bytes from its start; so envs of alignment at most 8 are
    placed well, while one of alignment 16 or more is misaligned, for the
    typed read that moves it out, whenever the allocator returns an address
    that is 8 modulo 16. *)
Theorem env_alignment_of_slot {T} (w w' : SlotWriter) (mem mem' : list Z) (pp : PropertyPtr)
    (F : closure_type T) (f args : list Z) (hdr : RequestRecordHeader) :
  writer_ok w mem -> closure_ok F -> zlen f = f_size F -> zlen args < 2 ^ 63 -> f_size F <> 0 ->
  encode_closure w mem pp F f args = Ok (hdr, w', mem') ->
  data (closure hdr) mod f_align F = base w mod f_align F /\
  (base w mod 8 = 0 -> f_align F <= 8 -> data (closure hdr) mod f_align F = 0) /\
  (base w mod 16 = 8 -> 16 <= f_align F -> data (closure hdr) mod f_align F <> 0) /\
  l_align (repr_C fields_ChannelPair) = 4 /\
  (repr_C_offsets 0 (fields_ArcInner (repr_C fields_ChannelPair))).1 = [0; 8; 16] /\
  l_align (repr_C (fields_ArcInner (repr_C fields_ChannelPair))) = 8.
Proof.
  intros Hw HF Hf Hz Hne He.
  destruct (encode_closure_inv _ _ _ _ _ _ _ _ _ Hw HF Hf Hz He) as (envo & argo & Hpl & _ & -> & _).
  destruct HF as (_ & (k & Hk & Ha) & _). simpl. apply Z.eqb_neq in Hne as ->.
  assert (Hp : 0 < f_align F) by (rewrite Ha; apply Z.pow_pos_nonneg; lia).
  assert (Hm : (base w + envo) mod f_align F = base w mod f_align F).
  { rewrite Z.add_mod, (proj1 (proj2 Hpl)), Z.add_0_r, Z.mod_mod by lia. done. }
  split; [done|]. split; [|split; [|done]].
  - intros Hb H8. rewrite Hm. apply Z.mod_divide; [lia|]. apply Z.mod_divide in Hb; [|lia].
    etransitivity; [|exact Hb]. rewrite Ha in *.
    assert (k <= 3) by (apply (Z.pow_le_mono_r_iff 2); lia).
    exists (2 ^ (3 - k)). rewrite <-Z.pow_add_r by lia. by replace (3 - k + k) with 3 by lia.
  - intros Hb H16 E. rewrite Hm in E. apply Z.mod_divide in E; [|lia].
    assert ((16 | base w)) as H; [|apply Z.mod_divide in H; lia].
    etransitivity; [|exact E]. rewrite Ha in *.
    assert (4 <= k) by (apply (Z.pow_le_mono_r_iff 2); lia).
    exists (2 ^ (k - 4)). change 16 with (2 ^ 4). rewrite <-Z.pow_add_r by lia.
    by replace (k - 4 + 4) with k by lia.
Qed.

Module Examples.
(** A 4-byte closure over a counter: adds its captured byte and the first
    argument byte, returns the argument. *)
Definition add_fn : closure_type Z :=
  {| f_size := 4; f_align := 4;
     f_run := FnArgsOut (fun env args =>
       PStep (fun t => t + nth 0 env 0 + nth 0 args 0) (fun _ => PRet args));
     f_vtable := 4096 |}.
Definition add_statics (a : Z) : option (ErasedVTable Z) :=
  if a =? 4096 then Some (VTABLE add_fn) else None.
Definition writer : SlotWriter := {| base := 65536; len := SLOT_BYTES; cursor := 48 |}.
Definition slot : list Z := replicate (Z.to_nat SLOT_BYTES) 0.
Definition encoded : RequestRecordHeader * SlotWriter * list Z :=
  match encode_closure writer slot CallMutArgsOutPtr add_fn [7; 0; 0; 0] [35] with
  | Ok r => r
  | _ => ({| closure := {| data := 0; vtable := 0 |}; property_ptr := Terminate; captured_len := 0;
             args_len := 0; args_offset := 0; repeat_count := 0 |}, writer, slot)
  end.

Lemma writer_slot_ok : writer_ok writer slot.
Proof. unfold writer_ok. vm_compute. intuition discriminate. Qed.
Lemma add_fn_ok : closure_ok add_fn.
Proof. split; [done|]. split; [by exists 2|done]. Qed.

(** A closure that captures a 16-byte vector, in a slot at 8 modulo 16. *)
Definition vec_fn : closure_type Z :=
  {| f_size := 16; f_align := 16; f_run := FnMut1 (fun _ => PRet tt); f_vtable := 8192 |}.
Definition writer8 : SlotWriter := {| base := 65544; len := SLOT_BYTES; cursor := 48 |}.
Definition vec_encoded : RequestRecordHeader * SlotWriter * list Z :=
  match encode_closure writer8 slot CallMutRetUnit vec_fn (replicate 16 0) [] with
  | Ok r => r
  | _ => encoded
  end.
Lemma writer8_slot_ok : writer_ok writer8 slot.
Proof. unfold writer_ok. vm_compute. intuition discriminate. Qed.
Lemma vec_fn_ok : closure_ok vec_fn.
Proof. split; [done|]. split; [by exists 4|done]. Qed.
End Examples.

Lemma encode_decode_roundtrip_witness :
  let hdr := Examples.encoded.1.1 in
  let mem := Examples.encoded.2 in
  args_offset hdr = 52 /\ data (closure hdr) = 65536 + 48 /\
  (read_at mem (args_offset hdr) (args_len hdr) = Some [35] /\
   decode_and_call_args Examples.add_statics 65536 mem hdr [35] =
     Ok (PStep (fun t => t + 7 + 35) (fun _ => PRet [35])) /\
   property_ptr hdr = CallMutArgsOutPtr /\ repeat_count hdr = 1 /\ captured_len hdr = 4).
Proof.
  cbv zeta. split; [vm_compute; done|]. split; [vm_compute; done|].
  apply (encode_decode_roundtrip Examples.add_statics Examples.writer Examples.encoded.1.2
           Examples.slot Examples.encoded.2 Examples.encoded.2 CallMutArgsOutPtr Examples.add_fn
           [7; 0; 0; 0] [35] Examples.encoded.1.1
           (fun env args => PStep (fun t => t + nth 0 env 0 + nth 0 args 0) (fun _ => PRet args))
           Examples.writer_slot_ok Examples.add_fn_ok).
  - done.
  - done.
  - done.
  - done.
  - vm_compute. reflexivity.
  - done.
Defined.

Lemma encode_closure_in_bounds_witness :
  encoding_fits Examples.writer Examples.add_fn [35] = true /\
  (exists hdr w' mem',
     encode_closure Examples.writer Examples.slot CallMutArgsOutPtr Examples.add_fn [7; 0; 0; 0] [35]
       = Ok (hdr, w', mem') /\
     writer_ok w' mem' /\ zlen mem' = zlen Examples.slot /\ 48 <= cursor w' /\
     (forall o n, o + n <= 48 -> read_at mem' o n = read_at Examples.slot o n)).
Proof.
  split; [done|].
  exact (encode_closure_in_bounds Examples.writer Examples.slot CallMutArgsOutPtr Examples.add_fn
           [7; 0; 0; 0] [35] Examples.writer_slot_ok Examples.add_fn_ok eq_refl eq_refl).
Defined.

Lemma env_alignment_of_slot_witness :
  data (closure Examples.vec_encoded.1.1) mod 16 = 65544 mod 16 /\
  data (closure Examples.vec_encoded.1.1) mod 16 <> 0.
Proof.
  assert (He : encode_closure Examples.writer8 Examples.slot CallMutRetUnit Examples.vec_fn
                 (replicate 16 0) [] =
               Ok (Examples.vec_encoded.1.1, Examples.vec_encoded.1.2, Examples.vec_encoded.2))
    by (vm_compute; reflexivity).
  destruct (env_alignment_of_slot Examples.writer8 Examples.vec_encoded.1.2 Examples.slot
              Examples.vec_encoded.2 CallMutRetUnit Examples.vec_fn (replicate 16 0) []
              Examples.vec_encoded.1.1 Examples.writer8_slot_ok Examples.vec_fn_ok
              eq_refl eq_refl ltac:(done) He) as (H1 & _ & H3 & _).
  split; [exact H1|]. apply H3; done.
Defined.
