(* ===== verification/Remote.v ===== *)
(** * Remote: the client side of a channel ([src/trust/remote.rs])

    How a method of [Remote<T>] chooses between the local shortcut, a panic
    and delegation; the closures it builds; how it encodes a request record,
    flips the ready bit, polls the response and reads the result back. *)
From Stdlib Require Strings.Byte.
From S2P Require Import Prelude Slots Serialization.
Import header.
Local Open Scope Z_scope.

(** ** Typed values in slots *)

(** The object representation of the values of a Rust type: what
    [write_unaligned] stores and [read_unaligned] recovers. *)
Class Repr (A : Type) := {
  size_of : Z;
  to_bytes : A -> list Z;
  of_bytes : list Z -> option A;
  to_bytes_len : forall a, zlen (to_bytes a) = size_of;
  of_to_bytes : forall a, of_bytes (to_bytes a) = Some a;
}.
Arguments size_of A {_}.

Lemma size_of_nonneg {A} `{Repr A} (a : A) : 0 <= size_of A.
Proof. rewrite <-(to_bytes_len a). unfold zlen. lia. Qed.

#[export] Instance Repr_unit : Repr unit.
Proof.
  refine {| size_of := 0; to_bytes := fun _ => [];
            of_bytes := fun bs => match bs with [] => Some tt | _ => None end |}.
  - done.
  - by intros [].
Defined.

#[export] Instance Repr_bool : Repr bool.
Proof.
  refine {| size_of := 1; to_bytes := fun b => [Z.b2z b];
            of_bytes := fun bs =>
              if decide (bs = [0]) then Some false
              else if decide (bs = [1]) then Some true else None |}.
  - done.
  - by intros [].
Defined.

(** [u8]. *)
#[export] Instance Repr_u8 : Repr Byte.byte.
Proof.
  refine {| size_of := 1; to_bytes := fun b => [Z.of_N (Byte.to_N b)];
            of_bytes := fun bs => match bs with [z] => Byte.of_N (Z.to_N z) | _ => None end |}.
  - done.
  - intros a. rewrite N2Z.id. apply Byte.of_to_N.
Defined.

(** Serialisation of arguments: [bincode::serialize] / [bincode::deserialize],
    of which the code relies on the round trip only. *)
Class Bincode (V : Type) := {
  serialize : V -> list Z;
  deserialize : list Z -> option V;
  bincode_roundtrip : forall v, deserialize (serialize v) = Some v;
}.

(** ** Closures passed to the methods *)

(** A closure value [f: impl FnOnce(&mut T, A) -> R]: its captured bytes, its
    layout, its body, and the address of the vtable of the adapter the method
    wraps around it (one static per monomorphisation). *)
Record user_fn (T A R : Type) := {
  u_size : Z;
  u_align : Z;
  u_env : list Z;
  u_body : list Z -> A -> prog T R;
  u_vtable : Z;
}.
Arguments u_size {T A R} _.
Arguments u_align {T A R} _.
Arguments u_env {T A R} _.
Arguments u_body {T A R} _.
Arguments u_vtable {T A R} _.

(** What calling [u] does. *)
Definition call {T A R} (u : user_fn T A R) (a : A) : prog T R := u_body u (u_env u) a.

(** [move |(p, out)| { let r = f(&mut *p); write_unaligned(out, r); }], the
    adapter of [apply], [with] and [launch]. *)
Definition out_closure {T R} `{Repr R} (u : user_fn T unit R) : closure_type T :=
  {| f_size := u_size u; f_align := u_align u;
     f_run := FnOut (fun env => prog_map to_bytes (u_body u env tt));
     f_vtable := u_vtable u |}.

(** The adapter of [apply_with]: deserialise, call, write the result. *)
Definition args_closure {T V R} `{Repr R} `{Bincode V} (u : user_fn T V R) : closure_type T :=
  {| f_size := u_size u; f_align := u_align u;
     f_run := FnArgsOut (fun env bytes =>
       match deserialize bytes with
       | Some v => prog_map to_bytes (u_body u env v)
       | None => PPanic
       end);
     f_vtable := u_vtable u |}.

(** [move |(p,)| (f)(p)] of [apply_batch_mut]. *)
Definition batch_closure {T} (u : user_fn T unit unit) : closure_type T :=
  {| f_size := u_size u; f_align := u_align u;
     f_run := FnMut1 (fun env => u_body u env tt);
     f_vtable := u_vtable u |}.

(** [|_p| ()] of [into_inner]: zero-sized, never called. *)
Definition into_inner_closure (T : Type) (vt : Z) : closure_type T :=
  {| f_size := 0; f_align := 1; f_run := FnMut1 (fun _ => PRet tt); f_vtable := vt |}.

(** ** Where a call runs *)

Record Registrar := { trustee_id : Z; trustee_prop : Z }.
(** The calling thread: its id and its [IS_TRUSTEE_THREAD] flag. *)
Record thread := { thread_id : Z; is_trustee_thread : bool }.

Inductive route := Shortcut | Delegate.

Definition prohibited : string :=
  "Blocking delegation is prohibited on trustee thread. Use `apply_then` or `launch` instead.".

Definition on_trustee (reg : Registrar) (th : thread) : bool :=
  negb (trustee_id reg =? 0) && (trustee_id reg =? thread_id th) && negb (trustee_prop reg =? 0).

(** The prologue of [apply], [apply_with] and [apply_batch_mut]. *)
Definition apply_route (reg : Registrar) (th : thread) : res route :=
  if on_trustee reg th then Ok Shortcut
  else if is_trustee_thread th then Panic prohibited
  else Ok Delegate.

(** [with] has the shortcut but not the check; [launch] has neither. *)
Definition with_route (reg : Registrar) (th : thread) : res route :=
  if on_trustee reg th then Ok Shortcut else Ok Delegate.
Definition launch_route (reg : Registrar) (th : thread) : res route := Ok Delegate.

(** [into_inner]: the check, then the owner assertion, and no shortcut. *)
Definition into_inner_route (has_owner : bool) (reg : Registrar) (th : thread) : res route :=
  if is_trustee_thread th then Panic prohibited
  else if has_owner then Ok Delegate
  else Panic "Remote::into_inner requires owned runtime".

(** [apply_then] and [launch_then] are [apply] and [launch] followed by the
    continuation. *)
Definition apply_then_route := apply_route.
Definition launch_then_route := launch_route.

(** ** Submitting a request *)

Definition hdr_offset : Z :=
  next_boundary_offset HEADER_BYTES size_of_RequestRecordHeader align_of_RequestRecordHeader.
Definition payload_offset : Z := hdr_offset + size_of_RequestRecordHeader.

(** The writer a method sets up over its request slot. *)
Definition payload_writer (c : ChannelPair) : SlotWriter :=
  {| base := cp_base c; len := SLOT_BYTES; cursor := payload_offset |}.

Definition set_repeat (hdr : RequestRecordHeader) (n : Z) : RequestRecordHeader :=
  {| closure := closure hdr; property_ptr := property_ptr hdr; captured_len := captured_len hdr;
     args_len := args_len hdr; args_offset := args_offset hdr; repeat_count := n |}.

(** [write_unaligned(hdr_ptr, hdr)]. *)
Definition put_header (mem : list Z) (hdr : RequestRecordHeader) : res (list Z) :=
  res_of_option "header write out of the slot" (write_at mem hdr_offset (hdr_to_bytes hdr)).

(** Encode the closure at the payload offset and the header before it. *)
Definition put_record {T} (c : ChannelPair) (pp : PropertyPtr) (F : closure_type T)
    (f args : list Z) (repeat : Z) : res ChannelPair :=
  '(hdr, _, mem) ← encode_closure (payload_writer c) (request c) pp F f args;
  mem ← put_header mem (set_repeat hdr repeat);
  Ok (set_request c mem).

Section methods.
Context {T : Type}.

Definition apply_record {R} `{Repr R} (c : ChannelPair) (u : user_fn T unit R) : res ChannelPair :=
  put_record c CallMutOutPtr (out_closure u) (u_env u) [] 1.
Definition apply_with_record {V R} `{Repr R} `{Bincode V}
    (c : ChannelPair) (u : user_fn T V R) (w : V) : res ChannelPair :=
  put_record c CallMutArgsOutPtr (args_closure u) (u_env u) (serialize w) 1.
Definition with_record {R} `{Repr R} (c : ChannelPair) (u : user_fn T unit R) : res ChannelPair :=
  put_record c CallMutOutPtr (out_closure u) (u_env u) [] 1.
(** [n: u8], stored as [n as u32]. *)
Definition apply_batch_mut_record (c : ChannelPair) (u : user_fn T unit unit) (n : Z) : res ChannelPair :=
  put_record c CallMutRetUnit (batch_closure u) (u_env u) [] n.
Definition into_inner_record (c : ChannelPair) (vt : Z) : res ChannelPair :=
  put_record c IntoInner (into_inner_closure T vt) [] [] 1.
Definition launch_record {R} `{Repr R} (c : ChannelPair) (u : user_fn T unit R) : res ChannelPair :=
  put_record c Launch (out_closure u) (u_env u) [] 1.
End methods.

(** Publish: toggle the ready bit relative to the response, count 1. *)
Definition signal (c : ChannelPair) : ChannelPair * bool :=
  let resp_word := load_flags (response c) in
  let req_ready := negb (ready resp_word) in
  let word := pack_ready_count req_ready 1 in
  (set_request c (store_flags (request c) word), req_ready).

(** One probe of the wait loop. *)
Definition poll (c : ChannelPair) (req_ready : bool) : bool :=
  Bool.eqb (ready (load_flags (response c))) req_ready.

(** [read_unaligned(resp_data.cast::<R>())]. *)
Definition collect {R} `{Repr R} (c : ChannelPair) : res R :=
  bs ← res_of_option "response read out of the slot" (read_at (response c) HEADER_BYTES (size_of R));
  res_of_option "not a value of the result type" (of_bytes bs).

(** The record that [Runtime::drop] writes by hand: a null closure. *)
Definition terminate_header : RequestRecordHeader :=
  {| closure := {| data := 0; vtable := 0 |}; property_ptr := Terminate;
     captured_len := 0; args_len := 0; args_offset := 0; repeat_count := 0 |}.
Definition terminate_record (c : ChannelPair) : res ChannelPair :=
  mem ← put_header (request c) terminate_header; Ok (set_request c mem).
