(* ===== verification/Worker.v ===== *)
(** * Worker: how the trustee serves one channel ([src/runtime/runtime.rs])

    The body of the visit to one client in the worker loop: the ready-bit
    tests, the pending-launch bookkeeping, the loop over the records of a
    request, the dispatch on [PropertyPtr], and the response word; and the
    job a launch hands to a fiber. *)
From S2P Require Import Prelude Slots Serialization Remote.
Import header.
Local Open Scope Z_scope.

(** ** Worker-side data *)

Record ClientPair := { cp_pending_launch : bool; cp_launch_req_ready : bool }.

(** The pair that [register], [entrust] and [spawn_with_pin] push. *)
Definition ClientPair_new : ClientPair :=
  {| cp_pending_launch := false; cp_launch_req_ready := false |}.

(** [Job::Execute] captures the header and the ready bit of its request (and
    the channel, which the dispatcher adds). *)
Record launch_job := { job_hdr : RequestRecordHeader; job_req_ready : bool }.

Record served (T : Type) := {
  sv_prop : T;
  sv_chan : ChannelPair;
  sv_cp : ClientPair;
  sv_jobs : list launch_job;       (* launches handed to fibers, in order *)
  sv_deferred : bool;              (* [deferred_response] *)
}.
Arguments sv_prop {T} _.
Arguments sv_chan {T} _.
Arguments sv_cp {T} _.
Arguments sv_jobs {T} _.
Arguments sv_deferred {T} _.

(** How the body of the loop goes on: to the next record, out of the worker
    by [return] (after [IntoInner] or [Terminate]), out of it by unwinding
    from a closure, or into undefined behaviour. *)
Inductive flow (T A : Type) :=
| Next (a : A)
| Return (s : served T) (by_ : PropertyPtr)
| Unwind (s : served T)
| Undefined (why : string).
Arguments Next {T A} a.
Arguments Return {T A} s by_.
Arguments Unwind {T A} s.
Arguments Undefined {T A} why%_string.

Definition flow_bind {T A B} (m : flow T A) (f : A -> flow T B) : flow T B :=
  match m with
  | Next a => f a
  | Return s b => Return s b
  | Unwind s => Unwind s
  | Undefined w => Undefined w
  end.

(** A computation that cannot panic by itself: its panics are unwinding. *)
Definition lift {T A B} (s : served T) (m : res A) (f : A -> flow T B) : flow T B :=
  match m with
  | Ok a => f a
  | Panic _ => Unwind s
  | UB w => Undefined w
  end.

Definition set_prop {T} (s : served T) (t : T) : served T :=
  {| sv_prop := t; sv_chan := sv_chan s; sv_cp := sv_cp s; sv_jobs := sv_jobs s;
     sv_deferred := sv_deferred s |}.
Definition set_chan {T} (s : served T) (c : ChannelPair) : served T :=
  {| sv_prop := sv_prop s; sv_chan := c; sv_cp := sv_cp s; sv_jobs := sv_jobs s;
     sv_deferred := sv_deferred s |}.

Section worker.
Context {T : Type} `{Repr T} (statics : Z -> option (ErasedVTable T)).

(** [for _ in 0..hdr.repeat_count { decode_and_call(..) }]. *)
Fixpoint call_repeat (n : nat) (base : Z) (mem : list Z) (hdr : RequestRecordHeader) (t : T)
    : res (T * exit unit) :=
  match n with
  | O => Ok (t, Returned tt)
  | S n =>
      p ← decode_and_call_mut statics base mem hdr;
      match run_prog p t with
      | (t, Returned _) => call_repeat n base mem hdr t
      | (t, Panicked) => Ok (t, Panicked)
      end
  end.

(** The out pointer of a call: the response data region. *)
Definition write_out (c : ChannelPair) (bs : list Z) : res ChannelPair :=
  m ← res_of_option "result write out of the response slot"
        (write_at (response c) HEADER_BYTES bs);
  Ok (set_response c m).

(** Run a closure whole on the trustee and let it write its result. *)
Definition run_out (s : served T) (p : prog T (list Z)) : flow T (served T) :=
  match run_prog p (sv_prop s) with
  | (t, Returned bs) =>
      lift s (write_out (sv_chan s) bs) (fun c => Next (set_chan (set_prop s t) c))
  | (t, Panicked) => Unwind (set_prop s t)
  end.

(** [match hdr.property_ptr { .. }]. *)
Definition exec_record (hdr : RequestRecordHeader) (req_ready : bool) (s : served T)
    : flow T (served T) :=
  let c := sv_chan s in
  match property_ptr hdr with
  | CallMutRetUnit =>
      lift s (call_repeat (Z.to_nat (repeat_count hdr)) (cp_base c) (request c) hdr (sv_prop s))
        (fun '(t, e) =>
           match e with
           | Returned _ => Next (set_prop s t)
           | Panicked => Unwind (set_prop s t)
           end)
  | CallMutOutPtr =>
      lift s (decode_and_call_out statics (cp_base c) (request c) hdr) (run_out s)
  | CallMutArgsOutPtr =>
      lift s (res_of_option "args slice out of the slot"
                (read_at (request c) (args_offset hdr) (args_len hdr))) (fun args =>
      lift s (decode_and_call_args statics (cp_base c) (request c) hdr args) (run_out s))
  | IntoInner =>
      lift s (write_out c (to_bytes (sv_prop s))) (fun c =>
        let req_word_now := load_flags (request c) in
        let new_word := pack_ready_count (ready req_word_now) 1 in
        Return (set_chan s (set_response c (store_flags (response c) new_word))) IntoInner)
  | Launch =>
      Next {| sv_prop := sv_prop s; sv_chan := c;
              sv_cp := {| cp_pending_launch := true; cp_launch_req_ready := req_ready |};
              sv_jobs := sv_jobs s ++ [{| job_hdr := hdr; job_req_ready := req_ready |}];
              sv_deferred := true |}
  | Terminate => Return s Terminate
  end.

(** [core::ptr::read_unaligned(record_ptr as *const RequestRecordHeader)]. *)
Definition read_header (c : ChannelPair) (cursor : Z) : res RequestRecordHeader :=
  bs ← res_of_option "record header out of the slot"
         (read_at (request c) cursor size_of_RequestRecordHeader);
  res_of_option "not a PropertyPtr" (hdr_of_bytes bs).

(** [for _ in 0..req_count { .. }] with its header cursor. *)
Fixpoint process_records (n : nat) (header_cursor processed : Z) (req_ready : bool) (s : served T)
    : flow T (served T * Z) :=
  match n with
  | O => Next (s, processed)
  | S n =>
      let cur := next_boundary_offset header_cursor size_of_RequestRecordHeader
                   align_of_RequestRecordHeader in
      lift s (read_header (sv_chan s) cur) (fun hdr =>
      flow_bind (exec_record hdr req_ready s) (fun s =>
      process_records n (cur + size_of_RequestRecordHeader) (processed + 1) req_ready s))
  end.

(** The response word, unless a launch defers it. *)
Definition respond (req_ready : bool) (processed : Z) (s : served T) : served T :=
  if sv_deferred s then s
  else set_chan s (set_response (sv_chan s)
         (store_flags (response (sv_chan s)) (pack_ready_count req_ready (as_u32 processed)))).

(** The pending-launch tests; [None] is "still in progress, skip". *)
Definition launch_gate (cp : ClientPair) (req_ready resp_ready : bool) : option ClientPair :=
  let cleared := {| cp_pending_launch := false; cp_launch_req_ready := cp_launch_req_ready cp |} in
  if cp_pending_launch cp then
    if Bool.eqb req_ready resp_ready then Some cleared
    else if negb (Bool.eqb req_ready (cp_launch_req_ready cp)) then Some cleared
    else None
  else Some cp.

(** The visit to one client, given the two words it loaded.  [inl] is a
    [continue]: only the pair's own flags may have changed. *)
Definition visit (cp : ClientPair) (req_word resp_word : Z) (c : ChannelPair) (t : T)
    : ClientPair + flow T (served T) :=
  let req_ready := ready req_word in
  let resp_ready := ready resp_word in
  match launch_gate cp req_ready resp_ready with
  | None => inl cp
  | Some cp =>
      if Bool.eqb req_ready resp_ready then inl cp
      else inr (
        flow_bind
          (process_records (Z.to_nat (count req_word)) HEADER_BYTES 0 req_ready
             {| sv_prop := t; sv_chan := c; sv_cp := cp; sv_jobs := []; sv_deferred := false |})
          (fun '(s, processed) => Next (respond req_ready processed s)))
  end.

(** ** The launched job, on a fiber *)

(** What the closure inside [Job::Execute] starts from. *)
Definition job_start (c : ChannelPair) (j : launch_job) : res (prog T (list Z)) :=
  decode_and_call_out statics (cp_base c) (request c) (job_hdr j).

(** [CompletionGuard::drop]. *)
Definition completion_guard_drop (req_ready : bool) (c : ChannelPair) : ChannelPair :=
  set_response c (store_flags (response c) (pack_ready_count req_ready 1)).

(** The end of the job: the result is written if there is one, then the
    guard drops, on return and on unwinding alike. *)
Definition job_finish (j : launch_job) (e : exit (list Z)) (c : ChannelPair) : res ChannelPair :=
  match e with
  | Returned bs => c ← write_out c bs; Ok (completion_guard_drop (job_req_ready j) c)
  | Panicked => Ok (completion_guard_drop (job_req_ready j) c)
  end.

(** The whole job, when nothing interleaves. *)
Definition run_job (c : ChannelPair) (j : launch_job) (t : T) : res (T * ChannelPair) :=
  p ← job_start c j;
  let '(t, e) := run_prog p t in
  c ← job_finish j e c;
  Ok (t, c).
End worker.
