(* ===== verification/Delegation.v ===== *)
(** * Delegation: what one request does ([src/trust/remote.rs] with
    [src/runtime/runtime.rs])

    A client's record survives in the slot exactly as written until the
    trustee parses it; a visit to a signalled channel executes the closure on
    the property and answers with its result.  These facts are about bytes:
    the same record layout is computed twice, by the client and by the worker. *)
From S2P Require Import Prelude Slots Serialization Remote Worker.
Import header.
Local Open Scope Z_scope.

(** A channel whose request slot lies inside the address space. *)
Definition channel_wf (c : ChannelPair) : Prop :=
  channel_ok c /\ 0 <= cp_base c /\ cp_base c + SLOT_BYTES < usize_modulus.

Section delegation.
Context {T : Type} `{Repr T} (statics : Z -> option (ErasedVTable T)).
Implicit Types (c : ChannelPair) (F : closure_type T) (f args : list Z) (b : bool).

(** The request slot of [c] holds the record [hdr] of closure [f : F]. *)
Record record_at c pp F f args n (hdr : RequestRecordHeader) : Prop := {
  ra_read : read_header c hdr_offset = Ok hdr;
  ra_property : property_ptr hdr = pp;
  ra_repeat : repeat_count hdr = n;
  ra_env : env_stored statics (cp_base c) (request c) hdr F f;
  ra_args : read_at (request c) (args_offset hdr) (args_len hdr) = Some args;
  ra_env_data : f_size F <> 0 -> HEADER_BYTES <= data (closure hdr) - cp_base c;
  ra_args_data : HEADER_BYTES <= args_offset hdr;
}.
Definition record_in c pp F f args n : Prop := exists hdr, record_at c pp F f args n hdr.

(** It depends only on the data region of the request slot. *)
Lemma record_at_ext c c' pp F f args n hdr :
  cp_base c' = cp_base c ->
  (forall o k, HEADER_BYTES <= o -> read_at (request c') o k = read_at (request c) o k) ->
  record_at c pp F f args n hdr -> record_at c' pp F f args n hdr.
Proof.
  intros Hb Hsame [Hh Hp Hn (Hv & Hf & He) Ha Hed Had].
  constructor; try done.
  - unfold read_header. by rewrite Hsame.
  - split; [done|]. split; [done|]. intros Hne. rewrite Hb, Hsame; auto.
  - by rewrite Hsame.
  - by rewrite Hb.
Qed.

Lemma hdr_offset_eq : hdr_offset = 8. Proof. reflexivity. Qed.
Lemma payload_offset_eq : payload_offset = 48. Proof. reflexivity. Qed.

Lemma payload_writer_ok c : channel_wf c -> writer_ok (payload_writer c) (request c).
Proof.
  intros ((Hq & _) & Hb & Hm). unfold writer_ok, payload_writer, SLOT_BYTES in *.
  simpl. rewrite Hq, payload_offset_eq. unfold PRIMARY_BYTES, TRAILING_BYTES in *. lia.
Qed.

(** What [put_record] leaves in the channel. *)
Lemma put_record_spec c pp F f args n c' :
  channel_wf c -> closure_ok F -> zlen f = f_size F -> zlen args < 2 ^ 63 ->
  0 <= n < u32_modulus -> statics (f_vtable F) = Some (VTABLE F) ->
  put_record c pp F f args n = Ok c' ->
  channel_wf c' /\ cp_base c' = cp_base c /\ response c' = response c /\
  load_flags (request c') = load_flags (request c) /\
  record_in c' pp F f args n.
Proof.
  intros Hc HF Hf Hz Hn Hv Hput. pose proof (payload_writer_ok c Hc) as Hw.
  unfold put_record in Hput.
  apply res_bind_Ok in Hput as (((hdr & w') & mem) & He & Hput).
  apply res_bind_Ok in Hput as (mem' & Hp & [= <-]).
  pose proof Hp as Hw'. apply res_of_option_Ok in Hw'.
  assert (Hsame : forall o k, payload_offset <= o -> read_at mem' o k = read_at mem o k).
  { intros o k Ho. eapply read_write_after; [done|].
    unfold zlen. by rewrite length_hdr_to_bytes. }
  destruct (encoded_stored statics _ _ _ _ _ _ _ _ _ mem' Hw HF Hf Hz Hv He Hsame) as [Hst Har].
  destruct (encode_closure_inv _ _ _ _ _ _ _ _ _ Hw HF Hf Hz He)
    as (envo & argo & [Hge1 _] & [Hge2 _] & Hh & Hcur & Hw2 & Hl & _ & _ & Hb).
  pose proof (write_at_zlen _ _ _ _ Hw') as Hl'.
  assert (Hsz : 0 <= f_size F /\ 0 <= zlen args) by (destruct HF as [[? _] _]; unfold zlen; lia).
  destruct Hw2 as (Hc2 & Hlen2 & _). pose proof (proj1 (proj2 Hw)) as Hlen.
  pose proof payload_offset_eq as Hpo. simpl cursor in Hge1.
  assert (Hok : hdr_ok (set_repeat hdr n)).
  { rewrite Hh. eapply record_header_ok; [exact Hw|done|lia|lia|lia|done]. }
  destruct Hc as ((Hq & Hr) & Hbase).
  split; [split; [split; simpl; [lia|done]|done]|]. split; [done|]. split; [done|]. split.
  { simpl. rewrite (load_flags_write _ _ _ _ Hw') by (rewrite hdr_offset_eq; done).
    apply load_flags_read; [rewrite Hq; done|rewrite Hl, Hq; done|].
    apply Hb. unfold HEADER_BYTES. simpl. lia. }
  exists (set_repeat hdr n). constructor; try done.
  - unfold read_header. simpl.
    rewrite (read_write_same _ _ _ _ size_of_RequestRecordHeader Hw').
    + simpl. by rewrite hdr_of_to_bytes.
    + unfold zlen. by rewrite length_hdr_to_bytes.
  - by rewrite Hh.
  - intros Hne. apply Z.eqb_neq in Hne. rewrite Hh. simpl. rewrite Hne.
    unfold HEADER_BYTES. lia.
  - rewrite Hh. simpl. unfold HEADER_BYTES. lia.
Qed.

(** ** The visit to a channel that holds a record *)

Definition start_state c (cp : ClientPair) (t : T) : served T :=
  {| sv_prop := t; sv_chan := c; sv_cp := cp; sv_jobs := []; sv_deferred := false |}.

Lemma process_one c pp F f args n hdr b cp t :
  record_at c pp F f args n hdr ->
  process_records statics 1 HEADER_BYTES 0 b (start_state c cp t) =
  flow_bind (exec_record statics hdr b (start_state c cp t)) (fun s => Next (s, 1)).
Proof.
  intros [Hh _ _ _ _ _ _]. cbn [process_records]. fold hdr_offset. simpl sv_chan.
  rewrite Hh. simpl lift. done.
Qed.

(** A visit that passes the gate serves the one record. *)
Lemma visit_record c pp F f args n hdr cp cp' req_word resp_word b t :
  record_at c pp F f args n hdr ->
  ready req_word = b -> ready resp_word = negb b -> count req_word = 1 ->
  launch_gate cp b (negb b) = Some cp' ->
  visit statics cp req_word resp_word c t =
  inr (flow_bind (exec_record statics hdr b (start_state c cp' t))
         (fun s => Next (respond b 1 s))).
Proof.
  intros Hrec Hq Hr Hn Hg. unfold visit. rewrite Hq, Hr, Hg, Hn.
  replace (Bool.eqb b (negb b)) with false by (by destruct b).
  change (Z.to_nat 1) with 1%nat. fold (start_state c cp' t).
  rewrite (process_one _ _ _ _ _ _ _ _ _ _ Hrec).
  destruct (exec_record _ _ _ _); done.
Qed.

(** ** Executing a record *)

Definition fits_response (bs : list Z) : Prop := HEADER_BYTES + zlen bs <= SLOT_BYTES.

Lemma write_out_fits c bs :
  channel_ok c -> fits_response bs ->
  exists m, write_at (response c) HEADER_BYTES bs = Some m /\ write_out c bs = Ok (set_response c m).
Proof.
  intros [_ Hr] Hfit. unfold fits_response in Hfit. rewrite <-Hr in Hfit.
  destruct (write_at_Some (response c) HEADER_BYTES bs) as [m Hm]; [done..|].
  exists m. split; [done|]. unfold write_out. by rewrite Hm.
Qed.

Lemma run_out_returned s (p : prog T (list Z)) t bs :
  channel_ok (sv_chan s) -> run_prog p (sv_prop s) = (t, Returned bs) -> fits_response bs ->
  exists m, write_at (response (sv_chan s)) HEADER_BYTES bs = Some m /\
    run_out s p = Next (set_chan (set_prop s t) (set_response (sv_chan s) m)).
Proof.
  intros Hc Hp Hfit. destruct (write_out_fits _ _ Hc Hfit) as (m & Hm & Hw).
  exists m. split; [done|]. unfold run_out. rewrite Hp, Hw. done.
Qed.

Lemma run_out_panicked s (p : prog T (list Z)) t :
  run_prog p (sv_prop s) = (t, Panicked) -> run_out s p = Unwind (set_prop s t).
Proof. intros Hp. unfold run_out. by rewrite Hp. Qed.

Lemma exec_out c F f args n hdr run b cp t :
  record_at c CallMutOutPtr F f args n hdr -> f_run F = FnOut run ->
  exec_record statics hdr b (start_state c cp t) = run_out (start_state c cp t) (run f).
Proof.
  intros [_ Hp _ He _ _ _] Hrun. unfold exec_record. rewrite Hp. simpl sv_chan.
  by rewrite (decode_stored_out _ _ _ _ _ _ _ He Hrun).
Qed.

Lemma exec_args c F f args n hdr run b cp t :
  record_at c CallMutArgsOutPtr F f args n hdr -> f_run F = FnArgsOut run ->
  exec_record statics hdr b (start_state c cp t) = run_out (start_state c cp t) (run f args).
Proof.
  intros [_ Hp _ He Ha _ _] Hrun. unfold exec_record. rewrite Hp. simpl sv_chan. rewrite Ha.
  simpl lift. by rewrite (decode_stored_args _ _ _ _ _ _ _ _ He Hrun).
Qed.

(** A unit-returning closure run [n] times, stopping at a panic. *)
Fixpoint repeat_prog (n : nat) (p : prog T unit) (t : T) : T * exit unit :=
  match n with
  | O => (t, Returned tt)
  | S n => match run_prog p t with
           | (t, Returned _) => repeat_prog n p t
           | (t, Panicked) => (t, Panicked)
           end
  end.

Lemma call_repeat_stored k base mem hdr F f run t :
  env_stored statics base mem hdr F f -> f_run F = FnMut1 run ->
  call_repeat statics k base mem hdr t = Ok (repeat_prog k (run f) t).
Proof.
  intros He Hrun. revert t. induction k as [|k IH]; intros t; simpl; [done|].
  rewrite (decode_stored_mut _ _ _ _ _ _ _ He Hrun). simpl.
  destruct (run_prog (run f) t) as [t' [[]|]]; [apply IH|done].
Qed.

Lemma exec_batch c F f args n hdr run b cp t :
  record_at c CallMutRetUnit F f args n hdr -> f_run F = FnMut1 run ->
  exec_record statics hdr b (start_state c cp t) =
  match repeat_prog (Z.to_nat n) (run f) t with
  | (t, Returned _) => Next (set_prop (start_state c cp t) t)
  | (t', Panicked) => Unwind (set_prop (start_state c cp t) t')
  end.
Proof.
  intros [_ Hp Hn He _ _ _] Hrun. unfold exec_record. rewrite Hp. simpl sv_chan.
  rewrite (call_repeat_stored _ _ _ _ _ _ _ _ He Hrun), Hn. simpl.
  destruct (repeat_prog _ _ _) as [t' []]; done.
Qed.

(** ** One exchange: submit, serve, wait, collect *)

(** A handle together with the trustee that serves it; [rs_worker] is
    [None] once the worker has left its loop. *)
Record remote_state := {
  rs_chan : ChannelPair;
  rs_cp : ClientPair;
  rs_worker : option T;
}.

(** Fibers run the launched jobs to their end. *)
Fixpoint run_jobs (jobs : list launch_job) (c : ChannelPair) (t : T) : res (T * ChannelPair) :=
  match jobs with
  | [] => Ok (t, c)
  | j :: jobs => '(t, c) ← run_job statics c j t; run_jobs jobs c t
  end.

(** The caller's wait loop after the visit: it reads its result when the
    response matches, and otherwise ([None]) spins on. *)
Definition wait {R} (get : ChannelPair -> res R) (b : bool) (st : remote_state)
    : res (remote_state * option R) :=
  if poll (rs_chan st) b then r ← get (rs_chan st); Ok (st, Some r) else Ok (st, None).

Definition after_visit {R} (get : ChannelPair -> res R) (b : bool) (m : flow T (served T))
    : res (remote_state * option R) :=
  match m with
  | Next s =>
      '(t, c) ← run_jobs (sv_jobs s) (sv_chan s) (sv_prop s);
      wait get b {| rs_chan := c; rs_cp := sv_cp s; rs_worker := Some t |}
  | Return s _ | Unwind s =>
      wait get b {| rs_chan := sv_chan s; rs_cp := sv_cp s; rs_worker := None |}
  | Undefined why => UB why
  end.

Definition delegate {R} (put : ChannelPair -> res ChannelPair) (get : ChannelPair -> res R)
    (st : remote_state) : res (remote_state * option R) :=
  c1 ← put (rs_chan st);
  let '(c, b) := signal c1 in
  match rs_worker st with
  | None => wait get b {| rs_chan := c; rs_cp := rs_cp st; rs_worker := None |}
  | Some t =>
      match visit statics (rs_cp st) (load_flags (request c)) (load_flags (response c)) c t with
      | inl cp => wait get b {| rs_chan := c; rs_cp := cp; rs_worker := Some t |}
      | inr m => after_visit get b m
      end
  end.

Definition remote_apply {R} `{Repr R} (u : user_fn T unit R) :=
  delegate (fun c => apply_record c u) collect.
Definition remote_apply_with {V R} `{Repr R} `{Bincode V} (u : user_fn T V R) (w : V) :=
  delegate (fun c => apply_with_record c u w) collect.
Definition remote_with {R} `{Repr R} (u : user_fn T unit R) :=
  delegate (fun c => with_record c u) collect.
Definition remote_apply_batch_mut (u : user_fn T unit unit) (n : Z) :=
  delegate (fun c => apply_batch_mut_record c u n) (fun _ => Ok tt).
Definition remote_launch {R} `{Repr R} (u : user_fn T unit R) :=
  delegate (fun c => launch_record c u) collect.
Definition remote_into_inner (vt : Z) :=
  delegate (fun c => into_inner_record (T := T) c vt) (collect (R := T)).

(** Between two calls of its client: both ready bits agree, and a launch
    the worker still believes pending is the one that was just answered. *)
Record remote_ok (st : remote_state) : Prop := {
  ro_wf : channel_wf (rs_chan st);
  ro_idle : ready (load_flags (request (rs_chan st))) = ready (load_flags (response (rs_chan st)));
  ro_pending : cp_pending_launch (rs_cp st) = true ->
    cp_launch_req_ready (rs_cp st) = ready (load_flags (request (rs_chan st)));
}.

Lemma gate_opens cp b :
  (cp_pending_launch cp = true -> cp_launch_req_ready cp = negb b) ->
  exists cp', launch_gate cp b (negb b) = Some cp' /\ cp_pending_launch cp' = false.
Proof.
  unfold launch_gate. intros Hp. destruct cp as [[] l]; simpl in *; [|by eexists].
  rewrite Hp by done. destruct b; simpl; by eexists.
Qed.

Lemma signal_spec c :
  channel_wf c ->
  let b := negb (ready (load_flags (response c))) in
  let c' := (signal c).1 in
  (signal c).2 = b /\ channel_wf c' /\ cp_base c' = cp_base c /\ response c' = response c /\
  ready (load_flags (request c')) = b /\ count (load_flags (request c')) = 1 /\
  (forall o k, HEADER_BYTES <= o -> read_at (request c') o k = read_at (request c) o k).
Proof.
  intros ((Hq & Hr) & Hb). unfold signal. cbv zeta. simpl.
  rewrite load_store_flags by apply pack_range. rewrite ready_pack, count_pack.
  assert (HEADER_BYTES <= zlen (request c)) by (rewrite Hq; done).
  split; [done|]. split; [split; [split; simpl; [by rewrite store_flags_zlen|done]|done]|].
  split; [done|]. split; [done|]. split; [done|]. split; [done|].
  intros o k Ho. by apply read_store_flags.
Qed.

(** What a submission must have achieved for the exchange lemma. *)
Definition submitted c c1 pp F f args n : Prop :=
  channel_wf c1 /\ cp_base c1 = cp_base c /\ response c1 = response c /\
  load_flags (request c1) = load_flags (request c) /\ record_in c1 pp F f args n.

(** An exchange is the execution of the submitted record, then the wait. *)
Lemma delegate_executes {R} put (get : ChannelPair -> res R) st t c1 pp F f args n :
  remote_ok st -> rs_worker st = Some t ->
  put (rs_chan st) = Ok c1 -> submitted (rs_chan st) c1 pp F f args n ->
  let b := negb (ready (load_flags (response (rs_chan st)))) in
  exists c2 cp hdr,
    channel_wf c2 /\ cp_base c2 = cp_base c1 /\ response c2 = response (rs_chan st) /\
    ready (load_flags (request c2)) = b /\ cp_pending_launch cp = false /\
    record_at c2 pp F f args n hdr /\
    delegate put get st =
      after_visit get b (flow_bind (exec_record statics hdr b (start_state c2 cp t))
                           (fun s => Next (respond b 1 s))).
Proof.
  intros [Hwf Hidle Hpend] Hw Hput (Hwf1 & Hb1 & Hr1 & Hf1 & (hdr & Hrec)).
  cbv zeta. set (b := negb (ready (load_flags (response (rs_chan st))))).
  destruct (signal_spec c1 Hwf1) as (Hsb & Hwf2 & Hb2 & Hr2 & Hq2 & Hn2 & Hsame).
  rewrite Hr1 in Hsb, Hq2. fold b in Hsb, Hq2.
  assert (Hresp : ready (load_flags (response (signal c1).1)) = negb b).
  { rewrite Hr2, Hr1. unfold b. by rewrite negb_involutive. }
  destruct (gate_opens (rs_cp st) b) as (cp & Hg & Hcp).
  { intros Hp. rewrite (Hpend Hp), Hidle. unfold b. by rewrite negb_involutive. }
  exists (signal c1).1, cp, hdr. split; [done|]. split; [done|].
  split; [by rewrite Hr2|]. split; [done|]. split; [done|].
  assert (Hrec2 : record_at (signal c1).1 pp F f args n hdr) by (by eapply record_at_ext).
  split; [done|]. unfold delegate. rewrite Hput. cbn [mbind res_bind].
  rewrite (surjective_pairing (signal c1)), Hsb, Hw.
  rewrite (visit_record _ _ _ _ _ _ _ _ _ _ _ _ _ Hrec2 Hq2 Hresp Hn2 Hg). done.
Qed.

(** Reading back what the trustee wrote, through the response word. *)
Lemma collect_written {R} `{Repr R} c m (r : R) w :
  channel_ok c -> write_at (response c) HEADER_BYTES (to_bytes r) = Some m ->
  collect (set_response c (store_flags m w)) = Ok r.
Proof.
  intros [_ Hr] Hm. unfold collect. simpl.
  rewrite read_store_flags by (rewrite ?(write_at_zlen _ _ _ _ Hm), ?Hr; done).
  rewrite (read_write_same _ _ _ _ _ Hm) by (by rewrite to_bytes_len).
  simpl. by rewrite of_to_bytes.
Qed.

Lemma poll_stored c m b n :
  poll (set_response c (store_flags m (pack_ready_count b n))) b = true.
Proof.
  unfold poll. simpl. rewrite load_store_flags by apply pack_range. rewrite ready_pack.
  by destruct b.
Qed.

(** The state after an answered exchange is ready for the next one. *)
Lemma answered_ok c m b n cp w :
  channel_wf c -> ready (load_flags (request c)) = b -> zlen m = SLOT_BYTES ->
  (cp_pending_launch cp = true -> cp_launch_req_ready cp = b) ->
  remote_ok {| rs_chan := set_response c (store_flags m (pack_ready_count b n));
               rs_cp := cp; rs_worker := w |}.
Proof.
  intros ((Hq & _) & Hb) Hrdy Hm Hp. constructor; simpl.
  - split; [|done]. split; [done|]. simpl. rewrite store_flags_zlen; rewrite Hm; done.
  - rewrite load_store_flags by apply pack_range. by rewrite ready_pack.
  - by rewrite Hrdy.
Qed.

(** Submission succeeds exactly when the record fits in the slot. *)
Lemma put_record_cases c pp F f args n :
  channel_wf c -> closure_ok F -> zlen f = f_size F -> zlen args < 2 ^ 63 ->
  0 <= n < u32_modulus -> statics (f_vtable F) = Some (VTABLE F) ->
  if encoding_fits (payload_writer c) F args
  then exists c1, put_record c pp F f args n = Ok c1 /\ submitted c c1 pp F f args n
  else put_record c pp F f args n = Panic "slot overflow".
Proof.
  intros Hc HF Hf Hz Hn Hv. pose proof (payload_writer_ok c Hc) as Hw.
  pose proof (encode_closure_cases _ _ pp _ _ _ Hw HF Hf Hz) as He.
  destruct (encoding_fits _ _ _).
  - destruct He as [[[hdr w'] mem] He].
    destruct (encode_closure_inv _ _ _ _ _ _ _ _ _ Hw HF Hf Hz He)
      as (_ & _ & _ & _ & _ & _ & _ & Hl & _).
    destruct Hc as ((Hq & Hr) & Hb).
    destruct (write_at_Some mem hdr_offset (hdr_to_bytes (set_repeat hdr n))) as [m Hm].
    { rewrite hdr_offset_eq. done. }
    { unfold zlen at 1. rewrite length_hdr_to_bytes, hdr_offset_eq, Hl, Hq. done. }
    exists (set_request c m).
    assert (Hput : put_record c pp F f args n = Ok (set_request c m)).
    { unfold put_record. rewrite He. cbn [mbind res_bind]. unfold put_header.
      rewrite Hm. done. }
    split; [done|]. by eapply put_record_spec.
  - unfold put_record. by rewrite He.
Qed.

(** ** The methods, on a handle between calls *)

(** The static vtable of a closure's adapter is in place, and its layout is
    one a Rust type can have. *)
Definition linked {A R} (u : user_fn T A R) (F : closure_type T) : Prop :=
  closure_ok F /\ zlen (u_env u) = f_size F /\ statics (f_vtable F) = Some (VTABLE F).

Lemma linked_layout {A R} (u : user_fn T A R) (F : closure_type T) k :
  f_size F = zlen (u_env u) -> 0 <= k <= 29 -> f_align F = 2 ^ k ->
  0 <= f_vtable F < usize_modulus -> f_size F < 2 ^ 63 ->
  statics (f_vtable F) = Some (VTABLE F) -> linked u F.
Proof.
  intros Hs Hk Ha Hv Hlt Hst. split; [|done]. split; [|split; [by exists k|done]].
  rewrite Hs in *. unfold zlen in *. lia.
Qed.

(** The record of [F] with these argument bytes fits after the header. *)
Definition record_fits F args : Prop :=
  encoding_fits {| base := 0; len := SLOT_BYTES; cursor := payload_offset |} F args = true.
(** An [R] fits behind the response word. *)
Definition result_fits R `{Repr R} : Prop := HEADER_BYTES + size_of R <= SLOT_BYTES.

Lemma submit_fits c pp F f args n :
  channel_wf c -> closure_ok F -> zlen f = f_size F -> zlen args < 2 ^ 63 ->
  0 <= n < u32_modulus -> statics (f_vtable F) = Some (VTABLE F) -> record_fits F args ->
  exists c1, put_record c pp F f args n = Ok c1 /\ submitted c c1 pp F f args n.
Proof.
  intros Hc HF Hf Hz Hn Hv Hfit.
  pose proof (put_record_cases c pp F f args n Hc HF Hf Hz Hn Hv) as Hp.
  change (encoding_fits (payload_writer c) F args)
    with (encoding_fits {| base := 0; len := SLOT_BYTES; cursor := payload_offset |} F args) in Hp.
  by rewrite Hfit in Hp.
Qed.

Lemma set_response_twice c m m' : set_response (set_response c m) m' = set_response c m'.
Proof. done. Qed.

(** The channel once the worker has stored its answer to [b]. *)
Definition answered c m b : ChannelPair := set_response c (store_flags m (pack_ready_count b 1)).

Lemma after_visit_served {R} (get : ChannelPair -> res R) b s :
  sv_deferred s = false -> sv_jobs s = [] ->
  let c := answered (sv_chan s) (response (sv_chan s)) b in
  after_visit get b (Next (respond b 1 s)) =
    (r ← get c; Ok ({| rs_chan := c; rs_cp := sv_cp s; rs_worker := Some (sv_prop s) |}, Some r)).
Proof.
  destruct s as [t c cp jobs d]. simpl. intros -> ->. unfold respond. simpl.
  unfold wait, answered. change (as_u32 1) with 1. simpl rs_chan. by rewrite poll_stored.
Qed.

(** A closure that returns, executed by the trustee on behalf of a caller. *)
Lemma after_run_out {R} `{Repr R} c cp t p t' (r : R) b :
  channel_wf c -> ready (load_flags (request c)) = b -> cp_pending_launch cp = false ->
  run_prog p t = (t', Returned (to_bytes r)) -> result_fits R ->
  exists st', after_visit collect b
      (flow_bind (run_out (start_state c cp t) p) (fun s => Next (respond b 1 s)))
    = Ok (st', Some r) /\ remote_ok st' /\ rs_worker st' = Some t' /\
    cp_base (rs_chan st') = cp_base c.
Proof.
  intros Hc Hb Hcp Hp Hsz.
  destruct (run_out_returned (start_state c cp t) p t' (to_bytes r)) as (m & Hm & ->);
    [apply Hc|done|unfold fits_response; by rewrite to_bytes_len|].
  simpl in Hm. destruct Hc as [Hok Hbase]. pose proof Hok as [_ Hr].
  assert (Hml : zlen m = SLOT_BYTES) by (by rewrite (write_at_zlen _ _ _ _ Hm)).
  exists {| rs_chan := set_response c (store_flags m (pack_ready_count b 1));
            rs_cp := cp; rs_worker := Some t' |}.
  split; [|split; [apply answered_ok; [done|done|done|by rewrite Hcp]|done]].
  cbn [flow_bind]. rewrite after_visit_served by done. simpl sv_chan.
  unfold answered. rewrite set_response_twice. simpl response.
  rewrite (fun w => collect_written c m r w Hok Hm). done.
Qed.

(** A closure that panics on the trustee: the worker is gone, no response
    is ever written, and the caller's probe fails. *)
Lemma after_run_out_panicked {R} (get : ChannelPair -> res R) c cp t p t' b :
  ready (load_flags (response c)) = negb b -> run_prog p t = (t', Panicked) ->
  after_visit get b
      (flow_bind (run_out (start_state c cp t) p) (fun s => Next (respond b 1 s)))
    = Ok ({| rs_chan := c; rs_cp := cp; rs_worker := None |}, None).
Proof.
  intros Hr Hp. rewrite (run_out_panicked _ _ t') by done. simpl. unfold wait, poll. simpl.
  rewrite Hr. by destruct b.
Qed.

(** The exchange [m] does what running a body directly does: same result,
    same property, handle ready again; a panicking body leaves no worker
    and no answer. *)
Definition answers {R} (m : res (remote_state * option R)) (out : T * exit R) : Prop :=
  exists st', match out.2 with
    | Returned r => m = Ok (st', Some r) /\ remote_ok st' /\ rs_worker st' = Some out.1
    | Panicked => m = Ok (st', None) /\ rs_worker st' = None
    end.

Lemma delegate_out {R} `{Repr R} put st t c1 pp F f args n (p : prog T R) :
  remote_ok st -> rs_worker st = Some t -> result_fits R ->
  put (rs_chan st) = Ok c1 -> submitted (rs_chan st) c1 pp F f args n ->
  (forall c hdr b cp, record_at c pp F f args n hdr ->
     exec_record statics hdr b (start_state c cp t) =
     run_out (start_state c cp t) (prog_map to_bytes p)) ->
  answers (delegate put collect st) (run_prog p t).
Proof.
  intros Hst Hw Hsz Hput Hsub Hexec.
  destruct (delegate_executes put collect _ _ _ _ _ _ _ _ Hst Hw Hput Hsub)
    as (c2 & cp & hdr & Hwf & _ & Hresp & Hrdy & Hcp & Hrec & ->).
  rewrite (Hexec _ _ _ _ Hrec). unfold answers.
  pose proof (run_prog_map to_bytes p t) as Hmap. destruct (run_prog p t) as [t' [r|]]; simpl in *.
  - destruct (after_run_out c2 cp t (prog_map to_bytes p) t' r
                (negb (ready (load_flags (response (rs_chan st))))))
      as (st' & -> & Hok & Hw' & _); [done..|]. by exists st'.
  - rewrite (after_run_out_panicked _ _ _ _ _ t'); [by eexists| |done].
    by rewrite Hresp, negb_involutive.
Qed.

Section out_methods.
Context {R : Type} `{Repr R} (st : remote_state) (t : T).
Context (Hst : remote_ok st) (Hw : rs_worker st = Some t) (Hsz : result_fits R).

Lemma apply_answers (u : user_fn T unit R) :
  linked u (out_closure u) -> record_fits (out_closure u) [] ->
  answers (remote_apply u st) (run_prog (call u tt) t).
Proof.
  intros (HF & Hf & Hv) Hfit.
  edestruct (submit_fits (rs_chan st) CallMutOutPtr (out_closure u) (u_env u) [] 1)
    as (c1 & Hput & Hsub); [apply Hst|done..|].
  eapply delegate_out; [done|done|done|exact Hput|exact Hsub|].
  intros c hdr b cp Hrec. by rewrite (exec_out _ _ _ _ _ _ _ _ _ _ Hrec eq_refl).
Qed.

Lemma with_answers (u : user_fn T unit R) :
  linked u (out_closure u) -> record_fits (out_closure u) [] ->
  answers (remote_with u st) (run_prog (call u tt) t).
Proof. exact (apply_answers u). Qed.

Lemma apply_with_answers {V} `{Bincode V} (u : user_fn T V R) (w : V) :
  linked u (args_closure u) -> record_fits (args_closure u) (serialize w) ->
  zlen (serialize w) < 2 ^ 63 ->
  answers (remote_apply_with u w st) (run_prog (call u w) t).
Proof.
  intros (HF & Hf & Hv) Hfit Hz.
  edestruct (submit_fits (rs_chan st) CallMutArgsOutPtr (args_closure u) (u_env u) (serialize w) 1)
    as (c1 & Hput & Hsub); [apply Hst|done..|].
  eapply delegate_out; [done|done|done|exact Hput|exact Hsub|].
  intros c hdr b cp Hrec. rewrite (exec_args _ _ _ _ _ _ _ _ _ _ Hrec eq_refl).
  by rewrite bincode_roundtrip.
Qed.
End out_methods.

Lemma batch_answers (u : user_fn T unit unit) (n : Z) st t :
  remote_ok st -> rs_worker st = Some t -> 0 <= n < 2 ^ 8 ->
  linked u (batch_closure u) -> record_fits (batch_closure u) [] ->
  answers (remote_apply_batch_mut u n st) (repeat_prog (Z.to_nat n) (call u tt) t).
Proof.
  intros Hst Hw Hn (HF & Hf & Hv) Hfit.
  edestruct (submit_fits (rs_chan st) CallMutRetUnit (batch_closure u) (u_env u) [] n)
    as (c1 & Hput & Hsub); [apply Hst|done|done|done|unfold u32_modulus; lia|done|done|].
  edestruct (delegate_executes (fun c => apply_batch_mut_record c u n) (fun _ => Ok tt))
    as (c2 & cp & hdr & Hwf & _ & Hresp & Hrdy & Hcp & Hrec & He); [done..|].
  unfold answers, remote_apply_batch_mut. rewrite He, (exec_batch _ _ _ _ _ _ _ _ _ _ Hrec eq_refl).
  fold (call u tt). destruct (repeat_prog _ _ _) as [t' [[]|]]; cbn [flow_bind].
  - rewrite after_visit_served by done. eexists. split; [done|]. split; [|done].
    simpl. apply answered_ok; [done|done|apply Hwf|by rewrite Hcp].
  - exists {| rs_chan := c2; rs_cp := cp; rs_worker := None |}. split; [|done].
    cbn [after_visit]. unfold wait, poll. simpl. rewrite Hresp.
    by destruct (ready (load_flags (response (rs_chan st)))).
Qed.

(** What a launch leaves for its fiber. *)
Lemma exec_launch c F f args n hdr b cp t :
  record_at c Launch F f args n hdr ->
  exec_record statics hdr b (start_state c cp t) =
  Next {| sv_prop := t; sv_chan := c;
          sv_cp := {| cp_pending_launch := true; cp_launch_req_ready := b |};
          sv_jobs := [{| job_hdr := hdr; job_req_ready := b |}]; sv_deferred := true |}.
Proof. intros [_ Hp _ _ _ _ _]. unfold exec_record. by rewrite Hp. Qed.

Lemma job_start_record c F f args n hdr run b :
  record_at c Launch F f args n hdr -> f_run F = FnOut run ->
  job_start statics c {| job_hdr := hdr; job_req_ready := b |} = Ok (run f).
Proof. intros Hrec Hrun. eapply decode_stored_out; [apply Hrec|done]. Qed.

Lemma run_job_returned c F f args n hdr b (p : prog T (list Z)) t t' bs run :
  record_at c Launch F f args n hdr -> f_run F = FnOut run -> run f = p ->
  run_prog p t = (t', Returned bs) -> channel_ok c -> fits_response bs ->
  exists m, write_at (response c) HEADER_BYTES bs = Some m /\
    run_job statics c {| job_hdr := hdr; job_req_ready := b |} t =
    Ok (t', set_response c (store_flags m (pack_ready_count b 1))).
Proof.
  intros Hrec Hrun <- Hp Hc Hfit. destruct (write_out_fits _ _ Hc Hfit) as (m & Hm & Hwo).
  exists m. split; [done|]. unfold run_job. rewrite (job_start_record _ _ _ _ _ _ _ _ Hrec Hrun).
  cbn [mbind res_bind]. rewrite Hp. unfold job_finish. rewrite Hwo. done.
Qed.

Lemma run_job_panicked c F f args n hdr b (p : prog T (list Z)) t t' run :
  record_at c Launch F f args n hdr -> f_run F = FnOut run -> run f = p ->
  run_prog p t = (t', Panicked) ->
  run_job statics c {| job_hdr := hdr; job_req_ready := b |} t =
  Ok (t', set_response c (store_flags (response c) (pack_ready_count b 1))).
Proof.
  intros Hrec Hrun <- Hp. unfold run_job. rewrite (job_start_record _ _ _ _ _ _ _ _ Hrec Hrun).
  cbn [mbind res_bind]. by rewrite Hp.
Qed.

(** A launch whose job left [m] in the response slot. *)
Lemma delegate_launched {R} `{Repr R} (u : user_fn T unit R) st t t' out :
  remote_ok st -> rs_worker st = Some t ->
  linked u (out_closure u) -> record_fits (out_closure u) [] ->
  (forall c hdr b, record_at c Launch (out_closure u) (u_env u) [] 1 hdr -> channel_ok c ->
     response c = response (rs_chan st) ->
     exists m, out c m /\ zlen m = SLOT_BYTES /\
       run_job statics c {| job_hdr := hdr; job_req_ready := b |} t =
       Ok (t', set_response c (store_flags m (pack_ready_count b 1)))) ->
  exists c m st', out c m /\ response c = response (rs_chan st) /\ channel_ok c /\
    (exists b, rs_chan st' = set_response c (store_flags m (pack_ready_count b 1))) /\
    remote_ok st' /\ rs_worker st' = Some t' /\
    remote_launch u st = (r ← collect (rs_chan st'); Ok (st', Some r)).
Proof.
  intros Hst Hw (HF & Hf & Hv) Hfit Hjob.
  edestruct (submit_fits (rs_chan st) Launch (out_closure u) (u_env u) [] 1)
    as (c1 & Hput & Hsub); [apply Hst|done..|].
  edestruct (delegate_executes (fun c => launch_record c u) (collect (R := R)))
    as (c2 & cp & hdr & Hwf & _ & Hresp & Hrdy & Hcp & Hrec & He); [done..|].
  set (b := negb _) in *.
  destruct (Hjob c2 hdr b Hrec (proj1 Hwf) Hresp) as (m & Hout & Hm & Hrun).
  set (cp2 := {| cp_pending_launch := true; cp_launch_req_ready := b |}).
  exists c2, m, {| rs_chan := answered c2 m b; rs_cp := cp2; rs_worker := Some t' |}.
  split; [done|]. split; [done|]. split; [exact (proj1 Hwf)|].
  split; [by exists b|]. split; [|split].
  - by apply answered_ok.
  - done.
  - unfold remote_launch. rewrite He, (exec_launch _ _ _ _ _ _ _ _ _ Hrec).
    cbn [flow_bind after_visit respond sv_deferred sv_jobs run_jobs sv_chan sv_prop sv_cp mbind res_bind].
    rewrite Hrun. cbn [mbind res_bind]. unfold wait. simpl rs_chan. by rewrite poll_stored.
Qed.

Lemma launch_returned {R} `{Repr R} (u : user_fn T unit R) st t t' r :
  remote_ok st -> rs_worker st = Some t -> result_fits R ->
  linked u (out_closure u) -> record_fits (out_closure u) [] ->
  run_prog (call u tt) t = (t', Returned r) ->
  exists st', remote_launch u st = Ok (st', Some r) /\ remote_ok st' /\ rs_worker st' = Some t'.
Proof.
  intros Hst Hw Hsz Hl Hfit Hp.
  destruct (delegate_launched u st t t'
    (fun c m => write_at (response c) HEADER_BYTES (to_bytes r) = Some m))
    as (c & m & st' & Hm & _ & Hc & (b & Hst') & Hok & Hw' & ->); [done..| |].
  - intros c hdr b Hrec Hc _.
    pose proof (run_prog_map to_bytes (call u tt) t) as Hmap. rewrite Hp in Hmap.
    destruct (run_job_returned c (out_closure u) (u_env u) [] 1 hdr b _ t t' (to_bytes r) _
                Hrec eq_refl eq_refl Hmap Hc) as (m & Hm & Hj);
      [unfold fits_response; by rewrite to_bytes_len|].
    exists m. split; [exact Hm|]. split; [|exact Hj].
    rewrite (write_at_zlen _ _ _ _ Hm). apply Hc.
  - exists st'. rewrite Hst', (collect_written c m r _ Hc Hm). done.
Qed.

(** A launched closure that panics is answered all the same: the caller
    reads whatever the response slot held before. *)
Lemma launch_panicked {R} `{Repr R} (u : user_fn T unit R) st t t' :
  remote_ok st -> rs_worker st = Some t ->
  linked u (out_closure u) -> record_fits (out_closure u) [] ->
  run_prog (call u tt) t = (t', Panicked) ->
  exists st', remote_launch u st = (r ← collect (rs_chan st); Ok (st', Some r)) /\
    remote_ok st' /\ rs_worker st' = Some t'.
Proof.
  intros Hst Hw Hl Hfit Hp.
  destruct (delegate_launched u st t t' (fun c m => m = response c))
    as (c & m & st' & Hm & Hresp & Hc & (b & Hst') & Hok & Hw' & ->); [done..| |].
  - intros c hdr b Hrec Hc _.
    pose proof (run_prog_map to_bytes (call u tt) t) as Hmap. rewrite Hp in Hmap.
    exists (response c). split; [done|]. split; [apply Hc|].
    eapply run_job_panicked; [exact Hrec|done|done|exact Hmap].
  - exists st'. split; [|done]. rewrite Hst'. subst m. f_equal.
    unfold collect. simpl. rewrite Hresp. f_equal. f_equal.
    apply read_store_flags; [|done]. destruct (ro_wf _ Hst) as [[_ ->] _]. done.
Qed.

(** The worker moves the property out and leaves its loop. *)
Lemma into_inner_answers vt st t :
  remote_ok st -> rs_worker st = Some t -> result_fits T ->
  0 <= vt < usize_modulus -> statics vt = Some (VTABLE (into_inner_closure T vt)) ->
  exists st', remote_into_inner vt st = Ok (st', Some t) /\ rs_worker st' = None.
Proof.
  intros Hst Hw Hsz Hvt Hv.
  edestruct (submit_fits (rs_chan st) IntoInner (into_inner_closure T vt) [] [] 1)
    as (c1 & Hput & Hsub); [apply Hst| |done|done|done|done|done|].
  { split; [done|]. split; [by exists 0|done]. }
  edestruct (delegate_executes (fun c => into_inner_record (T := T) c vt) (collect (R := T)))
    as (c2 & cp & hdr & [Hok Hb] & _ & Hresp & Hrdy & Hcp & [_ Hpp _ _ _ _ _] & He); [done..|].
  unfold remote_into_inner. rewrite He. unfold exec_record. rewrite Hpp. simpl sv_chan. simpl sv_prop.
  destruct (write_out_fits c2 (to_bytes t) Hok) as (m & Hm & Hwo).
  { unfold fits_response. by rewrite to_bytes_len. }
  rewrite Hwo. cbn [lift flow_bind after_visit]. unfold wait. simpl rs_chan.
  rewrite Hrdy, set_response_twice, poll_stored. simpl response.
  rewrite (fun w => collect_written c2 m t w Hok Hm). eexists. split; reflexivity.
Qed.

(** ** What goes wrong *)

(** No worker, no answer: the response word stays what it was. *)
Lemma delegate_dead {R} put (get : ChannelPair -> res R) st c1 :
  rs_worker st = None -> put (rs_chan st) = Ok c1 -> response c1 = response (rs_chan st) ->
  exists st', delegate put get st = Ok (st', None) /\ rs_worker st' = None /\
    response (rs_chan st') = response (rs_chan st).
Proof.
  intros Hw Hput Hr. unfold delegate. rewrite Hput, Hw. simpl. unfold wait, poll. simpl.
  rewrite Hr. replace (Bool.eqb _ _) with false by (by destruct (ready _)). by eexists.
Qed.

Lemma put_record_response c pp F f args n c1 :
  put_record c pp F f args n = Ok c1 -> response c1 = response c.
Proof.
  intros Hput. unfold put_record in Hput.
  apply res_bind_Ok in Hput as ([[hdr w] m] & _ & Hput).
  by apply res_bind_Ok in Hput as (m' & _ & [= <-]).
Qed.

(** A result that does not fit is written past the end of the slot. *)
Lemma delegate_out_overflow {R} `{Repr R} put st t c1 pp F f args n (p : prog T R) t' r :
  remote_ok st -> rs_worker st = Some t -> ~ result_fits R ->
  put (rs_chan st) = Ok c1 -> submitted (rs_chan st) c1 pp F f args n ->
  (forall c hdr b cp, record_at c pp F f args n hdr ->
     exec_record statics hdr b (start_state c cp t) =
     run_out (start_state c cp t) (prog_map to_bytes p)) ->
  run_prog p t = (t', Returned r) ->
  delegate put (collect (R := R)) st = UB "result write out of the response slot".
Proof.
  intros Hst Hw Hsz Hput Hsub Hexec Hp.
  destruct (delegate_executes put (collect (R := R)) _ _ _ _ _ _ _ _ Hst Hw Hput Hsub)
    as (c2 & cp & hdr & [[_ Hr2] _] & _ & _ & _ & _ & Hrec & ->).
  rewrite (Hexec _ _ _ _ Hrec). unfold run_out. simpl sv_prop. rewrite run_prog_map, Hp. simpl.
  unfold write_out. rewrite write_at_None; [done|].
  unfold result_fits in Hsz. rewrite Hr2, to_bytes_len. lia.
Qed.
End delegation.

(** ** Examples: a byte counter behind a channel *)
Module Counter.
Import Byte.

Definition add (k : Z) (b : byte) : byte :=
  match Byte.of_N (Z.to_N ((Z.of_N (Byte.to_N b) + k) mod 256)) with Some c => c | None => b end.

(** [move |x| { *x += k; *x }], capturing the byte [k]. *)
Definition adder (k : Z) : user_fn byte unit byte :=
  {| u_size := 1; u_align := 1; u_env := [k];
     u_body := fun env _ =>
       let k := nth 0 env 0 in PStep (add k) (fun t => PRet (add k t));
     u_vtable := 4096 |}.
(** [|x, w: u8| { *x += w; *x }], not capturing. *)
Definition adder_with : user_fn byte byte byte :=
  {| u_size := 0; u_align := 1; u_env := [];
     u_body := fun _ w =>
       PStep (add (Z.of_N (Byte.to_N w))) (fun t => PRet (add (Z.of_N (Byte.to_N w)) t));
     u_vtable := 8192 |}.
(** [fn incr(x: &mut u8)], a function pointer. *)
Definition incr : user_fn byte unit unit :=
  {| u_size := 8; u_align := 8; u_env := le_bytes 8 123456;
     u_body := fun _ _ => PStep (add 1) (fun _ => PRet tt); u_vtable := 12288 |}.
(** A closure that updates the property, then panics. *)
Definition bomb : user_fn byte unit byte :=
  {| u_size := 0; u_align := 1; u_env := [];
     u_body := fun _ _ => PStep (add 1) (fun _ => PPanic); u_vtable := 16384 |}.
(** [|x| *x]. *)
Definition reader : user_fn byte unit byte :=
  {| u_size := 0; u_align := 1; u_env := [];
     u_body := fun _ _ => PStep (fun t => t) (fun t => PRet t); u_vtable := 28672 |}.
(** A result type larger than a slot. *)
Inductive big := Big.
Definition Repr_big : Repr big.
Proof.
  refine {| size_of := 2000; to_bytes := fun _ => replicate 2000 0; of_bytes := fun _ => Some Big |}.
  - done.
  - by intros [].
Defined.
Definition get_big : user_fn byte unit big :=
  {| u_size := 0; u_align := 1; u_env := []; u_body := fun _ _ => PRet Big; u_vtable := 20480 |}.

#[export] Instance Bincode_u8 : Bincode byte.
Proof.
  refine {| serialize := to_bytes; deserialize := of_bytes |}. apply of_to_bytes.
Defined.

Definition statics (a : Z) : option (ErasedVTable byte) :=
  if a =? 4096 then Some (VTABLE (out_closure (adder 3)))
  else if a =? 8192 then Some (VTABLE (args_closure adder_with))
  else if a =? 12288 then Some (VTABLE (batch_closure incr))
  else if a =? 16384 then Some (VTABLE (out_closure bomb))
  else if a =? 20480 then Some (VTABLE (out_closure (H := Repr_big) get_big))
  else if a =? 24576 then Some (VTABLE (into_inner_closure byte 24576))
  else if a =? 28672 then Some (VTABLE (out_closure reader))
  else None.

(** A fresh handle on a worker that owns [5]. *)
Definition st0 : remote_state :=
  {| rs_chan := ChannelPair_default 65536; rs_cp := ClientPair_new; rs_worker := Some x05 |}.

Lemma st0_ok : remote_ok st0.
Proof. constructor; [|done|done]. split; [split; reflexivity|]. split; [done|reflexivity]. Qed.

Lemma u8_fits : result_fits byte.
Proof. unfold result_fits, HEADER_BYTES, SLOT_BYTES. simpl. done. Qed.

Lemma adder_linked : linked statics (adder 3) (out_closure (adder 3)).
Proof. by apply (linked_layout _ _ _ 0). Qed.
Lemma adder_with_linked : linked statics adder_with (args_closure adder_with).
Proof. by apply (linked_layout _ _ _ 0). Qed.
Lemma incr_linked : linked statics incr (batch_closure incr).
Proof. by apply (linked_layout _ _ _ 3). Qed.
Lemma bomb_linked : linked statics bomb (out_closure bomb).
Proof. by apply (linked_layout _ _ _ 0). Qed.
Lemma reader_linked : linked statics reader (out_closure reader).
Proof. by apply (linked_layout _ _ _ 0). Qed.
Lemma get_big_linked : linked statics get_big (out_closure (H := Repr_big) get_big).
Proof. by apply (linked_layout _ _ _ 0). Qed.
End Counter.

(** ** Properties *)
Section properties.
Context {T : Type} `{Repr T} (statics : Z -> option (ErasedVTable T)).

(** [apply] (and [with], the same exchange) on a handle between calls
    does what running the closure on the property does: the caller gets the
    closure's own result, the trustee holds the updated property, and the
    handle is ready for the next call.  If the closure panics, the worker is
    gone and the caller is never answered. *)
Theorem apply_runs_closure {R} `{Repr R} (u : user_fn T unit R) (st : remote_state) (t : T) :
  remote_ok st -> rs_worker st = Some t -> result_fits R ->
  linked statics u (out_closure u) -> record_fits (out_closure u) [] ->
  answers (remote_apply statics u st) (run_prog (call u tt) t) /\
  answers (remote_with statics u st) (run_prog (call u tt) t).
Proof. intros. split; [by apply apply_answers|by apply with_answers]. Qed.

(** [apply_with] hands the closure the very argument it was given: the
    serialized bytes cross the slot intact behind the captured env. *)
Theorem apply_with_runs_closure {V R} `{Repr R} `{Bincode V} (u : user_fn T V R) (w : V)
    (st : remote_state) (t : T) :
  remote_ok st -> rs_worker st = Some t -> result_fits R ->
  linked statics u (args_closure u) -> record_fits (args_closure u) (serialize w) ->
  zlen (serialize w) < 2 ^ 63 ->
  answers (remote_apply_with statics u w st) (run_prog (call u w) t).
Proof. intros. by apply apply_with_answers. Qed.

(** [apply_batch_mut f n] runs [f] exactly [n] times (stopping at a
    panic) although one record is sent and the closure is moved out of the
    slot at every repetition. *)
Theorem apply_batch_mut_repeats (u : user_fn T unit unit) (n : Z) (st : remote_state) (t : T) :
  remote_ok st -> rs_worker st = Some t -> 0 <= n < 2 ^ 8 ->
  linked statics u (batch_closure u) -> record_fits (batch_closure u) [] ->
  answers (remote_apply_batch_mut statics u n st) (repeat_prog (Z.to_nat n) (call u tt) t).
Proof. intros. by apply batch_answers. Qed.

(** C23: [launch] returns the closure's result once its fiber has run, and
    leaves the handle ready; but when the closure panics, the caller is
    answered too, and reads the bytes an earlier exchange left in the slot
    as if they were its result. *)
Theorem launch_outcome {R} `{Repr R} (u : user_fn T unit R) (st : remote_state) (t t' : T)
    (e : exit R) :
  remote_ok st -> rs_worker st = Some t -> result_fits R ->
  linked statics u (out_closure u) -> record_fits (out_closure u) [] ->
  run_prog (call u tt) t = (t', e) ->
  exists st', remote_ok st' /\ rs_worker st' = Some t' /\
    remote_launch statics u st =
      match e with
      | Returned r => Ok (st', Some r)
      | Panicked => (r ← collect (rs_chan st); Ok (st', Some r))
      end.
Proof.
  intros Hst Hw Hsz Hl Hfit Hp. destruct e as [r|].
  - destruct (launch_returned statics u st t t' r) as (st' & He & Hok & Hw'); eauto.
  - destruct (launch_panicked statics u st t t') as (st' & He & Hok & Hw'); eauto.
Qed.

(** [into_inner] returns the property itself; the worker has left its
    loop, and no later call through any handle with this channel is
    answered. *)
Theorem into_inner_returns_property (vt : Z) (st : remote_state) (t : T) :
  remote_ok st -> rs_worker st = Some t -> result_fits T ->
  0 <= vt < usize_modulus -> statics vt = Some (VTABLE (into_inner_closure T vt)) ->
  exists st', remote_into_inner statics vt st = Ok (st', Some t) /\ rs_worker st' = None /\
    forall R (HR : Repr R) (u : user_fn T unit R) c1, apply_record (rs_chan st') u = Ok c1 ->
      exists st'', remote_apply statics u st' = Ok (st'', None).
Proof.
  intros. edestruct into_inner_answers as (st' & He & Hw); [done..|].
  exists st'. split; [exact He|]. split; [done|]. intros R HR u c1 Hput.
  pose proof (put_record_response _ _ _ _ _ _ _ Hput) as Hresp.
  destruct (delegate_dead statics (fun c => apply_record c u) (collect (R := R)) st' c1
              Hw Hput Hresp) as (st'' & He' & _). by exists st''.
Qed.

(** C37: nothing checks that a result fits the response slot: when the
    result type is larger than the data region, a returning closure makes
    the trustee write out of bounds. *)
Theorem large_result_overflows {R} `{Repr R} (u : user_fn T unit R) (st : remote_state)
    (t t' : T) (r : R) :
  remote_ok st -> rs_worker st = Some t -> SLOT_BYTES < HEADER_BYTES + size_of R ->
  linked statics u (out_closure u) -> record_fits (out_closure u) [] ->
  run_prog (call u tt) t = (t', Returned r) ->
  remote_apply statics u st = UB "result write out of the response slot".
Proof.
  intros Hst Hw Hsz (HF & Hf & Hv) Hfit Hp.
  edestruct (submit_fits statics (rs_chan st) CallMutOutPtr (out_closure u) (u_env u) [] 1)
    as (c1 & Hput & Hsub); [apply Hst|done..|].
  eapply delegate_out_overflow; [done|done|unfold result_fits; lia|exact Hput|exact Hsub| |exact Hp].
  intros c hdr b cp Hrec. by rewrite (exec_out _ _ _ _ _ _ _ _ _ _ _ Hrec eq_refl).
Qed.

(** A closure that does not fit the request slot is refused before
    anything is written: the caller panics with "slot overflow". *)
Theorem large_closure_panics {R} `{Repr R} (u : user_fn T unit R) (st : remote_state) :
  remote_ok st -> linked statics u (out_closure u) ->
  encoding_fits {| base := 0; len := SLOT_BYTES; cursor := payload_offset |} (out_closure u) [] = false ->
  remote_apply statics u st = Panic "slot overflow" /\
  remote_with statics u st = Panic "slot overflow" /\
  remote_launch statics u st = Panic "slot overflow".
Proof.
  intros Hst (HF & Hf & Hv) Hfit.
  assert (Hput : forall pp, put_record (rs_chan st) pp (out_closure u) (u_env u) [] 1
                            = Panic "slot overflow").
  { intros pp. pose proof (put_record_cases statics (rs_chan st) pp (out_closure u) (u_env u) [] 1
                             (ro_wf _ Hst) HF Hf ltac:(done) ltac:(done) Hv) as Hp.
    change (encoding_fits (payload_writer (rs_chan st)) (out_closure u) []) with
      (encoding_fits {| base := 0; len := SLOT_BYTES; cursor := payload_offset |} (out_closure u) []) in Hp.
    by rewrite Hfit in Hp. }
  unfold remote_apply, remote_with, remote_launch, delegate, apply_record, with_record, launch_record.
  by rewrite !Hput.
Qed.
End properties.

Import Counter.

Lemma apply_runs_closure_witness :
  run_prog (call (Counter.adder 3) tt) Byte.x05 = (Byte.x08, Returned Byte.x08) /\
  (answers (remote_apply Counter.statics (Counter.adder 3) Counter.st0) (Byte.x08, Returned Byte.x08) /\
   answers (remote_with Counter.statics (Counter.adder 3) Counter.st0) (Byte.x08, Returned Byte.x08)).
Proof.
  split; [vm_compute; reflexivity|].
  exact (apply_runs_closure Counter.statics (Counter.adder 3) Counter.st0 Byte.x05
           Counter.st0_ok eq_refl Counter.u8_fits Counter.adder_linked eq_refl).
Defined.

Lemma apply_with_runs_closure_witness :
  answers (remote_apply_with Counter.statics Counter.adder_with Byte.x07 Counter.st0)
          (Byte.x0c, Returned Byte.x0c).
Proof.
  exact (apply_with_runs_closure Counter.statics Counter.adder_with Byte.x07 Counter.st0 Byte.x05
           Counter.st0_ok eq_refl Counter.u8_fits Counter.adder_with_linked eq_refl eq_refl).
Defined.

Lemma apply_batch_mut_repeats_witness :
  answers (remote_apply_batch_mut Counter.statics Counter.incr 200 Counter.st0)
          (Byte.xcd, Returned tt).
Proof.
  exact (apply_batch_mut_repeats Counter.statics Counter.incr 200 Counter.st0 Byte.x05
           Counter.st0_ok eq_refl ltac:(lia) Counter.incr_linked eq_refl).
Defined.

(** A panicking launch on a fresh handle "returns" the zero byte of the
    untouched response slot. *)
Lemma launch_outcome_witness :
  exists st', remote_ok st' /\ rs_worker st' = Some Byte.x06 /\
    remote_launch Counter.statics Counter.bomb Counter.st0 = Ok (st', Some Byte.x00).
Proof.
  exact (launch_outcome Counter.statics Counter.bomb Counter.st0 Byte.x05 Byte.x06 Panicked
           Counter.st0_ok eq_refl Counter.u8_fits Counter.bomb_linked eq_refl eq_refl).
Defined.

Lemma into_inner_returns_property_witness :
  exists st', remote_into_inner Counter.statics 24576 Counter.st0 = Ok (st', Some Byte.x05) /\
    rs_worker st' = None /\
    forall R (HR : Repr R) (u : user_fn Byte.byte unit R) c1,
      apply_record (rs_chan st') u = Ok c1 ->
      exists st'', remote_apply Counter.statics u st' = Ok (st'', None).
Proof.
  exact (into_inner_returns_property Counter.statics 24576 Counter.st0 Byte.x05
           Counter.st0_ok eq_refl Counter.u8_fits ltac:(unfold usize_modulus; lia) eq_refl).
Defined.

Lemma large_result_overflows_witness :
  remote_apply (H := _) (H0 := Counter.Repr_big) Counter.statics Counter.get_big Counter.st0
  = UB "result write out of the response slot".
Proof.
  exact (large_result_overflows (H0 := Counter.Repr_big) Counter.statics Counter.get_big Counter.st0
           Byte.x05 Byte.x05 Counter.Big Counter.st0_ok eq_refl eq_refl Counter.get_big_linked
           eq_refl eq_refl).
Defined.

(** A closure that captures 1200 bytes. *)
Definition fat_adder : user_fn Byte.byte unit Byte.byte :=
  {| u_size := 1200; u_align := 1; u_env := replicate 1200 0;
     u_body := fun _ _ => PPanic; u_vtable := 4096 |}.
Lemma large_closure_panics_witness :
  let statics a := if a =? 4096 then Some (VTABLE (out_closure fat_adder)) else None in
  remote_apply statics fat_adder Counter.st0 = Panic "slot overflow" /\
  remote_with statics fat_adder Counter.st0 = Panic "slot overflow" /\
  remote_launch statics fat_adder Counter.st0 = Panic "slot overflow".
Proof.
  intros statics.
  apply (large_closure_panics statics fat_adder Counter.st0 Counter.st0_ok); [|reflexivity].
  split; [|done]. split; [done|]. split; [by exists 0|done].
Defined.
