(* ===== verification/Util.v ===== *)
(** * Util: wait budgets, thread ids, the trustee-thread flag, pinning
    ([src/util/wait.rs], [thread_id.rs], [fiber.rs], [affinity.rs]) *)
From S2P Require Import Prelude.
Local Open Scope Z_scope.

(** ** Wait budgets *)
Module WaitBudget.
Record t := { spins : Z; yields : Z; spin_cap : Z; yield_cap : Z }.

(** What one step does to the thread. *)
Inductive action := SpinLoop | YieldNow.
#[export] Instance action_eq_dec : EqDecision action.
Proof. solve_decision. Defined.

Definition hot : t := {| spins := 0; yields := 0; spin_cap := 128; yield_cap := 8 |}.
Definition default : t := {| spins := 0; yields := 0; spin_cap := 64; yield_cap := 4 |}.
Definition reset (w : t) : t :=
  {| spins := 0; yields := 0; spin_cap := spin_cap w; yield_cap := yield_cap w |}.

(** The increments are [u32] additions. *)
Definition step (w : t) : t * action :=
  if spins w <? spin_cap w then
    ({| spins := as_u32 (spins w + 1); yields := yields w;
        spin_cap := spin_cap w; yield_cap := yield_cap w |}, SpinLoop)
  else if yields w <? yield_cap w then
    ({| spins := spins w; yields := as_u32 (yields w + 1);
        spin_cap := spin_cap w; yield_cap := yield_cap w |}, YieldNow)
  else (w, SpinLoop).

(** [k] steps in a row, with what they did. *)
Fixpoint steps (k : nat) (w : t) : t * list action :=
  match k with
  | O => (w, [])
  | S k => let '(w, a) := step w in let '(w, l) := steps k w in (w, a :: l)
  end.

Definition yields_in (acts : list action) : nat := length (filter (fun a => a = YieldNow) acts).

(** [acquire_lock_with_budget]: [acquire_fn] is a [FnMut] with state [S];
    [None] is fuel exhausted. *)
Fixpoint acquire {S : Type} (fuel : nat) (acquire_fn : S -> S * bool) (s : S) (w : t)
    : option (S * t) :=
  match fuel with
  | O => None
  | Datatypes.S fuel =>
      let '(s, ok) := acquire_fn s in
      if ok then Some (s, w) else acquire fuel acquire_fn s (step w).1
  end.
Definition acquire_lock_with_budget {S : Type} (fuel : nat) (acquire_fn : S -> S * bool) (s : S)
    : option (S * t) := acquire fuel acquire_fn s hot.

(** Counters below their caps, caps [u32]. *)
Definition ok (w : t) : Prop :=
  0 <= spins w <= spin_cap w /\ 0 <= yields w <= yield_cap w /\
  spin_cap w < u32_modulus /\ yield_cap w < u32_modulus.

Section lemmas.
Implicit Types (w : t) (k n : nat).

Lemma step_ok w : ok w -> ok (step w).1.
Proof.
  unfold ok, step. intros (Hs & Hy & Hsc & Hyc).
  destruct (Z.ltb_spec (spins w) (spin_cap w)); simpl; [rewrite as_u32_small by lia; lia|].
  destruct (Z.ltb_spec (yields w) (yield_cap w)); simpl; [rewrite as_u32_small by lia; lia|].
  lia.
Qed.

Definition remaining (cap used : Z) : nat := Z.to_nat (cap - used).

(** The counters after [k] steps. *)
Lemma steps_counters k w :
  ok w ->
  let w' := (steps k w).1 in
  spins w' = spins w + Z.of_nat (k `min` remaining (spin_cap w) (spins w)) /\
  yields w' = yields w + Z.of_nat ((k - remaining (spin_cap w) (spins w))
                                     `min` remaining (yield_cap w) (yields w)) /\
  spin_cap w' = spin_cap w /\ yield_cap w' = yield_cap w.
Proof.
  unfold remaining. revert w. induction k as [|k IH]; intros w Hok; [simpl; lia|].
  pose proof (step_ok w Hok) as Hok'. specialize (IH _ Hok'). revert IH.
  cbn [steps]. destruct Hok as (Hs & Hy & Hsc & Hyc). unfold step.
  destruct (Z.ltb_spec (spins w) (spin_cap w)); cbn [fst].
  { destruct (steps k _) as [w' l]; cbn [fst spins yields spin_cap yield_cap].
    rewrite as_u32_small by lia. lia. }
  destruct (Z.ltb_spec (yields w) (yield_cap w)); cbn [fst];
    destruct (steps k _) as [w' l]; cbn [fst spins yields spin_cap yield_cap];
    rewrite ?as_u32_small by lia; lia.
Qed.

(** Yields happen exactly when the yield counter moves. *)
Lemma steps_actions k w :
  ok w ->
  yields_in (steps k w).2 =
  Z.to_nat (yields (steps k w).1 - yields w).
Proof.
  unfold yields_in. revert w. induction k as [|k IH]; intros w Hok.
  { simpl. by rewrite Z.sub_diag. }
  pose proof (step_ok w Hok) as Hok'. specialize (IH _ Hok').
  pose proof (steps_counters k _ Hok') as (_ & Hyc & _). revert IH Hyc.
  cbn [steps]. destruct Hok as (Hs & Hy & Hsc & Hyc). unfold step.
  destruct (Z.ltb_spec (spins w) (spin_cap w)); cbn [fst].
  { destruct (steps k _) as [w' l]; cbn [fst snd yields]. intros IH _.
    by rewrite filter_cons_False. }
  destruct (Z.ltb_spec (yields w) (yield_cap w)); cbn [fst];
    destruct (steps k _) as [w' l]; cbn [fst snd yields]; intros IH Hy'.
  - rewrite as_u32_small in IH, Hy' by lia. rewrite filter_cons_True by done.
    cbn [length]. rewrite IH. lia.
  - by rewrite filter_cons_False.
Qed.

(** [iter_state f n s] is the closure's state after [n] calls. *)
Fixpoint iter_state {S : Type} (f : S -> S * bool) (n : nat) (s : S) : S :=
  match n with O => s | Datatypes.S n => iter_state f n (f s).1 end.

Lemma acquire_first_success {S : Type} (f : S -> S * bool) n fuel s w :
  (n < fuel)%nat ->
  (forall i, (i < n)%nat -> (f (iter_state f i s)).2 = false) ->
  (f (iter_state f n s)).2 = true ->
  acquire fuel f s w = Some (iter_state f (Datatypes.S n) s, (steps n w).1).
Proof.
  revert fuel s w. induction n as [|n IH]; intros [|fuel] s w Hf Hno Hyes; try lia;
    cbn [acquire].
  - simpl in Hyes. destruct (f s) as [s' b] eqn:E; simpl in *. subst b. by rewrite E.
  - pose proof (Hno O ltac:(lia)) as H0. simpl in H0, Hyes.
    cbn [iter_state steps] in *. destruct (f s) as [s' b] eqn:E; simpl in *. subst b.
    rewrite (IH fuel s' (step w).1); [|lia| |done].
    + destruct (step w) as [w1 a]; simpl. by destruct (steps n w1).
    + intros i Hi. specialize (Hno (Datatypes.S i) ltac:(lia)). simpl in Hno. by rewrite E in Hno.
Qed.
End lemmas.
End WaitBudget.

(** ** Thread ids *)
Module ThreadId.
(** The global counter and the thread-locals initialised so far. *)
Record t := { counter : Z; ids : gmap nat Z }.
Definition init : t := {| counter := 1; ids := ∅ |}.

(** [THREAD_ID.with(|id| *id)]: the first access on a thread runs the
    initialiser, a wrapping [fetch_add(1)]. *)
Definition get_thread_id (st : t) (th : nat) : t * Z :=
  match ids st !! th with
  | Some id => (st, id)
  | None => let id := counter st in
            ({| counter := usize_add id 1; ids := <[th := id]> (ids st) |}, id)
  end.

(** Any history of accesses, by thread. *)
Definition run (ths : list nat) : t := foldl (fun st th => (get_thread_id st th).1) init ths.

Record inv (st : t) : Prop := {
  inv_counter : 1 <= counter st < usize_modulus;
  inv_range : forall th id, ids st !! th = Some id -> 1 <= id < counter st;
  inv_inj : forall th1 th2 id, ids st !! th1 = Some id -> ids st !! th2 = Some id -> th1 = th2;
}.

Lemma inv_init : inv init.
Proof. constructor; [done|intros ?? H; by simplify_map_eq|intros ??? H; by simplify_map_eq]. Qed.

Lemma get_thread_id_inv st th :
  inv st -> counter st + 1 < usize_modulus -> inv (get_thread_id st th).1.
Proof.
  intros [Hc Hr Hi] Hlt. unfold get_thread_id. case_match eqn:E; [done|].
  constructor; simpl.
  - rewrite usize_add_small by lia. lia.
  - rewrite usize_add_small by lia. intros th' id. rewrite lookup_insert.
    case_decide; intros Hid; simplify_eq; [lia|]. pose proof (Hr _ _ Hid). lia.
  - intros th1 th2 id. rewrite !lookup_insert.
    repeat case_decide; intros H1 H2; simplify_eq; try done.
    + pose proof (Hr _ _ H2). lia.
    + pose proof (Hr _ _ H1). lia.
    + by eapply Hi.
Qed.

Lemma get_thread_id_counter st th :
  1 <= counter st -> counter st + 1 < usize_modulus ->
  counter (get_thread_id st th).1 <= counter st + 1.
Proof.
  intros H1 H2. unfold get_thread_id. case_match; simpl; [lia|]. rewrite usize_add_small; lia.
Qed.

Lemma run_inv ths :
  Z.of_nat (length ths) + 1 < usize_modulus ->
  inv (run ths) /\ counter (run ths) <= Z.of_nat (length ths) + 1.
Proof.
  unfold run. induction ths as [|th ths IH] using rev_ind; intros Hl.
  - split; [apply inv_init|done].
  - rewrite length_app in Hl. simpl in Hl. destruct IH as [Hi Hc]; [lia|].
    rewrite foldl_app, length_app. simpl. set (st := foldl _ _ _) in *.
    pose proof (inv_counter _ Hi). split; [apply get_thread_id_inv; [done|lia]|].
    pose proof (get_thread_id_counter st th). lia.
Qed.
End ThreadId.

(** ** The trustee-thread flag *)
Module Fiber.
(** [IS_TRUSTEE_THREAD], a thread-local [Cell<bool>] that starts [false]. *)
Abbreviation tls := (gmap nat bool).

Definition is_trustee_thread (m : tls) (th : nat) : bool := default false (m !! th).
(** [TrusteeThreadGuard::enter] and its [Drop]. *)
Definition enter (m : tls) (th : nat) : tls := <[th := true]> m.
Definition guard_drop (m : tls) (th : nat) : tls := <[th := false]> m.

(** [enqueue_then] runs the continuation at once. *)
Definition enqueue_then {R K : Type} (then_ : R -> K) (result : R) : K := then_ result.
End Fiber.

(** ** Pinning *)
Module Affinity.
Record PinConfig := {
  core_id : option Z;
  numa_node : option Z;
  mem_bind : bool;
  mac_affinity_tag : option Z;
}.

(** The conditional compilation of [pin_current_thread]. *)
Inductive target := Miri | Linux | Macos | OtherOs.

(** The system calls that it makes. *)
Inductive syscall :=
| SetAffinity (set : list Z)
| SetMempolicy (mode mask maxnode : Z)
| ThreadPolicySet (flavor : Z) (policy : list Z) (count : Z).

Definition MPOL_BIND : Z := 2.

(** [*bits_ptr.add(idx) |= 1u64 << off] on a zeroed [cpu_set_t] seen as
    [words] 64-bit words. *)
Definition cpu_set_of (words : nat) (core : Z) : res (list Z) :=
  let idx := core / 64 in
  let off := core mod 64 in
  let set := replicate words 0 in
  match set !! Z.to_nat idx with
  | Some w => Ok (<[Z.to_nat idx := Z.lor w (Z.shiftl 1 off)]> set)
  | None => UB "cpu_set_t write out of bounds"
  end.

(** [words] is the size of [libc::cpu_set_t] in 64-bit words. *)
Definition pin_linux (words : nat) (cfg : PinConfig) : res (list syscall) :=
  affinity ← match core_id cfg with
             | Some core => set ← cpu_set_of words core; Ok [SetAffinity set]
             | None => Ok []
             end;
  let mempolicy :=
    match numa_node cfg, mem_bind cfg with
    | Some node, true =>
        if node <? 64 then [SetMempolicy MPOL_BIND (Z.lor 0 (Z.shiftl 1 node)) 64] else []
    | _, _ => []
    end in
  Ok (affinity ++ mempolicy).

(** [thread_affinity_policy_data_t] is one [integer_t]. *)
Definition THREAD_AFFINITY_POLICY : Z := 4.
Definition pin_macos (cfg : PinConfig) : list syscall :=
  match mac_affinity_tag cfg with
  | Some tag =>
      let pol := [tag] in
      let cnt := 4 * zlen pol / 4 in
      [ThreadPolicySet THREAD_AFFINITY_POLICY pol cnt]
  | None => []
  end.

Definition pin_current_thread (os : target) (words : nat) (cfg : PinConfig) : res (list syscall) :=
  match os with
  | Miri => Ok []
  | Linux => pin_linux words cfg
  | Macos => Ok (pin_macos cfg)
  | OtherOs => Ok []
  end.

Definition in_set (set : list Z) (core : Z) : bool :=
  match set !! Z.to_nat (core / 64) with
  | Some w => Z.testbit w (core mod 64)
  | None => false
  end.

Lemma cpu_set_of_spec words core :
  0 <= core ->
  if core <? 64 * Z.of_nat words
  then exists set, cpu_set_of words core = Ok set /\ length set = words /\
         forall c, 0 <= c -> in_set set c = (c =? core)
  else cpu_set_of words core = UB "cpu_set_t write out of bounds".
Proof.
  intros H0. unfold cpu_set_of.
  pose proof (Z.div_mod core 64). pose proof (Z.mod_pos_bound core 64).
  destruct (Z.ltb_spec core (64 * Z.of_nat words)).
  - assert (Hlt : (Z.to_nat (core / 64) < words)%nat) by lia.
    rewrite lookup_replicate_2 by done. eexists. split; [done|].
    split; [by rewrite length_insert, length_replicate|].
    intros c Hc. unfold in_set. pose proof (Z.div_mod c 64). pose proof (Z.mod_pos_bound c 64).
    rewrite list_lookup_insert, length_replicate. case_decide as Hd.
    + destruct Hd as [Hd _]. rewrite Z.lor_0_l, Z.shiftl_1_l.
      destruct (Z.eqb_spec c core) as [->|Hne]; [by rewrite Z.pow2_bits_true by lia|].
      apply Z.pow2_bits_false. intros ?. apply Hne. lia.
    + destruct (Z.eqb_spec c core) as [->|Hne]; [by destruct Hd|].
      destruct (replicate words 0 !! Z.to_nat (c / 64)) as [w|] eqn:E; [|done].
      apply lookup_replicate in E as [-> _]. apply Z.testbit_0_l.
  - assert (replicate words 0 !! Z.to_nat (core / 64) = None) as -> by (apply lookup_ge_None; rewrite length_replicate; lia). done.
Qed.
End Affinity.

(** ** Properties *)

(** A wait budget spins [spin_cap] times, then yields [yield_cap]
    times, then only spins, for ever: after [k] steps the counters (and the
    number of yields done) are exactly that, no counter passes its cap, and
    no [u32] increment wraps. *)
Theorem wait_budget_schedule (w : WaitBudget.t) (k : nat) :
  WaitBudget.ok w ->
  let w0 := WaitBudget.reset w in
  let '(w', acts) := WaitBudget.steps k w0 in
  let sc := Z.to_nat (WaitBudget.spin_cap w) in
  let yc := Z.to_nat (WaitBudget.yield_cap w) in
  WaitBudget.spins w' = Z.of_nat (k `min` sc) /\
  WaitBudget.yields w' = Z.of_nat ((k - sc) `min` yc) /\
  WaitBudget.yields_in acts = ((k - sc) `min` yc)%nat /\
  ((sc + yc <= k)%nat -> WaitBudget.step w' = (w', WaitBudget.SpinLoop)).
Proof.
  intros (Hs & Hy & Hsc & Hyc). cbv zeta.
  assert (Hok : WaitBudget.ok (WaitBudget.reset w)) by (unfold WaitBudget.ok; simpl; lia).
  pose proof (WaitBudget.steps_counters k _ Hok) as (H1 & H2 & H3 & H4).
  pose proof (WaitBudget.steps_actions k _ Hok) as Ha.
  destruct (WaitBudget.steps k _) as [w' acts]. unfold WaitBudget.remaining in *. simpl in *.
  rewrite !Z.sub_0_r in *. split; [lia|]. split; [lia|]. split; [rewrite Ha; lia|].
  intros Hk. unfold WaitBudget.step.
  destruct (Z.ltb_spec (WaitBudget.spins w') (WaitBudget.spin_cap w')); [lia|].
  destruct (Z.ltb_spec (WaitBudget.yields w') (WaitBudget.yield_cap w')); [lia|done].
Qed.
Lemma wait_budget_schedule_witness :
  let '(w', acts) := WaitBudget.steps 1000 (WaitBudget.reset WaitBudget.hot) in
  WaitBudget.spins w' = 128 /\ WaitBudget.yields w' = 8 /\
  WaitBudget.yields_in acts = 8%nat /\
  ((136 <= 1000)%nat -> WaitBudget.step w' = (w', WaitBudget.SpinLoop)).
Proof.
  refine (wait_budget_schedule WaitBudget.hot 1000 _).
  unfold WaitBudget.ok, u32_modulus; simpl; lia.
Defined.

(** [acquire_lock_with_budget] returns at the first attempt that
    succeeds, having called the closure once per attempt and stepped the
    budget once per failure; while every attempt fails it does not return. *)
Theorem acquire_lock_terminates {S : Type} (f : S -> S * bool) (s : S) (n fuel : nat) :
  (n < fuel)%nat ->
  (forall i, (i < n)%nat -> (f (WaitBudget.iter_state f i s)).2 = false) ->
  (f (WaitBudget.iter_state f n s)).2 = true ->
  WaitBudget.acquire_lock_with_budget fuel f s =
    Some (WaitBudget.iter_state f (Datatypes.S n) s, (WaitBudget.steps n WaitBudget.hot).1) /\
  WaitBudget.acquire_lock_with_budget n f s = None.
Proof.
  intros Hf Hno Hyes. split; [by apply WaitBudget.acquire_first_success|].
  unfold WaitBudget.acquire_lock_with_budget. generalize WaitBudget.hot. clear Hf Hyes.
  revert s Hno. induction n as [|n IH]; intros s Hno w; [done|]. cbn [WaitBudget.acquire].
  pose proof (Hno O ltac:(lia)) as H0. simpl in H0. destruct (f s) as [s' b] eqn:E. simpl in H0.
  subst b. apply IH. intros i Hi. specialize (Hno (Datatypes.S i) ltac:(lia)). simpl in Hno.
  by rewrite E in Hno.
Qed.
(** A lock that is free at the fourth attempt. *)
Lemma acquire_lock_terminates_witness :
  let f n := (S n, Nat.eqb n 3) in
  WaitBudget.acquire_lock_with_budget 10 f O =
    Some (4%nat, (WaitBudget.steps 3 WaitBudget.hot).1) /\
  WaitBudget.acquire_lock_with_budget 3 f O = None.
Proof.
  intros f. apply (acquire_lock_terminates f O 3 10).
  - lia.
  - intros [|[|[|i]]] Hi; try reflexivity. lia.
  - reflexivity.
Defined.

(** Whatever the order of accesses, every thread that asked has a
    nonzero id (0 is free to mean "no trustee yet"), keeps the same id on
    later accesses, and shares it with no other thread. *)
Theorem thread_ids_distinct (ths : list nat) (th1 th2 : nat) :
  Z.of_nat (length ths) + 1 < usize_modulus -> th1 ∈ ths -> th2 ∈ ths ->
  let st := ThreadId.run ths in
  (ThreadId.get_thread_id st th1).1 = st /\
  (ThreadId.get_thread_id st th1).2 <> 0 /\
  ((ThreadId.get_thread_id st th1).2 = (ThreadId.get_thread_id st th2).2 -> th1 = th2).
Proof.
  intros Hlen H1 H2 st.
  assert (Hin : forall th l, th ∈ l -> is_Some (ThreadId.ids (ThreadId.run l) !! th)).
  { intros th l. unfold ThreadId.run. induction l as [|x l IH] using rev_ind; intros Hth.
    - by apply not_elem_of_nil in Hth.
    - rewrite foldl_app. simpl. set (st' := foldl _ _ _) in *. unfold ThreadId.get_thread_id.
      apply elem_of_app in Hth as [Hth|Hth%list_elem_of_singleton].
      + destruct (IH Hth) as [id Hid]. case_match; simpl; [by eexists|].
        destruct (decide (x = th)) as [->|]; simplify_map_eq; by eexists.
      + subst. case_match; simpl; simplify_map_eq; by eexists. }
  destruct (ThreadId.run_inv ths Hlen) as [[_ Hr Hi] _].
  destruct (Hin _ _ H1) as [id1 E1], (Hin _ _ H2) as [id2 E2].
  fold st in E1, E2, Hr, Hi. unfold ThreadId.get_thread_id. rewrite E1, E2. simpl.
  split; [done|]. pose proof (Hr _ _ E1). split; [lia|]. intros <-. by eapply Hi.
Qed.
Lemma thread_ids_distinct_witness :
  let st := ThreadId.run [4; 7; 4; 9]%nat in
  (ThreadId.get_thread_id st 7).1 = st /\ (ThreadId.get_thread_id st 7).2 <> 0 /\
  ((ThreadId.get_thread_id st 7).2 = (ThreadId.get_thread_id st 9).2 -> 7%nat = 9%nat).
Proof.
  cbv zeta. apply (thread_ids_distinct [4; 7; 4; 9]%nat 7 9).
  - done.
  - set_solver.
  - set_solver.
Defined.

(** A guard marks its own thread and no other; but dropping it clears
    the mark outright: when two trustees run on one thread, the end of the
    inner guard unmarks the thread while the outer one is still alive. *)
Theorem trustee_guard_flag (m : Fiber.tls) (th th' : nat) :
  Fiber.is_trustee_thread (Fiber.enter m th) th = true /\
  (th <> th' -> Fiber.is_trustee_thread (Fiber.enter m th) th' = Fiber.is_trustee_thread m th') /\
  Fiber.is_trustee_thread (Fiber.guard_drop (Fiber.enter m th) th) th = false /\
  Fiber.is_trustee_thread (Fiber.guard_drop (Fiber.enter (Fiber.enter m th) th) th) th = false.
Proof.
  unfold Fiber.is_trustee_thread, Fiber.enter, Fiber.guard_drop.
  split; [by simplify_map_eq|]. split; [intros; by simplify_map_eq|]. split; by simplify_map_eq.
Qed.

(** On Linux, pinning to a core inside the [cpu_set_t] passes the kernel
    a set with that core and no other, and binds memory exactly to the
    configured node when there is one below 64 and binding is on; a core number
    past the end of the set is written out of bounds.  On macOS only the
    affinity tag is set, and elsewhere (Miri included) nothing happens,
    whatever the configuration says. *)
Theorem pin_current_thread_sets (words : nat) (cfg : Affinity.PinConfig) (core : Z) :
  Affinity.core_id cfg = Some core -> 0 <= core ->
  (forall node, Affinity.numa_node cfg = Some node -> 0 <= node) ->
  (if core <? 64 * Z.of_nat words then
     exists set mems,
       Affinity.pin_current_thread Affinity.Linux words cfg = Ok (Affinity.SetAffinity set :: mems) /\
       (forall c, 0 <= c -> Affinity.in_set set c = (c =? core)) /\
       match Affinity.numa_node cfg, Affinity.mem_bind cfg with
       | Some node, true =>
           mems = if node <? 64 then [Affinity.SetMempolicy Affinity.MPOL_BIND (2 ^ node) 64] else []
       | _, _ => mems = []
       end
   else Affinity.pin_current_thread Affinity.Linux words cfg = UB "cpu_set_t write out of bounds") /\
  Affinity.pin_current_thread Affinity.Macos words cfg =
    Ok (match Affinity.mac_affinity_tag cfg with
        | Some tag => [Affinity.ThreadPolicySet 4 [tag] 1]
        | None => []
        end) /\
  Affinity.pin_current_thread Affinity.Miri words cfg = Ok [] /\
  Affinity.pin_current_thread Affinity.OtherOs words cfg = Ok [].
Proof.
  intros Hc H0 Hn. pose proof (Affinity.cpu_set_of_spec words core H0) as Hs.
  unfold Affinity.pin_current_thread, Affinity.pin_linux, Affinity.pin_macos. rewrite Hc.
  split; [|by destruct (Affinity.mac_affinity_tag cfg)]. destruct (core <? _).
  - destruct Hs as (set & -> & _ & Hin). cbn [mbind res_bind app]. eexists set, _.
    split; [done|]. split; [done|].
    destruct (Affinity.numa_node cfg) as [node|], (Affinity.mem_bind cfg); try done.
    specialize (Hn node eq_refl). rewrite Z.lor_0_l, Z.shiftl_1_l. done.
  - by rewrite Hs.
Qed.
Lemma pin_current_thread_sets_witness :
  let cfg := {| Affinity.core_id := Some 70; Affinity.numa_node := Some 3;
                Affinity.mem_bind := true; Affinity.mac_affinity_tag := None |} in
  let out := {| Affinity.core_id := Some 1024; Affinity.numa_node := None;
                Affinity.mem_bind := false; Affinity.mac_affinity_tag := None |} in
  (exists set mems,
      Affinity.pin_current_thread Affinity.Linux 16 cfg = Ok (Affinity.SetAffinity set :: mems) /\
      (forall c, 0 <= c -> Affinity.in_set set c = (c =? 70)) /\
      mems = [Affinity.SetMempolicy Affinity.MPOL_BIND 8 64]) /\
  Affinity.pin_current_thread Affinity.Linux 16 out = UB "cpu_set_t write out of bounds".
Proof.
  intros cfg out. split.
  - refine (proj1 (pin_current_thread_sets 16 cfg 70 _ _ _)); [done|done|]. intros node [= <-]. done.
  - refine (proj1 (pin_current_thread_sets 16 out 1024 _ _ _)); [done|done|]. intros node [=].
Defined.
