(* ===== verification/Scheduler.v ===== *)
(** * Scheduler: registration, idling and the service order of the worker
    loop ([src/runtime/runtime.rs])

    The three policies of the trustee's outer loop that do not depend on what
    a visit does: when registered channels are drained into the client vector,
    what an idle round does, and which index the [for offs in 0..n] loop
    visits while [start_idx] moves under it. *)
From S2P Require Import Prelude.
Local Open Scope nat_scope.

(** ** Registration *)
Section registration.
Context {C : Type}.

(** [while drained < 256 { match pop() { Some => push, None => break } }];
    [fuel] is what is left of the 256. *)
Fixpoint drain_loop (fuel : nat) (clients reg : list C) : list C * list C :=
  match fuel with
  | O => (clients, reg)
  | S fuel =>
      match reg with
      | cp :: reg => drain_loop fuel (clients ++ [cp]) reg
      | [] => (clients, [])
      end
  end.

(** The head of one iteration: bump the counter, drain when there is no
    client or every 16th round. *)
Definition drain (loop_counter : Z) (clients reg : list C) : Z * (list C * list C) :=
  let loop_counter := usize_add loop_counter 1 in
  if (match clients with [] => true | _ => false end) || (loop_counter mod 16 =? 0)%Z
  then (loop_counter, drain_loop 256 clients reg)
  else (loop_counter, (clients, reg)).

Fixpoint drains (k : nat) (loop_counter : Z) (clients reg : list C) : Z * (list C * list C) :=
  match k with
  | O => (loop_counter, (clients, reg))
  | S k => let '(lc, (cs, rg)) := drain loop_counter clients reg in drains k lc cs rg
  end.

Implicit Types (cs rg : list C).

Lemma drain_loop_spec fuel cs rg :
  drain_loop fuel cs rg = (cs ++ take fuel rg, drop fuel rg).
Proof.
  revert cs rg. induction fuel as [|fuel IH]; intros cs rg; simpl; [by rewrite app_nil_r|].
  destruct rg as [|c rg]; simpl; [by rewrite app_nil_r|]. by rewrite IH, <-app_assoc.
Qed.

(** Draining moves a prefix: nobody is lost, duplicated or reordered. *)
Lemma drain_prefix lc cs rg :
  let r := drain lc cs rg in
  exists k, r.2.1 = cs ++ take k rg /\ r.2.2 = drop k rg /\ k <= 256.
Proof.
  unfold drain. case_match; cbn [fst snd].
  - rewrite drain_loop_spec. exists 256. split; [reflexivity|]. split; [reflexivity|lia].
  - exists 0. rewrite take_0, drop_0, app_nil_r. split; [reflexivity|]. split; [reflexivity|lia].
Qed.

Lemma drains_prefix k lc cs rg :
  let r := drains k lc cs rg in
  exists j, r.2.1 = cs ++ take j rg /\ r.2.2 = drop j rg.
Proof.
  revert lc cs rg. induction k as [|k IH]; intros lc cs rg; simpl.
  - exists 0. by rewrite take_0, drop_0, app_nil_r.
  - destruct (drain_prefix lc cs rg) as (j & H1 & H2 & _).
    destruct (drain lc cs rg) as [lc' [cs' rg']]; simpl in *. subst.
    destruct (IH lc' (cs ++ take j rg) (drop j rg)) as (i & H1 & H2).
    exists (j + i). rewrite H1, H2, <-app_assoc, drop_drop. split; [|done].
    by rewrite take_take_drop.
Qed.

(** The counter after [k] iterations, modulo 16: the wrap at [2^64] does not
    show. *)
Lemma drain_counter lc cs rg : ((drain lc cs rg).1 mod 16 = (lc + 1) mod 16)%Z.
Proof.
  unfold drain, usize_add, usize_modulus. replace (2 ^ 64)%Z with (16 * 2 ^ 60)%Z by lia.
  case_match; cbn [fst snd]; rewrite Z.rem_mul_r, (Z.mul_comm 16), Z.mod_add by lia;
    by rewrite Z.mod_mod by lia.
Qed.

Lemma drain_every_16th lc cs rg :
  ((lc + 1) mod 16 = 0)%Z -> (drain lc cs rg).2 = (cs ++ take 256 rg, drop 256 rg).
Proof.
  intros Hlc. pose proof (drain_counter lc cs rg) as Hc. unfold drain in *. rewrite <-drain_loop_spec.
  case_match eqn:E; cbn [fst snd] in *; [reflexivity|]. apply orb_false_iff in E as [_ E].
  rewrite Hlc in Hc. by rewrite Hc in E.
Qed.
End registration.

(** ** Idling *)

Inductive idle_action := IdleSpin | IdleYield.

(** [if idle_rounds < 8 { spin; idle_rounds += 1 } else { yield; = 0 }]. *)
Definition idle_step (idle_rounds : Z) : Z * idle_action :=
  if (idle_rounds <? 8)%Z then ((idle_rounds + 1)%Z, IdleSpin) else (0%Z, IdleYield).

(** The end of a round: progress resets the idle counter. *)
Definition end_of_round (progressed : bool) (idle_rounds : Z) : Z * option idle_action :=
  if progressed then (0%Z, None)
  else let '(i, a) := idle_step idle_rounds in (i, Some a).

(** ** The service order *)
Section rounds.
Context {S : Type}.
(** One visit to the client at an index: new state, and whether the visit
    got past its [continue]s to the end of the loop body. *)
Context (body : nat -> S -> S * bool).

(** Round-robin indexing by conditional subtraction. *)
Definition visit_index (start_idx offs n : nat) : nat :=
  let idx := start_idx + offs in if n <=? idx then idx - n else idx.

(** [for offs in offs..n] with [k] iterations left. *)
Fixpoint for_offs (k offs n start_idx : nat) (progressed : bool) (s : S) : S * nat * bool :=
  match k with
  | O => (s, start_idx, progressed)
  | Datatypes.S k =>
      let idx := visit_index start_idx offs n in
      let '(s, served) := body idx s in
      if served then for_offs k (offs + 1) n ((idx + 1) mod n) true s
      else for_offs k (offs + 1) n start_idx progressed s
  end.

Definition round (n start_idx : nat) (s : S) : S * nat * bool :=
  for_offs n 0 n start_idx false s.
End rounds.

(** The indices a round visits, when [serves offs idx] tells which visits
    serve. *)
Definition tracing (serves : nat -> nat -> bool) (idx : nat) (s : list nat) : list nat * bool :=
  (s ++ [idx], serves (length s) idx).
Definition visited (serves : nat -> nat -> bool) (n start_idx : nat) : list nat :=
  (round (tracing serves) n start_idx []).1.1.

(** [k] rounds in a row, each served as [serves round offs idx] says. *)
Fixpoint visited_rounds (serves : nat -> nat -> nat -> bool) (r k n start_idx : nat) : list nat :=
  match k with
  | O => []
  | S k =>
      let '(tr, start, _) := round (tracing (serves r)) n start_idx [] in
      tr ++ visited_rounds serves (S r) k n start
  end.

(** [0 + 1 + .. + j]. *)
Fixpoint tri (j : nat) : nat := match j with O => 0 | S j => tri j + S j end.

Section service_order.
Implicit Types (n k offs start idx : nat).

Lemma visit_index_lt n start offs : start < n -> offs < n -> visit_index start offs n < n.
Proof. intros H1 H2. unfold visit_index. cbv zeta. destruct (Nat.leb_spec n (start + offs)); lia. Qed.

Lemma visit_index_mod n start offs :
  start < n -> offs < n -> visit_index start offs n = (start + offs) mod n.
Proof.
  intros H1 H2. unfold visit_index. cbv zeta. destruct (Nat.leb_spec n (start + offs)).
  - apply (Nat.mod_unique _ _ 1); lia.
  - by rewrite Nat.mod_small.
Qed.

(** Every index that is used is in range, and so is the next start. *)
Lemma for_offs_in_range {S} (body : nat -> S -> S * bool) (P : S -> Prop) k offs n start p s :
  (forall idx s, idx < n -> P s -> P (body idx s).1) ->
  start < n -> offs + k <= n -> P s ->
  P (for_offs body k offs n start p s).1.1 /\ (for_offs body k offs n start p s).1.2 < n.
Proof.
  intros Hb. revert offs start p s. induction k as [|k IH]; intros offs start p s Hs Ho Hp.
  - done.
  - cbn [for_offs]. pose proof (visit_index_lt n start offs Hs ltac:(lia)) as Hi.
    pose proof (Hb _ _ Hi Hp) as Hp'. destruct (body _ s) as [s' [|]]; simpl in Hp'.
    + apply IH; [apply Nat.mod_upper_bound|..]; (lia || done).
    + apply IH; (lia || done).
Qed.

(** While nothing is served the start does not move: the visits go through
    all indices once, in cyclic order. *)
Lemma for_offs_quiet serves k offs n start p tr :
  length tr = offs -> start < n -> offs + k <= n ->
  (forall o idx, serves o idx = false) ->
  for_offs (tracing serves) k offs n start p tr =
  (tr ++ map (fun j => (start + j) mod n) (seq offs k), start, p).
Proof.
  intros Hl Hs Ho Hq. revert offs tr Hl Ho. induction k as [|k IH]; intros offs tr Hl Ho; simpl.
  - by rewrite app_nil_r.
  - unfold tracing at 1. rewrite Hq, IH; [|rewrite length_app; simpl; lia|lia].
    rewrite <-app_assoc, visit_index_mod by lia. by rewrite Nat.add_1_r.
Qed.

(** When every visit serves, the start moves under the loop. *)
Lemma for_offs_busy k offs n start s0 p tr :
  length tr = offs -> 0 < n -> offs + k <= n -> start = (s0 + tri offs) mod n ->
  for_offs (tracing (fun _ _ => true)) k offs n start p tr =
  (tr ++ map (fun j => (s0 + tri j + j) mod n) (seq offs k),
   (s0 + tri (offs + k)) mod n, match k with O => p | _ => true end).
Proof.
  revert offs start p tr. induction k as [|k IH]; intros offs start p tr Hl Hn Ho ->.
  - simpl. by rewrite app_nil_r, Nat.add_0_r.
  - cbn [for_offs]. rewrite visit_index_mod by (try apply Nat.mod_upper_bound; lia).
    rewrite Nat.Div0.add_mod_idemp_l. unfold tracing at 1.
    rewrite (IH (offs + 1)).
    + rewrite <-app_assoc, Nat.add_1_r. simpl. replace (offs + Datatypes.S k) with (Datatypes.S (offs + k)) by lia.
      repeat f_equal. by destruct k.
    + rewrite length_app. simpl. lia.
    + done.
    + lia.
    + rewrite Nat.Div0.add_mod_idemp_l. replace (tri (offs + 1)) with (tri offs + (offs + 1))
        by (rewrite Nat.add_1_r; done). f_equal. lia.
Qed.

Lemma tri_double j : 2 * tri j = j * (j + 1).
Proof. induction j; simpl in *; lia. Qed.

Lemma tri_odd_mod n s0 : Nat.Odd n -> (s0 + tri n) mod n = s0 mod n.
Proof.
  intros [m Hm]. replace (tri n) with ((m + 1) * n).
  - by rewrite Nat.Div0.mod_add.
  - pose proof (tri_double n). nia.
Qed.
End service_order.

Section more_order.
Implicit Types (n k offs start idx : nat).

Lemma for_offs_step serves k offs n start p tr :
  for_offs (tracing serves) (S k) offs n start p tr =
  let idx := visit_index start offs n in
  if serves (length tr) idx
  then for_offs (tracing serves) k (offs + 1) n ((idx + 1) mod n) true (tr ++ [idx])
  else for_offs (tracing serves) k (offs + 1) n start p (tr ++ [idx]).
Proof. done. Qed.

(** A loop that ends without progress served nobody. *)
Lemma for_offs_no_progress serves k offs n start p tr :
  length tr = offs -> start < n -> offs + k <= n ->
  (for_offs (tracing serves) k offs n start p tr).2 = false ->
  (for_offs (tracing serves) k offs n start p tr).1 =
    (tr ++ map (fun j => (start + j) mod n) (seq offs k), start) /\
  (forall j, offs <= j < offs + k -> serves j ((start + j) mod n) = false).
Proof.
  assert (Hmono : forall k offs start tr,
            (for_offs (tracing serves) k offs n start true tr).2 = true).
  { clear. intros k. induction k as [|k IH]; intros; simpl; [done|]. by destruct (serves _ _). }
  revert offs p tr. induction k as [|k IH]; intros offs p tr Hl Hs Ho Hp.
  - simpl. rewrite app_nil_r. split; [done|lia].
  - revert Hp. rewrite for_offs_step. cbv zeta. rewrite visit_index_mod, Hl by lia.
    destruct (serves offs ((start + offs) mod n)) eqn:E.
    + by rewrite Hmono.
    + intros Hp. edestruct (IH (offs + 1)) as [-> Hq]; [|done|lia|exact Hp|].
      { rewrite length_app. simpl. lia. }
      rewrite <-app_assoc, Nat.add_1_r. split; [done|]. intros j Hj.
      destruct (decide (j = offs)) as [->|]; [done|]. apply Hq. lia.
Qed.

(** The cyclic order from any start is a permutation of the indices. *)
Lemma cyclic_permutation n start :
  start < n -> Permutation (seq 0 n) (map (fun j => (start + j) mod n) (seq 0 n)).
Proof.
  intros Hs. apply NoDup_Permutation_bis.
  - apply NoDup_ListNoDup, NoDup_seq.
  - by rewrite length_map.
  - intros x Hx. apply in_seq in Hx. apply in_map_iff. exists ((x + n - start) mod n).
    split; [|apply in_seq; pose proof (Nat.mod_upper_bound (x + n - start) n); lia].
    rewrite Nat.Div0.add_mod_idemp_r. symmetry. apply (Nat.mod_unique _ _ 1); lia.
Qed.

(** [n] visits of which two hit the same index miss one. *)
Lemma missed_index n (l : list nat) i j :
  length l = n -> i < j -> j < n -> l !! i = l !! j -> exists x, x < n /\ x ∉ l.
Proof.
  intros Hl Hij Hj Heq.
  destruct (decide (Forall (fun x => x ∈ l) (seq 0 n))) as [Hall|Hno].
  - exfalso. assert (Hnd : List.NoDup l).
    { apply (@NoDup_incl_NoDup nat (seq 0 n) l).
      - apply NoDup_ListNoDup, NoDup_seq.
      - by rewrite length_seq, Hl.
      - intros x Hx. apply list_elem_of_In. rewrite Forall_forall in Hall. apply Hall.
        by apply list_elem_of_In. }
    apply NoDup_ListNoDup in Hnd.
    destruct (lookup_lt_is_Some_2 l j) as [y Hy]; [lia|].
    pose proof (NoDup_lookup l i j y Hnd ltac:(congruence) Hy). lia.
  - apply not_Forall_Exists in Hno; [|apply _]. apply Exists_exists in Hno as (x & Hx & Hnx).
    exists x. split; [|done]. apply elem_of_seq in Hx. lia.
Qed.

Definition busy_indices n start : list nat := map (fun j => (start + tri j + j) mod n) (seq 0 n).

Lemma busy_round n start :
  start < n ->
  round (tracing (fun _ _ => true)) n start [] =
  (busy_indices n start, (start + tri n) mod n, true).
Proof.
  intros Hs. unfold round. rewrite (for_offs_busy n 0 n start start); [|done|lia|lia|].
  - destruct n; [lia|]. done.
  - simpl. by rewrite Nat.add_0_r, Nat.mod_small.
Qed.

(** The last two visits of a busy round coincide. *)
Lemma busy_collision n start :
  2 <= n -> busy_indices n start !! (n - 2) = busy_indices n start !! (n - 1).
Proof.
  intros Hn. unfold busy_indices. rewrite !list_lookup_fmap, !lookup_seq_lt by lia.
  cbn [fmap option_fmap option_map]. f_equal. rewrite !Nat.add_0_l.
  destruct n as [|[|n]]; try lia. replace (S (S n) - 2) with n by lia.
  replace (S (S n) - 1) with (S n) by lia. cbn [tri].
  replace (start + (tri n + S n) + S n) with (start + tri n + n + 1 * S (S n)) by lia.
  by rewrite Nat.Div0.mod_add.
Qed.

(** With an odd number of clients every busy round is the same. *)
Lemma busy_rounds_odd r k n start :
  start < n -> Nat.Odd n ->
  forall x, x ∈ visited_rounds (fun _ _ _ => true) r k n start -> x ∈ busy_indices n start.
Proof.
  intros Hs Hodd. revert r. induction k as [|k IH]; intros r x; cbn [visited_rounds].
  - by intros ?%not_elem_of_nil.
  - rewrite busy_round by done. rewrite tri_odd_mod, Nat.mod_small by done.
    intros [?|?]%elem_of_app; eauto.
Qed.

Lemma drains_split {C} a b lc (cs rg : list C) :
  drains (a + b) lc cs rg =
  let r := drains a lc cs rg in drains b r.1 r.2.1 r.2.2.
Proof.
  revert lc cs rg. induction a as [|a IH]; intros lc cs rg; [done|]. cbn [drains Nat.add].
  destruct (drain lc cs rg) as [lc' [cs' rg']]. apply IH.
Qed.

Lemma drains_counter {C} k lc (cs rg : list C) :
  ((drains k lc cs rg).1 mod 16 = (lc + Z.of_nat k) mod 16)%Z.
Proof.
  revert lc cs rg. induction k as [|k IH]; intros lc cs rg; [simpl; f_equal; lia|].
  cbn [drains]. pose proof (drain_counter lc cs rg) as Hc.
  destruct (drain lc cs rg) as [lc' [cs' rg']]. cbn [fst] in Hc. rewrite IH.
  rewrite Z.add_mod, Hc, <-Z.add_mod by lia. f_equal. lia.
Qed.
End more_order.

(** ** Properties *)

(** Registration is first in, first out and loses nobody, whatever the
    number of iterations; and a registered channel does not wait long: any 16
    consecutive iterations move at least the first 256 waiting channels (all
    of them, if there are fewer) to the client vector. *)
Theorem registration_fifo_and_bounded {C} (k : nat) (loop_counter : Z) (clients reg : list C) :
  let r := drains k loop_counter clients reg in
  r.2.1 ++ r.2.2 = clients ++ reg /\
  exists j, r.2.1 = clients ++ take j reg /\ (16 <= k -> 256 <= j).
Proof.
  cbv zeta. destruct (drains_prefix k loop_counter clients reg) as (j & H1 & H2).
  split; [rewrite H1, H2, <-app_assoc, take_drop; reflexivity|].
  destruct (decide (16 <= k)) as [Hk|]; [|exists j; split; [done|lia]].
  set (i := Z.to_nat (15 - loop_counter mod 16)).
  pose proof (Z.mod_pos_bound loop_counter 16).
  replace k with (i + (1 + (k - i - 1))) by lia.
  rewrite drains_split. cbv zeta.
  destruct (drains_prefix i loop_counter clients reg) as (a & Ha1 & Ha2).
  pose proof (drains_counter i loop_counter clients reg) as Hc.
  set (ri := drains i loop_counter clients reg) in *. rewrite Ha1, Ha2, drains_split. cbv zeta.
  assert (H16 : ((ri.1 + 1) mod 16 = 0)%Z).
  { rewrite Z.add_mod, Hc, <-Z.add_mod by lia. unfold i. rewrite Z2Nat.id by lia.
    rewrite (Z.div_mod loop_counter 16) at 1 by lia.
    replace (16 * (loop_counter / 16) + loop_counter mod 16 + (15 - loop_counter mod 16) + 1)%Z
      with (0 + (loop_counter / 16 + 1) * 16)%Z by lia.
    rewrite Z.mod_add by lia. reflexivity. }
  cbn [drains]. pose proof (drain_every_16th _ (clients ++ take a reg) (drop a reg) H16) as Hd.
  destruct (drain _ _ _) as [lc' cr]. cbn [snd] in Hd. subst cr. cbn [fst snd].
  destruct (drains_prefix (k - i - 1) lc' ((clients ++ take a reg) ++ take 256 (drop a reg))
              (drop 256 (drop a reg))) as (b & Hb & _).
  exists (a + (256 + b)). split; [|lia].
  rewrite Hb, <-!app_assoc, (take_take_drop (drop a reg) 256 b), take_take_drop. reflexivity.
Qed.
(** A round visits only indices in range, so the indexing never panics;
    if some client is ready the round serves one; and a round that serves
    nobody has looked at every client exactly once and leaves the start where
    it was. *)
Theorem round_visits (serves : nat -> nat -> bool) (n start : nat) :
  start < n ->
  let '(tr, start', progressed) := round (tracing serves) n start [] in
  Forall (fun idx => idx < n) tr /\ start' < n /\
  (forall x, x < n -> (forall offs, serves offs x = true) -> progressed = true) /\
  (progressed = false -> Permutation (seq 0 n) tr /\ start' = start).
Proof.
  intros Hs. unfold round.
  destruct (for_offs_in_range (tracing serves) (Forall (fun idx => idx < n)) n 0 n start false [])
    as [Hin Hst]; [|done|done|constructor|].
  { intros idx s Hi Hf. simpl. apply Forall_app. split; [done|]. by constructor. }
  pose proof (for_offs_no_progress serves n 0 n start false [] eq_refl Hs ltac:(lia)) as Hnp.
  pose proof (cyclic_permutation n start Hs) as Hperm.
  destruct (for_offs _ _ _ _ _ _ _) as [[tr start'] p]. cbn [fst snd] in *.
  split; [done|]. split; [done|]. split.
  - intros x Hx Hready. destruct p; [done|]. destruct (Hnp eq_refl) as [[= -> _] Hno].
    assert (Hxin : In x (seq 0 n)) by (apply in_seq; lia).
    eapply Permutation_in, in_map_iff in Hxin as (j & Heq & Hj); [|exact Hperm].
    apply in_seq in Hj. simpl in Heq. subst x. pose proof (Hno j ltac:(lia)). pose proof (Hready j). congruence.
  - intros ->. destruct (Hnp eq_refl) as [[= -> ->] _]. done.
Qed.
Lemma round_visits_witness :
  let serves := fun (_ idx : nat) => Nat.eqb idx 9 in
  round (tracing serves) 4 2 [] = ([2; 3; 0; 1], 2, false) /\
  let '(tr, start', progressed) := round (tracing serves) 4 2 [] in
  Forall (fun idx => idx < 4) tr /\ start' < 4 /\
  (forall x, x < 4 -> (forall offs, serves offs x = true) -> progressed = true) /\
  (progressed = false -> Permutation (seq 0 4) tr /\ start' = 2).
Proof. intros serves. split; [reflexivity|]. apply (round_visits serves 4 2). lia. Defined.

(** The service order is not round robin: [start_idx] is advanced inside
    the loop that indexes from it.  With an odd number [n >= 3] of clients
    that are all ready whenever they are looked at, some client is never
    looked at, in any number of rounds. *)
Theorem service_order_starves (n start k : nat) :
  start < n -> Nat.Odd n -> 3 <= n ->
  exists victim, victim < n /\
    forall r, victim ∉ visited_rounds (fun _ _ _ => true) r k n start.
Proof.
  intros Hs Hodd Hn.
  destruct (missed_index n (busy_indices n start) (n - 2) (n - 1)) as (x & Hx & Hno).
  - unfold busy_indices. by rewrite length_map, length_seq.
  - lia.
  - lia.
  - apply busy_collision. lia.
  - exists x. split; [done|]. intros r Hin. apply Hno. by eapply busy_rounds_odd.
Qed.
Lemma service_order_starves_witness :
  visited_rounds (fun _ _ _ => true) 0 3 3 0 = [0; 2; 2; 0; 2; 2; 0; 2; 2] /\
  exists victim, victim < 3 /\
    forall r, victim ∉ visited_rounds (fun _ _ _ => true) r 1000 3 0.
Proof.
  split; [reflexivity|]. apply (service_order_starves 3 0 1000); [lia|by exists 1|lia].
Defined.
