(* ===== verification/ServiceOrder.v ===== *)
(** * ServiceOrder: whom a busy worker serves ([src/runtime/runtime.rs])

    [start_idx] moves inside the loop that indexes from it ([Scheduler]), so
    with all clients ready the visits of a round follow the triangular numbers.
    Modulo a power of two these reach every residue; modulo an odd number they
    do not.  Hence exactly the worker with [2^m] busy clients is fair. *)
From S2P Require Import Prelude Scheduler.
Local Open Scope nat_scope.

(** ** Triangular numbers *)
Section triangular.
Implicit Types (i j k d n m : nat).

(** They repeat modulo an odd number ... *)
Lemma tri_add i j : tri (i + j) = tri i + i * j + tri j.
Proof. induction i as [|i IH]; simpl; [done|]. rewrite IH. lia. Qed.

Lemma tri_odd_divides d : Nat.Odd d -> exists c, tri d = c * d.
Proof. intros [m Hm]. exists (m + 1). pose proof (tri_double d). nia. Qed.

Lemma tri_period d j : Nat.Odd d -> tri (d + j) mod d = tri j mod d.
Proof.
  intros Hd. destruct (tri_odd_divides d Hd) as [c Hc]. rewrite tri_add, Hc.
  replace (c * d + d * j + tri j) with (tri j + (c + j) * d) by lia. apply Nat.Div0.mod_add.
Qed.

Lemma tri_periods d k j : Nat.Odd d -> tri (k * d + j) mod d = tri j mod d.
Proof.
  intros Hd. induction k as [|k IH]; [done|].
  replace (S k * d + j) with (d + (k * d + j)) by lia. by rewrite tri_period.
Qed.

(** ... and the last of the period is the first: a residue is missing. *)
Lemma tri_misses d :
  Nat.Odd d -> 3 <= d -> exists r, r < d /\ forall j, tri j mod d <> r.
Proof.
  intros Hd H3.
  destruct (missed_index d (map (fun j => tri j mod d) (seq 0 d)) 0 (d - 1)) as (r & Hr & Hno).
  - by rewrite length_map, length_seq.
  - lia.
  - lia.
  - rewrite !list_lookup_fmap, !lookup_seq_lt by lia. cbn [fmap option_fmap option_map]. f_equal.
    simpl. destruct (tri_odd_divides d Hd) as [c Hc].
    assert (tri (d - 1) = (c - 1) * d) as ->.
    { assert (Hs : tri d = tri (d - 1) + d).
      { destruct d as [|d']; [lia|]. replace (S d' - 1) with d' by lia. simpl. lia. }
      assert (1 <= c) by nia. rewrite Nat.mul_sub_distr_r. lia. }
    by rewrite Nat.Div0.mod_mul, Nat.Div0.mod_0_l.
  - exists r. split; [done|]. intros j Hj. apply Hno.
    apply list_elem_of_In, in_map_iff. exists (j mod d). split.
    + rewrite <-Hj. rewrite (Nat.div_mod j d) at 2 by lia.
      rewrite (Nat.mul_comm d). by rewrite tri_periods.
    + apply in_seq. pose proof (Nat.mod_upper_bound j d). lia.
Qed.

(** Modulo a power of two the first ones are all different. *)
Lemma tri_inj_pow2 m i j :
  i < 2 ^ m -> j < 2 ^ m -> tri i mod 2 ^ m = tri j mod 2 ^ m -> i = j.
Proof.
  assert (Hlt : forall i j, i < j -> j < 2 ^ m -> tri i mod 2 ^ m <> tri j mod 2 ^ m).
  { clear i j. intros i j Hij Hj Heq.
    assert (Hdiv : (2 ^ Z.of_nat (S m) | Z.of_nat (j - i) * Z.of_nat (j + i + 1))%Z).
    { assert (Hn0 : 2 ^ m <> 0) by (apply Nat.pow_nonzero; lia).
      pose proof (Nat.div_mod (tri i) (2 ^ m) Hn0) as Hi. pose proof (Nat.div_mod (tri j) (2 ^ m) Hn0) as Hj'.
      rewrite Heq in Hi. pose proof (tri_double i) as Di. pose proof (tri_double j) as Dj.
      exists (Z.of_nat (tri j / 2 ^ m) - Z.of_nat (tri i / 2 ^ m))%Z.
      rewrite Nat2Z.inj_succ, Z.pow_succ_r by lia. change 2%Z with (Z.of_nat 2).
      rewrite <-Nat2Z.inj_pow. nia. }
    assert (Hpow : (0 < 2 ^ Z.of_nat (S m))%Z) by (apply Z.pow_pos_nonneg; lia).
    assert (Hlt2 : (Z.of_nat (2 ^ m) * 2 = 2 ^ Z.of_nat (S m))%Z).
    { rewrite Nat2Z.inj_succ, Z.pow_succ_r by lia. change 2%Z with (Z.of_nat 2).
      rewrite <-Nat2Z.inj_pow. lia. }
    assert (Hodd : forall a, Z.odd a = true -> Z.gcd (2 ^ Z.of_nat (S m)) a = 1%Z).
    { intros a Ha. apply Z.coprime_pow_l; [lia|]. apply Z.odd_spec in Ha as [b ->].
      rewrite Z.add_comm, (Z.mul_comm 2). apply (Z.gcd_add_mult_diag_r 2 1 b). }
    destruct (Z.odd (Z.of_nat (j - i))) eqn:Ho.
    - apply Z.gauss in Hdiv; [|by apply Hodd]. apply Z.divide_pos_le in Hdiv; lia.
    - rewrite Z.mul_comm in Hdiv. apply Z.gauss in Hdiv.
      + apply Z.divide_pos_le in Hdiv; lia.
      + apply Hodd. replace (Z.of_nat (j + i + 1)) with (Z.of_nat (j - i) + (2 * Z.of_nat i + 1))%Z by lia.
        rewrite Z.odd_add, Ho, Z.odd_add, Z.odd_mul. done. }
  intros Hi Hj Heq. destruct (Nat.lt_trichotomy i j) as [H|[H|H]]; [|done|];
    [by destruct (Hlt _ _ H Hj)|by destruct (Hlt _ _ H Hi)].
Qed.

Lemma tri_onto_pow2 m y : y < 2 ^ m -> exists j, j < 2 ^ m /\ tri j mod 2 ^ m = y.
Proof.
  intros Hy.
  assert (Hin : incl (seq 0 (2 ^ m)) (map (fun j => tri j mod 2 ^ m) (seq 0 (2 ^ m)))).
  { apply NoDup_length_incl.
    - apply NoDup_ListNoDup, NoDup_fmap_2_strong; [|apply NoDup_seq].
      intros i j Hi Hj. apply elem_of_seq in Hi, Hj. apply tri_inj_pow2; lia.
    - by rewrite length_map, length_seq.
    - intros x Hx. apply in_map_iff in Hx as (j & <- & Hj). apply in_seq.
      pose proof (Nat.mod_upper_bound (tri j) (2 ^ m)). lia. }
  specialize (Hin y). rewrite in_seq, in_map_iff in Hin.
  destruct Hin as (j & Hj & Hs); [lia|]. apply in_seq in Hs. exists j. split; [lia|done].
Qed.

(** Every number is a power of two or has an odd divisor above one. *)
Lemma pow2_or_odd_divisor n :
  0 < n -> (exists m, n = 2 ^ m) \/ exists d c, Nat.Odd d /\ 3 <= d /\ n = d * c.
Proof.
  induction n as [n IH] using lt_wf_ind. intros Hn.
  destruct (Nat.Even_or_Odd n) as [[h Hh]|Ho].
  - destruct (IH h) as [[m ->]|(d & c & Hd & H3 & ->)]; [lia|lia| |].
    + left. exists (S m). simpl. lia.
    + right. exists d, (2 * c). split; [done|]. split; [done|]. lia.
  - destruct (decide (n = 1)) as [->|]; [left; by exists 0|].
    right. exists n, 1. split; [done|]. split; [|lia]. destruct Ho as [k Hk]. lia.
Qed.

(** So the two cases exclude each other. *)
Lemma pow2_no_odd_divisor m d c : 2 ^ m = d * c -> Nat.Odd d -> d < 3.
Proof.
  intros Hm Hd. destruct (decide (3 <= d)) as [H3|]; [|lia]. exfalso.
  destruct (tri_misses d Hd H3) as (r & Hr & Hno).
  assert (Hc : c <> 0) by (intros ->; pose proof (Nat.pow_nonzero 2 m); lia).
  destruct (tri_onto_pow2 m r) as (j & _ & Hj); [rewrite Hm; nia|].
  apply (Hno j). rewrite <-(Nat.mod_small r d Hr), <-Hj, Hm.
  by rewrite Nat.Div0.mod_mul_r, (Nat.mul_comm d), Nat.Div0.mod_add, Nat.Div0.mod_mod.
Qed.
End triangular.

(** ** Rounds in which every visit serves *)
Section busy.
Implicit Types (n start r k x d m : nat).

Definition busy (_ _ _ : nat) : bool := true.

(** The [r]-th of consecutive busy rounds. *)
Definition start_of n start r : nat := (start + r * tri n) mod n.

Lemma start_of_lt n start r : start < n -> start_of n start r < n.
Proof. intros. apply Nat.mod_upper_bound. lia. Qed.

Lemma visited_busy k r n start x :
  start < n ->
  x ∈ visited_rounds busy r k n start <-> exists i, i < k /\ x ∈ busy_indices n (start_of n start i).
Proof.
  revert r start. induction k as [|k IH]; intros r start Hs; cbn [visited_rounds].
  { split; [by intros ?%not_elem_of_nil|]. intros (i & ? & _). lia. }
  unfold busy at 1. rewrite busy_round by done. rewrite elem_of_app, (IH (S r) _ (Nat.mod_upper_bound _ n ltac:(lia))).
  assert (Hz : start_of n start 0 = start) by (unfold start_of; rewrite Nat.add_0_r; by apply Nat.mod_small).
  assert (Hsh : forall i, start_of n ((start + tri n) mod n) i = start_of n start (S i)).
  { intros i. unfold start_of. rewrite Nat.Div0.add_mod_idemp_l. f_equal. lia. }
  split.
  - intros [Hx|(i & Hi & Hx)]; [exists 0; rewrite Hz; split; [lia|done]|].
    exists (S i). rewrite <-Hsh. split; [lia|done].
  - intros ([|i] & Hi & Hx); [left; by rewrite Hz in Hx|]. right. exists i. rewrite Hsh. split; [lia|done].
Qed.

(** The [j]-th visit of a busy round. *)
Lemma busy_indices_elem n start x :
  x ∈ busy_indices n start <-> exists j, j < n /\ x = (start + tri j + j) mod n.
Proof.
  unfold busy_indices. rewrite list_elem_of_In, in_map_iff. split.
  - intros (j & <- & Hj). apply in_seq in Hj. exists j. split; [lia|done].
  - intros (j & Hj & ->). exists j. split; [done|]. apply in_seq. lia.
Qed.

(** With [2^m] clients a round reaches all but the one before its start. *)
Lemma busy_pow2 m n start x :
  n = 2 ^ m -> start < n -> x < n -> (x + 1) mod n <> start -> x ∈ busy_indices n start.
Proof.
  intros Hn Hs Hx Hne. apply busy_indices_elem.
  destruct (tri_onto_pow2 m ((x + 1 + (n - start)) mod n)) as (j & Hj & Htri).
  { rewrite <-Hn. apply Nat.mod_upper_bound. lia. }
  rewrite <-Hn in Hj, Htri. destruct j as [|j].
  - destruct Hne. simpl in Htri. rewrite Nat.Div0.mod_0_l in Htri. symmetry in Htri.
    apply Nat.Div0.mod_divides in Htri as [c Hc].
    assert (c = 1 \/ c = 2) as [->| ->] by nia.
    + replace (x + 1) with start by lia. by apply Nat.mod_small.
    + assert (start = 0) as -> by lia. replace (x + 1) with n by lia. apply Nat.Div0.mod_same.
  - exists j. split; [lia|].
    assert (He : (start + tri j + j + 1) mod n = (x + 1) mod n).
    { replace (start + tri j + j + 1) with (start + tri (S j)) by (simpl; lia).
      rewrite <-Nat.Div0.add_mod_idemp_r, Htri, Nat.Div0.add_mod_idemp_r.
      replace (start + (x + 1 + (n - start))) with (x + 1 + 1 * n) by lia. apply Nat.Div0.mod_add. }
    rewrite <-(Nat.mod_small x n Hx) at 1. symmetry.
    apply (f_equal (fun z => (z + (n - 1)) mod n)) in He. rewrite !Nat.Div0.add_mod_idemp_l in He.
    replace (start + tri j + j + 1 + (n - 1)) with (start + tri j + j + 1 * n) in He by lia.
    replace (x + 1 + (n - 1)) with (x + 1 * n) in He by lia. by rewrite !Nat.Div0.mod_add in He.
Qed.

(** The next start is half way round. *)
Lemma start_moves m n start : n = 2 ^ S m -> start < n -> start_of n start 1 <> start.
Proof.
  intros Hn Hs. unfold start_of. rewrite Nat.mul_1_l.
  assert (Ht : tri n = 2 ^ m + 2 ^ m * n).
  { pose proof (tri_double n) as Hd. simpl in Hn. nia. }
  rewrite Ht. replace (start + (2 ^ m + 2 ^ m * n)) with (start + 2 ^ m + 2 ^ m * n) by lia.
  rewrite Nat.Div0.mod_add. simpl in Hn. assert (2 ^ m <> 0) by (apply Nat.pow_nonzero; lia).
  destruct (decide (start + 2 ^ m < n)).
  - rewrite Nat.mod_small by lia. lia.
  - rewrite <-(Nat.mod_unique (start + 2 ^ m) n 1 (start + 2 ^ m - n)) by lia. lia.
Qed.

(** With an odd divisor [d] of their number, no round leaves its class. *)
Lemma busy_class d c n start i x :
  Nat.Odd d -> n = d * c -> start < n -> x ∈ busy_indices n (start_of n start i) ->
  exists j, (x + 1) mod d = (start + tri j) mod d.
Proof.
  intros Hd Hn Hs Hx. apply busy_indices_elem in Hx as (j & _ & ->). exists (S j).
  assert (Hd0 : d <> 0) by (destruct Hd; lia).
  assert (Hmod : forall a, (a mod n) mod d = a mod d).
  { intros a. rewrite Hn, Nat.Div0.mod_mul_r, (Nat.mul_comm d), Nat.Div0.mod_add.
    apply Nat.Div0.mod_mod. }
  rewrite <-Nat.Div0.add_mod_idemp_l, Hmod, Nat.Div0.add_mod_idemp_l. unfold start_of.
  replace ((start + i * tri n) mod n + tri j + j + 1)
    with ((start + i * tri n) mod n + tri (S j)) by (simpl; lia).
  rewrite <-Nat.Div0.add_mod_idemp_l, Hmod, Nat.Div0.add_mod_idemp_l.
  assert (Hz : tri n mod d = 0).
  { rewrite Hn. replace (d * c) with (c * d + 0) by lia. by rewrite tri_periods, Nat.Div0.mod_0_l. }
  apply Nat.Div0.mod_divides in Hz as [e ->].
  replace (start + i * (d * e) + tri (S j)) with (start + tri (S j) + (i * e) * d) by lia.
  apply Nat.Div0.mod_add.
Qed.

Lemma busy_odd_divisor d c n start :
  Nat.Odd d -> 3 <= d -> n = d * c -> start < n ->
  exists victim, victim < n /\ forall r k, victim ∉ visited_rounds busy r k n start.
Proof.
  intros Hd H3 Hn Hs. destruct (tri_misses d Hd H3) as (m & Hm & Hno).
  exists ((start + m + (d - 1)) mod d).
  pose proof (Nat.mod_upper_bound (start + m + (d - 1)) d ltac:(lia)) as Hlt.
  split; [destruct c; nia|].
  intros r k Hx. apply visited_busy in Hx as (i & _ & Hx); [|done].
  destruct (busy_class d c n start i _ Hd Hn Hs Hx) as [j Hj]. apply (Hno j).
  rewrite Nat.Div0.add_mod_idemp_l in Hj.
  replace (start + m + (d - 1) + 1) with (start + m + 1 * d) in Hj by lia.
  rewrite Nat.Div0.mod_add in Hj. rewrite <-(Nat.mod_small m d Hm).
  apply (f_equal (fun z => (z + start * (d - 1)) mod d)) in Hj. rewrite !Nat.Div0.add_mod_idemp_l in Hj.
  replace (start + m + start * (d - 1)) with (m + start * d) in Hj by nia.
  replace (start + tri j + start * (d - 1)) with (tri j + start * d) in Hj by nia.
  by rewrite !Nat.Div0.mod_add in Hj.
Qed.

Lemma busy_pow2_all m n start x :
  n = 2 ^ m -> start < n -> x < n -> x ∈ visited_rounds busy 0 2 n start.
Proof.
  intros Hn Hs Hx. apply visited_busy; [done|].
  assert (Hz : start_of n start 0 = start) by (unfold start_of; rewrite Nat.add_0_r; by apply Nat.mod_small).
  destruct (decide ((x + 1) mod n = start)) as [He|Hne].
  - destruct m as [|m].
    + simpl in Hn. subst n. exists 0. split; [lia|]. apply busy_indices_elem. exists 0.
      split; [lia|]. rewrite Nat.mod_1_r. lia.
    + exists 1. split; [lia|]. eapply busy_pow2; [exact Hn|by apply start_of_lt|done|].
      rewrite He. pose proof (start_moves m n start Hn Hs). congruence.
  - exists 0. split; [lia|]. rewrite Hz. by eapply busy_pow2.
Qed.
End busy.

(** ** Properties *)

(** The service order is round robin only for a power of two: with all
    [n] clients ready whenever they are looked at, every client is served
    within two rounds if [n] is a power of two, and if it is not, some client
    is never looked at again, in any number of rounds. *)
Theorem busy_service_fair_iff (n start : nat) :
  start < n ->
  ((exists m, n = 2 ^ m) <-> forall x, x < n -> x ∈ visited_rounds busy 0 2 n start) /\
  (~ (exists m, n = 2 ^ m) ->
   exists victim, victim < n /\ forall r k, victim ∉ visited_rounds busy r k n start).
Proof.
  intros Hs.
  assert (Hno : ~ (exists m, n = 2 ^ m) ->
    exists victim, victim < n /\ forall r k, victim ∉ visited_rounds busy r k n start).
  { intros Hn. destruct (pow2_or_odd_divisor n) as [Hm|(d & c & Hd & H3 & Hc)]; [lia|done|].
    by eapply busy_odd_divisor. }
  split; [|done]. split.
  - intros [m Hm] x Hx. by eapply busy_pow2_all.
  - intros Hall. destruct (pow2_or_odd_divisor n) as [Hm|(d & c & Hd & H3 & Hc)]; [lia|done|].
    destruct (busy_odd_divisor d c n start Hd H3 Hc Hs) as (v & Hv & Hnv). by destruct (Hnv 0 2 (Hall v Hv)).
Qed.
Lemma busy_service_fair_iff_witness :
  visited_rounds busy 0 2 4 0 = [0; 2; 1; 1; 2; 0; 3; 3] /\
  visited_rounds busy 0 3 6 0 = [0; 2; 5; 3; 2; 2; 3; 5; 2; 0; 5; 5; 0; 2; 5; 3; 2; 2] /\
  (((exists m, 6 = 2 ^ m) <-> forall x, x < 6 -> x ∈ visited_rounds busy 0 2 6 0) /\
   (~ (exists m, 6 = 2 ^ m) ->
    exists victim, victim < 6 /\ forall r k, victim ∉ visited_rounds busy r k 6 0)).
Proof. split; [reflexivity|]. split; [reflexivity|]. apply (busy_service_fair_iff 6 0). lia. Defined.
