(* ===== verification/FiberPool.v ===== *)
(** * FiberPool: the fibers of launched closures ([src/runtime/runtime.rs])

    Launched closures run on fibers that go back to a pool when they are
    done.  This file models the dispatch of a job (reuse a pooled fiber or
    spawn one), the loop of a fiber, and the shutdown protocol of [Terminate]:
    a terminator that drains the pool while the worker joins every fiber.
    A channel [fiber::channel] is its queue of messages; sending fails when
    the receiver is gone, receiving fails when no sender is left. *)
From S2P Require Import Prelude.

(** ** Data *)

(** [Job]; a closure is known here by a number. *)
Inductive Job := Execute (n : nat) | Shutdown.

(** Where a fiber is in its loop: at [recv], inside [job()], before
    [pool_producer.push], or gone (returned or unwound). *)
Inductive loop_point := Receiving | Running (n : nat) | Returning | Gone.

Record pfiber := { inbox : list Job; point : loop_point }.

(** The terminator: its polling loop, its last sweep, its end. *)
Inductive terminator := Polling | Sweeping | Ended.

(** What the worker does: dispatches, or [Terminate] with [joined] handles
    already joined, [done_flag] and the terminator. *)
Inductive worker_mode :=
| Serving
| Joining (joined : nat) (done_flag : bool) (term : terminator)
| Exited.

Record pool_state := {
  fibers : list pfiber;       (* in the order of [fiber_handles] *)
  pool : list nat;            (* [fiber_pool]: the senders of idle fibers *)
  mode : worker_mode;
  finished : list nat;        (* jobs whose closure is over, by return or panic *)
}.

Definition alive (f : pfiber) : bool := match point f with Gone => false | _ => true end.

(** ** Dispatch *)

(** [tx.send(job)]: [None] gives the job back. *)
Definition send (fs : list pfiber) (tx : nat) (j : Job) : option (list pfiber) :=
  f ← fs !! tx;
  if alive f then Some (<[tx := {| inbox := inbox f ++ [j]; point := point f |}]> fs) else None.

(** [loop { if let Some(tx) = pool.pop() { .. } else { spawn } }]. *)
Fixpoint dispatch (fs : list pfiber) (pool : list nat) (j : Job) : list pfiber * list nat :=
  match pool with
  | tx :: pool =>
      match send fs tx j with
      | Some fs => (fs, pool)
      | None => dispatch fs pool j
      end
  | [] => (fs ++ [{| inbox := [j]; point := Receiving |}], [])
  end.

(** ** The loop of a fiber *)

Inductive received := Message (j : Job) (rest : list Job) | Blocked | Disconnected.

(** The fiber keeps a sender of its own channel (the [tx] it clones). *)
Definition senders (pool : list nat) (i : nat) : nat := S (count_occ Nat.eq_dec pool i).

Definition recv (pool : list nat) (i : nat) (f : pfiber) : received :=
  match inbox f with
  | j :: rest => Message j rest
  | [] => if (senders pool i =? 0)%nat then Disconnected else Blocked
  end.

Inductive pool_action :=
| Dispatch (n : nat)
| Recv (i : nat)
| Finish (i : nat) (panics : bool)
| GoBack (i : nat)
| Terminate_            (* the worker meets a [Terminate] record *)
| JoinNext
| SetDone
| TerminatorStep
| WorkerExit.

Definition set_fiber (s : pool_state) (i : nat) (f : pfiber) : pool_state :=
  {| fibers := <[i := f]> (fibers s); pool := pool s; mode := mode s; finished := finished s |}.
Definition set_mode (s : pool_state) (m : worker_mode) : pool_state :=
  {| fibers := fibers s; pool := pool s; mode := m; finished := finished s |}.

(** The terminator pops one sender and sends it [Shutdown]. *)
Definition shut_one (s : pool_state) : option pool_state :=
  match pool s with
  | tx :: rest =>
      Some {| fibers := default (fibers s) (send (fibers s) tx Shutdown); pool := rest;
              mode := mode s; finished := finished s |}
  | [] => None
  end.

Definition pool_step (s : pool_state) (a : pool_action) : option pool_state :=
  match a with
  | Dispatch n =>
      match mode s with
      | Serving =>
          let '(fs, p) := dispatch (fibers s) (pool s) (Execute n) in
          Some {| fibers := fs; pool := p; mode := Serving; finished := finished s |}
      | _ => None
      end
  | Recv i =>
      f ← fibers s !! i;
      match point f with
      | Receiving =>
          match recv (pool s) i f with
          | Message (Execute n) rest => Some (set_fiber s i {| inbox := rest; point := Running n |})
          | Message Shutdown rest => Some (set_fiber s i {| inbox := rest; point := Gone |})
          | Disconnected => Some (set_fiber s i {| inbox := []; point := Gone |})
          | Blocked => None
          end
      | _ => None
      end
  | Finish i panics =>
      f ← fibers s !! i;
      match point f with
      | Running n =>
          Some {| fibers := <[i := {| inbox := inbox f;
                                      point := if panics then Gone else Returning |}]> (fibers s);
                  pool := pool s; mode := mode s; finished := finished s ++ [n] |}
      | _ => None
      end
  | GoBack i =>
      f ← fibers s !! i;
      match point f with
      | Returning =>
          Some {| fibers := <[i := {| inbox := inbox f; point := Receiving |}]> (fibers s);
                  pool := pool s ++ [i]; mode := mode s; finished := finished s |}
      | _ => None
      end
  | Terminate_ =>
      match mode s with Serving => Some (set_mode s (Joining 0 false Polling)) | _ => None end
  | JoinNext =>
      match mode s with
      | Joining k d t =>
          f ← fibers s !! k;
          if alive f then None else Some (set_mode s (Joining (S k) d t))
      | _ => None
      end
  | SetDone =>
      match mode s with
      | Joining k false t =>
          if (k =? length (fibers s))%nat then Some (set_mode s (Joining k true t)) else None
      | _ => None
      end
  | TerminatorStep =>
      match mode s with
      | Joining k true Polling => Some (set_mode s (Joining k true Sweeping))
      | Joining k false Polling => shut_one s
      | Joining k d Sweeping =>
          match shut_one s with
          | Some s => Some s
          | None => Some (set_mode s (Joining k d Ended))
          end
      | _ => None
      end
  | WorkerExit =>
      match mode s with Joining k true Ended => Some (set_mode s Exited) | _ => None end
  end.

Inductive pool_steps : pool_state -> list pool_action -> pool_state -> Prop :=
| pool_steps_nil s : pool_steps s [] s
| pool_steps_cons s a s1 acts s2 :
    pool_step s a = Some s1 -> pool_steps s1 acts s2 -> pool_steps s (a :: acts) s2.

(** A given sequence of steps, executed. *)
Fixpoint run_pool (s : pool_state) (acts : list pool_action) : option pool_state :=
  match acts with
  | [] => Some s
  | a :: acts => s ← pool_step s a; run_pool s acts
  end.

Lemma run_pool_steps s acts s' : run_pool s acts = Some s' -> pool_steps s acts s'.
Proof.
  revert s. induction acts as [|a acts IH]; intros s; simpl; [intros [= ->]; constructor|].
  destruct (pool_step s a) as [s1|] eqn:Ha; [|done]. simpl. intros Hr. econstructor; eauto.
Qed.

Definition empty_pool : pool_state :=
  {| fibers := []; pool := []; mode := Serving; finished := [] |}.

(** ** The invariant *)

Definition idle_fiber : pfiber := {| inbox := []; point := Receiving |}.

(** A fiber that is not in the pool is working or about to. *)
Definition fiber_busy (f : pfiber) : Prop :=
  match point f with Receiving => exists j, inbox f = [j] | _ => inbox f = [] end.

Record pool_wf (s : pool_state) : Prop := {
  pw_nodup : NoDup (pool s);
  pw_pool : forall i, i ∈ pool s -> fibers s !! i = Some idle_fiber;
  pw_busy : forall i f, fibers s !! i = Some f -> i ∉ pool s -> fiber_busy f;
  pw_mode : match mode s with
            | Serving => True
            | Joining k d t =>
                (k <= length (fibers s))%nat /\
                (forall i f, (i < k)%nat -> fibers s !! i = Some f -> point f = Gone) /\
                (d = true -> k = length (fibers s)) /\ (t <> Polling -> d = true)
            | Exited => forall i f, fibers s !! i = Some f -> point f = Gone
            end;
}.

(** What a step may do to one fiber while the worker joins. *)
Definition keeps_gone (f f' : pfiber) : Prop := point f = Gone -> point f' = Gone.

Section pool_lemmas.
Implicit Types (s : pool_state) (f : pfiber) (i k n : nat).

Lemma send_idle s i j :
  pool_wf s -> i ∈ pool s ->
  send (fibers s) i j = Some (<[i := {| inbox := [j]; point := Receiving |}]> (fibers s)).
Proof. intros Hs Hi. unfold send. by rewrite (pw_pool _ Hs i Hi). Qed.

(** The first sender popped is good: the retry branch is never taken. *)
Lemma dispatch_spec s j :
  pool_wf s ->
  dispatch (fibers s) (pool s) j =
  match pool s with
  | tx :: rest => (<[tx := {| inbox := [j]; point := Receiving |}]> (fibers s), rest)
  | [] => (fibers s ++ [{| inbox := [j]; point := Receiving |}], [])
  end.
Proof.
  intros Hs. destruct (pool s) as [|tx rest] eqn:Hp; [done|]. simpl.
  rewrite (send_idle s) by (done || (rewrite Hp; by left)). done.
Qed.

Lemma shut_one_spec s tx rest :
  pool_wf s -> pool s = tx :: rest ->
  shut_one s = Some {| fibers := <[tx := {| inbox := [Shutdown]; point := Receiving |}]> (fibers s);
                       pool := rest; mode := mode s; finished := finished s |}.
Proof.
  intros Hs Hp. unfold shut_one. rewrite Hp, (send_idle s) by (done || (rewrite Hp; by left)). done.
Qed.

Lemma recv_spec p i f :
  recv p i f = match inbox f with j :: rest => Message j rest | [] => Blocked end.
Proof. unfold recv, senders. by destruct (inbox f). Qed.

(** The mode's invariant survives a change of one fiber that is not gone. *)
Lemma mode_insert s i f f' p fin :
  pool_wf s -> fibers s !! i = Some f -> keeps_gone f f' ->
  NoDup p -> (forall k, k ∈ p -> <[i := f']> (fibers s) !! k = Some idle_fiber) ->
  (forall k g, <[i := f']> (fibers s) !! k = Some g -> k ∉ p -> fiber_busy g) ->
  pool_wf {| fibers := <[i := f']> (fibers s); pool := p; mode := mode s; finished := fin |}.
Proof.
  intros Hs Hi Hg Hnd Hp Hb. constructor; simpl; [done|done|done|].
  pose proof (pw_mode _ Hs) as Hm. destruct (mode s) as [|k d t|]; [done| |].
  - rewrite length_insert. destruct Hm as (Hk & Hgone & Hrest). split; [done|]. split; [|done].
    intros i' g Hi' Hl. apply list_lookup_insert_Some in Hl as [(-> & <- & _)|[_ Hl]]; eauto.
  - intros i' g Hl. apply list_lookup_insert_Some in Hl as [(-> & <- & _)|[_ Hl]]; eauto.
Qed.

(** A busy fiber moves to another busy point. *)
Lemma busy_moves s i f f' fin :
  pool_wf s -> fibers s !! i = Some f -> i ∉ pool s -> keeps_gone f f' -> fiber_busy f' ->
  pool_wf {| fibers := <[i := f']> (fibers s); pool := pool s; mode := mode s; finished := fin |}.
Proof.
  intros Hs Hi Hni Hg Hb. eapply mode_insert; [done|done|done|apply Hs| |].
  - intros k Hk. rewrite list_lookup_insert_ne by (by intros ->). by apply Hs.
  - intros k g Hl Hk. apply list_lookup_insert_Some in Hl as [(_ & <- & _)|[_ Hl]]; [done|].
    by eapply pw_busy.
Qed.

(** A pooled sender is popped and its fiber gets a message. *)
Lemma popped s tx rest j :
  pool_wf s -> pool s = tx :: rest ->
  pool_wf {| fibers := <[tx := {| inbox := [j]; point := Receiving |}]> (fibers s); pool := rest;
             mode := mode s; finished := finished s |}.
Proof.
  intros Hs Hp. pose proof (pw_nodup _ Hs) as Hnd. rewrite Hp in Hnd.
  apply NoDup_cons in Hnd as [Hni Hnd].
  eapply mode_insert; [done|apply Hs; rewrite Hp; by left|done|done| |].
  - intros k Hk. rewrite list_lookup_insert_ne by (by intros ->).
    apply Hs. rewrite Hp. by right.
  - intros k g Hl Hk. apply list_lookup_insert_Some in Hl as [(_ & <- & _)|[Hne Hl]]; [by exists j|].
    eapply pw_busy; [done|done|]. rewrite Hp. by intros [->|?]%elem_of_cons.
Qed.

Lemma not_idle_not_pooled s i f :
  pool_wf s -> fibers s !! i = Some f -> f <> idle_fiber -> i ∉ pool s.
Proof. intros Hs Hi Hf Hp. rewrite (pw_pool _ Hs i Hp) in Hi. congruence. Qed.

Lemma dispatch_wf s n s' : pool_wf s -> pool_step s (Dispatch n) = Some s' -> pool_wf s'.
Proof.
  intros Hs Ha. simpl in Ha.
  destruct (mode s) eqn:Hm; try done. rewrite (dispatch_spec s _ Hs) in Ha.
  destruct (pool s) as [|tx rest] eqn:Hp; simplify_eq; [|rewrite <-Hm; by apply popped].
  constructor; simpl; [constructor|by intros ? ?%elem_of_nil| |done].
  intros i f Hl _. apply lookup_app_Some in Hl as [Hl|[_ Hl]].
  + eapply pw_busy; [done|done|]. rewrite Hp. by intros ?%elem_of_nil.
  + apply list_lookup_singleton_Some in Hl as [_ <-]. by eexists.
Qed.

Lemma recv_wf s i s' : pool_wf s -> pool_step s (Recv i) = Some s' -> pool_wf s'.
Proof.
  intros Hs Ha. simpl in Ha.
  destruct (fibers s !! i) as [f|] eqn:Hi; [|done]. simpl in Ha.
  destruct f as [ib []]; simpl in Ha; try done. rewrite recv_spec in Ha. simpl in Ha.
  destruct ib as [|j rest]; [done|].
  assert (Hni : i ∉ pool s) by (by eapply not_idle_not_pooled).
  destruct (pw_busy _ Hs _ _ Hi Hni) as [j' [= <- ->]].
  destruct j; simplify_eq; (eapply busy_moves; [done|done|done|done|done]).
Qed.

Lemma finish_wf s i panics s' : pool_wf s -> pool_step s (Finish i panics) = Some s' -> pool_wf s'.
Proof.
  intros Hs Ha. simpl in Ha.
  destruct (fibers s !! i) as [f|] eqn:Hi; [|done]. simpl in Ha.
  destruct (point f) eqn:Hf; simplify_eq.
  assert (Hni : i ∉ pool s) by (eapply not_idle_not_pooled; [done|done|by intros ->]).
  pose proof (pw_busy _ Hs _ _ Hi Hni) as Hb. unfold fiber_busy in Hb. rewrite Hf in Hb.
  eapply busy_moves; [done|done|done| |].
  + unfold keeps_gone. by rewrite Hf.
  + unfold fiber_busy. simpl. by destruct panics.
Qed.

Lemma go_back_wf s i s' : pool_wf s -> pool_step s (GoBack i) = Some s' -> pool_wf s'.
Proof.
  intros Hs Ha. simpl in Ha.
  destruct (fibers s !! i) as [f|] eqn:Hi; [|done]. simpl in Ha.
  destruct (point f) eqn:Hf; simplify_eq.
  assert (Hni : i ∉ pool s) by (eapply not_idle_not_pooled; [done|done|by intros ->]).
  pose proof (pw_busy _ Hs _ _ Hi Hni) as Hb. unfold fiber_busy in Hb. rewrite Hf in Hb. rewrite Hb.
  eapply mode_insert; [done|done| | | |].
  + unfold keeps_gone. by rewrite Hf.
  + apply NoDup_app. split; [apply Hs|]. split; [|apply NoDup_singleton].
    intros k Hk ->%list_elem_of_singleton. done.
  + intros k [Hk|Hk]%elem_of_app.
    * rewrite list_lookup_insert_ne by (by intros ->). by apply Hs.
    * apply list_elem_of_singleton in Hk as ->. apply list_lookup_insert_eq.
      by eapply lookup_lt_Some.
  + intros k g Hl Hk. apply list_lookup_insert_Some in Hl as [(-> & _ & _)|[_ Hl]].
    * destruct Hk. apply elem_of_app. right. by left.
    * eapply pw_busy; [done|done|]. intros ?. apply Hk, elem_of_app. by left.
Qed.

Lemma terminate_wf s s' : pool_wf s -> pool_step s Terminate_ = Some s' -> pool_wf s'.
Proof.
  intros Hs Ha. simpl in Ha.
  destruct (mode s) eqn:Hm; simplify_eq. destruct Hs. constructor; simpl; try done.
  split; [lia|]. split; [lia|done].
Qed.

Lemma join_next_wf s s' : pool_wf s -> pool_step s JoinNext = Some s' -> pool_wf s'.
Proof.
  intros Hs Ha. simpl in Ha.
  destruct (mode s) as [|k d t|] eqn:Hm; try done. destruct (fibers s !! k) as [f|] eqn:Hi; [|done].
  simpl in Ha. destruct (alive f) eqn:Hf; simplify_eq. destruct Hs as [H1 H2 H3 H4].
  rewrite Hm in H4. destruct H4 as (Hk & Hg & Hd & Ht).
  constructor; simpl; try done. apply lookup_lt_Some in Hi as Hlt.
  split; [lia|]. split; [|split; [|done]].
  + intros i' g Hi' Hl. destruct (decide (i' = k)) as [->|Hne]; [|apply (Hg i'); [lia|done]].
    rewrite Hi in Hl. injection Hl as <-. unfold alive in Hf. by destruct (point f).
  + intros ->. specialize (Hd eq_refl). lia.
Qed.

Lemma set_done_wf s s' : pool_wf s -> pool_step s SetDone = Some s' -> pool_wf s'.
Proof.
  intros Hs Ha. simpl in Ha.
  destruct (mode s) as [|k [] t|] eqn:Hm; try done. case_match eqn:E; simplify_eq.
  apply Nat.eqb_eq in E. destruct Hs as [H1 H2 H3 H4]. rewrite Hm in H4.
  constructor; simpl; try done. naive_solver.
Qed.

Lemma terminator_wf s s' : pool_wf s -> pool_step s TerminatorStep = Some s' -> pool_wf s'.
Proof.
  intros Hs Ha. simpl in Ha.
  assert (Hshut : forall s', shut_one s = Some s' -> pool_wf s').
  { intros s1 H1. destruct (pool s) as [|tx rest] eqn:Hp; [unfold shut_one in H1; by rewrite Hp in H1|].
    rewrite (shut_one_spec s tx rest Hs Hp) in H1. simplify_eq. by apply popped. }
  destruct (mode s) as [|k d []|] eqn:Hm; try done.
  + destruct d; [|by apply Hshut]. simplify_eq. destruct Hs as [H1 H2 H3 H4]. rewrite Hm in H4.
    constructor; simpl; try done. naive_solver.
  + destruct (shut_one s) as [s1|] eqn:Hs1; simplify_eq; [destruct d; simplify_eq; by apply Hshut|].
    destruct Hs as [H1 H2 H3 H4]. rewrite Hm in H4.
    destruct d; simplify_eq; constructor; simpl; try done; naive_solver.
  + by destruct d.
Qed.

Lemma worker_exit_wf s s' : pool_wf s -> pool_step s WorkerExit = Some s' -> pool_wf s'.
Proof.
  intros Hs Ha. simpl in Ha.
  destruct (mode s) as [|k [] []|] eqn:Hm; simplify_eq. destruct Hs as [H1 H2 H3 H4].
  rewrite Hm in H4. destruct H4 as (Hk & Hg & Hd & _). constructor; simpl; try done.
  intros i f Hi. eapply Hg; [|done]. rewrite Hd by done. by eapply lookup_lt_Some.
Qed.

Lemma pool_step_wf s a s' : pool_wf s -> pool_step s a = Some s' -> pool_wf s'.
Proof.
  destruct a; eauto using dispatch_wf, recv_wf, finish_wf, go_back_wf, terminate_wf, join_next_wf,
    set_done_wf, terminator_wf, worker_exit_wf.
Qed.
End pool_lemmas.

(** ** Accounting: jobs, and what is left to do *)

Definition jobs_of (f : pfiber) : list nat :=
  match point f with Running n => [n] | _ => [] end ++
  omap (fun j => match j with Execute n => Some n | Shutdown => None end) (inbox f).
(** Jobs sent and not over. *)
Definition outstanding (s : pool_state) : list nat := fibers s ≫= jobs_of.
Definition dispatched (acts : list pool_action) : list nat :=
  omap (fun a => match a with Dispatch n => Some n | _ => None end) acts.

(** How far a fiber is from its end. *)
Definition fiber_weight (f : pfiber) : nat :=
  match point f, inbox f with
  | Gone, _ => 0
  | Receiving, Shutdown :: _ => 1
  | Receiving, [] => 2
  | Returning, _ => 3
  | Running _, _ => 4
  | Receiving, Execute _ :: _ => 5
  end.
Definition mode_weight (n : nat) (m : worker_mode) : nat :=
  match m with
  | Serving => 0
  | Joining k d t =>
      (n - k) + (if d then 0 else 1) + match t with Polling => 3 | Sweeping => 2 | Ended => 1 end
  | Exited => 0
  end.
Definition weight (s : pool_state) : nat :=
  sum_list_with fiber_weight (fibers s) + mode_weight (length (fibers s)) (mode s).

Section accounting.
Implicit Types (s : pool_state) (f : pfiber) (fs : list pfiber) (i n : nat).

Lemma sum_insert (w : pfiber -> nat) fs i f f' :
  fs !! i = Some f ->
  (sum_list_with w (<[i := f']> fs) + w f = sum_list_with w fs + w f')%nat.
Proof.
  revert i. induction fs as [|g fs IH]; intros [|i] Hi; simplify_eq/=; [lia|].
  specialize (IH i Hi). lia.
Qed.

Lemma bind_insert fs i f f' :
  fs !! i = Some f ->
  exists rest, (fs ≫= jobs_of) ≡ₚ jobs_of f ++ rest /\
               (<[i := f']> fs ≫= jobs_of) ≡ₚ jobs_of f' ++ rest.
Proof.
  revert i. induction fs as [|g fs IH]; intros [|i] Hi; simplify_eq/=; [by eexists|].
  destruct (IH i Hi) as (rest & H1 & H2). exists (jobs_of g ++ rest).
  rewrite H1, H2. split; by rewrite (Permutation_app_swap_app (jobs_of g)).
Qed.

(** Replacing a fiber by one with other jobs. *)
Lemma outstanding_insert fs i f f' extra :
  fs !! i = Some f -> jobs_of f' ≡ₚ extra ++ jobs_of f ->
  (<[i := f']> fs ≫= jobs_of) ≡ₚ extra ++ (fs ≫= jobs_of).
Proof.
  intros Hi He. destruct (bind_insert fs i f f' Hi) as (rest & -> & ->).
  by rewrite He, <-app_assoc.
Qed.

Lemma pool_step_jobs s a s' :
  pool_wf s -> pool_step s a = Some s' ->
  outstanding s' ++ finished s' ≡ₚ dispatched [a] ++ outstanding s ++ finished s.
Proof.
  intros Hs Ha. unfold outstanding. destruct a; simpl in *.
  - destruct (mode s) eqn:Hm; try done. rewrite (dispatch_spec s _ Hs) in Ha.
    destruct (pool s) as [|tx rest] eqn:Hp; simplify_eq; simpl.
    + rewrite bind_app. simpl. by rewrite <-Permutation_middle, app_nil_r.
    + rewrite (outstanding_insert _ _ idle_fiber _ [n]); [done| |done].
      apply Hs. rewrite Hp. by left.
  - destruct (fibers s !! i) as [f|] eqn:Hi; [|done]. simpl in Ha.
    destruct f as [ib []]; simpl in Ha; try done. rewrite recv_spec in Ha. simpl in Ha.
    destruct ib as [|[n|] rest]; simplify_eq; simpl;
      by rewrite (outstanding_insert _ _ _ _ [] Hi).
  - destruct (fibers s !! i) as [f|] eqn:Hi; [|done]. simpl in Ha.
    destruct f as [ib []]; simplify_eq/=. destruct (bind_insert (fibers s) i _
      {| inbox := ib; point := if panics then Gone else Returning |} Hi) as (rest & -> & ->).
    unfold jobs_of. simpl. destruct panics; simpl;
      rewrite (Permutation_app_comm (finished s)); simpl;
      rewrite <-Permutation_middle; done.
  - destruct (fibers s !! i) as [f|] eqn:Hi; [|done]. simpl in Ha.
    destruct f as [ib []]; simplify_eq/=. by rewrite (outstanding_insert _ _ _ _ [] Hi).
  - by destruct (mode s); simplify_eq.
  - destruct (mode s); try done. destruct (fibers s !! _); [|done]. simpl in Ha.
    by case_match; simplify_eq.
  - destruct (mode s) as [|k [] t|]; try done. by case_match; simplify_eq.
  - assert (Hshut : forall s', shut_one s = Some s' ->
      (fibers s' ≫= jobs_of) ++ finished s' ≡ₚ (fibers s ≫= jobs_of) ++ finished s).
    { intros s1 H1. destruct (pool s) as [|tx rest] eqn:Hp; [unfold shut_one in H1; by rewrite Hp in H1|].
      rewrite (shut_one_spec s tx rest Hs Hp) in H1. simplify_eq. simpl.
      rewrite (outstanding_insert _ _ idle_fiber _ []); [done| |done]. apply Hs. rewrite Hp. by left. }
    destruct (mode s) as [|k d []|] eqn:Hm; try done.
    + destruct d; [by simplify_eq|by apply Hshut].
    + destruct (shut_one s) as [s1|] eqn:H1; [destruct d; simplify_eq; by apply Hshut|].
      destruct d; by simplify_eq.
    + by destruct d.
  - by destruct (mode s) as [|k [] []|]; simplify_eq.
Qed.

(** While the worker joins, every step gets closer to the end. *)
Lemma joining_step_decreases s a s' :
  pool_wf s -> mode s <> Serving -> pool_step s a = Some s' ->
  mode s' <> Serving /\ (weight s' < weight s)%nat.
Proof.
  intros Hs Hm Ha. unfold weight.
  assert (Hins : forall i f f' p fin, fibers s !! i = Some f -> (fiber_weight f' < fiber_weight f)%nat ->
    let s' := {| fibers := <[i := f']> (fibers s); pool := p; mode := mode s; finished := fin |} in
    mode s' <> Serving /\
    (sum_list_with fiber_weight (fibers s') + mode_weight (length (fibers s')) (mode s') <
     sum_list_with fiber_weight (fibers s) + mode_weight (length (fibers s)) (mode s))%nat).
  { intros i f f' p fin Hi Hw. split; [done|]. simpl. rewrite length_insert.
    pose proof (sum_insert fiber_weight _ _ _ f' Hi). lia. }
  assert (Hshut : forall s', shut_one s = Some s' -> mode s' <> Serving /\
    (sum_list_with fiber_weight (fibers s') + mode_weight (length (fibers s')) (mode s') <
     sum_list_with fiber_weight (fibers s) + mode_weight (length (fibers s)) (mode s))%nat).
  { intros s1 H1. destruct (pool s) as [|tx rest] eqn:Hp; [unfold shut_one in H1; by rewrite Hp in H1|].
    rewrite (shut_one_spec s tx rest Hs Hp) in H1. simplify_eq.
    apply (Hins tx idle_fiber); [apply Hs; rewrite Hp; by left|unfold idle_fiber, fiber_weight; simpl; lia]. }
  pose proof (pw_mode _ Hs) as Hmode. destruct a; simpl in Ha.
  - by destruct (mode s).
  - destruct (fibers s !! i) as [f|] eqn:Hi; [|done]. simpl in Ha.
    destruct f as [ib []]; simpl in Ha; try done. rewrite recv_spec in Ha. simpl in Ha.
    destruct ib as [|[n|] rest]; simplify_eq; (eapply Hins; [exact Hi|unfold fiber_weight; simpl; lia]).
  - destruct (fibers s !! i) as [f|] eqn:Hi; [|done]. simpl in Ha.
    destruct f as [ib []]; simpl in Ha; simplify_eq. eapply Hins; [exact Hi|unfold fiber_weight; destruct panics; simpl; lia].
  - destruct (fibers s !! i) as [f|] eqn:Hi; [|done]. simpl in Ha.
    destruct f as [ib []]; simpl in Ha; simplify_eq. eapply Hins; [exact Hi|].
    destruct ib as [|j ib]; [unfold fiber_weight; simpl; lia|]. exfalso.
    assert (Hni : i ∉ pool s) by (by eapply not_idle_not_pooled).
    by pose proof (pw_busy _ Hs _ _ Hi Hni).
  - by destruct (mode s).
  - destruct (mode s) as [|k d t|] eqn:Hk; try done. destruct (fibers s !! k) as [f|] eqn:Hi; [|done].
    simpl in Ha. case_match; simplify_eq. simpl. split; [done|].
    apply lookup_lt_Some in Hi. lia.
  - destruct (mode s) as [|k [] t|] eqn:Hk; try done. case_match; simplify_eq. simpl. split; [done|lia].
  - destruct (mode s) as [|k d []|] eqn:Hk; try done.
    + destruct d; [|by apply Hshut]. simplify_eq. simpl. split; [done|lia].
    + destruct (shut_one s) as [s1|] eqn:H1; [destruct d; simplify_eq; by apply Hshut|].
      destruct d; simplify_eq; simpl; (split; [done|lia]).
    + by destruct d.
  - destruct (mode s) as [|k [] []|] eqn:Hk; simplify_eq. simpl. split; [done|lia].
Qed.

(** ... and some step is possible until the worker has left. *)
Lemma joining_progress s k d t :
  pool_wf s -> mode s = Joining k d t -> exists a s', pool_step s a = Some s'.
Proof.
  intros Hs Hm. pose proof (pw_mode _ Hs) as Hmode. rewrite Hm in Hmode.
  destruct Hmode as (Hk & _ & Hd & Ht).
  destruct (fibers s !! k) as [f|] eqn:Hi.
  - apply lookup_lt_Some in Hi as Hlt. destruct d; [specialize (Hd eq_refl); lia|].
    assert (t = Polling) as -> by (destruct t; [done|by specialize (Ht ltac:(done))..]).
    destruct (decide (k ∈ pool s)) as [Hp|Hp].
    + destruct (pool s) as [|tx rest] eqn:Hps; [by apply elem_of_nil in Hp|].
      exists TerminatorStep. eexists. simpl. rewrite Hm. by apply shut_one_spec.
    + pose proof (pw_busy _ Hs _ _ Hi Hp) as Hb. unfold fiber_busy in Hb.
      destruct f as [ib []]; simpl in Hb.
      * destruct Hb as [j ->]. exists (Recv k). simpl. rewrite Hi. simpl.
        simpl. destruct j; by eexists.
      * exists (Finish k false). simpl. rewrite Hi. simpl. by eexists.
      * exists (GoBack k). simpl. rewrite Hi. simpl. by eexists.
      * exists JoinNext. simpl. rewrite Hm, Hi. simpl. by eexists.
  - apply lookup_ge_None in Hi. assert (k = length (fibers s)) as Hkn by lia. destruct d.
    + destruct t.
      * exists TerminatorStep. simpl. rewrite Hm. by eexists.
      * exists TerminatorStep. simpl. rewrite Hm. destruct (shut_one s); by eexists.
      * exists WorkerExit. simpl. rewrite Hm. by eexists.
    + exists SetDone. simpl. rewrite Hm. rewrite Hkn, Nat.eqb_refl. by eexists.
Qed.

Lemma pool_steps_wf s acts s' : pool_steps s acts s' -> pool_wf s -> pool_wf s'.
Proof. induction 1; eauto using pool_step_wf. Qed.

Lemma empty_pool_wf : pool_wf empty_pool.
Proof. constructor; simpl; [constructor|by intros ? ?%elem_of_nil|done|done]. Qed.
End accounting.

(** ** Properties *)

(** A job is handed to the fiber whose sender was pushed first, or to a
    new one if the pool is empty, in every state a worker can reach: the
    retry after a failed send is never taken, a pooled fiber is idle with an
    empty queue, and a fiber never finds its channel disconnected. *)
Theorem dispatch_reuses_idle_fiber (acts : list pool_action) (s : pool_state) (n : nat) :
  pool_steps empty_pool acts s ->
  dispatch (fibers s) (pool s) (Execute n) =
    match pool s with
    | tx :: rest => (<[tx := {| inbox := [Execute n]; point := Receiving |}]> (fibers s), rest)
    | [] => (fibers s ++ [{| inbox := [Execute n]; point := Receiving |}], [])
    end /\
  (forall tx, tx ∈ pool s -> fibers s !! tx = Some idle_fiber) /\
  (forall i f, recv (pool s) i f <> Disconnected).
Proof.
  intros Hs. assert (Hwf : pool_wf s) by (eapply pool_steps_wf; [done|apply empty_pool_wf]).
  split; [by apply dispatch_spec|]. split; [apply Hwf|].
  intros i f. rewrite recv_spec. by destruct (inbox f).
Qed.

(** No launched job is lost or run twice: at any time the jobs that were
    dispatched are, counted with multiplicity, those that wait or run on some
    fiber and those whose closure is over. *)
Theorem jobs_run_once (acts : list pool_action) (s : pool_state) :
  pool_steps empty_pool acts s -> outstanding s ++ finished s ≡ₚ dispatched acts.
Proof.
  assert (Hgen : forall s0, pool_wf s0 -> pool_steps s0 acts s ->
    outstanding s ++ finished s ≡ₚ dispatched acts ++ outstanding s0 ++ finished s0).
  { intros s0 Hwf Hs. induction Hs as [|s0 a s1 acts s2 Ha _ IH]; [done|].
    rewrite (IH (pool_step_wf _ _ _ Hwf Ha)), (pool_step_jobs _ _ _ Hwf Ha).
    change (a :: acts) with ([a] ++ acts). unfold dispatched. rewrite omap_app.
    rewrite !(assoc_L (++)). f_equiv. f_equiv. apply Permutation_app_comm. }
  intros Hs. rewrite (Hgen _ empty_pool_wf Hs). simpl. by rewrite app_nil_r.
Qed.

(** C29: shutdown terminates: once [Terminate] has been met, the worker, the
    terminator and the fibers can take only so many steps, whatever their
    order (idle polling of the terminator apart), and they can only stop with
    the worker gone and every fiber ended; so the joins never wait for ever
    for a fiber that sits in the pool or finishes late. *)
Theorem shutdown_terminates (acts acts' : list pool_action) (s s' : pool_state) (k : nat)
    (d : bool) (t : terminator) :
  pool_steps empty_pool acts s -> mode s = Joining k d t -> pool_steps s acts' s' ->
  (length acts' <= weight s)%nat /\
  ((forall a, pool_step s' a = None) -> mode s' = Exited) /\
  (mode s' = Exited -> forall i f, fibers s' !! i = Some f -> point f = Gone).
Proof.
  intros Hs Hm Hs'. assert (Hwf : pool_wf s) by (eapply pool_steps_wf; [done|apply empty_pool_wf]).
  assert (Hns : mode s <> Serving) by (by rewrite Hm). clear Hs Hm.
  assert (Hwf' : pool_wf s') by (by eapply pool_steps_wf).
  assert (Hend : mode s' <> Serving /\ (length acts' + weight s' <= weight s)%nat).
  { clear Hwf'. induction Hs' as [|s a s1 acts' s2 Ha _ IH]; [simpl; split; [done|lia]|].
    destruct (joining_step_decreases _ _ _ Hwf Hns Ha) as [Hns1 Hw].
    destruct (IH (pool_step_wf _ _ _ Hwf Ha) Hns1). simpl. split; [done|lia]. }
  destruct Hend as [Hns' Hlen]. split; [lia|]. split.
  - intros Hstuck. destruct (mode s') as [|k' d' t'|] eqn:Hm'; [done| |done].
    destruct (joining_progress _ _ _ _ Hwf' Hm') as (a & s2 & Ha). by rewrite Hstuck in Ha.
  - intros He. pose proof (pw_mode _ Hwf') as Hg. by rewrite He in Hg.
Qed.

(** ** An example run: two fibers, one reused, one lost to a panic *)
Module PoolRun.
Definition serve : list pool_action :=
  [Dispatch 1; Recv 0; Dispatch 2; Recv 1; Finish 0 false; GoBack 0; Dispatch 3; Finish 1 true; Recv 0].
Definition stop : list pool_action :=
  [JoinNext; SetDone; TerminatorStep; TerminatorStep; WorkerExit].

Definition after (acts : list pool_action) : pool_state := default empty_pool (run_pool empty_pool acts).

Definition shutting : list pool_action := serve ++ [Terminate_; Finish 0 false; GoBack 0; TerminatorStep].
Definition stopped : list pool_action := Recv 0 :: JoinNext :: stop.

Lemma serve_runs : pool_steps empty_pool serve (after serve).
Proof. by apply run_pool_steps. Qed.
Lemma shutting_runs : pool_steps empty_pool shutting (after shutting).
Proof. by apply run_pool_steps. Qed.
Lemma stopped_runs : pool_steps (after shutting) stopped (after (shutting ++ stopped)).
Proof. by apply run_pool_steps. Qed.
End PoolRun.

Lemma dispatch_reuses_idle_fiber_witness :
  dispatch (fibers (PoolRun.after (take 6 PoolRun.serve))) [0%nat] (Execute 3) =
    ([{| inbox := [Execute 3]; point := Receiving |}; {| inbox := []; point := Running 2 |}], []).
Proof.
  exact (proj1 (dispatch_reuses_idle_fiber (take 6 PoolRun.serve) (PoolRun.after (take 6 PoolRun.serve)) 3
                  (run_pool_steps empty_pool (take 6 PoolRun.serve)
                     (PoolRun.after (take 6 PoolRun.serve)) eq_refl))).
Defined.

Lemma jobs_run_once_witness :
  outstanding (PoolRun.after PoolRun.serve) ++ finished (PoolRun.after PoolRun.serve) ≡ₚ [1; 2; 3]%nat.
Proof. exact (jobs_run_once PoolRun.serve _ PoolRun.serve_runs). Defined.

Lemma shutdown_terminates_witness :
  (length PoolRun.stopped <= weight (PoolRun.after PoolRun.shutting))%nat.
Proof.
  exact (proj1 (shutdown_terminates PoolRun.shutting PoolRun.stopped _ _ 0 false Polling
                  PoolRun.shutting_runs eq_refl PoolRun.stopped_runs)).
Defined.
