(* ===== verification/Latch.v ===== *)
(** * Latch: single-threaded mutual exclusion ([src/single_thread/latch.rs],
    [src/single_thread/launch.rs])

    A latch is a flag and a cell.  A guard borrows the latch, so code that
    runs under a guard can still reach the latch through another reference:
    bodies are functions on the whole latch, not only on the inner value. *)
From Stdlib Require Strings.HexString.
From S2P Require Import Prelude Serialization.

Record Latch (U : Type) := { locked : bool; inner : U }.
Arguments locked {U} _.
Arguments inner {U} _.
Arguments Build_Latch {U} _ _.

Section latch.
Context {U : Type}.
Implicit Types (l : Latch U).

Definition new (value : U) : Latch U := {| locked := false; inner := value |}.

(** [Some] is the latch under the new guard; [None] leaves it as it is. *)
Definition try_lock l : option (Latch U) :=
  if locked l then None else Some {| locked := true; inner := inner l |}.

Definition lock l : res (Latch U) :=
  match try_lock l with
  | Some g => Ok g
  | None => Panic "Latch::lock: already locked"
  end.

Definition get_mut l (f : U -> U) : Latch U := {| locked := locked l; inner := f (inner l) |}.
Definition into_inner l : U := inner l.
Definition is_locked l : bool := locked l.

(** [Deref] and [DerefMut] of a guard. *)
Definition guard_deref l : U := inner l.
Definition guard_deref_mut l (f : U -> U) : Latch U := {| locked := locked l; inner := f (inner l) |}.

(** [Drop] of a guard, with its [debug_assert!] when [debug] is on. *)
Definition guard_drop (debug : bool) l : res (Latch U) :=
  if debug && negb (locked l)
  then Panic "assertion failed: self.latch.locked.get()"
  else Ok {| locked := false; inner := inner l |}.

(** [Debug] and [Display] write the same: the flag, and [inner.get()], a raw
    pointer, [addr] here. *)
Definition fmt (addr : Z) l : string :=
  ("Latch { locked: " +:+ (if locked l then "true" else "false") +:+
   ", inner: " +:+ HexString.of_Z addr +:+ " }")%string.

(** They do not look at the value. *)
Lemma fmt_hides_value addr l v : fmt addr {| locked := locked l; inner := v |} = fmt addr l.
Proof. done. Qed.

(** ** The critical-section helpers of [Local<Latch<U>>] *)

(** The end of a scope that owns a guard: the guard drops whether the body
    returned or unwinds. *)
Definition with_guard {R} (body : Latch U -> Latch U * exit R) l : Latch U * exit R :=
  match lock l with
  | Ok g =>
      let '(l', e) := body g in
      match guard_drop false l' with
      | Ok l'' => (l'', e)
      | _ => (l', Panicked)
      end
  | _ => (l, Panicked)
  end.

(** A closure that is given the inner value only. *)
Definition on_inner {R} (f : U -> U * exit R) l : Latch U * exit R :=
  let '(u, e) := f (inner l) in ({| locked := locked l; inner := u |}, e).

Definition lock_apply {R} (body : Latch U -> Latch U * exit R) : Latch U -> Latch U * exit R :=
  with_guard body.
(** The continuation runs after the guard is gone, through [enqueue_then]. *)
Definition lock_apply_then {R K} (body : Latch U -> Latch U * exit R) (then_ : R -> K) l
    : Latch U * exit K :=
  let '(l, e) := lock_apply body l in (l, exit_map then_ e).
Definition lock_apply_with {V R} (body : Latch U -> V -> Latch U * exit R) (w : V)
    : Latch U -> Latch U * exit R :=
  with_guard (fun g => body g w).
Definition lock_with {R} (f : U -> exit R) : Latch U -> Latch U * exit R :=
  with_guard (fun g => (g, f (inner g))).

(** ** Latches as a state machine *)

(** A latch with the number of guards alive on it.  [get_mut] and
    [into_inner] need unique ownership, hence no guard. *)
Inductive latch_step : Latch U * nat -> Latch U * nat -> Prop :=
| step_try_lock l g l' : try_lock l = Some l' -> latch_step (l, g) (l', S g)
| step_try_lock_fails l g : try_lock l = None -> latch_step (l, g) (l, g)
| step_lock l g l' : lock l = Ok l' -> latch_step (l, g) (l', S g)
| step_lock_panics l g why : lock l = Panic why -> latch_step (l, g) (l, g)
| step_write l g f : latch_step (l, S g) (guard_deref_mut l f, S g)
| step_drop l g l' : guard_drop false l = Ok l' -> latch_step (l, S g) (l', g)
| step_get_mut l f : latch_step (l, 0) (get_mut l f, 0).

Definition latch_inv (s : Latch U * nat) : Prop := s.2 = if locked s.1 then 1 else 0.

Lemma latch_step_inv s s' : latch_step s s' -> latch_inv s -> latch_inv s'.
Proof.
  unfold latch_inv. destruct 1 as [l g l' H|l g H|l g l' H|l g why H|l g f|l g l' H|l f];
    unfold lock, try_lock, guard_drop, guard_deref_mut, get_mut in *; simpl in *;
    destruct (locked l) eqn:E; simplify_eq/=; rewrite ?E; lia.
Qed.

Lemma latch_reachable_inv v s : rtc latch_step (new v, 0) s -> latch_inv s.
Proof.
  intros Hr. assert (latch_inv (new v, 0)) as H0 by done. revert H0.
  induction Hr as [|s1 s2 s3 Hstep _ IH]; [done|]. eauto using latch_step_inv.
Qed.

Lemma with_guard_unlocked {R} (body : Latch U -> Latch U * exit R) l :
  locked l = false ->
  with_guard body l =
  let r := body {| locked := true; inner := inner l |} in
  ({| locked := false; inner := inner r.1 |}, r.2).
Proof.
  unfold with_guard, lock, try_lock. intros ->.
  destruct (body _) as [l' e]. done.
Qed.

Lemma with_guard_locked {R} (body : Latch U -> Latch U * exit R) l :
  locked l = true -> with_guard body l = (l, Panicked).
Proof. unfold with_guard, lock, try_lock. by intros ->. Qed.
End latch.

(** ** Properties *)

(** C39: in every reachable state at most one guard is alive, exactly when
    the flag is set: [try_lock] fails and [lock] panics precisely while a
    guard is alive, and the debug assertion in the guard's [Drop] cannot
    fire. *)
Theorem latch_mutual_exclusion {U} (v : U) (l : Latch U) (guards : nat) :
  rtc latch_step (new v, 0) (l, guards) ->
  guards <= 1 /\
  (is_locked l = true <-> guards = 1) /\
  (try_lock l = None <-> guards = 1) /\
  (guards = 1 -> lock l = Panic "Latch::lock: already locked") /\
  (guards = 1 -> exists l', guard_drop true l = Ok l' /\ is_locked l' = false /\ inner l' = inner l).
Proof.
  intros Hr. pose proof (latch_reachable_inv _ _ Hr) as Hi. unfold latch_inv in Hi. simpl in Hi.
  unfold is_locked, try_lock, lock, guard_drop, try_lock.
  destruct (locked l); subst; simpl; repeat split; try done; try lia. intros _. by eexists.
Qed.
Lemma latch_mutual_exclusion_witness :
  let l := {| locked := true; inner := 8 |} in
  1 <= 1 /\ (is_locked l = true <-> 1 = 1) /\ (try_lock l = None <-> 1 = 1) /\
  (1 = 1 -> lock l = Panic "Latch::lock: already locked") /\
  (1 = 1 -> exists l', guard_drop true l = Ok l' /\ is_locked l' = false /\ inner l' = inner l).
Proof.
  intros l. apply (latch_mutual_exclusion 7 l 1).
  eapply rtc_l; [by apply step_try_lock|].
  eapply rtc_l; [|apply rtc_refl]. apply (step_write {| locked := true; inner := 7 |} 0 S).
Defined.

(** [lock_apply] and its variants run the closure on the inner value
    exactly once, hand back its result (through the continuation, with the
    argument, or read-only), and leave the latch unlocked, also when the
    closure panics; on a locked latch they panic without touching anything. *)
Theorem lock_apply_spec {U V R K} (l : Latch U) (f : U -> U * exit R) (g : V -> U -> U * exit R)
    (h : U -> exit R) (w : V) (then_ : R -> K) :
  let unlocked u := {| locked := false; inner := u |} in
  (locked l = false ->
     lock_apply (on_inner f) l = (unlocked (f (inner l)).1, (f (inner l)).2) /\
     lock_apply_then (on_inner f) then_ l
       = (unlocked (f (inner l)).1, exit_map then_ (f (inner l)).2) /\
     lock_apply_with (fun l w => on_inner (g w) l) w l
       = (unlocked (g w (inner l)).1, (g w (inner l)).2) /\
     lock_with h l = (unlocked (inner l), h (inner l))) /\
  (locked l = true ->
     lock_apply (on_inner f) l = (l, Panicked) /\
     lock_apply_then (on_inner f) then_ l = (l, Panicked) /\
     lock_apply_with (fun l w => on_inner (g w) l) w l = (l, Panicked) /\
     lock_with h l = (l, Panicked)).
Proof.
  intros unlocked.
  unfold lock_apply_then, lock_apply, lock_apply_with, lock_with. split; intros Hl.
  - rewrite !with_guard_unlocked by done. unfold on_inner. simpl.
    destruct (f (inner l)), (g w (inner l)). done.
  - by rewrite !with_guard_locked.
Qed.

(** A critical section entered again from inside itself, through another
    reference to the same latch, does not run: the inner [lock] panics, the
    panic ends the outer section, and the latch comes out unlocked with its
    value as the outer body left it. *)
Theorem lock_apply_not_reentrant {U R} (l : Latch U) (before : U -> U)
    (inner_body : Latch U -> Latch U * exit R) :
  locked l = false ->
  lock_apply (fun g => lock_apply inner_body (guard_deref_mut g before)) l =
  ({| locked := false; inner := before (inner l) |}, Panicked).
Proof.
  intros Hl. unfold lock_apply. rewrite with_guard_unlocked by done.
  by rewrite with_guard_locked.
Qed.
Lemma lock_apply_not_reentrant_witness :
  lock_apply (fun g => lock_apply (fun g => (g, Returned 0)) (guard_deref_mut g S)) (new 5) =
  ({| locked := false; inner := 6 |}, Panicked).
Proof. exact (lock_apply_not_reentrant (new 5) S (fun g => (g, Returned 0)) eq_refl). Defined.
