(* ===== verification/SharedLatch.v ===== *)
(** * SharedLatch: the latch shared between threads ([src/util/latch.rs])

    A value behind a mutex with a condition variable; the clones of a latch
    share both.  The mutex and the condition variable are those of the
    standard library: a lock that is released by unwinding is poisoned, and
    [unwrap] panics on it; waiting releases the lock and sleeps in one step,
    and may wake for no reason. *)
From S2P Require Import Prelude.

(** Where a thread is in a call on the latch. *)
Inductive call_point (T : Type) :=
| Outside
| Locking                            (* in [lock], before the mutex is its own *)
| Holding                            (* has the [MutexGuard] of [lock] *)
| WaitLocking (c : T -> bool)        (* in [wait], before the first lock *)
| Checking (c : T -> bool)           (* in [wait], holding the lock *)
| Sleeping (c : T -> bool)           (* in [cvar.wait] *)
| Relocking (c : T -> bool)          (* woken, before [cvar.wait] returns *)
| Unwound.                           (* panicked *)
Arguments Outside {T}.
Arguments Locking {T}.
Arguments Holding {T}.
Arguments WaitLocking {T} c.
Arguments Checking {T} c.
Arguments Sleeping {T} c.
Arguments Relocking {T} c.
Arguments Unwound {T}.

Record shared_latch (T : Type) := {
  sl_value : T;
  sl_holder : option nat;            (* who holds the mutex *)
  sl_poisoned : bool;
  sl_threads : gmap nat (call_point T);
  sl_dirty : bool;                   (* updated since the last [notify_all] *)
}.
Arguments sl_value {T} _.
Arguments sl_holder {T} _.
Arguments sl_poisoned {T} _.
Arguments sl_threads {T} _.
Arguments sl_dirty {T} _.

Inductive latch_action (T : Type) :=
| CallLock
| CallWait (c : T -> bool)
| Acquire                            (* the mutex is free: take it *)
| Update (f : T -> T)                (* through the guard *)
| DropGuard
| PanicWithGuard
| CheckCondition
| WakeUp                             (* a spurious wake-up *)
| NotifyAll.
Arguments CallLock {T}.
Arguments CallWait {T} c.
Arguments Acquire {T}.
Arguments Update {T} f.
Arguments DropGuard {T}.
Arguments PanicWithGuard {T}.
Arguments CheckCondition {T}.
Arguments WakeUp {T}.
Arguments NotifyAll {T}.

Section shared_latch.
Context {T : Type}.
Implicit Types (s : shared_latch T) (c : T -> bool) (th : nat) (p : call_point T).

Definition shared_new (val : T) : shared_latch T :=
  {| sl_value := val; sl_holder := None; sl_poisoned := false; sl_threads := ∅; sl_dirty := false |}.

Definition at_point s th : call_point T := default Outside (sl_threads s !! th).

(** Thread [th] moves to [p]; the mutex then belongs to [h]. *)
Definition moves s th p (h : option nat) : shared_latch T :=
  {| sl_value := sl_value s; sl_holder := h; sl_poisoned := sl_poisoned s;
     sl_threads := <[th := p]> (sl_threads s); sl_dirty := sl_dirty s |}.

(** [self.lock.lock().unwrap()]: a poisoned mutex is released and panics. *)
Definition acquire s th p : option (shared_latch T) :=
  match sl_holder s with
  | Some _ => None
  | None => Some (if sl_poisoned s then moves s th Unwound None else moves s th p (Some th))
  end.

Definition woken p : call_point T := match p with Sleeping c => Relocking c | p => p end.

Definition shared_step s th (a : latch_action T) : option (shared_latch T) :=
  match a, at_point s th with
  | CallLock, Outside => Some (moves s th Locking (sl_holder s))
  | CallWait c, Outside => Some (moves s th (WaitLocking c) (sl_holder s))
  | Acquire, Locking => acquire s th Holding
  | Acquire, WaitLocking c | Acquire, Relocking c => acquire s th (Checking c)
  | Update f, Holding =>
      Some {| sl_value := f (sl_value s); sl_holder := sl_holder s; sl_poisoned := sl_poisoned s;
              sl_threads := sl_threads s; sl_dirty := true |}
  | DropGuard, Holding => Some (moves s th Outside None)
  | PanicWithGuard, Holding =>
      Some {| sl_value := sl_value s; sl_holder := None; sl_poisoned := true;
              sl_threads := <[th := Unwound]> (sl_threads s); sl_dirty := sl_dirty s |}
  | CheckCondition, Checking c =>
      Some (if c (sl_value s) then moves s th Outside None else moves s th (Sleeping c) None)
  | WakeUp, Sleeping c => Some (moves s th (Relocking c) (sl_holder s))
  | NotifyAll, _ =>
      Some {| sl_value := sl_value s; sl_holder := sl_holder s; sl_poisoned := sl_poisoned s;
              sl_threads := woken <$> sl_threads s; sl_dirty := false |}
  | _, _ => None
  end.

Inductive shared_steps : shared_latch T -> list (nat * latch_action T) -> shared_latch T -> Prop :=
| shared_steps_nil s : shared_steps s [] s
| shared_steps_cons s th a s1 acts s2 :
    shared_step s th a = Some s1 -> shared_steps s1 acts s2 ->
    shared_steps s ((th, a) :: acts) s2.

(** A given sequence of steps, executed. *)
Fixpoint run_shared s (acts : list (nat * latch_action T)) : option (shared_latch T) :=
  match acts with
  | [] => Some s
  | (th, a) :: acts => s ← shared_step s th a; run_shared s acts
  end.

(** ** The invariant *)

Definition has_lock p : bool := match p with Holding | Checking _ => true | _ => false end.

Record shared_inv s : Prop := {
  si_holder : forall th, has_lock (at_point s th) = true <-> sl_holder s = Some th;
  si_sleep : forall th c, at_point s th = Sleeping c -> c (sl_value s) = true -> sl_dirty s = true;
}.

Lemma at_moves s th p h th' :
  at_point (moves s th p h) th' = if decide (th' = th) then p else at_point s th'.
Proof.
  unfold at_point. simpl. case_decide as E; [by rewrite E, lookup_insert_eq|by rewrite lookup_insert_ne].
Qed.

Lemma run_shared_steps s acts s' : run_shared s acts = Some s' -> shared_steps s acts s'.
Proof.
  revert s. induction acts as [|[th a] acts IH]; intros s; simpl; [intros [= ->]; constructor|].
  destruct (shared_step s th a) as [s1|] eqn:Ha; [|done]. simpl. intros Hr. econstructor; eauto.
Qed.

(** A thread that neither has nor gets the lock moves. *)
Lemma moves_outside s th p :
  shared_inv s -> has_lock (at_point s th) = false -> has_lock p = false ->
  (forall c, p = Sleeping c -> c (sl_value s) = false) -> shared_inv (moves s th p (sl_holder s)).
Proof.
  intros [Hh Hs] Hn Hp Hc. constructor.
  - intros th'. rewrite at_moves. simpl. case_decide as E; [subst th'|apply Hh].
    rewrite Hp. rewrite <-(Hh th), Hn. done.
  - intros th' c. rewrite at_moves. simpl. case_decide; [intros E Ht; by rewrite (Hc c E) in Ht|apply Hs].
Qed.

(** The holder gives the lock up. *)
Lemma moves_release s th p :
  shared_inv s -> has_lock (at_point s th) = true -> has_lock p = false ->
  (forall c, p = Sleeping c -> c (sl_value s) = false) -> shared_inv (moves s th p None).
Proof.
  intros [Hh Hs] Hn Hp Hc. pose proof (proj1 (Hh th) Hn) as Hth. constructor.
  - intros th'. rewrite at_moves. simpl. case_decide as E; [by rewrite Hp|].
    rewrite Hh, Hth. split; [intros [= ->]|]; done.
  - intros th' c. rewrite at_moves. simpl. case_decide; [intros E Ht; by rewrite (Hc c E) in Ht|apply Hs].
Qed.

Lemma acquire_inv s th p s' :
  shared_inv s -> has_lock (at_point s th) = false -> has_lock p = true ->
  acquire s th p = Some s' -> shared_inv s'.
Proof.
  intros Hi Hn Hp. pose proof Hi as [Hh Hs]. unfold acquire.
  destruct (sl_holder s) eqn:Hl; [done|]. destruct (sl_poisoned s); intros [= <-].
  { rewrite <-Hl. by apply moves_outside. }
  constructor.
  - intros th'. rewrite at_moves. simpl. case_decide as E; [by subst|].
    rewrite Hh. split; [done|]. by intros [= ->].
  - intros th' c. rewrite at_moves. simpl. case_decide; [intros ->; done|apply Hs].
Qed.

Lemma notify_inv s :
  shared_inv s ->
  shared_inv {| sl_value := sl_value s; sl_holder := sl_holder s; sl_poisoned := sl_poisoned s;
                sl_threads := woken <$> sl_threads s; sl_dirty := false |}.
Proof.
  intros [Hh Hs].
  assert (Hat : forall th, default Outside ((woken <$> sl_threads s) !! th) = woken (at_point s th)).
  { intros th. unfold at_point. rewrite lookup_fmap. by destruct (sl_threads s !! th). }
  constructor; unfold at_point; simpl.
  - intros th. rewrite Hat, <-Hh. by destruct (at_point s th).
  - intros th c. rewrite Hat. by destruct (at_point s th).
Qed.

Lemma shared_step_inv s th a s' : shared_inv s -> shared_step s th a = Some s' -> shared_inv s'.
Proof.
  intros Hi Ha. pose proof Hi as [Hh Hs]. unfold shared_step in Ha.
  assert (Hn : has_lock (at_point s th) = false \/ has_lock (at_point s th) = true)
    by (destruct (has_lock _); auto).
  destruct a; try (injection Ha as <-; by apply notify_inv);
    destruct (at_point s th) as [| | |c0|c0|c0|c0|] eqn:Hp; try done;
    try (injection Ha as <-); simpl in Hn.
  - apply moves_outside; [done|by rewrite Hp|done|done].
  - apply moves_outside; [done|by rewrite Hp|done|done].
  - eapply acquire_inv; [done|by rewrite Hp| |done]; done.
  - eapply acquire_inv; [done|by rewrite Hp| |done]; done.
  - eapply acquire_inv; [done|by rewrite Hp| |done]; done.
  - constructor; [exact Hh|done].
  - apply moves_release; [done|by rewrite Hp|done|done].
  - pose proof (moves_release s th Unwound Hi ltac:(by rewrite Hp) eq_refl ltac:(done)) as [H1 H2].
    constructor; [exact H1|exact H2].
  - destruct (c0 (sl_value s)) eqn:Hc; apply moves_release; try done; try (by rewrite Hp).
    by intros c [= <-].
  - apply moves_outside; [done|by rewrite Hp|done|done].
Qed.

Lemma shared_steps_inv s acts s' : shared_steps s acts s' -> shared_inv s -> shared_inv s'.
Proof. induction 1; eauto using shared_step_inv. Qed.

Lemma shared_new_inv val : shared_inv (shared_new val).
Proof. constructor; unfold at_point; simpl; intros th; rewrite lookup_empty; done. Qed.

(** ** Properties *)

(** The shared latch excludes: in every reachable state exactly the
    thread recorded as the holder is between taking the mutex and giving it
    up, in [lock] and in [wait] alike; and [wait] leaves only from such a
    moment, on a value that satisfies its condition. *)
Theorem shared_latch_exclusion (val : T) acts s (th th' : nat) :
  shared_steps (shared_new val) acts s ->
  (has_lock (at_point s th) = true -> has_lock (at_point s th') = true -> th = th') /\
  (forall c s', at_point s th = Checking c -> shared_step s th CheckCondition = Some s' ->
     sl_holder s = Some th /\ sl_holder s' = None /\
     if c (sl_value s) then at_point s' th = Outside else at_point s' th = Sleeping c).
Proof.
  intros Hs. destruct (shared_steps_inv _ _ _ Hs (shared_new_inv val)) as [Hh _]. split.
  - intros H1 H2. apply Hh in H1, H2. congruence.
  - intros c s' Hp Ha. unfold shared_step in Ha. rewrite Hp in Ha. injection Ha as <-.
    split; [apply Hh; by rewrite Hp|]. destruct (c (sl_value s)); rewrite at_moves;
      by rewrite decide_True.
Qed.

(** C40: no wake-up is lost: as long as every update is followed by a
    [notify_all], no thread sleeps on a condition that holds; so a waiter
    can miss a change only while the notification is still to come. *)
Theorem no_lost_wakeup (val : T) acts s (th : nat) c :
  shared_steps (shared_new val) acts s ->
  at_point s th = Sleeping c -> sl_dirty s = false -> c (sl_value s) = false.
Proof.
  intros Hs Hp Hd. destruct (shared_steps_inv _ _ _ Hs (shared_new_inv val)) as [_ Hsl].
  destruct (c (sl_value s)) eqn:Hc; [|done]. by rewrite (Hsl _ _ Hp Hc) in Hd.
Qed.
End shared_latch.

(** ** An example: thread 1 waits for 2, thread 0 sets it and notifies *)
Module WaitForTwo.
Definition is_two (n : nat) : bool := (n =? 2)%nat.
Definition sleep : list (nat * latch_action nat) :=
  [(1, CallWait is_two); (1, Acquire); (1, CheckCondition)]%nat.
Definition set : list (nat * latch_action nat) :=
  [(0, CallLock); (0, Acquire); (0, Update (fun _ => 2)); (0, DropGuard)]%nat.
Definition recheck : list (nat * latch_action nat) := [(0, NotifyAll); (1, Acquire)]%nat.

Definition after (acts : list (nat * latch_action nat)) : shared_latch nat :=
  default (shared_new 0%nat) (run_shared (shared_new 0%nat) acts).

Lemma sleep_runs : shared_steps (shared_new 0%nat) sleep (after sleep).
Proof. by apply run_shared_steps. Qed.
Lemma recheck_runs : shared_steps (shared_new 0%nat) (sleep ++ set ++ recheck) (after (sleep ++ set ++ recheck)).
Proof. by apply run_shared_steps. Qed.
End WaitForTwo.

(** Woken, thread 1 finds the value 2 and leaves. *)
Lemma shared_latch_exclusion_witness :
  exists s', shared_step (WaitForTwo.after (WaitForTwo.sleep ++ WaitForTwo.set ++ WaitForTwo.recheck)) 1
               CheckCondition = Some s' /\ at_point s' 1 = Outside.
Proof.
  eexists. split; [vm_compute; reflexivity|].
  refine (proj2 (proj2 (proj2 (shared_latch_exclusion 0%nat _ _ 1 1 WaitForTwo.recheck_runs)
                   WaitForTwo.is_two _ _ _))); vm_compute; reflexivity.
Defined.

Lemma no_lost_wakeup_witness :
  WaitForTwo.is_two (sl_value (WaitForTwo.after WaitForTwo.sleep)) = false.
Proof.
  exact (no_lost_wakeup 0%nat WaitForTwo.sleep (WaitForTwo.after WaitForTwo.sleep) 1 WaitForTwo.is_two
           WaitForTwo.sleep_runs eq_refl eq_refl).
Defined.
