(* ===== verification/System.v ===== *)
(** * System: clients, worker and fibers together ([src/trust/remote.rs],
    [src/runtime/runtime.rs])

    Any number of client threads, the worker and the fibers of launched
    closures, interleaved access by access: each step is one access to a flag
    word, one write or read of a record or a result, one visit of the worker,
    or one access of a launched closure to the property.  Flag words are
    loaded with Acquire and stored with Release and every channel has one
    client, so the steps are taken to be sequentially consistent.  The
    worker's visit is one step here; [Service] takes it apart, and
    [Interleaving] carries the results over.  The order of visits is left open,
    so that the results hold for the schedule of [Scheduler] and any other. *)
From S2P Require Import Prelude Slots Serialization Remote Worker Delegation.
Import header.
Local Open Scope Z_scope.

(** ** Requests *)

(** The type [R] of an answer, as [read_unaligned::<R>] sees it: its size, and
    which bytes are a value of it. *)
Record layout := { l_size : Z; l_value : list Z -> bool }.
Definition layout_of (R : Type) `{Repr R} : layout :=
  {| l_size := size_of R; l_value := fun bs => bool_decide (is_Some (of_bytes bs)) |}.

(** What a method submits, and the type of the result it reads back. *)
Record rpc (T : Type) := {
  q_pp : PropertyPtr;
  q_fn : closure_type T;
  q_env : list Z;
  q_args : list Z;
  q_repeat : Z;
  q_out : layout;
}.
Arguments q_pp {T} _.
Arguments q_fn {T} _.
Arguments q_env {T} _.
Arguments q_args {T} _.
Arguments q_repeat {T} _.
Arguments q_out {T} _.
Definition q_size {T} (q : rpc T) : Z := l_size (q_out q).

Definition apply_request {T R} `{Repr R} (u : user_fn T unit R) : rpc T :=
  {| q_pp := CallMutOutPtr; q_fn := out_closure u; q_env := u_env u; q_args := []; q_repeat := 1;
     q_out := layout_of R |}.
Definition apply_with_request {T V R} `{Repr R} `{Bincode V} (u : user_fn T V R) (w : V) : rpc T :=
  {| q_pp := CallMutArgsOutPtr; q_fn := args_closure u; q_env := u_env u; q_args := serialize w;
     q_repeat := 1; q_out := layout_of R |}.
Definition apply_batch_mut_request {T} (u : user_fn T unit unit) (n : Z) : rpc T :=
  {| q_pp := CallMutRetUnit; q_fn := batch_closure u; q_env := u_env u; q_args := []; q_repeat := n;
     q_out := layout_of unit |}.
Definition launch_request {T R} `{Repr R} (u : user_fn T unit R) : rpc T :=
  {| q_pp := Launch; q_fn := out_closure u; q_env := u_env u; q_args := []; q_repeat := 1;
     q_out := layout_of R |}.
Definition into_inner_request {T} `{Repr T} (vt : Z) : rpc T :=
  {| q_pp := IntoInner; q_fn := into_inner_closure T vt; q_env := []; q_args := []; q_repeat := 1;
     q_out := layout_of T |}.

Definition put_request {T} (c : ChannelPair) (q : rpc T) : res ChannelPair :=
  put_record c (q_pp q) (q_fn q) (q_env q) (q_args q) (q_repeat q).
(** [read_unaligned(resp_data.cast::<R>())]: the bytes of the result, if they
    are a value of its type. *)
Definition not_a_value : string := "not a value of the result type".
Definition collect_bytes (c : ChannelPair) (l : layout) : res (list Z) :=
  bs ← res_of_option "response read out of the slot" (read_at (response c) HEADER_BYTES (l_size l));
  if l_value l bs then Ok bs else UB not_a_value.

(** It is [Remote.collect], with the result kept as bytes. *)
Lemma collect_from_bytes {R} `{Repr R} (c : ChannelPair) :
  collect c = bs ← collect_bytes c (layout_of R); res_of_option not_a_value (of_bytes (A := R) bs).
Proof.
  unfold collect, collect_bytes. simpl. destruct (read_at _ _ _) as [bs|]; [|done]. simpl.
  destruct (of_bytes bs) as [r|] eqn:Hr; [rewrite bool_decide_true by eauto|rewrite bool_decide_false];
    simpl; rewrite ?Hr; [done|done|by intros []].
Qed.

(** ** The parts of the system *)

(** Where a client is in its call. *)
Inductive client_state (T : Type) :=
| CIdle
| CEncoded (q : rpc T)               (* record written *)
| CLoaded (q : rpc T) (b : bool)     (* response word loaded, bit chosen *)
| CWaiting (q : rpc T) (b : bool)    (* request word stored; polling *)
| CPolled (q : rpc T).               (* answer seen *)
Arguments CIdle {T}.
Arguments CEncoded {T} q.
Arguments CLoaded {T} q b.
Arguments CWaiting {T} q b.
Arguments CPolled {T} q.

(** A launched job on its fiber; [FWritten]: the closure is over and the
    completion guard about to drop. *)
Inductive fiber_state (T : Type) :=
| FQueued
| FRunning (p : prog T (list Z))
| FWritten.
Arguments FQueued {T}.
Arguments FRunning {T} p.
Arguments FWritten {T}.

Record fiber (T : Type) := { fb_job : launch_job; fb_state : fiber_state T }.
Arguments fb_job {T} _.
Arguments fb_state {T} _.

(** A channel, the worker's notes on it, its client, and its fibers. *)
Record chan_state (T : Type) := {
  cs_chan : ChannelPair;
  cs_cp : ClientPair;
  cs_client : client_state T;
  cs_fibers : list (fiber T);
}.
Arguments cs_chan {T} _.
Arguments cs_cp {T} _.
Arguments cs_client {T} _.
Arguments cs_fibers {T} _.

Inductive worker_state :=
| WReady
| WLoaded (i : nat) (req_word : Z)   (* request word of client [i] loaded *)
| WStopped.                          (* returned or unwound *)

Record system (T : Type) := {
  s_prop : T;
  s_chans : list (chan_state T);     (* in the order of registration *)
  s_drained : nat;                   (* how many of them the worker knows *)
  s_worker : worker_state;
}.
Arguments s_prop {T} _.
Arguments s_chans {T} _.
Arguments s_drained {T} _.
Arguments s_worker {T} _.

Inductive event (T : Type) :=
| ECall (i : nat) (q : rpc T)
| EReturn (i : nat) (bs : list Z).
Arguments ECall {T} i q.
Arguments EReturn {T} i bs.

(** Who moves next. *)
Inductive action (T : Type) :=
| Register (addr : Z)
| Drain
| Call (i : nat) (q : rpc T)
| ClientStep (i : nat)
| LoadReq (i : nat)
| Visit
| FiberStep (i : nat) (k : nat).
Arguments Register {T} addr.
Arguments Drain {T}.
Arguments Call {T} i q.
Arguments ClientStep {T} i.
Arguments LoadReq {T} i.
Arguments Visit {T}.
Arguments FiberStep {T} i k.

(** ** Steps *)
Section steps.
Context {T : Type} `{Repr T} (statics : Z -> option (ErasedVTable T)).

Definition with_client (cs : chan_state T) (x : client_state T) : chan_state T :=
  {| cs_chan := cs_chan cs; cs_cp := cs_cp cs; cs_client := x; cs_fibers := cs_fibers cs |}.
Definition with_chan (cs : chan_state T) (c : ChannelPair) : chan_state T :=
  {| cs_chan := c; cs_cp := cs_cp cs; cs_client := cs_client cs; cs_fibers := cs_fibers cs |}.
Definition with_cp (cs : chan_state T) (cp : ClientPair) : chan_state T :=
  {| cs_chan := cs_chan cs; cs_cp := cp; cs_client := cs_client cs; cs_fibers := cs_fibers cs |}.
Definition with_fibers (cs : chan_state T) (fs : list (fiber T)) : chan_state T :=
  {| cs_chan := cs_chan cs; cs_cp := cs_cp cs; cs_client := cs_client cs; cs_fibers := fs |}.

(** The channel a registration adds. *)
Definition fresh_chan (addr : Z) : chan_state T :=
  {| cs_chan := ChannelPair_default addr; cs_cp := ClientPair_new; cs_client := CIdle; cs_fibers := [] |}.


Definition start (t : T) (addr : Z) : system T :=
  {| s_prop := t; s_chans := [fresh_chan addr]; s_drained := 0; s_worker := WReady |}.

(** The client's next step inside a call. *)
Definition client_step (cs : chan_state T) : option (res (chan_state T * option (list Z))) :=
  let c := cs_chan cs in
  match cs_client cs with
  | CIdle => None
  | CEncoded q =>
      Some (Ok (with_client cs (CLoaded q (negb (ready (load_flags (response c))))), None))
  | CLoaded q b =>
      Some (Ok (with_client
        (with_chan cs (set_request c (store_flags (request c) (pack_ready_count b 1))))
        (CWaiting q b), None))
  | CWaiting q b =>
      Some (Ok (if poll c b then with_client cs (CPolled q) else cs, None))
  | CPolled q =>
      Some (bs ← collect_bytes c (q_out q); Ok (with_client cs CIdle, Some bs))
  end.

(** The next step of a launched job: [None] once it is over. *)
Definition fiber_step (c : ChannelPair) (t : T) (f : fiber T)
    : res (ChannelPair * T * option (fiber T)) :=
  let j := fb_job f in
  let next st := {| fb_job := j; fb_state := st |} in
  match fb_state f with
  | FQueued => p ← job_start statics c j; Ok (c, t, Some (next (FRunning p)))
  | FRunning (PStep upd k) => Ok (c, upd t, Some (next (FRunning (k t))))
  | FRunning (PRet bs) => c ← write_out c bs; Ok (c, t, Some (next FWritten))
  | FRunning PPanic => Ok (c, t, Some (next FWritten))
  | FWritten => Ok (completion_guard_drop (job_req_ready j) c, t, None)
  end.

Definition queue_jobs (js : list launch_job) : list (fiber T) :=
  map (fun j => {| fb_job := j; fb_state := FQueued |}) js.

(** The channel after a visit that went on to [m]. *)
Definition leave_visit (cs : chan_state T) (m : flow T (served T))
    : res (chan_state T * T * worker_state) :=
  let after s := {| cs_chan := sv_chan s; cs_cp := sv_cp s; cs_client := cs_client cs;
                    cs_fibers := cs_fibers cs ++ queue_jobs (sv_jobs s) |} in
  match m with
  | Next s => Ok (after s, sv_prop s, WReady)
  | Return s _ | Unwind s => Ok (after s, sv_prop s, WStopped)
  | Undefined why => UB why
  end.

(** The worker's visit, given the request word it loaded. *)
Definition worker_visit (cs : chan_state T) (req_word : Z) (t : T)
    : res (chan_state T * T * worker_state) :=
  let c := cs_chan cs in
  match visit statics (cs_cp cs) req_word (load_flags (response c)) c t with
  | inl cp => Ok (with_cp cs cp, t, WReady)
  | inr m => leave_visit cs m
  end.

Definition set_cs (s : system T) (i : nat) (cs : chan_state T) : system T :=
  {| s_prop := s_prop s; s_chans := <[i := cs]> (s_chans s); s_drained := s_drained s;
     s_worker := s_worker s |}.

(** One step of the system; [None] when the action is not possible. *)
Definition exec (s : system T) (a : action T) : option (res (system T * list (event T))) :=
  match a with
  | Register addr =>
      Some (Ok ({| s_prop := s_prop s; s_chans := s_chans s ++ [fresh_chan addr];
                   s_drained := s_drained s; s_worker := s_worker s |}, []))
  | Drain =>
      match s_worker s with
      | WReady =>
          if (s_drained s <? length (s_chans s))%nat
          then Some (Ok ({| s_prop := s_prop s; s_chans := s_chans s;
                            s_drained := S (s_drained s); s_worker := WReady |}, []))
          else None
      | _ => None
      end
  | Call i q =>
      cs ← s_chans s !! i;
      match cs_client cs with
      | CIdle =>
          Some (c ← put_request (cs_chan cs) q;
                Ok (set_cs s i (with_client (with_chan cs c) (CEncoded q)), [ECall i q]))
      | _ => None
      end
  | ClientStep i =>
      cs ← s_chans s !! i;
      m ← client_step cs;
      Some ('(cs, o) ← m;
            Ok (set_cs s i cs, match o with Some bs => [EReturn i bs] | None => [] end))
  | LoadReq i =>
      cs ← s_chans s !! i;
      match s_worker s with
      | WReady =>
          if (i <? s_drained s)%nat
          then Some (Ok ({| s_prop := s_prop s; s_chans := s_chans s; s_drained := s_drained s;
                            s_worker := WLoaded i (load_flags (request (cs_chan cs))) |}, []))
          else None
      | _ => None
      end
  | Visit =>
      match s_worker s with
      | WLoaded i w =>
          cs ← s_chans s !! i;
          Some ('(cs, t, wk) ← worker_visit cs w (s_prop s);
                Ok ({| s_prop := t; s_chans := <[i := cs]> (s_chans s);
                       s_drained := s_drained s; s_worker := wk |}, []))
      | _ => None
      end
  | FiberStep i k =>
      cs ← s_chans s !! i;
      f ← cs_fibers cs !! k;
      Some ('(c, t, o) ← fiber_step (cs_chan cs) (s_prop s) f;
            let fs := match o with
                      | Some f => <[k := f]> (cs_fibers cs)
                      | None => delete k (cs_fibers cs)
                      end in
            Ok ({| s_prop := t; s_chans := <[i := with_fibers (with_chan cs c) fs]> (s_chans s);
                   s_drained := s_drained s; s_worker := s_worker s |}, []))
  end.

(** Executions: a sequence of possible actions, and the events it shows. *)
Inductive steps : system T -> list (action T) -> list (event T) -> system T -> Prop :=
| steps_nil s : steps s [] [] s
| steps_cons s a s1 ev acts evs s2 :
    exec s a = Some (Ok (s1, ev)) -> steps s1 acts evs s2 ->
    steps s (a :: acts) (ev ++ evs) s2.


(** A given schedule, executed. *)
Fixpoint run (s : system T) (acts : list (action T)) : option (res (system T * list (event T))) :=
  match acts with
  | [] => Some (Ok (s, []))
  | a :: acts =>
      match exec s a with
      | Some (Ok (s, ev)) =>
          match run s acts with
          | Some (Ok (s, evs)) => Some (Ok (s, ev ++ evs))
          | r => r
          end
      | r => r
      end
  end.

Lemma run_steps s acts evs s' : run s acts = Some (Ok (s', evs)) -> steps s acts evs s'.
Proof.
  revert s evs. induction acts as [|x acts IH]; intros s evs; simpl.
  { intros [= -> <-]. constructor. }
  destruct (exec s x) as [[[s1 ev]| |]|] eqn:Hx; try done.
  destruct (run s1 acts) as [[[s2 evs']| |]|] eqn:Hr; try done.
  intros [= -> <-]. econstructor; eauto.
Qed.

Lemma steps_app s acts evs s1 acts' evs' s2 :
  steps s acts evs s1 -> steps s1 acts' evs' s2 -> steps s (acts ++ acts') (evs ++ evs') s2.
Proof.
  induction 1; intros; [done|]. rewrite <-app_assoc. simpl. econstructor; eauto.
Qed.
End steps.
