(* ===== verification/Service.v ===== *)
(** * Service: the worker's visit, access by access ([src/runtime/runtime.rs])

    [Worker.visit] takes the body of the service loop as one step.  Here it is
    taken apart: loading the response word, parsing a record and moving its
    closure out, each access of the closure to the property, the write of the
    result, the response word.  Between two of these steps clients and launched
    closures may move.  Run without interruption the steps are the visit. *)
From S2P Require Import Prelude Slots Serialization Remote Worker Delegation System.
Import header.
Local Open Scope Z_scope.

(** ** The variables of the record loop *)

Record loop_vars := {
  lv_left : nat;              (* records still to come *)
  lv_cursor : Z;              (* [header_cursor] *)
  lv_processed : Z;
  lv_deferred : bool;         (* [deferred_response] *)
  lv_ready : bool;            (* [req_ready] of the word the visit began with *)
}.

Definition lv_start (req_word : Z) : loop_vars :=
  {| lv_left := Z.to_nat (count req_word); lv_cursor := HEADER_BYTES; lv_processed := 0;
     lv_deferred := false; lv_ready := ready req_word |}.
(** The end of the loop's body, for a record that was at [cur]. *)
Definition lv_next (v : loop_vars) (n : nat) (cur : Z) : loop_vars :=
  {| lv_left := n; lv_cursor := cur + size_of_RequestRecordHeader;
     lv_processed := lv_processed v + 1; lv_deferred := lv_deferred v; lv_ready := lv_ready v |}.
Definition lv_defer (v : loop_vars) : loop_vars :=
  {| lv_left := lv_left v; lv_cursor := lv_cursor v; lv_processed := lv_processed v;
     lv_deferred := true; lv_ready := lv_ready v |}.

(** Where the worker is in a visit; [v] are the variables with which the
    next record is looked at. *)
Inductive service (T : Type) :=
| SRecord (v : loop_vars)                                     (* head of the record loop *)
| SRepeat (v : loop_vars) (hdr : RequestRecordHeader) (n : nat)  (* [n] calls to go *)
| SCall (v : loop_vars) (hdr : RequestRecordHeader) (n : nat) (p : prog T unit)
| SOut (v : loop_vars) (p : prog T (list Z))                  (* inside a call that answers *)
| SMoved.                                                     (* property written out *)
Arguments SRecord {T} v.
Arguments SRepeat {T} v hdr n.
Arguments SCall {T} v hdr n p.
Arguments SOut {T} v p.
Arguments SMoved {T}.

(** A step ends with the worker still serving, or with the visit over. *)
Definition outcome (T : Type) : Type := res (chan_state T * T * (service T + worker_state)).

Section service.
Context {T : Type} `{Repr T} (statics : Z -> option (ErasedVTable T)).

Definition serving (cs : chan_state T) (t : T) (sv : service T) : outcome T := Ok (cs, t, inl sv).
Definition over (cs : chan_state T) (t : T) (wk : worker_state) : outcome T := Ok (cs, t, inr wk).

(** A panic outside a closure would end the worker like one inside. *)
Definition step_lift {A} (cs : chan_state T) (t : T) (m : res A) (f : A -> outcome T) : outcome T :=
  match m with
  | Ok a => f a
  | Panic _ => over cs t WStopped
  | UB why => UB why
  end.

(** The launch's flags are set before the job leaves the worker. *)
Definition hand_over (cs : chan_state T) (b : bool) (hdr : RequestRecordHeader) : chan_state T :=
  {| cs_chan := cs_chan cs;
     cs_cp := {| cp_pending_launch := true; cp_launch_req_ready := b |};
     cs_client := cs_client cs;
     cs_fibers := cs_fibers cs ++ queue_jobs [{| job_hdr := hdr; job_req_ready := b |}] |}.

(** The record at the cursor: its header is read and its closure, if it has
    one, moved out of the slot. *)
Definition begin_record (cs : chan_state T) (t : T) (v : loop_vars) (hdr : RequestRecordHeader)
    : outcome T :=
  let c := cs_chan cs in
  match property_ptr hdr with
  | CallMutRetUnit => serving cs t (SRepeat v hdr (Z.to_nat (repeat_count hdr)))
  | CallMutOutPtr =>
      step_lift cs t (decode_and_call_out statics (cp_base c) (request c) hdr)
        (fun p => serving cs t (SOut v p))
  | CallMutArgsOutPtr =>
      step_lift cs t (res_of_option "args slice out of the slot"
                        (read_at (request c) (args_offset hdr) (args_len hdr))) (fun args =>
      step_lift cs t (decode_and_call_args statics (cp_base c) (request c) hdr args)
        (fun p => serving cs t (SOut v p)))
  | IntoInner =>
      step_lift cs t (write_out c (to_bytes t)) (fun c => serving (with_chan cs c) t SMoved)
  | Launch => serving (hand_over cs (lv_ready v) hdr) t (SRecord (lv_defer v))
  | Terminate => over cs t WStopped
  end.

(** The answer, unless a launch deferred it. *)
Definition answer (cs : chan_state T) (v : loop_vars) : chan_state T :=
  if lv_deferred v then cs
  else with_chan cs (set_response (cs_chan cs)
         (store_flags (response (cs_chan cs))
            (pack_ready_count (lv_ready v) (as_u32 (lv_processed v))))).

(** One step of the worker inside a visit. *)
Definition service_step (cs : chan_state T) (t : T) (sv : service T) : outcome T :=
  let c := cs_chan cs in
  match sv with
  | SRecord v =>
      match lv_left v with
      | O => over (answer cs v) t WReady
      | S n =>
          let cur := next_boundary_offset (lv_cursor v) size_of_RequestRecordHeader
                       align_of_RequestRecordHeader in
          step_lift cs t (read_header c cur) (fun hdr => begin_record cs t (lv_next v n cur) hdr)
      end
  | SRepeat v hdr O => serving cs t (SRecord v)
  | SRepeat v hdr (S n) =>
      step_lift cs t (decode_and_call_mut statics (cp_base c) (request c) hdr)
        (fun p => serving cs t (SCall v hdr n p))
  | SCall v hdr n (PStep upd k) => serving cs (upd t) (SCall v hdr n (k t))
  | SCall v hdr n (PRet _) => serving cs t (SRepeat v hdr n)
  | SCall v hdr n PPanic => over cs t WStopped
  | SOut v (PStep upd k) => serving cs (upd t) (SOut v (k t))
  | SOut v (PRet bs) =>
      step_lift cs t (write_out c bs) (fun c => serving (with_chan cs c) t (SRecord v))
  | SOut v PPanic => over cs t WStopped
  | SMoved =>
      let new_word := pack_ready_count (ready (load_flags (request c))) 1 in
      over (with_chan cs (set_response c (store_flags (response c) new_word))) t WStopped
  end.

(** The head of a visit: the response word is loaded and compared. *)
Definition visit_begin (cs : chan_state T) (req_word : Z) (t : T) : outcome T :=
  let req_ready := ready req_word in
  let resp_ready := ready (load_flags (response (cs_chan cs))) in
  match launch_gate (cs_cp cs) req_ready resp_ready with
  | None => over cs t WReady
  | Some cp =>
      if Bool.eqb req_ready resp_ready then over (with_cp cs cp) t WReady
      else serving (with_cp cs cp) t (SRecord (lv_start req_word))
  end.

(** The visit with nothing else moving. *)
Fixpoint serve_out (fuel : nat) (m : outcome T) : option (res (chan_state T * T * worker_state)) :=
  match m with
  | Ok (cs, t, inr wk) => Some (Ok (cs, t, wk))
  | Panic why => Some (Panic why)
  | UB why => Some (UB why)
  | Ok (cs, t, inl sv) =>
      match fuel with O => None | S fuel => serve_out fuel (service_step cs t sv) end
  end.
Definition visit_steps (fuel : nat) (cs : chan_state T) (req_word : Z) (t : T) :=
  serve_out fuel (visit_begin cs req_word t).

(** ** The machine *)

(** The system with its worker possibly inside a visit. *)
Record fstate := { f_sys : system T; f_service : option (service T) }.

Inductive faction :=
| Base (a : action T)          (* everything but a whole visit *)
| Enter                        (* the head of a visit *)
| Serve.                       (* one step inside it *)

(** The worker's step lands on the channel it visits. *)
Definition land (s : system T) (i : nat) (m : outcome T) : res (fstate * list (event T)) :=
  '(cs, t, k) ← m;
  let next wk := {| s_prop := t; s_chans := <[i := cs]> (s_chans s); s_drained := s_drained s;
                    s_worker := wk |} in
  Ok (match k with
      | inl sv => {| f_sys := next (s_worker s); f_service := Some sv |}
      | inr wk => {| f_sys := next wk; f_service := None |}
      end, []).

Definition fexec (f : fstate) (a : faction) : option (res (fstate * list (event T))) :=
  let s := f_sys f in
  match a with
  | Base Visit => None
  | Base x =>
      m ← exec statics s x;
      Some ('(s, ev) ← m; Ok ({| f_sys := s; f_service := f_service f |}, ev))
  | Enter =>
      match s_worker s, f_service f with
      | WLoaded i w, None => cs ← s_chans s !! i; Some (land s i (visit_begin cs w (s_prop s)))
      | _, _ => None
      end
  | Serve =>
      match s_worker s, f_service f with
      | WLoaded i w, Some sv => cs ← s_chans s !! i; Some (land s i (service_step cs (s_prop s) sv))
      | _, _ => None
      end
  end.

Inductive fsteps : fstate -> list faction -> list (event T) -> fstate -> Prop :=
| fsteps_nil f : fsteps f [] [] f
| fsteps_cons f a f1 ev acts evs f2 :
    fexec f a = Some (Ok (f1, ev)) -> fsteps f1 acts evs f2 -> fsteps f (a :: acts) (ev ++ evs) f2.

Fixpoint frun (f : fstate) (acts : list faction) : option (res (fstate * list (event T))) :=
  match acts with
  | [] => Some (Ok (f, []))
  | a :: acts =>
      match fexec f a with
      | Some (Ok (f, ev)) =>
          match frun f acts with
          | Some (Ok (f, evs)) => Some (Ok (f, ev ++ evs))
          | r => r
          end
      | r => r
      end
  end.

Definition fstart (t : T) (addr : Z) : fstate := {| f_sys := start t addr; f_service := None |}.

Lemma frun_fsteps f acts evs f' : frun f acts = Some (Ok (f', evs)) -> fsteps f acts evs f'.
Proof.
  revert f evs. induction acts as [|x acts IH]; intros f evs; cbn [frun].
  { intros Hm. apply (inj Some) in Hm. injection Hm as <- <-. constructor. }
  destruct (fexec f x) as [[[f1 ev]| |]|] eqn:Hx; try done.
  destruct (frun f1 acts) as [[[f2 evs']| |]|] eqn:Hr; try done.
  intros Hm. apply (inj Some) in Hm. injection Hm as <- <-. econstructor; eauto.
Qed.

(** The same, with the bytes that each action is to return: the events then
    are known without evaluating the requests, which hold functions. *)
Definition event_of (x : faction) (r : option (list Z)) : list (event T) :=
  match x, r with
  | Base (Call i q), _ => [ECall i q]
  | Base (ClientStep i), Some bs => [EReturn i bs]
  | _, _ => []
  end.
Definition returned (ev : list (event T)) : option (list Z) :=
  match ev with [EReturn _ bs] => Some bs | _ => None end.
Fixpoint fplay (f : fstate) (script : list (faction * option (list Z))) : option fstate :=
  match script with
  | [] => Some f
  | (x, r) :: script =>
      match fexec f x with
      | Some (Ok (f, ev)) => if decide (returned ev = r) then fplay f script else None
      | _ => None
      end
  end.
Definition script_events (script : list (faction * option (list Z))) : list (event T) :=
  flat_map (fun '(x, r) => event_of x r) script.

Lemma fexec_events f x f1 ev : fexec f x = Some (Ok (f1, ev)) -> ev = event_of x (returned ev).
Proof.
  assert (forall i m, land (f_sys f) i m = Ok (f1, ev) -> ev = []) as Hland.
  { intros i [[[[cs t] wk] sv]| |]; simpl; [|done..]. by intros [= _ <-]. }
  destruct x as [x| |]; cbn [fexec].
  - intros Hm. assert (exists s1, exec statics (f_sys f) x = Some (Ok (s1, ev))) as [s1 Hx].
    { destruct x; try done; destruct (exec _ _ _) as [[[s1 ev1]| |]|]; try done;
        cbn in Hm; injection Hm as _ <-; by exists s1. }
    clear Hm. destruct x as [addr| |i q|i|i| |i k]; cbn [exec event_of] in Hx |- *.
    + by simplify_eq.
    + destruct (s_worker _); try done. case_match; by simplify_eq.
    + destruct (s_chans _ !! i) as [cs|]; [|done]. cbn in Hx. destruct (cs_client cs); try done.
      destruct (put_request _ _); try done. cbn in Hx. by simplify_eq.
    + destruct (s_chans _ !! i) as [cs|]; [|done]. cbn in Hx. destruct (client_step cs) as [[[cs' o]| |]|]; try done.
      cbn in Hx. destruct o; by simplify_eq.
    + destruct (s_chans _ !! i) as [cs|]; [|done]. cbn in Hx. destruct (s_worker _); try done.
      case_match; by simplify_eq.
    + destruct (s_worker _); try done. destruct (s_chans _ !! i) as [cs|]; [|done]. cbn in Hx.
      destruct (worker_visit _ _ _ _) as [[[cs' t] wk]| |]; try done. cbn in Hx. by simplify_eq.
    + destruct (s_chans _ !! i) as [cs|]; [|done]. cbn in Hx. destruct (cs_fibers cs !! k) as [fb|]; [|done].
      cbn in Hx. destruct (fiber_step _ _ _) as [[[c t] o]| |]; try done. cbn in Hx. by simplify_eq.
  - repeat case_match; try done. simpl. destruct (s_chans _ !! _); [|done]. intros [= Hm]. by rewrite (Hland _ _ Hm).
  - repeat case_match; try done. simpl. destruct (s_chans _ !! _); [|done]. intros [= Hm]. by rewrite (Hland _ _ Hm).
Qed.

Lemma fplay_fsteps f script f' :
  fplay f script = Some f' -> fsteps f script.*1 (script_events script) f'.
Proof.
  revert f. induction script as [|[x r] script IH]; intros f; cbn [fplay].
  { intros [= ->]. constructor. }
  destruct (fexec f x) as [[[f1 ev]| |]|] eqn:Hx; try done.
  case_decide as Hr; [|done]. intros Hp. cbn [script_events flat_map fmap list_fmap].
  rewrite <-Hr, <-(fexec_events _ _ _ _ Hx). econstructor; [exact Hx|by apply IH].
Qed.

Definition played (f : fstate) (script : list (faction * option (list Z))) : fstate :=
  default f (fplay f script).
Lemma plays f script :
  is_Some (fplay f script) -> fsteps f script.*1 (script_events script) (played f script).
Proof. intros [f' Hp]. unfold played. rewrite Hp. by apply fplay_fsteps. Qed.

(** Parts of scripts: the submission of a request, a visit of [n] steps, [n]
    accesses of a fiber, the end of a call. *)
Definition silent (x : faction) : faction * option (list Z) := (x, None).
Definition based (xs : list (action T)) : list (faction * option (list Z)) := map (fun x => silent (Base x)) xs.
Definition sent (i : nat) (q : rpc T) : list (faction * option (list Z)) :=
  based [Call i q; ClientStep i; ClientStep i].
Definition served_in (i n : nat) : list (faction * option (list Z)) :=
  map silent ([Base (LoadReq i); Enter] ++ replicate n Serve).
Definition fiber_runs (i n : nat) : list (faction * option (list Z)) := based (replicate n (FiberStep i 0)).
Definition answered (i : nat) (bs : list Z) : list (faction * option (list Z)) :=
  [silent (Base (ClientStep i)); (Base (ClientStep i), Some bs)].
Definition whole_call (i : nat) (q : rpc T) (n : nat) (bs : list Z) : list (faction * option (list Z)) :=
  sent i q ++ served_in i n ++ answered i bs.

Lemma fsteps_app f acts evs f1 acts' evs' f2 :
  fsteps f acts evs f1 -> fsteps f1 acts' evs' f2 -> fsteps f (acts ++ acts') (evs ++ evs') f2.
Proof. induction 1; intros; [done|]. rewrite <-app_assoc. simpl. econstructor; eauto. Qed.
End service.
Arguments f_sys {T} _.
Arguments f_service {T} _.
Arguments Base {T} a.
Arguments Enter {T}.
Arguments Serve {T}.
Arguments fstate T : clear implicits.
Arguments faction T : clear implicits.

(** ** The steps add up to the visit *)
Section equivalence.
Context {T : Type} `{Repr T} (statics : Z -> option (ErasedVTable T)).
Implicit Types (m : outcome T) (r : res (chan_state T * T * worker_state)) (v : loop_vars).

(** Without interruption, [m] comes to [r]. *)
Definition comes_to m r : Prop := exists fuel, serve_out statics fuel m = Some r.

Lemma serve_out_more fuel k m r :
  serve_out statics fuel m = Some r -> serve_out statics (fuel + k) m = Some r.
Proof.
  revert m. induction fuel as [|fuel IH]; intros m; destruct k as [|k];
    rewrite ?Nat.add_0_r; try done; destruct m as [[[cs t] [sv|wk]]| |]; try done; simpl; try done.
  apply (IH _).
Qed.

(** So the result does not depend on the fuel. *)
Lemma comes_to_det m r r' : comes_to m r -> comes_to m r' -> r = r'.
Proof.
  intros [a Ha] [b Hb]. apply (serve_out_more _ b) in Ha. apply (serve_out_more _ a) in Hb.
  rewrite Nat.add_comm in Hb. congruence.
Qed.

Lemma comes_step cs t sv r : comes_to (service_step statics cs t sv) r -> comes_to (serving cs t sv) r.
Proof. intros [fuel Hf]. by exists (S fuel). Qed.
Lemma comes_over cs t wk : comes_to (over cs t wk) (Ok (cs, t, wk)).
Proof. by exists 0%nat. Qed.
Lemma comes_ub why : comes_to (UB why) (UB why).
Proof. by exists 0%nat. Qed.

(** The channel as the loop's [served] describes it. *)
Definition view (cs0 : chan_state T) (s : served T) : chan_state T :=
  {| cs_chan := sv_chan s; cs_cp := sv_cp s; cs_client := cs_client cs0;
     cs_fibers := cs_fibers cs0 ++ queue_jobs (sv_jobs s) |}.

Lemma run_out_step s upd (k : T -> prog T (list Z)) :
  run_out s (PStep upd k) = run_out (set_prop s (upd (sv_prop s))) (k (sv_prop s)).
Proof.
  unfold run_out. simpl. destruct (run_prog _ _) as [t' [bs|]]; [|done].
  unfold write_out. by destruct (write_at _ _ _).
Qed.

Lemma decode_mut_no_panic base mem hdr why :
  decode_and_call_mut statics base mem hdr <> Panic why.
Proof.
  unfold decode_and_call_mut, vtable_of, call_once_shim_mut, read_env.
  destruct (statics _) as [vt|]; simpl; [|done]. destruct (f_run (vt_fn vt)); try done.
  case_match; simpl; [done|]. by destruct (read_at _ _ _).
Qed.

(** A flow, as what it leaves. *)
Section flows.
Context (cs0 : chan_state T) (next : served T -> flow T (served T)).

(** [next] is what the steps from the next record on come to. *)
Definition goes_on v (s : served T) : Prop :=
  comes_to (serving (view cs0 s) (sv_prop s) (SRecord v)) (leave_visit cs0 (next s)).

Lemma lift_comes {A} s (x : res A) (f : A -> outcome T) (g : A -> flow T (served T)) :
  (forall a, x = Ok a -> comes_to (f a) (leave_visit cs0 (flow_bind (g a) next))) ->
  comes_to (step_lift (view cs0 s) (sv_prop s) x f) (leave_visit cs0 (flow_bind (lift s x g) next)).
Proof. intros Hf. destruct x as [a| |why]; simpl; [by apply Hf|apply comes_over|apply comes_ub]. Qed.

Lemma out_comes v (p : prog T (list Z)) s :
  (forall s', sv_deferred s' = sv_deferred s -> goes_on v s') ->
  comes_to (serving (view cs0 s) (sv_prop s) (SOut v p)) (leave_visit cs0 (flow_bind (run_out s p) next)).
Proof.
  revert s. induction p as [bs| |upd k IH]; intros s Hn; apply comes_step; simpl.
  - unfold run_out. simpl. destruct (write_out (sv_chan s) bs) as [c| |why]; simpl;
      [by apply (Hn (set_chan (set_prop s (sv_prop s)) c))|apply comes_over|apply comes_ub].
  - apply comes_over.
  - rewrite run_out_step. exact (IH (sv_prop s) (set_prop s (upd (sv_prop s))) Hn).
Qed.

(** The calls of a batch, with the one under way. *)
Definition batch (s : served T) (m : res (T * exit unit))
    : flow T (served T) :=
  lift s m (fun '(t, e) =>
    match e with Returned _ => Next (set_prop s t) | Panicked => Unwind (set_prop s t) end).

Definition calls (n : nat) (hdr : RequestRecordHeader) (s : served T) : flow T (served T) :=
  batch s (call_repeat statics n (cp_base (sv_chan s)) (request (sv_chan s)) hdr (sv_prop s)).

Definition in_call (n : nat) (hdr : RequestRecordHeader) (p : prog T unit) (s : served T)
    : flow T (served T) :=
  match run_prog p (sv_prop s) with
  | (t, Returned _) => calls n hdr (set_prop s t)
  | (t, Panicked) => Unwind (set_prop s t)
  end.

Lemma call_comes v n hdr (p : prog T unit) s :
  (forall s', sv_deferred s' = sv_deferred s ->
     comes_to (serving (view cs0 s') (sv_prop s') (SRepeat v hdr n))
       (leave_visit cs0 (flow_bind (calls n hdr s') next))) ->
  comes_to (serving (view cs0 s) (sv_prop s) (SCall v hdr n p))
    (leave_visit cs0 (flow_bind (in_call n hdr p s) next)).
Proof.
  revert s. induction p as [[]| |upd k IH]; intros s Hn; apply comes_step; unfold in_call; simpl.
  - exact (Hn (set_prop s (sv_prop s)) eq_refl).
  - apply comes_over.
  - exact (IH (sv_prop s) (set_prop s (upd (sv_prop s))) Hn).
Qed.

Lemma call_repeat_no_panic n base mem hdr t why : call_repeat statics n base mem hdr t <> Panic why.
Proof.
  revert t. induction n as [|n IH]; intros t; simpl; [done|].
  destruct (decode_and_call_mut statics base mem hdr) as [p|w|] eqn:Hd; simpl; [|by destruct (decode_mut_no_panic base mem hdr w)|done].
  destruct (run_prog p t) as [t' [[]|]]; [apply IH|done].
Qed.

Lemma calls_succ n hdr s p :
  decode_and_call_mut statics (cp_base (sv_chan s)) (request (sv_chan s)) hdr = Ok p ->
  calls (S n) hdr s = in_call n hdr p s.
Proof.
  intros Hp. unfold calls, in_call, batch. simpl. rewrite Hp. simpl.
  destruct (run_prog p (sv_prop s)) as [t' [[]|]]; [|done]. unfold calls, batch. simpl.
  destruct (call_repeat _ _ _ _ _ _) eqn:Hc; [done| |done].
  by destruct (call_repeat_no_panic _ _ _ _ _ _ Hc).
Qed.

Lemma repeat_comes v n hdr s :
  (forall s', sv_deferred s' = sv_deferred s -> goes_on v s') ->
  comes_to (serving (view cs0 s) (sv_prop s) (SRepeat v hdr n))
    (leave_visit cs0 (flow_bind (calls n hdr s) next)).
Proof.
  revert s. induction n as [|n IH]; intros s Hn; apply comes_step; simpl.
  - exact (Hn (set_prop s (sv_prop s)) eq_refl).
  - destruct (decode_and_call_mut _ _ _ hdr) as [p|why|why] eqn:Hp; simpl.
    + rewrite (calls_succ _ _ _ _ Hp). apply call_comes. intros s' Hd. apply IH.
      intros s'' Hd'. apply Hn. by rewrite Hd'.
    + unfold calls. simpl. rewrite Hp. apply comes_over.
    + unfold calls. simpl. rewrite Hp. apply comes_ub.
Qed.
End flows.

(** One record, then what follows it. *)
Lemma record_comes cs0 next v hdr s :
  lv_deferred v = sv_deferred s ->
  (forall v' s', lv_left v' = lv_left v -> lv_cursor v' = lv_cursor v ->
     lv_processed v' = lv_processed v -> lv_ready v' = lv_ready v ->
     lv_deferred v' = sv_deferred s' -> goes_on cs0 next v' s') ->
  comes_to (begin_record statics (view cs0 s) (sv_prop s) v hdr)
    (leave_visit cs0 (flow_bind (exec_record statics hdr (lv_ready v) s) next)).
Proof.
  intros Hd Hn.
  assert (Hsame : forall s', sv_deferred s' = sv_deferred s -> goes_on cs0 next v s').
  { intros s' Hs'. apply Hn; congruence. }
  unfold begin_record, exec_record. destruct (property_ptr hdr).
  - exact (repeat_comes cs0 next v (Z.to_nat (repeat_count hdr)) hdr s Hsame).
  - apply lift_comes. intros p _. by apply out_comes.
  - apply (lift_comes cs0 next s). intros args _. apply (lift_comes cs0 next s). intros p _.
    by apply out_comes.
  - apply (lift_comes cs0 next s). intros c _. by apply comes_step, comes_over.
  - set (s' := {| sv_prop := sv_prop s; sv_chan := sv_chan s;
                  sv_cp := {| cp_pending_launch := true; cp_launch_req_ready := lv_ready v |};
                  sv_jobs := sv_jobs s ++ [{| job_hdr := hdr; job_req_ready := lv_ready v |}];
                  sv_deferred := true |}).
    replace (hand_over (view cs0 s) (lv_ready v) hdr) with (view cs0 s').
    + exact (Hn (lv_defer v) s' eq_refl eq_refl eq_refl eq_refl eq_refl).
    + unfold hand_over, view, queue_jobs. simpl. by rewrite map_app, app_assoc.
  - apply comes_over.
Qed.

Lemma loop_comes cs0 n v s :
  lv_left v = n -> lv_deferred v = sv_deferred s ->
  comes_to (serving (view cs0 s) (sv_prop s) (SRecord v))
    (leave_visit cs0
       (flow_bind (process_records statics n (lv_cursor v) (lv_processed v) (lv_ready v) s)
          (fun '(s, processed) => Next (respond (lv_ready v) processed s)))).
Proof.
  revert v s. induction n as [|n IH]; intros v s Hl Hd; apply comes_step; simpl; rewrite Hl.
  - unfold answer, respond. rewrite Hd. destruct (sv_deferred s); apply comes_over.
  - set (cur := next_boundary_offset _ _ _).
    destruct (read_header (sv_chan s) cur) as [hdr| |why]; simpl; [|apply comes_over|apply comes_ub].
    replace (flow_bind _ _) with
      (flow_bind (exec_record statics hdr (lv_ready (lv_next v n cur)) s) (fun s =>
         flow_bind (process_records statics n (cur + size_of_RequestRecordHeader)
                      (lv_processed v + 1) (lv_ready v) s)
           (fun '(s, processed) => Next (respond (lv_ready v) processed s))))
      by (by destruct (exec_record _ _ _ _)).
    apply record_comes; [done|]. intros v' s' Hl' Hc' Hp' Hr' Hd'. unfold goes_on.
    specialize (IH v' s' Hl' Hd'). simpl in Hc', Hp', Hr'. by rewrite Hc', Hp', Hr' in IH.
Qed.

Lemma visit_comes cs w t :
  comes_to (visit_begin cs w t) (worker_visit statics cs w t).
Proof.
  unfold visit_begin, worker_visit, visit.
  destruct (launch_gate _ _ _) as [cp|]; [|destruct cs; apply comes_over].
  destruct (Bool.eqb _ _); [apply comes_over|].
  set (s := {| sv_prop := t; sv_chan := cs_chan cs; sv_cp := cp; sv_jobs := []; sv_deferred := false |}).
  replace (with_cp cs cp) with (view cs s)
    by (unfold view, with_cp; simpl; by rewrite app_nil_r).
  exact (loop_comes cs _ (lv_start w) s eq_refl eq_refl).
Qed.
End equivalence.

(** ** The visit ends, from wherever it is *)
Section ending.
Context {T : Type} `{Repr T} (statics : Z -> option (ErasedVTable T)).
Implicit Types (m : outcome T) (cs : chan_state T) (t : T) (v : loop_vars).

Definition ends m : Prop := exists r, comes_to statics m r.

Lemma ends_step cs t sv : ends (service_step statics cs t sv) -> ends (serving cs t sv).
Proof. intros [r Hr]. by exists r; apply comes_step. Qed.
Lemma ends_over cs t wk : ends (over cs t wk).
Proof. eexists. apply comes_over. Qed.
Lemma ends_lift {A} cs t (x : res A) (f : A -> outcome T) :
  (forall a, ends (f a)) -> ends (step_lift cs t x f).
Proof. intros Hf. destruct x; simpl; [done|apply ends_over|eexists; apply comes_ub]. Qed.

(** A call ends, if the loop does after it. *)
Lemma out_ends v p :
  (forall cs t, ends (serving cs t (SRecord v))) -> forall cs t, ends (serving cs t (SOut v p)).
Proof.
  intros Hv. induction p as [bs| |upd k IH]; intros cs t; apply ends_step; simpl;
    [apply ends_lift; auto|apply ends_over|apply IH].
Qed.
Lemma call_ends v hdr n p :
  (forall cs t, ends (serving cs t (SRepeat v hdr n))) ->
  forall cs t, ends (serving cs t (SCall v hdr n p)).
Proof.
  intros Hv. induction p as [[]| |upd k IH]; intros cs t; apply ends_step; simpl;
    [apply Hv|apply ends_over|apply IH].
Qed.
Lemma repeat_ends v hdr n :
  (forall cs t, ends (serving cs t (SRecord v))) -> forall cs t, ends (serving cs t (SRepeat v hdr n)).
Proof.
  intros Hv. induction n as [|n IH]; intros cs t; apply ends_step; simpl; [apply Hv|].
  apply ends_lift. intros p. by apply call_ends.
Qed.

Lemma record_ends n v : lv_left v = n -> forall cs t, ends (serving cs t (SRecord v)).
Proof.
  revert v. induction n as [|n IH]; intros v Hl cs t; apply ends_step; simpl; rewrite Hl;
    [apply ends_over|].
  apply ends_lift. intros hdr. unfold begin_record.
  assert (Hn : forall w cs t, lv_left w = n -> ends (serving cs t (SRecord w))) by (intros; by apply IH).
  destruct (property_ptr hdr).
  - apply repeat_ends. intros. by apply Hn.
  - apply ends_lift. intros p. apply out_ends. intros. by apply Hn.
  - apply ends_lift. intros args. apply ends_lift. intros p. apply out_ends. intros. by apply Hn.
  - apply ends_lift. intros c. apply ends_step, ends_over.
  - by apply Hn.
  - apply ends_over.
Qed.

Lemma service_ends cs t sv : ends (serving cs t sv).
Proof.
  assert (Hr : forall v cs t, ends (serving cs t (SRecord v))) by (intros; by eapply record_ends).
  destruct sv; [apply Hr|by apply repeat_ends|by apply call_ends, repeat_ends|by apply out_ends|].
  apply ends_step, ends_over.
Qed.

(** ** The machine, while the worker alone moves *)
Implicit Types (s : system T) (i : nat).

Definition landed s i cs t (wk : worker_state) : fstate T :=
  {| f_sys := {| s_prop := t; s_chans := <[i := cs]> (s_chans s); s_drained := s_drained s;
                 s_worker := wk |}; f_service := None |}.

Lemma land_ok fuel s i m r :
  serve_out statics fuel m = Some (Ok r) -> exists f, land s i m = Ok (f, []).
Proof. intros Hr. destruct m as [[[cs t] k]| |], fuel; try done; by eexists. Qed.

(** A visit that comes to an end does so by steps of the machine. *)
Lemma serve_to_end fuel s i w m cs0 f cs t wk :
  s_worker s = WLoaded i w -> s_chans s !! i = Some cs0 -> land s i m = Ok (f, []) ->
  serve_out statics fuel m = Some (Ok (cs, t, wk)) ->
  exists acts, fsteps statics f acts [] (landed s i cs t wk) /\ Forall (fun x => x = Serve) acts.
Proof.
  intros Hw. revert s m cs0 f Hw. induction fuel as [|fuel IH]; intros s m cs0 f Hw Hi Hl Hr;
    destruct m as [[[cs' t'] [sv|wk']]| |]; try done; simpl in Hr;
    unfold land in Hl; simpl in Hl; injection Hl as <-.
  - injection Hr as -> -> ->. exists []. split; constructor.
  - set (s' := {| s_prop := t'; s_chans := <[i := cs']> (s_chans s); s_drained := s_drained s;
                  s_worker := s_worker s |}).
    assert (Hi' : s_chans s' !! i = Some cs').
    { apply list_lookup_insert_eq. by eapply lookup_lt_Some. }
    destruct (land_ok _ s' i _ _ Hr) as [f' Hl'].
    destruct (IH s' _ _ _ Hw Hi' Hl' Hr) as (acts & Hst & Hall).
    exists (Serve :: acts). split; [|by constructor].
    change [] with (@nil (event T) ++ []). econstructor.
    + unfold fexec. cbn [f_sys f_service]. change (s_worker s') with (s_worker s). rewrite Hw, Hi'.
      cbn [mbind option_bind]. f_equal. exact Hl'.
    + replace (landed s i cs t wk) with (landed s' i cs t wk); [exact Hst|].
      unfold landed. simpl. by rewrite list_insert_insert_eq.
  - injection Hr as -> -> ->. exists []. split; constructor.
Qed.

(** A whole visit is the head of the visit and the steps inside it. *)
Lemma visit_by_steps s s' ev :
  exec statics s Visit = Some (Ok (s', ev)) ->
  exists acts, fsteps statics {| f_sys := s; f_service := None |} acts ev
                 {| f_sys := s'; f_service := None |} /\
    Forall (fun x => x = Enter \/ x = Serve) acts.
Proof.
  cbn [exec]. destruct (s_worker s) as [|i w|] eqn:Hw; try done.
  destruct (s_chans s !! i) as [cs|] eqn:Hi; [|done]. cbn [mbind option_bind]. intros Hm.
  apply (inj Some) in Hm. destruct (worker_visit statics cs w (s_prop s)) as [[[cs' t'] wk]| |] eqn:Hv;
    try done. injection Hm as <- <-.
  destruct (visit_comes statics cs w (s_prop s)) as [fuel Hf]. rewrite Hv in Hf.
  destruct (land_ok _ s i _ _ Hf) as [f Hl].
  destruct (serve_to_end _ _ _ _ _ _ _ _ _ _ Hw Hi Hl Hf) as (acts & Hst & Hall).
  exists (Enter :: acts). split.
  - change [] with (@nil (event T) ++ []). econstructor; [|exact Hst].
    unfold fexec. cbn [f_sys f_service]. rewrite Hw, Hi. cbn [mbind option_bind]. f_equal. exact Hl.
  - constructor; [by left|]. eapply Forall_impl; [done|]. intros x ->. by right.
Qed.

(** So every execution of [System] is one of this machine. *)
Lemma steps_fsteps s acts evs s' :
  steps statics s acts evs s' ->
  exists acts', fsteps statics {| f_sys := s; f_service := None |} acts' evs
                  {| f_sys := s'; f_service := None |} /\
    Forall (fun x => match x with Base y => y ∈ acts | _ => True end) acts'.
Proof.
  induction 1 as [s|s x s1 ev acts evs s2 Hx _ (acts' & Hst & Hall)].
  { exists []. split; constructor. }
  assert (exists pre, fsteps statics {| f_sys := s; f_service := None |} pre ev
                  {| f_sys := s1; f_service := None |} /\
    Forall (fun y => match y with Base y => y = x | _ => True end) pre) as (pre & Hpre & Hpx).
  { assert (x = Visit \/ x <> Visit) as [->|Hne] by (destruct x; eauto).
    - destruct (visit_by_steps _ _ _ Hx) as (pre & Hpre & Hpx). exists pre. split; [done|].
      eapply Forall_impl; [done|]. by intros ? [->| ->].
    - exists [Base x]. split; [|by repeat constructor].
      rewrite <-(app_nil_r ev). econstructor; [|constructor]. unfold fexec. simpl f_sys.
      destruct x; try done; rewrite Hx; done. }
  exists (pre ++ acts'). split; [by eapply fsteps_app|]. apply Forall_app. split.
  - eapply Forall_impl; [exact Hpx|]. intros []; [intros ->; by left|done..].
  - eapply Forall_impl; [exact Hall|]. intros []; [intros; by right|done..].
Qed.

(** A visit leaves the worker ready or stopped. *)
Definition leaves (wk : worker_state) : Prop := wk = WReady \/ wk = WStopped.

Lemma service_leaves cs t sv cs' t' wk :
  service_step statics cs t sv = Ok (cs', t', inr wk) -> leaves wk.
Proof.
  unfold service_step, begin_record, step_lift, serving, over, leaves. intros Hs.
  repeat case_match; simplify_eq; auto.
Qed.
Lemma begin_leaves cs w t cs' t' wk : visit_begin cs w t = Ok (cs', t', inr wk) -> leaves wk.
Proof.
  unfold visit_begin, serving, over, leaves. intros Hs. repeat case_match; simplify_eq; auto.
Qed.

Lemma service_keeps_client cs t sv cs' t' k :
  service_step statics cs t sv = Ok (cs', t', k) -> cs_client cs' = cs_client cs.
Proof.
  unfold service_step, begin_record, step_lift, serving, over, answer. intros Hs.
  repeat case_match; simplify_eq; done.
Qed.
End ending.

(** ** Properties *)

(** Run without interruption, the steps of a visit end, and have done
    what the visit of [Worker] does, whatever the channel holds: any number of
    records, requests that panic, and undefined behaviour included. *)
Theorem service_is_visit {T} `{Repr T} (statics : Z -> option (ErasedVTable T))
    (cs : chan_state T) (req_word : Z) (t : T) (r : res (chan_state T * T * worker_state)) :
  (exists fuel, visit_steps statics fuel cs req_word t = Some r) <->
  worker_visit statics cs req_word t = r.
Proof.
  split.
  - intros Hr. eapply comes_to_det; [apply visit_comes|exact Hr].
  - intros <-. apply visit_comes.
Qed.
