(* ===== verification/Refinement.v ===== *)
(** * Refinement: the system implements one atomic object

    An abstract machine without bytes, slots, flags or schedules: a property,
    clients that call and return, requests executed in one atomic step each,
    launched closures that interleave with them.  Every execution of the
    system of [System] shows the same calls and returns as an execution of the
    abstract machine, and none reaches undefined behaviour. *)
From S2P Require Import Prelude Slots Serialization Remote Worker Delegation System.
Import header.
Local Open Scope Z_scope.

(** ** What a request does to the property *)

(** Run [p], then go on with [q]. *)
Fixpoint prog_then {T R} (p : prog T unit) (q : prog T R) : prog T R :=
  match p with
  | PRet _ => q
  | PPanic => PPanic
  | PStep upd k => PStep upd (fun t => prog_then (k t) q)
  end.
Fixpoint prog_repeat {T} (n : nat) (p : prog T unit) : prog T (list Z) :=
  match n with O => PRet [] | S n => prog_then p (prog_repeat n p) end.

(** The closure a request carries, as a body whose result is the answer. *)
Definition body {T} (q : rpc T) : option (prog T (list Z)) :=
  match q_pp q, f_run (q_fn q) with
  | CallMutRetUnit, FnMut1 run => Some (prog_repeat (Z.to_nat (q_repeat q)) (run (q_env q)))
  | CallMutOutPtr, FnOut run | Launch, FnOut run => Some (run (q_env q))
  | CallMutArgsOutPtr, FnArgsOut run => Some (run (q_env q) (q_args q))
  | _, _ => None
  end.

(** Bytes of the size the caller reads back, and a value of its type. *)
Definition value_of (l : layout) (bs : list Z) : Prop := zlen bs = l_size l /\ l_value l bs = true.

(** All results of a body are such values. *)
Fixpoint prog_size {T} (l : layout) (p : prog T (list Z)) : Prop :=
  match p with
  | PRet bs => value_of l bs
  | PPanic => True
  | PStep _ k => forall t, prog_size l (k t)
  end.

(** ** The abstract machine *)

Inductive aclient (T : Type) :=
| AIdle
| ACalled (q : rpc T)
| ARunning (q : rpc T) (p : prog T (list Z))   (* launched, [p] still to run *)
| ADone (q : rpc T) (o : option (list Z)).     (* [None]: the launch panicked *)
Arguments AIdle {T}.
Arguments ACalled {T} q.
Arguments ARunning {T} q p.
Arguments ADone {T} q o.

Record astate (T : Type) := {
  a_prop : T;
  a_clients : list (aclient T);
  a_open : bool;                     (* the trustee still serves *)
}.
Arguments a_prop {T} _.
Arguments a_clients {T} _.
Arguments a_open {T} _.

Section spec.
Context {T : Type} `{Repr T}.

Definition set_client (a : astate T) (i : nat) (x : aclient T) (t : T) (o : bool) : astate T :=
  {| a_prop := t; a_clients := <[i := x]> (a_clients a); a_open := o |}.

(** What clients and launched closures do. *)
Inductive cstep : astate T -> list (event T) -> astate T -> Prop :=
| anew a :
    cstep a [] {| a_prop := a_prop a; a_clients := a_clients a ++ [AIdle]; a_open := a_open a |}
| acall a i q :
    a_clients a !! i = Some AIdle ->
    cstep a [ECall i q] (set_client a i (ACalled q) (a_prop a) (a_open a))
| afiber a i q upd k :
    a_clients a !! i = Some (ARunning q (PStep upd k)) ->
    cstep a [] (set_client a i (ARunning q (k (a_prop a))) (upd (a_prop a)) (a_open a))
| afiber_ret a i q bs :
    a_clients a !! i = Some (ARunning q (PRet bs)) ->
    cstep a [] (set_client a i (ADone q (Some bs)) (a_prop a) (a_open a))
| afiber_panic a i q :
    a_clients a !! i = Some (ARunning q PPanic) ->
    cstep a [] (set_client a i (ADone q None) (a_prop a) (a_open a))
| areturn a i q bs :
    a_clients a !! i = Some (ADone q (Some bs)) ->
    cstep a [EReturn i bs] (set_client a i AIdle (a_prop a) (a_open a))
(** After a panicked launch the caller returns with bytes nobody wrote, when
    they happen to be a value of its result type. *)
| areturn_any a i q bs :
    a_clients a !! i = Some (ADone q None) -> value_of (q_out q) bs ->
    cstep a [EReturn i bs] (set_client a i AIdle (a_prop a) (a_open a)).

(** What the trustee does, a request at a time. *)
Inductive tstep : astate T -> astate T -> Prop :=
| aexec a i q p t' bs :
    a_clients a !! i = Some (ACalled q) -> a_open a = true -> q_pp q <> Launch ->
    body q = Some p -> run_prog p (a_prop a) = (t', Returned bs) ->
    tstep a (set_client a i (ADone q (Some bs)) t' true)
| aexec_panic a i q p t' :
    a_clients a !! i = Some (ACalled q) -> a_open a = true -> q_pp q <> Launch ->
    body q = Some p -> run_prog p (a_prop a) = (t', Panicked) ->
    tstep a {| a_prop := t'; a_clients := a_clients a; a_open := false |}
| ainto_inner a i q :
    a_clients a !! i = Some (ACalled q) -> a_open a = true -> q_pp q = IntoInner ->
    tstep a (set_client a i (ADone q (Some (to_bytes (a_prop a)))) (a_prop a) false)
| alaunch a i q p :
    a_clients a !! i = Some (ACalled q) -> a_open a = true -> q_pp q = Launch -> body q = Some p ->
    tstep a (set_client a i (ARunning q p) (a_prop a) true).

Inductive astep : astate T -> list (event T) -> astate T -> Prop :=
| astep_client a ev a' : cstep a ev a' -> astep a ev a'
| astep_trustee a a' : tstep a a' -> astep a [] a'.

Definition csteps := traces cstep.
Definition asteps := traces astep.

Lemma csteps_asteps a evs a' : csteps a evs a' -> asteps a evs a'.
Proof. apply traces_mono, astep_client. Qed.
Lemma asteps_trustee a a' : tstep a a' -> asteps a [] a'.
Proof. intros. by apply traces_one, astep_trustee. Qed.

Definition astart (t : T) : astate T := {| a_prop := t; a_clients := [AIdle]; a_open := true |}.
End spec.

(** ** Programs: lemmas *)
Section programs.
Context {T : Type}.
Implicit Types (p : prog T unit).

Lemma run_prog_then {R} p (q : prog T R) t :
  run_prog (prog_then p q) t =
  match run_prog p t with (t', Returned _) => run_prog q t' | (t', Panicked) => (t', Panicked) end.
Proof. revert t. induction p; intros t; simpl; auto. Qed.

Lemma run_prog_repeat n p t :
  run_prog (prog_repeat n p) t =
  ((repeat_prog n p t).1, exit_map (fun _ => []) (repeat_prog n p t).2).
Proof.
  revert t. induction n as [|n IH]; intros t; simpl; [done|].
  rewrite run_prog_then. destruct (run_prog p t) as [t' [[]|]]; [apply IH|done].
Qed.

Lemma prog_size_run l (p : prog T (list Z)) t t' bs :
  prog_size l p -> run_prog p t = (t', Returned bs) -> value_of l bs.
Proof. revert t. induction p; simpl; intros t Hs; intros; simplify_eq; eauto. Qed.

Lemma to_bytes_value {R} `{Repr R} (r : R) : value_of (layout_of R) (to_bytes r).
Proof. split; [apply to_bytes_len|]. apply bool_decide_true. rewrite of_to_bytes. by eexists. Qed.

Lemma prog_size_map {R} `{Repr R} (p : prog T R) : prog_size (layout_of R) (prog_map to_bytes p).
Proof. induction p; simpl; [apply to_bytes_value|done|done]. Qed.

Lemma prog_size_then l p (q : prog T (list Z)) : prog_size l q -> prog_size l (prog_then p q).
Proof. intros Hq. induction p; simpl; done. Qed.
Lemma prog_size_repeat n p : prog_size (layout_of unit) (prog_repeat n p).
Proof. induction n; simpl; [done|by apply prog_size_then]. Qed.
End programs.

(** ** The simulation relation *)
Section simulation.
Context {T : Type} `{Repr T} (statics : Z -> option (ErasedVTable T)).
Implicit Types (c : ChannelPair) (cs : chan_state T) (q : rpc T) (s : system T) (a : astate T).

(** A request a method can submit: the closure's vtable is in place, the
    record and the result fit their slots. *)
Record request_ok q : Prop := {
  rq_fn : closure_ok (q_fn q);
  rq_env : zlen (q_env q) = f_size (q_fn q);
  rq_args : zlen (q_args q) < 2 ^ 63;
  rq_repeat : 0 <= q_repeat q < u32_modulus;
  rq_linked : statics (f_vtable (q_fn q)) = Some (VTABLE (q_fn q));
  rq_fits : record_fits (q_fn q) (q_args q);
  rq_answer : 0 <= q_size q /\ HEADER_BYTES + q_size q <= SLOT_BYTES;
  rq_body : match q_pp q with
            | IntoInner => q_out q = layout_of T
            | Terminate => False
            | _ => exists p, body q = Some p /\ prog_size (q_out q) p
            end;
}.

Definition action_ok (x : action T) : Prop :=
  match x with
  | Register addr => 0 <= addr /\ addr + SLOT_BYTES < usize_modulus
  | Call _ q => request_ok q
  | _ => True
  end.

Definition req_bit c : bool := ready (load_flags (request c)).
Definition resp_bit c : bool := ready (load_flags (response c)).

Definition holds c q : Prop :=
  record_in statics c (q_pp q) (q_fn q) (q_env q) (q_args q) (q_repeat q).

(** The answer of [q] is in the response slot; only a launch has none. *)
Definition result_in c q (o : option (list Z)) : Prop :=
  match o with
  | Some bs => read_at (response c) HEADER_BYTES (q_size q) = Some bs /\ value_of (q_out q) bs
  | None => q_pp q = Launch
  end.

(** Nothing under way: the bits agree. *)
Record quiet cs : Prop := {
  qt_bits : req_bit (cs_chan cs) = resp_bit (cs_chan cs);
  qt_fibers : cs_fibers cs = [];
  qt_pending : cp_pending_launch (cs_cp cs) = true ->
    cp_launch_req_ready (cs_cp cs) = req_bit (cs_chan cs);
}.

Definition fiber_rel c q b (f : fiber T) (x : aclient T) : Prop :=
  job_req_ready (fb_job f) = b /\
  record_at statics c Launch (q_fn q) (q_env q) (q_args q) (q_repeat q) (job_hdr (fb_job f)) /\
  match fb_state f with
  | FQueued => exists p, body q = Some p /\ prog_size (q_out q) p /\ x = ARunning q p
  | FRunning p => prog_size (q_out q) p /\ x = ARunning q p
  | FWritten => exists o, x = ADone q o /\ result_in c q o
  end.

(** A client that waits with bit [b]. *)
Inductive waiting cs q (b : bool) : aclient T -> Prop :=
| submitted_waiting :
    resp_bit (cs_chan cs) = negb b -> cs_fibers cs = [] ->
    (cp_pending_launch (cs_cp cs) = true -> cp_launch_req_ready (cs_cp cs) = negb b) ->
    waiting cs q b (ACalled q)
| launched_waiting f x :
    resp_bit (cs_chan cs) = negb b -> cs_fibers cs = [f] -> q_pp q = Launch ->
    cs_cp cs = {| cp_pending_launch := true; cp_launch_req_ready := b |} ->
    fiber_rel (cs_chan cs) q b f x -> waiting cs q b x
| answered_waiting o :
    resp_bit (cs_chan cs) = b -> cs_fibers cs = [] ->
    (cp_pending_launch (cs_cp cs) = true -> cp_launch_req_ready (cs_cp cs) = b) ->
    result_in (cs_chan cs) q o -> waiting cs q b (ADone q o).

Definition client_rel cs (x : aclient T) : Prop :=
  match cs_client cs with
  | CIdle => x = AIdle /\ quiet cs
  | CEncoded q => x = ACalled q /\ quiet cs /\ holds (cs_chan cs) q /\ request_ok q
  | CLoaded q b => x = ACalled q /\ quiet cs /\ holds (cs_chan cs) q /\ request_ok q /\
                   b = negb (resp_bit (cs_chan cs))
  | CWaiting q b => req_bit (cs_chan cs) = b /\ count (load_flags (request (cs_chan cs))) = 1 /\
                    holds (cs_chan cs) q /\ request_ok q /\ waiting cs q b x
  | CPolled q => exists o, x = ADone q o /\ quiet cs /\ request_ok q /\ result_in (cs_chan cs) q o
  end.

Definition chan_rel cs (x : aclient T) : Prop := channel_wf (cs_chan cs) /\ client_rel cs x.

(** What the worker's loaded word is still good for: it is the current one,
    or it equals the response bit and no launch is under way. *)
Definition loaded_ok cs (w : Z) : Prop :=
  w = load_flags (request (cs_chan cs)) \/
  (ready w = resp_bit (cs_chan cs) /\ cs_fibers cs = []).

Definition worker_ok s : Prop :=
  match s_worker s with
  | WLoaded i w => exists cs, s_chans s !! i = Some cs /\ loaded_ok cs w
  | _ => True
  end.

Definition is_open (w : worker_state) : bool := match w with WStopped => false | _ => true end.

Record sim s a : Prop := {
  sim_prop : a_prop a = s_prop s;
  sim_open : a_open a = is_open (s_worker s);
  sim_chans : Forall2 chan_rel (s_chans s) (a_clients a);
  sim_worker : worker_ok s;
}.

(** ** The worker's visit *)

(** A visit that finds the bits equal does nothing but forget a launch. *)
Lemma visit_equal cp w r c t :
  ready w = ready r ->
  exists cp', visit statics cp w r c t = inl cp' /\ cp_pending_launch cp' = false.
Proof.
  intros He. unfold visit, launch_gate. rewrite He, Bool.eqb_reflx.
  destruct cp as [[] l]; simpl; by eexists.
Qed.

(** The response of an executed body, as the flow of the worker. *)
Definition served_ok c q (b : bool) (fl : flow T (served T)) cp (out : T * exit (list Z)) : Prop :=
  match out with
  | (t', Returned bs) => exists m,
      fl = Next {| sv_prop := t'; sv_chan := set_response c m; sv_cp := cp; sv_jobs := [];
                   sv_deferred := false |} /\
      zlen m = SLOT_BYTES /\ read_at m HEADER_BYTES (q_size q) = Some bs /\ value_of (q_out q) bs
  | (t', Panicked) =>
      fl = Unwind {| sv_prop := t'; sv_chan := c; sv_cp := cp; sv_jobs := []; sv_deferred := false |}
  end.

Lemma run_out_served c q b cp t (p : prog T (list Z)) :
  channel_ok c -> HEADER_BYTES + q_size q <= SLOT_BYTES -> prog_size (q_out q) p ->
  served_ok c q b (run_out (start_state c cp t) p) cp (run_prog p t).
Proof.
  intros Hc Hsz Hps. unfold served_ok. destruct (run_prog p t) as [t' [bs|]] eqn:Hp.
  - pose proof (prog_size_run _ _ _ _ _ Hps Hp) as Hbs.
    destruct (run_out_returned (start_state c cp t) p t' bs) as (m & Hm & ->);
      [done|done|unfold fits_response; rewrite (proj1 Hbs); exact Hsz|].
    exists m. split; [done|]. simpl in Hm. split; [|split; [|done]].
    + rewrite (write_at_zlen _ _ _ _ Hm). apply Hc.
    + apply (read_write_same _ _ _ _ _ Hm). symmetry. apply Hbs.
  - by rewrite (run_out_panicked (start_state c cp t) p t' Hp).
Qed.

Lemma read_nothing m : HEADER_BYTES <= zlen m -> read_at m HEADER_BYTES 0 = Some [].
Proof.
  unfold read_at, HEADER_BYTES. intros Hm. replace (4 + 0 <=? zlen m) with true by (symmetry; zbool; lia).
  done.
Qed.

Lemma exec_body c q b cp t p hdr :
  request_ok q -> channel_ok c -> q_pp q <> Launch -> body q = Some p ->
  record_at statics c (q_pp q) (q_fn q) (q_env q) (q_args q) (q_repeat q) hdr ->
  served_ok c q b (exec_record statics hdr b (start_state c cp t)) cp (run_prog p t).
Proof.
  intros Hq Hc Hnl Hb Hrec. pose proof (rq_body _ Hq) as Hbody. unfold body in *.
  destruct (q_pp q) eqn:Hpp; try done; destruct (f_run (q_fn q)) eqn:Hrun; try done;
    destruct Hbody as (p' & Hp' & Hps); simplify_eq.
  - rewrite (exec_batch _ _ _ _ _ _ _ _ _ _ _ Hrec Hrun). unfold served_ok.
    rewrite run_prog_repeat. destruct (repeat_prog _ _ _) as [t' [[]|]] eqn:Hrp; simpl; [|done].
    exists (response c). split; [by destruct c|]. split; [apply Hc|].
    assert (value_of (q_out q) []) as Hv.
    { eapply (prog_size_run _ _ t t' []); [exact Hps|]. by rewrite run_prog_repeat, Hrp. }
    split; [|done]. unfold q_size. rewrite <-(proj1 Hv). apply read_nothing. by rewrite (proj2 Hc).
  - rewrite (exec_out _ _ _ _ _ _ _ _ _ _ _ Hrec Hrun). apply run_out_served; [done|apply Hq|done].
  - rewrite (exec_args _ _ _ _ _ _ _ _ _ _ _ Hrec Hrun). apply run_out_served; [done|apply Hq|done].
Qed.

(** What the answer leaves in the channel. *)
Lemma answered_channel c q m b bs :
  channel_wf c -> zlen m = SLOT_BYTES -> read_at m HEADER_BYTES (q_size q) = Some bs ->
  value_of (q_out q) bs ->
  let c' := set_response c (store_flags m (pack_ready_count b 1)) in
  channel_wf c' /\ resp_bit c' = b /\ result_in c' q (Some bs) /\
  (forall o n, read_at (request c') o n = read_at (request c) o n).
Proof.
  intros [[Hr _] Hb] Hm Hbs Hv. cbv zeta.
  assert (HEADER_BYTES <= zlen m) by (rewrite Hm; done).
  split; [split; [split; [done|]|done]|].
  - simpl. by rewrite store_flags_zlen.
  - unfold resp_bit, result_in. simpl. rewrite load_store_flags by apply pack_range.
    rewrite ready_pack, read_store_flags by done. done.
Qed.

Lemma holds_ext c c' q :
  cp_base c' = cp_base c ->
  (forall o k, HEADER_BYTES <= o -> read_at (request c') o k = read_at (request c) o k) ->
  holds c q -> holds c' q.
Proof. intros Hb Hs [hdr Hrec]. exists hdr. by eapply record_at_ext. Qed.

(** How a visit shows in the abstract machine, to a client in state [x]. *)
Definition matched (x : aclient T) (t : T) (out : chan_state T * T * worker_state) : Prop :=
  let '(cs', t', wk) := out in
  (forall i w, wk <> WLoaded i w) /\
  forall a i, a_clients a !! i = Some x -> a_prop a = t -> a_open a = true ->
  exists x', asteps a [] (set_client a i x' t' (is_open wk)) /\ chan_rel cs' x'.

(** A client whose request waits to be served. *)
Record submitted_at cs q (b : bool) : Prop := {
  sb_wf : channel_wf (cs_chan cs);
  sb_client : cs_client cs = CWaiting q b;
  sb_bit : req_bit (cs_chan cs) = b;
  sb_count : count (load_flags (request (cs_chan cs))) = 1;
  sb_holds : holds (cs_chan cs) q;
  sb_ok : request_ok q;
  sb_resp : resp_bit (cs_chan cs) = negb b;
  sb_fibers : cs_fibers cs = [];
  sb_pending : cp_pending_launch (cs_cp cs) = true -> cp_launch_req_ready (cs_cp cs) = negb b;
}.

(** Such a visit executes the record and leaves. *)
Lemma visit_submitted_flow cs q b t :
  submitted_at cs q b ->
  exists cp hdr, cp_pending_launch cp = false /\
    record_at statics (cs_chan cs) (q_pp q) (q_fn q) (q_env q) (q_args q) (q_repeat q) hdr /\
    worker_visit statics cs (load_flags (request (cs_chan cs))) t =
    leave_visit cs (flow_bind (exec_record statics hdr b (start_state (cs_chan cs) cp t))
                      (fun sv => Next (respond b 1 sv))).
Proof.
  intros [Hwf _ Hrb Hcnt [hdr Hrec] Hq Hresp _ Hpend].
  destruct (gate_opens (cs_cp cs) b Hpend) as (cp' & Hg & Hcp').
  exists cp', hdr. split; [done|]. split; [done|]. unfold worker_visit.
  by rewrite (visit_record statics _ _ _ _ _ _ _ _ _ _ _ _ t Hrec Hrb Hresp Hcnt Hg).
Qed.

(** The bits, once answered. *)
Lemma answered_rel cs c' cp q b bs :
  submitted_at cs q b -> channel_wf c' -> resp_bit c' = b ->
  result_in c' q (Some bs) -> cp_pending_launch cp = false ->
  cp_base c' = cp_base (cs_chan cs) -> request c' = request (cs_chan cs) ->
  chan_rel {| cs_chan := c'; cs_cp := cp; cs_client := cs_client cs; cs_fibers := cs_fibers cs ++ [] |}
    (ADone q (Some bs)).
Proof.
  intros [Hwf Hcl Hrb Hcnt Hh Hq Hresp Hfs Hpend] Hwf' Hb' Hres Hcp Hba Hreq.
  split; [done|]. unfold client_rel. simpl. rewrite Hcl, Hfs. unfold req_bit in *. rewrite Hreq.
  split; [done|]. split; [done|]. split; [eapply holds_ext; [done| |done]; by rewrite Hreq|].
  split; [done|]. constructor; simpl; try done. by rewrite Hcp.
Qed.

Lemma visit_launch cs q b t :
  submitted_at cs q b -> q_pp q = Launch ->
  exists out, worker_visit statics cs (load_flags (request (cs_chan cs))) t = Ok out /\
    matched (ACalled q) t out.
Proof.
  intros Hs Hl. destruct (visit_submitted_flow cs q b t Hs) as (cp & hdr & Hcp & Hrec & ->).
  destruct Hs as [Hwf Hcl Hrb Hcnt Hh Hq Hresp Hfs Hpend].
  pose proof (rq_body _ Hq) as Hb. rewrite Hl in Hrec, Hb. destruct Hb as (p & Hb & Hps).
  rewrite (exec_launch _ _ _ _ _ _ _ _ _ _ Hrec). eexists. split; [reflexivity|].
  split; [done|]. intros a i Ha Ht Ho. exists (ARunning q p). simpl. split.
  { rewrite <-Ht. apply asteps_trustee. by eapply alaunch. }
  split; [done|]. unfold client_rel. simpl. rewrite Hcl, Hfs. simpl.
  split; [done|]. split; [done|]. split; [done|]. split; [done|].
  eapply launched_waiting; [done|reflexivity|done|done|]. split; [done|]. split; [done|].
  by exists p.
Qed.

Lemma visit_into_inner cs q b t :
  submitted_at cs q b -> q_pp q = IntoInner ->
  exists out, worker_visit statics cs (load_flags (request (cs_chan cs))) t = Ok out /\
    matched (ACalled q) t out.
Proof.
  intros Hs Hl. destruct (visit_submitted_flow cs q b t Hs) as (cp & hdr & Hcp & Hrec & ->).
  pose proof Hs as [Hwf _ Hrb _ _ Hq _ _ _].
  pose proof (rq_body _ Hq) as Hb. rewrite Hl in Hrec, Hb.
  unfold exec_record. rewrite (ra_property _ _ _ _ _ _ _ _ Hrec). simpl sv_chan. simpl sv_prop.
  destruct (write_out_fits (cs_chan cs) (to_bytes t)) as (m & Hm & Hwo); [apply Hwf| |].
  { unfold fits_response. rewrite to_bytes_len. pose proof (proj2 (rq_answer _ Hq)) as Ha.
    unfold q_size in Ha. by rewrite Hb in Ha. }
  rewrite Hwo. eexists. split; [reflexivity|]. split; [done|]. intros a i Ha Ht Ho.
  exists (ADone q (Some (to_bytes t))). split.
  { simpl. rewrite <-Ht. apply asteps_trustee. by eapply ainto_inner. }
  simpl. rewrite set_response_twice. unfold req_bit in Hrb. rewrite Hrb.
  destruct (answered_channel (cs_chan cs) q m b (to_bytes t)) as (Hwf' & Hb' & Hres & _); [done| | | |].
  - rewrite (write_at_zlen _ _ _ _ Hm). apply Hwf.
  - apply (read_write_same _ _ _ _ _ Hm). unfold q_size. rewrite Hb. symmetry. apply to_bytes_len.
  - rewrite Hb. apply to_bytes_value.
  - by eapply answered_rel.
Qed.

Lemma visit_body cs q b t p :
  submitted_at cs q b -> q_pp q <> Launch -> body q = Some p ->
  exists out, worker_visit statics cs (load_flags (request (cs_chan cs))) t = Ok out /\
    matched (ACalled q) t out.
Proof.
  intros Hs Hl Hb. destruct (visit_submitted_flow cs q b t Hs) as (cp & hdr & Hcp & Hrec & ->).
  pose proof Hs as [Hwf Hcl Hrb Hcnt Hh Hq Hresp Hfs Hpend].
  pose proof (exec_body (cs_chan cs) q b cp t p hdr Hq (proj1 Hwf) Hl Hb Hrec) as Hx.
  unfold served_ok in Hx. destruct (run_prog p t) as [t' [bs|]] eqn:Hp.
  - destruct Hx as (m & -> & Hm & Hbs & Hv). eexists. split; [reflexivity|]. split; [done|].
    intros a i Ha Ht Ho. exists (ADone q (Some bs)). split.
    { subst t. apply asteps_trustee. by eapply aexec. }
    simpl. rewrite set_response_twice. change (as_u32 1) with 1.
    destruct (answered_channel (cs_chan cs) q m b bs) as (Hwf' & Hb' & Hres & _); [done..|].
    by eapply answered_rel.
  - rewrite Hx. eexists. split; [reflexivity|]. split; [done|].
    intros a i Ha Ht Ho. exists (ACalled q). split.
    { subst t. apply asteps_trustee. unfold set_client. rewrite list_insert_id by done.
      by eapply aexec_panic. }
    split; [done|]. unfold client_rel. simpl. rewrite Hcl, Hfs.
    split; [done|]. split; [done|]. split; [done|]. split; [done|].
    constructor; simpl; try done. by rewrite Hcp.
Qed.

Lemma set_client_same a i x : a_clients a !! i = Some x -> set_client a i x (a_prop a) (a_open a) = a.
Proof. intros Hx. unfold set_client. rewrite list_insert_id by done. by destruct a. Qed.

(** Clearing the pending flag is harmless unless a launch is under way. *)
Lemma clear_pending_rel cs cp x :
  chan_rel cs x -> cs_fibers cs = [] -> cp_pending_launch cp = false -> chan_rel (with_cp cs cp) x.
Proof.
  intros [Hwf Hc] Hf Hp. split; [done|]. unfold client_rel in *. simpl.
  assert (Hqt : quiet cs -> quiet (with_cp cs cp)).
  { intros [Hb _ _]. constructor; simpl; [done|done|by rewrite Hp]. }
  destruct (cs_client cs); [by intuition auto|by intuition auto|by intuition auto| |];
    [|destruct Hc as (o & ? & ? & ? & ?); exists o; by auto].
  destruct Hc as (Hb & Hn & Hh & Hq & Hw). split; [done|]. split; [done|]. split; [done|].
  split; [done|]. destruct Hw as [Hr _ _|f x Hr Hfs _ _ _|o Hr _ _ Hres].
  - constructor; simpl; [done|done|by rewrite Hp].
  - rewrite Hf in Hfs. done.
  - constructor; simpl; [done|done|by rewrite Hp|done].
Qed.

Lemma idle_visit cs x w t :
  chan_rel cs x -> cs_fibers cs = [] -> ready w = resp_bit (cs_chan cs) ->
  exists out, worker_visit statics cs w t = Ok out /\ matched x t out.
Proof.
  intros Hc Hf Hw. unfold worker_visit.
  destruct (visit_equal (cs_cp cs) w (load_flags (response (cs_chan cs))) (cs_chan cs) t Hw)
    as (cp & -> & Hp).
  eexists. split; [reflexivity|]. split; [done|]. intros a i Ha Ht Ho. exists x. simpl.
  rewrite <-Ht, <-Ho, set_client_same by done. split; [constructor|by apply clear_pending_rel].
Qed.

(** A visit during a launch leaves everything as it is. *)
Lemma pending_visit cs x t b :
  chan_rel cs x -> req_bit (cs_chan cs) = b -> resp_bit (cs_chan cs) = negb b ->
  cs_cp cs = {| cp_pending_launch := true; cp_launch_req_ready := b |} ->
  exists out, worker_visit statics cs (load_flags (request (cs_chan cs))) t = Ok out /\ matched x t out.
Proof.
  intros Hc Hb Hr Hcp. unfold worker_visit, visit, launch_gate.
  unfold req_bit, resp_bit in *. rewrite Hb, Hr, Hcp. simpl.
  rewrite Bool.eqb_reflx. replace (Bool.eqb b (negb b)) with false by (by destruct b). simpl.
  eexists. split; [reflexivity|]. split; [done|]. intros a i Ha Ht Ho. exists x. simpl.
  rewrite <-Ht, <-Ho, set_client_same by done. split; [constructor|].
  rewrite Ho, <-Hcp. by destruct cs.
Qed.

(** Every visit, whatever the word the worker holds is worth. *)
Lemma visit_sim cs x w t :
  chan_rel cs x -> loaded_ok cs w ->
  exists out, worker_visit statics cs w t = Ok out /\ matched x t out.
Proof.
  intros Hc Hw. destruct Hw as [->|[Hw Hf]]; [|by apply idle_visit].
  pose proof Hc as [Hwf Hcl]. unfold client_rel in Hcl.
  assert (Hqt : quiet cs -> exists out, worker_visit statics cs (load_flags (request (cs_chan cs))) t
            = Ok out /\ matched x t out).
  { intros [Hb Hf _]. by apply idle_visit. }
  destruct (cs_client cs) as [|q|q b|q b|q] eqn:Hcs;
    [by apply Hqt, Hcl|by apply Hqt, Hcl|by apply Hqt, Hcl| |by destruct Hcl as (o & _ & ? & _); auto].
  destruct Hcl as (Hb & Hn & Hh & Hq & Hw). destruct Hw as [Hr Hf Hp|f x Hr Hf Hl Hcp Hfb|o Hr Hf Hp Hres].
  - assert (Hs : submitted_at cs q b) by done.
    pose proof (rq_body _ Hq) as Hbody.
    destruct (decide (q_pp q = Launch)); [by eapply visit_launch|].
    destruct (decide (q_pp q = IntoInner)); [by eapply visit_into_inner|].
    destruct (body q) as [p|] eqn:Hbq; [by eapply visit_body|].
    destruct (q_pp q); try done; by destruct Hbody as (? & ? & _).
  - by eapply pending_visit.
  - apply idle_visit; [done|done|]. unfold req_bit in Hb. by rewrite Hb, Hr.
Qed.

(** ** The client's own steps *)

Lemma quiet_client cs x : quiet cs -> quiet (with_client cs x).
Proof. by intros []; constructor. Qed.

(** The caller of a launch that panicked reads bytes that are no value. *)
Definition reads_garbage (x : aclient T) : Prop := exists q, x = ADone q None /\ q_pp q = Launch.

Lemma client_step_sim cs x m :
  chan_rel cs x -> client_step cs = Some m ->
  (reads_garbage x /\ m = UB not_a_value) \/
  exists cs' o, m = Ok (cs', o) /\ (forall w, loaded_ok cs w -> loaded_ok cs' w) /\
  forall a i, a_clients a !! i = Some x ->
  exists x', csteps a (match o with Some bs => [EReturn i bs] | None => [] end)
               (set_client a i x' (a_prop a) (a_open a)) /\ chan_rel cs' x'.
Proof.
  intros [Hwf Hcl] Hm. unfold client_step, client_rel in *.
  destruct (cs_client cs) as [|q|q b|q b|q] eqn:Hcs; simplify_eq.
  - destruct Hcl as (-> & Hqt & Hh & Hq). right. eexists _, _. split; [reflexivity|].
    split; [done|]. intros a i Ha. exists (ACalled q). rewrite set_client_same by done.
    split; [constructor|]. split; [done|]. unfold client_rel. simpl.
    split_and!; [done|by apply quiet_client|done..].
  - destruct Hcl as (-> & [Hbits Hf Hp] & Hh & Hq & Hb). right. eexists _, _. split; [reflexivity|].
    destruct (signal_spec (cs_chan cs) Hwf) as (_ & Hwf2 & Hb2 & Hr2 & Hq2 & Hn2 & Hsame).
    unfold signal in *. unfold resp_bit in Hb. rewrite <-Hb in *. simpl in *.
    split.
    + intros w [->|[Hw _]]; right; (split; [|done]); [|exact Hw].
      unfold req_bit in Hbits. simpl. by rewrite Hbits.
    + intros a i Ha. exists (ACalled q). rewrite set_client_same by done.
      split; [constructor|]. split; [done|]. split; [done|]. split; [done|].
      split; [by eapply holds_ext|]. split; [done|]. constructor; simpl; [|done|].
      * unfold resp_bit. simpl. by rewrite Hb, negb_involutive.
      * intros Hpp. rewrite (Hp Hpp), Hbits. unfold resp_bit. by rewrite Hb, negb_involutive.
  - destruct Hcl as (Hb & Hn & Hh & Hq & Hw). right. eexists _, _. split; [reflexivity|].
    split; [intros w; by case_match|]. intros a i Ha. exists x. rewrite set_client_same by done.
    split; [constructor|]. unfold poll. fold (resp_bit (cs_chan cs)).
    destruct (Bool.eqb_spec (resp_bit (cs_chan cs)) b) as [E|E];
      [|split; [done|]; unfold client_rel; by rewrite Hcs].
    split; [done|]. unfold client_rel. simpl.
    destruct Hw as [Hr Hf Hp|f x Hr Hf Hl Hcp Hfb|o Hr Hf Hp Hres].
    1,2: rewrite Hr in E; by destruct b.
    exists o. split; [done|]. split; [|done]. constructor; simpl; [by rewrite Hb|done|by rewrite Hb].
  - destruct Hcl as (o & -> & Hqt & Hq & Hres).
    assert (exists bs, read_at (response (cs_chan cs)) HEADER_BYTES (q_size q) = Some bs) as [bs Hbs].
    { unfold read_at. rewrite (proj2 (proj1 Hwf)). destruct (rq_answer _ Hq).
      replace (_ && _ && _) with true; [by eexists|]. symmetry. zbool. unfold HEADER_BYTES in *. lia. }
    unfold collect_bytes. fold (q_size q). rewrite Hbs. simpl.
    destruct (l_value (q_out q) bs) eqn:Hv; simpl.
    2: { left. destruct o as [bs'|]; [|split; [by exists q|done]].
         destruct Hres as [Hres [_ Hval]]. rewrite Hres in Hbs. injection Hbs as ->. congruence. }
    right. exists (with_client cs CIdle), (Some bs).
    split; [done|]. split; [done|]. intros a i Ha. exists AIdle.
    split; [|by split; [|split; [|apply quiet_client]]].
    apply traces_one. destruct o as [bs'|]; simpl in Hres.
    + destruct Hres as [Hres _]. rewrite Hres in Hbs. simplify_eq. by eapply areturn.
    + eapply areturn_any; [done|]. split; [|done]. exact (read_at_length _ _ _ _ Hbs).
Qed.

(** ** The fibers' steps *)

(** A fiber exists only while its client waits for it, and then alone. *)
Lemma fiber_alone cs x k f :
  chan_rel cs x -> cs_fibers cs !! k = Some f ->
  exists q b, k = 0%nat /\ cs_client cs = CWaiting q b /\ req_bit (cs_chan cs) = b /\
    count (load_flags (request (cs_chan cs))) = 1 /\ holds (cs_chan cs) q /\ request_ok q /\
    resp_bit (cs_chan cs) = negb b /\ cs_fibers cs = [f] /\ q_pp q = Launch /\
    cs_cp cs = {| cp_pending_launch := true; cp_launch_req_ready := b |} /\
    fiber_rel (cs_chan cs) q b f x.
Proof.
  intros [_ Hcl] Hk. unfold client_rel in Hcl.
  assert (Hqt : quiet cs -> False) by (intros [_ Hf _]; by rewrite Hf in Hk).
  destruct (cs_client cs) as [|q|q b|q b|q] eqn:Hcs;
    [by destruct Hqt; apply Hcl|by destruct Hqt; apply Hcl|by destruct Hqt; apply Hcl| |
     by destruct Hqt; destruct Hcl as (o & _ & ? & _)].
  destruct Hcl as (Hb & Hn & Hh & Hq & Hw). destruct Hw as [Hr Hf Hp|f' x Hr Hf Hl Hcp Hfb|o Hr Hf Hp Hres].
  - by rewrite Hf in Hk.
  - rewrite Hf in Hk. destruct k; [|done]. injection Hk as ->. by exists q, b.
  - by rewrite Hf in Hk.
Qed.

(** A client that is not in its wait loop has its channel for itself. *)
Lemma quiet_outside cs x :
  chan_rel cs x -> (forall q b, cs_client cs <> CWaiting q b) -> quiet cs.
Proof.
  intros [_ Hcl] Hc. unfold client_rel in Hcl.
  destruct (cs_client cs) as [|q|q b|q b|q]; try apply Hcl;
    [by destruct (Hc q b)|by destruct Hcl as (o & _ & ? & _)].
Qed.

(** The client keeps waiting while its fiber runs. *)
Lemma still_launched cs c' f' q b x' :
  cs_client cs = CWaiting q b -> channel_wf c' -> cp_base c' = cp_base (cs_chan cs) ->
  request c' = request (cs_chan cs) -> req_bit (cs_chan cs) = b ->
  count (load_flags (request (cs_chan cs))) = 1 -> holds (cs_chan cs) q -> request_ok q ->
  resp_bit c' = negb b -> q_pp q = Launch ->
  cs_cp cs = {| cp_pending_launch := true; cp_launch_req_ready := b |} ->
  fiber_rel c' q b f' x' -> chan_rel (with_fibers (with_chan cs c') [f']) x'.
Proof.
  intros Hcs Hwf Hba Hreq Hb Hn Hh Hq Hr Hl Hcp Hf. split; [done|]. unfold client_rel. simpl.
  unfold req_bit in *. rewrite Hcs, Hreq. split_and!; [done..| |done|].
  - eapply holds_ext; [done| |done]. by rewrite Hreq.
  - by eapply launched_waiting.
Qed.

Definition next_fibers (fs : list (fiber T)) (k : nat) (o : option (fiber T)) : list (fiber T) :=
  match o with Some f => <[k := f]> fs | None => delete k fs end.

(** What a fiber's step must achieve. *)
Definition fiber_goes_through cs (f : fiber T) (x : aclient T) (k : nat) (t : T) : Prop :=
  exists c' t' o, fiber_step statics (cs_chan cs) t f = Ok (c', t', o) /\
    let cs' := with_fibers (with_chan cs c') (next_fibers (cs_fibers cs) k o) in
    (forall w, loaded_ok cs w -> loaded_ok cs' w) /\
    forall a i, a_clients a !! i = Some x -> a_prop a = t ->
    exists x', csteps a [] (set_client a i x' t' (a_open a)) /\ chan_rel cs' x'.

(** It is enough to say what the fiber leaves; the request slot is not its. *)
Lemma fiber_goes cs f x t c' t' o x' :
  cs_fibers cs = [f] -> fiber_step statics (cs_chan cs) t f = Ok (c', t', o) ->
  request c' = request (cs_chan cs) ->
  (forall a i, a_clients a !! i = Some x -> a_prop a = t ->
     csteps a [] (set_client a i x' t' (a_open a))) ->
  chan_rel (with_fibers (with_chan cs c') (next_fibers [f] 0 o)) x' ->
  fiber_goes_through cs f x 0 t.
Proof.
  intros Hf Hstep Hreq Ha Hc. exists c', t', o. split; [done|]. cbv zeta. rewrite Hf. split.
  - intros w [->|[_ Hnf]]; [left; simpl; by rewrite Hreq|by rewrite Hnf in Hf].
  - intros a i Hx Ht. exists x'. auto.
Qed.

Lemma job_start_body cs q j p :
  q_pp q = Launch -> body q = Some p ->
  record_at statics (cs_chan cs) Launch (q_fn q) (q_env q) (q_args q) (q_repeat q) (job_hdr j) ->
  job_start statics (cs_chan cs) j = Ok p.
Proof.
  intros Hl Hb Hrec. unfold body in Hb. rewrite Hl in Hb.
  destruct (f_run (q_fn q)) as [|run|] eqn:Hrun; simplify_eq.
  destruct j. by eapply job_start_record.
Qed.

(** The result is written. *)
Lemma fiber_writes cs x j bs t :
  chan_rel cs x -> cs_fibers cs = [{| fb_job := j; fb_state := FRunning (PRet bs) |}] ->
  fiber_goes_through cs {| fb_job := j; fb_state := FRunning (PRet bs) |} x 0 t.
Proof.
  intros Hc Hf. pose proof Hc as [[[Hq' Hr'] Hba] _].
  destruct (fiber_alone _ _ 0 _ Hc ltac:(by rewrite Hf)) as
    (q & b & _ & Hcs & Hb & Hn & Hh & Hq & Hr & _ & Hl & Hcp & (Hj & Hrec & Hps & ->)).
  simpl in Hj, Hrec, Hps.
  destruct (write_out_fits (cs_chan cs) bs) as (m & Hm & Hwo); [by split| |].
  { unfold fits_response. rewrite (proj1 Hps). apply Hq. }
  eapply (fiber_goes _ _ _ _ _ _ _ (ADone q (Some bs))); [done| | | |].
  - unfold fiber_step. simpl. by rewrite Hwo.
  - done.
  - intros a i Ha <-. by eapply traces_one, afiber_ret.
  - simpl. eapply still_launched; try done.
    + split; [split; [done|]|done]. simpl. by rewrite (write_at_zlen _ _ _ _ Hm).
    + unfold resp_bit. simpl. by rewrite (load_flags_write _ _ _ _ Hm).
    + split; [done|]. split; [by eapply record_at_ext; [| |exact Hrec]|]. exists (Some bs).
      split; [done|]. simpl. split; [|done]. apply (read_write_same _ _ _ _ _ Hm). symmetry. apply Hps.
Qed.

(** The completion guard drops. *)
Lemma fiber_answers cs x j t :
  chan_rel cs x -> cs_fibers cs = [{| fb_job := j; fb_state := FWritten |}] ->
  fiber_goes_through cs {| fb_job := j; fb_state := FWritten |} x 0 t.
Proof.
  intros Hc Hf. pose proof Hc as [[[Hq' Hr'] Hba] _].
  destruct (fiber_alone _ _ 0 _ Hc ltac:(by rewrite Hf)) as
    (q & b & _ & Hcs & Hb & Hn & Hh & Hq & Hr & _ & Hl & Hcp & (Hj & Hrec & o & -> & Hres)).
  simpl in Hj. eapply (fiber_goes _ _ _ _ _ _ _ (ADone q o)); [done|reflexivity|done| |].
  - intros a i Ha <-. rewrite set_client_same by done. constructor.
  - simpl. rewrite Hj. unfold completion_guard_drop.
    assert (HEADER_BYTES <= zlen (response (cs_chan cs))) by (rewrite Hr'; done).
    split; [split; [split; [done|]|done]|]; [simpl; by rewrite store_flags_zlen|].
    unfold client_rel. simpl. rewrite Hcs.
    split_and!; [done|done|by eapply holds_ext; [| |exact Hh]|done|].
    constructor; simpl; try done.
    + unfold resp_bit. simpl. rewrite load_store_flags by apply pack_range. apply ready_pack.
    + by rewrite Hcp.
    + destruct o as [bs|]; simpl in *; [|done]. destruct Hres. by rewrite read_store_flags.
Qed.

Lemma fiber_step_sim cs x k f t :
  chan_rel cs x -> cs_fibers cs !! k = Some f -> fiber_goes_through cs f x k t.
Proof.
  intros Hc Hk. pose proof Hc as [Hwf _].
  destruct (fiber_alone _ _ _ _ Hc Hk) as
    (q & b & -> & Hcs & Hb & Hn & Hh & Hq & Hr & Hf & Hl & Hcp & (Hj & Hrec & Hst)).
  destruct f as [j [|[bs| |upd kk]|]]; [|by apply fiber_writes| | |by apply fiber_answers].
  - (* the job starts *)
    destruct Hst as (p & Hbd & Hps & ->).
    eapply (fiber_goes _ _ _ _ _ _ _ (ARunning q p)); [done| | | |].
    + unfold fiber_step. simpl. by rewrite (job_start_body cs q j p).
    + done.
    + intros a i Ha <-. rewrite set_client_same by done. constructor.
    + by eapply still_launched.
  - (* it panics *)
    destruct Hst as (Hps & ->).
    eapply (fiber_goes _ _ _ _ _ _ _ (ADone q None)); [done|reflexivity|done| |].
    + intros a i Ha <-. by eapply traces_one, afiber_panic.
    + eapply still_launched; try done. split; [done|]. split; [done|]. by exists None.
  - (* one access to the property *)
    destruct Hst as (Hps & ->).
    eapply (fiber_goes _ _ _ _ _ _ _ (ARunning q (kk t))); [done|reflexivity|done| |].
    + intros a i Ha <-. by eapply traces_one, afiber.
    + by eapply still_launched.
Qed.

(** ** A call begins *)

Lemma call_sim cs x q :
  chan_rel cs x -> cs_client cs = CIdle -> request_ok q ->
  exists c, put_request (cs_chan cs) q = Ok c /\ x = AIdle /\
    let cs' := with_client (with_chan cs c) (CEncoded q) in
    (forall w, loaded_ok cs w -> loaded_ok cs' w) /\ chan_rel cs' (ACalled q).
Proof.
  intros [Hwf Hcl] Hcs Hq. unfold client_rel in Hcl. rewrite Hcs in Hcl.
  destruct Hcl as (-> & [Hbits Hf Hp]). destruct Hq as [HF He Ha Hn Hv Hfit Hsz Hb] eqn:E.
  destruct (submit_fits statics (cs_chan cs) (q_pp q) (q_fn q) (q_env q) (q_args q) (q_repeat q))
    as (c & Hput & (Hwf' & Hba & Hresp & Hreq & Hrec)); [done..|].
  exists c. split; [done|]. split; [done|]. split.
  - intros w [->|[Hw _]]; [left; simpl; by rewrite Hreq|right; split; [|done]].
    unfold resp_bit. simpl. by rewrite Hresp.
  - split; [done|]. unfold client_rel. simpl. split_and!; [done| |done|done].
    unfold req_bit, resp_bit in *.
    constructor; unfold req_bit, resp_bit; simpl; rewrite ?Hreq, ?Hresp; done.
Qed.

(** ** The whole system *)

Lemma sim_lookup s a i cs :
  sim s a -> s_chans s !! i = Some cs -> exists x, a_clients a !! i = Some x /\ chan_rel cs x.
Proof. intros [_ _ Hf _] Hi. by eapply Forall2_lookup_l. Qed.

Lemma sim_update s a i cs cs' x' t o :
  sim s a -> s_chans s !! i = Some cs -> (forall w, loaded_ok cs w -> loaded_ok cs' w) ->
  chan_rel cs' x' -> o = a_open a ->
  sim {| s_prop := t; s_chans := <[i := cs']> (s_chans s); s_drained := s_drained s;
         s_worker := s_worker s |} (set_client a i x' t o).
Proof.
  intros [Hp Ho Hf Hw] Hi Hl Hc ->. constructor; simpl; [done|done|by apply Forall2_insert|].
  unfold worker_ok in *. simpl. destruct (s_worker s) as [|j w|]; try done.
  destruct Hw as (csj & Hj & Hlj). destruct (decide (j = i)) as [->|Hne].
  - rewrite Hi in Hj. injection Hj as ->. exists cs'. split; [|by apply Hl].
    apply list_lookup_insert_eq. by eapply lookup_lt_Some.
  - exists csj. by rewrite list_lookup_insert_ne.
Qed.

Lemma fresh_chan_rel addr :
  0 <= addr -> addr + SLOT_BYTES < usize_modulus -> chan_rel (fresh_chan addr) AIdle.
Proof.
  intros Ha Hb. split; [split; [apply ChannelPair_default_ok|done]|]. split; [done|].
  by constructor.
Qed.

(** An action that goes through, matched by the abstract machine. *)
Definition goes_through (run : astate T -> list (event T) -> astate T -> Prop) a
    (m : res (system T * list (event T))) : Prop :=
  exists s' ev a', m = Ok (s', ev) /\ run a ev a' /\ sim s' a'.

(** The only one that does not: client [i] reads what a panicked launch left. *)
Definition garbage_read a (x : action T) {A} (m : res A) : Prop :=
  m = UB not_a_value /\ exists i y, x = ClientStep i /\ a_clients a !! i = Some y /\ reads_garbage y.

Lemma garbage_not_ok a x {A} (r : A) : ~ garbage_read a x (Ok r).
Proof. by intros []. Qed.
Lemma garbage_by_client a x {A} (m : res A) : (forall i, x <> ClientStep i) -> ~ garbage_read a x m.
Proof. intros Hx (_ & i & y & -> & _). by apply (Hx i). Qed.

(** Selecting the channel an action works on. *)
Ltac on_channel Hm Hi cs :=
  cbn [exec mbind option_bind] in Hm;
  match type of Hm with
  | context [s_chans ?s !! ?i] =>
      destruct (s_chans s !! i) as [cs|] eqn:Hi; [cbn [mbind option_bind] in Hm|done]
  end.

Lemma register_sim s a addr m :
  sim s a -> action_ok (Register addr) -> exec statics s (Register addr) = Some m -> goes_through csteps a m.
Proof.
  intros [Hp Ho Hf Hw] [Hlo Hhi] Hm. cbn [exec] in Hm. apply (inj Some) in Hm as <-.
  do 3 eexists. split; [reflexivity|]. split; [apply traces_one, anew|].
  constructor; simpl; [done|done| |].
  { apply Forall2_app; [done|]. constructor; [by apply fresh_chan_rel|constructor]. }
  unfold worker_ok in *. simpl. destruct (s_worker s); try done.
  destruct Hw as (cs & Hi & Hl). exists cs. split; [|done]. by apply lookup_app_l_Some.
Qed.

Lemma drain_sim s a m : sim s a -> exec statics s Drain = Some m -> goes_through csteps a m.
Proof.
  intros [Hp Ho Hf Hw] Hm. cbn [exec] in Hm. destruct (s_worker s) eqn:Hk; try done.
  case_match; simplify_eq. do 3 eexists. split; [done|]. split; [constructor|]. by constructor.
Qed.

Lemma begin_sim s a i q m :
  sim s a -> request_ok q -> exec statics s (Call i q) = Some m -> goes_through csteps a m.
Proof.
  intros Hs Hq Hm. on_channel Hm Hi cs.
  destruct (cs_client cs) eqn:Hcs; try done. apply (inj Some) in Hm as <-.
  destruct (sim_lookup _ _ _ _ Hs Hi) as (y & Hy & Hc).
  destruct (call_sim _ _ _ Hc Hcs Hq) as (c & -> & -> & Hl & Hc'). simpl.
  do 3 eexists. split; [done|]. split; [by apply traces_one, acall|].
  rewrite (sim_prop _ _ Hs). by eapply sim_update.
Qed.

Lemma client_sim s a i m :
  sim s a -> exec statics s (ClientStep i) = Some m ->
  goes_through csteps a m \/ garbage_read a (ClientStep i) m.
Proof.
  intros Hs Hm. on_channel Hm Hi cs.
  destruct (client_step cs) as [m'|] eqn:Hcs; [|done]. apply (inj Some) in Hm as <-.
  destruct (sim_lookup _ _ _ _ Hs Hi) as (y & Hy & Hc).
  destruct (client_step_sim _ _ _ Hc Hcs) as [[Hg ->]|(cs' & o & -> & Hl & Hc')].
  { right. split; [done|]. by exists i, y. }
  left. destruct (Hc' a i Hy) as (x' & Ha & Hcx). simpl.
  do 3 eexists. split; [done|]. split; [exact Ha|]. rewrite (sim_prop _ _ Hs). by eapply sim_update.
Qed.

Lemma load_sim s a i m : sim s a -> exec statics s (LoadReq i) = Some m -> goes_through csteps a m.
Proof.
  intros [Hp Ho Hf Hw] Hm. on_channel Hm Hi cs.
  destruct (s_worker s) eqn:Hk; try done. case_match; simplify_eq.
  do 3 eexists. split; [done|]. split; [constructor|]. constructor; try done.
  exists cs. split; [done|]. by left.
Qed.

Lemma worker_sim s a m : sim s a -> exec statics s Visit = Some m -> goes_through asteps a m.
Proof.
  intros Hs Hm. pose proof Hs as [Hp Ho Hf Hw]. cbn [exec] in Hm.
  destruct (s_worker s) as [|i w|] eqn:Hk; try done. on_channel Hm Hi cs. apply (inj Some) in Hm as <-.
  destruct (sim_lookup _ _ _ _ Hs Hi) as (y & Hy & Hc).
  unfold worker_ok in Hw. rewrite Hk in Hw. destruct Hw as (cs' & Hi' & Hl).
  rewrite Hi in Hi'. injection Hi' as <-.
  destruct (visit_sim _ _ _ (s_prop s) Hc Hl) as ([[cs' t'] wk] & -> & Hnl & Hmt).
  destruct (Hmt a i Hy Hp Ho) as (x' & Ha & Hcx). simpl.
  do 3 eexists. split; [done|]. split; [exact Ha|].
  constructor; simpl; [done|done|by apply Forall2_insert|].
  unfold worker_ok. simpl. destruct wk as [|j w'|]; try done. by destruct (Hnl j w').
Qed.

Lemma fibers_sim s a i k m : sim s a -> exec statics s (FiberStep i k) = Some m -> goes_through csteps a m.
Proof.
  intros Hs Hm. on_channel Hm Hi cs.
  destruct (cs_fibers cs !! k) as [f|] eqn:Hk; [|done]. cbn [mbind option_bind] in Hm.
  apply (inj Some) in Hm as <-.
  destruct (sim_lookup _ _ _ _ Hs Hi) as (y & Hy & Hc).
  destruct (fiber_step_sim _ _ _ _ (s_prop s) Hc Hk) as (c' & t' & o & -> & Hl & Hmt).
  destruct (Hmt a i Hy (sim_prop _ _ Hs)) as (x' & Ha & Hcx). simpl.
  do 3 eexists. split; [done|]. split; [exact Ha|].
  fold (next_fibers (cs_fibers cs) k o). by eapply sim_update.
Qed.

(** Clients and fibers, whatever the trustee is doing. *)
Lemma exec_client_sim s a x m :
  sim s a -> action_ok x -> x <> Visit -> exec statics s x = Some m ->
  goes_through csteps a m \/ garbage_read a x m.
Proof.
  intros Hs Hx Hv Hm.
  destruct x; [left; eapply register_sim|left; eapply drain_sim|left; eapply begin_sim|eapply client_sim|
    left; eapply load_sim|done|left; eapply fibers_sim]; eauto.
Qed.

Lemma exec_sim s a x m :
  sim s a -> action_ok x -> exec statics s x = Some m -> goes_through asteps a m \/ garbage_read a x m.
Proof.
  intros Hs Hx Hm. destruct x as [| | | | | |] eqn:Hxe; try (left; by eapply worker_sim);
    (destruct (exec_client_sim s a x m) as [(s' & ev & a' & ? & ?%csteps_asteps & ?)|Hg];
     [done|by subst|by subst|by subst|left; by exists s', ev, a'|right; by subst]).
Qed.

(** Every action but a client's goes through. *)
Lemma exec_goes s a x m :
  sim s a -> action_ok x -> (forall i, x <> ClientStep i) -> exec statics s x = Some m ->
  goes_through asteps a m.
Proof.
  intros Hs Hx Hc Hm. destruct (exec_sim _ _ _ _ Hs Hx Hm) as [?|Hg]; [done|].
  by destruct (garbage_by_client _ _ _ Hc Hg).
Qed.

(** The caller is at the end of its [launch]. *)
Lemma garbage_read_caller s a x m :
  sim s a -> exec statics s x = Some m -> garbage_read a x m ->
  exists i cs q, x = ClientStep i /\ s_chans s !! i = Some cs /\ cs_client cs = CPolled q /\
    q_pp q = Launch /\ m = UB not_a_value.
Proof.
  intros Hs Hm (-> & i & y & -> & Hy & q & -> & Hl).
  destruct (Forall2_lookup_r _ _ _ _ _ (sim_chans _ _ Hs) Hy) as (cs & Hi & [_ Hc]).
  exists i, cs, q. split; [done|]. split; [done|]. split; [|done].
  cbn [exec] in Hm. rewrite Hi in Hm. cbn [mbind option_bind] in Hm.
  unfold client_step, client_rel in *. destruct (cs_client cs) as [|q'|q' b|q' b|q']; try done.
  by destruct Hc as (o & [= <- _] & _).
Qed.

(** And so does every one that ends well. *)
Lemma exec_keeps_sim s a x s' ev :
  sim s a -> action_ok x -> exec statics s x = Some (Ok (s', ev)) -> exists a', asteps a ev a' /\ sim s' a'.
Proof.
  intros Hs Hx Hm. destruct (exec_sim _ _ _ _ Hs Hx Hm) as [(? & ? & a' & [= <- <-] & ? & ?)|[]]; [|done].
  by exists a'.
Qed.

Lemma steps_sim s acts evs s' :
  steps statics s acts evs s' -> Forall action_ok acts -> forall a, sim s a ->
  exists a', asteps a evs a' /\ sim s' a'.
Proof.
  induction 1 as [s|s x s1 ev acts evs s2 Hx _ IH]; intros Hok a Hs.
  - exists a. split; [constructor|done].
  - apply Forall_cons_1 in Hok as [Hx1 Hrest].
    destruct (exec_keeps_sim _ _ _ _ _ Hs Hx1 Hx) as (a1 & Ha & Hs1).
    destruct (IH Hrest _ Hs1) as (a2 & Ha2 & Hs2). exists a2. split; [by eapply traces_app|done].
Qed.

Lemma start_sim t addr :
  0 <= addr -> addr + SLOT_BYTES < usize_modulus -> sim (start t addr) (astart t).
Proof.
  intros Ha Hb. constructor; [done|done| |done].
  constructor; [by apply fresh_chan_rel|constructor].
Qed.
End simulation.

(** ** Progress *)
Section progress.
Context {T : Type} `{Repr T} (statics : Z -> option (ErasedVTable T)).
Implicit Types (cs : chan_state T) (q : rpc T) (s : system T).

(** Steps that client [i] can rely on: its own, those of its fiber, and the
    worker's at its channel. *)
Definition own (i : nat) (x : action T) : Prop :=
  match x with ClientStep j | FiberStep j _ | LoadReq j => j = i | Visit => True | _ => False end.

(** Client [i] is at a read that is undefined. *)
Definition garbage_at s (i : nat) : Prop := exec statics s (ClientStep i) = Some (UB not_a_value).

(** By such steps alone client [i] returns from its call, or the worker
    stops, or the client gets to read what its panicked launch left. *)
Definition can_return s (i : nat) : Prop :=
  exists acts evs s', steps statics s acts evs s' /\ Forall (own i) acts /\
    ((exists bs, evs = [EReturn i bs]) \/ evs = [] /\ (s_worker s' = WStopped \/ garbage_at s' i)).

Lemma own_ok i x : own i x -> action_ok statics x.
Proof. by destruct x. Qed.

Lemma can_step s i x s1 :
  exec statics s x = Some (Ok (s1, [])) -> own i x -> can_return s1 i -> can_return s i.
Proof.
  intros Hx Hok (acts & evs & s' & Hs & Ha & Hr). exists (x :: acts), evs, s'.
  split; [by apply (steps_cons _ s x s1 [] acts evs s')|]. split; [by constructor|done].
Qed.

Lemma can_stopped s i : s_worker s = WStopped -> can_return s i.
Proof. intros Hw. exists [], [], s. split; [constructor|]. split; [done|right; by auto]. Qed.

(** Every possible action of an execution goes through and keeps [sim], or
    is that read. *)
Lemma can_exec s a i x m :
  sim statics s a -> own i x -> exec statics s x = Some m ->
  (forall s1 ev a1, m = Ok (s1, ev) -> sim statics s1 a1 -> ev = [] /\ can_return s1 i) -> can_return s i.
Proof.
  intros Hs Hok Hx Hnext.
  destruct (exec_sim _ _ _ _ _ Hs (own_ok _ _ Hok) Hx) as
    [(s1 & ev & a1 & -> & _ & Hs1)|(-> & j & y & -> & _)].
  2: { simpl in Hok. subst j. exists [], [], s. split; [constructor|]. split; [done|right; by auto]. }
  destruct (Hnext s1 ev a1 eq_refl Hs1) as [-> Hr]. by eapply can_step.
Qed.

(** What one record leaves: an answer to give, or one job. *)
Lemma exec_record_next hdr b c cp t sv :
  exec_record statics hdr b (start_state c cp t) = Next sv ->
  sv_deferred sv = false \/ (sv_deferred sv = true /\ exists j, sv_jobs sv = [j]).
Proof.
  assert (Ho : forall p, run_out (start_state c cp t) p = Next sv -> sv_deferred sv = false).
  { intros p. unfold run_out. simpl. destruct (run_prog p t) as [t' [bs|]]; [|done].
    destruct (write_out c bs); simpl; [|done..]. by intros [= <-]. }
  unfold exec_record. simpl. destruct (property_ptr hdr); simpl.
  - destruct (call_repeat _ _ _ _ _ _) as [[t' []]| |]; simpl; try done. intros [= <-]. by left.
  - destruct (decode_and_call_out _ _ _ _); simpl; try done. left. by eapply Ho.
  - destruct (res_of_option _ _); simpl; try done.
    destruct (decode_and_call_args _ _ _ _ _); simpl; try done. left. by eapply Ho.
  - destruct (write_out _ _); done.
  - intros [= <-]. right. split; [done|]. by eexists.
  - done.
Qed.

Lemma visit_progress cs q b t cs' t' wk :
  submitted_at statics cs q b ->
  worker_visit statics cs (load_flags (request (cs_chan cs))) t = Ok (cs', t', wk) ->
  wk = WStopped \/ (cs_client cs' = CWaiting q b /\
                   (resp_bit (cs_chan cs') = b \/ exists f, cs_fibers cs' = [f])).
Proof.
  intros Hs. destruct (visit_submitted_flow statics cs q b t Hs) as (cp & hdr & _ & _ & ->).
  destruct Hs as [_ Hcl _ _ _ _ _ Hfs _].
  destruct (exec_record _ _ _ _) as [sv|sv pp|sv|why] eqn:He; simpl; try done;
    [|intros [= _ _ <-]; by left..].
  rewrite Hcl, Hfs. intros [= <- _ <-]. right. simpl. split; [done|].
  destruct (exec_record_next _ _ _ _ _ _ He) as [Hd|[Hd [j Hj]]]; unfold respond; rewrite Hd.
  - left. unfold resp_bit. simpl. rewrite load_store_flags by apply pack_range. apply ready_pack.
  - right. rewrite Hj. by eexists.
Qed.

Lemma visit_keeps_client cs w t cs' t' wk :
  worker_visit statics cs w t = Ok (cs', t', wk) -> cs_client cs' = cs_client cs.
Proof.
  unfold worker_visit, leave_visit. intros Hv. by repeat case_match; simplify_eq.
Qed.

Section one.
Context (i : nat).

Lemma lookup_set s cs cs' (t : T) (d : nat) w :
  s_chans s !! i = Some cs ->
  s_chans {| s_prop := t; s_chans := <[i := cs']> (s_chans s); s_drained := d; s_worker := w |} !! i
  = Some cs'.
Proof. intros Hi. apply list_lookup_insert_eq. by eapply lookup_lt_Some. Qed.

Lemma can_polled s a cs q :
  sim statics s a -> s_chans s !! i = Some cs -> cs_client cs = CPolled q -> can_return s i.
Proof.
  intros Hs Hi Hc.
  assert (exists m, client_step cs = Some m) as [m Hm] by (unfold client_step; rewrite Hc; by eexists).
  destruct (sim_lookup _ _ _ _ _ Hs Hi) as (x & Hx & Hrel).
  destruct (client_step_sim _ _ _ _ Hrel Hm) as [[_ ->]|(cs' & o & -> & _ & _)].
  { exists [], [], s. split; [constructor|]. split; [done|]. right. split; [done|]. right.
    unfold garbage_at. simpl. rewrite Hi. simpl. by rewrite Hm. }
  assert (exists bs, o = Some bs) as [bs ->].
  { unfold client_step in Hm. rewrite Hc in Hm. injection Hm as Hm.
    apply res_bind_Ok in Hm as (bs & _ & [= _ <-]). by exists bs. }
  eexists [ClientStep i], _, _. split.
  { econstructor; [|constructor]. simpl. rewrite Hi. simpl. by rewrite Hm. }
  split; [by constructor|]. left. by exists bs.
Qed.

Lemma can_answered s a cs q b :
  sim statics s a -> s_chans s !! i = Some cs -> cs_client cs = CWaiting q b ->
  resp_bit (cs_chan cs) = b -> can_return s i.
Proof.
  intros Hs Hi Hc Hb.
  eapply (can_exec s a i (ClientStep i)); [done|done| |].
  { simpl. rewrite Hi. simpl. unfold client_step. rewrite Hc. unfold poll.
    fold (resp_bit (cs_chan cs)). rewrite Hb, Bool.eqb_reflx. reflexivity. }
  intros s1 ev a1 [= <- <-] Hs1. split; [done|]. eapply can_polled; [exact Hs1|eapply lookup_set; exact Hi|done].
Qed.

Lemma can_written s a cs q b j :
  sim statics s a -> s_chans s !! i = Some cs -> cs_client cs = CWaiting q b ->
  cs_fibers cs = [{| fb_job := j; fb_state := FWritten |}] -> can_return s i.
Proof.
  intros Hs Hi Hc Hf. destruct (sim_lookup _ _ _ _ _ Hs Hi) as (x & Hx & Hrel).
  destruct (fiber_alone statics cs x 0 {| fb_job := j; fb_state := FWritten |} Hrel) as
    (q' & b' & _ & Hc' & _ & _ & _ & _ & _ & _ & _ & _ & (Hj & _)); [by rewrite Hf|].
  rewrite Hc in Hc'. injection Hc' as <- <-. simpl in Hj.
  eapply (can_exec s a i (FiberStep i 0)); [done|done| |].
  { simpl. rewrite Hi. simpl. rewrite Hf. reflexivity. }
  intros s1 ev a1 [= <- <-] Hs1. split; [done|].
  eapply can_answered; [exact Hs1|eapply lookup_set; exact Hi|done|].
  unfold resp_bit. simpl. rewrite load_store_flags by apply pack_range. by rewrite ready_pack.
Qed.

(** A fiber always gets to the end of its closure. *)
Lemma can_fiber p : forall s a cs q b j,
  sim statics s a -> s_chans s !! i = Some cs -> cs_client cs = CWaiting q b ->
  cs_fibers cs = [{| fb_job := j; fb_state := FRunning p |}] -> can_return s i.
Proof.
  induction p as [bs| |upd k IH]; intros s a cs q b j Hs Hi Hc Hf.
  - destruct (sim_lookup _ _ _ _ _ Hs Hi) as (x & Hx & Hrel).
    eapply (can_exec s a i (FiberStep i 0)); [done|done| |].
    { simpl. rewrite Hi. simpl. rewrite Hf. simpl. reflexivity. }
    intros s1 ev a1 Hm Hs1. unfold fiber_step in Hm. simpl in Hm. destruct (write_out _ _) as [c| |]; try done.
    injection Hm as <- <-. split; [done|]. eapply can_written; [exact Hs1|eapply lookup_set; exact Hi|done|done].
  - eapply (can_exec s a i (FiberStep i 0)); [done|done| |].
    { simpl. rewrite Hi. simpl. rewrite Hf. reflexivity. }
    intros s1 ev a1 [= <- <-] Hs1. split; [done|]. eapply can_written; [exact Hs1|eapply lookup_set; exact Hi|done|done].
  - eapply (can_exec s a i (FiberStep i 0)); [done|done| |].
    { simpl. rewrite Hi. simpl. rewrite Hf. reflexivity. }
    intros s1 ev a1 [= <- <-] Hs1. split; [done|]. eapply IH; [exact Hs1|eapply lookup_set; exact Hi|done|done].
Qed.

Lemma can_launched s a cs q b f :
  sim statics s a -> s_chans s !! i = Some cs -> cs_client cs = CWaiting q b ->
  cs_fibers cs = [f] -> can_return s i.
Proof.
  intros Hs Hi Hc Hf. destruct f as [j [|p|]]; [|by eapply can_fiber|by eapply can_written].
  eapply (can_exec s a i (FiberStep i 0)); [done|done| |].
  { simpl. rewrite Hi. simpl. rewrite Hf. simpl. reflexivity. }
  intros s1 ev a1 Hm Hs1. unfold fiber_step in Hm. simpl in Hm. destruct (job_start _ _ _) as [p| |]; try done.
  injection Hm as <- <-. split; [done|]. eapply can_fiber; [exact Hs1|eapply lookup_set; exact Hi|done|done].
Qed.

(** A waiting client of an idle worker that knows its channel. *)
Lemma can_waiting s a cs q b :
  sim statics s a -> s_chans s !! i = Some cs -> cs_client cs = CWaiting q b ->
  s_worker s = WReady -> (i < s_drained s)%nat -> can_return s i.
Proof.
  intros Hs Hi Hc Hw Hd. pose proof Hs as [Hp Ho _ _]. rewrite Hw in Ho.
  destruct (sim_lookup _ _ _ _ _ Hs Hi) as (x & Hx & [Hwf Hcl]).
  unfold client_rel in Hcl. rewrite Hc in Hcl. destruct Hcl as (Hb & Hn & Hh & Hq & Hwt).
  destruct Hwt as [Hr Hf Hpd|f x Hr Hf Hl Hcp Hfb|o Hr Hf Hpd Hres];
    [|by eapply can_launched|by eapply can_answered].
  eapply (can_exec s a i (LoadReq i)); [done|done| |].
  { simpl. rewrite Hi. simpl. rewrite Hw. apply Nat.ltb_lt in Hd. by rewrite Hd. }
  intros s1 ev a1 [= <- <-] Hs1. split; [done|].
  eapply (can_exec _ a1 i Visit); [exact Hs1|done| |].
  { simpl. rewrite Hi. simpl. reflexivity. }
  intros s2 ev a2 Hm Hs2. simpl in Hm.
  destruct (worker_visit _ _ _ _) as [[[cs' t'] wk]| |] eqn:Hv; try done. injection Hm as <- <-. split; [done|].
  assert (Hsb : submitted_at statics cs q b) by done.
  destruct (visit_progress _ _ _ _ _ _ _ Hsb Hv) as [->|[Hcs' [Hb'|[f Hf']]]];
    [by apply can_stopped| |].
  - eapply can_answered; [exact Hs2|eapply lookup_set; exact Hi|exact Hcs'|done].
  - eapply can_launched; [exact Hs2|eapply lookup_set; exact Hi|exact Hcs'|done].
Qed.

(** The client gets to its wait loop by itself. *)
Lemma can_begin s a cs :
  sim statics s a -> s_chans s !! i = Some cs -> cs_client cs <> CIdle ->
  s_worker s = WReady -> (i < s_drained s)%nat -> can_return s i.
Proof.
  intros Hs Hi Hc Hw Hd.
  assert (Hloaded : forall s a cs q b, sim statics s a -> s_chans s !! i = Some cs ->
    cs_client cs = CLoaded q b -> s_worker s = WReady -> (i < s_drained s)%nat -> can_return s i).
  { clear s a cs Hs Hi Hc Hw Hd. intros s a cs q b Hs Hi Hc Hw Hd.
    eapply (can_exec s a i (ClientStep i)); [done|done| |].
    { simpl. rewrite Hi. simpl. unfold client_step. rewrite Hc. reflexivity. }
    intros s1 ev a1 [= <- <-] Hs1. split; [done|].
    eapply can_waiting; [exact Hs1|eapply lookup_set; exact Hi|reflexivity|done|done]. }
  destruct (cs_client cs) as [|q|q b|q b|q] eqn:Hcs; [done| | | |].
  - eapply (can_exec s a i (ClientStep i)); [done|done| |].
    { simpl. rewrite Hi. simpl. unfold client_step. rewrite Hcs. reflexivity. }
    intros s1 ev a1 [= <- <-] Hs1. split; [done|].
    eapply Hloaded; [exact Hs1|eapply lookup_set; exact Hi|reflexivity|done|done].
  - by eapply Hloaded.
  - by eapply can_waiting.
  - by eapply can_polled.
Qed.

(** The worker finishes the visit it is in. *)
Lemma can_always_return s a cs :
  sim statics s a -> s_chans s !! i = Some cs -> cs_client cs <> CIdle ->
  (i < s_drained s)%nat -> can_return s i.
Proof.
  intros Hs Hi Hc Hd. destruct (s_worker s) as [|j w|] eqn:Hw;
    [by eapply can_begin| |by apply can_stopped].
  pose proof (sim_worker _ _ _ Hs) as Hwk. unfold worker_ok in Hwk. rewrite Hw in Hwk.
  destruct Hwk as (csj & Hj & Hlj).
  destruct (sim_lookup _ _ _ _ _ Hs Hj) as (x & Hx & Hrel).
  destruct (visit_sim statics csj x w (s_prop s) Hrel Hlj) as ([[cs' t'] wk] & Hv & Hnl & _).
  eapply (can_exec s a i Visit); [done|done| |].
  { simpl. rewrite Hw, Hj. simpl. rewrite Hv. reflexivity. }
  intros s1 ev a1 [= <- <-] Hs1. split; [done|]. destruct wk as [|i' w'|]; [|by destruct (Hnl i' w')|by apply can_stopped].
  assert (Hcl : cs_client cs' = cs_client csj).
  { eapply visit_keeps_client. exact Hv. }
  destruct (decide (j = i)) as [->|Hne].
  - rewrite Hi in Hj. injection Hj as <-.
    eapply can_begin; [exact Hs1| |by rewrite Hcl|done|done].
    simpl. apply list_lookup_insert_eq. by eapply lookup_lt_Some.
  - eapply can_begin; [exact Hs1| |exact Hc|done|done].
    simpl. by rewrite list_lookup_insert_ne.
Qed.
End one.
End progress.

(** ** The methods submit such requests *)
Section method_requests.
Context {T : Type} `{Repr T} (statics : Z -> option (ErasedVTable T)).

Lemma out_request_ok {R} `{Repr R} (u : user_fn T unit R) pp :
  linked statics u (out_closure u) -> record_fits (out_closure u) [] -> result_fits R ->
  (pp = CallMutOutPtr \/ pp = Launch) -> 0 <= size_of R ->
  request_ok statics {| q_pp := pp; q_fn := out_closure u; q_env := u_env u; q_args := [];
                        q_repeat := 1; q_out := layout_of R |}.
Proof.
  intros (HF & Hf & Hv) Hfit Hsz Hpp H0'.
  refine (Build_request_ok statics {| q_pp := pp; q_fn := out_closure u; q_env := u_env u; q_args := [];
            q_repeat := 1; q_out := layout_of R |} HF Hf _ _ Hv Hfit (conj H0' Hsz) _); [done|done|].
  assert (Hb : body {| q_pp := pp; q_fn := out_closure u; q_env := u_env u; q_args := [];
                       q_repeat := 1; q_out := layout_of R |} = Some (prog_map to_bytes (call u tt)))
    by (by destruct Hpp as [->| ->]).
  destruct Hpp as [->| ->]; (eexists; split; [exact Hb|apply prog_size_map]).
Qed.

Lemma apply_with_request_ok {V R} `{Repr R} `{Bincode V} (u : user_fn T V R) (w : V) :
  linked statics u (args_closure u) -> record_fits (args_closure u) (serialize w) ->
  zlen (serialize w) < 2 ^ 63 -> result_fits R -> 0 <= size_of R ->
  request_ok statics (apply_with_request u w).
Proof.
  intros (HF & Hf & Hv) Hfit Hz Hsz H0'.
  refine (Build_request_ok statics (apply_with_request u w) HF Hf Hz _ Hv Hfit (conj H0' Hsz) _); [done|].
  exists (prog_map to_bytes (call u w)). split; [|apply prog_size_map].
  unfold body. simpl. by rewrite bincode_roundtrip.
Qed.

Lemma apply_batch_mut_request_ok (u : user_fn T unit unit) (n : Z) :
  linked statics u (batch_closure u) -> record_fits (batch_closure u) [] -> 0 <= n < 2 ^ 8 ->
  request_ok statics (apply_batch_mut_request u n).
Proof.
  intros (HF & Hf & Hv) Hfit Hn.
  refine (Build_request_ok statics (apply_batch_mut_request u n) HF Hf _ _ Hv Hfit _ _); [done| |done|].
  - simpl. unfold u32_modulus. lia.
  - eexists. split; [reflexivity|apply prog_size_repeat].
Qed.

Lemma into_inner_request_ok vt :
  0 <= vt < usize_modulus -> statics vt = Some (VTABLE (into_inner_closure T vt)) ->
  result_fits T -> 0 <= size_of T -> request_ok statics (into_inner_request vt).
Proof.
  intros Hvt Hv Hsz H0'.
  refine (Build_request_ok statics (into_inner_request vt) _ _ _ _ Hv _ (conj H0' Hsz) _); try done.
  split; [done|]. split; [by exists 0|done].
Qed.
End method_requests.

(** ** Properties *)
Section properties.
Context {T : Type} `{Repr T} (statics : Z -> option (ErasedVTable T)).

(** Every execution of clients, worker and fibers, in any interleaving
    and visiting order, shows the calls and returns of the abstract object:
    each request is executed once, atomically (launched closures access by
    access), between its call and its return, and the return carries its
    result.  The property is the abstract one throughout. *)
Theorem system_refines_object (t : T) (addr : Z) acts evs s
    (Haddr : 0 <= addr /\ addr + SLOT_BYTES < usize_modulus)
    (Hacts : Forall (action_ok statics) acts)
    (Hrun : steps statics (start t addr) acts evs s) :
  exists a, asteps (astart t) evs a /\ a_prop a = s_prop s /\ a_open a = is_open (s_worker s).
Proof.
  destruct (steps_sim _ _ _ _ _ Hrun Hacts (astart t)) as (a & Ha & [Hp Ho _ _]);
    [by apply start_sim; apply Haddr|]. by exists a.
Qed.

(** No execution of requests that fit their slots reaches undefined behaviour
    or a panic outside a closure, but for the read of a result that a panicked
    launch has not written: whatever else can happen next goes through. *)
Theorem system_never_undefined (t : T) (addr : Z) acts evs s x m
    (Haddr : 0 <= addr /\ addr + SLOT_BYTES < usize_modulus)
    (Hacts : Forall (action_ok statics) acts)
    (Hrun : steps statics (start t addr) acts evs s)
    (Hx : action_ok statics x) (Hm : exec statics s x = Some m) :
  (exists s' ev, m = Ok (s', ev)) \/ exists a, asteps (astart t) evs a /\ garbage_read a x m.
Proof.
  destruct (steps_sim _ _ _ _ _ Hrun Hacts (astart t)) as (a & Ha & Hs); [by apply start_sim; apply Haddr|].
  destruct (exec_sim _ _ _ _ _ Hs Hx Hm) as [(s' & ev & _ & -> & _)|Hg]; [left; by exists s', ev|right].
  by exists a.
Qed.

(** Slots change hands: outside its wait loop a client has its channel
    for itself, with the bits equal and no fiber on it, and a visit with the
    word the worker loaded leaves the channel alone; a fiber runs only while
    the client waits unanswered, and then there is just one. *)
Theorem slots_change_hands (t : T) (addr : Z) acts evs s i cs
    (Haddr : 0 <= addr /\ addr + SLOT_BYTES < usize_modulus)
    (Hacts : Forall (action_ok statics) acts)
    (Hrun : steps statics (start t addr) acts evs s)
    (Hi : s_chans s !! i = Some cs) :
  ((forall q b, cs_client cs <> CWaiting q b) ->
     cs_fibers cs = [] /\ req_bit (cs_chan cs) = resp_bit (cs_chan cs) /\
     forall w, s_worker s = WLoaded i w ->
     exists cp, worker_visit statics cs w (s_prop s) = Ok (with_cp cs cp, s_prop s, WReady)) /\
  (forall f, f ∈ cs_fibers cs ->
     exists q b, cs_client cs = CWaiting q b /\ resp_bit (cs_chan cs) = negb b /\ cs_fibers cs = [f]).
Proof.
  destruct (steps_sim _ _ _ _ _ Hrun Hacts (astart t)) as (a & _ & Hs); [by apply start_sim; apply Haddr|].
  destruct (sim_lookup _ _ _ _ _ Hs Hi) as (x & _ & Hrel). split.
  - intros Hc. pose proof (quiet_outside statics cs x Hrel Hc) as [Hb Hf _]. split; [done|]. split; [done|]. intros w Hw.
    pose proof (sim_worker _ _ _ Hs) as Hk. unfold worker_ok in Hk. rewrite Hw in Hk.
    destruct Hk as (cs' & Hi' & Hl). rewrite Hi in Hi'. injection Hi' as <-.
    assert (Hr : ready w = resp_bit (cs_chan cs)) by (destruct Hl as [->|[? _]]; done).
    unfold worker_visit.
    destruct (visit_equal statics (cs_cp cs) w (load_flags (response (cs_chan cs))) (cs_chan cs)
                (s_prop s) Hr) as (cp & -> & _). by exists cp.
  - intros f Hf. apply list_elem_of_lookup in Hf as [k Hk].
    destruct (fiber_alone _ _ _ _ _ Hrel Hk) as (q & b & _ & Hc & _ & _ & _ & _ & Hr & Hfs & _).
    by exists q, b.
Qed.

(** No deadlock and no lost answer: from every reachable state, a call
    in progress on a channel the worker knows can be brought to its return
    by steps of the worker, the client and its fiber alone, unless the worker
    stops (a closure panicked on it, or the property was taken out) or the
    call's own launched closure panicked and left no value to read. *)
Theorem calls_can_return (t : T) (addr : Z) acts evs s i cs
    (Haddr : 0 <= addr /\ addr + SLOT_BYTES < usize_modulus)
    (Hacts : Forall (action_ok statics) acts)
    (Hrun : steps statics (start t addr) acts evs s)
    (Hi : s_chans s !! i = Some cs) (Hcall : cs_client cs <> CIdle)
    (Hdrained : (i < s_drained s)%nat) :
  exists acts' evs' s', steps statics s acts' evs' s' /\ Forall (own i) acts' /\
    ((exists bs, evs' = [EReturn i bs]) \/
     evs' = [] /\ (s_worker s' = WStopped \/ garbage_at statics s' i)).
Proof.
  destruct (steps_sim _ _ _ _ _ Hrun Hacts (astart t)) as (a & _ & Hs); [by apply start_sim; apply Haddr|].
  exact (can_always_return statics i s a cs Hs Hi Hcall Hdrained).
Qed.
End properties.

(** ** A schedule on the byte counter *)
Module Schedule.
Import Counter.

(** Two handles; the first launches [adder 3], and while its fiber is
    about to run the second takes the property out. *)
Definition acts : list (action Byte.byte) :=
  [Register 131072; Drain; Drain; Call 0 (launch_request (adder 3)); ClientStep 0; ClientStep 0;
   Call 1 (into_inner_request 24576); LoadReq 0; Visit; FiberStep 0 0; ClientStep 1; ClientStep 1;
   LoadReq 1; Visit; ClientStep 1; ClientStep 1].
Definition evs : list (event Byte.byte) :=
  [ECall 0 (launch_request (adder 3)); ECall 1 (into_inner_request 24576); EReturn 1 [5]].

Definition first : system Byte.byte := start Byte.x05 65536.
Definition after (acts : list (action Byte.byte)) : system Byte.byte :=
  match run statics first acts with Some (Ok (s, _)) => s | _ => first end.

Lemma adder_request_ok : request_ok statics (launch_request (adder 3)).
Proof.
  apply out_request_ok; [apply adder_linked|reflexivity|apply u8_fits|by right|done].
Qed.
Lemma into_request_ok : request_ok statics (into_inner_request 24576).
Proof. apply into_inner_request_ok; [done|reflexivity|apply u8_fits|done]. Qed.

Lemma acts_ok : Forall (action_ok statics) acts.
Proof.
  repeat (constructor; [first [exact adder_request_ok|exact into_request_ok|exact I|done]|]).
  constructor.
Qed.
Lemma runs_acts : steps statics first acts evs (after acts).
Proof. apply run_steps. vm_compute. reflexivity. Qed.

(** The same, up to the point where the first client's job is queued. *)
Definition queued : list (action Byte.byte) := take 9 acts.
Lemma queued_ok : Forall (action_ok statics) queued.
Proof. apply Forall_take, acts_ok. Qed.
Lemma runs_queued : steps statics first queued (take 2 evs) (after queued).
Proof. apply run_steps. vm_compute. reflexivity. Qed.
Definition chan (i : nat) : chan_state Byte.byte := nth i (s_chans (after queued)) (fresh_chan 0).
Lemma chan_0 : s_chans (after queued) !! 0%nat = Some (chan 0).
Proof. vm_compute. reflexivity. Qed.
Lemma chan_0_calls : cs_client (chan 0) <> CIdle.
Proof. vm_compute. done. Qed.
Lemma addr_ok : 0 <= 65536 /\ 65536 + SLOT_BYTES < usize_modulus.
Proof. done. Qed.
End Schedule.

(** [into_inner] does not wait for launched closures: there is an
    execution in which it has returned the property (5) and the worker is gone,
    and the fiber of a launch through another handle then writes (8) to the
    property that was moved out. *)
Theorem into_inner_leaves_fibers_running :
  exists acts evs s s',
    Forall (action_ok Counter.statics) acts /\
    steps Counter.statics (start Byte.x05 65536) acts evs s /\
    s_worker s = WStopped /\ EReturn 1 [5] ∈ evs /\ s_prop s = Byte.x05 /\
    exec Counter.statics s (FiberStep 0 0) = Some (Ok (s', [])) /\ s_prop s' = Byte.x08.
Proof.
  exists Schedule.acts, Schedule.evs, (Schedule.after Schedule.acts),
    (Schedule.after (Schedule.acts ++ [FiberStep 0 0])).
  split; [exact Schedule.acts_ok|]. split; [exact Schedule.runs_acts|].
  split; [vm_compute; reflexivity|]. split; [right; right; left|].
  split; [vm_compute; reflexivity|]. split; vm_compute; reflexivity.
Qed.

Lemma system_refines_object_witness :
  exists a, asteps (astart Byte.x05) Schedule.evs a /\
    a_prop a = s_prop (Schedule.after Schedule.acts) /\
    a_open a = is_open (s_worker (Schedule.after Schedule.acts)).
Proof.
  exact (system_refines_object Counter.statics Byte.x05 65536 _ _ _ Schedule.addr_ok
           Schedule.acts_ok Schedule.runs_acts).
Defined.

(** The step after the property has been taken out. *)
Lemma system_never_undefined_witness :
  exists s' ev, exec Counter.statics (Schedule.after Schedule.acts) (FiberStep 0 0) = Some (Ok (s', ev)).
Proof.
  destruct (exec Counter.statics (Schedule.after Schedule.acts) (FiberStep 0 0)) as [m|] eqn:Hm;
    [|exfalso; revert Hm; vm_compute; done].
  destruct (system_never_undefined Counter.statics Byte.x05 65536 _ _ _ (FiberStep 0 0) m
              Schedule.addr_ok Schedule.acts_ok Schedule.runs_acts I Hm) as [(s' & ev & ->)|(a & _ & Hg)].
  - by exists s', ev.
  - by destruct (garbage_by_client a (FiberStep 0 0) m).
Defined.

Lemma slots_change_hands_witness :
  exists f, cs_fibers (Schedule.chan 0) = [f] /\
  exists q b, cs_client (Schedule.chan 0) = CWaiting q b /\
    resp_bit (cs_chan (Schedule.chan 0)) = negb b.
Proof.
  eexists. split; [vm_compute; reflexivity|].
  edestruct (proj2 (slots_change_hands Counter.statics Byte.x05 65536 _ _ _ 0 _ Schedule.addr_ok
                      Schedule.queued_ok Schedule.runs_queued Schedule.chan_0)) as (q & b & Hc & Hr & _);
    [vm_compute; left|].
  exists q, b. by split.
Defined.

Lemma calls_can_return_witness :
  exists acts' evs' s', steps Counter.statics (Schedule.after Schedule.queued) acts' evs' s' /\
    Forall (own 0) acts' /\
    ((exists bs, evs' = [EReturn 0 bs]) \/
     evs' = [] /\ (s_worker s' = WStopped \/ garbage_at Counter.statics s' 0)).
Proof.
  refine (calls_can_return Counter.statics Byte.x05 65536 _ _ _ 0 _ Schedule.addr_ok
            Schedule.queued_ok Schedule.runs_queued Schedule.chan_0 Schedule.chan_0_calls _).
  vm_compute. repeat constructor.
Defined.
