(* ===== verification/Interleaving.v ===== *)
(** * Interleaving: the system with visits taken apart

    The machine of [Service], in which clients and launched closures move
    between any two accesses of the worker, refines an abstract object whose
    exclusive requests take turns: one at a time, in program order, and
    interleaved only with launched closures.  Without launches the object is
    the atomic one of [Refinement]. *)
From S2P Require Import Prelude Slots Serialization Remote Worker Delegation System Service Refinement.
Import header.
Local Open Scope Z_scope.

(** ** The object whose requests take turns *)

(** The request in service: whose it is, what is left of it, and whether it
    is the last ([into_inner]). *)
Record turn (T : Type) := { tn_client : nat; tn_prog : prog T (list Z); tn_last : bool }.
Arguments tn_client {T} _.
Arguments tn_prog {T} _.
Arguments tn_last {T} _.

Record istate (T : Type) := { i_obj : astate T; i_turn : option (turn T) }.
Arguments i_obj {T} _.
Arguments i_turn {T} _.

Section spec.
Context {T : Type} `{Repr T}.

Definition free (a : astate T) : istate T := {| i_obj := a; i_turn := None |}.
Definition busy (a : astate T) (i : nat) (p : prog T (list Z)) (l : bool) : istate T :=
  {| i_obj := a; i_turn := Some {| tn_client := i; tn_prog := p; tn_last := l |} |}.
Definition set_aprop (a : astate T) (t : T) : astate T :=
  {| a_prop := t; a_clients := a_clients a; a_open := a_open a |}.
Definition close (a : astate T) : astate T :=
  {| a_prop := a_prop a; a_clients := a_clients a; a_open := false |}.

Inductive istep : istate T -> list (event T) -> istate T -> Prop :=
| iclient a ev a' tn :
    cstep a ev a' -> istep {| i_obj := a; i_turn := tn |} ev {| i_obj := a'; i_turn := tn |}
| ilaunch a i q p :
    a_clients a !! i = Some (ACalled q) -> a_open a = true -> q_pp q = Launch -> body q = Some p ->
    istep (free a) [] (free (set_client a i (ARunning q p) (a_prop a) true))
| ibegin a i q p :
    a_clients a !! i = Some (ACalled q) -> a_open a = true -> q_pp q <> Launch -> body q = Some p ->
    istep (free a) [] (busy a i p false)
| itake a i q :
    a_clients a !! i = Some (ACalled q) -> a_open a = true -> q_pp q = IntoInner ->
    istep (free a) [] (busy a i (PRet (to_bytes (a_prop a))) true)
| iaccess a i upd k l :
    istep (busy a i (PStep upd k) l) [] (busy (set_aprop a (upd (a_prop a))) i (k (a_prop a)) l)
| ireturn a i q bs l :
    a_clients a !! i = Some (ACalled q) ->
    istep (busy a i (PRet bs) l) [] (free (set_client a i (ADone q (Some bs)) (a_prop a) (negb l)))
| ipanic a i l :
    istep (busy a i PPanic l) [] (free (close a)).

Definition isteps := traces istep.

Lemma csteps_isteps a ev a' tn :
  csteps a ev a' -> isteps {| i_obj := a; i_turn := tn |} ev {| i_obj := a'; i_turn := tn |}.
Proof. induction 1; econstructor; [by apply iclient|done]. Qed.
End spec.

(** ** Relating a visit in progress to a turn *)
Section visits.
Context {T : Type} `{Repr T} (statics : Z -> option (ErasedVTable T)).
Implicit Types (cs : chan_state T) (q : rpc T) (v : loop_vars) (a : astate T) (t : T).

(** The channel of a request in service, entered with word [w]. *)
Record in_service cs (w : Z) q (b : bool) : Prop := {
  is_submitted : submitted_at statics cs q b;
  is_word : w = load_flags (request (cs_chan cs));
  is_cleared : cp_pending_launch (cs_cp cs) = false;
}.

(** The loop variables before and after its one record. *)
Definition at_first v (b : bool) : Prop :=
  lv_left v = 1%nat /\ lv_cursor v = HEADER_BYTES /\ lv_processed v = 0 /\
  lv_deferred v = false /\ lv_ready v = b.
Definition at_end v (b : bool) : Prop :=
  lv_left v = 0%nat /\ lv_processed v = 1 /\ lv_deferred v = false /\ lv_ready v = b.

Definition batch_of cs q hdr run : Prop :=
  record_at statics (cs_chan cs) CallMutRetUnit (q_fn q) (q_env q) (q_args q) (q_repeat q) hdr /\
  f_run (q_fn q) = FnMut1 run.

Inductive service_rel cs (w : Z) (i : nat) : service T -> option (turn T) -> Prop :=
| rel_first q b v : in_service cs w q b -> at_first v b -> service_rel cs w i (SRecord v) None
| rel_repeat q b v hdr run n p :
    in_service cs w q b -> at_end v b -> batch_of cs q hdr run ->
    p = prog_repeat n (run (q_env q)) -> prog_size (q_out q) p ->
    service_rel cs w i (SRepeat v hdr n) (Some {| tn_client := i; tn_prog := p; tn_last := false |})
| rel_call q b v hdr run n p p' :
    in_service cs w q b -> at_end v b -> batch_of cs q hdr run ->
    p = prog_then p' (prog_repeat n (run (q_env q))) -> prog_size (q_out q) p ->
    service_rel cs w i (SCall v hdr n p') (Some {| tn_client := i; tn_prog := p; tn_last := false |})
| rel_out q b v p :
    in_service cs w q b -> at_end v b -> prog_size (q_out q) p ->
    service_rel cs w i (SOut v p) (Some {| tn_client := i; tn_prog := p; tn_last := false |})
| rel_written q b v bs :
    in_service cs w q b -> at_end v b -> result_in (cs_chan cs) q (Some bs) ->
    service_rel cs w i (SRecord v) (Some {| tn_client := i; tn_prog := PRet bs; tn_last := false |})
| rel_moved q b bs :
    in_service cs w q b -> result_in (cs_chan cs) q (Some bs) ->
    service_rel cs w i SMoved (Some {| tn_client := i; tn_prog := PRet bs; tn_last := true |})
(** After a launch the channel belongs to its fiber and its client. *)
| rel_handed_over v :
    lv_left v = 0%nat -> lv_deferred v = true -> service_rel cs w i (SRecord v) None.

Lemma submitted_called cs q b x : submitted_at statics cs q b -> chan_rel statics cs x -> x = ACalled q.
Proof.
  intros [_ Hc _ _ _ _ Hr Hf _] [_ Hcl]. unfold client_rel in Hcl. rewrite Hc in Hcl.
  destruct Hcl as (_ & _ & _ & _ & Hw).
  destruct Hw as [_ _ _|f x _ Hf' _ _ _|o Hr' _ _ _]; [done|by rewrite Hf in Hf'|].
  rewrite Hr in Hr'. by destruct b.
Qed.

Lemma submitted_rel cs q b : submitted_at statics cs q b -> chan_rel statics cs (ACalled q).
Proof.
  intros [Hwf Hc Hb Hn Hh Hq Hr Hf Hp]. split; [done|]. unfold client_rel. rewrite Hc.
  do 4 (split; [done|]). by constructor.
Qed.

(** Writes to the data of the response slot do not show before the answer. *)
Lemma in_service_write cs w q b bs m :
  in_service cs w q b -> write_at (response (cs_chan cs)) HEADER_BYTES bs = Some m ->
  in_service (with_chan cs (set_response (cs_chan cs) m)) w q b.
Proof.
  intros [[[[Hq Hr] Hba] Hc Hb Hn Hh Hok Hresp Hf Hp] Hw Hcp] Hm.
  constructor; [constructor|done|done]; try done.
  - split; [|done]. split; [done|]. simpl. by rewrite (write_at_zlen _ _ _ _ Hm).
  - eapply holds_ext; [| |exact Hh]; done.
  - unfold resp_bit. simpl. by rewrite (load_flags_write _ _ _ _ Hm).
Qed.

Lemma write_result cs w q b bs :
  in_service cs w q b -> value_of (q_out q) bs ->
  exists m, write_out (cs_chan cs) bs = Ok (set_response (cs_chan cs) m) /\
    let cs' := with_chan cs (set_response (cs_chan cs) m) in
    in_service cs' w q b /\ result_in (cs_chan cs') q (Some bs).
Proof.
  intros Hs Hbs. pose proof (is_submitted _ _ _ _ Hs) as Hsb.
  destruct (write_out_fits (cs_chan cs) bs) as (m & Hm & Hwo).
  { apply (sb_wf _ _ _ _ Hsb). }
  { unfold fits_response. rewrite (proj1 Hbs). apply (sb_ok _ _ _ _ Hsb). }
  exists m. split; [done|]. split; [by eapply in_service_write|].
  split; [|done]. apply (read_write_same _ _ _ _ _ Hm). symmetry. apply Hbs.
Qed.

Lemma record_transport cs cs' pp F f args n hdr :
  cp_base (cs_chan cs') = cp_base (cs_chan cs) -> request (cs_chan cs') = request (cs_chan cs) ->
  record_at statics (cs_chan cs) pp F f args n hdr ->
  record_at statics (cs_chan cs') pp F f args n hdr.
Proof. intros Hb Hr. apply record_at_ext; [done|]. intros. by rewrite Hr. Qed.

(** What a step of the worker on channel [i] must achieve, against the
    object [a] with turn [tn]. *)
Definition open_after a (k : service T + worker_state) : bool :=
  match k with inl _ => a_open a | inr wk => is_open wk end.
Definition follows (w : Z) (i : nat) a (tn : option (turn T)) (m : outcome T) : Prop :=
  exists cs t k x tn', m = Ok (cs, t, k) /\
    isteps {| i_obj := a; i_turn := tn |} []
      {| i_obj := set_client a i x t (open_after a k); i_turn := tn' |} /\
    chan_rel statics cs x /\
    match k with
    | inl sv => service_rel cs w i sv tn' /\ loaded_ok cs w
    | inr wk => tn' = None /\ forall j w', wk <> WLoaded j w'
    end.

Lemma set_called a i q t :
  a_clients a !! i = Some (ACalled q) -> set_client a i (ACalled q) t (a_open a) = set_aprop a t.
Proof. intros Hi. unfold set_client, set_aprop. by rewrite list_insert_id. Qed.
Lemma set_aprop_same a : set_aprop a (a_prop a) = a.
Proof. by destruct a. Qed.

(** The turn goes on. *)
Lemma follows_serving w i a tn cs q b t sv tn' :
  a_clients a !! i = Some (ACalled q) -> in_service cs w q b -> service_rel cs w i sv tn' ->
  isteps {| i_obj := a; i_turn := tn |} [] {| i_obj := set_aprop a t; i_turn := tn' |} ->
  follows w i a tn (serving cs t sv).
Proof.
  intros Hi Hs Hrel Hst. exists cs, t, (inl sv), (ACalled q), tn'. split; [done|]. simpl.
  rewrite set_called by done. split; [done|].
  split; [by eapply submitted_rel, is_submitted|]. split; [done|]. left. by apply Hs.
Qed.

(** .. without a step of the object. *)
Lemma follows_silent w i a tn cs q b sv :
  a_clients a !! i = Some (ACalled q) -> in_service cs w q b -> service_rel cs w i sv tn ->
  follows w i a tn (serving cs (a_prop a) sv).
Proof. intros. eapply follows_serving; eauto. rewrite set_aprop_same. constructor. Qed.

(** A closure panics: the worker is gone. *)
Lemma follows_panic w i a cs q b l :
  a_clients a !! i = Some (ACalled q) -> in_service cs w q b ->
  follows w i a (Some {| tn_client := i; tn_prog := PPanic; tn_last := l |})
    (over cs (a_prop a) WStopped).
Proof.
  intros Hi Hs. exists cs, (a_prop a), (inr WStopped), (ACalled q), None. split; [done|]. simpl.
  split; [|split; [by eapply submitted_rel, is_submitted|done]].
  unfold set_client. rewrite list_insert_id by done. apply traces_one, (ipanic a i l).
Qed.

(** The response word is stored: the turn ends. *)
Lemma follows_answer w i a cs q b bs l (z : Z) wk :
  a_clients a !! i = Some (ACalled q) -> in_service cs w q b -> result_in (cs_chan cs) q (Some bs) ->
  z = pack_ready_count b 1 -> is_open wk = negb l -> (forall j w', wk <> WLoaded j w') ->
  follows w i a (Some {| tn_client := i; tn_prog := PRet bs; tn_last := l |})
    (over (with_chan cs (set_response (cs_chan cs) (store_flags (response (cs_chan cs)) z)))
       (a_prop a) wk).
Proof.
  intros Hi Hs Hres -> Hop Hwk. pose proof (is_submitted _ _ _ _ Hs) as Hsb.
  destruct (answered_channel (cs_chan cs) q (response (cs_chan cs)) b bs) as (Hwf & Hb & Hr & _);
    [apply Hsb|apply Hsb|apply Hres|apply Hres|].
  set (c' := set_response _ _). exists (with_chan cs c'), (a_prop a), (inr wk), (ADone q (Some bs)), None.
  split; [done|]. simpl. rewrite Hop. split; [by apply traces_one, ireturn|].
  split; [|done].
  pose proof (answered_rel statics cs c' (cs_cp cs) q b bs Hsb Hwf Hb Hr (is_cleared _ _ _ _ Hs)) as Ha.
  rewrite app_nil_r in Ha. by apply Ha.
Qed.

(** ** The head of a visit *)

Lemma begin_sim_visit w i a cs x :
  chan_rel statics cs x -> loaded_ok cs w -> a_clients a !! i = Some x -> a_open a = true ->
  follows w i a None (visit_begin cs w (a_prop a)).
Proof.
  intros Hc Hw Hi Ho.
  assert (Hsame : forall cs', chan_rel statics cs' x -> follows w i a None (over cs' (a_prop a) WReady)).
  { intros cs' Hc'. exists cs', (a_prop a), (inr WReady), x, None. split; [done|]. simpl. rewrite <-Ho.
    rewrite set_client_same by done. split; [constructor|]. done. }
  assert (Hidle : cs_fibers cs = [] -> ready w = resp_bit (cs_chan cs) ->
            follows w i a None (visit_begin cs w (a_prop a))).
  { intros Hf Hr. unfold visit_begin, launch_gate. fold (resp_bit (cs_chan cs)).
    rewrite Hr, Bool.eqb_reflx. destruct (cp_pending_launch (cs_cp cs)) eqn:Hp;
      apply Hsame, clear_pending_rel; done. }
  destruct Hw as [->|[Hr Hf]]; [|by apply Hidle].
  pose proof Hc as [Hwf Hcl]. unfold client_rel in Hcl.
  assert (Hqt : quiet cs -> follows (load_flags (request (cs_chan cs))) i a None
                  (visit_begin cs (load_flags (request (cs_chan cs))) (a_prop a))).
  { intros [Hb Hf _]. by apply Hidle. }
  destruct (cs_client cs) as [|q|q b|q b|q] eqn:Hcs;
    [by apply Hqt, Hcl|by apply Hqt, Hcl|by apply Hqt, Hcl| |by destruct Hcl as (o & _ & ? & _); auto].
  destruct Hcl as (Hb & Hn & Hh & Hq & Hw). destruct Hw as [Hr Hf Hp|f x Hr Hf Hl Hcp Hfb|o Hr Hf Hp Hres].
  - (* the request is taken up *)
    assert (Hs : submitted_at statics cs q b) by done.
    destruct (gate_opens (cs_cp cs) b Hp) as (cp & Hg & Hcp).
    unfold visit_begin. fold (req_bit (cs_chan cs)) (resp_bit (cs_chan cs)). rewrite Hb, Hr, Hg.
    replace (Bool.eqb b (negb b)) with false by (by destruct b).
    assert (Hin : in_service (with_cp cs cp) (load_flags (request (cs_chan cs))) q b).
    { constructor; [|done|done]. destruct Hs. constructor; try done. simpl. by rewrite Hcp. }
    eapply follows_silent; [done|exact Hin|]. eapply rel_first; [exact Hin|].
    unfold at_first, lv_start. simpl. fold (req_bit (cs_chan cs)). by rewrite Hn, Hb.
  - (* its launch is still under way *)
    unfold visit_begin, launch_gate. fold (req_bit (cs_chan cs)) (resp_bit (cs_chan cs)).
    rewrite Hb, Hr, Hcp. simpl. rewrite Bool.eqb_reflx.
    replace (Bool.eqb b (negb b)) with false by (by destruct b). simpl. by apply Hsame.
  - apply Hidle; [done|]. unfold req_bit in Hb. by rewrite Hb, Hr.
Qed.

(** ** The steps inside a visit *)

Lemma prog_size_access n upd (k : T -> prog T (list Z)) t :
  prog_size n (PStep upd k) -> prog_size n (k t).
Proof. simpl. auto. Qed.

(** An access of the closure in service. *)
Lemma access_step a i upd (k : T -> prog T (list Z)) l :
  isteps {| i_obj := a; i_turn := Some {| tn_client := i; tn_prog := PStep upd k; tn_last := l |} |} []
    {| i_obj := set_aprop a (upd (a_prop a));
       i_turn := Some {| tn_client := i; tn_prog := k (a_prop a); tn_last := l |} |}.
Proof. apply traces_one, (iaccess a i upd k l). Qed.

Lemma repeat_sim w i a cs q b v hdr run n p :
  a_clients a !! i = Some (ACalled q) -> in_service cs w q b -> at_end v b -> batch_of cs q hdr run ->
  p = prog_repeat n (run (q_env q)) -> prog_size (q_out q) p ->
  follows w i a (Some {| tn_client := i; tn_prog := p; tn_last := false |})
    (service_step statics cs (a_prop a) (SRepeat v hdr n)).
Proof.
  intros Hi Hs Hv Hb -> Hsz. destruct n as [|n]; simpl.
  - eapply follows_silent; [done|exact Hs|]. eapply rel_written; [exact Hs|done|]. simpl.
    pose proof (is_submitted _ _ _ _ Hs) as Hsb. split; [|exact Hsz]. unfold q_size.
    rewrite <-(proj1 Hsz). apply read_nothing. by rewrite (proj2 (proj1 (sb_wf _ _ _ _ Hsb))).
  - pose proof Hb as [Hrec Hrun].
    rewrite (decode_stored_mut _ _ _ _ _ _ _ (ra_env _ _ _ _ _ _ _ _ Hrec) Hrun). simpl.
    eapply follows_silent; [done|exact Hs|]. by eapply rel_call.
Qed.

Lemma in_call_sim w i a cs q b v hdr run n p p' :
  a_clients a !! i = Some (ACalled q) -> in_service cs w q b -> at_end v b -> batch_of cs q hdr run ->
  p = prog_then p' (prog_repeat n (run (q_env q))) -> prog_size (q_out q) p ->
  follows w i a (Some {| tn_client := i; tn_prog := p; tn_last := false |})
    (service_step statics cs (a_prop a) (SCall v hdr n p')).
Proof.
  intros Hi Hs Hv Hb -> Hsz. destruct p' as [[]| |upd k]; simpl in *.
  - eapply follows_silent; [done|exact Hs|]. by eapply rel_repeat.
  - by eapply follows_panic.
  - eapply follows_serving; [done|exact Hs| |apply access_step]. by eapply rel_call.
Qed.

Lemma out_sim w i a cs q b v p :
  a_clients a !! i = Some (ACalled q) -> in_service cs w q b -> at_end v b -> prog_size (q_out q) p ->
  follows w i a (Some {| tn_client := i; tn_prog := p; tn_last := false |})
    (service_step statics cs (a_prop a) (SOut v p)).
Proof.
  intros Hi Hs Hv Hsz. destruct p as [bs| |upd k]; simpl in *.
  - destruct (write_result cs w q b bs Hs Hsz) as (m & -> & Hs' & Hres). simpl.
    eapply follows_silent; [done|exact Hs'|]. by eapply rel_written.
  - by eapply follows_panic.
  - eapply follows_serving; [done|exact Hs| |apply access_step]. by eapply rel_out.
Qed.

(** A turn begins. *)
Lemma turn_begins w i a cs q b sv p :
  a_clients a !! i = Some (ACalled q) -> a_open a = true -> q_pp q <> Launch -> body q = Some p ->
  in_service cs w q b ->
  service_rel cs w i sv (Some {| tn_client := i; tn_prog := p; tn_last := false |}) ->
  follows w i a None (serving cs (a_prop a) sv).
Proof.
  intros Hi Ho Hl Hb Hs Hrel. eapply follows_serving; [done|exact Hs|exact Hrel|].
  rewrite set_aprop_same. by apply traces_one, (ibegin a i q).
Qed.

(** The closure is handed to a fiber. *)
Lemma launch_begins w i a cs q b v hdr p :
  a_clients a !! i = Some (ACalled q) -> a_open a = true -> q_pp q = Launch -> body q = Some p ->
  prog_size (q_out q) p -> in_service cs w q b -> at_end v b ->
  record_at statics (cs_chan cs) (q_pp q) (q_fn q) (q_env q) (q_args q) (q_repeat q) hdr ->
  follows w i a None (serving (hand_over cs (lv_ready v) hdr) (a_prop a) (SRecord (lv_defer v))).
Proof.
  intros Hi Ho Hl Hbd Hsz Hs (Hle & _ & _ & Hb) Hrec.
  destruct Hs as [[Hwf Hcl Hrb Hn Hh Hq Hresp Hfs Hpend] Hw _]. rewrite Hb.
  eexists _, (a_prop a), _, (ARunning q p), None. split; [reflexivity|]. simpl.
  split; [rewrite Ho; by apply traces_one, (ilaunch a i q)|].
  split; [|split; [by apply rel_handed_over|by left]].
  split; [done|]. unfold client_rel, hand_over. simpl. rewrite Hcl. do 4 (split; [done|]).
  eapply launched_waiting; [done|simpl; by rewrite Hfs|done|done|]. split; [done|].
  split; [by rewrite <-Hl|]. by exists p.
Qed.

(** The record of the request is parsed. *)
Lemma first_sim w i a cs q b v :
  a_clients a !! i = Some (ACalled q) -> a_open a = true -> in_service cs w q b -> at_first v b ->
  follows w i a None (service_step statics cs (a_prop a) (SRecord v)).
Proof.
  intros Hi Ho Hs (Hl & Hcu & Hpr & Hd & Hb). pose proof (is_submitted _ _ _ _ Hs) as Hsb.
  destruct (sb_holds _ _ _ _ Hsb) as [hdr Hrec]. pose proof (rq_body _ _ (sb_ok _ _ _ _ Hsb)) as Hbody.
  unfold service_step. rewrite Hl, Hcu. fold hdr_offset. rewrite (ra_read _ _ _ _ _ _ _ _ Hrec).
  cbn [step_lift]. set (v' := lv_next v 0 hdr_offset).
  assert (Hv' : at_end v' b) by (unfold at_end, v'; simpl; by rewrite Hpr, Hd, Hb).
  unfold begin_record. rewrite (ra_property _ _ _ _ _ _ _ _ Hrec).
  pose proof (ra_env _ _ _ _ _ _ _ _ Hrec) as Henv.
  destruct (q_pp q) eqn:Hpp; try done;
    try (destruct Hbody as (p & Hbd & Hsz); pose proof Hbd as Hrun; unfold body in Hrun;
         rewrite Hpp in Hrun; destruct (f_run (q_fn q)) as [run|run|run] eqn:Hf; simplify_eq).
  - rewrite (ra_repeat _ _ _ _ _ _ _ _ Hrec).
    eapply turn_begins; [done|done|by rewrite Hpp|exact Hbd|exact Hs|]. by eapply rel_repeat.
  - rewrite (decode_stored_out _ _ _ _ _ _ _ Henv Hf).
    eapply turn_begins; [done|done|by rewrite Hpp|exact Hbd|exact Hs|]. by eapply rel_out.
  - rewrite (ra_args _ _ _ _ _ _ _ _ Hrec). cbn [step_lift res_of_option].
    rewrite (decode_stored_args _ _ _ _ _ _ _ _ Henv Hf).
    eapply turn_begins; [done|done|by rewrite Hpp|exact Hbd|exact Hs|]. by eapply rel_out.
  - destruct (write_result cs w q b (to_bytes (a_prop a)) Hs) as (m & -> & Hs' & Hres).
    { rewrite Hbody. apply to_bytes_value. }
    cbn [step_lift]. eapply follows_serving; [done|exact Hs'|by eapply rel_moved|].
    rewrite set_aprop_same. by apply traces_one, (itake a i q).
  - eapply launch_begins; try done. by rewrite Hpp.
Qed.

Lemma service_sim w i a cs x sv tn :
  service_rel cs w i sv tn -> chan_rel statics cs x -> loaded_ok cs w ->
  a_clients a !! i = Some x -> a_open a = true ->
  follows w i a tn (service_step statics cs (a_prop a) sv).
Proof.
  intros Hrel Hc Hw Hi Ho. pose proof Hrel as Hrel'.
  destruct Hrel as [q b v Hs|q b v hdr run n p Hs|q b v hdr run n p p' Hs|q b v p Hs|q b v bs Hs Hv Hres|
                    q b bs Hs Hres|v Hl Hd].
  1-6: assert (x = ACalled q) as -> by (by eapply submitted_called; [apply Hs|]).
  - by eapply first_sim.
  - by eapply repeat_sim.
  - by eapply in_call_sim.
  - by eapply out_sim.
  - destruct Hv as (Hl & Hp & Hd & Hb). simpl. rewrite Hl. unfold answer. rewrite Hd, Hp, Hb.
    by eapply follows_answer.
  - simpl. fold (req_bit (cs_chan cs)). rewrite (sb_bit _ _ _ _ (is_submitted _ _ _ _ Hs)).
    by eapply follows_answer.
  - simpl. rewrite Hl. unfold answer. rewrite Hd. exists cs, (a_prop a), (inr WReady), x, None.
    split; [done|]. simpl. rewrite <-Ho, set_client_same by done. split; [constructor|]. done.
Qed.
End visits.

(** ** The machine *)
Section machine.
Context {T : Type} `{Repr T} (statics : Z -> option (ErasedVTable T)).
Implicit Types (f : fstate T) (s : system T) (cs : chan_state T) (a : istate T).

Definition faction_ok (x : faction T) : Prop :=
  match x with Base x => action_ok statics x | _ => True end.

Definition serves_turn s (sv : service T) (tn : option (turn T)) : Prop :=
  exists i w cs, s_worker s = WLoaded i w /\ s_chans s !! i = Some cs /\ service_rel statics cs w i sv tn.

Record fsim f a : Prop := {
  fs_sim : sim statics (f_sys f) (i_obj a);
  fs_turn : match f_service f with
            | None => i_turn a = None
            | Some sv => serves_turn (f_sys f) sv (i_turn a)
            end;
}.

(** While the worker serves a channel, the others' steps leave it alone:
    its client polls, and no fiber runs on it. *)
Lemma exec_keeps s x s' ev i w cs :
  exec statics s x = Some (Ok (s', ev)) -> x <> Visit -> s_worker s = WLoaded i w ->
  s_chans s !! i = Some cs ->
  s_worker s' = s_worker s /\
  exists cs', s_chans s' !! i = Some cs' /\ forall q b, submitted_at statics cs q b -> cs' = cs.
Proof.
  intros Hx Hv Hw Hi.
  assert (Hins : forall j csj cs' t (d : nat) k, s_chans s !! j = Some csj ->
    (forall q b, submitted_at statics csj q b -> cs' = csj) ->
    exists cs'', s_chans {| s_prop := t; s_chans := <[j := cs']> (s_chans s); s_drained := d;
                            s_worker := k |} !! i = Some cs'' /\
      forall q b, submitted_at statics cs q b -> cs'' = cs).
  { intros j csj cs' t d k Hj Hs. simpl. destruct (decide (j = i)) as [->|Hne].
    - rewrite list_lookup_insert_eq by (by eapply lookup_lt_Some). exists cs'. split; [done|].
      rewrite Hi in Hj. by injection Hj as ->.
    - rewrite list_lookup_insert_ne by done. by exists cs. }
  destruct x as [addr| |j q|j|j| |j k]; cbn [exec] in Hx; rewrite ?Hw in Hx; try done.
  - injection Hx as <- _. split; [done|]. exists cs. split; [by apply lookup_app_l_Some|done].
  - destruct (s_chans s !! j) as [csj|] eqn:Hj; [|done]. cbn [mbind option_bind] in Hx.
    destruct (cs_client csj) eqn:Hc; try done. destruct (put_request _ _); try done.
    injection Hx as <- _. split; [done|]. eapply Hins; [exact Hj|].
    intros q' b Hs. by rewrite (sb_client _ _ _ _ Hs) in Hc.
  - destruct (s_chans s !! j) as [csj|] eqn:Hj; [|done]. cbn [mbind option_bind] in Hx.
    destruct (client_step csj) as [[[cs' o]| |]|] eqn:Hc; try done.
    injection Hx as <- _. split; [done|]. eapply Hins; [exact Hj|].
    intros q b Hs. unfold client_step in Hc. rewrite (sb_client _ _ _ _ Hs) in Hc. unfold poll in Hc.
    fold (resp_bit (cs_chan csj)) in Hc. rewrite (sb_resp _ _ _ _ Hs) in Hc.
    replace (Bool.eqb (negb b) b) with false in Hc by (by destruct b). by injection Hc as <- _.
  - by destruct (s_chans s !! j).
  - destruct (s_chans s !! j) as [csj|] eqn:Hj; [|done]. cbn [mbind option_bind] in Hx.
    destruct (cs_fibers csj !! k) as [fb|] eqn:Hf; [|done]. cbn [mbind option_bind] in Hx.
    destruct (fiber_step _ _ _ _) as [[[c t] o]| |]; try done.
    injection Hx as <- _. split; [done|]. eapply Hins; [exact Hj|].
    intros q b Hs. by rewrite (sb_fibers _ _ _ _ Hs) in Hf.
Qed.

Lemma service_kept s x s' ev sv tn :
  exec statics s x = Some (Ok (s', ev)) -> x <> Visit -> serves_turn s sv tn -> serves_turn s' sv tn.
Proof.
  intros Hx Hv (i & w & cs & Hw & Hi & Hrel).
  destruct (exec_keeps _ _ _ _ _ _ _ Hx Hv Hw Hi) as (Hw' & cs' & Hi' & Hsame).
  exists i, w, cs'. rewrite Hw'. split; [done|]. split; [done|].
  destruct Hrel as [q b v Hs|q b v hdr run n p Hs|q b v hdr run n p p' Hs|q b v p Hs|q b v bs Hs|
                    q b bs Hs|v Hl Hd]; [..|by apply rel_handed_over];
    rewrite (Hsame q b (is_submitted _ _ _ _ _ Hs)).
  - by eapply rel_first.
  - by eapply rel_repeat.
  - by eapply rel_call.
  - by eapply rel_out.
  - by eapply rel_written.
  - by eapply rel_moved.
Qed.

(** A step of the machine, matched by the object. *)
Definition fgoes a (m : res (fstate T * list (event T))) : Prop :=
  exists f' ev a', m = Ok (f', ev) /\ isteps a ev a' /\ fsim f' a'.

(** Or the read of a result that a panicked launch has not written. *)
Definition fgarbage_read a (x : faction T) {A} (m : res A) : Prop :=
  match x with Base x => garbage_read (i_obj a) x m | _ => False end.

Lemma base_fsim f a x m :
  fsim f a -> action_ok statics x -> fexec statics f (Base x) = Some m ->
  fgoes a m \/ fgarbage_read a (Base x) m.
Proof.
  intros [Hs Ht] Hok Hm.
  assert (Hv : x <> Visit) by (by intros ->).
  assert (exists m', exec statics (f_sys f) x = Some m' /\
            m = ('(s, ev) ← m'; Ok ({| f_sys := s; f_service := f_service f |}, ev))) as (m' & Hx & ->).
  { destruct x; try done; cbn [fexec] in Hm;
      (destruct (exec statics (f_sys f) _) as [m'|]; [|done]; cbn [mbind option_bind] in Hm;
       exists m'; split; [done|by apply (inj Some) in Hm as <-]). }
  destruct (exec_client_sim statics _ _ _ _ Hs Hok Hv Hx) as [(s' & ev & a' & -> & Hst & Hs')|[-> Hg]];
    [|by right].
  left. exists {| f_sys := s'; f_service := f_service f |}, ev, {| i_obj := a'; i_turn := i_turn a |}.
  split; [done|]. split; [destruct a; by apply csteps_isteps|]. constructor; simpl; [done|].
  destruct (f_service f) as [sv|]; [|done]. by eapply service_kept.
Qed.

(** A step of the worker lands. *)
Lemma land_fsim s a i w cs m :
  sim statics s (i_obj a) -> s_worker s = WLoaded i w -> s_chans s !! i = Some cs ->
  follows statics w i (i_obj a) (i_turn a) m -> fgoes a (land s i m).
Proof.
  intros [Hp Ho Hf Hk] Hw Hi (cs' & t' & k & x' & tn' & -> & Hst & Hc & Hrest).
  unfold land. cbn [mbind res_bind]. do 3 eexists. split; [reflexivity|].
  split; [destruct a; exact Hst|].
  assert (Hl : forall j, s_chans s !! j = Some cs -> <[j := cs']> (s_chans s) !! j = Some cs')
    by (intros j Hj; apply list_lookup_insert_eq; by eapply lookup_lt_Some).
  assert (Hf2 : Forall2 (chan_rel statics) (<[i := cs']> (s_chans s)) (<[i := x']> (a_clients (i_obj a))))
    by (by apply Forall2_insert).
  destruct k as [sv|wk]; constructor; simpl; try done.
  - constructor; simpl; [done|by rewrite Ho, Hw|done|]. unfold worker_ok. simpl. rewrite Hw.
    exists cs'. split; [by apply Hl|apply Hrest].
  - exists i, w, cs'. rewrite Hw. split; [done|]. split; [by apply Hl|apply Hrest].
  - destruct Hrest as [_ Hnl]. constructor; simpl; try done. unfold worker_ok. simpl.
    destruct wk as [|j w'|]; try done. by destruct (Hnl j w').
  - apply Hrest.
Qed.

Lemma worker_fsim f a x m :
  fsim f a -> (x = Enter \/ x = Serve) -> fexec statics f x = Some m -> fgoes a m.
Proof.
  intros [Hs Ht] Hx Hm. pose proof Hs as [Hp Ho _ Hk].
  assert (exists i w, s_worker (f_sys f) = WLoaded i w) as (i & w & Hw).
  { destruct Hx as [->| ->]; cbn [fexec] in Hm; destruct (s_worker (f_sys f)); try done; eauto. }
  unfold worker_ok in Hk. rewrite Hw in Hk, Ho. destruct Hk as (cs & Hi & Hl).
  destruct (sim_lookup statics _ _ _ _ Hs Hi) as (y & Hy & Hc).
  destruct Hx as [->| ->]; cbn [fexec] in Hm; rewrite Hw, Hi in Hm;
    destruct (f_service f) as [sv|] eqn:Hsv; try done;
    cbn [mbind option_bind] in Hm; apply (inj Some) in Hm as <-;
    (eapply land_fsim; [done|done|done|]); rewrite <-Hp.
  - rewrite Ht. by eapply begin_sim_visit.
  - destruct Ht as (i' & w' & cs' & Hw' & Hi' & Hrel). rewrite Hw in Hw'. injection Hw' as <- <-.
    rewrite Hi in Hi'. injection Hi' as <-. by eapply service_sim.
Qed.

Lemma fexec_sim f a x m :
  fsim f a -> faction_ok x -> fexec statics f x = Some m -> fgoes a m \/ fgarbage_read a x m.
Proof.
  intros Hs Hok Hm. destruct x as [x| |]; [by eapply base_fsim|left..].
  - eapply worker_fsim; [done|by left|done].
  - eapply worker_fsim; [done|by right|done].
Qed.

(** Every action but a client's goes through, and every one that ends well
    keeps the relation. *)
Lemma fexec_goes f a x m :
  fsim f a -> faction_ok x -> (forall i, x <> Base (ClientStep i)) -> fexec statics f x = Some m -> fgoes a m.
Proof.
  intros Hs Hok Hc Hm. destruct (fexec_sim _ _ _ _ Hs Hok Hm) as [?|Hg]; [done|].
  destruct x as [x| |]; [|done..]. destruct (garbage_by_client (i_obj a) x m); [|done].
  intros i ->. by destruct (Hc i).
Qed.

Lemma fexec_keeps f a x f' ev :
  fsim f a -> faction_ok x -> fexec statics f x = Some (Ok (f', ev)) -> exists a', isteps a ev a' /\ fsim f' a'.
Proof.
  intros Hs Hok Hm. destruct (fexec_sim _ _ _ _ Hs Hok Hm) as [(? & ? & a' & [= <- <-] & ? & ?)|Hg];
    [by exists a'|]. destruct x; [by destruct Hg|done..].
Qed.

Lemma fsteps_sim f acts evs f' a :
  fsteps statics f acts evs f' -> Forall faction_ok acts -> fsim f a ->
  exists a', isteps a evs a' /\ fsim f' a'.
Proof.
  intros Hst. revert a. induction Hst as [f|f x f1 ev acts evs f2 Hx _ IH]; intros a Hok Hs.
  - exists a. split; [constructor|done].
  - apply Forall_cons_1 in Hok as [Hx1 Hrest].
    destruct (fexec_keeps _ _ _ _ _ Hs Hx1 Hx) as (a1 & Ha & Hs1).
    destruct (IH _ Hrest Hs1) as (a2 & Ha2 & Hs2). exists a2. split; [by eapply traces_app|done].
Qed.

Lemma fstart_sim t addr :
  0 <= addr /\ addr + SLOT_BYTES < usize_modulus -> fsim (fstart t addr) (free (astart t)).
Proof. intros []. constructor; [by apply start_sim|done]. Qed.
End machine.

(** ** Without launches the turns are atomic *)
Section atomic.
Context {T : Type} `{Repr T}.
Implicit Types (a : astate T) (t : T).

Definition no_launch (e : event T) : Prop :=
  match e with ECall _ q => q_pp q <> Launch | _ => True end.

(** No launch is under way or called for. *)
Definition unlaunched (x : aclient T) : Prop :=
  match x with ARunning _ _ => False | ACalled q => q_pp q <> Launch | _ => True end.

(** The atomic object stands where the turn began: what is left of the turn,
    from here, gives what the whole request gives from there. *)
Definition turn_from (tn : turn T) a (t0 : T) : Prop :=
  a_open a = true /\ exists q, a_clients a !! tn_client tn = Some (ACalled q) /\
  if tn_last tn
  then q_pp q = IntoInner /\ tn_prog tn = PRet (to_bytes t0) /\ a_prop a = t0
  else exists p0, body q = Some p0 /\ run_prog p0 t0 = run_prog (tn_prog tn) (a_prop a).

Definition serial (b : istate T) (a' : astate T) : Prop :=
  exists t0, a' = set_aprop (i_obj b) t0 /\ Forall unlaunched (a_clients (i_obj b)) /\
  match i_turn b with
  | None => t0 = a_prop (i_obj b)
  | Some tn => turn_from tn (i_obj b) t0
  end.

Lemma unlaunched_set a i x t o :
  Forall unlaunched (a_clients a) -> unlaunched x -> Forall unlaunched (a_clients (set_client a i x t o)).
Proof. intros. by apply Forall_insert. Qed.

(** Clients do not look at the property, and leave a called one alone. *)
Lemma cstep_unlaunched a ev a' :
  cstep a ev a' -> Forall no_launch ev -> Forall unlaunched (a_clients a) ->
  a_prop a' = a_prop a /\ a_open a' = a_open a /\ Forall unlaunched (a_clients a') /\
  (forall t, cstep (set_aprop a t) ev (set_aprop a' t)) /\
  forall i q, a_clients a !! i = Some (ACalled q) -> a_clients a' !! i = Some (ACalled q).
Proof.
  intros Hst Hev Hun.
  assert (Hother : forall j x y t o i q, a_clients a !! j = Some x -> x <> ACalled q ->
    a_clients a !! i = Some (ACalled q) -> a_clients (set_client a j y t o) !! i = Some (ACalled q)).
  { intros j x y t o i q Hj Hx Hi. simpl. rewrite list_lookup_insert_ne; [done|]. intros ->. congruence. }
  assert (Hno : forall j q p, a_clients a !! j <> Some (ARunning q p)).
  { intros j q p Hj. by eapply (Forall_lookup_1 _ _ _ _ Hun) in Hj. }
  destruct Hst as [a|a j q Hj|a j q upd k Hj|a j q bs Hj|a j q Hj|a j q bs Hj|a j q bs Hj Hbs];
    try (by destruct (Hno _ _ _ Hj)); (split; [done|]); (split; [done|]).
  - split; [apply Forall_app; split; [done|]; by repeat constructor|].
    split; [intros t; apply (anew (set_aprop a t))|]. intros i q Hi. simpl. by apply lookup_app_l_Some.
  - apply Forall_cons_1 in Hev as [Hq _]. split; [by apply unlaunched_set|].
    split; [intros t; by apply (acall (set_aprop a t))|]. intros i q' Hi. by eapply Hother.
  - split; [by apply unlaunched_set|].
    split; [intros t; by apply (areturn (set_aprop a t) j q)|]. intros i q' Hi. by eapply Hother.
  - split; [by apply unlaunched_set|].
    split; [intros t; by apply (areturn_any (set_aprop a t) j q)|]. intros i q' Hi. by eapply Hother.
Qed.

(** A turn ends where the atomic request leaves the property. *)
Lemma turn_returns a a' i q p0 t0 bs :
  a' = set_aprop a t0 -> a_open a = true -> a_clients a !! i = Some (ACalled q) ->
  q_pp q <> Launch -> body q = Some p0 -> run_prog p0 t0 = (a_prop a, Returned bs) ->
  asteps a' [] (set_client a i (ADone q (Some bs)) (a_prop a) true).
Proof. intros -> Ho Hi Hl Hb Hr. by apply asteps_trustee, (aexec (set_aprop a t0) i q p0). Qed.

Lemma istep_serial b ev b1 a' :
  istep b ev b1 /\ Forall no_launch ev -> serial b a' -> exists a1, asteps a' ev a1 /\ serial b1 a1.
Proof.
  intros [Hst Hev] (t0 & -> & Hun & Ht).
  destruct Hst as [a ev a1 tn Hc|a i q p Hi Ho Hl Hb|a i q p Hi Ho Hl Hb|a i q Hi Ho Hp|a i upd k l|
                   a i q bs l Hi|a i l]; simpl in *.
  - destruct (cstep_unlaunched _ _ _ Hc Hev Hun) as (Hp & Ho & Hun' & Hany & Hcalled).
    exists (set_aprop a1 t0). split; [apply traces_one, astep_client, Hany|].
    exists t0. split; [done|]. split; [done|]. simpl. destruct tn as [tn|]; [|by rewrite Hp].
    destruct Ht as (Hopen & q & Hq & Hr). split; [by rewrite Ho|]. exists q. split; [by apply Hcalled|].
    by rewrite Hp.
  - by eapply (Forall_lookup_1 _ _ _ _ Hun) in Hi.
  - exists (set_aprop a t0). split; [constructor|]. exists t0. split; [done|]. split; [done|].
    split; [done|]. exists q. split; [done|]. simpl. exists p. split; [done|]. by rewrite Ht.
  - exists (set_aprop a t0). split; [constructor|]. exists t0. split; [done|]. split; [done|].
    split; [done|]. exists q. simpl. by rewrite Ht.
  - destruct Ht as (Hopen & q & Hq & Hr). exists (set_aprop a t0). split; [constructor|].
    exists t0. split; [done|]. split; [done|]. split; [done|]. exists q. split; [done|]. simpl in *.
    destruct l; [by destruct Hr as (_ & ? & _)|]. done.
  - destruct Ht as (Hopen & q' & Hq & Hr). simpl in *. rewrite Hi in Hq. injection Hq as <-.
    pose proof (Forall_lookup_1 _ _ _ _ Hun Hi) as Hl. simpl in Hl.
    exists (set_client a i (ADone q (Some bs)) (a_prop a) (negb l)). split.
    + destruct l; [|destruct Hr as (p0 & Hb & Hr); by eapply turn_returns].
      destruct Hr as (Hp & [= ->] & Hpr). rewrite Hpr.
      by apply asteps_trustee, (ainto_inner (set_aprop a t0) i q).
    + eexists. split; [reflexivity|]. split; [by apply unlaunched_set|done].
  - destruct Ht as (Hopen & q & Hq & Hr). simpl in *. exists (close a). split.
    + destruct l; [by destruct Hr as (_ & ? & _)|]. destruct Hr as (p0 & Hb & Hr).
      pose proof (Forall_lookup_1 _ _ _ _ Hun Hq) as Hl.
      by apply asteps_trustee, (aexec_panic (set_aprop a t0) i q p0).
    + exists (a_prop a). by destruct a.
Qed.

Lemma isteps_serial b evs b1 a' :
  isteps b evs b1 -> Forall no_launch evs -> serial b a' -> exists a1, asteps a' evs a1 /\ serial b1 a1.
Proof.
  intros Hst Hev. apply traces_simulate with (R := fun s ev s' => istep s ev s' /\ Forall no_launch ev);
    [|by apply traces_events].
  intros s ev s1 s' Hs Hrel. by eapply istep_serial.
Qed.

Lemma astart_serial (t : T) : serial (free (astart t)) (astart t).
Proof. exists t. split; [done|]. split; [by repeat constructor|done]. Qed.
End atomic.

(** ** Progress *)
Section progress.
Context {T : Type} `{Repr T} (statics : Z -> option (ErasedVTable T)).
Implicit Types (f : fstate T) (s : system T) (cs : chan_state T).

(** What is left of [i]'s channel and of the worker's list is unchanged. *)
Definition same_call f f' (i : nat) : Prop :=
  s_drained (f_sys f') = s_drained (f_sys f) /\
  forall cs, s_chans (f_sys f) !! i = Some cs ->
  exists cs', s_chans (f_sys f') !! i = Some cs' /\ cs_client cs' = cs_client cs.

Lemma same_call_refl f i : same_call f f i.
Proof. split; [done|]. intros cs Hcs. by exists cs. Qed.
Lemma same_call_trans f f1 f2 i : same_call f f1 i -> same_call f1 f2 i -> same_call f f2 i.
Proof.
  intros [Hd H1] [Hd' H2]. split; [congruence|]. intros cs Hcs.
  destruct (H1 _ Hcs) as (cs1 & Hcs1 & E1). destruct (H2 _ Hcs1) as (cs2 & Hcs2 & E2).
  exists cs2. split; [done|congruence].
Qed.

(** A step of the worker inside a visit. *)
Lemma serve_once f a sv i :
  fsim statics f a -> f_service f = Some sv ->
  exists j w cs cs' t' k f1 a1, s_worker (f_sys f) = WLoaded j w /\
    s_chans (f_sys f) !! j = Some cs /\
    service_step statics cs (s_prop (f_sys f)) sv = Ok (cs', t', k) /\
    fexec statics f Serve = Some (Ok (f1, [])) /\ fsim statics f1 a1 /\ same_call f f1 i /\
    match k with
    | inl sv' => f_service f1 = Some sv' /\ s_chans (f_sys f1) !! j = Some cs' /\
                 s_prop (f_sys f1) = t' /\ s_worker (f_sys f1) = WLoaded j w
    | inr _ => f_service f1 = None /\ leaves (s_worker (f_sys f1))
    end.
Proof.
  intros Hs Hsv. pose proof (fs_turn _ _ _ Hs) as Ht. rewrite Hsv in Ht.
  destruct Ht as (j & w & cs & Hw & Hj & _).
  assert (Hm : fexec statics f Serve =
            Some (land (f_sys f) j (service_step statics cs (s_prop (f_sys f)) sv))).
  { unfold fexec. by rewrite Hw, Hsv, Hj. }
  destruct (fexec_goes statics _ _ Serve _ Hs I ltac:(done) Hm) as (f1 & ev & a1 & Hl & _ & Hs1).
  destruct (service_step statics cs (s_prop (f_sys f)) sv) as [[[cs' t'] k]| |] eqn:Hst; try done.
  pose proof Hl as Hl'. unfold land in Hl'. cbn [mbind res_bind] in Hl'. injection Hl' as Hf1 <-.
  exists j, w, cs, cs', t', k, f1, a1. split; [done|]. split; [done|]. split; [done|].
  split; [by rewrite Hm, Hl|]. split; [done|].
  assert (Hjj : <[j := cs']> (s_chans (f_sys f)) !! j = Some cs').
  { apply list_lookup_insert_eq. by eapply lookup_lt_Some. }
  split; [|destruct k; rewrite <-Hf1; [done|split; [done|by eapply service_leaves]]].
  split; [by rewrite <-Hf1; destruct k|]. intros csi Hi.
  assert (Hc : s_chans (f_sys f1) = <[j := cs']> (s_chans (f_sys f))) by (rewrite <-Hf1; by destruct k).
  rewrite Hc. destruct (decide (j = i)) as [->|Hne].
  - exists cs'. split; [done|]. rewrite Hj in Hi. injection Hi as <-. by eapply service_keeps_client.
  - exists csi. by rewrite list_lookup_insert_ne.
Qed.

(** The worker can finish the visit it is in. *)
Lemma finish_visit f a i :
  fsim statics f a ->
  exists acts f1 a1, fsteps statics f acts [] f1 /\ Forall (fun x => x = Serve) acts /\
    fsim statics f1 a1 /\ f_service f1 = None /\ same_call f f1 i /\
    (f_service f <> None -> leaves (s_worker (f_sys f1))).
Proof.
  intros Hs. destruct (f_service f) as [sv|] eqn:Hsv.
  2: { exists [], f, a. split; [constructor|]. split; [done|]. split; [done|]. split; [done|].
       split; [apply same_call_refl|done]. }
  pose proof (fs_turn _ _ _ Hs) as Ht. rewrite Hsv in Ht. destruct Ht as (j & w & cs & Hw & Hj & _).
  destruct (service_ends statics cs (s_prop (f_sys f)) sv) as (r & fuel & Hf).
  revert f a cs sv Hs Hsv Hw Hj Hf. induction fuel as [|fuel IH]; intros f a cs sv Hs Hsv Hw Hj Hf; [done|].
  destruct (serve_once f a sv i Hs Hsv) as
    (j' & w' & cs0 & cs' & t' & k & f1 & a1 & Hw' & Hj' & Hst & Hx & Hs1 & Hsame & Hk).
  rewrite Hw in Hw'. injection Hw' as <- <-. rewrite Hj in Hj'. injection Hj' as <-.
  simpl in Hf. rewrite Hst in Hf.
  assert (Hone : fsteps statics f [Serve] [] f1).
  { change (@nil (event T)) with (@nil (event T) ++ []) at 1. econstructor; [exact Hx|constructor]. }
  destruct k as [sv'|wk].
  - destruct Hk as (Hsv1 & Hj1 & <- & Hw1).
    destruct (IH f1 a1 cs' sv' Hs1 Hsv1 Hw1 Hj1 Hf) as (acts & f2 & a2 & Hst2 & Hok & Hs2 & Hn & Hsame2 & Hlv).
    exists (Serve :: acts), f2, a2. split; [by apply (fsteps_app _ _ _ _ _ _ _ _ Hone Hst2)|].
    split; [by constructor|]. split; [done|]. split; [done|].
    split; [by eapply same_call_trans|]. intros _. by apply Hlv.
  - destruct Hk. exists [Serve], f1, a1. split; [done|]. split; [by constructor|]. done.
Qed.

(** Steps of the worker inside visits. *)
Definition visiting (x : faction T) : Prop := match x with Enter | Serve => True | Base _ => False end.

Lemma visiting_ok acts : Forall visiting acts -> Forall (faction_ok statics) acts.
Proof. intros Ha. eapply Forall_impl; [exact Ha|]. by intros []. Qed.
Lemma serves_visiting acts : Forall (fun x => x = Serve) acts -> Forall visiting acts.
Proof. intros Ha. eapply Forall_impl; [exact Ha|]. by intros x ->. Qed.

(** The worker can get back to the head of its loop, or stops. *)
Lemma worker_idles f a :
  fsim statics f a ->
  exists acts f1 a1, fsteps statics f acts [] f1 /\ Forall visiting acts /\
    fsim statics f1 a1 /\ f_service f1 = None /\ leaves (s_worker (f_sys f1)).
Proof.
  intros Hs. destruct (finish_visit f a 0 Hs) as (acts & f1 & a1 & Hst & Hok%serves_visiting & Hs1 & Hn & _).
  destruct (s_worker (f_sys f1)) as [|i w|] eqn:Hw.
  1,3: exists acts, f1, a1; rewrite Hw; do 4 (split; [done|]); by (left + right).
  pose proof (sim_worker _ _ _ (fs_sim _ _ _ Hs1)) as Hk. unfold worker_ok in Hk. rewrite Hw in Hk.
  destruct Hk as (cs & Hi & _).
  assert (Hm : fexec statics f1 Enter = Some (land (f_sys f1) i (visit_begin cs w (s_prop (f_sys f1))))).
  { unfold fexec. by rewrite Hw, Hn, Hi. }
  destruct (fexec_goes statics _ _ Enter _ Hs1 I ltac:(done) Hm) as (f2 & ev & a2 & Hl & _ & Hs2).
  assert (Hone : fsteps statics f1 [Enter] [] f2 /\ (f_service f2 = None -> leaves (s_worker (f_sys f2)))).
  { destruct (visit_begin cs w (s_prop (f_sys f1))) as [[[cs' t'] k]| |] eqn:Hb; try done.
    pose proof Hl as Hl'. unfold land in Hl'. cbn [mbind res_bind] in Hl'. injection Hl' as Hf2 <-.
    split; [change (@nil (event T)) with (@nil (event T) ++ []) at 1; econstructor; [by rewrite Hm, Hl|constructor]|].
    intros Hn2. destruct k; rewrite <-Hf2 in *; [done|]. by eapply begin_leaves. }
  destruct Hone as [Hone Hlv]. pose proof (fsteps_app _ _ _ _ _ _ _ _ Hst Hone) as Hst2.
  destruct (finish_visit f2 a2 0 Hs2) as (acts3 & f3 & a3 & Hst3 & Hok3%serves_visiting & Hs3 & Hn3 & _ & Hlv3).
  destruct (f_service f2) as [sv|] eqn:Hsv2.
  - exists ((acts ++ [Enter]) ++ acts3), f3, a3. split; [by apply (fsteps_app _ _ _ _ _ _ _ _ Hst2 Hst3)|].
    split; [apply Forall_app; split; [apply Forall_app; split; [done|by constructor]|done]|].
    split; [done|]. split; [done|]. by apply Hlv3.
  - exists (acts ++ [Enter]), f2, a2. split; [done|].
    split; [apply Forall_app; split; [done|by constructor]|]. split; [done|]. split; [done|]. by apply Hlv.
Qed.

(** Client [i] is at a read that is undefined. *)
Definition garbage_next f (i : nat) : Prop :=
  fexec statics f (Base (ClientStep i)) = Some (UB not_a_value).

Lemma garbage_panicked f a i :
  fsim statics f a -> garbage_next f i ->
  exists q, a_clients (i_obj a) !! i = Some (ADone q None) /\ q_pp q = Launch.
Proof.
  intros Hs Hg. destruct (fexec_sim statics _ _ (Base (ClientStep i)) _ Hs I Hg)
    as [(f' & ev & a' & [=] & _)|(_ & j & y & [= <-] & Hj & q & -> & Hl)]. by exists q.
Qed.

(** Steps of the worker, of client [i] and of its fiber. *)
Definition alone (i : nat) (x : faction T) : Prop :=
  match x with Base x => own i x | Enter | Serve => True end.

Lemma alone_ok i x : alone i x -> faction_ok statics x.
Proof. destruct x; simpl; [by apply own_ok|done..]. Qed.

Lemma can_always_return_steps f a i cs :
  fsim statics f a -> s_chans (f_sys f) !! i = Some cs -> cs_client cs <> CIdle ->
  (i < s_drained (f_sys f))%nat ->
  exists acts evs f', fsteps statics f acts evs f' /\ Forall (alone i) acts /\
    ((exists bs, evs = [EReturn i bs]) \/
     evs = [] /\ (s_worker (f_sys f') = WStopped \/ garbage_next f' i)).
Proof.
  intros Hs Hi Hc Hd.
  destruct (finish_visit f a i Hs) as (acts & f1 & a1 & Hst & Hok & Hs1 & Hn & (Hd1 & Hsame) & _).
  destruct (Hsame _ Hi) as (cs1 & Hi1 & Hcl). rewrite <-Hd1 in Hd.
  destruct f1 as [s1 o]. simpl in Hn, Hi1, Hd. subst o.
  destruct (can_always_return statics i s1 (i_obj a1) cs1 (fs_sim _ _ _ Hs1) Hi1) as
    (acts2 & evs & s2 & Hst2 & Hok2 & Hret); [congruence|done|].
  destruct (steps_fsteps statics _ _ _ _ Hst2) as (acts3 & Hst3 & Hin).
  exists (acts ++ acts3), evs, {| f_sys := s2; f_service := None |}.
  split; [by apply (fsteps_app _ _ _ _ _ _ _ _ Hst Hst3)|].
  split; [|destruct Hret as [?|[? [?|Hg]]]; [by left|by auto|right; split; [done|right]];
           unfold garbage_next; cbn [fexec f_sys]; by rewrite Hg].
  apply Forall_app. split; [eapply Forall_impl; [exact Hok|by intros x ->]|].
  eapply Forall_impl; [exact Hin|].
  intros [x| |]; [|done..]. intros Hx. simpl. by eapply Forall_forall in Hok2.
Qed.
End progress.

(** ** Calls to their ends *)
Section calls.
Context {T : Type} `{Repr T} (statics : Z -> option (ErasedVTable T)).
Implicit Types (f : fstate T) (b : istate T).

Lemma rel_idle cs x : chan_rel statics cs x -> (x = AIdle <-> cs_client cs = CIdle).
Proof.
  intros [_ Hc]. unfold client_rel in Hc. destruct (cs_client cs) as [|q|q w|q w|q].
  - by destruct Hc as [-> _].
  - by destruct Hc as [-> _].
  - by destruct Hc as [-> _].
  - destruct Hc as (_ & _ & _ & _ & Hw). split; [|done].
    destruct Hw as [?|f x ? ? ? ? (_ & _ & Hf)|]; try done. intros ->.
    destruct (fb_state f); [by destruct Hf as (p & _ & _ & ?)|by destruct Hf|by destruct Hf as (o & ? & _)].
  - by destruct Hc as (o & -> & _).
Qed.

Lemma fstep_then f x f1 acts evs f' :
  fexec statics f x = Some (Ok (f1, [])) -> fsteps statics f1 acts evs f' ->
  fsteps statics f (x :: acts) evs f'.
Proof. intros Hx Hst. by apply (fsteps_cons statics f x f1 [] acts evs f'). Qed.

(** Handles can be cloned at any time. *)
Lemma registers f n :
  exists acts f', fsteps statics f acts [] f' /\ Forall (faction_ok statics) acts /\
    (n <= length (s_chans (f_sys f')))%nat /\
    forall i cs, s_chans (f_sys f') !! i = Some cs -> s_chans (f_sys f) !! i = Some cs \/ cs_client cs = CIdle.
Proof.
  remember (n - length (s_chans (f_sys f)))%nat as k eqn:Hk. revert f Hk.
  induction k as [|k IH]; intros f Hk.
  - exists [], f. split; [constructor|]. split; [done|]. split; [lia|auto].
  - set (f1 := {| f_sys := {| s_prop := s_prop (f_sys f); s_chans := s_chans (f_sys f) ++ [fresh_chan 65536];
                              s_drained := s_drained (f_sys f); s_worker := s_worker (f_sys f) |};
                  f_service := f_service f |}).
    destruct (IH f1) as (acts & f' & Hst & Hok & Hl & Hch); [simpl; rewrite length_app; simpl; lia|].
    exists (Base (Register 65536) :: acts), f'. split; [by apply (fstep_then _ _ f1)|].
    split; [constructor; [done|done]|]. split; [done|]. intros i cs Hi.
    destruct (Hch _ _ Hi) as [Hi1|?]; [|by right]. simpl in Hi1.
    apply lookup_app_Some in Hi1 as [?|[_ Hi1]]; [by left|right].
    by apply list_lookup_singleton_Some in Hi1 as [_ <-].
Qed.

(** A worker at the head of its loop takes in the channels it finds. *)
Lemma drains f i :
  s_worker (f_sys f) = WReady -> (i < length (s_chans (f_sys f)))%nat ->
  exists acts f', fsteps statics f acts [] f' /\ Forall (faction_ok statics) acts /\
    (i < s_drained (f_sys f'))%nat.
Proof.
  intros Hw Hi. remember (S i - s_drained (f_sys f))%nat as k eqn:Hk. revert f Hw Hi Hk.
  induction k as [|k IH]; intros f Hw Hi Hk.
  - exists [], f. split; [constructor|]. split; [done|lia].
  - set (f1 := {| f_sys := {| s_prop := s_prop (f_sys f); s_chans := s_chans (f_sys f);
                              s_drained := S (s_drained (f_sys f)); s_worker := WReady |};
                  f_service := f_service f |}).
    destruct (IH f1) as (acts & f' & Hst & Hok & Hl); [done|done|simpl; lia|].
    exists (Base Drain :: acts), f'. split; [|split; [by constructor|done]].
    apply (fstep_then _ _ f1); [|done]. cbn [fexec exec]. rewrite Hw.
    destruct (Nat.ltb_spec (s_drained (f_sys f)) (length (s_chans (f_sys f)))); [done|lia].
Qed.


(** Steps that show nothing begin and end no call. *)
Lemma istep_silent b b' i x :
  istep b [] b' -> a_clients (i_obj b) !! i = Some x ->
  exists x', a_clients (i_obj b') !! i = Some x' /\ (x' = AIdle <-> x = AIdle).
Proof.
  assert (forall a j y z t o, a_clients a !! i = Some x -> a_clients a !! j = Some y -> y <> AIdle -> z <> AIdle ->
    exists x', a_clients (set_client a j z t o) !! i = Some x' /\ (x' = AIdle <-> x = AIdle)) as Hset.
  { intros a j y z t o Hi Hj Hy Hz. simpl. destruct (decide (j = i)) as [->|Hne].
    - rewrite Hi in Hj. injection Hj as <-. exists z. rewrite list_lookup_insert_eq by (by eapply lookup_lt_Some). done.
    - exists x. by rewrite list_lookup_insert_ne. }
  intros Hst Hi. remember [] as ev eqn:He.
  destruct Hst as [a ev a' tn Hst|a j q p Ha| | | |a j q bs l Ha|]; try (by exists x); [|by eapply Hset..].
  destruct Hst as [a|a j q Ha|a j q upd k Ha|a j q bs Ha|a j q Ha|a j q bs Ha|a j q bs Ha Hz]; try done;
    [|by eapply Hset..].
  exists x. split; [|done]. by apply lookup_app_l_Some.
Qed.

Lemma isteps_silent b evs b' :
  isteps b evs b' -> evs = [] -> forall i x, a_clients (i_obj b) !! i = Some x ->
  exists x', a_clients (i_obj b') !! i = Some x' /\ (x' = AIdle <-> x = AIdle).
Proof.
  induction 1 as [b|b ev b1 evs b2 Hst _ IH]; intros He i x Hx; [by exists x|].
  apply app_eq_nil in He as [-> ->]. destruct (istep_silent _ _ _ _ Hst Hx) as (x1 & Hx1 & E1).
  destruct (IH eq_refl _ _ Hx1) as (x2 & Hx2 & E2). exists x2. split; [done|]. by rewrite E2.
Qed.

Lemma fsteps_silent f b acts f' :
  fsim statics f b -> fsteps statics f acts [] f' -> Forall (faction_ok statics) acts ->
  exists b', fsim statics f' b' /\ forall i cs, s_chans (f_sys f) !! i = Some cs ->
    exists cs', s_chans (f_sys f') !! i = Some cs' /\ (cs_client cs' = CIdle <-> cs_client cs = CIdle).
Proof.
  intros Hs Hst Hok. destruct (fsteps_sim statics _ _ _ _ _ Hst Hok Hs) as (b' & Hb & Hs').
  exists b'. split; [done|]. intros i cs Hi. destruct (sim_lookup _ _ _ _ _ (fs_sim _ _ _ Hs) Hi) as (x & Hx & Hrel).
  destruct (isteps_silent _ _ _ Hb eq_refl _ _ Hx) as (x' & Hx' & E).
  destruct (Forall2_lookup_r _ _ _ _ _ (sim_chans _ _ _ (fs_sim _ _ _ Hs')) Hx') as (cs' & Hi' & Hrel').
  exists cs'. split; [done|]. by rewrite <-(rel_idle _ _ Hrel'), E, (rel_idle _ _ Hrel).
Qed.

(** A call under way can be brought to its return, or the worker is gone, or
    its launched closure panicked. *)
Lemma call_returns f b i cs :
  fsim statics f b -> s_chans (f_sys f) !! i = Some cs -> cs_client cs <> CIdle ->
  exists acts evs f', fsteps statics f acts evs f' /\ Forall (faction_ok statics) acts /\
    ((exists bs, evs = [EReturn i bs]) \/
     evs = [] /\ (s_worker (f_sys f') = WStopped \/ garbage_next statics f' i)).
Proof.
  intros Hs Hi Hc. destruct (worker_idles statics f b Hs) as (acts & f1 & b1 & Hst & Hok%(visiting_ok statics) & Hs1 & _ & Hw).
  destruct Hw as [Hw|Hw]; [|exists acts, [], f1; split; [done|]; split; [done|]; right; by auto].
  destruct (drains f1 i Hw) as (acts2 & f2 & Hst2 & Hok2 & Hd).
  { destruct (fsteps_silent _ _ _ _ Hs Hst Hok) as (_ & _ & Hk). destruct (Hk _ _ Hi) as (cs1 & Hi1 & _).
    by eapply lookup_lt_Some. }
  pose proof (fsteps_app _ _ _ _ _ _ _ _ Hst Hst2) as Hst02.
  assert (Forall (faction_ok statics) (acts ++ acts2)) as Hok02 by (by apply Forall_app).
  destruct (fsteps_silent _ _ _ _ Hs Hst02 Hok02) as (b2 & Hs2 & Hk). destruct (Hk _ _ Hi) as (cs2 & Hi2 & E).
  destruct (can_always_return_steps statics _ _ _ _ Hs2 Hi2 ltac:(by rewrite E) Hd) as
    (acts3 & evs & f3 & Hst3 & Hal & Hr).
  exists ((acts ++ acts2) ++ acts3), evs, f3. split; [by apply (fsteps_app _ _ _ _ _ _ _ _ Hst02 Hst3)|].
  split; [|done]. apply Forall_app. split; [done|]. eapply Forall_impl; [exact Hal|apply alone_ok].
Qed.

(** An idle handle, also one to come, can be called on. *)
Lemma call_enters f b i q :
  fsim statics f b -> request_ok statics q ->
  (forall cs, s_chans (f_sys f) !! i = Some cs -> cs_client cs = CIdle) ->
  exists acts f', fsteps statics f acts [ECall i q] f' /\ Forall (faction_ok statics) acts.
Proof.
  intros Hs Hq Hidle. destruct (registers f (S i)) as (acts & f1 & Hst & Hok & Hlen & Hch).
  destruct (lookup_lt_is_Some_2 (s_chans (f_sys f1)) i) as [cs Hi]; [lia|].
  assert (cs_client cs = CIdle) as Hc by (destruct (Hch _ _ Hi); auto).
  destruct (fsteps_sim statics _ _ _ _ _ Hst Hok Hs) as (b1 & _ & Hs1).
  assert (exists m, fexec statics f1 (Base (Call i q)) = Some m) as [m Hx].
  { cbn [fexec exec]. rewrite Hi. cbn [mbind option_bind]. rewrite Hc. by eexists. }
  destruct (fexec_goes statics _ _ (Base (Call i q)) _ Hs1 Hq ltac:(done) Hx) as (f2 & ev & b2 & -> & _ & _).
  pose proof (fexec_events statics _ _ _ _ Hx) as He. simpl in He. subst ev.
  exists (acts ++ [Base (Call i q)]), f2. split; [|by apply Forall_app; split; [|by constructor]].
  apply (fsteps_app statics _ _ [] _ _ [ECall i q] _ Hst).
  rewrite <-(app_nil_r [ECall i q]). econstructor; [exact Hx|constructor].
Qed.
End calls.


(** ** Properties *)
Section properties.
Context {T : Type} `{Repr T} (statics : Z -> option (ErasedVTable T)).

(** C1: every execution of clients, worker and fibers, access by access and
    in any interleaving and visiting order, shows the calls and returns of the
    abstract object: each request is executed once, between its call and its
    return, the exclusive ones one at a time and in the order of their
    accesses, launched closures interleaved with them, and the return carries
    the request's own result.  The property is the abstract one throughout. *)
Theorem interleaving_refines_object (t : T) (addr : Z) acts evs f
    (Haddr : 0 <= addr /\ addr + SLOT_BYTES < usize_modulus)
    (Hacts : Forall (faction_ok statics) acts)
    (Hrun : fsteps statics (fstart t addr) acts evs f) :
  exists a, isteps (free (astart t)) evs a /\
    a_prop (i_obj a) = s_prop (f_sys f) /\ a_open (i_obj a) = is_open (s_worker (f_sys f)).
Proof.
  destruct (fsteps_sim _ _ _ _ _ _ Hrun Hacts (fstart_sim statics t addr Haddr))
    as (a & Ha & [[Hp Ho _ _] _]). by exists a.
Qed.

(** As long as nobody calls [launch], the object is atomic: the calls and
    returns are those of requests executed in one step each, although the
    machine runs them access by access; and between visits the property is
    the one these steps leave. *)
Theorem launch_free_is_atomic (t : T) (addr : Z) acts evs f
    (Haddr : 0 <= addr /\ addr + SLOT_BYTES < usize_modulus)
    (Hacts : Forall (faction_ok statics) acts)
    (Hrun : fsteps statics (fstart t addr) acts evs f)
    (Hfree : Forall no_launch evs) :
  exists a, asteps (astart t) evs a /\ a_open a = is_open (s_worker (f_sys f)) /\
    (f_service f = None -> a_prop a = s_prop (f_sys f)).
Proof.
  destruct (fsteps_sim _ _ _ _ _ _ Hrun Hacts (fstart_sim statics t addr Haddr))
    as (b & Hb & [[Hp Ho _ _] Ht]).
  destruct (isteps_serial _ _ _ _ Hb Hfree (astart_serial t)) as (a & Ha & t0 & -> & _ & Hs).
  eexists. split; [exact Ha|]. split; [exact Ho|]. intros Hn. rewrite Hn in Ht. rewrite Ht in Hs.
  simpl. by rewrite Hs.
Qed.

(** C3: as long as the records and the results of the requests fit their slots
    ([faction_ok]), the machine reaches undefined behaviour in one place only,
    and a panic outside a closure nowhere: whatever can happen next goes
    through, unless it is a caller reading back the result of its [launch],
    the launched closure has panicked, and the bytes it left in the slot are
    no value of the result type (which does happen, [garbage_read_happens]). *)
Theorem interleaving_never_undefined (t : T) (addr : Z) acts evs f x m
    (Haddr : 0 <= addr /\ addr + SLOT_BYTES < usize_modulus)
    (Hacts : Forall (faction_ok statics) acts)
    (Hrun : fsteps statics (fstart t addr) acts evs f)
    (Hx : faction_ok statics x) (Hm : fexec statics f x = Some m) :
  (exists f' ev, m = Ok (f', ev)) \/
  exists a i q, isteps (free (astart t)) evs a /\
    a_clients (i_obj a) !! i = Some (ADone q None) /\ q_pp q = Launch /\
    x = Base (ClientStep i) /\ m = UB not_a_value.
Proof.
  destruct (fsteps_sim _ _ _ _ _ _ Hrun Hacts (fstart_sim statics t addr Haddr)) as (a & Ha & Hs).
  destruct (fexec_sim _ _ _ _ _ Hs Hx Hm) as [(f' & ev & _ & -> & _)|Hg]; [left; by exists f', ev|right].
  destruct x as [x| |]; [|done..]. destruct Hg as (-> & i & y & -> & Hi & q & -> & Hl).
  by exists a, i, q.
Qed.

(** C4: no deadlock and no lost answer: from every reachable state, also in
    the middle of a visit, a call in progress on a channel the worker knows
    can be brought to its return by steps of the worker, the client and its
    fiber alone, so that neither the other clients nor their launched closures
    can hold it up, unless the worker stops (a closure panicked on it, or the
    property was taken out) or the call is a [launch] whose own closure panicked
    and left bytes that are no value to return (C3). *)
Theorem interleaving_calls_can_return (t : T) (addr : Z) acts evs f i cs
    (Haddr : 0 <= addr /\ addr + SLOT_BYTES < usize_modulus)
    (Hacts : Forall (faction_ok statics) acts)
    (Hrun : fsteps statics (fstart t addr) acts evs f)
    (Hi : s_chans (f_sys f) !! i = Some cs) (Hcall : cs_client cs <> CIdle)
    (Hdrained : (i < s_drained (f_sys f))%nat) :
  exists acts' evs' f', fsteps statics f acts' evs' f' /\ Forall (alone i) acts' /\
    ((exists bs, evs' = [EReturn i bs]) \/
     evs' = [] /\ (s_worker (f_sys f') = WStopped \/
                   fexec statics f' (Base (ClientStep i)) = Some (UB not_a_value))).
Proof.
  destruct (fsteps_sim _ _ _ _ _ _ Hrun Hacts (fstart_sim statics t addr Haddr)) as (a & _ & Hs).
  by eapply can_always_return_steps.
Qed.

(** C18: slots change hands: outside its wait loop a client has its channel
    for itself, with the bits equal and no fiber on it, and a visit that
    begins with the word the worker loaded leaves the channel alone; a fiber
    runs only while the client waits unanswered, and then there is just one;
    and while the worker executes a closure for a channel, its client waits
    unanswered and no fiber is on it. *)
Theorem slots_have_one_holder (t : T) (addr : Z) acts evs f i cs
    (Haddr : 0 <= addr /\ addr + SLOT_BYTES < usize_modulus)
    (Hacts : Forall (faction_ok statics) acts)
    (Hrun : fsteps statics (fstart t addr) acts evs f)
    (Hi : s_chans (f_sys f) !! i = Some cs) :
  ((forall q b, cs_client cs <> CWaiting q b) ->
     cs_fibers cs = [] /\ req_bit (cs_chan cs) = resp_bit (cs_chan cs) /\
     forall w, s_worker (f_sys f) = WLoaded i w -> f_service f = None ->
     exists cp, visit_begin cs w (s_prop (f_sys f)) = over (with_cp cs cp) (s_prop (f_sys f)) WReady) /\
  (forall fb, fb ∈ cs_fibers cs ->
     exists q b, cs_client cs = CWaiting q b /\ resp_bit (cs_chan cs) = negb b /\ cs_fibers cs = [fb]) /\
  (forall w sv, s_worker (f_sys f) = WLoaded i w -> f_service f = Some sv ->
     match sv with SRecord _ => True | _ =>
       cs_fibers cs = [] /\
       exists q b, cs_client cs = CWaiting q b /\ resp_bit (cs_chan cs) = negb b end).
Proof.
  destruct (fsteps_sim _ _ _ _ _ _ Hrun Hacts (fstart_sim statics t addr Haddr)) as (a & _ & [Hs Ht]).
  destruct (sim_lookup _ _ _ _ _ Hs Hi) as (x & _ & Hrel). split; [|split].
  - intros Hc. pose proof (quiet_outside statics cs x Hrel Hc) as [Hb Hf _]. split; [done|].
    split; [done|]. intros w Hw _. pose proof (sim_worker _ _ _ Hs) as Hk. unfold worker_ok in Hk.
    rewrite Hw in Hk. destruct Hk as (cs' & Hi' & Hl). rewrite Hi in Hi'. injection Hi' as <-.
    assert (Hr : ready w = resp_bit (cs_chan cs)) by (destruct Hl as [->|[? _]]; done).
    unfold visit_begin, launch_gate. fold (resp_bit (cs_chan cs)). rewrite Hr, Bool.eqb_reflx.
    destruct (cp_pending_launch (cs_cp cs)); eexists; reflexivity.
  - intros fb Hf. apply list_elem_of_lookup in Hf as [k Hk].
    destruct (fiber_alone _ _ _ _ _ Hrel Hk) as (q & b & _ & Hc & _ & _ & _ & _ & Hr & Hfs & _).
    by exists q, b.
  - intros w sv Hw Hsv. rewrite Hsv in Ht. destruct Ht as (i' & w' & cs' & Hw' & Hi' & Hsr).
    rewrite Hw in Hw'. injection Hw' as <- <-. rewrite Hi in Hi'. injection Hi' as <-.
    assert (Hin : forall q b, in_service statics cs w q b -> cs_fibers cs = [] /\
              exists q b, cs_client cs = CWaiting q b /\ resp_bit (cs_chan cs) = negb b).
    { intros q b [[] _ _]. split; [done|]. by exists q, b. }
    destruct Hsr; eauto.
Qed.
End properties.

(** ** A schedule on the byte counter *)
Module Schedule.
Import Counter.

(** Two handles: the first launches a reader, the second runs [incr] twice
    in a batch, and the reader's fiber comes between the two. *)
Definition L : rpc Byte.byte := launch_request reader.
Definition B : rpc Byte.byte := apply_batch_mut_request incr 2.
Definition acts : list (faction Byte.byte) :=
  map Base [Register 131072; Drain; Drain; Call 0 L; ClientStep 0; ClientStep 0; LoadReq 0] ++
  [Enter; Serve; Serve] ++
  map Base [Call 1 B; ClientStep 1; ClientStep 1; LoadReq 1] ++
  [Enter; Serve; Serve; Serve] ++
  map Base [FiberStep 0 0; FiberStep 0 0; FiberStep 0 0; FiberStep 0 0; ClientStep 0; ClientStep 0] ++
  [Serve; Serve; Serve; Serve; Serve; Serve] ++
  map Base [ClientStep 1; ClientStep 1].
Definition evs : list (event Byte.byte) := [ECall 0 L; ECall 1 B; EReturn 0 [6]; EReturn 1 []].

Definition first : fstate Byte.byte := fstart Byte.x05 65536.
Definition after (acts : list (faction Byte.byte)) : fstate Byte.byte :=
  match frun statics first acts with Some (Ok (f, _)) => f | _ => first end.
(** Up to the moment the reader has answered, in the middle of the batch. *)
Definition halfway : list (faction Byte.byte) := take 24 acts.

Lemma L_ok : request_ok statics L.
Proof. apply out_request_ok; [apply reader_linked|reflexivity|apply u8_fits|by right|done]. Qed.
Lemma B_ok : request_ok statics B.
Proof. apply apply_batch_mut_request_ok; [apply incr_linked|reflexivity|done]. Qed.
Lemma fine_acts_ok : Forall (faction_ok statics) acts.
Proof.
  repeat (constructor; [first [exact L_ok|exact B_ok|exact I|done]|]). constructor.
Qed.
Lemma halfway_ok : Forall (faction_ok statics) halfway.
Proof. apply Forall_take, fine_acts_ok. Qed.
Lemma fine_runs_acts : fsteps statics first acts evs (after acts).
Proof. apply frun_fsteps. vm_compute. reflexivity. Qed.
Lemma runs_halfway : fsteps statics first halfway (take 3 evs) (after halfway).
Proof. apply frun_fsteps. vm_compute. reflexivity. Qed.
Lemma fine_addr_ok : 0 <= 65536 /\ 65536 + SLOT_BYTES < usize_modulus.
Proof. done. Qed.
Definition chan (i : nat) : chan_state Byte.byte := nth i (s_chans (f_sys (after halfway))) (fresh_chan 0).
Lemma chan_1 : s_chans (f_sys (after halfway)) !! 1%nat = Some (chan 1).
Proof. vm_compute. reflexivity. Qed.
Lemma chan_1_calls : cs_client (chan 1) <> CIdle.
Proof. vm_compute. done. Qed.

(** The same batch alone. *)
Definition quiet_acts : list (faction Byte.byte) :=
  map Base [Drain; Call 0 B; ClientStep 0; ClientStep 0; LoadReq 0] ++
  [Enter; Serve; Serve; Serve; Serve; Serve; Serve; Serve; Serve; Serve] ++
  map Base [ClientStep 0; ClientStep 0].
Definition quiet_evs : list (event Byte.byte) := [ECall 0 B; EReturn 0 []].
Lemma quiet_ok : Forall (faction_ok statics) quiet_acts.
Proof. repeat (constructor; [first [exact B_ok|exact I|done]|]). constructor. Qed.
Lemma runs_quiet : fsteps statics first quiet_acts quiet_evs (after quiet_acts).
Proof. apply frun_fsteps. vm_compute. reflexivity. Qed.
Lemma quiet_free : Forall no_launch quiet_evs.
Proof. by repeat constructor. Qed.

(** In the atomic object the batch keeps the counter odd, so a reader never
    sees it even. *)
Definition odd (b : Byte.byte) : Prop := Z.odd (Z.of_N (Byte.to_N b)) = true.
Definition odd_answer (bs : list Z) : Prop := bs = [] \/ exists b, odd b /\ bs = to_bytes b.
Definition odd_client (x : aclient Byte.byte) : Prop :=
  match x with
  | AIdle => True
  | ACalled q => q = L \/ q = B
  | ARunning q p => q = L /\ (Some p = body L \/ exists b, odd b /\ p = PRet (to_bytes b))
  | ADone q o => exists bs, o = Some bs /\ odd_answer bs
  end.
Record odd_state (a : astate Byte.byte) : Prop := {
  od_prop : odd (a_prop a);
  od_clients : Forall odd_client (a_clients a);
}.
Definition odd_event (e : event Byte.byte) : Prop :=
  match e with ECall _ q => q = L \/ q = B | EReturn _ _ => True end.

Lemma incr_twice_odd t : odd t -> odd (Counter.add 1 (Counter.add 1 t)).
Proof. unfold odd. by destruct t; vm_compute. Qed.

Lemma B_runs p (t t' : Byte.byte) bs :
  body B = Some p -> run_prog p t = (t', Returned bs) -> t' = Counter.add 1 (Counter.add 1 t) /\ bs = [].
Proof. intros [= <-]. simpl. by intros [= <- <-]. Qed.
Lemma B_returns p (t t' : Byte.byte) : body B = Some p -> run_prog p t <> (t', Panicked).
Proof. by intros [= <-]. Qed.

Lemma odd_set a i x t o :
  odd_state a -> odd t -> odd_client x -> odd_state (set_client a i x t o).
Proof. intros [_ Hc] Ht Hx. constructor; [done|]. by apply Forall_insert. Qed.

Lemma odd_step a ev a' :
  astep a ev a' /\ Forall odd_event ev -> odd_state a ->
  odd_state a' /\ Forall (fun e => match e with EReturn _ bs => odd_answer bs | _ => True end) ev.
Proof.
  intros [Hst Hev] Ha. pose proof Ha as [Hp Hc].
  destruct Hst as [a ev a' Hst|a a' Hst];
    [destruct Hst as [a|a i q Hi|a i q upd k Hi|a i q bs Hi|a i q Hi|a i q bs Hi|a i q bs Hi Hz]|
     destruct Hst as [a i q p t' bs Hi Ho Hl Hb Hr|a i q p t' Hi Ho Hl Hb Hr|a i q Hi Ho Hl|a i q p Hi Ho Hl Hb]];
    try (pose proof (Forall_lookup_1 _ _ _ _ Hc Hi) as Hx; simpl in Hx).
  - split; [|done]. constructor; [done|]. apply Forall_app. split; [done|]. by repeat constructor.
  - apply Forall_cons_1 in Hev as [Hq _]. split; [by apply odd_set|]. by repeat constructor.
  - destruct Hx as (-> & [[= -> ->]|(b & _ & ?)]); [|done]. split; [|done].
    apply odd_set; [done|done|]. split; [done|]. right. by exists (a_prop a).
  - destruct Hx as (-> & [?|(b & Hb & [= ->])]); [done|]. split; [|done].
    apply odd_set; [done|done|]. eexists. split; [done|]. right. by exists b.
  - by destruct Hx as (_ & [?|(b & _ & ?)]).
  - destruct Hx as (bs' & [= <-] & Hbs). split; [by apply odd_set|]. constructor; [done|constructor].
  - by destruct Hx as (? & ? & _).
  - destruct Hx as [->| ->]; [by destruct Hl|].
    destruct (B_runs _ _ _ _ Hb Hr) as [-> ->]. split; [|done].
    apply odd_set; [done|by apply incr_twice_odd|]. eexists. split; [done|]. by left.
  - destruct Hx as [->| ->]; [by destruct Hl|]. by destruct (B_returns _ _ _ Hb Hr).
  - by destruct Hx as [->| ->].
  - destruct Hx as [->| ->]; [|done]. split; [|done]. apply odd_set; [done|done|]. split; [done|]. by left.
Qed.

Lemma odd_traces a evs a' :
  asteps a evs a' -> Forall odd_event evs -> odd_state a ->
  Forall (fun e => match e with EReturn _ bs => odd_answer bs | _ => True end) evs.
Proof.
  intros Hst Hev Ha. apply traces_events with (P := odd_event) in Hst; [|done]. clear Hev.
  induction Hst as [|a ev a1 evs a2 Hs _ IH]; [constructor|].
  destruct (odd_step _ _ _ Hs Ha) as [Ha1 Hev]. apply Forall_app. auto.
Qed.
End Schedule.

(** The exception in [interleaving_never_undefined] is met: a call is answered
    with the byte 5, then a launched closure panics whose result is a [bool],
    and its caller reads the 5 as one. *)
Module Garbage.
Import Counter.
Definition bomb_bool : user_fn Byte.byte unit bool :=
  {| u_size := 0; u_align := 1; u_env := [];
     u_body := fun _ _ => PStep (add 1) (fun _ => PPanic); u_vtable := 16384 |}.
Definition G : rpc Byte.byte := launch_request bomb_bool.
Definition Rd : rpc Byte.byte := apply_request reader.
Definition acts : list (faction Byte.byte) :=
  map Base [Drain; Call 0 Rd; ClientStep 0; ClientStep 0; LoadReq 0] ++
  [Enter; Serve; Serve; Serve; Serve] ++
  map Base [ClientStep 0; ClientStep 0; Call 0 G; ClientStep 0; ClientStep 0; LoadReq 0] ++
  [Enter; Serve; Serve] ++
  map Base [FiberStep 0 0; FiberStep 0 0; FiberStep 0 0; FiberStep 0 0; ClientStep 0].
Lemma garbage_acts_ok : Forall (faction_ok statics) acts.
Proof.
  assert (request_ok statics Rd) as HR
    by (apply out_request_ok; [apply reader_linked|reflexivity|apply u8_fits|by left|done]).
  assert (request_ok statics G) as HG.
  { apply out_request_ok; [apply bomb_linked|reflexivity| |by right|done].
    done. }
  repeat (constructor; [first [exact HR|exact HG|exact I|done]|]). constructor.
Qed.
End Garbage.

Lemma garbage_read_happens :
  exists acts evs f, Forall (faction_ok Counter.statics) acts /\
    fsteps Counter.statics (fstart Byte.x05 65536) acts evs f /\
    fexec Counter.statics f (Base (ClientStep 0)) = Some (UB not_a_value).
Proof.
  exists Garbage.acts, [ECall 0 Garbage.Rd; EReturn 0 [5]; ECall 0 Garbage.G], (Schedule.after Garbage.acts).
  split; [exact Garbage.garbage_acts_ok|]. split; [apply frun_fsteps|]; vm_compute; reflexivity.
Qed.

(** C17: with launches the object is not atomic: there is an execution in which a
    launched reader answers with what it saw between the two calls of another
    client's batch (6, on its way from 5 to 7), and no execution of the atomic
    object shows these calls and returns. *)
Theorem launch_sees_half_a_batch :
  exists acts f,
    Forall (faction_ok Counter.statics) acts /\
    fsteps Counter.statics (fstart Byte.x05 65536) acts Schedule.evs f /\
    s_prop (f_sys f) = Byte.x07 /\ EReturn 0 [6] ∈ Schedule.evs /\
    ~ exists a, asteps (astart Byte.x05) Schedule.evs a.
Proof.
  exists Schedule.acts, (Schedule.after Schedule.acts).
  split; [exact Schedule.fine_acts_ok|]. split; [exact Schedule.fine_runs_acts|].
  split; [vm_compute; reflexivity|]. split; [right; right; left|].
  intros [a Ha]. apply Schedule.odd_traces in Ha.
  - apply Forall_cons_1 in Ha as [_ Ha]. apply Forall_cons_1 in Ha as [_ Ha].
    apply Forall_cons_1 in Ha as [[Hn|(b & Hb & Hbs)] _]; [done|].
    revert Hb Hbs. by destruct b; vm_compute.
  - repeat constructor; by first [left|right].
  - constructor; [done|]. by repeat constructor.
Qed.

Lemma interleaving_refines_object_witness :
  exists a, isteps (free (astart Byte.x05)) Schedule.evs a /\
    a_prop (i_obj a) = s_prop (f_sys (Schedule.after Schedule.acts)) /\
    a_open (i_obj a) = is_open (s_worker (f_sys (Schedule.after Schedule.acts))).
Proof.
  exact (interleaving_refines_object Counter.statics Byte.x05 65536 _ _ _ Schedule.fine_addr_ok
           Schedule.fine_acts_ok Schedule.fine_runs_acts).
Defined.

Lemma launch_free_is_atomic_witness :
  exists a, asteps (astart Byte.x05) Schedule.quiet_evs a /\
    a_open a = is_open (s_worker (f_sys (Schedule.after Schedule.quiet_acts))) /\
    (f_service (Schedule.after Schedule.quiet_acts) = None ->
     a_prop a = s_prop (f_sys (Schedule.after Schedule.quiet_acts))).
Proof.
  exact (launch_free_is_atomic Counter.statics Byte.x05 65536 _ _ _ Schedule.fine_addr_ok
           Schedule.quiet_ok Schedule.runs_quiet Schedule.quiet_free).
Defined.

(** The next step of the batch, after the reader has answered. *)
Lemma interleaving_never_undefined_witness :
  exists f' ev, fexec Counter.statics (Schedule.after Schedule.halfway) Serve = Some (Ok (f', ev)).
Proof.
  destruct (fexec Counter.statics (Schedule.after Schedule.halfway) Serve) as [m|] eqn:Hm;
    [|exfalso; revert Hm; vm_compute; done].
  destruct (interleaving_never_undefined Counter.statics Byte.x05 65536 _ _ _ Serve m
              Schedule.fine_addr_ok Schedule.halfway_ok Schedule.runs_halfway I Hm)
    as [(f' & ev & ->)|(a & i & q & _ & _ & _ & Hx & _)]; [by exists f', ev|done].
Defined.

Lemma interleaving_calls_can_return_witness :
  exists acts' evs' f', fsteps Counter.statics (Schedule.after Schedule.halfway) acts' evs' f' /\
    Forall (alone 1) acts' /\
    ((exists bs, evs' = [EReturn 1 bs]) \/
     evs' = [] /\ (s_worker (f_sys f') = WStopped \/
                   fexec Counter.statics f' (Base (ClientStep 1)) = Some (UB not_a_value))).
Proof.
  refine (interleaving_calls_can_return Counter.statics Byte.x05 65536 _ _ _ 1 _ Schedule.fine_addr_ok
            Schedule.halfway_ok Schedule.runs_halfway Schedule.chan_1 Schedule.chan_1_calls _).
  vm_compute. repeat constructor.
Defined.

Lemma slots_have_one_holder_witness :
  cs_fibers (Schedule.chan 1) = [] /\
  exists q b, cs_client (Schedule.chan 1) = CWaiting q b /\
    resp_bit (cs_chan (Schedule.chan 1)) = negb b.
Proof.
  destruct (slots_have_one_holder Counter.statics Byte.x05 65536 _ _ _ 1 _ Schedule.fine_addr_ok
              Schedule.halfway_ok Schedule.runs_halfway Schedule.chan_1) as (_ & _ & Hs).
  destruct (f_service (Schedule.after Schedule.halfway)) as [sv|] eqn:Hsv;
    [|exfalso; revert Hsv; vm_compute; done].
  specialize (Hs 3 sv ltac:(vm_compute; reflexivity) eq_refl).
  destruct sv; [exfalso; revert Hsv; vm_compute; done|exact Hs..].
Defined.
