(* ===== verification/WorkerLoop.v ===== *)
(** * WorkerLoop: the trustee's loop, whole ([src/runtime/runtime.rs])

    [Scheduler] has the policies of the loop without what a visit does,
    [System] the visits without their order.  Here the loop is put together:
    one iteration drains registrations, goes round the clients from
    [start_idx] and idles.  The order it visits them in is one of those that
    [System] allows, and left alone it serves everyone. *)
From S2P Require Import Prelude Slots Serialization Remote Worker Delegation Scheduler System Refinement.
Import header.
Local Open Scope nat_scope.

(** ** The loop *)

(** The variables of the worker's closure; its [clients] are the first
    [s_drained] channels. *)
Record worker_vars := { start_idx : nat; idle_rounds : Z; loop_counter : Z }.

Definition first_vars : worker_vars := {| start_idx := 0; idle_rounds := 0; loop_counter := 0 |}.

Section loop.
Context {T : Type} `{Repr T} (statics : Z -> option (ErasedVTable T)).
Implicit Types (s : system T) (cs : chan_state T) (v : worker_vars).

(** Whether a visit now gets to [progressed = true]. *)
Definition served cs : bool :=
  let req_ready := ready (load_flags (request (cs_chan cs))) in
  let resp_ready := ready (load_flags (response (cs_chan cs))) in
  match launch_gate (cs_cp cs) req_ready resp_ready with
  | None => false
  | Some _ => negb (Bool.eqb req_ready resp_ready)
  end.

(** The body of [for offs in 0..n], at a given index: once the worker has
    left its closure, nothing. *)
Definition body (idx : nat) (r : res (system T)) : res (system T) * bool :=
  match r with
  | Ok s =>
      match s_worker s, s_chans s !! idx with
      | WReady, Some cs =>
          match worker_visit statics cs (load_flags (request (cs_chan cs))) (s_prop s) with
          | Ok (cs', t, wk) =>
              (Ok {| s_prop := t; s_chans := <[idx := cs']> (s_chans s); s_drained := s_drained s;
                     s_worker := wk |},
               match wk with WReady => served cs | _ => false end)
          | Panic why => (Panic why, false)
          | UB why => (UB why, false)
          end
      | WReady, None => (Panic "index out of bounds", false)
      | _, _ => (r, false)
      end
  | _ => (r, false)
  end.

(** The drain at the head of an iteration. *)
Definition take_in (v : worker_vars) s : Z * system T :=
  let '(lc, (clients, _)) :=
    drain (loop_counter v) (take (s_drained s) (s_chans s)) (drop (s_drained s) (s_chans s)) in
  (lc, {| s_prop := s_prop s; s_chans := s_chans s; s_drained := length clients; s_worker := s_worker s |}).

(** One iteration of [loop], of a worker that is in it. *)
Definition iteration (v : worker_vars) s : res (worker_vars * system T) :=
  let '(lc, s) := take_in v s in
  match s_drained s with
  | O => Ok ({| start_idx := start_idx v; idle_rounds := fst (idle_step (idle_rounds v));
                loop_counter := lc |}, s)
  | n =>
      let '(r, start, progressed) := round body n (start_idx v) (Ok s) in
      s ← r;
      Ok ({| start_idx := start; idle_rounds := fst (end_of_round progressed (idle_rounds v));
             loop_counter := lc |}, s)
  end.

(** [k] iterations, or fewer if the worker leaves. *)
Fixpoint iterations (k : nat) (v : worker_vars) s : res (worker_vars * system T) :=
  match k with
  | O => Ok (v, s)
  | S k =>
      match s_worker s with
      | WReady => '(v, s) ← iteration v s; iterations k v s
      | _ => Ok (v, s)
      end
  end.

(** ** One visit *)

Lemma visit_unserved cs t :
  served cs = false ->
  exists cs', worker_visit statics cs (load_flags (request (cs_chan cs))) t = Ok (cs', t, WReady) /\
    served cs' = false.
Proof.
  unfold served, worker_visit, visit. intros Hs.
  destruct (launch_gate _ _ _) as [cp|] eqn:Hg.
  - apply negb_false_iff in Hs. rewrite Hs. eexists. split; [reflexivity|]. simpl. rewrite Hs.
    by destruct (launch_gate cp _ _).
  - eexists. split; [reflexivity|]. simpl. by rewrite Hg.
Qed.

Lemma served_submitted cs x :
  chan_rel statics cs x -> served cs = true -> exists q b, submitted_at statics cs q b.
Proof.
  intros [Hwf Hc] Hs. unfold served in Hs. fold (req_bit (cs_chan cs)) (resp_bit (cs_chan cs)) in Hs.
  assert (Hno : req_bit (cs_chan cs) = resp_bit (cs_chan cs) -> False).
  { intros He. rewrite He, Bool.eqb_reflx in Hs. by destruct (launch_gate _ _ _). }
  unfold client_rel in Hc. destruct (cs_client cs) as [|q|q b|q b|q] eqn:Hcl.
  - by destruct Hc as (_ & [? _ _]).
  - by destruct Hc as (_ & [? _ _] & _).
  - by destruct Hc as (_ & [? _ _] & _).
  - destruct Hc as (Hb & Hn & Hh & Hq & [Hr Hf Hp|f x' Hr Hf Hl Hcp Hfb|o Hr _ _ _]).
    + by exists q, b.
    + unfold launch_gate in Hs. rewrite Hcp, Hb, Hr in Hs. simpl in Hs.
      rewrite Bool.eqb_reflx in Hs. by destruct b.
    + destruct Hno. congruence.
  - by destruct Hc as (o & _ & [? _ _] & _).
Qed.

Lemma launched_unserved cs x f :
  chan_rel statics cs x -> cs_fibers cs = [f] -> served cs = false.
Proof.
  intros Hc Hf. destruct (served cs) eqn:Hs; [|done].
  destruct (served_submitted cs x Hc Hs) as (q & b & Hsb). by rewrite (sb_fibers _ _ _ _ Hsb) in Hf.
Qed.

Lemma visit_leaves cs w t cs' t' wk :
  worker_visit statics cs w t = Ok (cs', t', wk) -> wk = WReady \/ wk = WStopped.
Proof. unfold worker_visit, leave_visit. intros Hv. repeat case_match; simplify_eq; auto. Qed.

(** What is left to serve. *)
Definition backlog s : nat := length (filter (fun cs => served cs = true) (s_chans s)).

Lemma backlog_insert s i cs cs' t d wk :
  s_chans s !! i = Some cs -> served cs' = false ->
  backlog {| s_prop := t; s_chans := <[i := cs']> (s_chans s); s_drained := d; s_worker := wk |} +
    (if served cs then 1 else 0) = backlog s.
Proof.
  intros Hi Hs. unfold backlog. cbn [s_chans]. revert i Hi.
  induction (s_chans s) as [|x l IH]; intros [|i] Hi; simplify_eq/=; rewrite !filter_cons.
  - rewrite Hs. destruct (served cs); simpl; lia.
  - specialize (IH i Hi). destruct (served x); simpl; lia.
Qed.

Definition stopped s : Prop := s_worker s = WStopped.

(** A visit in the loop: two steps of [System], after which the client is
    served or the worker has left. *)
Lemma body_spec s a idx :
  sim statics s a -> s_worker s = WReady -> idx < s_drained s -> idx < length (s_chans s) ->
  exists s' a' sv, body idx (Ok s) = (Ok s', sv) /\ steps statics s [LoadReq idx; Visit] [] s' /\
    sim statics s' a' /\ (s_worker s' = WReady \/ stopped s') /\ s_drained s' = s_drained s /\
    length (s_chans s') = length (s_chans s) /\
    (stopped s' \/ backlog s' + (if sv then 1 else 0) = backlog s /\
       forall i cs, s_chans s' !! i = Some cs -> served cs = true ->
         i <> idx /\ s_chans s !! i = Some cs).
Proof.
  intros Hs Hw Hd Hlt. destruct (lookup_lt_is_Some_2 _ _ Hlt) as [cs Hi].
  assert (H1 : exec statics s (LoadReq idx) = Some (Ok ({| s_prop := s_prop s; s_chans := s_chans s;
    s_drained := s_drained s; s_worker := WLoaded idx (load_flags (request (cs_chan cs))) |}, []))).
  { cbn [exec]. rewrite Hi. cbn [mbind option_bind]. rewrite Hw. apply Nat.ltb_lt in Hd. by rewrite Hd. }
  destruct (exec_keeps_sim statics s a (LoadReq idx) _ _ Hs I H1) as (a1 & _ & Hs1).
  destruct (sim_lookup _ _ _ _ _ Hs Hi) as (x & Hx & Hc).
  destruct (visit_sim statics cs x _ (s_prop s) Hc (or_introl eq_refl)) as ([[cs' t'] wk] & Hv & _).
  assert (H2 : exec statics {| s_prop := s_prop s; s_chans := s_chans s;
    s_drained := s_drained s; s_worker := WLoaded idx (load_flags (request (cs_chan cs))) |} Visit =
    Some (Ok ({| s_prop := t'; s_chans := <[idx := cs']> (s_chans s); s_drained := s_drained s;
                 s_worker := wk |}, []))).
  { cbn [exec s_worker s_chans s_prop s_drained]. rewrite Hi. cbn [mbind option_bind]. rewrite Hv. done. }
  destruct (exec_keeps_sim statics _ a1 Visit _ _ Hs1 I H2) as (a2 & _ & Hs2).
  eexists _, a2, _. split; [unfold body; rewrite Hw, Hi, Hv; reflexivity|].
  split; [by eapply (steps_cons _ _ _ _ []); [|eapply (steps_cons _ _ _ _ []); [|constructor]]|].
  split; [done|]. pose proof (visit_leaves _ _ _ _ _ _ Hv) as Hlv. split; [done|].
  split; [done|]. split; [apply length_insert|].
  destruct Hlv as [->| ->]; [right|by left].
  assert (Hun : served cs' = false).
  { destruct (served cs) eqn:Hsv.
    - destruct (served_submitted _ _ Hc Hsv) as (q & b & Hsb).
      destruct (visit_progress statics _ _ _ _ _ _ _ Hsb Hv) as [|[Hcl [Hb|[f Hf]]]]; [done| |].
      + destruct (served cs') eqn:Hsv'; [|done].
        destruct (sim_lookup _ _ _ idx cs' Hs2) as (y & _ & Hc');
          [apply list_lookup_insert_eq; by eapply lookup_lt_Some|].
        destruct (served_submitted _ _ Hc' Hsv') as (q' & b' & Hsb').
        pose proof (sb_client _ _ _ _ Hsb') as Hcl'. rewrite Hcl in Hcl'. injection Hcl' as <- <-.
        pose proof (sb_resp _ _ _ _ Hsb') as Hr'. rewrite Hb in Hr'. by destruct b.
      + destruct (sim_lookup _ _ _ idx cs' Hs2) as (y & _ & Hc');
          [apply list_lookup_insert_eq; by eapply lookup_lt_Some|]. by eapply launched_unserved.
    - destruct (visit_unserved cs (s_prop s) Hsv) as (cs2 & Hv2 & ?). rewrite Hv in Hv2. by simplify_eq. }
  split; [by eapply backlog_insert|]. cbn [s_chans]. intros i csi Hi' Hsi.
  destruct (decide (idx = i)) as [->|Hne].
  - rewrite list_lookup_insert_eq in Hi' by done. simplify_eq. congruence.
  - rewrite list_lookup_insert_ne in Hi' by done. by split.
Qed.

(** ** One round *)

Lemma for_offs_stopped k offs n start p s :
  stopped s -> for_offs body k offs n start p (Ok s) = (Ok s, start, p).
Proof.
  intros Hs. revert offs. induction k as [|k IH]; intros offs; [done|]. cbn [for_offs].
  unfold body at 1. rewrite Hs. apply IH.
Qed.

(** The clients at the first [offs] offsets from [start] are served. *)
Definition looked_at (n start offs : nat) s : Prop :=
  forall j cs, j < offs -> s_chans s !! visit_index start j n = Some cs -> served cs = false.

Record round_state (n b0 : nat) s (start : nat) (p : bool) : Prop := {
  rd_sim : exists a, sim statics s a;
  rd_worker : s_worker s = WReady \/ stopped s;
  rd_drained : s_drained s = n;
  rd_clients : n <= length (s_chans s);
  rd_start : start < n;
  rd_backlog : stopped s \/ backlog s + (if p then 1 else 0) <= b0;
}.

Lemma for_offs_serves n b0 start0 k offs start p s :
  round_state n b0 s start p -> offs + k = n ->
  (p = false -> start = start0 /\ (stopped s \/ looked_at n start0 offs s)) ->
  exists s' start' p' acts, for_offs body k offs n start p (Ok s) = (Ok s', start', p') /\
    steps statics s acts [] s' /\ Forall (action_ok statics) acts /\ round_state n b0 s' start' p' /\
    length (s_chans s') = length (s_chans s) /\
    (p' = false -> stopped s' \/ looked_at n start0 n s').
Proof.
  revert offs start p s. induction k as [|k IH]; intros offs start p s Hr Hk Hp.
  { exists s, start, p, []. split; [done|]. split; [constructor|]. split; [done|]. split; [done|].
    split; [done|]. intros Hpf. destruct (Hp Hpf) as [_ Hl]. assert (offs = n) as -> by lia. done. }
  pose proof Hr as [[a Hs] Hw Hd Hn Hlt Hb]. destruct Hw as [Hw|Hst].
  2: { exists s, start, p, []. rewrite for_offs_stopped by done. split; [done|]. split; [constructor|].
       split; [done|]. split; [done|]. split; [done|]. auto. }
  assert (Hns : ~ stopped s) by (unfold stopped; congruence). destruct Hb as [|Hb]; [done|].
  pose proof (visit_index_lt n start offs Hlt ltac:(lia)) as Hi.
  destruct (body_spec s a (visit_index start offs n) Hs Hw ltac:(lia) ltac:(lia)) as
    (s1 & a1 & sv & Hbody & Hst1 & Hs1 & Hw1 & Hd1 & Hl1 & Hsv).
  destruct (IH (offs + 1) (if sv then (visit_index start offs n + 1) mod n else start)
              (if sv then true else p) s1) as (s' & start' & p' & acts & Hf & Hst' & Hok & Hr' & Hl' & Hp').
  - split; [by exists a1|done|lia|lia| |].
    + destruct sv; [apply Nat.mod_upper_bound|]; lia.
    + destruct Hsv as [|[Hbl _]]; [by left|right]. destruct sv, p; lia.
  - lia.
  - intros Hpf. destruct sv; [done|]. destruct (Hp Hpf) as [-> Hl]. split; [done|].
    destruct Hsv as [|[_ Hkeep]]; [by left|right]. destruct Hl as [|Hl]; [done|].
    intros j cs Hj Hcs. destruct (served cs) eqn:Hscs; [|done].
    destruct (Hkeep _ _ Hcs Hscs) as [Hne Hold]. destruct (decide (j = offs)) as [->|]; [done|].
    rewrite (Hl j cs) in Hscs; [done|lia|done].
  - exists s', start', p', ([LoadReq (visit_index start offs n); Visit] ++ acts). split.
    { cbn [for_offs]. rewrite Hbody. rewrite <-Hf. by destruct sv. }
    split; [apply (steps_app _ _ _ _ _ _ _ _ Hst1 Hst')|]. split; [by repeat constructor|].
    split; [done|]. split; [lia|done].
Qed.

(** Every index is at some offset. *)
Lemma looked_at_all n start s i cs :
  start < n -> looked_at n start n s -> i < n -> s_chans s !! i = Some cs -> served cs = false.
Proof.
  intros Hs Hl Hi Hcs.
  assert (Hin : In i (seq 0 n)) by (apply in_seq; lia).
  eapply Permutation_in, in_map_iff in Hin as (j & Hj & Hin); [|by apply (cyclic_permutation n start)].
  apply in_seq in Hin. apply (Hl j); [lia|]. rewrite visit_index_mod by lia. by rewrite Hj.
Qed.

Lemma backlog_zero s :
  (forall i cs, s_chans s !! i = Some cs -> served cs = false) -> backlog s = 0.
Proof.
  unfold backlog. induction (s_chans s) as [|x l IH]; intros Hall; [done|].
  rewrite filter_cons, (Hall 0 x eq_refl), decide_False by done. apply IH. intros i. apply (Hall (S i)).
Qed.

(** ** One iteration *)

Definition set_drained s (d : nat) : system T :=
  {| s_prop := s_prop s; s_chans := s_chans s; s_drained := d; s_worker := s_worker s |}.

Lemma drain_steps s k :
  s_worker s = WReady -> s_drained s + k <= length (s_chans s) ->
  steps statics s (replicate k Drain) [] (set_drained s (s_drained s + k)).
Proof.
  revert s. induction k as [|k IH]; intros s Hw Hd.
  { rewrite Nat.add_0_r. destruct s. constructor. }
  cbn [replicate]. eapply (steps_cons _ _ _ _ []).
  - cbn [exec]. rewrite Hw. rewrite (proj2 (Nat.ltb_lt _ _)) by lia. reflexivity.
  - pose proof (IH (set_drained s (S (s_drained s))) Hw) as Hst. cbn [s_drained set_drained s_chans] in Hst.
    replace (s_drained s + S k) with (S (s_drained s) + k) by lia.
    unfold set_drained in *. cbn [s_prop s_chans s_worker] in Hst. rewrite <-Hw at 1. apply Hst. lia.
Qed.

Lemma take_in_spec v s :
  s_drained s <= length (s_chans s) ->
  let d := s_drained (snd (take_in v s)) in
  snd (take_in v s) = set_drained s d /\ s_drained s <= d <= length (s_chans s) /\
  (fst (take_in v s) mod 16 = (loop_counter v + 1) mod 16)%Z /\
  (((loop_counter v + 1) mod 16 = 0)%Z -> s_drained s < length (s_chans s) -> s_drained s < d).
Proof.
  intros Hd. unfold take_in.
  pose proof (drain_prefix (loop_counter v) (take (s_drained s) (s_chans s)) (drop (s_drained s) (s_chans s)))
    as (k & Hk & _).
  pose proof (drain_counter (loop_counter v) (take (s_drained s) (s_chans s)) (drop (s_drained s) (s_chans s)))
    as Hc.
  pose proof (drain_every_16th (loop_counter v) (take (s_drained s) (s_chans s))
    (drop (s_drained s) (s_chans s))) as H16.
  destruct (drain _ _ _) as [lc [cl rg]]. cbn [fst snd s_drained] in *. subst cl.
  split; [done|]. split; [rewrite length_app, !length_take, length_drop; lia|]. split; [done|].
  intros Hlc Hlt. specialize (H16 Hlc). injection H16 as H16 _.
  rewrite H16, length_app, !length_take, length_drop. lia.
Qed.

Record loop_ok v s : Prop := {
  lo_sim : exists a, sim statics s a;
  lo_drained : s_drained s <= length (s_chans s);
  lo_start : start_idx v < Nat.max 1 (s_drained s);
}.

Lemma iteration_spec v s :
  loop_ok v s -> s_worker s = WReady ->
  exists v' s' acts, iteration v s = Ok (v', s') /\ steps statics s acts [] s' /\
    Forall (action_ok statics) acts /\ loop_ok v' s' /\ (s_worker s' = WReady \/ stopped s') /\
    length (s_chans s') = length (s_chans s) /\ s_drained s <= s_drained s' /\
    (loop_counter v' mod 16 = (loop_counter v + 1) mod 16)%Z /\
    (((loop_counter v + 1) mod 16 = 0)%Z -> s_drained s < length (s_chans s) -> s_drained s < s_drained s') /\
    (stopped s' \/ s_drained s' < length (s_chans s) \/ backlog s' = 0 \/ backlog s' < backlog s).
Proof.
  intros [[a Hs] Hd Hst] Hw. destruct (take_in_spec v s Hd) as (Heq & Hd' & Hlc & H16).
  unfold iteration. destruct (take_in v s) as [lc s1] eqn:Ht. cbn [fst snd] in *.
  set (d := s_drained s1) in *.
  pose proof (drain_steps s (d - s_drained s) Hw ltac:(lia)) as Hst1.
  replace (s_drained s + (d - s_drained s)) with d in Hst1 by lia. rewrite <-Heq in Hst1.
  destruct (steps_sim statics _ _ _ _ Hst1 ltac:(by apply Forall_replicate) a Hs) as (a1 & _ & Hs1).
  assert (Hc1 : s_chans s1 = s_chans s) by (by rewrite Heq).
  assert (Hw1 : s_worker s1 = WReady) by (by rewrite Heq).
  destruct d as [|m] eqn:Hdm.
  - eexists _, s1, _. split; [reflexivity|]. split; [exact Hst1|]. split; [by apply Forall_replicate|].
    split; [split; [by exists a1|lia|cbn; lia]|]. split; [by left|]. split; [by rewrite Hc1|].
    split; [lia|]. split; [done|]. split; [lia|]. right. destruct (s_chans s) as [|x l] eqn:Hch; [|left; simpl; lia].
    right. left. apply backlog_zero. intros i cs. by rewrite Hc1.
  - destruct (for_offs_serves (S m) (backlog s1) (start_idx v) (S m) 0 (start_idx v) false s1) as
      (s2 & start & p & acts & Hf & Hst2 & Hok & Hr & Hl & Hp).
    { split; [by exists a1|by left|done|rewrite Hc1; lia|lia|right; lia]. }
    { lia. }
    { intros _. split; [done|]. right. intros j cs ?. lia. }
    unfold round. rewrite Hf. cbn [mbind res_bind].
    eexists _, s2, _. split; [reflexivity|]. split; [apply (steps_app _ _ _ _ _ _ _ _ Hst1 Hst2)|].
    split; [apply Forall_app; split; [by apply Forall_replicate|done]|].
    destruct Hr as [Hs2 Hw2 Hd2 Hn2 Hlt2 Hb2].
    split; [split; [done|lia|cbn; lia]|]. split; [done|]. split; [congruence|]. split; [lia|].
    split; [done|]. split; [lia|]. destruct Hb2 as [|Hb2]; [by left|].
    assert (Hbs : backlog s1 = backlog s) by (unfold backlog; by rewrite Hc1).
    destruct Hw2 as [Hw2|]; [|by left]. right.
    destruct p; [right; right; lia|]. destruct (Hp eq_refl) as [Hx|Hlook]; [unfold stopped in Hx; congruence|].
    destruct (decide (S m < length (s_chans s))) as [|Hge]; [left; lia|right; left].
    apply backlog_zero. intros i cs Hi. eapply looked_at_all; [|exact Hlook| |exact Hi]; [lia|].
    apply lookup_lt_Some in Hi. rewrite Hl, Hc1 in Hi. lia.
Qed.

(** ** Many iterations *)

(** What the loop has before it: registrations to drain, at most 16
    iterations apart, then requests to serve, at least one each round. *)
Definition left_over v s : nat :=
  let n := length (s_chans s) in
  if s_drained s =? n then backlog s
  else n + 16 * (n - s_drained s) + (16 - Z.to_nat (loop_counter v mod 16)).

Lemma backlog_le s : backlog s <= length (s_chans s).
Proof. unfold backlog. apply length_filter. Qed.

Lemma left_over_le v s : left_over v s <= 17 * length (s_chans s) + 16.
Proof. pose proof (backlog_le s). unfold left_over. case_match; lia. Qed.

Lemma iteration_left v s v' s' :
  s_drained s <= length (s_chans s) -> length (s_chans s') = length (s_chans s) ->
  s_drained s <= s_drained s' <= length (s_chans s) ->
  (loop_counter v' mod 16 = (loop_counter v + 1) mod 16)%Z ->
  (((loop_counter v + 1) mod 16 = 0)%Z -> s_drained s < length (s_chans s) -> s_drained s < s_drained s') ->
  s_drained s' < length (s_chans s) \/ backlog s' = 0 \/ backlog s' < backlog s ->
  left_over v' s' = 0 \/ left_over v' s' < left_over v s.
Proof.
  intros Hd Hl Hd' Hlc H16 Hb. unfold left_over. rewrite Hl.
  pose proof (backlog_le s') as Hle. pose proof (Z.mod_pos_bound (loop_counter v) 16).
  destruct (Nat.eqb_spec (s_drained s') (length (s_chans s))) as [He'|Hne'],
    (Nat.eqb_spec (s_drained s) (length (s_chans s))) as [He|Hne]; [lia|right; lia|lia|right].
  assert (Hcase : ((loop_counter v + 1) mod 16 = 0 /\ loop_counter v mod 16 = 15 \/
                   (loop_counter v + 1) mod 16 = loop_counter v mod 16 + 1)%Z).
  { rewrite <-Z.add_mod_idemp_l by lia. set (m := (loop_counter v mod 16)%Z) in *.
    destruct (decide (m = 15)%Z) as [->|]; [by left|right]. apply Z.mod_small. lia. }
  rewrite Hlc. destruct Hcase as [[Hz H15]|Hs]; [|lia].
  rewrite Hz, H15. specialize (H16 Hz). lia.
Qed.

Lemma iterations_stopped k v s : stopped s -> iterations k v s = Ok (v, s).
Proof. intros Hs. destruct k; cbn [iterations]; [done|]. by rewrite Hs. Qed.

Lemma iterations_serve k v s :
  loop_ok v s -> s_worker s = WReady -> left_over v s <= k ->
  exists v' s' acts, iterations k v s = Ok (v', s') /\ steps statics s acts [] s' /\
    Forall (action_ok statics) acts /\ length (s_chans s') = length (s_chans s) /\
    (stopped s' \/ loop_ok v' s' /\ left_over v' s' = 0).
Proof.
  revert v s. induction k as [|k IH]; intros v s Hok Hw Hk.
  { exists v, s, []. split; [done|]. split; [constructor|]. split; [done|]. split; [done|].
    right. split; [done|lia]. }
  destruct (iteration_spec v s Hok Hw) as
    (v1 & s1 & acts1 & Hit & Hst1 & Ha1 & Hok1 & Hw1 & Hl1 & Hd1 & Hlc & H16 & Hb).
  cbn [iterations]. rewrite Hw, Hit. cbn [mbind res_bind].
  destruct Hw1 as [Hw1|Hs1].
  - assert (Hns : ~ stopped s1) by (unfold stopped; congruence). destruct Hb as [|Hb]; [done|].
    pose proof (lo_drained _ _ Hok). pose proof (lo_drained _ _ Hok1). rewrite Hl1 in *.
    pose proof (iteration_left v s v1 s1 ltac:(lia) Hl1 ltac:(lia) Hlc H16 Hb) as Hleft.
    destruct (IH v1 s1 Hok1 Hw1 ltac:(lia)) as (v2 & s2 & acts2 & Hit2 & Hst2 & Ha2 & Hl2 & Hq).
    exists v2, s2, (acts1 ++ acts2). split; [done|]. split; [apply (steps_app _ _ _ _ _ _ _ _ Hst1 Hst2)|].
    split; [by apply Forall_app|]. split; [congruence|done].
  - exists v1, s1, acts1. rewrite iterations_stopped by done. split; [done|]. split; [done|].
    split; [done|]. split; [done|]. by left.
Qed.

(** Clients are drained from the channels there are. *)
Lemma steps_drained s acts evs s' :
  steps statics s acts evs s' -> s_drained s <= length (s_chans s) -> s_drained s' <= length (s_chans s').
Proof.
  induction 1 as [|s x s1 ev acts evs s2 Hx _ IH]; [done|]. intros Hd. apply IH. clear IH.
  destruct x as [addr| |i q|i|i| |i k]; cbn [exec] in Hx.
  - injection Hx as <- _. cbn. rewrite length_app. simpl. lia.
  - destruct (s_worker s); try done. destruct (_ <? _) eqn:E; [|done]. injection Hx as <- _.
    apply Nat.ltb_lt in E. cbn. lia.
  - destruct (s_chans s !! i) as [cs|]; [|done]. cbn [mbind option_bind] in Hx.
    destruct (cs_client cs); try done. destruct (put_request _ _); try done. injection Hx as <- _.
    cbn. by rewrite length_insert.
  - destruct (s_chans s !! i) as [cs|]; [|done]. cbn [mbind option_bind] in Hx.
    destruct (client_step cs) as [[[]| |]|]; try done. injection Hx as <- _. cbn. by rewrite length_insert.
  - destruct (s_chans s !! i) as [cs|]; [|done]. cbn [mbind option_bind] in Hx.
    destruct (s_worker s); try done. destruct (_ <? _); [|done]. by injection Hx as <- _.
  - destruct (s_worker s) as [|i w|]; try done. destruct (s_chans s !! i) as [cs|]; [|done].
    cbn [mbind option_bind] in Hx. destruct (worker_visit _ _ _ _) as [[[]]| |]; try done.
    injection Hx as <- _. cbn. by rewrite length_insert.
  - destruct (s_chans s !! i) as [cs|]; [|done]. cbn [mbind option_bind] in Hx.
    destruct (cs_fibers cs !! k) as [f|]; [|done]. cbn [mbind option_bind] in Hx.
    destruct (fiber_step _ _ _ _) as [[[]]| |]; try done. injection Hx as <- _. cbn. by rewrite length_insert.
Qed.

(** Nothing left over: every waiting client has its answer, or a fiber. *)
Lemma submitted_served cs q b : submitted_at statics cs q b -> served cs = true.
Proof.
  intros [_ _ Hb _ _ _ Hr _ Hp]. unfold served, launch_gate.
  fold (req_bit (cs_chan cs)) (resp_bit (cs_chan cs)). rewrite Hb, Hr.
  assert (Hne : Bool.eqb b (negb b) = false) by (by destruct b). rewrite Hne.
  destruct (cp_pending_launch (cs_cp cs)) eqn:Hpl; [|by destruct b].
  rewrite (Hp eq_refl), Hne. by destruct b.
Qed.

Lemma backlog_none s i cs : backlog s = 0 -> s_chans s !! i = Some cs -> served cs = false.
Proof.
  unfold backlog. intros Hb%nil_length_inv Hi. destruct (served cs) eqn:Hs; [|done].
  assert (cs ∈ filter (fun cs => served cs = true) (s_chans s)) as Hin
    by (apply list_elem_of_filter; split; [done|by eapply list_elem_of_lookup_2]).
  rewrite Hb in Hin. by apply not_elem_of_nil in Hin.
Qed.

Lemma nothing_left s a i cs q b :
  sim statics s a -> backlog s = 0 -> s_chans s !! i = Some cs -> cs_client cs = CWaiting q b ->
  poll (cs_chan cs) b = true \/ exists f, cs_fibers cs = [f].
Proof.
  intros Hs Hb Hi Hc. destruct (sim_lookup _ _ _ _ _ Hs Hi) as (x & _ & [Hwf Hcl]).
  unfold client_rel in Hcl. rewrite Hc in Hcl. destruct Hcl as (Hrb & Hn & Hh & Hq & Hwt).
  destruct Hwt as [Hr Hf Hp|f x Hr Hf _ _ _|o Hr _ _ _].
  - assert (Hsb : submitted_at statics cs q b) by done.
    pose proof (submitted_served _ _ _ Hsb) as Hsv. rewrite (backlog_none s i cs Hb Hi) in Hsv. done.
  - right. by exists f.
  - left. unfold poll. fold (resp_bit (cs_chan cs)). rewrite Hr. apply Bool.eqb_reflx.
Qed.
End loop.

(** ** Properties *)
Section properties.
Context {T : Type} `{Repr T} (statics : Z -> option (ErasedVTable T)).

(** C8: the loop serves everyone when it is left alone.  From any reachable
    state in which the worker is about to begin an iteration, whatever is
    registered or under way, and with nobody else moving, 17 iterations for
    each channel and 16 more drain every registration and answer every request
    or put it on a fiber (unless a closure panics or [into_inner] ends the
    worker); no iteration indexes out of range or reaches undefined behaviour;
    and each is a sequence of steps of [System], so that what is proved of
    those in any order holds for the order of the loop. *)
Theorem worker_loop_serves_everyone (t : T) (addr : Z) acts evs (s : system T) (v : worker_vars) (k : nat)
    (Haddr : (0 <= addr /\ addr + SLOT_BYTES < usize_modulus)%Z)
    (Hacts : Forall (action_ok statics) acts) (Hrun : steps statics (System.start t addr) acts evs s)
    (Hw : s_worker s = WReady)
    (Hv : start_idx v < Nat.max 1 (s_drained s)) (Hk : 17 * length (s_chans s) + 16 <= k) :
  exists v' s' acts', iterations statics k v s = Ok (v', s') /\
    steps statics s acts' [] s' /\
    (stopped s' \/
     s_drained s' = length (s_chans s') /\
     forall i cs q b, s_chans s' !! i = Some cs -> cs_client cs = CWaiting q b ->
       poll (cs_chan cs) b = true \/ exists f, cs_fibers cs = [f]).
Proof.
  destruct (steps_sim statics _ _ _ _ Hrun Hacts _ (start_sim statics t addr (proj1 Haddr) (proj2 Haddr)))
    as (a & _ & Hs).
  pose proof (left_over_le v s) as Hle.
  pose proof (steps_drained statics _ _ _ _ Hrun ltac:(cbn; lia)) as Hd.
  destruct (iterations_serve statics k v s) as (v' & s' & acts' & Hit & Hst & _ & Hl & Hq);
    [split; [by exists a|done|done]|done|lia|].
  exists v', s', acts'. split; [done|]. split; [done|]. destruct Hq as [|[[[a' Hs'] Hd' _] Hz]]; [by left|right].
  unfold left_over in Hz. destruct (Nat.eqb_spec (s_drained s') (length (s_chans s'))) as [He|]; [|lia].
  split; [done|]. intros i cs q b. by eapply nothing_left.
Qed.
End properties.

(** ** The loop at work *)
Module LoopRun.
Import Counter.

(** Two clients, neither of them drained, have published their requests. *)
Definition acts : list (action Byte.byte) :=
  [Register 131072; Call 0 (apply_request (adder 3)); ClientStep 0; ClientStep 0;
   Call 1 (apply_request reader); ClientStep 1; ClientStep 1].
Definition evs : list (event Byte.byte) :=
  [ECall 0 (apply_request (adder 3)); ECall 1 (apply_request reader)].
Definition first : system Byte.byte := System.start Byte.x05 65536.
Definition asked : system Byte.byte :=
  match run statics first acts with Some (Ok (s, _)) => s | _ => first end.

Lemma adder_apply_ok : request_ok statics (apply_request (adder 3)).
Proof. apply out_request_ok; [apply adder_linked|reflexivity|apply u8_fits|by left|done]. Qed.
Lemma reader_apply_ok : request_ok statics (apply_request reader).
Proof. apply out_request_ok; [apply reader_linked|reflexivity|apply u8_fits|by left|done]. Qed.
Lemma asked_ok : Forall (action_ok statics) acts.
Proof. repeat (constructor; [first [exact adder_apply_ok|exact reader_apply_ok|exact I|done]|]). constructor. Qed.
Lemma runs_asked : steps statics first acts evs asked.
Proof. apply run_steps. vm_compute. reflexivity. Qed.

Definition after : res (worker_vars * system Byte.byte) := iterations statics 50 first_vars asked.
End LoopRun.

(** Both are answered, the second one with the sum. *)
Lemma worker_loop_serves_everyone_witness :
  (exists v' s' acts', LoopRun.after = Ok (v', s') /\ steps Counter.statics LoopRun.asked acts' [] s' /\
    (stopped s' \/
     s_drained s' = length (s_chans s') /\
     forall i cs q b, s_chans s' !! i = Some cs -> cs_client cs = CWaiting q b ->
       poll (cs_chan cs) b = true \/ exists f, cs_fibers cs = [f])) /\
  match LoopRun.after with
  | Ok (_, s') => (fun cs => collect_bytes (cs_chan cs) (layout_of Byte.byte)) <$> s_chans s' = [Ok [8%Z]; Ok [8%Z]]
  | _ => False
  end.
Proof.
  split; [|vm_compute; reflexivity].
  apply (worker_loop_serves_everyone Counter.statics Byte.x05 65536 _ _ LoopRun.asked first_vars 50
           ltac:(done) LoopRun.asked_ok LoopRun.runs_asked).
  - vm_compute. reflexivity.
  - cbn [start_idx first_vars]. lia.
  - vm_compute. lia.
Defined.
