(* ===== verification/Linear.v ===== *)
(** * Linear: overlapping calls take effect one at a time

    The object of [Refinement] seen by its clients: when no closure is
    launched, the answers of any execution are those of one sequential order of
    the calls, which keeps the order of each client and lies within the time
    each call takes.  Between two moments of rest that order is an
    interleaving of what the clients have called. *)
From S2P Require Import Prelude Slots Serialization Remote Worker Delegation System Service Refinement Interleaving WorkerLoop.
Local Open Scope nat_scope.

(** ** Interleavings *)

(** Sequences that keep the order of each list. *)
Inductive interleaves {A} : list (list A) -> list A -> Prop :=
| interleaves_nil ls : Forall (fun l => l = []) ls -> interleaves ls []
| interleaves_cons ls i x l r :
    ls !! i = Some (x :: l) -> interleaves (<[i := l]> ls) r -> interleaves ls (x :: r).

Section interleavings.
Context {A : Type}.
Implicit Types (ls : list (list A)) (r : list A).

Lemma interleaves_perm ls r : interleaves ls r -> r ≡ₚ concat ls.
Proof.
  induction 1 as [ls Hall|ls i x l r Hi _ IH].
  - induction Hall as [|l ls -> _ IH]; [done|exact IH].
  - rewrite IH. clear IH. revert i Hi. induction ls as [|l' ls IH]; intros i Hi; [done|].
    destruct i as [|i]; simpl in *; [by injection Hi as ->|]. rewrite <-(IH _ Hi). by apply Permutation_middle.
Qed.

Lemma interleaves_forall (P : A -> Prop) ls r :
  interleaves ls r -> Forall (Forall P) ls -> Forall P r.
Proof. intros Hr Hall. rewrite (interleaves_perm _ _ Hr). by apply Forall_concat. Qed.

Lemma interleaves_skip ls r : interleaves ls r -> interleaves ([] :: ls) r.
Proof.
  induction 1 as [ls Hall|ls i x l r Hi _ IH]; [by constructor; constructor|].
  by apply (interleaves_cons _ (S i) x l).
Qed.

Lemma interleaves_concat ls : interleaves ls (concat ls).
Proof.
  induction ls as [|l ls IH]; [by repeat constructor|]. induction l as [|x l IHl]; [by apply interleaves_skip|].
  by apply (interleaves_cons _ 0 x l).
Qed.

(** What a list of things tagged with clients has of client [i]. *)
Definition of_client {B} (i : nat) (l : list (nat * B)) : list B :=
  omap (fun x => if decide (x.1 = i) then Some x.2 else None) l.

Lemma of_client_app {B} i (l l' : list (nat * B)) : of_client i (l ++ l') = of_client i l ++ of_client i l'.
Proof. apply omap_app. Qed.

Lemma of_client_same {B} i (x : B) : of_client i [(i, x)] = [x].
Proof. cbn. by rewrite decide_True. Qed.
Lemma of_client_other {B} i j (x : B) : i <> j -> of_client i [(j, x)] = [].
Proof. intros. cbn. by rewrite decide_False. Qed.

Lemma of_client_length {B C} i (l : list (nat * B)) (l' : list (nat * C)) :
  l.*1 = l'.*1 -> length (of_client i l) = length (of_client i l').
Proof.
  revert l'. induction l as [|[j x] l IH]; intros [|[k y] l'] Heq; simplify_eq/=; [done|].
  case_decide; simpl; [f_equal|]; by apply IH.
Qed.

(** A tagged list is an interleaving of its parts. *)
Lemma interleaves_clients (l : list (nat * A)) n :
  Forall (fun x => x.1 < n) l -> interleaves (map (fun i => of_client i l) (seq 0 n)) l.*2.
Proof.
  induction l as [|[i x] l IH]; intros Hl.
  - constructor. apply Forall_map, Forall_true. done.
  - apply Forall_cons in Hl as [Hi Hl]. simpl in Hi. cbn [fmap list_fmap].
    apply (interleaves_cons _ i x (of_client i l)).
    + rewrite list_lookup_fmap, lookup_seq_lt by done. cbn. by rewrite decide_True.
    + replace (<[i := of_client i l]> _) with (map (fun i => of_client i l) (seq 0 n)); [by apply IH|].
      apply list_eq. intros j. destruct (decide (j = i)) as [->|Hne].
      * rewrite list_lookup_insert_eq by (by rewrite length_fmap, length_seq).
        rewrite list_lookup_fmap, lookup_seq_lt by done. done.
      * rewrite list_lookup_insert_ne, !list_lookup_fmap by done.
        destruct (decide (j < n)); [|by rewrite lookup_seq_ge by lia].
        rewrite lookup_seq_lt by done. cbn. by rewrite decide_False by done.
Qed.
End interleavings.

(** ** Requests served in a given order *)
Section serving.
Context {T : Type}.
Implicit Types (q : rpc T) (t : T) (evs : list (event T)) (i : nat).

(** A request that returns, served on its own. *)
Definition serve q t : option (T * list Z) :=
  match q_pp q, Refinement.body q with
  | Launch, _ | _, None => None
  | _, Some p => match run_prog p t with (t', Returned bs) => Some (t', bs) | (_, Panicked) => None end
  end.

Fixpoint serve_all (order : list (nat * rpc T)) t : option (T * list (nat * list Z)) :=
  match order with
  | [] => Some (t, [])
  | (i, q) :: order =>
      '(t, bs) ← serve q t;
      '(t, answers) ← serve_all order t;
      Some (t, (i, bs) :: answers)
  end.

Lemma serve_body q p t t' bs :
  q_pp q <> Launch -> Refinement.body q = Some p -> run_prog p t = (t', Returned bs) ->
  serve q t = Some (t', bs).
Proof. unfold serve. intros Hl -> ->. by destruct (q_pp q). Qed.

Lemma serve_all_app order order' t :
  serve_all (order ++ order') t =
  '(t, answers) ← serve_all order t;
  '(t, answers') ← serve_all order' t;
  Some (t, answers ++ answers').
Proof.
  revert t. induction order as [|[i q] order IH]; intros t; cbn [serve_all app mbind option_bind].
  - by destruct (serve_all order' t) as [[]|].
  - destruct (serve q t) as [[t1 bs]|]; [|done]. cbn [mbind option_bind]. rewrite IH.
    destruct (serve_all order t1) as [[t2 rs]|]; [|done]. cbn [mbind option_bind].
    by destruct (serve_all order' t2) as [[]|].
Qed.

Lemma serve_all_tags order t t' answers : serve_all order t = Some (t', answers) -> answers.*1 = order.*1.
Proof.
  revert t answers. induction order as [|[i q] order IH]; intros t answers; cbn [serve_all].
  { by intros [= _ <-]. }
  destruct (serve q t) as [[t1 bs]|]; [|done]. cbn [mbind option_bind].
  destruct (serve_all order t1) as [[t2 rs]|] eqn:E; [|done]. intros [= -> <-]. cbn. f_equal. exact (IH _ _ E).
Qed.

(** What client [i] has called, and what it got. *)
Definition calls_of i evs : list (rpc T) :=
  omap (fun e => match e with ECall j q => if decide (j = i) then Some q else None | EReturn _ _ => None end) evs.
Definition returns_of i evs : list (list Z) :=
  omap (fun e => match e with EReturn j bs => if decide (j = i) then Some bs else None | ECall _ _ => None end) evs.

Lemma calls_of_app i evs evs' : calls_of i (evs ++ evs') = calls_of i evs ++ calls_of i evs'.
Proof. apply omap_app. Qed.
Lemma returns_of_app i evs evs' : returns_of i (evs ++ evs') = returns_of i evs ++ returns_of i evs'.
Proof. apply omap_app. Qed.

(** [order] lies within the calls of [evs]: at every moment there is a part
    of it that has all that have returned and only what has been called. *)
Definition in_time evs (order : list (nat * rpc T)) : Prop :=
  forall evs1 evs2, evs = evs1 ++ evs2 -> exists k, k <= length order /\
    forall i, length (returns_of i evs1) <= length (of_client i (take k order)) <= length (calls_of i evs1).
End serving.

(** ** The order of an execution *)
Section object.
Context {T : Type} `{Repr T}.
Implicit Types (a : astate T) (t : T) (evs : list (event T)) (order : list (nat * rpc T)).

(** How far a client has come with its calls. *)
Definition client_order evs order (answers : list (nat * list Z)) (i : nat) (x : option (aclient T)) : Prop :=
  let calls := calls_of i evs in let returns := returns_of i evs in
  match x with
  | None | Some AIdle => calls = of_client i order /\ of_client i answers = returns
  | Some (ACalled q) => calls = of_client i order ++ [q] /\ of_client i answers = returns /\ q_pp q <> Launch
  | Some (ADone q (Some bs)) => calls = of_client i order /\ of_client i answers = returns ++ [bs]
  | Some _ => False
  end.

Record ordered t0 evs a order answers : Prop := {
  or_serve : serve_all order t0 = Some (a_prop a, answers);
  or_client : forall i, client_order evs order answers i (a_clients a !! i);
  or_known : Forall (fun x => x.1 < length (a_clients a)) order;
  or_time : in_time evs order;
}.

Lemma client_order_bounds evs order answers i x :
  answers.*1 = order.*1 -> client_order evs order answers i x ->
  length (returns_of i evs) <= length (of_client i order) <= length (calls_of i evs).
Proof.
  intros Ht Hc. pose proof (of_client_length i _ _ Ht) as Hl. unfold client_order in Hc.
  destruct x as [[|q|q p|q [bs|]]|]; destruct_and?; try done;
    rewrite ?Hc, ?H0, ?H1 in *; rewrite ?length_app in *; simpl in *;
    repeat match goal with He : _ = _ |- _ => apply (f_equal length) in He; rewrite ?length_app in He; simpl in He end;
    lia.
Qed.

(** Silent growth, and one more event. *)
Lemma in_time_more evs order x : in_time evs order -> in_time evs (order ++ [x]).
Proof.
  intros Ht evs1 evs2 Heq. destruct (Ht _ _ Heq) as (k & Hk & Hb). exists k.
  rewrite length_app, take_app_le by done. split; [lia|done].
Qed.

Lemma in_time_event evs order e :
  in_time evs order ->
  (forall i, length (returns_of i (evs ++ [e])) <= length (of_client i order) <= length (calls_of i (evs ++ [e]))) ->
  in_time (evs ++ [e]) order.
Proof.
  intros Ht Hb evs1 evs2 Heq. destruct evs2 as [|e2 evs2 _] using rev_ind.
  - rewrite app_nil_r in Heq. subst evs1. exists (length order). rewrite firstn_all. done.
  - rewrite app_assoc in Heq. apply app_inj_tail in Heq as [-> _]. by eapply Ht.
Qed.
End object.

(** ** Every step keeps it *)
Section steps.
Context {T : Type} `{Repr T}.
Implicit Types (a : astate T) (t : T) (evs : list (event T)) (order : list (nat * rpc T)) (x : aclient T).

Definition by_client (e : event T) (i : nat) : Prop := match e with ECall j _ | EReturn j _ => j = i end.

Lemma others_events e i j evs :
  by_client e i -> j <> i -> calls_of j (evs ++ [e]) = calls_of j evs /\ returns_of j (evs ++ [e]) = returns_of j evs.
Proof.
  intros He Hne. rewrite calls_of_app, returns_of_app.
  destruct e; simpl in He; subst; cbn; rewrite ?decide_False by done; by rewrite !app_nil_r.
Qed.

Lemma client_order_insert evs evs' order order' answers answers' (l : list (aclient T)) i x' :
  i < length l -> client_order evs' order' answers' i (Some x') ->
  (forall j, j <> i -> client_order evs order answers j (l !! j) -> client_order evs' order' answers' j (l !! j)) ->
  (forall j, client_order evs order answers j (l !! j)) ->
  forall j, client_order evs' order' answers' j (<[i := x']> l !! j).
Proof.
  intros Hi Hx Hother Hall j. destruct (decide (j = i)) as [->|Hne].
  - by rewrite list_lookup_insert_eq.
  - rewrite list_lookup_insert_ne by done. by apply Hother.
Qed.

(** A call or a return. *)
Lemma ordered_event t0 evs a order answers e i x x' o :
  ordered t0 evs a order answers -> a_clients a !! i = Some x -> by_client e i ->
  client_order (evs ++ [e]) order answers i (Some x') ->
  ordered t0 (evs ++ [e]) (set_client a i x' (a_prop a) o) order answers.
Proof.
  intros [Hs Hc Hk Ht] Hi He Hx. pose proof (lookup_lt_Some _ _ _ Hi) as Hlt.
  pose proof (serve_all_tags _ _ _ _ Hs) as Htags.
  assert (Hc' : forall j, client_order (evs ++ [e]) order answers j (<[i := x']> (a_clients a) !! j)).
  { eapply client_order_insert; [done|done| |exact Hc]. intros j Hne. unfold client_order.
    by destruct (others_events e i j evs He Hne) as [-> ->]. }
  split; [done|done|cbn; by rewrite length_insert|]. apply in_time_event; [done|].
  intros j. by apply (client_order_bounds _ _ _ _ _ Htags (Hc' j)).
Qed.

(** The trustee serves a request. *)
Lemma ordered_serve t0 evs a order answers i q t' bs :
  ordered t0 evs a order answers -> a_clients a !! i = Some (ACalled q) ->
  serve q (a_prop a) = Some (t', bs) ->
  ordered t0 evs (set_client a i (ADone q (Some bs)) t' true) (order ++ [(i, q)]) (answers ++ [(i, bs)]).
Proof.
  intros [Hs Hc Hk Ht] Hi Hq. pose proof (lookup_lt_Some _ _ _ Hi) as Hlt.
  split; [| | |by apply in_time_more].
  - rewrite serve_all_app, Hs. cbn. by rewrite Hq.
  - eapply client_order_insert; [done| | |exact Hc].
    + specialize (Hc i). rewrite Hi in Hc. destruct Hc as (Hcl & Hrt & _). cbn.
      rewrite !of_client_app, !of_client_same, Hcl, Hrt. done.
    + intros j Hne. unfold client_order.
      by rewrite !of_client_app, !(of_client_other j i), !app_nil_r by done.
  - apply Forall_app. cbn. rewrite length_insert. split; [done|]. by repeat constructor.
Qed.

Lemma ordered_step t0 evs a order answers ev a' :
  astep a ev a' -> a_open a' = true -> Forall no_launch ev -> ordered t0 evs a order answers ->
  exists order' answers', ordered t0 (evs ++ ev) a' order' answers'.
Proof.
  intros Hst Ho Hev Hord.
  assert (Hat : forall i x, a_clients a !! i = Some x -> client_order evs order answers i (Some x)).
  { intros i x Hi. rewrite <-Hi. apply Hord. }
  destruct Hst as [a ev a' Hc|a a' Ht].
  - destruct Hc as [a|a i q Hi|a i q upd k Hi|a i q bs Hi|a i q Hi|a i q bs Hi|a i q bs Hi Hbs];
      try (by destruct (Hat _ _ Hi)).
    + exists order, answers. rewrite app_nil_r. destruct Hord as [Hs Hc Hk Ht]. split; [done| | |done].
      * intros i. cbn. specialize (Hc i). destruct (decide (i < length (a_clients a))).
        { by rewrite lookup_app_l. }
        rewrite lookup_ge_None_2 in Hc by lia. rewrite lookup_app_r by lia.
        by destruct (i - length (a_clients a)) as [|m].
      * cbn. rewrite length_app. eapply Forall_impl; [exact Hk|]. cbn. lia.
    + exists order, answers. eapply ordered_event; [done|done|done|]. destruct (Hat _ _ Hi) as [Hcl Hrt].
      apply Forall_cons in Hev as [Hq _]. unfold client_order. rewrite calls_of_app, returns_of_app. cbn.
      rewrite decide_True by done. by rewrite app_nil_r, Hcl.
    + exists order, answers. eapply ordered_event; [done|done|done|]. destruct (Hat _ _ Hi) as [Hcl Hrt].
      unfold client_order. rewrite calls_of_app, returns_of_app. cbn.
      rewrite decide_True by done. by rewrite app_nil_r, Hcl.
  - destruct Ht as [a i q p t' bs Hi Hop Hl Hb Hr|a i q p t' Hi Hop Hl Hb Hr|a i q Hi Hop Hp|a i q p Hi Hop Hl Hb];
      [|done|done|].
    + exists (order ++ [(i, q)]), (answers ++ [(i, bs)]). rewrite app_nil_r.
      eapply ordered_serve; [done|done|]. by eapply serve_body.
    + by destruct (Hat _ _ Hi) as (_ & _ & ?).
Qed.

(** The trustee does not open again. *)
Lemma asteps_open a evs a' : asteps a evs a' -> a_open a' = true -> a_open a = true.
Proof.
  induction 1 as [|a ev a1 evs a2 Hst _ IH]; [done|]. intros Ho. specialize (IH Ho).
  destruct Hst as [a ev a1 Hc|a a1 Ht]; [by destruct Hc|]. by destruct Ht.
Qed.

Lemma ordered_steps a evs' a' :
  asteps a evs' a' -> a_open a' = true -> Forall no_launch evs' ->
  forall t0 evs order answers, ordered t0 evs a order answers ->
  exists order' answers', ordered t0 (evs ++ evs') a' order' answers'.
Proof.
  induction 1 as [a|a ev a1 evs1 a2 Hst Htr IH]; intros Ho Hev t0 evs order answers Hord.
  { exists order, answers. by rewrite app_nil_r. }
  apply Forall_app in Hev as [Hev1 Hev2].
  destruct (ordered_step _ _ _ _ _ _ _ Hst (asteps_open _ _ _ Htr Ho) Hev1 Hord) as (o1 & r1 & H1).
  destruct (IH Ho Hev2 _ _ _ _ H1) as (o2 & r2 & H2). exists o2, r2. by rewrite app_assoc.
Qed.

(** Nobody has called anything. *)
Definition at_rest a : Prop := Forall (fun x => x = AIdle) (a_clients a).

Lemma ordered_rest a : at_rest a -> ordered (a_prop a) [] a [] [].
Proof.
  intros Hr. split; [done| |constructor|].
  - intros i. destruct (a_clients a !! i) as [x|] eqn:Hi; [|done].
    by rewrite (Forall_lookup_1 _ _ _ _ Hr Hi).
  - intros evs1 evs2 Heq. symmetry in Heq. apply app_eq_nil in Heq as [-> _]. by exists 0.
Qed.

(** At rest again: everything called is in the order and answered. *)
Lemma ordered_complete t0 evs a order answers :
  ordered t0 evs a order answers -> at_rest a ->
  interleaves (map (fun i => calls_of i evs) (seq 0 (length (a_clients a)))) order.*2 /\
  forall i, calls_of i evs = of_client i order /\ returns_of i evs = of_client i answers.
Proof.
  intros [Hs Hc Hk _] Hr.
  assert (Hall : forall i, calls_of i evs = of_client i order /\ returns_of i evs = of_client i answers).
  { intros i. specialize (Hc i). destruct (a_clients a !! i) as [x|] eqn:Hi.
    - rewrite (Forall_lookup_1 _ _ _ _ Hr Hi) in Hc. by destruct Hc.
    - by destruct Hc. }
  split; [|done]. erewrite map_ext; [by apply interleaves_clients|]. intros i. apply Hall.
Qed.
End steps.

(** ** The machine *)
Section machine.
Context {T : Type} `{Repr T} (statics : Z -> option (ErasedVTable T)).
Implicit Types (f : fstate T).

(** No call is under way. *)
Definition resting f : Prop :=
  f_service f = None /\ Forall (fun cs => cs_client cs = CIdle) (s_chans (f_sys f)).

Lemma resting_object f b : fsim statics f b -> resting f -> i_turn b = None /\ at_rest (i_obj b).
Proof.
  intros [[_ _ Hc _] Ht] [Hn Hr]. rewrite Hn in Ht. split; [done|]. unfold at_rest.
  apply Forall_lookup. intros i x Hx.
  destruct (Forall2_lookup_r _ _ _ _ _ Hc Hx) as (cs & Hcs & [_ Hcl]).
  pose proof (Forall_lookup_1 _ _ _ _ Hr Hcs) as Hidle. unfold client_rel in Hcl. simpl in Hidle.
  rewrite Hidle in Hcl. by destruct Hcl.
Qed.

Lemma at_rest_serial b : i_turn b = None -> at_rest (i_obj b) -> serial b (i_obj b).
Proof.
  intros Ht Hr. exists (a_prop (i_obj b)). split; [by destruct (i_obj b)|]. rewrite Ht. split; [|done].
  eapply Forall_impl; [exact Hr|]. by intros x ->.
Qed.

(** From rest, an execution without launches at whose end the trustee still
    serves. *)
Lemma machine_ordered f0 b0 acts evs f :
  fsim statics f0 b0 -> resting f0 -> Forall (faction_ok statics) acts -> fsteps statics f0 acts evs f ->
  Forall no_launch evs -> s_worker (f_sys f) <> WStopped ->
  exists a order answers, ordered (s_prop (f_sys f0)) evs a order answers /\
    length (a_clients a) = length (s_chans (f_sys f)) /\
    (f_service f = None -> a_prop a = s_prop (f_sys f)) /\ (resting f -> at_rest a).
Proof.
  intros Hs0 Hr0 Hok Hst Hev Hw. destruct (resting_object _ _ Hs0 Hr0) as [Ht0 Hrest].
  destruct (fsteps_sim statics _ _ _ _ _ Hst Hok Hs0) as (b & Hb & Hs).
  destruct (isteps_serial _ _ _ _ Hb Hev (at_rest_serial _ Ht0 Hrest)) as (a & Ha & t1 & Heq & _ & Ht).
  pose proof Hs as [[Hp Ho Hc _] Hturn].
  assert (Hopen : a_open a = true) by (subst a; cbn; rewrite Ho; by destruct (s_worker (f_sys f))).
  destruct (ordered_steps _ _ _ Ha Hopen Hev _ _ _ _ (ordered_rest _ Hrest)) as (order & answers & Hord).
  exists a, order, answers. rewrite <-(sim_prop _ _ _ (fs_sim _ _ _ Hs0)). split; [exact Hord|].
  split; [subst a; cbn; symmetry; by eapply Forall2_length|]. split.
  - intros Hn. rewrite Hn in Hturn. rewrite Hturn in Ht. subst a t1. cbn. done.
  - intros Hr. subst a. by apply (resting_object _ _ Hs Hr).
Qed.
End machine.

(** ** Properties *)
Section properties.
Context {T : Type} `{Repr T} (statics : Z -> option (ErasedVTable T)).

(** C2: the system is linearizable as long as nothing is launched and the
    trustee serves.  From any reachable moment of rest, whatever calls then
    overlap, access by access: there is one order of requests, each served
    whole on the property that the one before it left, such that every client
    has called what the order has of it, but for one call not served yet, and
    got back what the order answers it, but for one answer not returned yet;
    and at every moment the order can be cut so that the part before the cut
    has all that have returned and nothing that has not been called. *)
Theorem calls_linearizable (t : T) (addr : Z) acts0 evs0 f0 acts evs f
    (Haddr : (0 <= addr /\ addr + SLOT_BYTES < usize_modulus)%Z)
    (Hacts0 : Forall (faction_ok statics) acts0) (Hrun0 : fsteps statics (fstart t addr) acts0 evs0 f0)
    (Hrest : resting f0)
    (Hacts : Forall (faction_ok statics) acts) (Hrun : fsteps statics f0 acts evs f)
    (Hfree : Forall no_launch evs) (Hopen : s_worker (f_sys f) <> WStopped) :
  exists order answers t', serve_all order (s_prop (f_sys f0)) = Some (t', answers) /\
    (f_service f = None -> t' = s_prop (f_sys f)) /\
    (forall i, exists waiting arriving,
       calls_of i evs = of_client i order ++ waiting /\ of_client i answers = returns_of i evs ++ arriving /\
       length waiting + length arriving <= 1) /\
    in_time evs order.
Proof.
  destruct (fsteps_sim statics _ _ _ _ _ Hrun0 Hacts0 (fstart_sim statics t addr Haddr)) as (b0 & _ & Hs0).
  destruct (machine_ordered statics f0 b0 acts evs f) as (a & order & answers & [Hs Hc _ Ht] & _ & Hp & _); [done..|].
  exists order, answers, (a_prop a). split; [done|]. split; [done|]. split; [|done].
  intros i. specialize (Hc i). unfold client_order in Hc.
  destruct (a_clients a !! i) as [[|q|q p|q [bs|]]|]; try done.
  - exists [], []. rewrite !app_nil_r. destruct Hc. split; [done|]. split; [done|]. simpl. lia.
  - exists [q], []. rewrite app_nil_r. destruct Hc as (? & ? & _). split; [done|]. split; [done|]. simpl. lia.
  - exists [], [bs]. rewrite app_nil_r. destruct Hc. split; [done|]. split; [done|]. simpl. lia.
  - exists [], []. rewrite !app_nil_r. destruct Hc. split; [done|]. split; [done|]. simpl. lia.
Qed.

End properties.

(** ** Two clients at once *)
Module Overlap.
Import Counter.

Definition A : rpc Byte.byte := apply_request (adder 3).
Definition R : rpc Byte.byte := apply_request reader.

(** Both are inside their calls; the second is served first and answered last. *)
Definition halfway : list (faction Byte.byte * option (list Z)) :=
  based [Register 131072; Drain; Drain] ++ sent 0 A ++ sent 1 R ++ served_in 1 4.
Definition script : list (faction Byte.byte * option (list Z)) :=
  halfway ++ served_in 0 4 ++ answered 0 [8%Z] ++ answered 1 [5%Z].
Definition first : fstate Byte.byte := fstart Byte.x05 65536.

Lemma overlap_ok : Forall (faction_ok statics) script.*1.
Proof.
  repeat (constructor; [first [exact LoopRun.adder_apply_ok|exact LoopRun.reader_apply_ok|exact I|done]|]).
  constructor.
Qed.
Lemma overlap_half_ok : Forall (faction_ok statics) halfway.*1.
Proof. pose proof overlap_ok as Hall. unfold script in Hall. rewrite fmap_app in Hall. by apply Forall_app in Hall as [? _]. Qed.
Lemma overlap_plays : fsteps statics first script.*1 (script_events script) (played statics first script).
Proof. apply plays, is_Some_alt. vm_compute. exact I. Qed.
Lemma overlap_plays_half : fsteps statics first halfway.*1 (script_events halfway) (played statics first halfway).
Proof. apply plays, is_Some_alt. vm_compute. exact I. Qed.
Lemma overlap_free : Forall no_launch (script_events script).
Proof. by repeat constructor. Qed.
Lemma overlap_first_rests : resting first.
Proof. split; [done|]. by repeat constructor. Qed.
Lemma overlap_rests : resting (played statics first script).
Proof.
  split; [vm_compute; reflexivity|].
  assert (Hb : forallb (fun cs => match cs_client cs with CIdle => true | _ => false end)
                 (s_chans (f_sys (played statics first script))) = true) by (vm_compute; reflexivity).
  rewrite forallb_forall in Hb. apply List.Forall_forall. intros cs Hin. specialize (Hb cs Hin).
  clear Hin. destruct (cs_client cs); [reflexivity|discriminate Hb..].
Qed.
End Overlap.

Lemma calls_linearizable_witness :
  exists order answers t', serve_all order Byte.x05 = Some (t', answers) /\
    (f_service (played Counter.statics Overlap.first Overlap.halfway) = None ->
     t' = s_prop (f_sys (played Counter.statics Overlap.first Overlap.halfway))) /\
    (forall i, exists waiting arriving,
       calls_of i (script_events Overlap.halfway) = of_client i order ++ waiting /\
       of_client i answers = returns_of i (script_events Overlap.halfway) ++ arriving /\
       length waiting + length arriving <= 1) /\
    in_time (script_events Overlap.halfway) order.
Proof.
  apply (calls_linearizable Counter.statics Byte.x05 65536 [] [] Overlap.first _ _ _ Schedule.fine_addr_ok
           (List.Forall_nil _) (fsteps_nil _ _) Overlap.overlap_first_rests Overlap.overlap_half_ok
           Overlap.overlap_plays_half).
  - by repeat constructor.
  - intros Hw. vm_compute in Hw. discriminate Hw.
Defined.

