(* ===== verification/Starvation.v ===== *)
(** * Starvation: whom the loop answers when nobody waits
    ([src/runtime/runtime.rs], [src/trust/remote.rs])

    [ServiceOrder] follows the indices of rounds in which every visit serves.
    Here those rounds are the machine's: clients that call again as soon as
    they are answered keep every visit busy, the answers come in exactly that
    order, and so a client may wait for ever while the others are served. *)
From S2P Require Import Prelude Slots Serialization Remote Worker Delegation Scheduler ServiceOrder System Refinement WorkerLoop.
Import header.
Local Open Scope nat_scope.

Section eager.
Context {T : Type} `{Repr T} (statics : Z -> option (ErasedVTable T)).
Implicit Types (s : system T) (cs : chan_state T) (v : worker_vars) (q : rpc T).

(** What each client asks for, over and over. *)
Context (ask : nat -> rpc T).

(** ** Rounds with eager clients *)

(** An answered client sees its answer, returns, calls again and publishes. *)
Definition again (i : nat) : list (action T) :=
  [ClientStep i; ClientStep i; Call i (ask i); ClientStep i; ClientStep i].

(** One visit of the loop, after which its client, if it was served, is
    eager. *)
Definition eager_body (idx : nat) (r : res (system T * list (event T)))
    : res (system T * list (event T)) * bool :=
  match r with
  | Ok (s, evs) =>
      let '(m, sv) := WorkerLoop.body statics idx (Ok s) in
      (s ← m;
       if sv
       then match run statics s (again idx) with
            | Some m => '(s, ev) ← m; Ok (s, evs ++ ev)
            | None => Ok (s, evs)
            end
       else Ok (s, evs), sv)
  | _ => (r, false)
  end.

(** [WorkerLoop.iteration] among such clients. *)
Definition eager_iteration v s : res (worker_vars * (system T * list (event T))) :=
  let '(lc, s) := take_in v s in
  match s_drained s with
  | O => Ok ({| start_idx := start_idx v; idle_rounds := fst (idle_step (idle_rounds v));
                loop_counter := lc |}, (s, []))
  | n =>
      let '(r, start, progressed) := round eager_body n (start_idx v) (Ok (s, [])) in
      s ← r;
      Ok ({| start_idx := start; idle_rounds := fst (end_of_round progressed (idle_rounds v));
             loop_counter := lc |}, s)
  end.

Fixpoint eager_iterations (k : nat) v s : res (worker_vars * (system T * list (event T))) :=
  match k with
  | O => Ok (v, (s, []))
  | S k =>
      '(v, (s, evs)) ← eager_iteration v s;
      '(v, (s, evs')) ← eager_iterations k v s;
      Ok (v, (s, evs ++ evs'))
  end.

(** Who is answered, in order. *)
Definition answered_by (evs : list (event T)) : list nat :=
  omap (fun e => match e with EReturn i _ => Some i | ECall _ _ => None end) evs.

(** A request the worker answers on the spot, whatever the property. *)
Record prompt q : Prop := {
  pr_ok : request_ok statics q;
  pr_now : q_pp q <> Launch;
  pr_body : exists p, Refinement.body q = Some p /\
    forall t, exists t' bs, run_prog p t = (t', Returned bs);
}.

Context (prompt_asks : forall i, prompt (ask i)).

(** ** One visit *)

Lemma visit_answers cs q b t p t' bs :
  submitted_at statics cs q b -> q_pp q <> Launch -> Refinement.body q = Some p ->
  run_prog p t = (t', Returned bs) ->
  exists cs', worker_visit statics cs (load_flags (request (cs_chan cs))) t = Ok (cs', t', WReady) /\
    cs_client cs' = CWaiting q b /\ resp_bit (cs_chan cs') = b /\ result_in (cs_chan cs') q (Some bs).
Proof.
  intros Hs Hl Hb Hp. destruct (visit_submitted_flow statics cs q b t Hs) as (cp & hdr & Hcp & Hrec & ->).
  destruct Hs as [Hwf Hcl Hrb Hcnt Hh Hq Hresp Hfs Hpend].
  pose proof (exec_body statics (cs_chan cs) q b cp t p hdr Hq (proj1 Hwf) Hl Hb Hrec) as Hx.
  unfold served_ok in Hx. rewrite Hp in Hx. destruct Hx as (m & -> & Hm & Hbs & Hv).
  eexists. split; [reflexivity|]. split; [done|]. simpl. rewrite set_response_twice.
  by destruct (answered_channel (cs_chan cs) q m b bs) as (_ & ? & ? & _).
Qed.

(** ** A client calls again *)

Lemma exec_client s i cs cs' o :
  s_chans s !! i = Some cs -> client_step cs = Some (Ok (cs', o)) ->
  exec statics s (ClientStep i) =
  Some (Ok (set_cs s i cs', match o with Some bs => [EReturn i bs] | None => [] end)).
Proof. intros Hi Hc. cbn [exec]. rewrite Hi. cbn [mbind option_bind]. by rewrite Hc. Qed.

Lemma lookup_set_cs s i cs cs' : s_chans s !! i = Some cs -> s_chans (set_cs s i cs') !! i = Some cs'.
Proof. intros Hi. apply list_lookup_insert_eq. by eapply lookup_lt_Some. Qed.

Lemma set_cs_twice s i cs cs' : set_cs (set_cs s i cs) i cs' = set_cs s i cs'.
Proof. unfold set_cs. cbn. by rewrite list_insert_insert_eq. Qed.

(** A waiting client that no answer has reached. *)
Lemma waits_submitted cs x q b :
  chan_rel statics cs x -> cs_client cs = CWaiting q b -> q_pp q <> Launch ->
  resp_bit (cs_chan cs) = negb b -> submitted_at statics cs q b.
Proof.
  intros [Hwf Hcl] Hc Hl Hr. unfold client_rel in Hcl. rewrite Hc in Hcl.
  destruct Hcl as (Hb & Hn & Hh & Hq & [_ Hf Hp|f x' _ _ Hl' _ _|o Hr' _ _ _]); [done|done|].
  rewrite Hr in Hr'. by destruct b.
Qed.

(** From its answer to its next request, published. *)
Lemma client_again s a i cs q b bs :
  sim statics s a -> s_chans s !! i = Some cs -> cs_client cs = CWaiting q b ->
  resp_bit (cs_chan cs) = b -> result_in (cs_chan cs) q (Some bs) ->
  exists cs' b', run statics s (again i) = Some (Ok (set_cs s i cs', [EReturn i bs; ECall i (ask i)])) /\
    submitted_at statics cs' (ask i) b'.
Proof.
  intros Hs Hi Hc Hb Hres.
  pose proof (exec_client s i cs (with_client cs (CPolled q)) None Hi) as H1.
  unfold client_step in H1. rewrite Hc in H1. unfold poll in H1.
  fold (resp_bit (cs_chan cs)) in H1. rewrite Hb, Bool.eqb_reflx in H1. specialize (H1 eq_refl).
  set (s1 := set_cs s i (with_client cs (CPolled q))) in *.
  pose proof (lookup_set_cs s i cs (with_client cs (CPolled q)) Hi) as Hi1. fold s1 in Hi1.
  pose proof (exec_client s1 i _ (with_client cs CIdle) (Some bs) Hi1) as H2.
  unfold client_step in H2. cbn [cs_client with_client cs_chan] in H2. unfold collect_bytes in H2.
  destruct Hres as [Hres [_ Hval]]. fold (q_size q) in H2. rewrite Hres in H2.
  cbn [mbind res_bind res_of_option] in H2. rewrite Hval in H2. specialize (H2 eq_refl).
  unfold s1 in H2. rewrite set_cs_twice in H2. fold s1 in H2.
  set (s2 := set_cs s i (with_client cs CIdle)) in *.
  pose proof (lookup_set_cs s i cs (with_client cs CIdle) Hi) as Hi2. fold s2 in Hi2.
  assert (H12 : steps statics s [ClientStep i; ClientStep i] [EReturn i bs] s2)
    by (by eapply (steps_cons _ _ _ _ []); [|eapply (steps_cons _ _ _ _ [_] _ []); [|constructor]]).
  destruct (steps_sim statics _ _ _ _ H12 ltac:(by repeat constructor) a Hs) as (a2 & _ & Hs2).
  destruct (sim_lookup statics _ _ _ _ Hs2 Hi2) as (x2 & _ & Hc2).
  destruct (call_sim statics _ _ (ask i) Hc2 eq_refl (pr_ok _ (prompt_asks i))) as (c & Hput & _ & _ & Hc3).
  set (cs3 := with_client (with_chan (with_client cs CIdle) c) (CEncoded (ask i))) in *.
  assert (H3 : exec statics s2 (Call i (ask i)) = Some (Ok (set_cs s i cs3, [ECall i (ask i)]))).
  { cbn [exec]. rewrite Hi2. cbn [mbind option_bind]. cbn [cs_client with_client]. rewrite Hput.
    cbn [mbind res_bind]. unfold s2. by rewrite set_cs_twice. }
  pose proof (lookup_set_cs s i cs cs3 Hi) as Hi3. set (s3 := set_cs s i cs3) in *.
  set (b' := negb (resp_bit c)).
  pose proof (exec_client s3 i cs3 (with_client cs3 (CLoaded (ask i) b')) None Hi3 eq_refl) as H4.
  unfold s3 in H4 at 2. rewrite set_cs_twice in H4.
  set (cs4 := with_client cs3 (CLoaded (ask i) b')) in *.
  pose proof (lookup_set_cs s i cs cs4 Hi) as Hi4. set (s4 := set_cs s i cs4) in *.
  pose proof (exec_client s4 i cs4 _ None Hi4 eq_refl) as H5.
  unfold s4 in H5 at 2. rewrite set_cs_twice in H5.
  match type of H5 with _ = Some (Ok (set_cs s i ?x, _)) => set (cs5 := x) in * end.
  assert (H35 : steps statics s2 [Call i (ask i); ClientStep i; ClientStep i] [ECall i (ask i)] (set_cs s i cs5)).
  { eapply (steps_cons _ _ _ _ [_] _ []); [exact H3|]. eapply (steps_cons _ _ _ _ []); [exact H4|].
    eapply (steps_cons _ _ _ _ []); [exact H5|constructor]. }
  destruct (steps_sim statics _ _ _ _ H35 ltac:(repeat constructor; apply (prompt_asks i)) a2 Hs2)
    as (a5 & _ & Hs5).
  destruct (sim_lookup statics _ _ i cs5 Hs5 (lookup_set_cs _ _ _ _ Hi)) as (x5 & _ & Hc5).
  exists cs5, b'. split.
  - unfold again. cbn [run]. by rewrite H1, H2, H3, H4, H5.
  - eapply waits_submitted; [exact Hc5|reflexivity|apply (prompt_asks i)|].
    unfold b'. rewrite negb_involutive. reflexivity.
Qed.

(** ** Everybody asks, all the time *)

(** All [n] clients wait, unanswered, and the worker knows them all. *)
Record all_ask (n : nat) s : Prop := {
  al_sim : exists a, sim statics s a;
  al_worker : s_worker s = WReady;
  al_drained : s_drained s = n;
  al_clients : length (s_chans s) = n;
  al_asking : forall i cs, s_chans s !! i = Some cs -> exists b, submitted_at statics cs (ask i) b;
}.

(** What [evs] and [s'] owe to a visit, or a round, that starts at [s] and
    answers [l]. *)
Record serves (n : nat) s (l : list nat) (evs : list (event T)) s' : Prop := {
  sv_steps : exists acts, steps statics s acts evs s' /\ Forall (action_ok statics) acts;
  sv_ask : all_ask n s';
  sv_order : answered_by evs = l;
  sv_others : forall i, i ∉ l -> s_chans s' !! i = s_chans s !! i;
}.

Lemma serves_none n s : all_ask n s -> serves n s [] [] s.
Proof. intros Ha. split; [|done|done|done]. exists []. split; [constructor|done]. Qed.

Lemma serves_app n s l evs s1 l' evs' s2 :
  serves n s l evs s1 -> serves n s1 l' evs' s2 -> serves n s (l ++ l') (evs ++ evs') s2.
Proof.
  intros [(acts & Hst & Hok) _ <- Ho] [(acts' & Hst' & Hok') Ha <- Ho']. split; [|done| |].
  - exists (acts ++ acts'). split; [by eapply steps_app|by apply Forall_app].
  - unfold answered_by. by rewrite omap_app.
  - intros i [Hi Hi']%not_elem_of_app. by rewrite Ho', Ho.
Qed.

Lemma eager_visit n s evs idx :
  all_ask n s -> idx < n ->
  exists s' ev, eager_body idx (Ok (s, evs)) = (Ok (s', evs ++ ev), true) /\ serves n s [idx] ev s'.
Proof.
  intros Ha Hlt. pose proof Ha as [[a Hs] Hw Hd Hn Hask].
  destruct (lookup_lt_is_Some_2 (s_chans s) idx ltac:(lia)) as [cs Hi].
  destruct (Hask idx cs Hi) as [b Hsb]. destruct (prompt_asks idx) as [_ Hl (p & Hp & Hrun)].
  destruct (Hrun (s_prop s)) as (t' & bs & Hrp).
  destruct (visit_answers _ _ _ _ _ _ _ Hsb Hl Hp Hrp) as (cs' & Hv & Hcl & Hb & Hres).
  pose proof (submitted_served _ _ _ _ Hsb) as Hsv.
  destruct (body_spec statics s a idx Hs Hw ltac:(lia) ltac:(lia)) as
    (s1 & a1 & sv & Hbody & Hst & Hs1 & _ & _ & _ & _).
  assert (Hbody' : WorkerLoop.body statics idx (Ok s) =
    (Ok {| s_prop := t'; s_chans := <[idx := cs']> (s_chans s); s_drained := s_drained s;
           s_worker := WReady |}, true)).
  { unfold WorkerLoop.body. by rewrite Hw, Hi, Hv, Hsv. }
  rewrite Hbody in Hbody'. injection Hbody' as -> ->.
  set (s1 := {| s_prop := t'; s_chans := _; s_drained := _; s_worker := _ |}) in *.
  assert (Hi1 : s_chans s1 !! idx = Some cs') by (apply list_lookup_insert_eq; lia).
  destruct (client_again s1 a1 idx cs' _ b bs Hs1 Hi1 Hcl Hb Hres) as (cs2 & b' & Hag & Hsb2).
  exists (set_cs s1 idx cs2), [EReturn idx bs; ECall idx (ask idx)]. split.
  { unfold eager_body. rewrite Hbody. cbn [mbind res_bind]. by rewrite Hag. }
  pose proof (run_steps _ _ _ _ _ Hag) as Hst2.
  assert (Hok : Forall (action_ok statics) (again idx))
    by (repeat constructor; apply (prompt_asks idx)).
  destruct (steps_sim statics _ _ _ _ Hst2 Hok a1 Hs1) as (a2 & _ & Hs2).
  split; [|split| |].
  - eexists. split; [apply (steps_app _ _ _ _ _ _ _ _ Hst Hst2)|].
    apply Forall_app. split; [by repeat constructor|done].
  - by exists a2.
  - done.
  - done.
  - cbn. by rewrite !length_insert.
  - cbn. rewrite list_insert_insert_eq. intros i csi Hcsi. destruct (decide (i = idx)) as [->|Hne].
    + rewrite list_lookup_insert_eq in Hcsi by lia. simplify_eq. by exists b'.
    + rewrite list_lookup_insert_ne in Hcsi by done. by apply Hask.
  - done.
  - intros i Hni. cbn. rewrite list_insert_insert_eq, list_lookup_insert_ne; [done|].
    intros <-. apply Hni. by left.
Qed.

(** ** Rounds *)

(** The loop over eager clients goes where the busy indices go. *)
Lemma eager_offs n s0 k offs start p s tr l evs :
  serves n s0 l evs s -> start < n -> offs + k <= n ->
  let '(tr', start', p') := for_offs (tracing (fun _ _ => true)) k offs n start p tr in
  exists s' l' evs', for_offs eager_body k offs n start p (Ok (s, evs)) = (Ok (s', evs'), start', p') /\
    tr' = tr ++ l' /\ serves n s0 (l ++ l') evs' s'.
Proof.
  revert offs start p s tr l evs. induction k as [|k IH]; intros offs start p s tr l evs Hs Hlt Hk.
  { exists s, [], evs. rewrite !app_nil_r. done. }
  cbn [for_offs]. unfold tracing at 1.
  pose proof (visit_index_lt n start offs Hlt ltac:(lia)) as Hi.
  destruct (eager_visit n s evs _ (sv_ask _ _ _ _ _ Hs) Hi) as (s1 & ev & Hb & Hs1). rewrite Hb.
  pose proof (serves_app _ _ _ _ _ _ _ _ Hs Hs1) as Hs2.
  specialize (IH (offs + 1) ((visit_index start offs n + 1) mod n) true s1
                (tr ++ [visit_index start offs n]) _ _ Hs2 ltac:(apply Nat.mod_upper_bound; lia) ltac:(lia)).
  destruct (for_offs _ k _ _ _ _ (tr ++ _)) as [[tr' start'] p'].
  destruct IH as (s' & l' & evs' & Hf & -> & Hs'). exists s', (visit_index start offs n :: l'), evs'.
  split; [exact Hf|]. rewrite <-!app_assoc in *. done.
Qed.

Lemma eager_iteration_spec n v s :
  all_ask n s -> start_idx v < n ->
  exists v' s' evs, eager_iteration v s = Ok (v', (s', evs)) /\
    start_idx v' = (start_idx v + tri n) mod n /\
    serves n s (busy_indices n (start_idx v)) evs s'.
Proof.
  intros Ha Hlt. pose proof Ha as [_ Hw Hd Hn _].
  destruct (take_in_spec v s ltac:(lia)) as (Heq & Hd' & _ & _).
  unfold eager_iteration. destruct (take_in v s) as [lc s1]. cbn [fst snd] in *.
  assert (s1 = s) as ->.
  { rewrite Heq. unfold set_drained. replace (s_drained s1) with (s_drained s) by lia. by destruct s. }
  rewrite Hd. destruct n as [|m]; [lia|]. set (n := S m) in *.
  pose proof (eager_offs n s n 0 (start_idx v) false s [] [] [] (serves_none n s Ha) Hlt ltac:(lia)) as Hr.
  pose proof (busy_round n (start_idx v) Hlt) as Hb. unfold round in Hb. rewrite Hb in Hr.
  destruct Hr as (s' & l' & evs & Hf & Hl & Hs). cbn in Hl. subst l'.
  unfold round. rewrite Hf. cbn [mbind res_bind]. eexists _, s', evs. done.
Qed.

(** However many rounds: the answers come in the order of the busy rounds. *)
Lemma eager_iterations_spec n k v s r :
  all_ask n s -> start_idx v < n ->
  exists v' s' evs, eager_iterations k v s = Ok (v', (s', evs)) /\ start_idx v' < n /\
    serves n s (visited_rounds busy r k n (start_idx v)) evs s'.
Proof.
  revert v s r. induction k as [|k IH]; intros v s r Ha Hlt.
  { exists v, s, []. split; [done|]. split; [done|]. by apply serves_none. }
  destruct (eager_iteration_spec n v s Ha Hlt) as (v1 & s1 & evs1 & Hit & Hst & Hs1).
  destruct (IH v1 s1 (S r) (sv_ask _ _ _ _ _ Hs1)) as (v2 & s2 & evs2 & Hits & Hv2 & Hs2).
  { rewrite Hst. apply Nat.mod_upper_bound. lia. }
  exists v2, s2, (evs1 ++ evs2). cbn [eager_iterations]. rewrite Hit. cbn [mbind res_bind].
  rewrite Hits. split; [done|]. split; [done|]. cbn [visited_rounds]. unfold busy at 1. rewrite busy_round by done.
  rewrite <-Hst. by eapply serves_app.
Qed.
End eager.

Lemma visited_busy_length r k n start :
  start < n -> length (visited_rounds busy r k n start) = k * n.
Proof.
  revert r start. induction k as [|k IH]; intros r start Hs; [done|]. cbn [visited_rounds].
  unfold busy at 1. rewrite busy_round by done. rewrite length_app, IH by (apply Nat.mod_upper_bound; lia).
  unfold busy_indices. rewrite length_map, length_seq. lia.
Qed.

(** ** Properties *)
Section properties.
Context {T : Type} `{Repr T} (statics : Z -> option (ErasedVTable T)).

(** C28: who is served by a busy worker depends on how many ask.  From any
    reachable state in which [n] clients wait, all known to the worker, and
    call again as soon as they are answered, the loop goes on for any number
    of iterations, [n] answers in each.  With [n] a power of two everyone is
    answered within any two iterations; with any other [n] some client's
    published request is never answered, its channel never touched, however
    many iterations there are, while the others get all the answers. *)
Theorem eager_clients_served_iff (t : T) (addr : Z) acts evs (s : system T) (v : worker_vars)
    (ask : nat -> rpc T) (n : nat)
    (Haddr : (0 <= addr /\ addr + SLOT_BYTES < usize_modulus)%Z)
    (Hacts : Forall (action_ok statics) acts) (Hrun : steps statics (System.start t addr) acts evs s)
    (Hw : s_worker s = WReady) (Hd : s_drained s = n) (Hn : length (s_chans s) = n)
    (Hv : start_idx v < n) (Hask : forall i, prompt statics (ask i))
    (Hwait : forall i cs, s_chans s !! i = Some cs ->
       exists b, cs_client cs = CWaiting (ask i) b /\ poll (cs_chan cs) b = false) :
  (forall k, exists v' s' evs' acts',
     eager_iterations statics ask k v s = Ok (v', (s', evs')) /\
     steps statics s acts' evs' s' /\ length (answered_by evs') = k * n) /\
  ((exists m, n = 2 ^ m) ->
   forall k v1 s1 evs1 v2 s2 evs2,
     eager_iterations statics ask k v s = Ok (v1, (s1, evs1)) ->
     eager_iterations statics ask 2 v1 s1 = Ok (v2, (s2, evs2)) ->
     forall i, i < n -> i ∈ answered_by evs2) /\
  (~ (exists m, n = 2 ^ m) ->
   exists victim, victim < n /\
     forall k v' s' evs', eager_iterations statics ask k v s = Ok (v', (s', evs')) ->
       (victim ∉ answered_by evs') /\ s_chans s' !! victim = s_chans s !! victim).
Proof.
  destruct (steps_sim statics _ _ _ _ Hrun Hacts _ (start_sim statics t addr (proj1 Haddr) (proj2 Haddr)))
    as (a & _ & Hs).
  assert (Ha : all_ask statics ask n s).
  { split; [by exists a|done..|]. intros i cs Hi. destruct (Hwait i cs Hi) as (b & Hc & Hp).
    destruct (sim_lookup statics _ _ _ _ Hs Hi) as (x & _ & Hrel). exists b.
    eapply waits_submitted; [exact Hrel|done|apply (Hask i)|]. unfold poll in Hp.
    fold (resp_bit (cs_chan cs)) in Hp. by destruct (resp_bit (cs_chan cs)), b. }
  split; [|split].
  - intros k. destruct (eager_iterations_spec statics ask Hask n k v s 0 Ha Hv)
      as (v' & s' & evs' & Hit & _ & [(acts' & Hst & _) _ Ho _]).
    exists v', s', evs', acts'. by rewrite Ho, visited_busy_length.
  - intros [m Hm] k v1 s1 evs1 v2 s2 evs2 H1 H2 i Hi.
    destruct (eager_iterations_spec statics ask Hask n k v s 0 Ha Hv) as (v' & s' & evs' & Hit & Hv' & Hs').
    rewrite Hit in H1. injection H1 as <- <- <-.
    destruct (eager_iterations_spec statics ask Hask n 2 v' s' 0 (sv_ask _ _ _ _ _ _ _ Hs') Hv')
      as (v'' & s'' & evs'' & Hit' & _ & [_ _ Ho _]).
    rewrite Hit' in H2. injection H2 as <- <- <-. rewrite Ho. by eapply busy_pow2_all.
  - intros Hno. destruct (pow2_or_odd_divisor n) as [?|(d & c & Hodd & H3 & Hc)]; [lia|done|].
    destruct (busy_odd_divisor d c n (start_idx v) Hodd H3 Hc Hv) as (victim & Hvn & Hnever).
    exists victim. split; [done|]. intros k v' s' evs' Hk.
    destruct (eager_iterations_spec statics ask Hask n k v s 0 Ha Hv)
      as (v1 & s1 & evs1 & Hit & _ & [_ _ Ho Hoth]).
    rewrite Hit in Hk. injection Hk as <- <- <-. rewrite Ho. split; [apply Hnever|apply Hoth, Hnever].
Qed.
End properties.

(** ** Three readers *)
Module Starved.
Import Counter.

Definition ask (_ : nat) : rpc Byte.byte := apply_request reader.
Definition publish (i : nat) : list (action Byte.byte) := [Call i (ask i); ClientStep i; ClientStep i].
Definition acts : list (action Byte.byte) :=
  [Register 131072; Register 196608; Drain; Drain; Drain] ++ publish 0 ++ publish 1 ++ publish 2.
Definition evs : list (event Byte.byte) := [ECall 0 (ask 0); ECall 1 (ask 1); ECall 2 (ask 2)].
Definition first : system Byte.byte := System.start Byte.x05 65536.
Definition asked : system Byte.byte :=
  match run statics first acts with Some (Ok (s, _)) => s | _ => first end.

Lemma ask_prompt i : prompt statics (ask i).
Proof.
  split; [exact LoopRun.reader_apply_ok|done|]. eexists. split; [reflexivity|].
  intros t. by do 2 eexists.
Qed.
Lemma three_asked_ok : Forall (action_ok statics) acts.
Proof. repeat (constructor; [first [exact LoopRun.reader_apply_ok|exact I|done]|]). constructor. Qed.
Lemma runs_three_asked : steps statics first acts evs asked.
Proof. apply run_steps. vm_compute. reflexivity. Qed.
Lemma asked_state :
  (fun cs => (cs_client cs, poll (cs_chan cs) true)) <$> s_chans asked =
  replicate 3 (CWaiting (apply_request reader) true, false).
Proof. vm_compute. reflexivity. Qed.
Lemma asked_wait i cs :
  s_chans asked !! i = Some cs ->
  exists b, cs_client cs = CWaiting (ask i) b /\ poll (cs_chan cs) b = false.
Proof.
  intros Hi. exists true.
  apply (f_equal (fmap (fun cs => (cs_client cs, poll (cs_chan cs) true)))) in Hi.
  rewrite <-list_lookup_fmap, asked_state in Hi. apply lookup_replicate in Hi as [Hi _]. by injection Hi.
Qed.

(** Who is answered in [k] iterations. *)
Definition order (k : nat) : option (list nat) :=
  match eager_iterations statics ask k first_vars asked with
  | Ok (_, (_, evs)) => Some (answered_by evs)
  | _ => None
  end.
End Starved.

(** The second of three readers is left waiting. *)
Lemma eager_clients_served_iff_witness :
  Starved.order 3 = Some [0; 2; 2; 0; 2; 2; 0; 2; 2] /\
  ((forall k, exists v' s' evs' acts',
     eager_iterations Counter.statics Starved.ask k first_vars Starved.asked = Ok (v', (s', evs')) /\
     steps Counter.statics Starved.asked acts' evs' s' /\ length (answered_by evs') = k * 3) /\
   ((exists m, 3 = 2 ^ m) ->
    forall k v1 s1 evs1 v2 s2 evs2,
      eager_iterations Counter.statics Starved.ask k first_vars Starved.asked = Ok (v1, (s1, evs1)) ->
      eager_iterations Counter.statics Starved.ask 2 v1 s1 = Ok (v2, (s2, evs2)) ->
      forall i, i < 3 -> i ∈ answered_by evs2) /\
   (~ (exists m, 3 = 2 ^ m) ->
    exists victim, victim < 3 /\
      forall k v' s' evs',
        eager_iterations Counter.statics Starved.ask k first_vars Starved.asked = Ok (v', (s', evs')) ->
        (victim ∉ answered_by evs') /\ s_chans s' !! victim = s_chans Starved.asked !! victim)).
Proof.
  split; [vm_compute; reflexivity|].
  apply (eager_clients_served_iff Counter.statics Byte.x05 65536 _ _ Starved.asked first_vars Starved.ask 3
           ltac:(done) Starved.three_asked_ok
           Starved.runs_three_asked).
  - vm_compute. reflexivity.
  - vm_compute. reflexivity.
  - vm_compute. reflexivity.
  - cbn [start_idx first_vars]. lia.
  - exact Starved.ask_prompt.
  - exact Starved.asked_wait.
Defined.
