(* ===== verification/History.v ===== *)
(** * History: the calls and returns a client sees

    Of every execution: each client's calls and returns alternate, a return
    follows a call of the same client, and the bytes it carries are a value
    of the result type of that call.  The one exception is a launched closure
    that panics ([Delegation.launch_outcome]); it is excluded by hypothesis. *)
From S2P Require Import Prelude Slots Serialization Remote Worker Delegation System Service.
From S2P Require Import Refinement Interleaving.
Local Open Scope Z_scope.

(** ** Results of closures, in any interleaving *)

(** All results of a closure satisfy [P]. *)
Fixpoint prog_all {T R} (P : R -> Prop) (p : prog T R) : Prop :=
  match p with
  | PRet r => P r
  | PPanic => True
  | PStep _ k => forall t, prog_all P (k t)
  end.
(** It returns, whatever it sees. *)
Fixpoint prog_returns {T R} (p : prog T R) : Prop :=
  match p with
  | PRet _ => True
  | PPanic => False
  | PStep _ k => forall t, prog_returns (k t)
  end.

(** The bytes are a value of [R]. *)
Definition is_value (R : Type) `{Repr R} (bs : list Z) : Prop := exists r : R, of_bytes bs = Some r.

(** All answers to [q] satisfy [P], and there is one. *)
Definition answers_in {T} `{Repr T} (P : list Z -> Prop) (q : rpc T) : Prop :=
  match q_pp q with
  | IntoInner => forall t : T, P (to_bytes t)
  | Launch => forall p, body q = Some p -> prog_all P p /\ prog_returns p
  | _ => forall p, body q = Some p -> prog_all P p
  end.

Section results.
Context {T : Type} `{Repr T}.

Lemma prog_all_map {R} `{Repr R} (p : prog T R) : prog_all (is_value R) (prog_map to_bytes p).
Proof. induction p; simpl; [eexists; apply of_to_bytes|done|done]. Qed.
Lemma prog_returns_map {R S} (g : R -> S) (p : prog T R) : prog_returns p -> prog_returns (prog_map g p).
Proof. induction p; simpl; auto. Qed.
Lemma prog_all_then (P : list Z -> Prop) (p : prog T unit) q : prog_all P q -> prog_all P (prog_then p q).
Proof. intros Hq. induction p; simpl; done. Qed.
Lemma prog_all_repeat (P : list Z -> Prop) n (p : prog T unit) : P [] -> prog_all P (prog_repeat n p).
Proof. intros HP. induction n; simpl; [done|by apply prog_all_then]. Qed.

(** The requests of the methods are answered with values of their types. *)
Lemma apply_answers_in {R} `{Repr R} (u : user_fn T unit R) : answers_in (is_value R) (apply_request u).
Proof. intros p [= <-]. apply prog_all_map. Qed.
Lemma apply_with_answers_in {V R} `{Repr R} `{Bincode V} (u : user_fn T V R) (w : V) :
  answers_in (is_value R) (apply_with_request u w).
Proof. intros p [= <-]. simpl. destruct (deserialize _); [apply prog_all_map|done]. Qed.
Lemma batch_answers_in (u : user_fn T unit unit) n : answers_in (fun bs => bs = []) (apply_batch_mut_request u n).
Proof. intros p [= <-]. by apply prog_all_repeat. Qed.
Lemma launch_answers_in {R} `{Repr R} (u : user_fn T unit R) :
  prog_returns (call u tt) -> answers_in (is_value R) (launch_request u).
Proof. intros Hr p [= <-]. split; [apply prog_all_map|by apply prog_returns_map]. Qed.
Lemma into_inner_answers_in vt : answers_in (is_value T) (into_inner_request vt).
Proof. intros t. eexists. apply of_to_bytes. Qed.
End results.

(** ** Well-formed histories *)
Section histories.
Context {T : Type} `{Repr T}.
(** [ty q] says which answers suit [q]. *)
Context (ty : rpc T -> list Z -> Prop).
Implicit Types (m : gmap nat (rpc T)) (a : astate T) (b : istate T) (evs : list (event T)).

(** [m] holds the calls that have not returned. *)
Definition happens m (e : event T) m' : Prop :=
  match e with
  | ECall i q => m !! i = None /\ m' = <[i := q]> m
  | EReturn i bs => exists q, m !! i = Some q /\ ty q bs /\ m' = delete i m
  end.
Inductive history : gmap nat (rpc T) -> list (event T) -> gmap nat (rpc T) -> Prop :=
| history_nil m : history m [] m
| history_cons m e m1 evs m2 : happens m e m1 -> history m1 evs m2 -> history m (e :: evs) m2.

Lemma history_app m evs m1 evs' m2 : history m evs m1 -> history m1 evs' m2 -> history m (evs ++ evs') m2.
Proof. induction 1; intros; [done|]. simpl. econstructor; eauto. Qed.

Definition answerable (e : event T) : Prop :=
  match e with ECall _ q => answers_in (ty q) q | EReturn _ _ => True end.

(** What a client's state says of its call. *)
Definition client_typed (o : option (rpc T)) (x : aclient T) : Prop :=
  match x with
  | AIdle => o = None
  | ACalled q => o = Some q /\ answers_in (ty q) q
  | ARunning q p => o = Some q /\ prog_all (ty q) p /\ prog_returns p
  | ADone q r => o = Some q /\ exists bs, r = Some bs /\ ty q bs
  end.
Definition turn_typed (tn : turn T) a : Prop :=
  exists q, a_clients a !! tn_client tn = Some (ACalled q) /\ prog_all (ty q) (tn_prog tn).

Record typed m b : Prop := {
  td_clients : forall i, match a_clients (i_obj b) !! i with
                         | Some x => client_typed (m !! i) x
                         | None => m !! i = None
                         end;
  td_turn : forall tn, i_turn b = Some tn -> turn_typed tn (i_obj b);
}.

Lemma typed_client m a tn i x :
  typed m {| i_obj := a; i_turn := tn |} -> a_clients a !! i = Some x -> client_typed (m !! i) x.
Proof. intros [Hc _] Hi. specialize (Hc i). simpl in Hc. by rewrite Hi in Hc. Qed.

(** One client moves from [x] to [y]; the turn, if there is one, is another's. *)
Lemma typed_set m m' a tn i x y t o :
  typed m {| i_obj := a; i_turn := tn |} -> a_clients a !! i = Some x ->
  client_typed (m' !! i) y -> (forall j, j <> i -> m' !! j = m !! j) ->
  (forall q, x <> ACalled q) \/ tn = None ->
  typed m' {| i_obj := set_client a i y t o; i_turn := tn |}.
Proof.
  intros [Hc Ht] Hi Hy Hm Hx. constructor; simpl.
  - intros j. destruct (decide (j = i)) as [->|Hne].
    + rewrite list_lookup_insert_eq by (by eapply lookup_lt_Some). done.
    + rewrite list_lookup_insert_ne by done. specialize (Hc j). simpl in Hc. by rewrite Hm.
  - intros k Hk. destruct Hx as [Hx| ->]; [|done]. destruct (Ht _ Hk) as (q & Hq & Hp). exists q.
    split; [|done]. simpl in *. rewrite list_lookup_insert_ne; [done|]. intros E.
    rewrite <-E, Hi in Hq. injection Hq as ->. by destruct (Hx q).
Qed.

Lemma client_typed_step m a ev a' tn :
  typed m {| i_obj := a; i_turn := tn |} -> cstep a ev a' -> Forall answerable ev ->
  exists m', history m ev m' /\ typed m' {| i_obj := a'; i_turn := tn |}.
Proof.
  intros Ht Hst Hev.
  assert (Hsilent : forall i x y t o, a_clients a !! i = Some x -> (forall q, x <> ACalled q) ->
    client_typed (m !! i) y ->
    exists m', history m [] m' /\ typed m' {| i_obj := set_client a i y t o; i_turn := tn |}).
  { intros i x y t o Hi Hx Hy. exists m. split; [constructor|]. eapply typed_set; eauto. }
  destruct Hst as [a|a i q Hi|a i q upd k Hi|a i q bs Hi|a i q Hi|a i q bs Hi|a i q bs Hi Hz];
    try (pose proof (typed_client _ _ _ _ _ Ht Hi) as Hx; simpl in Hx).
  - exists m. split; [constructor|]. destruct Ht as [Hc Ht]. constructor; simpl.
    + intros i. specialize (Hc i). simpl in Hc. rewrite lookup_app.
      destruct (a_clients a !! i) eqn:E; [done|]. by destruct (i - length (a_clients a))%nat as [|[|n]].
    + intros k Hk. destruct (Ht _ Hk) as (q & Hq & Hp). exists q. split; [|done].
      by apply lookup_app_l_Some.
  - apply Forall_cons_1 in Hev as [Hq _]. exists (<[i := q]> m). split; [by repeat econstructor|].
    eapply typed_set; [done|done|by rewrite lookup_insert_eq|intros; by rewrite lookup_insert_ne|by left].
  - destruct Hx as (Hm & Hp & Hr). by apply (Hsilent _ _ _ _ _ Hi).
  - destruct Hx as (Hm & Hp & _). apply (Hsilent _ _ _ _ _ Hi); [done|]. split; [done|]. by exists bs.
  - by destruct Hx as (_ & _ & ?).
  - destruct Hx as (Hm & bs' & [= <-] & Hbs). exists (delete i m). split; [by repeat econstructor|].
    eapply typed_set; [done|done|by rewrite lookup_delete_eq|intros; by rewrite lookup_delete_ne|by left].
  - by destruct Hx as (_ & ? & ? & _).
Qed.

Lemma typed_step m b ev b' :
  istep b ev b' -> typed m b -> Forall answerable ev -> exists m', history m ev m' /\ typed m' b'.
Proof.
  intros Hst Ht Hev.
  destruct Hst as [a ev a' tn Hc|a i q p Hi Ho Hl Hb|a i q p Hi Ho Hl Hb|a i q Hi Ho Hp|a i upd k l|
                   a i q bs l Hi|a i l]; [by eapply client_typed_step|..];
    (exists m; split; [constructor|]);
    try (pose proof (typed_client _ _ _ _ _ Ht Hi) as Hx; simpl in Hx; destruct Hx as [Hm Ha];
         unfold answers_in in Ha).
  - rewrite Hl in Ha. eapply typed_set; [done|exact Hi| |done|by right]. split; [done|]. by apply Ha.
  - constructor; [apply Ht|]. intros tn [= <-]. exists q. split; [done|]. simpl.
    destruct (q_pp q) eqn:Hpp; try (by apply Ha); try done. unfold body in Hb. by rewrite Hpp in Hb.
  - constructor; [apply Ht|]. intros tn [= <-]. exists q. split; [done|]. simpl. rewrite Hp in Ha. apply Ha.
  - destruct Ht as [Hc Htn]. constructor; [exact Hc|]. intros tn [= <-].
    destruct (Htn _ eq_refl) as (q & Hq & Hp). exists q. split; [done|]. apply Hp.
  - destruct Ht as [Hc Htn]. destruct (Htn _ eq_refl) as (q' & Hq & Hp). simpl in Hq, Hp.
    rewrite Hi in Hq. injection Hq as <-.
    eapply (typed_set m m a None i); [by constructor|exact Hi| |done|by right]. split; [done|]. by exists bs.
  - destruct Ht as [Hc Htn]. by constructor.
Qed.

Lemma typed_traces m b evs b' :
  isteps b evs b' -> typed m b -> Forall answerable evs -> exists m', history m evs m' /\ typed m' b'.
Proof.
  intros Hst. revert m. induction Hst as [b|b ev b1 evs b2 Hs _ IH]; intros m Ht Hev.
  - exists m. split; [constructor|done].
  - apply Forall_app in Hev as [Hev1 Hev2]. destruct (typed_step _ _ _ _ Hs Ht Hev1) as (m1 & H1 & Ht1).
    destruct (IH _ Ht1 Hev2) as (m2 & H2 & Ht2). exists m2. split; [by eapply history_app|done].
Qed.

Lemma start_typed (t : T) : typed ∅ (free (astart t)).
Proof. constructor; [|done]. intros [|i]; simpl; apply lookup_empty. Qed.
End histories.

(** ** Properties *)

(** C20: answers have the type the caller reads them at.  If every called
    request [q] can only be answered with bytes in [ty q] (for the methods:
    values of their result types), then in every execution each client's calls
    and returns alternate, every return belongs to the client's last call, and
    the bytes it carries are in that call's [ty]; what is outstanding at the
    end is what the map says. *)
Theorem histories_well_typed {T} `{Repr T} (statics : Z -> option (ErasedVTable T))
    (ty : rpc T -> list Z -> Prop) (t : T) (addr : Z) acts evs f
    (Haddr : 0 <= addr /\ addr + SLOT_BYTES < usize_modulus)
    (Hacts : Forall (faction_ok statics) acts)
    (Hrun : fsteps statics (fstart t addr) acts evs f)
    (Hty : Forall (answerable ty) evs) :
  exists m, history ty ∅ evs m.
Proof.
  destruct (fsteps_sim _ _ _ _ _ _ Hrun Hacts (fstart_sim statics t addr Haddr)) as (b & Hb & _).
  destruct (typed_traces ty ∅ _ _ _ Hb (start_typed ty t) Hty) as (m & Hm & _). by exists m.
Qed.

(** The reader's answer is a byte, the batch's is empty. *)
Lemma histories_well_typed_witness :
  let ty := fun q : rpc Byte.byte =>
    match q_pp q with CallMutRetUnit => fun bs => bs = [] | _ => is_value Byte.byte end in
  exists m, history ty ∅ Schedule.evs m.
Proof.
  intros ty.
  refine (histories_well_typed Counter.statics ty Byte.x05 65536 _ _ _ Schedule.fine_addr_ok
            Schedule.fine_acts_ok Schedule.fine_runs_acts _).
  constructor; [|constructor; [|by repeat constructor]].
  - apply (launch_answers_in Counter.reader). by intros t.
  - apply batch_answers_in.
Defined.
