(* ===== verification/Shutdown.v ===== *)
(** * Shutdown: [Drop for Runtime], end to end ([src/runtime/runtime.rs])

    The last owner of a runtime registers a channel of its own, writes a
    [Terminate] record by hand, publishes it and joins the worker.  The worker,
    when it visits that channel, joins its fibers and returns.  This file puts
    the dropping thread and the [Terminate] arm next to the machine of
    [Service]; the pool protocol by which the worker joins idle fibers is
    [FiberPool]'s. *)
From S2P Require Import Prelude Slots Serialization Remote Worker Delegation System Service.
From S2P Require Import Refinement Interleaving.
Import header.
Local Open Scope Z_scope.

(** ** The dropping thread *)

(** Where [drop] is; its channel is pushed on the queue of registrations before
    the record is written. *)
Inductive drop_stage :=
| DRegistered
| DWritten                    (* record written *)
| DLoaded (b : bool)          (* response word loaded, bit chosen *)
| DJoin                       (* request word stored; in [handle.join()] *)
| DDone.                      (* returned *)

(** Whether the worker has met the [Terminate] record. *)
Inductive worker_end := Alive | JoiningFibers | Ended.

Record lstate (T : Type) := {
  l_fine : fstate T;
  l_drop : option (chan_state T * drop_stage);   (* the drop's channel *)
  l_queued : option nat;      (* behind how many registrations it waits in the queue *)
  l_end : worker_end;
}.
Arguments l_fine {T} _.
Arguments l_drop {T} _.
Arguments l_queued {T} _.
Arguments l_end {T} _.

Inductive laction (T : Type) :=
| LStep (x : faction T)
| LDrop (addr : Z)            (* the owner is dropped *)
| LDropStep
| LDrain                      (* the worker takes the drop's channel off the queue *)
| LVisitTerm                  (* the worker visits the drop's channel *)
| LExit.                      (* its fibers are joined: the worker returns *)
Arguments LStep {T} x.
Arguments LDrop {T} addr.
Arguments LDropStep {T}.
Arguments LDrain {T}.
Arguments LVisitTerm {T}.
Arguments LExit {T}.

Section shutdown.
Context {T : Type} `{Repr T} (statics : Z -> option (ErasedVTable T)).
Implicit Types (l : lstate T) (f : fstate T) (s : system T) (cs : chan_state T).

Definition no_fibers s : bool := forallb (fun cs => match cs_fibers cs with [] => true | _ => false end) (s_chans s).
Definition stopped s : bool := match s_worker s with WStopped => true | _ => false end.

(** The worker's thread is over: it returned after [Terminate], or it had
    left its loop otherwise. *)
Definition worker_gone l : bool :=
  match l_end l with Alive => stopped (f_sys (l_fine l)) | JoiningFibers => false | Ended => true end.

(** [Runtime::drop], after the registration. *)
Definition drop_step l (cs : chan_state T) (st : drop_stage) : option (res (chan_state T * drop_stage)) :=
  let c := cs_chan cs in
  match st with
  | DRegistered => Some (c ← terminate_record c; Ok (with_chan cs c, DWritten))
  | DWritten => Some (Ok (cs, DLoaded (negb (ready (load_flags (response c))))))
  | DLoaded b =>
      Some (Ok (with_chan cs (set_request c (store_flags (request c) (pack_ready_count b 1))), DJoin))
  | DJoin => if worker_gone l then Some (Ok (cs, DDone)) else None
  | DDone => None
  end.

Definition set_worker f (t : T) (wk : worker_state) : fstate T :=
  {| f_sys := {| s_prop := t; s_chans := s_chans (f_sys f); s_drained := s_drained (f_sys f);
                 s_worker := wk |}; f_service := f_service f |}.

(** The drop's channel is the first in the queue: the worker has drained all
    that were registered before it. *)
Definition at_head l : bool :=
  match l_queued l with Some n => (n =? s_drained (f_sys (l_fine l)))%nat | None => false end.

Definition set_fine l f : lstate T :=
  {| l_fine := f; l_drop := l_drop l; l_queued := l_queued l; l_end := l_end l |}.
Definition set_drop l (d : chan_state T * drop_stage) : lstate T :=
  {| l_fine := l_fine l; l_drop := Some d; l_queued := l_queued l; l_end := l_end l |}.

(** While it is first, no later registration is drained. *)
Definition blocked l (x : faction T) : bool :=
  match x with Base Drain => at_head l | _ => false end.

Definition set_end l (e : worker_end) : lstate T :=
  {| l_fine := l_fine l; l_drop := l_drop l; l_queued := l_queued l; l_end := e |}.

Definition lexec l (x : laction T) : option (res (lstate T * list (event T))) :=
  match x with
  | LStep x =>
      if blocked l x then None else
      m ← fexec statics (l_fine l) x;
      Some ('(f, ev) ← m; Ok (set_fine l f, ev))
  | LDrop addr =>
      match l_drop l with
      | None => Some (Ok ({| l_fine := l_fine l; l_drop := Some (fresh_chan addr, DRegistered);
                             l_queued := Some (length (s_chans (f_sys (l_fine l))));
                             l_end := l_end l |}, []))
      | Some _ => None
      end
  | LDropStep =>
      '(cs, st) ← l_drop l;
      m ← drop_step l cs st;
      Some (d ← m; Ok (set_drop l d, []))
  | LDrain =>
      match s_worker (f_sys (l_fine l)) with
      | WReady =>
          if at_head l
          then Some (Ok ({| l_fine := l_fine l; l_drop := l_drop l; l_queued := None;
                            l_end := l_end l |}, [])) else None
      | _ => None
      end
  | LVisitTerm =>
      '(cs, st) ← l_drop l;
      let s := f_sys (l_fine l) in
      match s_worker s, l_queued l with
      | WReady, None =>
          Some ('(cs, t, wk) ← worker_visit statics cs (load_flags (request (cs_chan cs))) (s_prop s);
                Ok ({| l_fine := set_worker (l_fine l) t wk; l_drop := Some (cs, st);
                       l_queued := None;
                       l_end := match wk with WStopped => JoiningFibers | _ => l_end l end |}, []))
      | _, _ => None
      end
  | LExit =>
      match l_end l with
      | JoiningFibers =>
          if no_fibers (f_sys (l_fine l))
          then Some (Ok (set_end l Ended, [])) else None
      | _ => None
      end
  end.

Inductive lsteps : lstate T -> list (laction T) -> list (event T) -> lstate T -> Prop :=
| lsteps_nil l : lsteps l [] [] l
| lsteps_cons l x l1 ev acts evs l2 :
    lexec l x = Some (Ok (l1, ev)) -> lsteps l1 acts evs l2 -> lsteps l (x :: acts) (ev ++ evs) l2.

Fixpoint lrun l (acts : list (laction T)) : option (res (lstate T * list (event T))) :=
  match acts with
  | [] => Some (Ok (l, []))
  | x :: acts =>
      match lexec l x with
      | Some (Ok (l, ev)) =>
          match lrun l acts with
          | Some (Ok (l, evs)) => Some (Ok (l, ev ++ evs))
          | r => r
          end
      | r => r
      end
  end.

Definition lstart (t : T) (addr : Z) : lstate T :=
  {| l_fine := fstart t addr; l_drop := None; l_queued := None; l_end := Alive |}.

Definition laction_ok (x : laction T) : Prop :=
  match x with
  | LStep x => faction_ok statics x
  | LDrop addr => 0 <= addr /\ addr + SLOT_BYTES < usize_modulus
  | _ => True
  end.

Lemma lrun_lsteps l acts evs l' : lrun l acts = Some (Ok (l', evs)) -> lsteps l acts evs l'.
Proof.
  revert l evs. induction acts as [|x acts IH]; intros l evs; cbn [lrun].
  { intros Hm. apply (inj Some) in Hm. injection Hm as <- <-. constructor. }
  destruct (lexec l x) as [[[l1 ev]| |]|] eqn:Hx; try done.
  destruct (lrun l1 acts) as [[[l2 evs']| |]|] eqn:Hr; try done.
  intros Hm. apply (inj Some) in Hm. injection Hm as <- <-. econstructor; eauto.
Qed.

Lemma lsteps_app l acts evs l1 acts' evs' l2 :
  lsteps l acts evs l1 -> lsteps l1 acts' evs' l2 -> lsteps l (acts ++ acts') (evs ++ evs') l2.
Proof. induction 1; intros; [done|]. rewrite <-app_assoc. simpl. econstructor; eauto. Qed.

Lemma lsteps_one l x l1 ev : lexec l x = Some (Ok (l1, ev)) -> lsteps l [x] ev l1.
Proof. intros Hx. rewrite <-(app_nil_r ev). econstructor; [done|constructor]. Qed.

(** Steps of the machine below that drain nothing, with the drop standing
    still. *)
Definition no_drain (x : faction T) : Prop := x <> Base Drain.

Lemma not_blocked l x : no_drain x -> blocked l x = false.
Proof. intros Hn. destruct x as [[]| |]; try done. Qed.

Lemma fsteps_lsteps l acts evs f' :
  fsteps statics (l_fine l) acts evs f' -> Forall no_drain acts ->
  lsteps l (map LStep acts) evs (set_fine l f').
Proof.
  intros Hst. remember (l_fine l) as f eqn:Hf. revert l Hf.
  induction Hst as [f|f x f1 ev acts evs f2 Hx _ IH]; intros l -> Hnd.
  - destruct l. constructor.
  - apply Forall_cons_1 in Hnd as [Hn Hnd]. simpl.
    econstructor; [|by apply (IH (set_fine l f1))].
    cbn [lexec]. by rewrite (not_blocked _ _ Hn), Hx.
Qed.
End shutdown.

(** ** The drop's channel *)
Section term_channel.
Context {T : Type} `{Repr T} (statics : Z -> option (ErasedVTable T)).
Implicit Types (cs : chan_state T) (c : ChannelPair) (st : drop_stage).

Definition term_in c : Prop := read_header c hdr_offset = Ok terminate_header.

Definition published st : bool := match st with DJoin | DDone => true | _ => false end.

Record term_ok cs st : Prop := {
  tm_wf : channel_wf (cs_chan cs);
  tm_fibers : cs_fibers cs = [];
  tm_pending : cp_pending_launch (cs_cp cs) = false;
  tm_record : st <> DRegistered -> term_in (cs_chan cs);
  tm_bit : match st with DLoaded b => b = negb (resp_bit (cs_chan cs)) | _ => True end;
  tm_bits : if published st
            then req_bit (cs_chan cs) = negb (resp_bit (cs_chan cs)) /\
                 count (load_flags (request (cs_chan cs))) = 1
            else req_bit (cs_chan cs) = resp_bit (cs_chan cs);
}.

Lemma terminate_written c :
  channel_wf c ->
  exists m, terminate_record c = Ok (set_request c m) /\ zlen m = SLOT_BYTES /\
    term_in (set_request c m) /\ load_flags m = load_flags (request c).
Proof.
  intros [[Hq Hr] Hb].
  destruct (write_at_Some (request c) hdr_offset (hdr_to_bytes terminate_header)) as [m Hm].
  { by rewrite hdr_offset_eq. }
  { unfold zlen at 1. rewrite length_hdr_to_bytes, hdr_offset_eq, Hq. done. }
  exists m. unfold terminate_record, put_header. rewrite Hm. split; [done|].
  split; [by rewrite (write_at_zlen _ _ _ _ Hm)|]. split.
  - unfold term_in, read_header. simpl.
    rewrite (read_write_same _ _ _ _ size_of_RequestRecordHeader Hm).
    + reflexivity.
    + unfold zlen. by rewrite length_hdr_to_bytes.
  - apply (load_flags_write _ _ _ _ Hm). by rewrite hdr_offset_eq.
Qed.

Lemma fresh_term addr :
  0 <= addr /\ addr + SLOT_BYTES < usize_modulus -> term_ok (fresh_chan addr) DRegistered.
Proof. intros []. by constructor. Qed.

Lemma drop_step_ok (l : lstate T) cs st m :
  term_ok cs st -> drop_step l cs st = Some m -> exists cs' st', m = Ok (cs', st') /\ term_ok cs' st'.
Proof.
  intros [Hwf Hf Hp Hrec Hbit Hbits] Hm. destruct st as [| |b| |]; simpl in Hm; simplify_eq.
  - destruct (terminate_written _ Hwf) as (m & -> & Hz & Hin & Hl). simpl.
    eexists _, _. split; [reflexivity|]. destruct Hwf as [[Hq Hr] Hb].
    constructor; simpl; try done. unfold req_bit, resp_bit in *. simpl. by rewrite Hl.
  - eexists _, _. split; [reflexivity|]. constructor; simpl; try done. intros _. by apply Hrec.
  - eexists _, _. split; [reflexivity|]. destruct Hwf as [[Hq Hr] Hb].
    assert (HEADER_BYTES <= zlen (request (cs_chan cs))) by (rewrite Hq; done).
    constructor; simpl; try done.
    + split; [split; [|done]|done]. simpl. by rewrite store_flags_zlen.
    + intros _. unfold term_in, read_header in *. simpl.
      rewrite read_store_flags by (done || by rewrite hdr_offset_eq). by apply Hrec.
    + unfold req_bit, resp_bit in *. simpl.
      rewrite load_store_flags by apply pack_range. by rewrite ready_pack, count_pack.
  - destruct (worker_gone l); [|done]. injection Hm as <-. eexists _, _. split; [reflexivity|].
    constructor; simpl; try done. intros _. by apply Hrec.
Qed.

(** The worker's visit: nothing before the word is published, the end after. *)
Lemma term_visit cs st (t : T) :
  term_ok cs st ->
  exists cs' wk, worker_visit statics cs (load_flags (request (cs_chan cs))) t = Ok (cs', t, wk) /\
    term_ok cs' st /\ wk = if published st then WStopped else WReady.
Proof.
  intros Ht. pose proof Ht as [Hwf Hf Hp Hrec Hbit Hbits].
  assert (Hkeep : forall cp, cp_pending_launch cp = false -> term_ok (with_cp cs cp) st).
  { intros cp Hcp. by constructor. }
  unfold worker_visit, visit, launch_gate. fold (req_bit (cs_chan cs)) (resp_bit (cs_chan cs)).
  rewrite Hp. destruct (published st) eqn:Hd.
  - destruct Hbits as [Hb Hn]. rewrite Hb, Hn.
    replace (Bool.eqb _ _) with false by (by destruct (resp_bit (cs_chan cs))).
    change (Z.to_nat 1) with 1%nat. cbn [process_records]. fold hdr_offset. simpl sv_chan.
    rewrite Hrec by (by intros ->). simpl. eexists _, WStopped. split; [reflexivity|].
    split; [|done]. rewrite Hf. destruct cs. simpl in *. rewrite Hf in Ht. exact Ht.
  - rewrite Hbits, Bool.eqb_reflx. eexists _, WReady. split; [reflexivity|]. split; [by apply Hkeep|done].
Qed.
End term_channel.

(** ** The invariant *)
Section invariant.
Context {T : Type} `{Repr T} (statics : Z -> option (ErasedVTable T)).
Implicit Types (l : lstate T) (f : fstate T) (s : system T).

Record linv l : Prop := {
  li_sim : exists a, fsim statics (l_fine l) a;
  li_drop : match l_drop l with Some (cs, st) => term_ok cs st | None => True end;
  li_end : l_end l <> Alive -> s_worker (f_sys (l_fine l)) = WStopped /\ f_service (l_fine l) = None;
  li_ended : l_end l = Ended -> no_fibers (f_sys (l_fine l)) = true;
  (** The registrations before the drop's are drained before it. *)
  li_drained : (s_drained (f_sys (l_fine l)) <= length (s_chans (f_sys (l_fine l))))%nat;
  li_queued : match l_queued l with
              | Some n => (s_drained (f_sys (l_fine l)) <= n <= length (s_chans (f_sys (l_fine l))))%nat
              | None => True
              end;
  li_done : match l_drop l with Some (_, DDone) => worker_gone l = true | _ => True end;
}.

Lemma no_fibers_spec s : no_fibers s = true <-> Forall (fun cs => cs_fibers cs = []) (s_chans s).
Proof.
  unfold no_fibers. rewrite forallb_forall, Forall_forall. setoid_rewrite list_elem_of_In.
  split; intros Hall cs Hcs; specialize (Hall cs Hcs); by destruct (cs_fibers cs).
Qed.

Lemma client_step_fibers (cs cs' : chan_state T) o :
  client_step cs = Some (Ok (cs', o)) -> cs_fibers cs' = cs_fibers cs.
Proof.
  unfold client_step. destruct (cs_client cs); intros Hc; simplify_eq; try done.
  - by case_match.
  - by destruct (collect_bytes _ _); simplify_eq/=.
Qed.

(** Once the worker has stopped it stays stopped, and with no fiber left no
    step touches the property. *)
Lemma fexec_stopped f x f' ev :
  fexec statics f x = Some (Ok (f', ev)) -> s_worker (f_sys f) = WStopped ->
  s_worker (f_sys f') = WStopped /\ f_service f' = f_service f /\
  (no_fibers (f_sys f) = true -> no_fibers (f_sys f') = true /\ s_prop (f_sys f') = s_prop (f_sys f)).
Proof.
  intros Hx Hw. destruct x as [x| |]; cbn [fexec] in Hx; try (by rewrite Hw in Hx).
  assert (exists s' , exec statics (f_sys f) x = Some (Ok (s', ev)) /\
            f' = {| f_sys := s'; f_service := f_service f |}) as (s' & Hs & ->).
  { destruct x; try done;
      (destruct (exec statics (f_sys f) _) as [[[s' ev']| |]|]; try done;
       cbn [mbind option_bind res_bind] in Hx; injection Hx as <- <-; by exists s'). }
  clear Hx. simpl. rewrite !no_fibers_spec. set (s := f_sys f) in *.
  destruct x as [addr| |i q|i|i| |i k]; cbn [exec] in Hs; rewrite ?Hw in Hs; try done.
  - injection Hs as <- _. split; [done|]. split; [done|]. intros Hn. split; [|done].
    apply Forall_app. split; [done|]. by repeat constructor.
  - destruct (s_chans s !! i) as [cs|] eqn:Hi; [|done]. cbn [mbind option_bind] in Hs.
    destruct (cs_client cs); try done. destruct (put_request _ _); try done. injection Hs as <- _.
    split; [done|]. split; [done|]. intros Hn. split; [|done]. apply Forall_insert; [done|].
    by apply (Forall_lookup_1 _ _ _ _ Hn Hi).
  - destruct (s_chans s !! i) as [cs|] eqn:Hi; [|done]. cbn [mbind option_bind] in Hs.
    destruct (client_step cs) as [[[cs' o]| |]|] eqn:Hc; try done. injection Hs as <- _.
    split; [done|]. split; [done|]. intros Hn. split; [|done]. apply Forall_insert; [done|].
    rewrite (client_step_fibers _ _ _ Hc). by apply (Forall_lookup_1 _ _ _ _ Hn Hi).
  - by destruct (s_chans s !! i).
  - destruct (s_chans s !! i) as [cs|] eqn:Hi; [|done]. cbn [mbind option_bind] in Hs.
    destruct (cs_fibers cs !! k) as [fb|] eqn:Hf; [|done]. cbn [mbind option_bind] in Hs.
    destruct (fiber_step _ _ _ _) as [[[c t] o]| |]; try done. injection Hs as <- _.
    split; [done|]. split; [done|]. intros Hn.
    by rewrite (Forall_lookup_1 _ _ _ _ Hn Hi) in Hf.
Qed.

(** Registrations are only added, and drained one at a time. *)
Lemma fexec_queue f x f' ev :
  fexec statics f x = Some (Ok (f', ev)) ->
  (length (s_chans (f_sys f)) <= length (s_chans (f_sys f')))%nat /\
  (no_drain x -> s_drained (f_sys f') = s_drained (f_sys f)) /\
  (s_drained (f_sys f') <= S (s_drained (f_sys f)))%nat /\
  (s_drained (f_sys f) <= length (s_chans (f_sys f)) -> s_drained (f_sys f') <= length (s_chans (f_sys f')))%nat.
Proof.
  assert (Hland : forall i m, land (f_sys f) i m = Ok (f', ev) ->
    (length (s_chans (f_sys f)) <= length (s_chans (f_sys f')))%nat /\
    (no_drain x -> s_drained (f_sys f') = s_drained (f_sys f)) /\
    (s_drained (f_sys f') <= S (s_drained (f_sys f)))%nat /\
    (s_drained (f_sys f) <= length (s_chans (f_sys f)) -> s_drained (f_sys f') <= length (s_chans (f_sys f')))%nat).
  { intros i m. unfold land. destruct m as [[[cs t] k]| |]; try done. cbn [mbind res_bind].
    intros [= <- <-]. destruct k; simpl; rewrite length_insert; split_and!; done || lia. }
  intros Hx. destruct x as [x| |]; cbn [fexec] in Hx.
  2,3: repeat (case_match; try done); destruct (_ !! _); try done; simplify_eq/=; by eapply Hland.
  assert (exists s', exec statics (f_sys f) x = Some (Ok (s', ev)) /\ f_sys f' = s') as (s' & Hs & ->).
  { destruct x; try done;
      (destruct (exec statics (f_sys f) _) as [[[s' ev']| |]|]; try done;
       cbn [mbind option_bind res_bind] in Hx; injection Hx as <- <-; by exists s'). }
  clear Hx Hland. destruct x as [addr| |i q|i|i| |i k]; cbn [exec] in Hs.
  - injection Hs as <- _. simpl. rewrite length_app. split_and!; done || lia.
  - destruct (s_worker _); try done. destruct (Nat.ltb_spec (s_drained (f_sys f)) (length (s_chans (f_sys f)))); [|done].
    injection Hs as <- _. simpl. split_and!; [done|by intros []|lia|lia].
  - destruct (_ !! i); [|done]. cbn [mbind option_bind] in Hs. case_match; try done.
    destruct (put_request _ _); try done. injection Hs as <- _. simpl. rewrite length_insert.
    split_and!; done || lia.
  - destruct (_ !! i); [|done]. cbn [mbind option_bind] in Hs.
    destruct (client_step _) as [[[cs' o]| |]|]; try done. injection Hs as <- _. simpl.
    rewrite length_insert. split_and!; done || lia.
  - destruct (_ !! i); [|done]. cbn [mbind option_bind] in Hs. repeat case_match; simplify_eq/=.
    split_and!; done || lia.
  - destruct (s_worker _); try done. destruct (_ !! i); [|done]. cbn [mbind option_bind] in Hs.
    destruct (worker_visit _ _ _ _) as [[[cs' t] wk]| |]; try done. injection Hs as <- _. simpl.
    rewrite length_insert. split_and!; done || lia.
  - destruct (_ !! i); [|done]. cbn [mbind option_bind] in Hs. destruct (_ !! k); [|done].
    cbn [mbind option_bind] in Hs. destruct (fiber_step _ _ _ _) as [[[c' t] o]| |]; try done.
    injection Hs as <- _. simpl. rewrite length_insert. split_and!; done || lia.
Qed.

Lemma gone_keeps l f' :
  s_worker (f_sys (l_fine l)) = WStopped -> s_worker (f_sys f') = WStopped ->
  worker_gone (set_fine l f') = worker_gone l.
Proof. intros H1 H2. unfold worker_gone, stopped. simpl. by rewrite H1, H2. Qed.

(** The worker's thread ends once. *)
Lemma worker_gone_stopped l : linv l -> worker_gone l = true -> s_worker (f_sys (l_fine l)) = WStopped.
Proof.
  intros Hl. unfold worker_gone, stopped. destruct (l_end l) eqn:He; [|done|].
  - by destruct (s_worker _).
  - intros _. by apply Hl; rewrite He.
Qed.

Lemma stop_fsim f a t wk :
  fsim statics f a -> s_worker (f_sys f) = WReady -> f_service f = None -> t = s_prop (f_sys f) ->
  wk = WReady \/ wk = WStopped -> exists a', fsim statics (set_worker f t wk) a'.
Proof.
  intros [[Hp Ho Hf Hk] Ht] Hw Hn -> Hwk. rewrite Hn in Ht.
  exists {| i_obj := {| a_prop := a_prop (i_obj a); a_clients := a_clients (i_obj a);
                        a_open := is_open wk |}; i_turn := None |}.
  constructor; simpl; [|by rewrite Hn]. constructor; simpl; try done.
  unfold worker_ok. simpl. by destruct Hwk as [->| ->].
Qed.

Lemma service_needs_word f a : fsim statics f a -> s_worker (f_sys f) = WReady -> f_service f = None.
Proof.
  intros [_ Ht] Hw. destruct (f_service f) as [sv|]; [|done]. destruct Ht as (i & w & cs & Hw' & _).
  congruence.
Qed.

Definition lgoes (m : res (lstate T * list (event T))) : Prop :=
  exists l' ev, m = Ok (l', ev) /\ linv l'.

(** Or a caller reads what its panicked launch left. *)
Definition lgarbage_read l (x : laction T) {A} (m : res A) : Prop :=
  exists i cs q, x = LStep (Base (ClientStep i)) /\ s_chans (f_sys (l_fine l)) !! i = Some cs /\
    cs_client cs = CPolled q /\ q_pp q = Launch /\ m = UB not_a_value.

Lemma fgarbage_caller f a x m :
  fsim statics f a -> fexec statics f x = Some m -> fgarbage_read a x m ->
  exists i cs q, x = Base (ClientStep i) /\ s_chans (f_sys f) !! i = Some cs /\
    cs_client cs = CPolled q /\ q_pp q = Launch /\ m = UB not_a_value.
Proof.
  intros Hs Hm Hg. destruct x as [x| |]; [|done..]. pose proof Hg as (-> & i & y & -> & Hg').
  cbn [fexec] in Hm. destruct (exec statics (f_sys f) (ClientStep i)) as [m'|] eqn:Hx; [|done].
  cbn [mbind option_bind] in Hm. apply (inj Some) in Hm. destruct m' as [[s' ev]|why|why]; try done.
  injection Hm as ->.
  destruct (garbage_read_caller statics _ _ _ _ (fs_sim _ _ _ Hs) Hx) as (j & cs & q & [= <-] & Hi & Hc & Hl & _).
  { split; [done|]. by exists i, y. }
  by exists i, cs, q.
Qed.

Lemma step_linv l x m :
  linv l -> faction_ok statics x -> lexec statics l (LStep x) = Some m ->
  lgoes m \/ lgarbage_read l (LStep x) m.
Proof.
  intros Hl Hok Hm. pose proof Hl as [[a Hs] Hd He Hen Hdl Hq Hdn]. cbn [lexec] in Hm.
  destruct (blocked l x) eqn:Hbl; [done|].
  destruct (fexec statics (l_fine l) x) as [m'|] eqn:Hx; [|done]. cbn [mbind option_bind] in Hm.
  apply (inj Some) in Hm as <-.
  destruct (fexec_sim statics _ _ _ _ Hs Hok Hx) as [(f' & ev & a' & -> & _ & Hs')|Hg].
  2: { right. destruct (fgarbage_caller _ _ _ _ Hs Hx Hg) as (i & cs & q & -> & Hi & Hc & Hp & ->).
       by exists i, cs, q. }
  left. eexists _, _. split; [reflexivity|]. constructor; simpl; [by exists a'|done| | |by apply (fexec_queue _ _ _ _ Hx)| |].
  - intros Hne. destruct (He Hne) as [Hw Hsv].
    destruct (fexec_stopped _ _ _ _ Hx Hw) as (Hw' & Hsv' & _). split; [done|congruence].
  - intros Hne. destruct (He ltac:(congruence)) as [Hw _].
    destruct (fexec_stopped _ _ _ _ Hx Hw) as (_ & _ & Hn). by apply Hn, Hen.
  - destruct (l_queued l) as [n|] eqn:Hqd; [|done]. destruct (fexec_queue _ _ _ _ Hx) as (Hlen & Hsame & Hone & _).
    assert (x = Base Drain \/ no_drain x) as [->|Hnd] by (destruct x as [[]| |]; by (left + right)).
    + unfold blocked, at_head in Hbl. rewrite Hqd in Hbl. apply Nat.eqb_neq in Hbl. lia.
    + rewrite (Hsame Hnd). lia.
  - destruct (l_drop l) as [[cs st]|] eqn:Hdr; [|done]. destruct st; try done.
    pose proof (worker_gone_stopped l Hl Hdn) as Hw.
    destruct (fexec_stopped _ _ _ _ Hx Hw) as (Hw' & _).
    by rewrite (gone_keeps l f' Hw Hw').
Qed.

Lemma drop_linv l x m :
  linv l -> laction_ok statics x -> (forall y, x <> LStep y) -> lexec statics l x = Some m -> lgoes m.
Proof.
  intros Hl Hok Hns Hm. pose proof Hl as [[a Hs] Hd He Hen Hdl Hq Hdn].
  destruct x as [y|addr| | | |]; cbn [lexec] in Hm; [by destruct (Hns y)|..].
  - destruct (l_drop l) eqn:Hdr; [done|]. apply (inj Some) in Hm as <-.
    eexists _, _. split; [reflexivity|]. constructor; simpl; try done. by exists a.
  - destruct (l_drop l) as [[cs st]|] eqn:Hdr; [|done]. cbn [mbind option_bind] in Hm.
    destruct (drop_step l cs st) as [d|] eqn:Hds; [|done]. cbn [mbind option_bind] in Hm.
    apply (inj Some) in Hm as <-. destruct (drop_step_ok l cs st d Hd Hds) as (cs' & st' & -> & Hd').
    eexists _, _. split; [reflexivity|]. constructor; simpl; try done; [by exists a|].
    destruct st'; try done. destruct st; simpl in Hds; simplify_eq.
    + by destruct (terminate_record _).
    + destruct (worker_gone l) eqn:Hg; [|done]. exact Hg.
  - destruct (s_worker (f_sys (l_fine l))) eqn:Hw; try done. destruct (at_head l); [|done].
    apply (inj Some) in Hm as <-. eexists _, _. split; [reflexivity|]. constructor; simpl; try done; [by exists a|].
    by rewrite Hw.
  - destruct (l_drop l) as [[cs st]|] eqn:Hdr; [|done]. cbn [mbind option_bind] in Hm.
    destruct (s_worker (f_sys (l_fine l))) eqn:Hw; try done.
    destruct (l_queued l) as [n|] eqn:Hqd; [done|]. apply (inj Some) in Hm as <-.
    destruct (term_visit statics cs st (s_prop (f_sys (l_fine l))) Hd) as (cs' & wk & -> & Hd' & Hwk).
    assert (Hal : l_end l = Alive).
    { destruct (l_end l); [done|destruct He as [? _]; [done|congruence]..]. }
    assert (st <> DDone) as Hnd.
    { intros ->. pose proof (worker_gone_stopped l Hl Hdn). congruence. }
    pose proof (service_needs_word _ _ Hs Hw) as Hsv.
    eexists _, _. split; [reflexivity|].
    assert (wk = WReady \/ wk = WStopped) as Hor by (rewrite Hwk; destruct (published st); auto).
    pose proof (stop_fsim _ _ _ wk Hs Hw Hsv eq_refl Hor) as Hs'.
    constructor; simpl; [exact Hs'|done| | |done|done|].
    + rewrite Hal, Hwk. by destruct (published st).
    + rewrite Hal, Hwk. by destruct (published st).
    + by destruct st.
  - destruct (l_end l) eqn:Hen'; try done. destruct (no_fibers _) eqn:Hn; [|done].
    apply (inj Some) in Hm as <-. eexists _, _. split; [reflexivity|].
    constructor; simpl; try done; [by exists a|intros _; by apply He|].
    destruct (l_drop l) as [[cs []]|]; done.
Qed.

Lemma lexec_linv l x m :
  linv l -> laction_ok statics x -> lexec statics l x = Some m -> lgoes m \/ lgarbage_read l x m.
Proof.
  intros Hl Hok Hm. destruct x as [x|addr| | | |]; [by eapply step_linv|left; eapply drop_linv; done..].
Qed.

Lemma lexec_keeps l x l' ev :
  linv l -> laction_ok statics x -> lexec statics l x = Some (Ok (l', ev)) -> linv l'.
Proof.
  intros Hl Hok Hm. destruct (lexec_linv _ _ _ Hl Hok Hm) as [(? & ? & [= <- <-] & ?)|(i & cs & q & Hg)]; [done|].
  by destruct Hg as (_ & _ & _ & _ & ?).
Qed.

Lemma lsteps_linv l acts evs l' :
  lsteps statics l acts evs l' -> Forall (laction_ok statics) acts -> linv l -> linv l'.
Proof.
  induction 1 as [l|l x l1 ev acts evs l2 Hx _ IH]; intros Hok Hl; [done|].
  apply Forall_cons_1 in Hok as [Hx1 Hrest].
  pose proof (lexec_keeps _ _ _ _ Hl Hx1 Hx). auto.
Qed.

Lemma lstart_linv t addr :
  0 <= addr /\ addr + SLOT_BYTES < usize_modulus -> linv (lstart t addr).
Proof. intros Ha. constructor; simpl; try done; [eexists; by apply fstart_sim|lia]. Qed.
End invariant.

(** ** The fibers end *)
Section ending.
Context {T : Type} `{Repr T} (statics : Z -> option (ErasedVTable T)).
Implicit Types (l : lstate T) (f : fstate T) (s : system T) (cs : chan_state T).

Definition by_fiber (x : action T) : Prop := match x with FiberStep _ _ => True | _ => False end.

(** Steps of fibers only, to a state in which channel [i] has none left. *)
Definition fiber_ends s (i : nat) : Prop :=
  exists acts s' a' cs', steps statics s acts [] s' /\ Forall by_fiber acts /\
    sim statics s' a' /\ s_chans s' = <[i := cs']> (s_chans s) /\ cs_fibers cs' = [] /\
    s_worker s' = s_worker s.

Lemma fiber_once s a i cs fb :
  sim statics s a -> s_chans s !! i = Some cs -> cs_fibers cs = [fb] ->
  exists c t o s1 a1 cs1, fiber_step statics (cs_chan cs) (s_prop s) fb = Ok (c, t, o) /\
    exec statics s (FiberStep i 0) = Some (Ok (s1, [])) /\ sim statics s1 a1 /\
    s_chans s1 = <[i := cs1]> (s_chans s) /\ cs_fibers cs1 = next_fibers [fb] 0 o /\
    s_worker s1 = s_worker s.
Proof.
  intros Hs Hi Hf.
  destruct (sim_lookup _ _ _ _ _ Hs Hi) as (x & _ & Hc).
  destruct (fiber_step_sim statics cs x 0 fb (s_prop s) Hc) as (c & t & o & Hst & _); [by rewrite Hf|].
  assert (exists m, exec statics s (FiberStep i 0) = Some m) as [m Hm].
  { cbn [exec]. rewrite Hi. cbn [mbind option_bind]. rewrite Hf. by eexists. }
  destruct (exec_goes statics _ _ (FiberStep i 0) _ Hs I ltac:(done) Hm) as (s1 & ev & a1 & -> & _ & Hs1).
  pose proof Hm as Hm'. cbn [exec] in Hm'. rewrite Hi in Hm'. cbn [mbind option_bind] in Hm'.
  rewrite Hf in Hm'. cbn [mbind option_bind lookup list_lookup] in Hm'. rewrite Hst in Hm'.
  injection Hm' as <- <-. eexists c, t, o, _, a1, _.
  split; [done|]. split; [exact Hm|]. split; [done|]. split; [reflexivity|]. split; [done|done].
Qed.

Lemma fiber_ends_step s i s1 cs1 :
  exec statics s (FiberStep i 0) = Some (Ok (s1, [])) -> s_chans s1 = <[i := cs1]> (s_chans s) ->
  s_worker s1 = s_worker s -> fiber_ends s1 i -> fiber_ends s i.
Proof.
  intros Hx Hc Hw (acts & s' & a' & cs' & Hst & Hok & Hs' & Hc' & Hf & Hw').
  exists (FiberStep i 0 :: acts), s', a', cs'.
  split; [change (@nil (event T)) with (@nil (event T) ++ []); by econstructor|].
  split; [by constructor|]. split; [done|]. rewrite Hc', Hc, list_insert_insert_eq.
  split; [done|]. split; [done|congruence].
Qed.

(** Whatever the fiber is doing, it gets to its end by its own steps. *)
Lemma written_ends s a i cs j :
  sim statics s a -> s_chans s !! i = Some cs ->
  cs_fibers cs = [{| fb_job := j; fb_state := FWritten |}] -> fiber_ends s i.
Proof.
  intros Hs Hi Hf. destruct (fiber_once _ _ _ _ _ Hs Hi Hf) as
    (c & t & o & s1 & a1 & cs1 & Hst & Hx & Hs1 & Hc & Hf1 & Hw).
  injection Hst as <- <- <-. exists [FiberStep i 0], s1, a1, cs1.
  split; [change (@nil (event T)) with (@nil (event T) ++ []); econstructor; [done|constructor]|].
  split; [by constructor|]. done.
Qed.

Lemma running_ends p : forall s a i cs j,
  sim statics s a -> s_chans s !! i = Some cs ->
  cs_fibers cs = [{| fb_job := j; fb_state := FRunning p |}] -> fiber_ends s i.
Proof.
  induction p as [bs| |upd k IH]; intros s a i cs j Hs Hi Hf;
    destruct (fiber_once _ _ _ _ _ Hs Hi Hf) as
      (c & t & o & s1 & a1 & cs1 & Hst & Hx & Hs1 & Hc & Hf1 & Hw);
    (eapply fiber_ends_step; [exact Hx|exact Hc|exact Hw|]);
    assert (Hi1 : s_chans s1 !! i = Some cs1)
      by (rewrite Hc; apply list_lookup_insert_eq; by eapply lookup_lt_Some).
  - unfold fiber_step in Hst. simpl in Hst. destruct (write_out _ _); simplify_eq/=.
    by eapply written_ends.
  - injection Hst as <- <- <-. by eapply written_ends.
  - injection Hst as <- <- <-. by eapply IH.
Qed.

Lemma one_ends s a i cs fb :
  sim statics s a -> s_chans s !! i = Some cs -> cs_fibers cs = [fb] -> fiber_ends s i.
Proof.
  intros Hs Hi Hf. destruct fb as [j [|p|]]; [|by eapply running_ends|by eapply written_ends].
  destruct (fiber_once _ _ _ _ _ Hs Hi Hf) as
    (c & t & o & s1 & a1 & cs1 & Hst & Hx & Hs1 & Hc & Hf1 & Hw).
  eapply fiber_ends_step; [exact Hx|exact Hc|exact Hw|].
  assert (Hi1 : s_chans s1 !! i = Some cs1)
    by (rewrite Hc; apply list_lookup_insert_eq; by eapply lookup_lt_Some).
  unfold fiber_step in Hst. simpl in Hst. destruct (job_start _ _ _) as [p| |]; simplify_eq/=.
  by eapply running_ends.
Qed.

(** All fibers of the first [n] channels. *)
Lemma fibers_end n s a :
  sim statics s a -> (n <= length (s_chans s))%nat ->
  exists acts s' a', steps statics s acts [] s' /\ Forall by_fiber acts /\
    sim statics s' a' /\ s_worker s' = s_worker s /\ length (s_chans s') = length (s_chans s) /\
    Forall (fun cs => cs_fibers cs = []) (take n (s_chans s')).
Proof.
  intros Hs. induction n as [|n IH]; intros Hn.
  { exists [], s, a. split; [constructor|]. done. }
  destruct IH as (acts & s1 & a1 & Hst & Hok & Hs1 & Hw & Hl & Hall); [lia|].
  destruct (lookup_lt_is_Some_2 (s_chans s1) n) as [cs Hi]; [lia|].
  rewrite <-Hw, <-Hl. destruct (cs_fibers cs) as [|fb fs] eqn:Hf.
  - exists acts, s1, a1. split; [done|]. split; [done|]. split; [done|]. split; [done|]. split; [done|].
    rewrite (take_S_r _ _ _ Hi). apply Forall_app. split; [done|]. by constructor.
  - destruct (sim_lookup _ _ _ _ _ Hs1 Hi) as (x & _ & Hc).
    destruct (fiber_alone statics cs x 0 fb Hc) as (q & b & _ & _ & _ & _ & _ & _ & _ & Hf1 & _);
      [by rewrite Hf|].
    destruct (one_ends s1 a1 n cs fb Hs1 Hi Hf1) as (acts2 & s2 & a2 & cs2 & Hst2 & Hok2 & Hs2 & Hc2 & Hf2 & Hw2).
    exists (acts ++ acts2), s2, a2. split; [by apply (steps_app _ _ _ _ _ _ _ _ Hst Hst2)|].
    split; [by apply Forall_app|]. split; [done|]. split; [done|].
    rewrite Hc2, length_insert. split; [done|].
    rewrite (take_S_r _ _ cs2) by (apply list_lookup_insert_eq; lia).
    apply Forall_app. rewrite take_insert, decide_False by lia. split; [done|]. by constructor.
Qed.
End ending.

(** ** The drop returns *)
Section progress.
Context {T : Type} `{Repr T} (statics : Z -> option (ErasedVTable T)).
Implicit Types (l : lstate T) (f : fstate T) (s : system T) (cs : chan_state T).

Definition drop_done l : Prop := exists cs, l_drop l = Some (cs, DDone).

(** Steps of the dropping thread, of the worker and of fibers. *)
Definition unaided (x : laction T) : Prop :=
  match x with LStep (Base (Register _ | Call _ _ | ClientStep _)) | LDrop _ => False | _ => True end.

Lemma unaided_ok acts : Forall unaided acts -> Forall (laction_ok statics) acts.
Proof. intros Ha. eapply Forall_impl; [exact Ha|]. by intros [[[]| |]| | | | |]. Qed.

(** By these the drop can be brought to its return. *)
Definition drop_can_return l : Prop :=
  exists acts l', lsteps statics l acts [] l' /\ Forall unaided acts /\ drop_done l'.

Lemma can_return_after l acts l1 :
  lsteps statics l acts [] l1 -> Forall unaided acts -> drop_can_return l1 ->
  drop_can_return l.
Proof.
  intros Hst Hok (acts' & l' & Hst' & Hok' & Hd). exists (acts ++ acts'), l'.
  split; [by apply (lsteps_app _ _ _ _ _ _ _ _ Hst Hst')|]. split; [by apply Forall_app|done].
Qed.

Lemma can_return_one l x m :
  linv statics l -> unaided x -> (forall y, x <> LStep y) -> lexec statics l x = Some m ->
  (forall l1, m = Ok (l1, []) -> linv statics l1 -> drop_can_return l1) ->
  (forall l1 ev, m = Ok (l1, ev) -> ev = []) -> drop_can_return l.
Proof.
  intros Hl Hok Hns Hm Hnext Hev.
  assert (Hok' : laction_ok statics x) by (by destruct x as [[[]| |]| | | | |]).
  destruct (lexec_linv statics _ _ _ Hl Hok' Hm) as [(l1 & ev & -> & Hl1)|(i & cs & q & -> & _)]; [|by destruct (Hns (Base (ClientStep i)))].
  assert (ev = []) as -> by (by eapply Hev).
  eapply can_return_after; [by eapply lsteps_one|by constructor|by apply Hnext].
Qed.

(** A step of the drop itself shows nothing. *)
Lemma can_return_drop l cs st m :
  linv statics l -> l_drop l = Some (cs, st) -> drop_step l cs st = Some m ->
  (forall cs1 st1, m = Ok (cs1, st1) -> let l1 := {| l_fine := l_fine l; l_drop := Some (cs1, st1);
     l_queued := l_queued l; l_end := l_end l |} in linv statics l1 -> drop_can_return l1) -> drop_can_return l.
Proof.
  intros Hl Hd Hs Hnext. eapply (can_return_one l LDropStep); [done..| | |].
  - cbn [lexec]. rewrite Hd. cbn [mbind option_bind]. rewrite Hs. reflexivity.
  - intros l1 Hm Hl1. destruct m as [[cs1 st1]| |]; try done. injection Hm as <-. by eapply Hnext.
  - intros l1 ev Hm. destruct m; try done. by injection Hm.
Qed.

(** In [join], with the worker's thread over. *)
Lemma joined_returns l cs :
  linv statics l -> l_drop l = Some (cs, DJoin) -> worker_gone l = true -> drop_can_return l.
Proof.
  intros Hl Hd Hg. eapply can_return_drop; [done|exact Hd|simpl; by rewrite Hg|].
  intros cs1 st1 [= <- <-] l1 _. exists [], l1. split; [constructor|]. split; [done|]. by exists cs.
Qed.

(** The worker has met the record and waits for its fibers. *)
Lemma joining_returns l cs :
  linv statics l -> l_drop l = Some (cs, DJoin) -> l_end l = JoiningFibers -> drop_can_return l.
Proof.
  intros Hl Hd He. pose proof Hl as [[a Hs] _ Hen _ _ _ _]. destruct (Hen ltac:(congruence)) as [Hw Hsv].
  destruct l as [[s o] d n e]. simpl in *. subst o d e.
  destruct (fibers_end statics (length (s_chans s)) s (i_obj a) (fs_sim _ _ _ Hs)) as
    (acts & s1 & a1 & Hst & Hok & Hs1 & Hw1 & Hl1 & Hall); [lia|].
  rewrite <-Hl1, firstn_all in Hall. apply no_fibers_spec in Hall.
  destruct (steps_fsteps statics _ _ _ _ Hst) as (acts1 & Hf1 & Hin).
  assert (Hby : Forall (fun x => match x with Base x => by_fiber x | _ => True end) acts1).
  { eapply Forall_impl; [exact Hin|]. intros [x| |]; [|done..]. intros Hx. by eapply Forall_forall in Hok. }
  pose proof (fsteps_lsteps statics {| l_fine := {| f_sys := s; f_service := None |}; l_drop := Some (cs, DJoin);
                l_queued := n; l_end := JoiningFibers |} _ _ _ Hf1
                ltac:(eapply Forall_impl; [exact Hby|by intros [[]| |]])) as Hl2.
  assert (Hok1 : Forall unaided (map LStep acts1)).
  { apply Forall_fmap. eapply Forall_impl; [exact Hby|]. by intros [[]| |]. }
  eapply can_return_after; [exact Hl2|exact Hok1|]. pose proof (lsteps_linv _ _ _ _ _ Hl2 (unaided_ok _ Hok1) Hl) as Hli.
  eapply (can_return_one _ LExit); [exact Hli|done|done|cbn [lexec l_end l_fine f_sys set_fine]; by rewrite Hall| |].
  - intros l3 [= <-] Hl3. by eapply joined_returns.
  - by intros l3 ev [= _ <-].
Qed.

(** The worker drains what is registered before the drop's channel. *)
Lemma drains_drop l d :
  linv statics l -> l_drop l = Some d -> s_worker (f_sys (l_fine l)) = WReady ->
  exists acts l', lsteps statics l acts [] l' /\ Forall unaided acts /\
    l_drop l' = l_drop l /\ l_end l' = l_end l /\ s_worker (f_sys (l_fine l')) = WReady /\ l_queued l' = None.
Proof.
  intros Hl Hd Hw. destruct (l_queued l) as [n|] eqn:Hn.
  2: { exists [], l. split; [constructor|]. done. }
  remember (n - s_drained (f_sys (l_fine l)))%nat as k eqn:Hk. revert l Hl Hd Hw Hn Hk.
  induction k as [|k IH]; intros l Hl Hd Hw Hn Hk; pose proof (li_queued _ _ Hl) as Hq; rewrite Hn in Hq.
  - exists [LDrain], {| l_fine := l_fine l; l_drop := l_drop l; l_queued := None; l_end := l_end l |}.
    split; [|by split; [repeat constructor|]]. apply lsteps_one. cbn [lexec]. rewrite Hw. unfold at_head. rewrite Hn.
    by replace (n =? _)%nat with true by (symmetry; apply Nat.eqb_eq; lia).
  - set (s := f_sys (l_fine l)) in *.
    set (l1 := set_fine l {| f_sys := {| s_prop := s_prop s; s_chans := s_chans s;
                  s_drained := S (s_drained s); s_worker := WReady |}; f_service := f_service (l_fine l) |}).
    assert (Hx : lexec statics l (LStep (Base Drain)) = Some (Ok (l1, []))).
    { cbn [lexec blocked]. unfold at_head. rewrite Hn. fold s.
      replace (n =? s_drained s)%nat with false by (symmetry; apply Nat.eqb_neq; lia).
      cbn [fexec exec]. fold s. rewrite Hw.
      by replace (s_drained s <? length (s_chans s))%nat with true by (symmetry; apply Nat.ltb_lt; lia). }
    pose proof (lexec_keeps statics _ (LStep (Base Drain)) _ _ Hl I Hx) as Hl1.
    destruct (IH l1 Hl1 Hd eq_refl Hn) as (acts & l' & Hst & Hok & Hrest); [simpl; lia|].
    exists (LStep (Base Drain) :: acts), l'. split; [|by split; [constructor|]].
    change (@nil (event T)) with (@nil (event T) ++ []). by econstructor.
Qed.

(** The record is published. *)
Lemma published_returns l cs :
  linv statics l -> l_drop l = Some (cs, DJoin) -> drop_can_return l.
Proof.
  intros Hl Hd. destruct (l_end l) eqn:He; [|by eapply joining_returns|].
  2: { eapply joined_returns; [done|done|]. unfold worker_gone. by rewrite He. }
  pose proof Hl as [[a Hs] _ _ _ _ _ _].
  destruct (worker_idles statics (l_fine l) a Hs) as (acts & f1 & a1 & Hst & Hvis & Hs1 & Hn & Hw).
  pose proof (fsteps_lsteps statics l _ _ _ Hst
                ltac:(eapply Forall_impl; [exact Hvis|by intros []])) as Hl1.
  assert (Hok1 : Forall unaided (map LStep acts)).
  { apply Forall_fmap. eapply Forall_impl; [exact Hvis|by intros []]. }
  eapply can_return_after; [exact Hl1|exact Hok1|]. pose proof (lsteps_linv _ _ _ _ _ Hl1 (unaided_ok _ Hok1) Hl) as Hli.
  clear Hl1 Hok1. set (l1 := set_fine l f1) in *.
  assert (l_drop l1 = Some (cs, DJoin)) as Hd1 by done. assert (l_end l1 = Alive) as He1 by done.
  destruct Hw as [Hw|Hw].
  2: { eapply joined_returns; [exact Hli|done|]. unfold worker_gone, stopped. rewrite He1. simpl. by rewrite Hw. }
  destruct (drains_drop l1 _ Hli Hd1 Hw) as (acts2 & l2 & Hst2 & Hok2 & Hd2 & He2 & Hw2 & Hq2).
  eapply can_return_after; [exact Hst2|exact Hok2|]. pose proof (lsteps_linv _ _ _ _ _ Hst2 (unaided_ok _ Hok2) Hli) as Hl2.
  rewrite Hd1 in Hd2. pose proof (li_drop _ _ Hl2) as Ht. rewrite Hd2 in Ht.
  destruct (term_visit statics cs DJoin (s_prop (f_sys (l_fine l2))) Ht) as (cs' & wk & Hv & Ht' & Hwk).
  simpl in Hwk. subst wk.
  eapply (can_return_one _ LVisitTerm); [exact Hl2|done|done| | |].
  - cbn [lexec]. rewrite Hd2. cbn [mbind option_bind]. rewrite Hw2, Hq2, Hv. reflexivity.
  - intros l3 [= <-] Hl3. by eapply joining_returns.
  - by intros l3 ev [= _ <-].
Qed.

Lemma drop_returns_from l cs st : linv statics l -> l_drop l = Some (cs, st) -> drop_can_return l.
Proof.
  assert (Hloaded : forall l cs b, linv statics l -> l_drop l = Some (cs, DLoaded b) -> drop_can_return l).
  { clear. intros l cs b Hl Hd. eapply can_return_drop; [done|exact Hd|reflexivity|].
    intros cs1 st1 [= <- <-] l1 Hl1. by eapply published_returns. }
  assert (Hwritten : forall l cs, linv statics l -> l_drop l = Some (cs, DWritten) -> drop_can_return l).
  { clear -Hloaded. intros l cs Hl Hd. eapply can_return_drop; [done|exact Hd|reflexivity|].
    intros cs1 st1 [= <- <-] l1 Hl1. by eapply Hloaded. }
  intros Hl Hd. destruct st as [| |b| |]; [|by eapply Hwritten|by eapply Hloaded|by eapply published_returns|].
  - eapply can_return_drop; [done|exact Hd|reflexivity|]. intros cs1 st1 Hm l1 Hl1.
    destruct (terminate_record (cs_chan cs)); try done. injection Hm as <- <-. by eapply Hwritten.
  - exists [], l. split; [constructor|]. split; [done|]. by exists cs.
Qed.
End progress.

(** ** Callers after the end *)
Section callers.
Context {T : Type} `{Repr T} (statics : Z -> option (ErasedVTable T)).
Implicit Types (l : lstate T) (f : fstate T) (s : system T) (cs : chan_state T).

(** Not answered, and not asking yet. *)
Definition unanswered cs : Prop :=
  match cs_client cs with
  | CIdle | CEncoded _ => True
  | CLoaded _ b | CWaiting _ b => resp_bit (cs_chan cs) = negb b
  | CPolled _ => False
  end.

Definition dead s (i : nat) : Prop :=
  s_worker s = WStopped /\ no_fibers s = true /\
  exists cs, s_chans s !! i = Some cs /\ unanswered cs.

Definition returns_to (i : nat) (e : event T) : Prop := match e with EReturn j _ => j = i | _ => False end.

Lemma unanswered_step cs cs' o :
  unanswered cs -> client_step cs = Some (Ok (cs', o)) -> unanswered cs' /\ o = None.
Proof.
  unfold unanswered, client_step. intros Hu Hc.
  destruct (cs_client cs) as [|q|q b|q b|q] eqn:Hcs; try done.
  - injection Hc as <- <-. simpl. unfold resp_bit. by rewrite negb_involutive.
  - by injection Hc as <- <-.
  - unfold poll in Hc. fold (resp_bit (cs_chan cs)) in Hc. rewrite Hu in Hc.
    replace (Bool.eqb (negb b) b) with false in Hc by (by destruct b).
    injection Hc as <- <-. by rewrite Hcs.
Qed.

(** Nobody is about to answer client [i]: no closure runs for it. *)
Definition unattended s (i : nat) : Prop :=
  exists cs, s_chans s !! i = Some cs /\ unanswered cs /\ cs_fibers cs = [].

Definition by_worker (x : action T) : Prop :=
  match x with Drain | LoadReq _ | Visit => True | _ => False end.

(** And without the worker nobody will be. *)
Lemma exec_unattended s x s' ev i :
  exec statics s x = Some (Ok (s', ev)) -> ~ by_worker x -> unattended s i ->
  unattended s' i /\ Forall (fun e => ~ returns_to i e) ev.
Proof.
  intros Hx Hby (cs & Hi & Hu & Hf).
  assert (Hins : forall j csj cs' t (d : nat) k, s_chans s !! j = Some csj ->
    (j = i -> unanswered cs' /\ cs_fibers cs' = []) ->
    unattended {| s_prop := t; s_chans := <[j := cs']> (s_chans s); s_drained := d; s_worker := k |} i).
  { intros j csj cs' t d k Hj Hs. unfold unattended. simpl. destruct (decide (j = i)) as [->|Hne].
    - rewrite list_lookup_insert_eq by (by eapply lookup_lt_Some). exists cs'. auto.
    - rewrite list_lookup_insert_ne by done. by exists cs. }
  destruct x as [addr| |j q|j|j| |j k]; cbn [exec] in Hx; try (by destruct Hby).
  - injection Hx as <- <-. split; [|done]. exists cs. split; [by apply lookup_app_l_Some|done].
  - destruct (s_chans s !! j) as [csj|] eqn:Hj; [|done]. cbn [mbind option_bind] in Hx.
    destruct (cs_client csj) eqn:Hc; try done. destruct (put_request _ _); try done.
    injection Hx as <- <-. split; [|constructor; [by intros ?|done]].
    eapply Hins; [done|]. intros ->. rewrite Hi in Hj. by injection Hj as <-.
  - destruct (s_chans s !! j) as [csj|] eqn:Hj; [|done]. cbn [mbind option_bind] in Hx.
    destruct (client_step csj) as [[[cs' o]| |]|] eqn:Hc; try done. injection Hx as <- <-.
    assert (Hji : j = i -> unanswered cs' /\ o = None /\ cs_fibers cs' = []).
    { intros ->. rewrite Hi in Hj. injection Hj as <-. rewrite (client_step_fibers _ _ _ Hc).
      by destruct (unanswered_step _ _ _ Hu Hc). }
    split; [eapply Hins; [exact Hj|]; intros E; destruct (Hji E) as (? & _ & ?); done|].
    destruct o as [bs|]; [|done]. constructor; [|done]. simpl. intros E. by destruct (Hji E) as (_ & ? & _).
  - destruct (s_chans s !! j) as [csj|] eqn:Hj; [|done]. cbn [mbind option_bind] in Hx.
    destruct (cs_fibers csj !! k) as [fb|] eqn:Hfb; [|done]. cbn [mbind option_bind] in Hx.
    destruct (fiber_step _ _ _ _) as [[[c t] o]| |]; try done. injection Hx as <- <-. split; [|done].
    eapply Hins; [done|]. intros ->. rewrite Hi in Hj. injection Hj as <-. by rewrite Hf in Hfb.
Qed.

(** Nobody answers the client any more. *)
Lemma exec_dead s x s' ev i :
  exec statics s x = Some (Ok (s', ev)) -> dead s i ->
  (exists cs, s_chans s' !! i = Some cs /\ unanswered cs) /\ Forall (fun e => ~ returns_to i e) ev.
Proof.
  intros Hx (Hw & Hn & cs & Hi & Hu). apply no_fibers_spec in Hn.
  assert (~ by_worker x) as Hby.
  { intros Hb. destruct x as [| | | |j| |]; try done; cbn [exec] in Hx; rewrite ?Hw in Hx; try done.
    by destruct (s_chans s !! j). }
  destruct (exec_unattended s x s' ev i Hx Hby) as [(cs' & ? & ? & _) ?]; [|split; [by exists cs'|done]].
  exists cs. split; [done|]. split; [done|by apply (Forall_lookup_1 _ _ _ _ Hn Hi)].
Qed.

Lemma lexec_dead l x l' ev i :
  lexec statics l x = Some (Ok (l', ev)) -> dead (f_sys (l_fine l)) i ->
  dead (f_sys (l_fine l')) i /\ Forall (fun e => ~ returns_to i e) ev.
Proof.
  intros Hx Hd. pose proof Hd as (Hw & Hn & Hcs). destruct x as [x|addr| | | |]; cbn [lexec] in Hx.
  - destruct (blocked l x); [done|]. destruct (fexec statics (l_fine l) x) as [[[f ev']| |]|] eqn:Hf; try done.
    injection Hx as <- <-. destruct (fexec_stopped statics _ _ _ _ Hf Hw) as (Hw1 & _ & Hp).
    destruct (Hp Hn) as [Hn1 _]. simpl.
    assert (exists x', exec statics (f_sys (l_fine l)) x' = Some (Ok (f_sys f, ev'))) as [x' Hx'].
    { destruct x as [x| |]; cbn [fexec] in Hf; try (by rewrite Hw in Hf). exists x.
      destruct x; try done;
        (destruct (exec statics (f_sys (l_fine l)) _) as [[[s' e]| |]|]; try done;
         cbn [mbind option_bind res_bind] in Hf; by injection Hf as <- <-). }
    destruct (exec_dead _ _ _ _ _ Hx' Hd) as [Hc He]. by split.
  - destruct (l_drop l); [done|]. by injection Hx as <- <-.
  - destruct (l_drop l) as [[cs st]|]; [|done]. cbn [mbind option_bind] in Hx.
    destruct (drop_step l cs st) as [[d| |]|]; try done. by injection Hx as <- <-.
  - by rewrite Hw in Hx.
  - destruct (l_drop l) as [[cs st]|]; [|done]. cbn [mbind option_bind] in Hx. by rewrite Hw in Hx.
  - destruct (l_end l); try done. rewrite Hn in Hx. by injection Hx as <- <-.
Qed.

Lemma lsteps_dead l acts evs l' i :
  lsteps statics l acts evs l' -> dead (f_sys (l_fine l)) i -> Forall (fun e => ~ returns_to i e) evs.
Proof.
  induction 1 as [l|l x l1 ev acts evs l2 Hx _ IH]; intros Hd; [done|].
  destruct (lexec_dead _ _ _ _ _ Hx Hd) as [Hd1 He]. apply Forall_app. auto.
Qed.
End callers.

(** ** Properties *)
Section properties.
Context {T : Type} `{Repr T} (statics : Z -> option (ErasedVTable T)).

(** C9: a drop of the runtime never gets stuck: from every state in which it
    has begun, whatever clients, worker and fibers are doing and however many
    registrations are queued before its own, some continuation, in which no
    client moves, brings it to its return; and as long as the records and
    results of the requests fit their slots, no step on any way there is
    undefined or panics outside a closure, but for the read of a result that
    a panicked launch has not written.  (It need not return under every
    schedule: clients that keep calling can keep the worker from its record,
    C28.) *)
Theorem drop_returns (t : T) (addr : Z) acts evs l cs st
    (Haddr : 0 <= addr /\ addr + SLOT_BYTES < usize_modulus)
    (Hacts : Forall (laction_ok statics) acts)
    (Hrun : lsteps statics (lstart t addr) acts evs l)
    (Hdrop : l_drop l = Some (cs, st)) :
  (exists acts' l', lsteps statics l acts' [] l' /\ Forall unaided acts' /\ drop_done l') /\
  (forall x m, laction_ok statics x -> lexec statics l x = Some m ->
     (exists l' ev, m = Ok (l', ev)) \/
     exists i csi q, x = LStep (Base (ClientStep i)) /\ s_chans (f_sys (l_fine l)) !! i = Some csi /\
       cs_client csi = CPolled q /\ q_pp q = Launch /\ m = UB not_a_value).
Proof.
  pose proof (lsteps_linv _ _ _ _ _ Hrun Hacts (lstart_linv statics t addr Haddr)) as Hl.
  split; [by eapply drop_returns_from|]. intros x m Hx Hm.
  destruct (lexec_linv statics _ _ _ Hl Hx Hm) as [(l' & ev & -> & _)|Hg]; [left; by exists l', ev|by right].
Qed.

(** C10: a drop that returns leaves nothing running: the worker has stopped,
    and if it stopped for the [Terminate] record (and not before, by a panic
    or [into_inner]) no launched closure is left, none can start any more, and
    the property never changes again, whatever the remaining clients do. *)
Theorem drop_leaves_nothing_running (t : T) (addr : Z) acts evs l
    (Haddr : 0 <= addr /\ addr + SLOT_BYTES < usize_modulus)
    (Hacts : Forall (laction_ok statics) acts)
    (Hrun : lsteps statics (lstart t addr) acts evs l) (Hdone : drop_done l) :
  s_worker (f_sys (l_fine l)) = WStopped /\
  (l_end l <> Alive ->
   forall acts' evs' l', lsteps statics l acts' evs' l' ->
     no_fibers (f_sys (l_fine l')) = true /\ s_worker (f_sys (l_fine l')) = WStopped /\
     s_prop (f_sys (l_fine l')) = s_prop (f_sys (l_fine l))).
Proof.
  pose proof (lsteps_linv _ _ _ _ _ Hrun Hacts (lstart_linv statics t addr Haddr)) as Hl.
  destruct Hdone as [cs Hd]. pose proof (li_done _ _ Hl) as Hg. rewrite Hd in Hg.
  pose proof (worker_gone_stopped _ _ Hl Hg) as Hw. split; [done|]. intros Hne.
  assert (Hn : no_fibers (f_sys (l_fine l)) = true).
  { apply (li_ended _ _ Hl). unfold worker_gone in Hg. by destruct (l_end l). }
  intros acts' evs' l' Hst. clear -Hst Hw Hn.
  induction Hst as [l|l x l1 ev acts evs l2 Hx _ IH]; [done|].
  assert (Hone : s_worker (f_sys (l_fine l1)) = WStopped /\ no_fibers (f_sys (l_fine l1)) = true /\
                 s_prop (f_sys (l_fine l1)) = s_prop (f_sys (l_fine l))).
  { destruct x as [x|addr| | | |]; cbn [lexec] in Hx.
    - destruct (blocked l x); [done|]. destruct (fexec statics (l_fine l) x) as [[[f ev']| |]|] eqn:Hf; try done.
      injection Hx as <- _. destruct (fexec_stopped statics _ _ _ _ Hf Hw) as (Hw1 & _ & Hp).
      destruct (Hp Hn) as [Hn1 Hp1]. done.
    - destruct (l_drop l); [done|]. by injection Hx as <- _.
    - destruct (l_drop l) as [[cs st]|]; [|done]. cbn [mbind option_bind] in Hx.
      destruct (drop_step l cs st) as [[d| |]|]; try done. by injection Hx as <- _.
    - by rewrite Hw in Hx.
    - destruct (l_drop l) as [[cs st]|]; [|done]. cbn [mbind option_bind] in Hx. by rewrite Hw in Hx.
    - destruct (l_end l); try done. rewrite Hn in Hx. by injection Hx as <- _. }
  destruct Hone as (Hw1 & Hn1 & Hp1). destruct (IH Hw1 Hn1) as (? & ? & Hp2).
  split; [done|]. split; [done|]. congruence.
Qed.

(** C31: a dropped runtime answers nobody: once the drop has returned, the
    worker having met the [Terminate] record, a caller that has not been
    answered, or calls later, never comes back, whatever else happens. *)
Theorem dropped_runtime_answers_nobody (t : T) (addr : Z) acts evs l i cs acts' evs' l'
    (Haddr : 0 <= addr /\ addr + SLOT_BYTES < usize_modulus)
    (Hacts : Forall (laction_ok statics) acts)
    (Hrun : lsteps statics (lstart t addr) acts evs l) (Hdone : drop_done l) (Hend : l_end l <> Alive)
    (Hi : s_chans (f_sys (l_fine l)) !! i = Some cs) (Hu : unanswered cs)
    (Hmore : lsteps statics l acts' evs' l') :
  Forall (fun e => ~ returns_to i e) evs'.
Proof.
  pose proof (lsteps_linv _ _ _ _ _ Hrun Hacts (lstart_linv statics t addr Haddr)) as Hl.
  destruct Hdone as [csd Hd]. pose proof (li_done _ _ Hl) as Hg. rewrite Hd in Hg.
  eapply lsteps_dead; [exact Hmore|]. split; [by eapply worker_gone_stopped|]. split; [|by exists cs].
  apply (li_ended _ _ Hl). unfold worker_gone in Hg. by destruct (l_end l).
Qed.
End properties.

(** ** A drop while a launched closure runs *)
Module DropRun.
Import Counter.

(** The closure is queued when the owner is dropped; the worker meets the
    record, and its join lasts until the fiber has ended. *)
Definition before : list (laction Byte.byte) :=
  map LStep (map Base [Drain; Call 0 (launch_request (adder 3)); ClientStep 0; ClientStep 0; LoadReq 0] ++
             [Enter; Serve; Serve]) ++
  [LDrop 131072; LDropStep; LDropStep; LDrain; LVisitTerm; LDropStep; LVisitTerm].
Definition acts : list (laction Byte.byte) :=
  before ++ map LStep (map Base [FiberStep 0 0; FiberStep 0 0; FiberStep 0 0; FiberStep 0 0]) ++
  [LExit; LDropStep].
Definition evs : list (event Byte.byte) := [ECall 0 (launch_request (adder 3))].

Definition first : lstate Byte.byte := lstart Byte.x05 65536.
Definition after (acts : list (laction Byte.byte)) : lstate Byte.byte :=
  match lrun statics first acts with Some (Ok (l, _)) => l | _ => first end.

Lemma before_ok : Forall (laction_ok statics) before.
Proof. repeat (constructor; [first [exact Refinement.Schedule.adder_request_ok|exact I|done]|]). constructor. Qed.
Lemma drop_acts_ok : Forall (laction_ok statics) acts.
Proof. apply Forall_app. split; [exact before_ok|]. repeat (constructor; [exact I|]). constructor. Qed.
Lemma runs_before : lsteps statics first before evs (after before).
Proof. apply lrun_lsteps. vm_compute. reflexivity. Qed.
Lemma drop_runs_acts : lsteps statics first acts evs (after acts).
Proof. apply lrun_lsteps. vm_compute. reflexivity. Qed.
Lemma drop_addr_ok : 0 <= 65536 /\ 65536 + SLOT_BYTES < usize_modulus.
Proof. done. Qed.
Definition chan : chan_state Byte.byte :=
  match l_drop (after before) with Some (cs, _) => cs | None => fresh_chan 0 end.
Lemma joins : l_drop (after before) = Some (chan, DJoin).
Proof. vm_compute. reflexivity. Qed.
Lemma joining : l_end (after before) = JoiningFibers /\ no_fibers (f_sys (l_fine (after before))) = false.
Proof. vm_compute. done. Qed.
Lemma done : drop_done (after acts).
Proof. eexists. vm_compute. reflexivity. Qed.

(** The client has its answer after the drop. *)
Definition acts' : list (laction Byte.byte) := acts ++ map LStep (map Base [ClientStep 0; ClientStep 0]).
Definition idle : chan_state Byte.byte :=
  match s_chans (f_sys (l_fine (after acts'))) !! 0%nat with Some cs => cs | None => fresh_chan 0 end.
Lemma acts'_ok : Forall (laction_ok statics) acts'.
Proof. apply Forall_app. split; [exact drop_acts_ok|]. repeat (constructor; [exact I|]). constructor. Qed.
Lemma drop_runs_acts' : lsteps statics first acts' (evs ++ [EReturn 0 [8]]) (after acts').
Proof. apply lrun_lsteps. vm_compute. reflexivity. Qed.
Lemma done' : drop_done (after acts').
Proof. eexists. vm_compute. reflexivity. Qed.
Lemma idle_at : s_chans (f_sys (l_fine (after acts'))) !! 0%nat = Some idle.
Proof. vm_compute. reflexivity. Qed.
Lemma idle_unanswered : unanswered idle.
Proof. exact I. Qed.
End DropRun.

Lemma drop_returns_witness :
  lexec Counter.statics (DropRun.after DropRun.before) LExit = None /\
  exists acts' l', lsteps Counter.statics (DropRun.after DropRun.before) acts' [] l' /\
    Forall unaided acts' /\ drop_done l'.
Proof.
  split; [vm_compute; reflexivity|].
  exact (proj1 (drop_returns Counter.statics Byte.x05 65536 _ _ _ _ _ DropRun.drop_addr_ok
                  DropRun.before_ok DropRun.runs_before DropRun.joins)).
Defined.

(** The property is left at 8. *)
Lemma drop_leaves_nothing_running_witness :
  s_prop (f_sys (l_fine (DropRun.after DropRun.acts))) = Byte.x08 /\
  forall acts' evs' l', lsteps Counter.statics (DropRun.after DropRun.acts) acts' evs' l' ->
    no_fibers (f_sys (l_fine l')) = true /\ s_worker (f_sys (l_fine l')) = WStopped /\
    s_prop (f_sys (l_fine l')) = s_prop (f_sys (l_fine (DropRun.after DropRun.acts))).
Proof.
  split; [vm_compute; reflexivity|].
  refine (proj2 (drop_leaves_nothing_running Counter.statics Byte.x05 65536 _ _ _ DropRun.drop_addr_ok
                   DropRun.drop_acts_ok DropRun.drop_runs_acts DropRun.done) _).
  vm_compute. done.
Defined.

(** The launch was answered; the handle then calls [apply]. *)
Lemma dropped_runtime_answers_nobody_witness :
  worker_gone (DropRun.after DropRun.acts') = true /\
  Forall (fun e => ~ returns_to 0 e) [ECall 0 (apply_request (Counter.adder 1))].
Proof.
  split; [vm_compute; reflexivity|].
  refine (dropped_runtime_answers_nobody Counter.statics Byte.x05 65536 _ _ _ 0%nat DropRun.idle
            (map LStep (map Base [Call 0 (apply_request (Counter.adder 1)); ClientStep 0; ClientStep 0;
                                  ClientStep 0; ClientStep 0]))
            _ _ DropRun.drop_addr_ok DropRun.acts'_ok DropRun.drop_runs_acts' DropRun.done' _ DropRun.idle_at
            DropRun.idle_unanswered _).
  - vm_compute. done.
  - apply lrun_lsteps. vm_compute. reflexivity.
Defined.
