(* ===== verification/Nested.v ===== *)
(** * Nested: a launch from inside the trustee ([src/trust/remote.rs])

    A closure that the worker runs may hold a handle on its own trustee and
    call through it.  [apply], [apply_with], [apply_batch_mut] and [with] take
    the shortcut there; [launch] is delegated like anywhere else, and the
    thread that should serve it is the one that waits. *)
From S2P Require Import Prelude Slots Serialization Remote Worker Delegation System Service.
From S2P Require Import Refinement Interleaving Shutdown.
Local Open Scope Z_scope.

Section nested.
Context {T : Type} `{Repr T} (statics : Z -> option (ErasedVTable T)).
Implicit Types (f : fstate T) (s : system T) (cs : chan_state T).

(** The worker has a closure under way. *)
Definition executing (sv : service T) : Prop :=
  match sv with SCall _ _ _ _ | SOut _ _ => True | _ => False end.

(** Steps of other threads and of fibers: while the worker's thread is in a
    call, these and the client's own steps are all there is. *)
Definition elsewhere (x : faction T) : Prop :=
  match x with Base x => ~ by_worker x | Enter | Serve => False end.

Lemma fexec_elsewhere f x f' ev i :
  fexec statics f x = Some (Ok (f', ev)) -> elsewhere x -> unattended (f_sys f) i ->
  f_service f' = f_service f /\ unattended (f_sys f') i /\ Forall (fun e => ~ returns_to i e) ev.
Proof.
  intros Hx He Hu. destruct x as [x| |]; [|done..]. cbn [fexec] in Hx.
  assert (exists s', exec statics (f_sys f) x = Some (Ok (s', ev)) /\
            f' = {| f_sys := s'; f_service := f_service f |}) as (s' & Hs & ->).
  { destruct x; try done;
      (destruct (exec statics (f_sys f) _) as [[[s' ev']| |]|]; try done;
       cbn [mbind option_bind res_bind] in Hx; injection Hx as <- <-; by exists s'). }
  destruct (exec_unattended statics _ _ _ _ _ Hs He Hu). done.
Qed.

Lemma fsteps_elsewhere f acts evs f' i :
  fsteps statics f acts evs f' -> Forall elsewhere acts -> unattended (f_sys f) i ->
  f_service f' = f_service f /\ Forall (fun e => ~ returns_to i e) evs.
Proof.
  induction 1 as [f|f x f1 ev acts evs f2 Hx _ IH]; intros Hok Hu; [done|].
  apply Forall_cons_1 in Hok as [Ho Hok]. destruct (fexec_elsewhere _ _ _ _ _ Hx Ho Hu) as (Hsv & Hu1 & Hev).
  destruct (IH Hok Hu1) as [Hsv2 Hev2]. split; [congruence|]. by apply Forall_app.
Qed.

Lemma idle_unattended f a i cs :
  fsim statics f a -> s_chans (f_sys f) !! i = Some cs -> cs_client cs = CIdle -> unattended (f_sys f) i.
Proof.
  intros Hs Hi Hc. destruct (sim_lookup _ _ _ _ _ (fs_sim _ _ _ Hs) Hi) as (x & _ & _ & Hcl).
  unfold client_rel in Hcl. rewrite Hc in Hcl. exists cs. split; [done|].
  split; [unfold unanswered; by rewrite Hc|]. by destruct Hcl as [_ [_ Hf _]].
Qed.

(** C36: a [launch] from inside its own trustee waits for ever.  On the
    trustee's thread it is delegated, where [apply] and [with] take the
    shortcut.  So let the worker run a closure, and let that closure be about
    to call through handle [i]: until the call returns the worker's thread is
    in it and the worker makes no step, and whatever the other threads and the
    fibers do, the call does not return, no client that has not been answered
    and has no closure of its own on a fiber gets its answer, and the worker
    stays where it is in its closure. *)
Theorem nested_launch_waits (t : T) (addr : Z) acts evs f sv i cs (reg : Registrar) (th : thread)
    (Haddr : 0 <= addr /\ addr + SLOT_BYTES < usize_modulus)
    (Hacts : Forall (faction_ok statics) acts)
    (Hrun : fsteps statics (fstart t addr) acts evs f)
    (Hsv : f_service f = Some sv) (Hexec : executing sv)
    (Hi : s_chans (f_sys f) !! i = Some cs) (Hidle : cs_client cs = CIdle)
    (Hthread : on_trustee reg th = true) :
  apply_route reg th = Ok Shortcut /\ with_route reg th = Ok Shortcut /\
  launch_route reg th = Ok Delegate /\
  forall acts' evs' f', fsteps statics f acts' evs' f' -> Forall elsewhere acts' ->
    f_service f' = Some sv /\ Forall (fun e => ~ returns_to i e) evs' /\
    forall j, unattended (f_sys f) j -> Forall (fun e => ~ returns_to j e) evs'.
Proof.
  unfold apply_route, with_route, launch_route. rewrite Hthread. do 3 (split; [done|]).
  destruct (fsteps_sim _ _ _ _ _ _ Hrun Hacts (fstart_sim statics t addr Haddr)) as (a & _ & Hs).
  intros acts' evs' f' Hst Hel.
  destruct (fsteps_elsewhere _ _ _ _ _ Hst Hel (idle_unattended _ _ _ _ Hs Hi Hidle)) as [He Hev].
  split; [congruence|]. split; [done|]. intros j Hj. by destruct (fsteps_elsewhere _ _ _ _ _ Hst Hel Hj).
Qed.
End nested.

(** ** A batch whose closure launches *)
Module NestedRun.
Import Counter Interleaving.Schedule.

(** The worker is inside the batch of the second handle; the call through the
    first one is published and polled. *)
Definition inside : list (faction Byte.byte) := take 26 acts.
Definition nested : list (faction Byte.byte) :=
  map Base [Call 0 L; ClientStep 0; ClientStep 0; ClientStep 0; ClientStep 0].
Lemma inside_ok : Forall (faction_ok statics) inside.
Proof. apply Forall_take, fine_acts_ok. Qed.
Lemma runs_inside : fsteps statics first inside (take 3 evs) (after inside).
Proof. apply frun_fsteps. vm_compute. reflexivity. Qed.
Definition caller : chan_state Byte.byte := nth 0 (s_chans (f_sys (after inside))) (fresh_chan 0).
Lemma caller_at : s_chans (f_sys (after inside)) !! 0%nat = Some caller.
Proof. vm_compute. reflexivity. Qed.
(** The trustee's thread has id 7. *)
Definition reg : Registrar := {| trustee_id := 7; trustee_prop := 4096 |}.
Definition th : thread := {| thread_id := 7; is_trustee_thread := true |}.
End NestedRun.

Lemma nested_launch_waits_witness :
  launch_route NestedRun.reg NestedRun.th = Ok Delegate /\
  Forall (fun e => ~ returns_to 0 e) [ECall 0 Interleaving.Schedule.L].
Proof.
  destruct (f_service (Interleaving.Schedule.after NestedRun.inside)) as [sv|] eqn:Hsv;
    [|exfalso; revert Hsv; vm_compute; done].
  destruct (nested_launch_waits Counter.statics Byte.x05 65536 _ _ _ sv 0 NestedRun.caller
              NestedRun.reg NestedRun.th Interleaving.Schedule.fine_addr_ok NestedRun.inside_ok
              NestedRun.runs_inside Hsv) as (_ & _ & Hl & Hw).
  - revert Hsv. vm_compute. by intros [= <-].
  - exact NestedRun.caller_at.
  - vm_compute. reflexivity.
  - reflexivity.
  - split; [exact Hl|].
    refine (proj1 (proj2 (Hw NestedRun.nested _ _ _ _))).
    + apply frun_fsteps. vm_compute. reflexivity.
    + repeat (constructor; [by intros []|]). constructor.
Defined.
