(* ===== verification/Pooled.v ===== *)
(** * Pooled: launched closures on pooled fibers ([src/runtime/runtime.rs])

    [Shutdown]'s machine lets a launched closure move from the moment the
    worker hands it over and lets the worker exit when no closure is left.  In
    the code a closure waits in the channel of a fiber, the fiber runs what it
    receives and pushes itself back to the pool, and the worker joins its
    fibers by the protocol of [FiberPool].  This file puts the two machines
    together and shows that the pool cannot be seen from outside. *)
From S2P Require Import Prelude Slots Serialization Remote Worker Delegation System Service.
From S2P Require Import Refinement Interleaving FiberPool Shutdown.
Local Open Scope Z_scope.

(** ** The machine *)

(** A job that was dispatched and is not over: its number, the channel it was
    launched on, and whether its closure has panicked. *)
Record ticket := { tk_id : nat; tk_chan : nat; tk_panicked : bool }.

Record pstate (T : Type) := {
  p_low : lstate T;
  p_pool : pool_state;
  p_tickets : list ticket;      (* in the order of dispatch *)
  p_next : nat;                 (* the number of the next job *)
}.
Arguments p_low {T} _.
Arguments p_pool {T} _.
Arguments p_tickets {T} _.
Arguments p_next {T} _.

Inductive paction (T : Type) :=
| PStep (x : laction T)         (* a step of clients, worker or drop *)
| PPool (x : pool_action)       (* a message, a push to the pool, a join *)
| PRun (k : nat)                (* fiber [k] inside [job()] *)
| PExit.                        (* every fiber joined: the worker returns *)
Arguments PStep {T} x.
Arguments PPool {T} x.
Arguments PRun {T} k.
Arguments PExit {T}.

(** Steps of the pool that go with no step of the machine below. *)
Definition pool_only (x : pool_action) : bool :=
  match x with Recv _ | GoBack _ | JoinNext | SetDone | TerminatorStep => true | _ => false end.

Section pooled.
Context {T : Type} `{Repr T} (statics : Z -> option (ErasedVTable T)).
Implicit Types (p : pstate T) (l : lstate T).

(** The launched closures of a channel. *)
Definition fibers_at (chans : list (chan_state T)) (i : nat) : list (fiber T) :=
  match chans !! i with Some cs => cs_fibers cs | None => [] end.
Definition fibers_on l (i : nat) : list (fiber T) := fibers_at (s_chans (f_sys (l_fine l))) i.
Definition tickets_on (ts : list ticket) (i : nat) : list ticket := filter (fun t => tk_chan t = i) ts.
(** Where job [n] stands among the closures of channel [i]. *)
Definition position (ts : list ticket) (i n : nat) : nat :=
  match list_find (fun t => tk_id t = n) (tickets_on ts i) with Some (j, _) => j | None => 0%nat end.

Definition set_low p l : pstate T :=
  {| p_low := l; p_pool := p_pool p; p_tickets := p_tickets p; p_next := p_next p |}.
Definition set_pool p (s : pool_state) : pstate T :=
  {| p_low := p_low p; p_pool := s; p_tickets := p_tickets p; p_next := p_next p |}.

(** The channel on which this step of the worker has launched a closure. *)
Definition handed_over l l' : option nat :=
  match s_worker (f_sys (l_fine l)) with
  | WLoaded i _ => if (length (fibers_on l i) <? length (fibers_on l' i))%nat then Some i else None
  | _ => None
  end.

(** The worker hands the job to a fiber. *)
Definition dispatch_on p l (i : nat) : pstate T :=
  let s := p_pool p in
  let '(fs, q) := dispatch (fibers s) (pool s) (Execute (p_next p)) in
  {| p_low := l;
     p_pool := {| fibers := fs; pool := q; mode := mode s; finished := finished s |};
     p_tickets := p_tickets p ++ [{| tk_id := p_next p; tk_chan := i; tk_panicked := false |}];
     p_next := S (p_next p) |}.

Definition after_step p (x : laction T) l : pstate T :=
  match x with
  | LStep Serve =>
      match handed_over (p_low p) l with Some i => dispatch_on p l i | None => set_low p l end
  | LVisitTerm =>
      match l_end l with
      | JoiningFibers => set_pool (set_low p l) (set_mode (p_pool p) (Joining 0 false Polling))
      | _ => set_low p l
      end
  | _ => set_low p l
  end.

Definition set_panicked (n : nat) (t : ticket) : ticket :=
  if decide (tk_id t = n) then {| tk_id := n; tk_chan := tk_chan t; tk_panicked := true |} else t.

(** The closure on fiber [k] has made a step from [st]: it panicked, it is
    over (the guard has dropped), or it goes on. *)
Definition after_run p (k : nat) (t : ticket) (st : fiber_state T) l : pstate T :=
  match st with
  | FRunning PPanic =>
      {| p_low := l; p_pool := p_pool p; p_tickets := map (set_panicked (tk_id t)) (p_tickets p);
         p_next := p_next p |}
  | FWritten =>
      {| p_low := l; p_pool := default (p_pool p) (pool_step (p_pool p) (Finish k (tk_panicked t)));
         p_tickets := filter (fun u => tk_id u <> tk_id t) (p_tickets p); p_next := p_next p |}
  | _ => set_low p l
  end.

Definition pexec p (a : paction T) : option (res (pstate T * list (event T))) :=
  match a with
  | PStep (LStep (Base (FiberStep _ _))) | PStep LExit => None
  | PStep x =>
      m ← lexec statics (p_low p) x;
      Some ('(l, ev) ← m; Ok (after_step p x l, ev))
  | PPool x =>
      if pool_only x then s ← pool_step (p_pool p) x; Some (Ok (set_pool p s, [])) else None
  | PRun k =>
      f ← fibers (p_pool p) !! k;
      match point f with
      | Running n =>
          '(_, t) ← list_find (fun t => tk_id t = n) (p_tickets p);
          let j := position (p_tickets p) (tk_chan t) n in
          fb ← fibers_on (p_low p) (tk_chan t) !! j;
          m ← lexec statics (p_low p) (LStep (Base (FiberStep (tk_chan t) j)));
          Some ('(l, ev) ← m; Ok (after_run p k t (fb_state fb) l, ev))
      | _ => None
      end
  | PExit =>
      s ← pool_step (p_pool p) WorkerExit;
      Some (Ok (set_pool (set_low p (set_end (p_low p) Shutdown.Ended)) s, []))
  end.

Inductive psteps : pstate T -> list (paction T) -> list (event T) -> pstate T -> Prop :=
| psteps_nil p : psteps p [] [] p
| psteps_cons p a p1 ev acts evs p2 :
    pexec p a = Some (Ok (p1, ev)) -> psteps p1 acts evs p2 -> psteps p (a :: acts) (ev ++ evs) p2.

Fixpoint prun p (acts : list (paction T)) : option (res (pstate T * list (event T))) :=
  match acts with
  | [] => Some (Ok (p, []))
  | a :: acts =>
      match pexec p a with
      | Some (Ok (p, ev)) =>
          match prun p acts with
          | Some (Ok (p, evs)) => Some (Ok (p, ev ++ evs))
          | r => r
          end
      | r => r
      end
  end.

Definition pstart (t : T) (addr : Z) : pstate T :=
  {| p_low := lstart t addr; p_pool := empty_pool; p_tickets := []; p_next := 0 |}.

Definition paction_ok (a : paction T) : Prop :=
  match a with PStep x => laction_ok statics x | _ => True end.

Lemma prun_psteps p acts evs p' : prun p acts = Some (Ok (p', evs)) -> psteps p acts evs p'.
Proof.
  revert p evs. induction acts as [|x acts IH]; intros p evs; cbn [prun].
  { intros Hm. apply (inj Some) in Hm. injection Hm as <- <-. constructor. }
  destruct (pexec p x) as [[[p1 ev]| |]|] eqn:Hx; try done.
  destruct (prun p1 acts) as [[[p2 evs']| |]|] eqn:Hr; try done.
  intros Hm. apply (inj Some) in Hm. injection Hm as <- <-. econstructor; eauto.
Qed.

Lemma psteps_app p acts evs p1 acts' evs' p2 :
  psteps p acts evs p1 -> psteps p1 acts' evs' p2 -> psteps p (acts ++ acts') (evs ++ evs') p2.
Proof. induction 1; intros; [done|]. rewrite <-app_assoc. simpl. econstructor; eauto. Qed.

Lemma psteps_one p a p1 ev : pexec p a = Some (Ok (p1, ev)) -> psteps p [a] ev p1.
Proof. intros Hx. rewrite <-(app_nil_r ev). econstructor; [done|constructor]. Qed.
End pooled.

(** ** The pool by itself *)
Section pool.
Implicit Types (s : pool_state) (f : pfiber).

(** Whether the worker serves, joins or has left, is seen in the mode. *)
Definition phase (m : worker_mode) : worker_end :=
  match m with Serving => Alive | Joining _ _ _ => JoiningFibers | Exited => Shutdown.Ended end.

Lemma shut_one_frame s s' : shut_one s = Some s' -> finished s' = finished s /\ mode s' = mode s.
Proof. unfold shut_one. destruct (pool s); intros; by simplify_eq. Qed.

Lemma pool_only_frame s x s' :
  pool_only x = true -> pool_step s x = Some s' ->
  finished s' = finished s /\ phase (mode s') = phase (mode s).
Proof.
  intros Hx Hst. destruct x as [n|i|i b|i| | | | |]; try done; simpl in Hst.
  - destruct (fibers s !! i) as [f|]; [|done]. simpl in Hst. destruct (point f); try done.
    destruct (recv _ _ _) as [[]| |]; by simplify_eq.
  - destruct (fibers s !! i) as [f|]; [|done]. simpl in Hst. destruct (point f); by simplify_eq.
  - destruct (mode s) as [|k d t|]; try done. destruct (fibers s !! k) as [f|]; [|done].
    simpl in Hst. destruct (alive f); by simplify_eq.
  - destruct (mode s) as [|k [] t|]; try done. case_match; by simplify_eq.
  - destruct (mode s) as [|k d t|] eqn:Hm; try done.
    destruct d, t; try done; destruct (shut_one s) as [s1|] eqn:H1; simplify_eq; try done;
      destruct (shut_one_frame _ _ H1) as [-> ->]; by rewrite Hm.
Qed.

(** Messages, pushes and joins leave the jobs as they are. *)
Lemma pool_only_jobs s x s' :
  pool_wf s -> pool_only x = true -> pool_step s x = Some s' -> outstanding s' ≡ₚ outstanding s.
Proof.
  intros Hs Hx Hst. destruct (pool_only_frame _ _ _ Hx Hst) as [Hf _].
  pose proof (pool_step_jobs _ _ _ Hs Hst) as Hj. rewrite Hf in Hj.
  replace (dispatched [x]) with (@nil nat) in Hj by (by destruct x).
  by apply (Permutation_app_inv_r (finished s) _ (outstanding s)).
Qed.

Lemma finish_jobs s k b f n s' :
  pool_wf s -> fibers s !! k = Some f -> point f = Running n -> pool_step s (Finish k b) = Some s' ->
  outstanding s ≡ₚ n :: outstanding s'.
Proof.
  intros Hs Hf Hp Hst. pose proof (pool_step_jobs _ _ _ Hs Hst) as Hj.
  assert (finished s' = finished s ++ [n]) as Hfin.
  { simpl in Hst. rewrite Hf in Hst. simpl in Hst. rewrite Hp in Hst. by simplify_eq. }
  rewrite Hfin in Hj. change (dispatched [Finish k b]) with (@nil nat) in Hj.
  apply (Permutation_app_inv_r (finished s) _ (n :: outstanding s')). rewrite <-Hj. simpl.
  rewrite app_assoc. rewrite (Permutation_app_comm _ [n]). done.
Qed.

Lemma dispatch_jobs s n s' :
  pool_wf s -> pool_step s (Dispatch n) = Some s' -> outstanding s' ≡ₚ n :: outstanding s.
Proof.
  intros Hs Hst. pose proof (pool_step_jobs _ _ _ Hs Hst) as Hj.
  assert (finished s' = finished s) as Hf.
  { simpl in Hst. destruct (mode s); try done. destruct (dispatch _ _ _). by simplify_eq. }
  rewrite Hf in Hj. by apply (Permutation_app_inv_r (finished s) _ (n :: outstanding s)).
Qed.

(** A job that is not over is on some fiber: running, or received next. *)
Lemma outstanding_fiber s n :
  pool_wf s -> n ∈ outstanding s ->
  exists k f, fibers s !! k = Some f /\
    (point f = Running n \/ f = {| inbox := [Execute n]; point := Receiving |}).
Proof.
  intros Hs (f & Hn & Hf)%list_elem_of_bind. apply list_elem_of_lookup in Hf as [k Hk].
  exists k, f. split; [done|].
  destruct (decide (k ∈ pool s)) as [Hp|Hp].
  { rewrite (pw_pool _ Hs _ Hp) in Hk. simplify_eq. by apply elem_of_nil in Hn. }
  pose proof (pw_busy _ Hs _ _ Hk Hp) as Hb. destruct f as [ib pt]. unfold fiber_busy, jobs_of in *.
  simpl in *. destruct pt; simpl in *; [|subst ib..].
  - destruct Hb as [[m|] ->]; simpl in Hn; [|by apply elem_of_nil in Hn].
    apply list_elem_of_singleton in Hn as ->. by right.
  - left. by apply list_elem_of_singleton in Hn as ->.
  - by apply elem_of_nil in Hn.
  - by apply elem_of_nil in Hn.
Qed.

Lemma idle_step s x s' :
  pool_wf s -> phase (mode s) = JoiningFibers -> outstanding s = [] -> pool_step s x = Some s' ->
  (pool_only x = true /\ outstanding s' = []) \/ x = WorkerExit.
Proof.
  intros Hs Hm Ho Hx. destruct (pool_only x) eqn:Hp.
  - left. split; [done|]. pose proof (pool_only_jobs _ _ _ Hs Hp Hx) as Hj.
    rewrite Ho in Hj. by apply Permutation_nil_r in Hj.
  - destruct x as [n|i|i b|i| | | | |]; try done; [..|by right]; simpl in Hx.
    + by destruct (mode s).
    + destruct (fibers s !! i) as [f|] eqn:Hi; [|done]. simpl in Hx.
      destruct (point f) eqn:Hf; try done. exfalso.
      assert (n ∈ outstanding s) as Hn; [|rewrite Ho in Hn; by apply elem_of_nil in Hn].
      apply list_elem_of_bind. exists f. split; [|by eapply list_elem_of_lookup_2].
      unfold jobs_of. rewrite Hf. by left.
    + by destruct (mode s).
Qed.

Inductive pool_run : pool_state -> list pool_action -> pool_state -> Prop :=
| pool_run_nil s : pool_run s [] s
| pool_run_cons s x s1 xs s2 :
    pool_only x = true -> pool_step s x = Some s1 -> pool_run s1 xs s2 -> pool_run s (x :: xs) s2.

(** With no job left the joins go through, whatever the fibers were doing. *)
Lemma joins_end s :
  pool_wf s -> phase (mode s) = JoiningFibers -> outstanding s = [] ->
  exists xs s1 s2, pool_run s xs s1 /\ pool_step s1 WorkerExit = Some s2.
Proof.
  induction s as [s IH] using (induction_ltof1 _ weight). unfold ltof in IH. intros Hs Hm Ho.
  destruct (mode s) as [|k d t|] eqn:Hk; try done.
  destruct (joining_progress s k d t Hs Hk) as (x & s1 & Hx).
  destruct (joining_step_decreases s x s1 Hs) as [_ Hw]; [by rewrite Hk|done|].
  destruct (idle_step s x s1 Hs) as [[Hp Ho1]| ->]; [by rewrite Hk|done|done| |].
  - destruct (pool_only_frame _ _ _ Hp Hx) as [_ Hph].
    destruct (IH s1 Hw) as (xs & s2 & s3 & Hr & Hlast);
      [by eapply pool_step_wf|by rewrite Hph, Hk|done|].
    exists (x :: xs), s2, s3. split; [by econstructor|done].
  - exists [], s, s1. split; [constructor|done].
Qed.
End pool.

(** ** Tickets *)
Section tickets.
Implicit Types (ts : list ticket) (t : ticket).

Lemma find_ticket ts t :
  NoDup (map tk_id ts) -> t ∈ ts -> exists j, list_find (fun u => tk_id u = tk_id t) ts = Some (j, t).
Proof.
  induction ts as [|u ts IH]; simpl; intros Hnd Ht; [by apply elem_of_nil in Ht|].
  apply NoDup_cons in Hnd as [Hu Hnd]. apply elem_of_cons in Ht as [->|Ht].
  - rewrite decide_True by done. by exists 0%nat.
  - rewrite decide_False.
    + destruct (IH Hnd Ht) as [j ->]. by exists (S j).
    + intros He. apply Hu. rewrite He. by apply (list_elem_of_fmap_2 tk_id).
Qed.

Lemma found_ticket ts n j t : list_find (fun u => tk_id u = n) ts = Some (j, t) -> t ∈ ts /\ tk_id t = n.
Proof. intros (Hj & Hn & _)%list_find_Some. split; [by eapply list_elem_of_lookup_2|done]. Qed.

Lemma filter_others n ts : n ∉ map tk_id ts -> filter (fun u => tk_id u <> n) ts = ts.
Proof.
  induction ts as [|u ts IH]; simpl; intros Hn; [done|]. apply not_elem_of_cons in Hn as [Hu Hn].
  rewrite filter_cons, decide_True by done. by rewrite IH.
Qed.

Lemma drop_ticket ts t :
  NoDup (map tk_id ts) -> t ∈ ts -> ts ≡ₚ t :: filter (fun u => tk_id u <> tk_id t) ts.
Proof.
  induction ts as [|u ts IH]; simpl; intros Hnd Ht; [by apply elem_of_nil in Ht|].
  apply NoDup_cons in Hnd as [Hu Hnd]. rewrite filter_cons. apply elem_of_cons in Ht as [->|Ht].
  - rewrite decide_False by (intros Hn; by apply Hn). f_equiv.
    by rewrite filter_others.
  - rewrite decide_True.
    + rewrite (IH Hnd Ht) at 1. apply Permutation_swap.
    + intros He. apply Hu. rewrite He. by apply (list_elem_of_fmap_2 tk_id).
Qed.

Lemma tickets_on_cons t ts i :
  length (tickets_on (t :: ts) i) = ((if decide (tk_chan t = i) then 1 else 0) + length (tickets_on ts i))%nat.
Proof. unfold tickets_on. rewrite filter_cons. by destruct (decide _). Qed.

Lemma tickets_on_perm ts ts' i : ts ≡ₚ ts' -> length (tickets_on ts i) = length (tickets_on ts' i).
Proof. intros Hp. unfold tickets_on. by rewrite Hp. Qed.

Lemma panicked_ids n ts : map tk_id (map (set_panicked n) ts) = map tk_id ts.
Proof.
  induction ts as [|t ts IH]; simpl; [done|]. rewrite IH. f_equal. unfold set_panicked.
  by destruct (decide _).
Qed.

Lemma panicked_on n ts i : length (tickets_on (map (set_panicked n) ts) i) = length (tickets_on ts i).
Proof.
  induction ts as [|t ts IH]; [done|]. simpl map. rewrite !tickets_on_cons, IH.
  unfold set_panicked. by destruct (decide (tk_id t = n)).
Qed.

(** The only ticket of a channel stands first. *)
Lemma position_alone ts t :
  t ∈ ts -> (length (tickets_on ts (tk_chan t)) <= 1)%nat -> position ts (tk_chan t) (tk_id t) = 0%nat.
Proof.
  intros Ht Hl. unfold position. assert (t ∈ tickets_on ts (tk_chan t)) as Hon.
  { by apply list_elem_of_filter. }
  destruct (tickets_on ts (tk_chan t)) as [|u [|v us]]; simpl in Hl; [by apply elem_of_nil in Hon| |lia].
  apply list_elem_of_singleton in Hon as ->. simpl. by rewrite decide_True.
Qed.
End tickets.

(** ** The closures of a channel under a step of the machine below *)
Section below.
Context {T : Type} `{Repr T} (statics : Z -> option (ErasedVTable T)).
Implicit Types (l : lstate T) (s : system T) (cs : chan_state T) (chans : list (chan_state T)).

Lemma fibers_at_insert chans i cs cs' j :
  chans !! i = Some cs ->
  fibers_at (<[i := cs']> chans) j = if decide (j = i) then cs_fibers cs' else fibers_at chans j.
Proof.
  intros Hi. unfold fibers_at. destruct (decide (j = i)) as [->|Hne].
  - rewrite list_lookup_insert_eq; [done|by eapply lookup_lt_Some].
  - by rewrite list_lookup_insert_ne.
Qed.

Lemma fibers_at_same chans i cs cs' j :
  chans !! i = Some cs -> cs_fibers cs' = cs_fibers cs ->
  fibers_at (<[i := cs']> chans) j = fibers_at chans j.
Proof.
  intros Hi Hf. rewrite (fibers_at_insert _ _ _ _ _ Hi). destruct (decide (j = i)) as [->|]; [|done].
  unfold fibers_at. by rewrite Hi.
Qed.

Lemma fibers_at_fresh chans addr j : fibers_at (chans ++ [fresh_chan addr]) j = fibers_at chans j.
Proof.
  unfold fibers_at. destruct (chans !! j) as [cs|] eqn:Hj; [by rewrite (lookup_app_l_Some _ _ _ _ Hj)|].
  rewrite lookup_app_r by (by apply lookup_ge_None). by destruct (_ - _)%nat as [|[]].
Qed.

Lemma exec_fibers s x s' ev j :
  exec statics s x = Some (Ok (s', ev)) -> x <> Visit -> (forall i k, x <> FiberStep i k) ->
  fibers_at (s_chans s') j = fibers_at (s_chans s) j.
Proof.
  intros Hx Hv Hf. destruct x as [addr| |i q|i|i| |i k]; cbn [exec] in Hx; try done.
  - injection Hx as <- _. apply fibers_at_fresh.
  - destruct (s_worker s); try done. case_match; try done. by injection Hx as <- _.
  - destruct (s_chans s !! i) as [cs|] eqn:Hi; [|done]. cbn [mbind option_bind] in Hx.
    destruct (cs_client cs); try done. destruct (put_request _ _); try done. injection Hx as <- _.
    by eapply fibers_at_same.
  - destruct (s_chans s !! i) as [cs|] eqn:Hi; [|done]. cbn [mbind option_bind] in Hx.
    destruct (client_step cs) as [[[cs' o]| |]|] eqn:Hc; try done. injection Hx as <- _.
    eapply fibers_at_same; [done|]. by eapply client_step_fibers.
  - destruct (s_chans s !! i) as [cs|] eqn:Hi; [|done]. cbn [mbind option_bind] in Hx.
    destruct (s_worker s); try done. case_match; try done. by injection Hx as <- _.
  - by destruct (Hf i k).
Qed.

Lemma service_fibers cs t sv cs' t' k :
  service_step statics cs t sv = Ok (cs', t', k) ->
  cs_fibers cs' = cs_fibers cs \/ exists f, cs_fibers cs' = cs_fibers cs ++ [f].
Proof.
  unfold service_step, begin_record, step_lift, serving, over, answer, hand_over. intros Hs.
  repeat case_match; simplify_eq; simpl; eauto.
Qed.

Lemma begin_fibers cs w t cs' t' k : visit_begin cs w t = Ok (cs', t', k) -> cs_fibers cs' = cs_fibers cs.
Proof. unfold visit_begin, serving, over. intros Hs. repeat case_match; simplify_eq; done. Qed.

Lemma land_chans s i (m : outcome T) f ev :
  land s i m = Ok (f, ev) ->
  exists cs t k, m = Ok (cs, t, k) /\ s_chans (f_sys f) = <[i := cs]> (s_chans s).
Proof.
  unfold land. destruct m as [[[cs t] k]| |]; try done. cbn [mbind res_bind]. intros [= <- _].
  exists cs, t, k. split; [done|]. by destruct k.
Qed.

(** Steps that launch nothing and run no launched closure. *)
Definition plain (x : laction T) : Prop :=
  match x with LStep Serve | LStep (Base (FiberStep _ _)) | LExit => False | _ => True end.

Lemma plain_fibers l x l' ev j :
  lexec statics l x = Some (Ok (l', ev)) -> plain x -> fibers_on l' j = fibers_on l j.
Proof.
  intros Hx Hp. unfold fibers_on. destruct x as [x|addr| | | |]; cbn [lexec] in Hx; try done.
  - destruct (blocked l x); [done|]. destruct (fexec statics (l_fine l) x) as [[[f ev']| |]|] eqn:Hf; try done. injection Hx as <- _.
    simpl. destruct x as [x| |]; try done.
    + assert (exists s', exec statics (f_sys (l_fine l)) x = Some (Ok (s', ev')) /\ f_sys f = s') as
        (s' & Hs & ->).
      { destruct x; try done; cbn [fexec] in Hf;
          (destruct (exec statics _ _) as [[[s' e]| |]|]; try done;
           cbn [mbind option_bind res_bind] in Hf; injection Hf as <- <-; by exists s'). }
      eapply exec_fibers; [exact Hs|by intros ->|]. intros i k ->. done.
    + cbn [fexec] in Hf. destruct (s_worker _) as [|i w|]; try done. destruct (f_service _); [done|].
      destruct (s_chans _ !! i) as [cs|] eqn:Hi; [|done]. cbn [mbind option_bind] in Hf.
      apply (inj Some) in Hf. apply land_chans in Hf as (cs' & t & k & Hb & ->).
      eapply fibers_at_same; [done|by eapply begin_fibers].
  - destruct (l_drop l); [done|]. by injection Hx as <- _.
  - destruct (l_drop l) as [[cs st]|]; [|done]. cbn [mbind option_bind] in Hx.
    destruct (drop_step l cs st) as [[d| |]|]; try done. by injection Hx as <- _.
  - destruct (s_worker _); try done. destruct (at_head l); [|done]. by injection Hx as <- _.
  - destruct (l_drop l) as [[cs st]|]; [|done]. cbn [mbind option_bind] in Hx.
    destruct (s_worker _); try done. destruct (l_queued l); [done|]. destruct (worker_visit _ _ _ _) as [[[cs' t'] wk]| |]; try done.
    by injection Hx as <- _.
Qed.

(** A step of the worker inside a visit: nothing, or one more closure on the
    channel it serves. *)
Lemma serve_fibers l l' ev :
  lexec statics l (LStep Serve) = Some (Ok (l', ev)) ->
  match handed_over l l' with
  | Some i => exists f, fibers_on l' i = fibers_on l i ++ [f] /\
                forall j, j <> i -> fibers_on l' j = fibers_on l j
  | None => forall j, fibers_on l' j = fibers_on l j
  end.
Proof.
  cbn [lexec blocked fexec]. intros Hx. unfold handed_over, fibers_on.
  destruct (s_worker (f_sys (l_fine l))) as [|i w|] eqn:Hw; try done.
  destruct (f_service (l_fine l)) as [sv|]; [|done].
  destruct (s_chans (f_sys (l_fine l)) !! i) as [cs|] eqn:Hi; [|done]. cbn [mbind option_bind] in Hx.
  destruct (land _ _ _) as [[f' ev']| |] eqn:Hl; try done. injection Hx as <- _. simpl l_fine.
  apply land_chans in Hl as (cs' & t & k & Hs & ->).
  assert (forall j, fibers_at (<[i := cs']> (s_chans (f_sys (l_fine l)))) j =
            if decide (j = i) then cs_fibers cs' else fibers_at (s_chans (f_sys (l_fine l))) j) as Hat
    by (intros j; by apply (fibers_at_insert _ _ cs)).
  rewrite Hat, decide_True by done.
  assert (fibers_at (s_chans (f_sys (l_fine l))) i = cs_fibers cs) as Hold by (unfold fibers_at; by rewrite Hi).
  rewrite Hold. destruct (service_fibers _ _ _ _ _ _ Hs) as [He|[f He]]; rewrite He.
  - rewrite Nat.ltb_irrefl. intros j. rewrite Hat. destruct (decide (j = i)) as [->|]; congruence.
  - rewrite length_app. simpl. destruct (Nat.ltb_spec (length (cs_fibers cs)) (length (cs_fibers cs) + 1)); [|lia].
    exists f. rewrite Hat, decide_True by done. split; [congruence|]. intros j Hj.
    by rewrite Hat, decide_False.
Qed.

(** A step of a launched closure. *)
Lemma run_fibers l i k fb l' ev :
  lexec statics l (LStep (Base (FiberStep i k))) = Some (Ok (l', ev)) ->
  fibers_on l i !! k = Some fb ->
  (length (fibers_on l' i) + match fb_state fb with FWritten => 1 | _ => 0 end = length (fibers_on l i))%nat /\
  forall j, j <> i -> fibers_on l' j = fibers_on l j.
Proof.
  cbn [lexec blocked fexec exec]. unfold fibers_on. intros Hx Hk.
  unfold fibers_at in Hk. destruct (s_chans (f_sys (l_fine l)) !! i) as [cs|] eqn:Hi; [|done].
  cbn [mbind option_bind] in Hx. rewrite Hk in Hx. cbn [mbind option_bind] in Hx.
  destruct (fiber_step statics _ _ fb) as [[[c t] o]| |] eqn:Hs; try done.
  cbn [mbind res_bind] in Hx. injection Hx as <- _. simpl l_fine. simpl f_sys. simpl s_chans. split.
  - rewrite (fibers_at_insert _ _ cs) by done. rewrite decide_True by done. simpl.
    unfold fibers_at. rewrite Hi. apply lookup_lt_Some in Hk as Hlt.
    unfold fiber_step in Hs. destruct (fb_state fb) as [|[bs| |upd kk]|]; simpl in Hs.
    + destruct (job_start _ _ _); simplify_eq/=. rewrite length_insert. lia.
    + destruct (write_out _ _); simplify_eq/=. rewrite length_insert. lia.
    + simplify_eq. rewrite length_insert. lia.
    + simplify_eq. rewrite length_insert. lia.
    + simplify_eq. rewrite length_delete by (by eexists). lia.
  - intros j Hj. by rewrite (fibers_at_insert _ _ cs), decide_False.
Qed.
End below.

(** ** The invariant *)
Section invariant.
Context {T : Type} `{Repr T} (statics : Z -> option (ErasedVTable T)).
Implicit Types (p : pstate T) (l : lstate T).

(** The jobs on fibers are the closures the channels wait for. *)
Record pinv p : Prop := {
  pi_low : linv statics (p_low p);
  pi_wf : pool_wf (p_pool p);
  pi_ids : NoDup (map tk_id (p_tickets p));
  pi_next : forall t, t ∈ p_tickets p -> (tk_id t < p_next p)%nat;
  pi_jobs : outstanding (p_pool p) ≡ₚ map tk_id (p_tickets p);
  pi_on : forall i, length (fibers_on (p_low p) i) = length (tickets_on (p_tickets p) i);
  pi_phase : phase (mode (p_pool p)) = l_end (p_low p);
}.

Lemma one_closure l i : linv statics l -> (length (fibers_on l i) <= 1)%nat.
Proof.
  intros [[a [Hs _]] _ _ _ _ _ _]. unfold fibers_on, fibers_at.
  destruct (s_chans (f_sys (l_fine l)) !! i) as [cs|] eqn:Hi; [|simpl; lia].
  destruct (sim_lookup _ _ _ _ _ Hs Hi) as (x & _ & Hrel).
  destruct (cs_fibers cs) as [|fb fs] eqn:Hf; [simpl; lia|].
  destruct (fiber_alone statics cs x 0 fb Hrel) as (q & b & _ & _ & _ & _ & _ & _ & _ & Hfs & _);
    [by rewrite Hf|]. rewrite Hf in Hfs. injection Hfs as ->. done.
Qed.

Lemma end_kept l x l' ev :
  lexec statics l x = Some (Ok (l', ev)) -> x <> LVisitTerm -> x <> LExit -> l_end l' = l_end l.
Proof.
  intros Hx Hv He. destruct x as [x|addr| | | |]; cbn [lexec] in Hx; try done.
  - destruct (blocked l x); [done|]. destruct (fexec _ _ _) as [[[f ev']| |]|]; try done. by injection Hx as <- _.
  - destruct (l_drop l); [done|]. by injection Hx as <- _.
  - destruct (l_drop l) as [[cs st]|]; [|done]. cbn [mbind option_bind] in Hx.
    destruct (drop_step l cs st) as [[d| |]|]; try done. by injection Hx as <- _.
  - destruct (s_worker _); try done. destruct (at_head l); [|done]. by injection Hx as <- _.
Qed.

Lemma working_alive l : linv statics l -> s_worker (f_sys (l_fine l)) <> WStopped -> l_end l = Alive.
Proof. intros Hl Hw. destruct (l_end l) eqn:He; [done|..]; by destruct (li_end _ _ Hl) as [? _]; rewrite ?He. Qed.

Lemma alive_serving p : pinv p -> l_end (p_low p) = Alive -> mode (p_pool p) = Serving.
Proof. intros Hp He. pose proof (pi_phase _ Hp) as Hm. rewrite He in Hm. by destruct (mode _). Qed.

Lemma low_pinv p l :
  pinv p -> linv statics l -> (forall j, length (fibers_on l j) = length (fibers_on (p_low p) j)) ->
  l_end l = l_end (p_low p) -> pinv (set_low p l).
Proof.
  intros [Hl Hw Hi Hn Hj Ho Hp] Hl' Hf He. constructor; simpl; try done.
  - intros i. by rewrite Hf.
  - by rewrite He.
Qed.

(** A job leaves the worker. *)
Lemma dispatch_pinv p l i f :
  pinv p -> linv statics l -> l_end l = Alive -> l_end (p_low p) = Alive ->
  fibers_on l i = fibers_on (p_low p) i ++ [f] ->
  (forall j, j <> i -> fibers_on l j = fibers_on (p_low p) j) -> pinv (dispatch_on p l i).
Proof.
  intros Hp Hl He He0 Hi Hne. pose proof (alive_serving _ Hp He0) as Hm.
  unfold dispatch_on. destruct (dispatch _ _ _) as [fs q] eqn:Hd.
  set (s' := {| fibers := fs; pool := q; mode := _; finished := _ |}).
  assert (pool_step (p_pool p) (Dispatch (p_next p)) = Some s') as Hst.
  { simpl. rewrite Hm, Hd. unfold s'. by rewrite Hm. }
  constructor; simpl; try done.
  - eapply pool_step_wf; [apply Hp|exact Hst].
  - rewrite map_app. apply NoDup_app. split; [apply Hp|]. split; [|apply NoDup_singleton].
    intros n Hn ->%list_elem_of_singleton. apply list_elem_of_fmap in Hn as (t & Ht & Hin).
    pose proof (pi_next _ Hp _ Hin). simpl in *. lia.
  - intros t [Ht|Ht]%elem_of_app; [pose proof (pi_next _ Hp _ Ht); lia|].
    apply list_elem_of_singleton in Ht as ->. simpl. lia.
  - rewrite (dispatch_jobs _ _ _ (pi_wf _ Hp) Hst), map_app. simpl.
    rewrite (pi_jobs _ Hp). apply Permutation_cons_append.
  - intros j. rewrite (tickets_on_perm _ _ _ (Permutation_app_comm _ _)). simpl app.
    rewrite tickets_on_cons. simpl. destruct (decide (i = j)) as [<-|Hij].
    + rewrite Hi, length_app, (pi_on _ Hp). simpl. lia.
    + rewrite Hne by done. by rewrite (pi_on _ Hp).
  - by rewrite Hm, He.
Qed.

Lemma serve_pinv p l ev :
  pinv p -> lexec statics (p_low p) (LStep Serve) = Some (Ok (l, ev)) -> linv statics l ->
  pinv (after_step p (LStep Serve) l).
Proof.
  intros Hp Hx Hl. pose proof (serve_fibers _ _ _ _ Hx) as Hsf.
  assert (l_end l = l_end (p_low p)) as Hend by (by eapply end_kept). simpl.
  destruct (handed_over (p_low p) l) as [i|] eqn:Hh; [|by apply low_pinv; [..|intros j; rewrite Hsf|]].
  destruct Hsf as (f & Hi & Hne).
  assert (l_end (p_low p) = Alive) as Ha.
  { apply working_alive; [apply Hp|]. unfold handed_over in Hh. by destruct (s_worker _). }
  eapply dispatch_pinv; try done. by rewrite Hend.
Qed.

(** The worker meets the [Terminate] record and starts to join. *)
Lemma term_pinv p l ev :
  pinv p -> lexec statics (p_low p) LVisitTerm = Some (Ok (l, ev)) -> linv statics l ->
  pinv (after_step p LVisitTerm l).
Proof.
  intros Hp Hx Hl. assert (forall j, fibers_on l j = fibers_on (p_low p) j) as Hf
    by (intros j; by eapply plain_fibers).
  assert (l_end (p_low p) = Alive /\ (l_end l = Alive \/ l_end l = JoiningFibers)) as [Ha He].
  { cbn [lexec] in Hx. destruct (l_drop (p_low p)) as [[cs st]|]; [|done]. cbn [mbind option_bind] in Hx.
    destruct (s_worker (f_sys (l_fine (p_low p)))) eqn:Hw; try done.
    destruct (l_queued (p_low p)); [done|].
    assert (l_end (p_low p) = Alive) as Ha by (apply working_alive; [apply Hp|congruence]).
    split; [done|]. destruct (worker_visit _ _ _ _) as [[[cs' t] wk]| |]; try done.
    injection Hx as <- _. simpl. destruct wk; auto. }
  simpl. destruct He as [He|He]; rewrite He; [by apply low_pinv; [..|intros j; rewrite Hf|congruence]|].
  pose proof (alive_serving _ Hp Ha) as Hm.
  assert (pool_step (p_pool p) Terminate_ = Some (set_mode (p_pool p) (Joining 0 false Polling))) as Hst
    by (simpl; by rewrite Hm).
  destruct Hp as [Hl0 Hw Hi Hn Hj Ho Hp]. constructor; simpl; try done.
  - by eapply pool_step_wf.
  - intros i. by rewrite Hf.
Qed.

Lemma step_pinv p x l ev :
  pinv p -> lexec statics (p_low p) x = Some (Ok (l, ev)) -> linv statics l ->
  x = LStep Serve \/ plain x -> pinv (after_step p x l).
Proof.
  intros Hp Hx Hl [->|Hpl]; [by eapply serve_pinv|].
  assert (x = LVisitTerm \/ after_step p x l = set_low p l /\ x <> LVisitTerm) as [->|[-> Hv]];
    [|by eapply term_pinv|].
  { destruct x as [[[]| |]|addr| | | |]; auto; done. }
  apply low_pinv; [done|done| |].
  - intros j. f_equal. by eapply plain_fibers.
  - eapply end_kept; [exact Hx|done|by intros ->].
Qed.

Lemma pool_pinv p x s :
  pinv p -> pool_only x = true -> pool_step (p_pool p) x = Some s -> pinv (set_pool p s).
Proof.
  intros [Hl Hw Hi Hn Hj Ho Hp] Hx Hst. constructor; simpl; try done.
  - by eapply pool_step_wf.
  - by rewrite (pool_only_jobs _ _ _ Hw Hx Hst).
  - by rewrite (proj2 (pool_only_frame _ _ _ Hx Hst)).
Qed.

(** The last fiber is joined: no closure is left. *)
Lemma exit_idle p s :
  pinv p -> pool_step (p_pool p) WorkerExit = Some s ->
  outstanding s = [] /\ p_tickets p = [] /\ no_fibers (f_sys (l_fine (p_low p))) = true /\
  l_end (p_low p) = JoiningFibers /\ fibers s = fibers (p_pool p) /\ mode s = Exited.
Proof.
  intros Hp Hst. pose proof (pool_step_wf _ _ _ (pi_wf _ Hp) Hst) as Hs.
  pose proof (pi_phase _ Hp) as Hph. pose proof (pi_jobs _ Hp) as Hj.
  simpl in Hst. destruct (mode (p_pool p)) as [|k [] []|] eqn:Hm; try done. injection Hst as <-.
  assert (outstanding (set_mode (p_pool p) Exited) = []) as Ho.
  { destruct (outstanding (set_mode _ _)) as [|n ns] eqn:Ho; [done|]. exfalso.
    destruct (outstanding_fiber _ n Hs) as (k' & f & Hk & Hf); [rewrite Ho; by left|].
    pose proof (pw_mode _ Hs) as Hg. simpl in Hg. specialize (Hg _ _ Hk).
    destruct Hf as [Hf| ->]; [congruence|done]. }
  replace (outstanding (p_pool p)) with (outstanding (set_mode (p_pool p) Exited)) in Hj by done.
  rewrite Ho in Hj. apply Permutation_nil_l, eq_sym, fmap_nil_inv in Hj.
  split_and!; try done. apply no_fibers_spec, Forall_forall. intros cs Hcs.
  apply list_elem_of_lookup in Hcs as [i Hi]. pose proof (pi_on _ Hp i) as Hon.
  unfold fibers_on, fibers_at in Hon. rewrite Hi, Hj in Hon. by apply nil_length_inv.
Qed.

(** A launched closure moves on its fiber. *)
Lemma run_pinv p k f t fb l ev :
  pinv p -> fibers (p_pool p) !! k = Some f -> point f = Running (tk_id t) -> t ∈ p_tickets p ->
  fibers_on (p_low p) (tk_chan t) !! 0%nat = Some fb ->
  lexec statics (p_low p) (LStep (Base (FiberStep (tk_chan t) 0))) = Some (Ok (l, ev)) ->
  linv statics l -> pinv (after_run p k t (fb_state fb) l).
Proof.
  intros Hp Hk Hf Ht Hfb Hx Hl. destruct (run_fibers _ _ _ _ _ _ _ Hx Hfb) as [Hlen Hother].
  assert (l_end l = l_end (p_low p)) as Hend by (by eapply end_kept).
  assert (fb_state fb <> FWritten ->
          forall j, length (fibers_on l j) = length (fibers_on (p_low p) j)) as Hsame.
  { intros Hne j. destruct (decide (j = tk_chan t)) as [->|Hj]; [|by rewrite Hother].
    destruct (fb_state fb); simpl in Hlen; [lia|lia|done]. }
  pose proof Hp as [Hl0 Hw Hi Hn Hj Ho Hph].
  destruct (fb_state fb) as [|[bs| |upd kk]|]; try (by apply low_pinv; [..|apply Hsame|]); unfold after_run.
  - (* a panic *)
    constructor; simpl; try done.
    + by rewrite panicked_ids.
    + intros u (v & -> & Hv)%list_elem_of_fmap. pose proof (Hn _ Hv). unfold set_panicked.
      by destruct (decide _) as [<-|].
    + by rewrite panicked_ids.
    + intros i. rewrite panicked_on, Hsame by done. apply Ho.
    + by rewrite Hend.
  - (* the guard has dropped *)
    assert (exists s, pool_step (p_pool p) (Finish k (tk_panicked t)) = Some s /\ mode s = mode (p_pool p))
      as (s & Hst & Hm) by (simpl; rewrite Hk; simpl; rewrite Hf; by eexists).
    rewrite Hst. pose proof (drop_ticket _ _ Hi Ht) as Hperm.
    pose proof (finish_jobs _ _ _ _ _ _ Hw Hk Hf Hst) as Hfin.
    constructor; simpl; try done.
    + by eapply pool_step_wf.
    + assert (map tk_id (p_tickets p) ≡ₚ tk_id t :: map tk_id (filter (fun u => tk_id u <> tk_id t) (p_tickets p)))
        as Hp' by (by rewrite Hperm at 1).
      rewrite Hp' in Hi. by apply NoDup_cons in Hi as [_ Hi].
    + intros u Hu. apply Hn. by apply list_elem_of_filter in Hu as [_ ?].
    + apply (Permutation_cons_inv (a := tk_id t)). rewrite <-Hfin, Hj. by rewrite Hperm at 1.
    + intros i. pose proof (Ho i) as Hoi. rewrite (tickets_on_perm _ _ i Hperm), tickets_on_cons in Hoi.
      destruct (decide (tk_chan t = i)) as [<-|Hne]; [|rewrite Hother by congruence]; lia.
    + by rewrite Hm, Hend.
Qed.

(** ** Every step of the pooled machine is one of the machine below, or none *)

Definition pgoes p (m : res (pstate T * list (event T))) : Prop :=
  exists p' ev acts, m = Ok (p', ev) /\ pinv p' /\
    lsteps statics (p_low p) acts ev (p_low p') /\ Forall (laction_ok statics) acts.

(** Or the read of a result that a panicked launch has not written. *)
Definition pgarbage_read p (a : paction T) {A} (m : res A) : Prop :=
  exists i cs q, a = PStep (LStep (Base (ClientStep i))) /\
    s_chans (f_sys (l_fine (p_low p))) !! i = Some cs /\
    cs_client cs = CPolled q /\ q_pp q = Launch /\ m = UB not_a_value.

Lemma after_step_low p x l : p_low (after_step p x l) = l.
Proof.
  destruct x as [[[]| |]|addr| | | |]; simpl; try done.
  - destruct (handed_over _ _); [|done]. unfold dispatch_on. by destruct (dispatch _ _ _).
  - by destruct (l_end l).
Qed.
Lemma after_run_low p k t st l : p_low (after_run p k t st l) = l.
Proof. by destruct st as [|[]|]. Qed.

Lemma quiet_goes p p' : pinv p' -> p_low p' = p_low p -> pgoes p (Ok (p', [])).
Proof. intros Hp Hl. exists p', [], []. rewrite Hl. split_and!; try done; constructor. Qed.

Lemma low_goes p x m (next : lstate T -> pstate T) :
  pinv p -> laction_ok statics x -> lexec statics (p_low p) x = Some m ->
  (forall l, p_low (next l) = l) ->
  (forall l ev, lexec statics (p_low p) x = Some (Ok (l, ev)) -> linv statics l -> pinv (next l)) ->
  pgoes p ('(l, ev) ← m; Ok (next l, ev)) \/
  lgarbage_read (p_low p) x ('(l, ev) ← m; Ok (next l, ev)).
Proof.
  intros Hp Hok Hx Hn Hnext.
  destruct (lexec_linv statics _ _ _ (pi_low _ Hp) Hok Hx)
    as [(l & ev & -> & Hl)|(i & cs & q & -> & Hi & Hc & Hl & ->)].
  2: { right. by exists i, cs, q. }
  left. simpl. exists (next l), ev, [x]. split; [done|]. split; [by eapply Hnext|]. rewrite Hn.
  split; [by apply lsteps_one|]. by constructor.
Qed.

Lemma pexec_sim p a m :
  pinv p -> paction_ok statics a -> pexec statics p a = Some m -> pgoes p m \/ pgarbage_read p a m.
Proof.
  intros Hp Hok Hm. destruct a as [x|x|k|]; cbn [pexec] in Hm.
  - assert (exists m', lexec statics (p_low p) x = Some m' /\
              m = ('(l, ev) ← m'; Ok (after_step p x l, ev)) /\ (x = LStep Serve \/ plain x))
      as (m' & Hx & -> & Hpl).
    { destruct x as [[[]| |]|addr| | | |]; try done;
        (destruct (lexec statics (p_low p) _) as [m'|]; [|done]; cbn [mbind option_bind] in Hm;
         apply (inj Some) in Hm; exists m'; split; [done|]; split; [done|auto; right; exact I]). }
    edestruct (low_goes p x m' (fun l => after_step p x l) Hp Hok Hx) as [Hg|(i & cs & q & -> & Hg)];
      [intros; apply after_step_low|intros l ev Hl Hli; by eapply step_pinv|by left|right; by exists i, cs, q].
  - destruct (pool_only x) eqn:Hx; [|done]. destruct (pool_step (p_pool p) x) as [s|] eqn:Hs; [|done].
    cbn [mbind option_bind] in Hm. apply (inj Some) in Hm as <-. left. apply quiet_goes; [|done].
    by eapply pool_pinv.
  - destruct (fibers (p_pool p) !! k) as [f|] eqn:Hk; [|done]. cbn [mbind option_bind] in Hm.
    destruct (point f) as [|n| |] eqn:Hf; try done.
    destruct (list_find _ _) as [[j t]|] eqn:Hfind; [|done]. cbn [mbind option_bind] in Hm.
    apply found_ticket in Hfind as [Ht <-].
    rewrite (position_alone _ _ Ht) in Hm by (rewrite <-(pi_on _ Hp); apply one_closure, Hp).
    destruct (fibers_on (p_low p) (tk_chan t) !! 0%nat) as [fb|] eqn:Hfb; [|done].
    cbn [mbind option_bind] in Hm.
    destruct (lexec statics (p_low p) _) as [m'|] eqn:Hx; [|done]. cbn [mbind option_bind] in Hm.
    apply (inj Some) in Hm as <-.
    left. destruct (low_goes p (LStep (Base (FiberStep (tk_chan t) 0))) m' (after_run p k t (fb_state fb)) Hp I Hx)
      as [Hg|(i & cs & q & [=] & _)]; [intros; apply after_run_low|intros l ev Hl Hli; by eapply run_pinv|done].
  - destruct (pool_step (p_pool p) WorkerExit) as [s|] eqn:Hs; [|done].
    cbn [mbind option_bind] in Hm. apply (inj Some) in Hm as <-.
    destruct (exit_idle _ _ Hp Hs) as (Ho & Hts & Hno & He & Hfs & Hm).
    assert (lexec statics (p_low p) LExit = Some (Ok (set_end (p_low p) Shutdown.Ended, []))) as Hx
      by (cbn [lexec]; by rewrite He, Hno).
    pose proof (lexec_keeps statics _ LExit _ _ (pi_low _ Hp) I Hx) as Hl.
    left. eexists _, [], [LExit]. split; [reflexivity|]. split.
    + destruct Hp as [_ Hw Hi Hn Hj Hon _]. constructor; simpl; try done.
      * by eapply pool_step_wf.
      * by rewrite Ho, Hts.
      * by rewrite Hm.
    + split; [by apply lsteps_one|]. by repeat constructor.
Qed.

Lemma pexec_keeps p a p' ev :
  pinv p -> paction_ok statics a -> pexec statics p a = Some (Ok (p', ev)) ->
  pinv p' /\ exists acts, lsteps statics (p_low p) acts ev (p_low p') /\ Forall (laction_ok statics) acts.
Proof.
  intros Hp Ha Hx. destruct (pexec_sim _ _ _ Hp Ha Hx) as [(? & ? & acts & [= <- <-] & ? & ? & ?)|Hg].
  - split; [done|]. by exists acts.
  - by destruct Hg as (i & cs & q & _ & _ & _ & _ & ?).
Qed.

Lemma psteps_sim p acts evs p' :
  psteps statics p acts evs p' -> Forall (paction_ok statics) acts -> pinv p ->
  pinv p' /\ exists lacts, lsteps statics (p_low p) lacts evs (p_low p') /\ Forall (laction_ok statics) lacts.
Proof.
  induction 1 as [p|p a p1 ev acts evs p2 Hx _ IH]; intros Hok Hp.
  - split; [done|]. exists []. split; constructor.
  - apply Forall_cons_1 in Hok as [Ha Hok].
    destruct (pexec_keeps _ _ _ _ Hp Ha Hx) as (Hp1 & acts1 & Hst & Hok1).
    destruct (IH Hok Hp1) as (Hp2 & acts2 & Hst2 & Hok2). split; [done|].
    exists (acts1 ++ acts2). split; [by eapply lsteps_app|by apply Forall_app].
Qed.

Lemma pstart_pinv t addr : 0 <= addr /\ addr + SLOT_BYTES < usize_modulus -> pinv (pstart t addr).
Proof.
  intros Ha. constructor; simpl; try done.
  - by apply lstart_linv.
  - apply empty_pool_wf.
  - constructor.
  - by intros t' ?%elem_of_nil.
  - intros [|[]]; done.
Qed.
End invariant.

(** ** Every step of the machine below can be made with the pool *)
Section replay.
Context {T : Type} `{Repr T} (statics : Z -> option (ErasedVTable T)).
Implicit Types (p : pstate T) (l : lstate T).

(** [p] can get below to [l], showing [ev]. *)
Definition reaches p (ev : list (event T)) l : Prop :=
  exists acts p', psteps statics p acts ev p' /\ Forall (paction_ok statics) acts /\
    pinv statics p' /\ p_low p' = l.

Lemma reaches_step p a p1 ev l evs :
  pinv statics p -> paction_ok statics a -> pexec statics p a = Some (Ok (p1, ev)) ->
  (pinv statics p1 -> reaches p1 evs l) -> reaches p (ev ++ evs) l.
Proof.
  intros Hp Ha Hx Hnext. destruct (pexec_keeps statics _ _ _ _ Hp Ha Hx) as (Hp1 & _).
  destruct (Hnext Hp1) as (acts' & p2 & Hst & Hok & Hp2 & Hl). exists (a :: acts'), p2.
  split; [by econstructor|]. split; [by constructor|done].
Qed.

Lemma reaches_here p : pinv statics p -> reaches p [] (p_low p).
Proof. intros Hp. exists [], p. split_and!; try done; constructor. Qed.

Lemma replay_step p x l ev :
  pinv statics p -> laction_ok statics x -> lexec statics (p_low p) x = Some (Ok (l, ev)) ->
  x = LStep Serve \/ plain x -> reaches p ev l.
Proof.
  intros Hp Hok Hx Hpl. rewrite <-(app_nil_r ev).
  apply (reaches_step p (PStep x) (after_step p x l) ev l []); [done|exact Hok| |].
  - cbn [pexec]. destruct Hpl as [->|Hpl]; [by rewrite Hx|].
    destruct x as [[[]| |]|addr| | | |]; try done; by rewrite Hx.
  - intros Hp1. rewrite <-(after_step_low p x l) at 2. by apply reaches_here.
Qed.

(** A closure that runs already. *)
Lemma replay_running p k f t l ev :
  pinv statics p -> fibers (p_pool p) !! k = Some f -> point f = Running (tk_id t) -> t ∈ p_tickets p ->
  lexec statics (p_low p) (LStep (Base (FiberStep (tk_chan t) 0))) = Some (Ok (l, ev)) ->
  is_Some (fibers_on (p_low p) (tk_chan t) !! 0%nat) -> reaches p ev l.
Proof.
  intros Hp Hk Hf Ht Hx [fb Hfb]. rewrite <-(app_nil_r ev).
  apply (reaches_step p (PRun k) (after_run p k t (fb_state fb) l) ev l []); [done|exact I| |].
  - cbn [pexec]. rewrite Hk. cbn [mbind option_bind]. rewrite Hf.
    destruct (find_ticket _ _ (pi_ids _ _ Hp) Ht) as [j ->]. cbn [mbind option_bind].
    rewrite (position_alone _ _ Ht) by (rewrite <-(pi_on _ _ Hp); apply (one_closure statics), Hp).
    rewrite Hfb. cbn [mbind option_bind]. by rewrite Hx.
  - intros Hp1. rewrite <-(after_run_low p k t (fb_state fb) l) at 2. by apply reaches_here.
Qed.

(** The closure's fiber is found, and made to receive it if it has not. *)
Lemma replay_run p i k l ev :
  pinv statics p -> lexec statics (p_low p) (LStep (Base (FiberStep i k))) = Some (Ok (l, ev)) ->
  reaches p ev l.
Proof.
  intros Hp Hx.
  assert (is_Some (fibers_on (p_low p) i !! k)) as Hfb.
  { cbn [lexec fexec exec] in Hx. unfold fibers_on, fibers_at.
    destruct (_ !! i) as [cs|]; [|done]. cbn [mbind option_bind] in Hx.
    by destruct (cs_fibers cs !! k) as [fb|]. }
  apply lookup_lt_is_Some in Hfb as Hlt.
  pose proof (one_closure statics _ i (pi_low _ _ Hp)) as Hone.
  assert (k = 0%nat) as -> by lia. pose proof (pi_on _ _ Hp i) as Hon.
  destruct (tickets_on (p_tickets p) i) as [|t ts] eqn:Hts; [simpl in Hon; lia|].
  assert (t ∈ tickets_on (p_tickets p) i) as Hin by (rewrite Hts; by left).
  apply list_elem_of_filter in Hin as [<- Ht].
  destruct (outstanding_fiber (p_pool p) (tk_id t)) as (j & f & Hj & Hf); [apply Hp| |].
  { rewrite (pi_jobs _ _ Hp). by apply (list_elem_of_fmap_2 tk_id). }
  destruct Hf as [Hf| ->]; [by eapply replay_running|].
  set (f1 := {| inbox := []; point := Running (tk_id t) |}).
  change ev with ([] ++ ev).
  apply (reaches_step p (PPool (Recv j)) (set_pool p (set_fiber (p_pool p) j f1))); [done|exact I| |].
  - cbn [pexec pool_only pool_step]. rewrite Hj. reflexivity.
  - intros Hp1. eapply (replay_running _ j f1); [done| |done|exact Ht|exact Hx|done].
    simpl. apply list_lookup_insert_eq. by eapply lookup_lt_Some.
Qed.

Lemma pool_run_psteps p xs s :
  pool_run (p_pool p) xs s -> psteps statics p (map PPool xs) [] (set_pool p s).
Proof.
  remember (p_pool p) as s0 eqn:Hs0. intros Hr. revert p Hs0.
  induction Hr as [s|s x s1 xs s2 Hx Hst _ IH]; intros p Hs0.
  - rewrite Hs0. destruct p. constructor.
  - simpl. change (@nil (event T)) with (@nil (event T) ++ []). econstructor.
    + cbn [pexec]. by rewrite Hx, <-Hs0, Hst.
    + specialize (IH (set_pool p s1) eq_refl). exact IH.
Qed.

(** No closure is left: the worker's joins go through. *)
Lemma replay_exit p l ev :
  pinv statics p -> lexec statics (p_low p) LExit = Some (Ok (l, ev)) -> reaches p ev l.
Proof.
  intros Hp Hx. cbn [lexec] in Hx. destruct (l_end (p_low p)) eqn:He; try done.
  destruct (no_fibers _) eqn:Hno; [|done]. injection Hx as <- <-.
  assert (outstanding (p_pool p) = []) as Ho.
  { apply Permutation_nil_r. rewrite (pi_jobs _ _ Hp).
    destruct (p_tickets p) as [|t ts] eqn:Hts; [done|]. exfalso.
    pose proof (pi_on _ _ Hp (tk_chan t)) as Hon. rewrite Hts, tickets_on_cons, decide_True in Hon by done.
    unfold fibers_on, fibers_at in Hon. destruct (_ !! tk_chan t) as [cs|] eqn:Hi; [|done].
    apply no_fibers_spec in Hno. rewrite (Forall_lookup_1 _ _ _ _ Hno Hi) in Hon. done. }
  destruct (joins_end (p_pool p)) as (xs & s1 & s2 & Hr & Hlast);
    [apply Hp|by rewrite (pi_phase _ _ Hp)|done|].
  pose proof (pool_run_psteps _ _ _ Hr) as Hst.
  assert (Forall (paction_ok statics) (map PPool xs)) as Hok.
  { apply Forall_forall. by intros a (x & -> & _)%list_elem_of_fmap. }
  destruct (psteps_sim statics _ _ _ _ Hst Hok Hp) as [Hp1 _].
  set (l := set_end (p_low p) Shutdown.Ended).
  destruct (reaches_step (set_pool p s1) PExit (set_pool (set_low p l) s2) [] l [] Hp1 I)
    as (acts & p' & Hst' & Hok' & Hp' & Hl).
  - cbn [pexec set_pool p_pool]. by rewrite Hlast.
  - intros Hp2. apply (reaches_here _ Hp2).
  - exists (map PPool xs ++ acts), p'. split; [by apply (psteps_app _ _ _ _ _ _ _ _ Hst Hst')|].
    split; [by apply Forall_app|done].
Qed.

Lemma replay_one p x l ev :
  pinv statics p -> laction_ok statics x -> lexec statics (p_low p) x = Some (Ok (l, ev)) -> reaches p ev l.
Proof.
  intros Hp Hok Hx.
  assert ((x = LStep Serve \/ plain x) \/ (exists i k, x = LStep (Base (FiberStep i k))) \/ x = LExit)
    as [Hpl|[(i & k & ->)| ->]].
  { destruct x as [[[]| |]|addr| | | |]; eauto; by left; right. }
  - by eapply replay_step.
  - by eapply replay_run.
  - by eapply replay_exit.
Qed.

Lemma replay l acts evs l' :
  lsteps statics l acts evs l' -> Forall (laction_ok statics) acts ->
  forall p, pinv statics p -> p_low p = l -> reaches p evs l'.
Proof.
  induction 1 as [l|l x l1 ev acts evs l2 Hx _ IH]; intros Hok p Hp Hl; subst.
  - by apply reaches_here.
  - apply Forall_cons_1 in Hok as [Hx1 Hok].
    destruct (replay_one _ _ _ _ Hp Hx1 Hx) as (acts1 & p1 & Hst & Hok1 & Hp1 & Hl1).
    destruct (IH Hok p1 Hp1 Hl1) as (acts2 & p2 & Hst2 & Hok2 & Hp2 & Hl2).
    exists (acts1 ++ acts2), p2. split; [by eapply psteps_app|]. split; [by apply Forall_app|done].
Qed.
End replay.

(** ** Counting *)
Section counting.
Context {T : Type} `{Repr T} (statics : Z -> option (ErasedVTable T)).
Implicit Types (p : pstate T).

Lemma bind_index {A B} (f : A -> list B) (xs : list A) i j x y n :
  NoDup (xs ≫= f) -> xs !! i = Some x -> xs !! j = Some y -> n ∈ f x -> n ∈ f y -> i = j.
Proof.
  revert i j. induction xs as [|z xs IH]; intros i j Hnd Hi Hj Hx Hy; [done|].
  simpl in Hnd. apply NoDup_app in Hnd as (_ & Hdis & Hnd).
  assert (forall k w, xs !! k = Some w -> n ∈ f w -> n ∈ xs ≫= f) as Hin.
  { intros k w Hk Hw. apply list_elem_of_bind. exists w. split; [done|]. by eapply list_elem_of_lookup_2. }
  destruct i as [|i], j as [|j]; simplify_eq/=; [done|by destruct (Hdis n Hx); eauto|
    by destruct (Hdis n Hy); eauto|]. f_equal. by eapply IH.
Qed.

Lemma chans_distinct (ts : list ticket) :
  (forall i, length (tickets_on ts i) <= 1)%nat -> NoDup (map tk_chan ts).
Proof.
  induction ts as [|t ts IH]; simpl; intros Hl; [constructor|]. apply NoDup_cons. split.
  - intros (u & Hu & Hin)%list_elem_of_fmap. specialize (Hl (tk_chan t)).
    rewrite tickets_on_cons, decide_True in Hl by done.
    assert (u ∈ tickets_on ts (tk_chan t)) as Hon by (by apply list_elem_of_filter).
    destruct (tickets_on ts (tk_chan t)); [by apply elem_of_nil in Hon|simpl in Hl; lia].
  - apply IH. intros i. specialize (Hl i). rewrite tickets_on_cons in Hl. lia.
Qed.

Lemma jobs_bounded p :
  pinv statics p -> (length (outstanding (p_pool p)) <= length (s_chans (f_sys (l_fine (p_low p)))))%nat.
Proof.
  intros Hp. rewrite (pi_jobs _ _ Hp), length_map, <-(length_map tk_chan).
  rewrite <-(length_seq (length (s_chans (f_sys (l_fine (p_low p))))) 0). apply submseteq_length, NoDup_submseteq.
  - apply chans_distinct. intros i. rewrite <-(pi_on _ _ Hp). apply (one_closure statics), Hp.
  - intros i (t & -> & Ht)%list_elem_of_fmap. apply elem_of_seq.
    assert (is_Some (s_chans (f_sys (l_fine (p_low p))) !! tk_chan t)) as Hs;
      [|apply lookup_lt_is_Some in Hs; lia].
    pose proof (pi_on _ _ Hp (tk_chan t)) as Hon. unfold fibers_on, fibers_at in Hon.
    destruct (_ !! tk_chan t) as [cs|]; [by eexists|]. exfalso.
    assert (t ∈ tickets_on (p_tickets p) (tk_chan t)) as Hin by (by apply list_elem_of_filter).
    destruct (tickets_on _ _); [by apply elem_of_nil in Hin|done].
Qed.

(** The one fiber that has the closure of a channel. *)
Lemma closure_placed p i fb :
  pinv statics p -> fb ∈ fibers_on (p_low p) i ->
  exists n, map tk_id (tickets_on (p_tickets p) i) = [n] /\
    exists k, (exists f, fibers (p_pool p) !! k = Some f /\ n ∈ jobs_of f) /\
      forall k' f', fibers (p_pool p) !! k' = Some f' -> n ∈ jobs_of f' -> k' = k.
Proof.
  intros Hp Hfb. pose proof (one_closure statics _ i (pi_low _ _ Hp)) as Hone.
  pose proof (pi_on _ _ Hp i) as Hon.
  assert (exists t, tickets_on (p_tickets p) i = [t]) as [t Ht].
  { destruct (fibers_on (p_low p) i) as [|? []]; [by apply elem_of_nil in Hfb| |simpl in Hone; lia].
    destruct (tickets_on (p_tickets p) i) as [|t []]; try done. by exists t. }
  exists (tk_id t). rewrite Ht. split; [done|].
  assert (t ∈ p_tickets p) as Hin.
  { assert (t ∈ tickets_on (p_tickets p) i) as Hti by (rewrite Ht; by left).
    by apply list_elem_of_filter in Hti as [_ ?]. }
  assert (tk_id t ∈ outstanding (p_pool p)) as Ho.
  { rewrite (pi_jobs _ _ Hp). by apply (list_elem_of_fmap_2 tk_id). }
  pose proof Ho as (f & Hn & Hf)%list_elem_of_bind. apply list_elem_of_lookup in Hf as [k Hk].
  exists k. split; [by exists f|]. intros k' f' Hk' Hn'.
  eapply (bind_index jobs_of); [|exact Hk'|exact Hk|done|done].
  change (NoDup (outstanding (p_pool p))). rewrite (pi_jobs _ _ Hp). apply Hp.
Qed.
End counting.

(** ** Properties *)
Section properties.
Context {T : Type} `{Repr T} (statics : Z -> option (ErasedVTable T)).

(** C5: the fiber pool cannot be seen: the calls and returns that executions
    with the pool show, and the states of channels, property and worker they
    lead to, are exactly those of the machine in which a launched closure
    moves freely and the worker exits when no closure is left.  So what holds
    of that machine holds with dispatch, reuse of fibers, their channels and
    the joins of a shutdown. *)
Theorem pool_is_invisible (t : T) (addr : Z) (evs : list (event T)) (l : lstate T)
    (Haddr : 0 <= addr /\ addr + SLOT_BYTES < usize_modulus) :
  (exists acts p, psteps statics (pstart t addr) acts evs p /\ Forall (paction_ok statics) acts /\
     p_low p = l) <->
  (exists acts, lsteps statics (lstart t addr) acts evs l /\ Forall (laction_ok statics) acts).
Proof.
  pose proof (pstart_pinv statics t addr Haddr) as Hp. split.
  - intros (acts & p & Hst & Hok & <-).
    destruct (psteps_sim _ _ _ _ _ Hst Hok Hp) as (_ & lacts & Hl & Hlok). by exists lacts.
  - intros (acts & Hst & Hok).
    destruct (replay statics _ _ _ _ Hst Hok _ Hp eq_refl) as (pacts & p & Hps & Hpok & _ & Hl).
    by exists pacts, p.
Qed.

(** C6: launched closures on their fibers, for requests whose vtables are
    linked and whose records and results fit their slots: no step of the pooled
    machine is undefined or panics outside a closure, but for the read of a
    result that a panicked launch has not written; there are never more closures
    under way than channels; the closure a channel waits for is on exactly one
    fiber; and when the worker has joined its fibers and left, no closure is
    under way. *)
Theorem closures_on_fibers (t : T) (addr : Z) acts evs (p : pstate T)
    (Haddr : 0 <= addr /\ addr + SLOT_BYTES < usize_modulus)
    (Hacts : Forall (paction_ok statics) acts)
    (Hrun : psteps statics (pstart t addr) acts evs p) :
  (forall a m, paction_ok statics a -> pexec statics p a = Some m ->
     (exists p' ev, m = Ok (p', ev)) \/
     exists i cs q, a = PStep (LStep (Base (ClientStep i))) /\
       s_chans (f_sys (l_fine (p_low p))) !! i = Some cs /\
       cs_client cs = CPolled q /\ q_pp q = Launch /\ m = UB not_a_value) /\
  (length (outstanding (p_pool p)) <= length (s_chans (f_sys (l_fine (p_low p)))))%nat /\
  (forall i fb, fb ∈ fibers_on (p_low p) i ->
     exists n, map tk_id (tickets_on (p_tickets p) i) = [n] /\
       exists k, (exists f, fibers (p_pool p) !! k = Some f /\ n ∈ jobs_of f) /\
         forall k' f', fibers (p_pool p) !! k' = Some f' -> n ∈ jobs_of f' -> k' = k) /\
  (mode (p_pool p) = Exited -> no_fibers (f_sys (l_fine (p_low p))) = true).
Proof.
  destruct (psteps_sim _ _ _ _ _ Hrun Hacts (pstart_pinv statics t addr Haddr)) as [Hp _].
  split; [|split; [by apply (jobs_bounded statics)|split; [intros; by eapply closure_placed|]]].
  - intros a m Ha Hm. destruct (pexec_sim _ _ _ _ Hp Ha Hm) as [(p' & ev & _ & -> & _)|Hg]; [left; by exists p', ev|by right].
  - intros Hm. apply (li_ended _ _ (pi_low _ _ Hp)). pose proof (pi_phase _ _ Hp) as Hph.
    by rewrite Hm in Hph.
Qed.

(** C7: no deadlock on the pool: from every state the pooled machine can
    reach, a call in progress on a channel the worker knows can be brought to
    its return (unless the worker stops, or it is a [launch] whose closure
    panicked and left bytes that are no value to return), and a drop of the runtime that has
    begun to its return, with every fiber joined by the protocol. *)
Theorem pooled_progress (t : T) (addr : Z) acts evs (p : pstate T)
    (Haddr : 0 <= addr /\ addr + SLOT_BYTES < usize_modulus)
    (Hacts : Forall (paction_ok statics) acts)
    (Hrun : psteps statics (pstart t addr) acts evs p) :
  (forall i cs, s_chans (f_sys (l_fine (p_low p))) !! i = Some cs -> cs_client cs <> CIdle ->
     (i < s_drained (f_sys (l_fine (p_low p))))%nat ->
     exists acts' evs' p', psteps statics p acts' evs' p' /\ Forall (paction_ok statics) acts' /\
       ((exists bs, evs' = [EReturn i bs]) \/
        evs' = [] /\ (s_worker (f_sys (l_fine (p_low p'))) = WStopped \/
                      pexec statics p' (PStep (LStep (Base (ClientStep i)))) = Some (UB not_a_value)))) /\
  (forall cs st, l_drop (p_low p) = Some (cs, st) ->
     exists acts' p', psteps statics p acts' [] p' /\ Forall (paction_ok statics) acts' /\
       drop_done (p_low p')).
Proof.
  destruct (psteps_sim _ _ _ _ _ Hrun Hacts (pstart_pinv statics t addr Haddr)) as [Hp _]. split.
  - intros i cs Hi Hc Hd. destruct (li_sim _ _ (pi_low _ _ Hp)) as [a Hs].
    destruct (can_always_return_steps statics _ _ _ _ Hs Hi Hc Hd) as (facts & evs' & f' & Hst & Hok & Hret).
    pose proof (fsteps_lsteps statics (p_low p) _ _ _ Hst
                  ltac:(eapply Forall_impl; [exact Hok|by intros [[]| |]])) as Hl.
    destruct (replay statics _ _ _ _ Hl) with (p := p) as (pacts & p' & Hps & Hpok & _ & Hlow);
      [|done|done|].
    + apply Forall_fmap. eapply Forall_impl; [exact Hok|]. intros x. apply alone_ok.
    + exists pacts, evs', p'. split; [done|]. split; [done|].
      destruct Hret as [?|[? [?|Hg]]]; [by left|right; rewrite Hlow; by auto|right; split; [done|right]].
      cbn [pexec lexec blocked]. rewrite Hlow. cbn [set_fine l_fine]. by rewrite Hg.
  - intros cs st Hd. destruct (drop_returns_from statics _ _ _ (pi_low _ _ Hp) Hd) as (lacts & l' & Hst & Hok & Hdone).
    destruct (replay statics _ _ _ _ Hst (unaided_ok statics _ Hok) p Hp eq_refl)
      as (pacts & p' & Hps & Hpok & _ & Hlow).
    exists pacts, p'. by rewrite Hlow.
Qed.
End properties.

(** ** Two launches on one fiber, and a drop *)
Module PooledRun.
Import Counter.

Definition L : rpc Byte.byte := launch_request (adder 3).
Definition base (xs : list (action Byte.byte)) : list (paction Byte.byte) := map (fun x => PStep (LStep (Base x))) xs.
Definition visit : list (paction Byte.byte) := [PStep (LStep Enter); PStep (LStep Serve); PStep (LStep Serve)].

(** The first closure runs on a new fiber, which goes back to the pool; the
    second is handed to it and has not been received. *)
Definition before : list (paction Byte.byte) :=
  base [Drain; Call 0 L; ClientStep 0; ClientStep 0; LoadReq 0] ++ visit ++
  [PPool (Recv 0); PRun 0; PRun 0; PRun 0; PRun 0] ++ base [ClientStep 0; ClientStep 0] ++
  [PPool (GoBack 0)] ++ base [Call 0 L; ClientStep 0; ClientStep 0; LoadReq 0] ++ visit ++
  [PStep (LDrop 131072)].
Definition evs : list (event Byte.byte) := [ECall 0 L; EReturn 0 [8]; ECall 0 L].

(** The worker meets the record, the closure ends, the fiber is shut down and
    joined, the worker returns. *)
Definition acts : list (paction Byte.byte) :=
  before ++ [PStep LDropStep; PStep LDropStep; PStep LDropStep; PStep LDrain; PStep LVisitTerm; PPool (Recv 0);
    PRun 0; PRun 0; PRun 0; PRun 0; PPool (GoBack 0); PPool TerminatorStep; PPool (Recv 0);
    PPool JoinNext; PPool SetDone; PPool TerminatorStep; PPool TerminatorStep; PExit; PStep LDropStep].

Definition first : pstate Byte.byte := pstart Byte.x05 65536.
Definition after (acts : list (paction Byte.byte)) : pstate Byte.byte :=
  match prun statics first acts with Some (Ok (p, _)) => p | _ => first end.

Lemma pooled_before_ok : Forall (paction_ok statics) before.
Proof. repeat (constructor; [first [exact Refinement.Schedule.adder_request_ok|exact I|done]|]). constructor. Qed.
Lemma pooled_acts_ok : Forall (paction_ok statics) acts.
Proof. apply Forall_app. split; [exact pooled_before_ok|]. repeat (constructor; [exact I|]). constructor. Qed.
Lemma pooled_runs_before : psteps statics first before evs (after before).
Proof. apply prun_psteps. vm_compute. reflexivity. Qed.
Lemma pooled_runs_acts : psteps statics first acts evs (after acts).
Proof. apply prun_psteps. vm_compute. reflexivity. Qed.
Lemma pooled_addr_ok : 0 <= 65536 /\ 65536 + SLOT_BYTES < usize_modulus.
Proof. done. Qed.
Definition chan : chan_state Byte.byte :=
  match s_chans (f_sys (l_fine (p_low (after before)))) !! 0%nat with Some cs => cs | None => fresh_chan 0 end.
Definition waiting : fiber Byte.byte :=
  match fibers_on (p_low (after before)) 0 with f :: _ => f | [] => {| fb_job := {| job_hdr := terminate_header;
    job_req_ready := true |}; fb_state := FWritten |} end.
End PooledRun.

Lemma pool_is_invisible_witness :
  fibers (p_pool (PooledRun.after PooledRun.acts)) = [{| inbox := []; point := Gone |}] /\
  exists acts, lsteps Counter.statics (lstart Byte.x05 65536) acts PooledRun.evs
                 (p_low (PooledRun.after PooledRun.acts)) /\ Forall (laction_ok Counter.statics) acts.
Proof.
  split; [vm_compute; reflexivity|].
  apply (proj1 (pool_is_invisible Counter.statics Byte.x05 65536 PooledRun.evs
                  (p_low (PooledRun.after PooledRun.acts)) PooledRun.pooled_addr_ok)).
  exists PooledRun.acts, (PooledRun.after PooledRun.acts).
  split; [exact PooledRun.pooled_runs_acts|]. split; [exact PooledRun.pooled_acts_ok|reflexivity].
Defined.

(** The second closure waits in the channel of fiber 0. *)
Lemma closures_on_fibers_witness :
  fibers (p_pool (PooledRun.after PooledRun.before)) = [{| inbox := [Execute 1]; point := Receiving |}] /\
  exists n, map tk_id (tickets_on (p_tickets (PooledRun.after PooledRun.before)) 0) = [n] /\
    exists k, (exists f, fibers (p_pool (PooledRun.after PooledRun.before)) !! k = Some f /\ n ∈ jobs_of f) /\
      forall k' f', fibers (p_pool (PooledRun.after PooledRun.before)) !! k' = Some f' -> n ∈ jobs_of f' -> k' = k.
Proof.
  split; [vm_compute; reflexivity|].
  refine (proj1 (proj2 (proj2 (closures_on_fibers Counter.statics Byte.x05 65536 _ _ _ PooledRun.pooled_addr_ok
            PooledRun.pooled_before_ok PooledRun.pooled_runs_before))) 0%nat PooledRun.waiting _).
  apply list_elem_of_lookup. exists 0%nat. vm_compute. reflexivity.
Defined.

Lemma pooled_progress_witness :
  exists acts' p', psteps Counter.statics (PooledRun.after PooledRun.before) acts' [] p' /\
    Forall (paction_ok Counter.statics) acts' /\ drop_done (p_low p').
Proof.
  refine (proj2 (pooled_progress Counter.statics Byte.x05 65536 _ _ _ PooledRun.pooled_addr_ok
            PooledRun.pooled_before_ok PooledRun.pooled_runs_before) (fresh_chan 131072) DRegistered _).
  vm_compute. reflexivity.
Defined.
