(* ===== verification/Ownership.v ===== *)
(** * Ownership: who keeps a runtime alive ([src/runtime/runtime.rs], [src/trust/remote.rs])

    A [Runtime] value may hold the join handle of its worker; a [Remote] may
    share a [Runtime] behind an [Arc]; dropping the [Runtime] that holds the
    join handle terminates the worker and joins it.  This file follows the
    values and the reference counts, and the channels each handle registers;
    what happens inside the drop is [Shutdown]'s, and here it is one step.
    Module [Property] counts the references to the property itself, which the
    worker and the launched jobs share, its drops by the runtime, and the copy
    that [into_inner] hands to a caller with the drop of that copy. *)
From S2P Require Import Prelude.

(** ** Data *)

(** The four [Arc]s of a registrar belong to one worker, which is named by its
    number; [reg] is the queue of that worker. *)
Record Registrar := { reg : nat }.

Record Runtime := { rt_reg : nat; _worker : option nat }.

Record Remote := { chan : nat; registrar : Registrar; _owner : option nat }.

Record heap := {
  channels : nat;                  (* [ChannelPair]s allocated *)
  regs : list (list nat);          (* what was pushed to each worker's queue *)
  arcs : list (nat * Runtime);     (* [Arc<Runtime>]: strong count and value *)
  joined : list nat;               (* workers a drop has joined, in order *)
  returned : list nat;             (* workers that returned by [IntoInner] *)
}.

(** ** Operations *)

Definition new_channel (h : heap) : nat * heap :=
  (channels h, {| channels := S (channels h); regs := regs h; arcs := arcs h; joined := joined h;
                  returned := returned h |}).

(** [Registrar::register]: a push to the worker's queue. *)
Definition register (h : heap) (r : Registrar) (c : nat) : heap :=
  {| channels := channels h; regs := alter (fun cs => cs ++ [c]) (reg r) (regs h); arcs := arcs h;
     joined := joined h; returned := returned h |}.

Definition set_arcs (h : heap) (l : list (nat * Runtime)) : heap :=
  {| channels := channels h; regs := regs h; arcs := l; joined := joined h; returned := returned h |}.

Definition arc_new (h : heap) (rt : Runtime) : nat * heap :=
  (length (arcs h), set_arcs h (arcs h ++ [(1%nat, rt)])).
Definition arc_clone (h : heap) (a : nat) : heap :=
  set_arcs h (alter (fun '(n, rt) => (S n, rt)) a (arcs h)).

(** [Clone for Runtime]: never the join handle. *)
Definition clone_runtime (rt : Runtime) : Runtime := {| rt_reg := rt_reg rt; _worker := None |}.

(** [Drop for Runtime]. *)
Definition drop_runtime (h : heap) (rt : Runtime) : heap :=
  match _worker rt with
  | Some w =>
      let '(c, h) := new_channel h in
      let h := register h {| reg := rt_reg rt |} c in
      {| channels := channels h; regs := regs h; arcs := arcs h; joined := joined h ++ [w];
         returned := returned h |}
  | None => h
  end.

Definition arc_drop (h : heap) (a : nat) : heap :=
  match arcs h !! a with
  | Some (S n, rt) =>
      let h := set_arcs h (<[a := (n, rt)]> (arcs h)) in
      match n with O => drop_runtime h rt | S _ => h end
  | _ => h
  end.

(** The drop glue of [Remote]. *)
Definition drop_remote (h : heap) (x : Remote) : heap := from_option (arc_drop h) h (_owner x).

(** The shared parts of a new runtime, and its worker. *)
Definition new_worker (h : heap) : nat * heap :=
  (length (regs h),
   {| channels := channels h; regs := regs h ++ [[]]; arcs := arcs h; joined := joined h;
      returned := returned h |}).

Definition spawn_with_pin (h : heap) : Runtime * Remote * heap :=
  let '(w, h) := new_worker h in
  let rt := {| rt_reg := w; _worker := Some w |} in
  let '(c, h) := new_channel h in
  let h := register h {| reg := w |} c in
  let '(a, h) := arc_new h (clone_runtime rt) in
  (rt, {| chan := c; registrar := {| reg := w |}; _owner := Some a |}, h).

(** [Runtime::entrust]. *)
Definition runtime_entrust (h : heap) (rt : Runtime) : Remote * heap :=
  let '(c, h) := new_channel h in
  let h := register h {| reg := rt_reg rt |} c in
  ({| chan := c; registrar := {| reg := rt_reg rt |}; _owner := None |}, h).

(** [Remote::entrust]: the handle of [spawn] is taken apart and dropped. *)
Definition remote_entrust (h : heap) : Remote * heap :=
  let '(rt, handle, h) := spawn_with_pin h in
  let '(a, h) := arc_new h rt in
  ({| chan := chan handle; registrar := registrar handle; _owner := Some a |}, drop_remote h handle).

(** [Trust::entrust_with_pin] does the same at the wrapper. *)
Definition trust_entrust_with_pin (h : heap) : Remote * heap :=
  let '(rt, handle, h) := spawn_with_pin h in
  let '(a, h) := arc_new h rt in
  ({| chan := chan handle; registrar := registrar handle; _owner := Some a |}, drop_remote h handle).
Definition trust_entrust (h : heap) : Remote * heap := remote_entrust h.

(** [Clone for Remote]. *)
Definition clone_remote (h : heap) (x : Remote) : Remote * heap :=
  let '(c, h) := new_channel h in
  let h := register h (registrar x) c in
  ({| chan := c; registrar := registrar x; _owner := _owner x |}, from_option (arc_clone h) h (_owner x)).

(** [Clone for Trust<Remote<T>>]. *)
Definition trust_clone (h : heap) (x : Remote) : Remote * heap := clone_remote h x.

(** The assertion of [Remote::into_inner]. *)
Definition into_inner_guard (x : Remote) : res unit :=
  match _owner x with Some _ => Ok () | None => Panic "Remote::into_inner requires owned runtime" end.

(** Whether worker [w] is in its loop. *)
Definition serving (h : heap) (w : nat) : bool :=
  (w <? length (regs h))%nat && negb (bool_decide (w ∈ joined h)) && negb (bool_decide (w ∈ returned h)).

(** The request of [into_inner] is answered, and the worker returns. *)
Definition move_out (h : heap) (w : nat) : heap :=
  {| channels := channels h; regs := regs h; arcs := arcs h; joined := joined h;
     returned := returned h ++ [w] |}.

(** ** Programs that own handles *)

Record program := { mem : heap; runtimes : list Runtime; remotes : list Remote }.

Inductive action :=
| Spawn
| Entrust                     (* [Trust::entrust] *)
| EntrustPinned               (* [Trust::entrust_with_pin] *)
| CloneRuntime (i : nat)
| EntrustFrom (i : nat)       (* [Runtime::entrust] *)
| CloneRemote (i : nat)
| DropRuntime (i : nat)
| DropRemote (i : nat)
| IntoInner (i : nat).

(** A completed operation; [None] where there is no such variable, and for an
    [into_inner] that nobody answers.  [into_inner] consumes its handle, also
    when the assertion unwinds. *)
Definition exec (p : program) (x : action) : option program :=
  match x with
  | Spawn =>
      let '(rt, r, h) := spawn_with_pin (mem p) in
      Some {| mem := h; runtimes := rt :: runtimes p; remotes := r :: remotes p |}
  | Entrust =>
      let '(r, h) := trust_entrust (mem p) in
      Some {| mem := h; runtimes := runtimes p; remotes := r :: remotes p |}
  | EntrustPinned =>
      let '(r, h) := trust_entrust_with_pin (mem p) in
      Some {| mem := h; runtimes := runtimes p; remotes := r :: remotes p |}
  | CloneRuntime i =>
      rt ← runtimes p !! i;
      Some {| mem := mem p; runtimes := clone_runtime rt :: runtimes p; remotes := remotes p |}
  | EntrustFrom i =>
      rt ← runtimes p !! i;
      let '(r, h) := runtime_entrust (mem p) rt in
      Some {| mem := h; runtimes := runtimes p; remotes := r :: remotes p |}
  | CloneRemote i =>
      r ← remotes p !! i;
      let '(r, h) := trust_clone (mem p) r in
      Some {| mem := h; runtimes := runtimes p; remotes := r :: remotes p |}
  | DropRuntime i =>
      rt ← runtimes p !! i;
      Some {| mem := drop_runtime (mem p) rt; runtimes := delete i (runtimes p); remotes := remotes p |}
  | DropRemote i =>
      r ← remotes p !! i;
      Some {| mem := drop_remote (mem p) r; runtimes := runtimes p; remotes := delete i (remotes p) |}
  | IntoInner i =>
      r ← remotes p !! i;
      match into_inner_guard r with
      | Ok _ =>
          let w := reg (registrar r) in
          if serving (mem p) w
          then Some {| mem := drop_remote (move_out (mem p) w) r; runtimes := runtimes p;
                       remotes := delete i (remotes p) |}
          else None
      | _ => Some {| mem := drop_remote (mem p) r; runtimes := runtimes p;
                     remotes := delete i (remotes p) |}
      end
  end.

Definition start : program :=
  {| mem := {| channels := 0; regs := []; arcs := []; joined := []; returned := [] |}; runtimes := [];
     remotes := [] |}.

Fixpoint execs (p : program) (acts : list action) : option program :=
  match acts with [] => Some p | x :: acts => exec p x ≫= fun p => execs p acts end.

Definition reachable (p : program) : Prop := exists acts, execs start acts = Some p.

Lemma reachable_ind_ (P : program -> Prop) :
  P start -> (forall p x p', P p -> exec p x = Some p' -> P p') -> forall p, reachable p -> P p.
Proof.
  intros H0 Hs p [acts Ha]. revert H0 Ha. generalize start as q. induction acts as [|x acts IH]; intros q Hq.
  - by intros [= <-].
  - simpl. destruct (exec q x) as [q1|] eqn:E; [|done]. intros Ha. by eapply IH; [eapply Hs|].
Qed.

(** ** Who holds the workers *)

Definition arc_worker (e : nat * Runtime) : option nat :=
  match e with (O, _) => None | (S _, rt) => _worker rt end.

(** The join handles that some live value holds. *)
Definition held (p : program) : list nat :=
  omap _worker (runtimes p) ++ omap arc_worker (arcs (mem p)).

Definition refs (a : nat) (l : list Remote) : nat := length (filter (fun x => _owner x = Some a) l).
Arguments refs : simpl never.

Definition runtime_ok (h : heap) (rt : Runtime) : Prop :=
  (rt_reg rt < length (regs h))%nat /\ forall w, _worker rt = Some w -> w = rt_reg rt.
Definition remote_ok (h : heap) (x : Remote) : Prop :=
  (reg (registrar x) < length (regs h))%nat /\
  forall a, _owner x = Some a -> exists n rt, arcs h !! a = Some (n, rt) /\ rt_reg rt = reg (registrar x).

Record owners (p : program) : Prop := {
  ow_workers : joined (mem p) ++ held p ≡ₚ seq 0 (length (regs (mem p)));
  ow_arcs : forall a n rt, arcs (mem p) !! a = Some (n, rt) ->
    n = refs a (remotes p) /\ runtime_ok (mem p) rt;
  ow_runtimes : Forall (runtime_ok (mem p)) (runtimes p);
  ow_remotes : Forall (remote_ok (mem p)) (remotes p);
}.

Record wired (h : heap) (l : list Remote) : Prop := {
  wi_nodup : NoDup (concat (regs h));
  wi_fresh : forall c, c ∈ concat (regs h) -> (c < channels h)%nat;
  wi_own : NoDup (chan <$> l);
  wi_registered : forall x, x ∈ l -> exists cs, regs h !! reg (registrar x) = Some cs /\ chan x ∈ cs;
}.

Lemma omap_insert_perm {A B} (f : A -> option B) (l : list A) a y y' :
  l !! a = Some y ->
  option_list (f y) ++ omap f (<[a := y']> l) ≡ₚ option_list (f y') ++ omap f l.
Proof.
  revert a. induction l as [|z l IH]; intros [|a] Hl; simplify_eq/=.
  - destruct (f y), (f y'); simpl; try done. by constructor.
  - specialize (IH _ Hl). destruct (f z) as [b|]; [|done]. simpl.
    by rewrite <-!Permutation_middle, IH.
Qed.

Lemma concat_alter_perm {A} (l : list (list A)) w c :
  (w < length l)%nat -> concat (alter (fun cs => cs ++ [c]) w l) ≡ₚ c :: concat l.
Proof.
  revert w. induction l as [|x l IH]; intros [|w] Hw; simpl in *; try lia.
  - rewrite <-app_assoc. simpl. by rewrite Permutation_middle.
  - change (x ++ concat (alter (fun cs => cs ++ [c]) w l) ≡ₚ c :: x ++ concat l).
    rewrite IH by lia. by rewrite Permutation_middle.
Qed.

Lemma lookup_concat {A} (l : list (list A)) i xs x : l !! i = Some xs -> x ∈ xs -> x ∈ concat l.
Proof.
  intros Hi Hx. apply list_elem_of_In, in_concat. exists xs.
  split; apply list_elem_of_In; [by eapply list_elem_of_lookup_2|done].
Qed.

Lemma refs_perm a l l' : l ≡ₚ l' -> refs a l = refs a l'.
Proof. intros Hp. unfold refs. by rewrite Hp. Qed.
Lemma refs_cons a x l : refs a (x :: l) = ((if decide (_owner x = Some a) then 1 else 0) + refs a l)%nat.
Proof. unfold refs. rewrite filter_cons. by destruct (decide _). Qed.

Lemma owners_perm h rts rts' l l' :
  rts ≡ₚ rts' -> l ≡ₚ l' ->
  owners {| mem := h; runtimes := rts; remotes := l |} ->
  owners {| mem := h; runtimes := rts'; remotes := l' |}.
Proof.
  intros Hr Hl [Hw Ha Ht Hx]. split; unfold held in *; cbn [mem runtimes remotes] in *.
  - by rewrite <-Hr.
  - intros a n rt Hi. rewrite <-(refs_perm a _ _ Hl). by apply Ha.
  - by rewrite <-Hr.
  - by rewrite <-Hl.
Qed.

(** A push to a queue concerns the owners in nothing. *)
Lemma owners_push h rts l w c :
  owners {| mem := h; runtimes := rts; remotes := l |} ->
  owners {| mem := register (snd (new_channel h)) {| reg := w |} c; runtimes := rts; remotes := l |}.
Proof.
  intros [Hw Ha Ht Hx]. unfold runtime_ok, remote_ok in *.
  split; unfold runtime_ok, remote_ok, held in *; cbn in *; by rewrite length_alter.
Qed.

Lemma wired_push h l w c :
  c = channels h -> wired h l -> wired (register (snd (new_channel h)) {| reg := w |} c) l.
Proof.
  intros -> [Hn Hf Ho Hr]. destruct (decide (w < length (regs h))%nat) as [Hlt|Hge].
  - split; cbn.
    + rewrite concat_alter_perm by done. constructor; [|done]. intros Hin%Hf. lia.
    + intros c. rewrite concat_alter_perm, elem_of_cons by done. intros [->|Hin%Hf]; lia.
    + done.
    + intros x Hx. destruct (Hr x Hx) as (cs & Hi & Hc). destruct (decide (w = reg (registrar x))) as [->|Hne].
      * exists (cs ++ [channels h]). rewrite list_lookup_alter_eq, Hi. split; [done|].
        apply elem_of_app. by left.
      * exists cs. by rewrite list_lookup_alter_ne.
  - assert (alter (fun cs => cs ++ [channels h]) w (regs h) = regs h) as Heq.
    { apply list_eq. intros k. destruct (decide (w = k)) as [->|Hne].
      - rewrite list_lookup_alter_eq, lookup_ge_None_2 by lia. done.
      - by rewrite list_lookup_alter_ne. }
    split; cbn; rewrite ?Heq; try done. intros c Hin%Hf. lia.
Qed.

(** ** Drops *)

Lemma owners_drop_runtime h rt rts l :
  owners {| mem := h; runtimes := rt :: rts; remotes := l |} ->
  owners {| mem := drop_runtime h rt; runtimes := rts; remotes := l |}.
Proof.
  intros Ho. unfold drop_runtime. destruct (_worker rt) as [w|] eqn:Hw.
  - apply (owners_push _ _ _ (rt_reg rt) (channels h)) in Ho. destruct Ho as [Hp Ha Ht Hx].
    split; unfold held in *; cbn in *; rewrite ?Hw in *; cbn in *.
    + by rewrite <-app_assoc.
    + done.
    + by apply Forall_cons in Ht as [_ ?].
    + done.
  - destruct Ho as [Hp Ha Ht Hx]. split; unfold held in *; cbn in *; rewrite ?Hw in *; try done.
    by apply Forall_cons in Ht as [_ ?].
Qed.

Lemma wired_drop_runtime h rt l : wired h l -> wired (drop_runtime h rt) l.
Proof.
  intros Hw. unfold drop_runtime. destruct (_worker rt); [|done].
  by destruct (wired_push h l (rt_reg rt) _ eq_refl Hw).
Qed.

(** One reference less; the [Runtime] comes out with the last. *)
Lemma owners_drop_remote h rts x l :
  owners {| mem := h; runtimes := rts; remotes := x :: l |} ->
  owners {| mem := drop_remote h x; runtimes := rts; remotes := l |}.
Proof.
  intros [Hp Ha Ht Hx]. cbn [mem runtimes remotes] in *. apply Forall_cons in Hx as [[_ Hxo] Hl].
  unfold drop_remote. destruct (_owner x) as [a|] eqn:Hxa.
  2: { split; try done. intros a n rt Hi. destruct (Ha a n rt Hi) as [-> Hrt]. split; [|done].
       cbn. by rewrite refs_cons, Hxa, decide_False. }
  destruct (Hxo a eq_refl) as (n & rt & Hi & _). simpl. unfold arc_drop. rewrite Hi.
  destruct (Ha a n rt Hi) as [Hn Hrt]. rewrite refs_cons, Hxa, decide_True in Hn by done.
  rewrite Hn. simpl.
  assert (Hgen : forall y, arc_worker (refs a l, rt) = y ->
    owners {| mem := set_arcs h (<[a := (refs a l, rt)]> (arcs h));
              runtimes := match refs a l with O => rt :: rts | _ => rts end; remotes := l |}).
  { intros y Hy. pose proof (omap_insert_perm arc_worker (arcs h) a (n, rt) (refs a l, rt) Hi) as Hom.
    rewrite Hn in Hom. split; cbn.
    - rewrite <-Hp. unfold held. cbn. f_equiv.
      destruct (refs a l) as [|k] eqn:Hk; simpl in Hom; cbn.
      + destruct (_worker rt) as [w|]; cbn in *; [|by rewrite Hom].
        by rewrite (Permutation_middle (omap _worker rts)), Hom.
      + destruct (_worker rt) as [w|]; cbn in *; [|by rewrite Hom].
        apply Permutation_cons_inv in Hom. by rewrite Hom.
    - intros a' n' rt' Hi'. destruct (decide (a' = a)) as [->|Hne].
      + rewrite list_lookup_insert_eq in Hi' by (by eapply lookup_lt_Some). by injection Hi' as <- <-.
      + rewrite list_lookup_insert_ne in Hi' by done. destruct (Ha _ _ _ Hi') as [-> ?]. split; [|done].
        rewrite refs_cons, Hxa, decide_False by congruence. done.
    - destruct (refs a l); [by constructor|done].
    - eapply Forall_impl; [exact Hl|]. intros z [Hz1 Hz2]. split; [done|]. intros a' Hz.
      destruct (Hz2 a' Hz) as (n' & rt' & Hi' & Hr'). cbn. destruct (decide (a' = a)) as [->|Hne].
      + rewrite list_lookup_insert_eq by (by eapply lookup_lt_Some). rewrite Hi in Hi'. simplify_eq. eauto.
      + rewrite list_lookup_insert_ne by done. eauto. }
  specialize (Hgen _ eq_refl). destruct (refs a l); [by apply owners_drop_runtime|done].
Qed.

Lemma wired_drop_remote h x l : wired h l -> wired (drop_remote h x) l.
Proof.
  intros Hw. unfold drop_remote. destruct (_owner x) as [a|]; [simpl|done].
  unfold arc_drop. destruct (arcs h !! a) as [[[|[|n]] rt]|]; try done.
  - apply wired_drop_runtime. by destruct Hw.
  - by destruct Hw.
Qed.

Lemma wired_delete h l i : wired h l -> wired h (delete i l).
Proof.
  intros [Hn Hf Ho Hr]. split; try done.
  - eapply sublist_NoDup; [exact Ho|]. apply fmap_sublist, sublist_delete.
  - intros x Hx%list_elem_of_delete_inv. by apply Hr.
Qed.

(** ** Creation *)

Lemma spawn_with_pin_eq h :
  let w := length (regs h) in
  spawn_with_pin h =
  ({| rt_reg := w; _worker := Some w |},
   {| chan := channels h; registrar := {| reg := w |}; _owner := Some (length (arcs h)) |},
   {| channels := S (channels h); regs := regs h ++ [[channels h]];
      arcs := arcs h ++ [(1%nat, {| rt_reg := w; _worker := None |})]; joined := joined h;
      returned := returned h |}).
Proof.
  unfold spawn_with_pin, new_worker. cbn. do 2 f_equal.
  unfold register, set_arcs. cbn. f_equal. rewrite alter_app_r_alt by lia. by rewrite Nat.sub_diag.
Qed.

Lemma refs_fresh h rts l :
  owners {| mem := h; runtimes := rts; remotes := l |} -> refs (length (arcs h)) l = 0%nat.
Proof.
  intros [_ _ _ Hx]. cbn in Hx. unfold refs. induction Hx as [|x l [_ Hx] _ IH]; [done|].
  rewrite filter_cons, decide_False; [done|]. intros Hxa.
  destruct (Hx _ Hxa) as (n & rt & Hi & _). apply lookup_lt_Some in Hi. lia.
Qed.

(** A [Runtime] moves into a new [Arc], and a handle shares it. *)
Lemma owners_share h rt rts l c :
  owners {| mem := h; runtimes := rt :: rts; remotes := l |} ->
  owners {| mem := snd (arc_new h rt); runtimes := rts;
    remotes := {| chan := c; registrar := {| reg := rt_reg rt |}; _owner := Some (length (arcs h)) |} :: l |}.
Proof.
  intros Ho. pose proof (refs_fresh _ _ _ Ho) as Hr. destruct Ho as [Hp Ha Ht Hx]. cbn in *.
  apply Forall_cons in Ht as [Hrt Ht]. split; cbn.
  - rewrite <-Hp. unfold held. cbn. rewrite omap_app. cbn. f_equiv.
    destruct (_worker rt) as [w|]; [|by rewrite app_nil_r].
    rewrite (Permutation_app_comm _ [w]). simpl. by rewrite Permutation_middle.
  - intros a n rt' Hi. rewrite refs_cons. cbn. apply lookup_snoc_Some in Hi as [[Hlt Hi]|[-> Hi]].
    + rewrite decide_False by (intros [= ?]; lia). by apply Ha.
    + injection Hi as <- <-. by rewrite decide_True, Hr by done.
  - done.
  - constructor.
    + split; [apply Hrt|]. intros a [= <-]. exists 1%nat, rt. cbn.
      by rewrite lookup_app_r, Nat.sub_diag by lia.
    + eapply Forall_impl; [exact Hx|]. intros x [H1 H2]. split; [done|]. intros a Hxa.
      destruct (H2 a Hxa) as (n & rt' & Hi & ?). exists n, rt'. cbn. split; [by apply lookup_app_l_Some|done].
Qed.

(** A new worker, held by a [Runtime]. *)
Lemma owners_worker h rts l cs k :
  let w := length (regs h) in
  owners {| mem := h; runtimes := rts; remotes := l |} ->
  owners {| mem := {| channels := k; regs := regs h ++ [cs]; arcs := arcs h; joined := joined h;
                      returned := returned h |};
            runtimes := {| rt_reg := w; _worker := Some w |} :: rts; remotes := l |}.
Proof.
  intros w [Hp Ha Ht Hx]. subst w. cbn in *.
  assert (Hrt : forall rt, runtime_ok h rt -> forall k, runtime_ok {| channels := k; regs := regs h ++ [cs];
    arcs := arcs h; joined := joined h; returned := returned h |} rt).
  { intros rt [H1 H2] ?. split; [cbn; rewrite length_app; lia|done]. }
  split; cbn.
  - rewrite length_app. cbn. rewrite seq_app. cbn. rewrite <-Hp. unfold held. cbn.
    rewrite (Permutation_app_comm _ [_]). cbn. by rewrite <-Permutation_middle.
  - intros a n rt Hi. destruct (Ha a n rt Hi). split; [done|]. auto.
  - constructor; [split; cbn; [rewrite length_app; cbn; lia|by intros ? [= <-]]|].
    eapply Forall_impl; [exact Ht|]. auto.
  - eapply Forall_impl; [exact Hx|]. intros x [H1 H2]. split; [cbn; rewrite length_app; lia|done].
Qed.

(** A [Runtime] that holds no worker comes and goes freely. *)
Lemma owners_add_clone h rts l r :
  (r < length (regs h))%nat ->
  owners {| mem := h; runtimes := rts; remotes := l |} ->
  owners {| mem := h; runtimes := {| rt_reg := r; _worker := None |} :: rts; remotes := l |}.
Proof. intros Hr [Hp Ha Ht Hx]. split; try done. constructor; [|done]. by split. Qed.

Lemma wired_worker h l x a j r :
  wired h l -> chan x = channels h -> reg (registrar x) = length (regs h) ->
  wired {| channels := S (channels h); regs := regs h ++ [[channels h]]; arcs := a; joined := j;
           returned := r |} (x :: l).
Proof.
  intros [Hn Hf Ho Hr] Hc Hx. split; cbn.
  - rewrite concat_app. cbn. apply NoDup_app. split; [done|]. split; [|apply NoDup_singleton].
    intros c Hin%Hf Heq%list_elem_of_singleton. lia.
  - intros c. rewrite concat_app, elem_of_app. cbn. intros [Hin%Hf|Heq%list_elem_of_singleton]; lia.
  - constructor; [|done]. rewrite Hc. intros (y & Hy & Hin)%list_elem_of_fmap.
    destruct (Hr y Hin) as (cs & Hi & Hcs).
    enough (channels h < channels h)%nat by lia. apply Hf. rewrite Hy.
    by eapply lookup_concat.
  - intros y [->|Hin]%elem_of_cons.
    + exists [channels h]. rewrite Hx, Hc, lookup_app_r, Nat.sub_diag by lia.
      split; [done|]. by apply list_elem_of_singleton.
    + destruct (Hr y Hin) as (cs & Hi & Hcs). exists cs. split; [by apply lookup_app_l_Some|done].
Qed.

(** A new handle of a running worker, on a channel of its own. *)
Lemma wired_handle h l x :
  wired h l -> chan x = channels h -> (reg (registrar x) < length (regs h))%nat ->
  wired (register (snd (new_channel h)) (registrar x) (channels h)) (x :: l).
Proof.
  intros Hw Hc Hx. destruct (registrar x) as [w] eqn:Hreg. cbn in Hx.
  destruct (wired_push h l w _ eq_refl Hw) as [Hn Hf Ho Hr]. pose proof Hw as [_ Hf0 _ Hr0].
  split; [done|done| |].
  - constructor; [|done]. rewrite Hc. intros (y & Hy & Hin)%list_elem_of_fmap.
    destruct (Hr0 y Hin) as (cs & Hi & Hcs).
    enough (channels h < channels h)%nat by lia. apply Hf0. rewrite Hy.
    by eapply lookup_concat.
  - intros y [->|Hin]%elem_of_cons; [|by apply Hr]. rewrite Hreg. cbn. rewrite list_lookup_alter_eq.
    destruct (lookup_lt_is_Some_2 _ _ Hx) as [cs ->]. eexists. split; [reflexivity|]. rewrite Hc.
    apply elem_of_app. right. by apply list_elem_of_singleton.
Qed.

(** A handle more on an [Arc]. *)
Lemma owners_clone h rts l x c :
  x ∈ l ->
  owners {| mem := h; runtimes := rts; remotes := l |} ->
  owners {| mem := from_option (arc_clone h) h (_owner x); runtimes := rts;
            remotes := {| chan := c; registrar := registrar x; _owner := _owner x |} :: l |}.
Proof.
  intros Hin [Hp Ha Ht Hx]. cbn in *. pose proof (proj1 (Forall_forall _ _) Hx x Hin) as [Hx1 Hx2].
  destruct (_owner x) as [a|] eqn:Hxa; cbn.
  - destruct (Hx2 a eq_refl) as (n & rt & Hi & Hreg). destruct (Ha a n rt Hi) as [Hn Hrt].
    assert (Heq : alter (fun '(n, rt) => (S n, rt)) a (arcs h) = <[a := (S n, rt)]> (arcs h)).
    { apply list_eq. intros k. destruct (decide (k = a)) as [->|Hne].
      - rewrite list_lookup_alter_eq, Hi. cbn. symmetry. apply list_lookup_insert_eq.
        by eapply lookup_lt_Some.
      - by rewrite list_lookup_alter_ne, list_lookup_insert_ne. }
    unfold arc_clone. rewrite Heq. split; cbn.
    + rewrite <-Hp. unfold held. cbn. do 2 f_equiv.
      pose proof (omap_insert_perm arc_worker (arcs h) a (n, rt) (S n, rt) Hi) as Hom.
      assert (Hpos : arc_worker (n, rt) = _worker rt).
      { destruct n; [|done]. exfalso.
        assert (0 < refs a l)%nat; [|lia]. clear -Hin Hxa. unfold refs.
        assert (x ∈ filter (fun x => _owner x = Some a) l) by (by apply list_elem_of_filter).
        by destruct (filter _ l); [apply not_elem_of_nil in H|simpl; lia]. }
      rewrite Hpos in Hom. cbn in Hom. by apply Permutation_app_inv_l in Hom.
    + intros a' n' rt' Hi'. rewrite refs_cons. cbn. destruct (decide (a' = a)) as [->|Hne].
      * rewrite list_lookup_insert_eq in Hi' by (by eapply lookup_lt_Some). injection Hi' as <- <-.
        rewrite decide_True by done. split; [lia|done].
      * rewrite list_lookup_insert_ne in Hi' by done. rewrite decide_False by congruence. by apply Ha.
    + done.
    + assert (Hkeep : forall y, remote_ok h y ->
        remote_ok (set_arcs h (<[a:=(S n, rt)]> (arcs h))) y).
      { intros y [Hy1 Hy2]. split; [done|]. intros a' Hya. destruct (Hy2 a' Hya) as (n' & rt' & Hi' & Hr').
        cbn. destruct (decide (a' = a)) as [->|Hne].
        - rewrite list_lookup_insert_eq by (by eapply lookup_lt_Some). rewrite Hi in Hi'. simplify_eq. eauto.
        - rewrite list_lookup_insert_ne by done. eauto. }
      constructor; [|eapply Forall_impl; [exact Hx|exact Hkeep]].
      apply (Hkeep {| chan := c; registrar := registrar x; _owner := Some a |}). split; [done|].
      cbn. intros a' [= <-]. eauto.
  - split; [done| |done|].
    + intros a n rt Hi. cbn. rewrite refs_cons. cbn. rewrite decide_False by done. by apply Ha.
    + constructor; [|done]. by split.
Qed.

Definition sound (p : program) : Prop := owners p /\ wired (mem p) (remotes p).

(** [spawn] and [entrust], whole. *)
Lemma owners_spawn h rts l :
  owners {| mem := h; runtimes := rts; remotes := l |} ->
  let '(rt, x, h1) := spawn_with_pin h in
  owners {| mem := h1; runtimes := rt :: rts; remotes := x :: l |}.
Proof.
  intros Ho. rewrite spawn_with_pin_eq.
  apply (owners_share {| channels := S (channels h); regs := regs h ++ [[channels h]]; arcs := arcs h;
    joined := joined h; returned := returned h |} {| rt_reg := length (regs h); _worker := None |}).
  apply owners_add_clone; [cbn; rewrite length_app; cbn; lia|]. by apply owners_worker.
Qed.

Lemma sound_entrust h rts l x h1 :
  sound {| mem := h; runtimes := rts; remotes := l |} -> remote_entrust h = (x, h1) ->
  sound {| mem := h1; runtimes := rts; remotes := x :: l |}.
Proof.
  intros [Ho Hw] He. pose proof (owners_spawn h rts l Ho) as Hspawn. unfold remote_entrust in He.
  rewrite spawn_with_pin_eq in He, Hspawn. injection He as <- <-. split.
  - apply owners_drop_remote. eapply owners_perm; [reflexivity|apply perm_swap|].
    apply (owners_share _ _ _ _ (channels h) Hspawn).
  - apply wired_drop_remote. by apply wired_worker.
Qed.

Lemma exec_sound p x p' : sound p -> exec p x = Some p' -> sound p'.
Proof.
  destruct p as [h rts l]. intros [Ho Hw]. cbn in Hw.
  assert (Hget : forall i r, l !! i = Some r ->
    owners {| mem := h; runtimes := rts; remotes := r :: delete i l |}).
  { intros i r Hi. eapply owners_perm; [reflexivity| |exact Ho]. by apply delete_Permutation. }
  assert (Hrt : forall i rt, rts !! i = Some rt -> runtime_ok h rt).
  { intros i rt Hi. by eapply Forall_lookup_1 in Hi; [|exact (ow_runtimes _ Ho)]. }
  destruct x as [| | |i|i|i|i|i|i]; cbn [exec mem runtimes remotes]; intros He.
  - pose proof (owners_spawn h rts l Ho) as Hspawn. rewrite spawn_with_pin_eq in He, Hspawn.
    injection He as <-. split; [exact Hspawn|]. by apply wired_worker.
  - unfold trust_entrust in He. destruct (remote_entrust h) as [r h1] eqn:Hr. injection He as <-.
    by eapply sound_entrust.
  - change (trust_entrust_with_pin h) with (remote_entrust h) in He.
    destruct (remote_entrust h) as [r h1] eqn:Hr. injection He as <-. by eapply sound_entrust.
  - destruct (rts !! i) as [rt|] eqn:Hi; [|done]. injection He as <-. split; [|done].
    apply owners_add_clone; [|done]. by apply (Hrt i rt Hi).
  - destruct (rts !! i) as [rt|] eqn:Hi; [|done]. injection He as <-. pose proof (proj1 (Hrt i rt Hi)) as Hlt.
    split; [|by apply (wired_handle h l
               {| chan := channels h; registrar := {| reg := rt_reg rt |}; _owner := None |})].
    apply (owners_push _ _ _ (rt_reg rt) (channels h)) in Ho. destruct Ho as [Hp Ha Ht Hx]. split; try done.
    constructor; [|done]. split; [cbn; by rewrite length_alter|done].
  - destruct (l !! i) as [r|] eqn:Hi; [|done]. injection He as <-. apply list_elem_of_lookup_2 in Hi as Hin.
    pose proof (proj1 (Forall_forall _ _) (ow_remotes _ Ho) r Hin) as [Hlt _]. split.
    + destruct (registrar r) as [w] eqn:Hr. rewrite <-Hr. apply owners_clone; [done|]. rewrite Hr.
      by apply owners_push.
    + pose proof (wired_handle h l {| chan := channels h; registrar := registrar r; _owner := _owner r |}
        Hw eq_refl Hlt) as Hww. cbn in Hww.
      destruct (_owner r); [|exact Hww]. by destruct Hww.
  - destruct (rts !! i) as [rt|] eqn:Hi; [|done]. injection He as <-. split; [|by apply wired_drop_runtime].
    apply owners_drop_runtime. apply (owners_perm h rts (rt :: delete i rts) l l); [by apply delete_Permutation|done|done].
  - destruct (l !! i) as [r|] eqn:Hi; [|done]. injection He as <-.
    split; [by apply owners_drop_remote, Hget|by apply wired_drop_remote, wired_delete].
  - destruct (l !! i) as [r|] eqn:Hi; [|done]. cbn [mbind option_bind] in He.
    destruct (into_inner_guard r); [destruct (serving h (reg (registrar r))); [|done]|..];
      injection He as <-; (split; [apply owners_drop_remote|apply wired_drop_remote, wired_delete]);
      try done; [by destruct (Hget i r Hi)|by destruct Hw|by apply Hget..].
Qed.

Lemma start_sound : sound start.
Proof.
  split; split; cbn; try done; try constructor.
  - by intros c ?%elem_of_nil.
  - by intros x ?%elem_of_nil.
Qed.

Lemma reachable_sound p : reachable p -> sound p.
Proof. revert p. apply reachable_ind_; [exact start_sound|]. intros; by eapply exec_sound. Qed.

(** ** The property's own [Arc] *)
Module Property.

(** The ways out of the worker's closure. *)
Inductive way := Terminated | Unwound | MovedOut.

(** The worker holds one reference as long as it has not [left], every launched
    job another; [drops] counts the drops of the property by the last reference.
    [into_inner] copies the property bit by bit: [in_slot] are the copies in a
    response slot that nobody has read, [owned] those that a caller has read and
    owns, [caller_drops] the drops of such copies. *)
Record t := { strong : nat; left : option way; jobs : nat; drops : nat;
  in_slot : nat; owned : nat; caller_drops : nat }.

Definition new : t :=
  {| strong := 1; left := None; jobs := 0; drops := 0; in_slot := 0; owned := 0; caller_drops := 0 |}.

(** [Arc::clone], carried to the fiber as a raw pointer. *)
Definition launch (p : t) : t :=
  {| strong := S (strong p); left := left p; jobs := S (jobs p); drops := drops p;
     in_slot := in_slot p; owned := owned p; caller_drops := caller_drops p |}.

(** The end of a scope that owns an [Arc]. *)
Definition release (p : t) : t :=
  match strong p with
  | O => p
  | S n => {| strong := n; left := left p; jobs := jobs p;
              drops := match n with O => S (drops p) | S _ => drops p end;
              in_slot := in_slot p; owned := owned p; caller_drops := caller_drops p |}
  end.

(** The job returns or unwinds. *)
Definition job_end (p : t) : t :=
  release {| strong := strong p; left := left p; jobs := pred (jobs p); drops := drops p;
             in_slot := in_slot p; owned := owned p; caller_drops := caller_drops p |}.

(** The worker's closure returns or unwinds. *)
Definition leave (w : way) (p : t) : t :=
  release {| strong := strong p; left := Some w; jobs := jobs p; drops := drops p;
             in_slot := in_slot p; owned := owned p; caller_drops := caller_drops p |}.

(** [core::ptr::read] of the property and the write to the response, then
    [return]: the [Arc] goes out of scope with the property still in it. *)
Definition into_inner (p : t) : t :=
  leave MovedOut {| strong := strong p; left := left p; jobs := jobs p; drops := drops p;
    in_slot := S (in_slot p); owned := owned p; caller_drops := caller_drops p |}.

(** The caller's [read_unaligned], whose result is a value of its own, and
    the end of that value's scope. *)
Definition read_moved (p : t) : t :=
  {| strong := strong p; left := left p; jobs := jobs p; drops := drops p;
     in_slot := pred (in_slot p); owned := S (owned p); caller_drops := caller_drops p |}.
Definition caller_drop (p : t) : t :=
  {| strong := strong p; left := left p; jobs := jobs p; drops := drops p;
     in_slot := in_slot p; owned := pred (owned p); caller_drops := S (caller_drops p) |}.

Inductive step : t -> t -> Prop :=
| step_launch p : left p = None -> step p (launch p)
| step_job_end p : (0 < jobs p)%nat -> step p (job_end p)
| step_terminate p : left p = None -> jobs p = 0%nat -> step p (leave Terminated p)
| step_unwind p : left p = None -> step p (leave Unwound p)
| step_into_inner p : left p = None -> step p (into_inner p)
| step_read_moved p : (0 < in_slot p)%nat -> step p (read_moved p)
| step_caller_drop p : (0 < owned p)%nat -> step p (caller_drop p).

(** What the references are for: the worker in its loop, and the jobs. *)
Definition in_use (p : t) : nat := (jobs p + match left p with None => 1 | Some _ => 0 end)%nat.

(** All drops of what is one value of [T]. *)
Definition all_drops (p : t) : nat := (drops p + caller_drops p)%nat.

Record counted (p : t) : Prop := {
  co_strong : strong p = in_use p;
  co_drops : drops p = match strong p with O => 1%nat | S _ => 0%nat end;
  co_copies : (in_slot p + owned p + caller_drops p)%nat =
    match left p with Some MovedOut => 1%nat | _ => 0%nat end;
}.

Lemma new_counted : counted new.
Proof. by split. Qed.

(** A reference is given up together with what it was for. *)
Lemma release_counted p :
  strong p = S (in_use p) -> drops p = 0%nat ->
  (in_slot p + owned p + caller_drops p)%nat = match left p with Some MovedOut => 1%nat | _ => 0%nat end ->
  counted (release p).
Proof.
  intros Hs Hd Hc. unfold release. rewrite Hs. split; cbn; [reflexivity| |exact Hc].
  by rewrite Hd.
Qed.

Lemma step_counted p p' : counted p -> step p p' -> counted p'.
Proof.
  intros [Hs Hd Hc] Hst. unfold in_use in *.
  destruct Hst as [p Hl|p Hj|p Hl Hj|p Hl|p Hl|p Hi|p Ho]; try rewrite Hl in *.
  - split; unfold in_use; cbn; rewrite ?Hl; try lia. by rewrite Hd, Hs, Nat.add_comm.
  - apply release_counted; unfold in_use; cbn; [lia| |exact Hc].
    rewrite Hd. destruct (strong p); [lia|done].
  - apply release_counted; unfold in_use; cbn; [lia| |lia]. rewrite Hd. destruct (strong p); [lia|done].
  - apply release_counted; unfold in_use; cbn; [lia| |lia]. rewrite Hd. destruct (strong p); [lia|done].
  - apply release_counted; unfold in_use; cbn; [lia| |lia]. rewrite Hd. destruct (strong p); [lia|done].
  - split; unfold in_use; cbn; [done|done|lia].
  - split; unfold in_use; cbn; [done|done|lia].
Qed.

Lemma run_counted p p' : rtc step p p' -> counted p -> counted p'.
Proof. induction 1; eauto using step_counted. Qed.

(** From any state jobs can end one after the other, which leaves the copies. *)
Lemma jobs_end p :
  exists p', rtc step p p' /\ jobs p' = 0%nat /\ left p' = left p /\ in_slot p' = in_slot p /\
    owned p' = owned p /\ caller_drops p' = caller_drops p.
Proof.
  remember (jobs p) as n eqn:Hn. revert p Hn. induction n as [|n IH]; intros p Hn.
  { exists p. by split_and!; [constructor|..]. }
  destruct (IH (job_end p)) as (p' & Hr & Hj & Hl & Hs & Ho & Hc).
  { unfold job_end, release. cbn. destruct (strong p); cbn; lia. }
  exists p'. split; [eapply rtc_l; [apply step_job_end; lia|exact Hr]|]. split; [done|].
  rewrite Hl, Hs, Ho, Hc. unfold job_end, release. cbn. by destruct (strong p).
Qed.

(** The caller reads its copy and drops it. *)
Lemma caller_takes p :
  (in_slot p + owned p + caller_drops p)%nat = 1%nat ->
  exists p', rtc step p p' /\ caller_drops p' = 1%nat /\ left p' = left p /\ jobs p' = jobs p.
Proof.
  intros Hc. destruct (in_slot p) as [|n] eqn:Hi; [destruct (owned p) as [|m] eqn:Ho|].
  - exists p. split; [constructor|]. split; [lia|done].
  - exists (caller_drop p). split; [apply rtc_once, step_caller_drop; lia|]. cbn. split; [lia|done].
  - exists (caller_drop (read_moved p)). split; [|cbn; split; [lia|done]].
    eapply rtc_l; [apply step_read_moved; lia|]. apply rtc_once, step_caller_drop. cbn. lia.
Qed.

(** The worker leaves by [into_inner] after a launch; the caller reads the
    property and drops it; the job, which has a reference to it all the time,
    ends last. *)
Definition run_early : t := caller_drop (read_moved (into_inner (launch new))).
Definition run_end : t := job_end run_early.
Lemma run_early_reached : rtc step new run_early.
Proof.
  eapply rtc_l; [by apply step_launch|]. eapply rtc_l; [by apply step_into_inner|].
  eapply rtc_l; [apply step_read_moved; cbn; lia|]. apply rtc_once. apply step_caller_drop. cbn. lia.
Qed.
Lemma run_end_reached : rtc step new run_end.
Proof. eapply rtc_r; [exact run_early_reached|]. apply step_job_end. cbn. lia. Qed.

(** A launched job can be under way with the property dropped already, not by
    the runtime but by the caller of [into_inner]. *)
Lemma job_after_caller_drop :
  exists p, rtc step new p /\ (0 < jobs p)%nat /\ drops p = 0%nat /\ all_drops p = 1%nat.
Proof. exists run_early. split; [exact run_early_reached|]. cbn. lia. Qed.
End Property.

(** ** Properties *)

(** C21: join handles are never lost and never used twice: in every reachable
    state each worker spawned so far is either held by exactly one live value
    (a [Runtime] variable or an [Arc] that some handle still shares) or has
    been terminated and joined exactly once; when no variable is left, every
    worker has been joined. *)
Theorem workers_joined_once (p : program) (Hp : reachable p) :
  joined (mem p) ++ held p ≡ₚ seq 0 (length (regs (mem p))) /\
  NoDup (joined (mem p)) /\
  (runtimes p = [] -> remotes p = [] -> joined (mem p) ≡ₚ seq 0 (length (regs (mem p)))).
Proof.
  destruct (reachable_sound p Hp) as [[Hw Ha _ _] _]. split; [done|]. split.
  { pose proof (NoDup_seq 0 (length (regs (mem p)))) as Hn. rewrite <-Hw in Hn.
    by apply NoDup_app in Hn as (? & _). }
  intros Hr Hl. rewrite <-Hw. unfold held. rewrite Hr. cbn.
  replace (omap arc_worker (arcs (mem p))) with (@nil nat); [by rewrite app_nil_r|].
  symmetry. rewrite Hl in Ha. revert Ha. generalize (arcs (mem p)) as l. induction l as [|[n rt] l IH]; [done|].
  intros Ha. destruct (Ha 0%nat n rt eq_refl) as [-> _]. apply IH. intros a n' rt'. apply (Ha (S a)).
Qed.

(** C22: single producer, single consumer by construction: in every reachable
    state no two live handles share a channel, and the channel of each is in
    the queue of its worker, pushed exactly once. *)
Theorem handles_have_own_channels (p : program) (Hp : reachable p) :
  NoDup (chan <$> remotes p) /\
  forall x, x ∈ remotes p ->
    exists cs, regs (mem p) !! reg (registrar x) = Some cs /\
      length (filter (eq (chan x)) cs) = 1%nat /\
      forall w cs', regs (mem p) !! w = Some cs' -> w <> reg (registrar x) -> chan x ∉ cs'.
Proof.
  destruct (reachable_sound p Hp) as [_ [Hn _ Ho Hr]]. split; [done|]. intros x Hx.
  destruct (Hr x Hx) as (cs & Hi & Hc). exists cs. split; [done|].
  clear Hr. revert Hn Hi. generalize (reg (registrar x)) as w. generalize (regs (mem p)) as l.
  induction l as [|xs l IH]; intros w Hn Hi; [done|]. cbn in Hn. apply NoDup_app in Hn as (Hn1 & Hn2 & Hn3).
  destruct w as [|w]; simpl in Hi.
  - injection Hi as ->. split.
    + clear -Hc Hn1. induction Hc as [? cs|? y cs Hin IH]; apply NoDup_cons in Hn1 as [Hy Hn1]; rewrite filter_cons.
      * rewrite decide_True by done. cbn. f_equal. clear -Hy. induction cs as [|y cs IH]; [done|].
        apply not_elem_of_cons in Hy as [Hne Hy]. rewrite filter_cons, decide_False by done. by apply IH.
      * rewrite decide_False by (intros ->; done). by apply IH.
    + intros [|w'] cs' Hi' Hne Hin; [done|]. apply (Hn2 _ Hc). by eapply lookup_concat.
  - destruct (IH w Hn3 Hi) as [Hone Hno]. split; [done|]. intros [|w'] cs' Hi' Hne Hin.
    + simpl in Hi'. injection Hi' as ->. apply (Hn2 _ Hin). by eapply lookup_concat.
    + apply (Hno w' cs'); [done|congruence|done].
Qed.

(** A handle that shares the [Runtime] of [Remote::entrust], and every
    clone of it, keeps its worker: as long as one is left no drop has
    terminated the worker, which is in its loop unless [into_inner] was
    called. *)
Theorem owning_handle_keeps_worker (p : program) (x : Remote) (a n w : nat) (rt : Runtime)
    (Hp : reachable p) (Hx : x ∈ remotes p) (Ha : _owner x = Some a)
    (Hi : arcs (mem p) !! a = Some (n, rt)) (Hw : _worker rt = Some w) :
  w = reg (registrar x) /\ (w ∉ joined (mem p)) /\ (w ∉ returned (mem p) -> serving (mem p) w = true).
Proof.
  destruct (reachable_sound p Hp) as [[Hperm Harc _ Hrem] _].
  pose proof (proj1 (Forall_forall _ _) Hrem x Hx) as [Hlt Hown].
  destruct (Hown a Ha) as (n' & rt' & Hi' & Hreg). rewrite Hi in Hi'. injection Hi' as <- <-.
  destruct (Harc a n rt Hi) as [Hn [_ Hrt]].
  assert (Hwr : w = reg (registrar x)) by (rewrite <-Hreg; auto).
  assert (Hnj : w ∉ joined (mem p)).
  { pose proof (NoDup_seq 0 (length (regs (mem p)))) as Hnd. rewrite <-Hperm in Hnd.
    apply NoDup_app in Hnd as (_ & Hdis & _). intros Hin. apply (Hdis w Hin). unfold held.
    apply elem_of_app. right. apply list_elem_of_omap. exists (n, rt).
    split; [by eapply list_elem_of_lookup_2|]. destruct n; [|done]. exfalso.
    assert (x ∈ filter (fun x => _owner x = Some a) (remotes p)) as Hf by (by apply list_elem_of_filter).
    unfold refs in Hn. by destruct (filter _ (remotes p)); [apply not_elem_of_nil in Hf|]. }
  split; [done|]. split; [done|]. intros Hret. unfold serving.
  rewrite !bool_decide_eq_false_2, !andb_true_r by done. apply Nat.ltb_lt. by rewrite Hwr.
Qed.

(** The handle of [Runtime::spawn] passes the owner assertion of
    [into_inner] although it owns no worker: whatever else the program holds,
    once the [Runtime] that came with it is dropped the worker is joined, the
    handle is still there, the assertion still holds, and the call is never
    answered. *)
Theorem spawned_handle_owns_nothing (p : program) :
  exists p1 p2 x,
    exec p Spawn = Some p1 /\ exec p1 (DropRuntime 0) = Some p2 /\ remotes p2 !! 0%nat = Some x /\
    reg (registrar x) ∈ joined (mem p2) /\ into_inner_guard x = Ok () /\ exec p2 (IntoInner 0) = None.
Proof.
  destruct p as [h rts l]. unfold exec at 1. cbn [mem runtimes remotes]. rewrite spawn_with_pin_eq.
  eexists _, _, _. split; [reflexivity|]. split; [reflexivity|]. split; [reflexivity|]. cbn.
  assert (Hin : length (regs h) ∈ (joined h ++ [length (regs h)]))
    by (apply elem_of_app; right; by apply list_elem_of_singleton).
  split; [done|]. split; [done|]. unfold serving. cbn.
  rewrite (bool_decide_eq_true_2 _ Hin), andb_false_r. done.
Qed.

(** C30: who drops the property, and how often.  As long as the worker is in
    its loop or a launched job has not ended, the runtime has not dropped it,
    however the worker has left; once both are over the runtime has dropped it
    exactly once.  If the worker was not left by [into_inner] nobody else drops
    it, so that is all.  If it was, exactly one copy has been handed out: it is
    in the response slot, or its caller's, or the caller has dropped it, and
    from every such state the run can go on until the worker's jobs are over
    and the caller has dropped its copy, where one property has been dropped
    twice. *)
Theorem property_dropped_by_runtime (p : Property.t) (Hp : rtc Property.step Property.new p) :
  ((Property.left p = None \/ (0 < Property.jobs p)%nat) -> Property.drops p = 0%nat) /\
  (Property.left p <> None -> Property.jobs p = 0%nat -> Property.drops p = 1%nat) /\
  (Property.left p <> Some Property.MovedOut -> Property.all_drops p = Property.drops p) /\
  (Property.left p = Some Property.MovedOut ->
    (Property.in_slot p + Property.owned p + Property.caller_drops p)%nat = 1%nat /\
    (Property.jobs p = 0%nat -> Property.caller_drops p = 1%nat -> Property.all_drops p = 2%nat) /\
    exists p', rtc Property.step p p' /\ Property.jobs p' = 0%nat /\ Property.caller_drops p' = 1%nat /\
      Property.all_drops p' = 2%nat).
Proof.
  pose proof (Property.run_counted _ _ Hp Property.new_counted) as Hco.
  destruct Hco as [Hs Hd Hc]. unfold Property.in_use, Property.all_drops in *. rewrite Hs in Hd. split_and!.
  - intros [Hw|Hj]; rewrite Hd; [rewrite Hw; by rewrite Nat.add_comm|by destruct (Property.jobs p); [lia|]].
  - intros Hw Hj. rewrite Hd, Hj. by destruct (Property.left p).
  - intros Hw. destruct (Property.left p) as [[]|]; try done; lia.
  - intros Hw. rewrite Hw in Hc. rewrite Hw in Hd. split; [done|]. split; [intros Hj ->; rewrite Hd, Hj; done|].
    destruct (Property.caller_takes p Hc) as (q & Hq & Hqc & Hql & _).
    destruct (Property.jobs_end q) as (r & Hr & Hj & Hl & _ & _ & Hrc).
    exists r. split; [by etrans|]. split; [done|]. split; [congruence|].
    assert (rtc Property.step Property.new r) as Hnr by (etrans; [exact Hp|by etrans]).
    destruct (Property.run_counted _ _ Hnr Property.new_counted) as [Hs' Hd' _].
    unfold Property.in_use in Hs'. rewrite Hl, Hql, Hw, Hj in Hs'. rewrite Hs' in Hd'. cbn in Hd'. lia.
Qed.

(** ** A program *)

(** One entrusted property with two clones, one spawned runtime with a handle
    made from it; everything is dropped but one clone. *)
Definition acts : list action :=
  [EntrustPinned; CloneRemote 0; CloneRemote 0; Spawn; EntrustFrom 0; DropRemote 4; DropRemote 2; DropRuntime 0;
   DropRemote 0; DropRemote 0].
Definition final : program := default start (execs start acts).
Definition last_clone : Remote := {| chan := 1; registrar := {| reg := 0 |}; _owner := Some 1%nat |}.

Lemma final_reachable : reachable final.
Proof. exists acts. vm_compute. reflexivity. Qed.

Lemma workers_joined_once_witness :
  joined (mem final) = [1%nat] /\ held final = [0%nat] /\ NoDup [1%nat].
Proof.
  split; [vm_compute; reflexivity|]. split; [vm_compute; reflexivity|].
  exact (proj1 (proj2 (workers_joined_once final final_reachable))).
Defined.

Lemma handles_have_own_channels_witness : NoDup [1%nat] /\ regs (mem final) = [[0; 1; 2]; [3; 4; 5]]%nat.
Proof. split; [exact (proj1 (handles_have_own_channels final final_reachable))|vm_compute; reflexivity]. Defined.

Lemma final_remotes : remotes final = [last_clone].
Proof. vm_compute. reflexivity. Qed.
Lemma final_arc : arcs (mem final) !! 1%nat = Some (1%nat, {| rt_reg := 0; _worker := Some 0%nat |}).
Proof. vm_compute. reflexivity. Qed.
Lemma final_returned : returned (mem final) = [].
Proof. vm_compute. reflexivity. Qed.

Lemma owning_handle_keeps_worker_witness :
  remotes final = [last_clone] /\ serving (mem final) 0 = true.
Proof.
  split; [exact final_remotes|].
  refine (proj2 (proj2 (owning_handle_keeps_worker final last_clone 1 1 0 {| rt_reg := 0; _worker := Some 0%nat |}
            final_reachable _ eq_refl final_arc eq_refl)) _).
  - rewrite final_remotes. by apply list_elem_of_singleton.
  - rewrite final_returned. apply not_elem_of_nil.
Defined.

(** Dropped by the caller, and dropped again by the last job. *)
Lemma property_dropped_by_runtime_witness :
  Property.drops Property.run_end = 1%nat /\ Property.all_drops Property.run_end = 2%nat.
Proof.
  destruct (property_dropped_by_runtime Property.run_end Property.run_end_reached) as (_ & Hd & _ & Hm).
  split; [by apply Hd|]. by apply (proj2 (Hm eq_refl)).
Defined.
