(* ===== verification/Trust.v ===== *)
(** * Trust: the common interface and its two implementations
    ([src/trust/common.rs], [src/trust/local.rs], [src/trust/remote.rs])

    [TrustLike] as a class of operations, the laws a client may rely on, the
    local implementation (a cell), the remote implementation (shortcut, panic
    or delegation), and the wrapper [Trust].  Programs written against the
    interface are verified once, against the laws. *)
From S2P Require Import Prelude Slots Serialization Remote Worker Delegation.
Import header.
Local Open Scope Z_scope.

(** How a call comes back to its caller: finished (normally or by a panic
    that reaches the caller), or never. *)
Inductive reply (R : Type) :=
| Finished (e : exit R)
| Spinning.
Arguments Finished {R} e.
Arguments Spinning {R}.

Definition reply_map {R S} (g : R -> S) (r : reply R) : reply S :=
  match r with Finished e => Finished (exit_map g e) | Spinning => Spinning end.

(** ** The trait *)

Class TrustLike (S T : Type) := {
  tl_into_inner : S -> res (S * reply T);
  tl_apply : forall {R} `{Repr R}, user_fn T unit R -> S -> res (S * reply R);
  tl_apply_with : forall {V R} `{Repr R} `{Bincode V}, user_fn T V R -> V -> S -> res (S * reply R);
  tl_with : forall {R} `{Repr R}, user_fn T unit R -> S -> res (S * reply R);
  tl_apply_batch_mut : user_fn T unit unit -> Z -> S -> res (S * reply unit);
  tl_launch : forall {R} `{Repr R}, user_fn T unit R -> S -> res (S * reply R);
}.

Section derived.
Context {S T : Type} `{TrustLike S T}.

(** [apply_then] and [launch_then]: the call, then the continuation. *)
Definition tl_apply_then {R K} `{Repr R} (u : user_fn T unit R) (then_ : R -> K) (s : S)
    : res (S * reply K) :=
  '(s, r) ← tl_apply u s; Ok (s, reply_map then_ r).
Definition tl_launch_then {R K} `{Repr R} (u : user_fn T unit R) (then_ : R -> K) (s : S)
    : res (S * reply K) :=
  '(s, r) ← tl_launch u s; Ok (s, reply_map then_ r).
End derived.

(** What a client may rely on, for closures that return: the call answers
    with the closure's own result and the handle stands for the updated
    property.  The [law_ok_*] predicates say which closures the
    implementation can carry. *)
Class TrustLaws (S T : Type) `{Repr T} `{TrustLike S T} := {
  valid : S -> T -> Prop;
  ok_out : forall {R} `{Repr R}, user_fn T unit R -> Prop;
  ok_args : forall {V R} `{Repr R} `{Bincode V}, user_fn T V R -> V -> Prop;
  ok_unit : user_fn T unit unit -> Prop;
  law_apply : forall R (HR : Repr R) (u : user_fn T unit R) s t t' r,
    valid s t -> ok_out u -> run_prog (call u tt) t = (t', Returned r) ->
    exists s', tl_apply u s = Ok (s', Finished (Returned r)) /\ valid s' t';
  law_apply_with : forall V R (HR : Repr R) (HV : Bincode V) (u : user_fn T V R) w s t t' r,
    valid s t -> ok_args u w -> run_prog (call u w) t = (t', Returned r) ->
    exists s', tl_apply_with u w s = Ok (s', Finished (Returned r)) /\ valid s' t';
  law_with : forall R (HR : Repr R) (u : user_fn T unit R) s t t' r,
    valid s t -> ok_out u -> run_prog (call u tt) t = (t', Returned r) ->
    exists s', tl_with u s = Ok (s', Finished (Returned r)) /\ valid s' t';
  law_batch : forall (u : user_fn T unit unit) n s t t',
    valid s t -> ok_unit u -> 0 <= n < 2 ^ 8 ->
    repeat_prog (Z.to_nat n) (call u tt) t = (t', Returned tt) ->
    exists s', tl_apply_batch_mut u n s = Ok (s', Finished (Returned tt)) /\ valid s' t';
  law_launch : forall R (HR : Repr R) (u : user_fn T unit R) s t t' r,
    valid s t -> ok_out u -> run_prog (call u tt) t = (t', Returned r) ->
    exists s', tl_launch u s = Ok (s', Finished (Returned r)) /\ valid s' t';
  law_into_inner : forall s t, valid s t ->
    exists s', tl_into_inner s = Ok (s', Finished (Returned t));
}.

(** ** [Local]: a cell executed by its own thread *)
Module Local.
Section local.
Context {T : Type}.

Definition entrust (value : T) : T := value.
Definition run {R} (p : prog T R) (t : T) : res (T * reply R) :=
  let '(t', e) := run_prog p t in Ok (t', Finished e).

Definition apply {R} `{Repr R} (u : user_fn T unit R) : T -> res (T * reply R) := run (call u tt).
Definition apply_with {V R} `{Repr R} `{Bincode V} (u : user_fn T V R) (w : V)
    : T -> res (T * reply R) := run (call u w).
Definition with_ {R} `{Repr R} (u : user_fn T unit R) : T -> res (T * reply R) := run (call u tt).
Definition apply_batch_mut (u : user_fn T unit unit) (n : Z) (t : T) : res (T * reply unit) :=
  let '(t', e) := repeat_prog (Z.to_nat n) (call u tt) t in Ok (t', Finished e).
Definition into_inner (t : T) : res (T * reply T) := Ok (t, Finished (Returned t)).
(** A scoped fiber that is joined at once. *)
Definition launch {R} `{Repr R} (u : user_fn T unit R) : T -> res (T * reply R) := run (call u tt).

Definition apply_then {R K} `{Repr R} (u : user_fn T unit R) (then_ : R -> K) (t : T)
    : res (T * reply K) :=
  '(t, r) ← apply u t; Ok (t, reply_map then_ r).
Definition launch_then {R K} `{Repr R} (u : user_fn T unit R) (then_ : R -> K) (t : T)
    : res (T * reply K) :=
  '(t, r) ← launch u t; Ok (t, reply_map then_ r).

#[export] Instance TrustLike_Local : TrustLike T T := {|
  tl_into_inner := into_inner;
  tl_apply := @apply;
  tl_apply_with := @apply_with;
  tl_with := @with_;
  tl_apply_batch_mut := apply_batch_mut;
  tl_launch := @launch;
|}.

(** The trait's methods at this instance. *)
Lemma then_is_tl {R K} `{Repr R} (u : user_fn T unit R) (then_ : R -> K) t :
  tl_apply_then u then_ t = apply_then u then_ t /\ tl_launch_then u then_ t = launch_then u then_ t.
Proof. done. Qed.

Lemma run_returned {R} (p : prog T R) t t' r :
  run_prog p t = (t', Returned r) -> run p t = Ok (t', Finished (Returned r)).
Proof. unfold run. by intros ->. Qed.

Definition laws `{Repr T} : TrustLaws T T.
Proof.
  refine {| valid := fun s t => s = t; ok_out := fun _ _ _ => True;
            ok_args := fun _ _ _ _ _ _ => True; ok_unit := fun _ => True |}.
  - intros R HR u s t t' r -> _ Hp. eexists. by split; [apply run_returned|].
  - intros V R HR HV u w s t t' r -> _ Hp. eexists. by split; [apply run_returned|].
  - intros R HR u s t t' r -> _ Hp. eexists. by split; [apply run_returned|].
  - intros u n s t t' -> _ _ Hp. exists t'. split; [|done]. simpl. unfold apply_batch_mut.
    by rewrite Hp.
  - intros R HR u s t t' r -> _ Hp. eexists. by split; [apply run_returned|].
  - intros s t ->. by eexists.
Defined.
End local.
End Local.

(** ** [Remote]: a handle on a trustee *)
Module Remote.
(** A handle and the thread that calls through it. *)
Record handle (T : Type) := {
  registrar : Registrar;
  owner : bool;                 (* [_owner.is_some()] *)
  caller : thread;
  state : remote_state (T := T);
}.
Arguments registrar {T} _.
Arguments owner {T} _.
Arguments caller {T} _.
Arguments state {T} _.

Section remote.
Context {T : Type} `{Repr T} (statics : Z -> option (ErasedVTable T)).
(** Address of the vtable of [into_inner]'s closure. *)
Context (into_inner_vt : Z).

Definition set_state (h : handle T) (st : remote_state) : handle T :=
  {| registrar := registrar h; owner := owner h; caller := caller h;
     state := st |}.

(** [f(&mut *trustee_prop)] on the caller's thread. *)
Definition shortcut {R} (run : T -> T * exit R) (h : handle T) : res (handle T * reply R) :=
  match rs_worker (state h) with
  | Some t =>
      let '(t', e) := run t in
      Ok (set_state h {| rs_chan := rs_chan (state h); rs_cp := rs_cp (state h);
                         rs_worker := Some t' |}, Finished e)
  | None => UB "the property is gone"
  end.

(** Delegation, by a caller that is not on the worker's own thread: there the
    worker, which is in the call, makes no visit ([Nested]). *)
Definition delegated {R} (m : remote_state -> res (remote_state * option R)) (h : handle T)
    : res (handle T * reply R) :=
  '(st, o) ← m (state h);
  Ok (set_state h st, match o with Some r => Finished (Returned r) | None => Spinning end).

Definition by_route {R} (route : res route) (direct : T -> T * exit R)
    (m : remote_state -> res (remote_state * option R)) (h : handle T)
    : res (handle T * reply R) :=
  r ← route;
  match r with Shortcut => shortcut direct h | Delegate => delegated m h end.

Definition apply {R} `{Repr R} (u : user_fn T unit R) (h : handle T) : res (handle T * reply R) :=
  by_route (apply_route (registrar h) (caller h)) (run_prog (call u tt))
    (remote_apply statics u) h.
Definition apply_with {V R} `{Repr R} `{Bincode V} (u : user_fn T V R) (w : V) (h : handle T)
    : res (handle T * reply R) :=
  by_route (apply_route (registrar h) (caller h)) (run_prog (call u w))
    (remote_apply_with statics u w) h.
Definition with_ {R} `{Repr R} (u : user_fn T unit R) (h : handle T) : res (handle T * reply R) :=
  by_route (with_route (registrar h) (caller h)) (run_prog (call u tt))
    (remote_with statics u) h.
Definition apply_batch_mut (u : user_fn T unit unit) (n : Z) (h : handle T)
    : res (handle T * reply unit) :=
  by_route (apply_route (registrar h) (caller h)) (repeat_prog (Z.to_nat n) (call u tt))
    (remote_apply_batch_mut statics u n) h.
Definition launch {R} `{Repr R} (u : user_fn T unit R) (h : handle T) : res (handle T * reply R) :=
  by_route (launch_route (registrar h) (caller h)) (run_prog (call u tt))
    (remote_launch statics u) h.
(** The shortcut is not on any route of [into_inner]. *)
Definition into_inner (h : handle T) : res (handle T * reply T) :=
  by_route (into_inner_route (owner h) (registrar h) (caller h)) (fun t => (t, Returned t))
    (remote_into_inner statics into_inner_vt) h.

Definition TrustLike_Remote : TrustLike (handle T) T := {|
  tl_into_inner := into_inner;
  tl_apply := @apply;
  tl_apply_with := @apply_with;
  tl_with := @with_;
  tl_apply_batch_mut := apply_batch_mut;
  tl_launch := @launch;
|}.

(** A handle in the hands of an ordinary client thread. *)
Record client_handle (h : handle T) (t : T) : Prop := {
  ch_ok : remote_ok (state h);
  ch_worker : rs_worker (state h) = Some t;
  ch_owner : owner h = true;
  ch_thread : is_trustee_thread (caller h) = false;
  ch_not_trustee : on_trustee (registrar h) (caller h) = false;
}.

Lemma client_delegates h t :
  client_handle h t ->
  apply_route (registrar h) (caller h) = Ok Delegate /\
  with_route (registrar h) (caller h) = Ok Delegate /\
  into_inner_route (owner h) (registrar h) (caller h) = Ok Delegate.
Proof.
  intros [_ _ Ho Ht Hn]. unfold apply_route, with_route, into_inner_route.
  by rewrite Hn, Ht, Ho.
Qed.

Lemma delegated_answers {R} m h t t' (r : R) :
  client_handle h t -> answers (m (state h)) (t', Returned r) ->
  exists h', delegated m h = Ok (h', Finished (Returned r)) /\ client_handle h' t'.
Proof.
  intros [_ _ Ho Ht Hn] (st' & Hm & Hok & Hw). simpl in Hm, Hw.
  exists (set_state h st'). unfold delegated. rewrite Hm. split; [done|].
  by constructor.
Qed.

Lemma launch_answers {R} `{Repr R} (u : user_fn T unit R) st t t' r :
  remote_ok st -> rs_worker st = Some t -> result_fits R ->
  linked statics u (out_closure u) -> record_fits (out_closure u) [] ->
  run_prog (call u tt) t = (t', Returned r) ->
  answers (remote_launch statics u st) (t', Returned r).
Proof. intros. unfold answers. simpl. by eapply launch_returned. Qed.

Context (Hfits : result_fits T) (Hvt : 0 <= into_inner_vt < usize_modulus)
  (Hlinked : statics into_inner_vt = Some (VTABLE (into_inner_closure T into_inner_vt))).

Definition laws : TrustLaws (handle T) T (H0 := TrustLike_Remote).
Proof.
  refine (Build_TrustLaws (handle T) T _ TrustLike_Remote client_handle
    (fun R HR u => result_fits R /\ linked statics u (out_closure u) /\ record_fits (out_closure u) [])
    (fun V R HR HV u w => result_fits R /\ linked statics u (args_closure u) /\
       record_fits (args_closure u) (serialize w) /\ zlen (serialize w) < 2 ^ 63)
    (fun u => linked statics u (batch_closure u) /\ record_fits (batch_closure u) [])
    _ _ _ _ _ _).
  - intros R HR u h t t' r Hh (Hs & Hl & Hf) Hp. destruct (client_delegates h t Hh) as (Hr & _).
    simpl. unfold apply, by_route. rewrite Hr. eapply delegated_answers; [done|].
    rewrite <-Hp. apply apply_answers; [apply Hh|by eapply ch_worker|done..].
  - intros V R HR HV u w h t t' r Hh (Hs & Hl & Hf & Hz) Hp.
    destruct (client_delegates h t Hh) as (Hr & _).
    simpl. unfold apply_with, by_route. rewrite Hr. eapply delegated_answers; [done|].
    rewrite <-Hp. apply apply_with_answers; [apply Hh|by eapply ch_worker|done..].
  - intros R HR u h t t' r Hh (Hs & Hl & Hf) Hp. destruct (client_delegates h t Hh) as (_ & Hr & _).
    simpl. unfold with_, by_route. rewrite Hr. eapply delegated_answers; [done|].
    rewrite <-Hp. apply with_answers; [apply Hh|by eapply ch_worker|done..].
  - intros u n h t t' Hh (Hl & Hf) Hn Hp. destruct (client_delegates h t Hh) as (Hr & _).
    simpl. unfold apply_batch_mut, by_route. rewrite Hr. eapply delegated_answers; [done|].
    rewrite <-Hp. apply batch_answers; [apply Hh|by eapply ch_worker|done..].
  - intros R HR u h t t' r Hh (Hs & Hl & Hf) Hp.
    simpl. unfold launch, by_route, launch_route. eapply delegated_answers; [done|].
    eapply launch_answers; [apply Hh|by eapply ch_worker|done..].
  - intros h t Hh. destruct (client_delegates h t Hh) as (_ & _ & Hr).
    simpl. unfold into_inner, by_route. rewrite Hr. cbn [mbind res_bind]. unfold delegated.
    destruct (into_inner_answers statics into_inner_vt (state h) t) as (st' & -> & _);
      [apply Hh|by eapply ch_worker|done..|]. by eexists.
Defined.
End remote.
End Remote.

(** ** The wrapper [Trust] *)
Module Wrapper.
Record Trust (S : Type) := { inner : S }.
Arguments inner {S} _.

Section wrapper.
Context {S T : Type} `{TrustLike S T}.

Definition new (s : S) : Trust S := {| inner := s |}.
(** Each method is the inner method on the wrapped value. *)
Definition forward {R} (m : S -> res (S * reply R)) (t : Trust S) : res (Trust S * reply R) :=
  '(s, r) ← m (inner t); Ok (new s, r).

#[export] Instance TrustLike_Trust : TrustLike (Trust S) T := {|
  tl_into_inner := forward tl_into_inner;
  tl_apply := fun _ _ u => forward (tl_apply u);
  tl_apply_with := fun _ _ _ _ u w => forward (tl_apply_with u w);
  tl_with := fun _ _ u => forward (tl_with u);
  tl_apply_batch_mut := fun u n => forward (tl_apply_batch_mut u n);
  tl_launch := fun _ _ u => forward (tl_launch u);
|}.

Lemma forward_law {R} (m : S -> res (S * reply R)) (P : S -> Prop) t r :
  (exists s', m (inner t) = Ok (s', r) /\ P s') ->
  exists t', forward m t = Ok (t', r) /\ P (inner t').
Proof. intros (s' & He & Hp). exists (new s'). unfold forward. by rewrite He. Qed.

(** The wrapper promises what its implementation promises. *)
Definition laws `{Repr T} (L : TrustLaws S T) : TrustLaws (Trust S) T.
Proof.
  refine (Build_TrustLaws (Trust S) T _ TrustLike_Trust (fun w t => valid (inner w) t)
    (fun R HR u => ok_out u) (fun V R HR HV u w => ok_args u w) (fun u => ok_unit u) _ _ _ _ _ _);
    intros; simpl.
  - eapply (forward_law _ (fun x => valid x _)), law_apply; eauto.
  - eapply (forward_law _ (fun x => valid x _)), law_apply_with; eauto.
  - eapply (forward_law _ (fun x => valid x _)), law_with; eauto.
  - eapply (forward_law _ (fun x => valid x _)), law_batch; eauto.
  - eapply (forward_law _ (fun x => valid x _)), law_launch; eauto.
  - destruct (law_into_inner (inner s) t) as (s' & He); [done|].
    exists (new s'). unfold forward. by rewrite He.
Defined.
End wrapper.
End Wrapper.

(** ** Programs written against the interface *)

(** What a client does with one handle: a sequence of calls, each chosen from
    the results of the earlier ones. *)
Inductive client (T A : Type) : Type :=
| CRet (a : A)
| CApply (R : Type) (HR : Repr R) (u : user_fn T unit R) (k : R -> client T A)
| CApplyWith (V R : Type) (HR : Repr R) (HV : Bincode V) (u : user_fn T V R) (w : V)
    (k : R -> client T A)
| CWith (R : Type) (HR : Repr R) (u : user_fn T unit R) (k : R -> client T A)
| CBatch (u : user_fn T unit unit) (n : Z) (k : client T A)
| CLaunch (R : Type) (HR : Repr R) (u : user_fn T unit R) (k : R -> client T A)
| CIntoInner (k : T -> A).
Arguments CRet {T A} a.
Arguments CApply {T A R HR} u k.
Arguments CApplyWith {T A V R HR HV} u w k.
Arguments CWith {T A R HR} u k.
Arguments CBatch {T A} u n k.
Arguments CLaunch {T A R HR} u k.
Arguments CIntoInner {T A} k.

(** A call and what follows it; nothing follows a panic or a spin. *)
Definition and_then {S R A} (m : res (S * reply R)) (k : R -> S -> res (S * reply A))
    : res (S * reply A) :=
  '(s, r) ← m;
  match r with
  | Finished (Returned x) => k x s
  | Finished Panicked => Ok (s, Finished Panicked)
  | Spinning => Ok (s, Spinning)
  end.

Fixpoint run_client {S T A} `{TrustLike S T} (c : client T A) (s : S) : res (S * reply A) :=
  match c with
  | CRet a => Ok (s, Finished (Returned a))
  | CApply u k => and_then (tl_apply u s) (fun x => run_client (k x))
  | CApplyWith u w k => and_then (tl_apply_with u w s) (fun x => run_client (k x))
  | CWith u k => and_then (tl_with u s) (fun x => run_client (k x))
  | CBatch u n k => and_then (tl_apply_batch_mut u n s) (fun _ => run_client k)
  | CLaunch u k => and_then (tl_launch u s) (fun x => run_client (k x))
  | CIntoInner k => and_then (tl_into_inner s) (fun x s => Ok (s, Finished (Returned (k x))))
  end.

(** What the program means: its closures, run one after the other on the
    property; [ok_*] says that the implementation can carry each closure.  The
    boolean says whether the handle is still there at the end. *)
Inductive runs {S T A} `{TrustLaws S T} : client T A -> T -> T -> bool -> A -> Prop :=
| RunsRet a t : runs (CRet a) t t true a
| RunsApply R (HR : Repr R) (u : user_fn T unit R) k t t1 x t' b a :
    ok_out u -> run_prog (call u tt) t = (t1, Returned x) -> runs (k x) t1 t' b a ->
    runs (CApply u k) t t' b a
| RunsApplyWith V R (HR : Repr R) (HV : Bincode V) (u : user_fn T V R) w k t t1 x t' b a :
    ok_args u w -> run_prog (call u w) t = (t1, Returned x) -> runs (k x) t1 t' b a ->
    runs (CApplyWith u w k) t t' b a
| RunsWith R (HR : Repr R) (u : user_fn T unit R) k t t1 x t' b a :
    ok_out u -> run_prog (call u tt) t = (t1, Returned x) -> runs (k x) t1 t' b a ->
    runs (CWith u k) t t' b a
| RunsBatch (u : user_fn T unit unit) n k t t1 t' b a :
    ok_unit u -> 0 <= n < 2 ^ 8 ->
    repeat_prog (Z.to_nat n) (call u tt) t = (t1, Returned tt) -> runs k t1 t' b a ->
    runs (CBatch u n k) t t' b a
| RunsLaunch R (HR : Repr R) (u : user_fn T unit R) k t t1 x t' b a :
    ok_out u -> run_prog (call u tt) t = (t1, Returned x) -> runs (k x) t1 t' b a ->
    runs (CLaunch u k) t t' b a
| RunsIntoInner k t : runs (CIntoInner k) t t false (k t).

Lemma run_client_lawful {S T A} `{L : TrustLaws S T} (c : client T A) t t' b a :
  runs c t t' b a -> forall s, valid s t ->
  exists s', run_client c s = Ok (s', Finished (Returned a)) /\ (b = true -> valid s' t').
Proof.
  induction 1; intros s Hs; simpl.
  - by eexists.
  - edestruct law_apply as (s1 & -> & Hs1); [done..|]. simpl. eauto.
  - edestruct law_apply_with as (s1 & -> & Hs1); [done..|]. simpl. eauto.
  - edestruct law_with as (s1 & -> & Hs1); [done..|]. simpl. eauto.
  - edestruct law_batch as (s1 & -> & Hs1); [done..|]. simpl. eauto.
  - edestruct law_launch as (s1 & -> & Hs1); [done..|]. simpl. eauto.
  - edestruct law_into_inner as (s1 & ->); [done..|]. simpl. by eexists.
Qed.

(** A program that one implementation can carry, a laxer one can as well. *)
Lemma runs_local {S T A} `{L : TrustLaws S T} (c : client T A) t t' b a :
  runs c t t' b a -> runs (H1 := Local.laws) c t t' b a.
Proof. induction 1; econstructor; eauto; exact I. Qed.

Lemma wrapped_runs {S T A} `{L : TrustLaws S T} (c : client T A) t t' b a :
  runs c t t' b a -> runs (H1 := Wrapper.laws L) c t t' b a.
Proof. induction 1; econstructor; eauto. Qed.

(** ** Properties *)
Section properties.
Context {T : Type} `{Repr T} (statics : Z -> option (ErasedVTable T)) (into_inner_vt : Z).

(** C19: [Trust<Remote<T>>] implements the sequential specification, and so
    cannot be told from [Trust<Local<T>>], for a client program whose closures
    return and whose records and results fit the slots ([runs]), on a handle
    that owns its runtime and is called from a thread that is no trustee
    ([client_handle]): over delegation it gets the answers of running its
    closures one after the other on the property, which are also those of the
    local implementation.  (A closure that panics tells them apart: it unwinds
    to a local caller and leaves a remote one waiting.) *)
Theorem remote_refines_local {A} (c : client T A) (h : Remote.handle T) (t t' : T)
    (alive : bool) (a : A)
    (Hfits : result_fits T) (Hvt : 0 <= into_inner_vt < usize_modulus)
    (Hlinked : statics into_inner_vt = Some (VTABLE (into_inner_closure T into_inner_vt))) :
  Remote.client_handle h t ->
  runs (H1 := Remote.laws statics into_inner_vt Hfits Hvt Hlinked) c t t' alive a ->
  (exists h',
     run_client (H := Wrapper.TrustLike_Trust (H := Remote.TrustLike_Remote statics into_inner_vt))
       c (Wrapper.new h) = Ok (Wrapper.new h', Finished (Returned a)) /\
     (alive = true -> Remote.client_handle h' t')) /\
  (exists l,
     run_client (H := Wrapper.TrustLike_Trust (H := Local.TrustLike_Local))
       c (Wrapper.new t) = Ok (Wrapper.new l, Finished (Returned a)) /\
     (alive = true -> l = t')).
Proof.
  intros Hh Hr. split.
  - destruct (run_client_lawful (L := Wrapper.laws (Remote.laws statics into_inner_vt Hfits Hvt Hlinked))
                c t t' alive a (wrapped_runs _ _ _ _ _ Hr) (Wrapper.new h) Hh)
      as ([h'] & He & Hv). by exists h'.
  - destruct (run_client_lawful (L := Wrapper.laws Local.laws) c t t' alive a
                (wrapped_runs _ _ _ _ _ (runs_local _ _ _ _ _ Hr)) (Wrapper.new t) eq_refl)
      as ([l] & He & Hv). by exists l.
Qed.

(** [m] on the property of [h], with the channel left alone. *)
Definition in_place {R} (h : Remote.handle T) (m : res (T * reply R)) : res (Remote.handle T * reply R) :=
  '(t, r) ← m;
  Ok (Remote.set_state h {| rs_chan := rs_chan (Remote.state h); rs_cp := rs_cp (Remote.state h);
                            rs_worker := Some t |}, r).

(** On the thread of its own trustee a handle takes the shortcut in
    [apply], [apply_with], [with] and [apply_batch_mut]: the call is the
    local implementation's call on the property, panics included, and the
    channel is not touched. *)
Theorem shortcut_is_local (h : Remote.handle T) (t : T) :
  on_trustee (Remote.registrar h) (Remote.caller h) = true ->
  rs_worker (Remote.state h) = Some t ->
  (forall R (HR : Repr R) (u : user_fn T unit R),
     Remote.apply statics u h = in_place h (Local.apply u t) /\
     Remote.with_ statics u h = in_place h (Local.with_ u t)) /\
  (forall V R (HV : Bincode V) (HR : Repr R) (u : user_fn T V R) w,
     Remote.apply_with statics u w h = in_place h (Local.apply_with u w t)) /\
  (forall u n, Remote.apply_batch_mut statics u n h = in_place h (Local.apply_batch_mut u n t)).
Proof.
  intros Hon Hw.
  assert (Hs : forall R (run : T -> T * exit R),
    Remote.shortcut run h = in_place h (let '(t', e) := run t in Ok (t', Finished e))).
  { intros R run. unfold Remote.shortcut. rewrite Hw. by destruct (run t). }
  unfold Remote.apply, Remote.apply_with, Remote.with_, Remote.apply_batch_mut, Remote.by_route,
    apply_route, with_route. rewrite Hon. cbn [mbind res_bind].
  split_and!; intros; try split; apply Hs.
Qed.

(** On the thread of another trustee the blocking calls panic before
    they touch the channel, [apply_then] included although the message
    recommends it; [with] delegates unchecked. *)
Theorem calls_on_trustee_threads (h : Remote.handle T) :
  is_trustee_thread (Remote.caller h) = true ->
  on_trustee (Remote.registrar h) (Remote.caller h) = false ->
  (forall R (HR : Repr R) (u : user_fn T unit R) K (k : R -> K),
     Remote.apply statics u h = Panic prohibited /\
     tl_apply_then (H := Remote.TrustLike_Remote statics into_inner_vt) u k h = Panic prohibited /\
     Remote.with_ statics u h = Remote.delegated (remote_with statics u) h) /\
  (forall V R (HV : Bincode V) (HR : Repr R) (u : user_fn T V R) w,
     Remote.apply_with statics u w h = Panic prohibited) /\
  (forall u n, Remote.apply_batch_mut statics u n h = Panic prohibited) /\
  Remote.into_inner statics into_inner_vt h = Panic prohibited.
Proof.
  intros Ht Hon. unfold tl_apply_then. simpl.
  unfold Remote.apply, Remote.apply_with, Remote.with_, Remote.apply_batch_mut, Remote.into_inner,
    Remote.by_route, apply_route, with_route, into_inner_route. by rewrite Ht, Hon.
Qed.
End properties.

(** ** Example handles on the byte counter of [Delegation] *)
Module Handles.
Import Counter.

Definition make (self : Z) (trustee : bool) : Remote.handle Byte.byte :=
  {| Remote.registrar := {| trustee_id := 7; trustee_prop := 4096 |}; Remote.owner := true;
     Remote.caller := {| thread_id := self; is_trustee_thread := trustee |};
     Remote.state := st0 |}.

(** Add 3, then increment twice, then take the property out. *)
Definition program : client Byte.byte (Byte.byte * Byte.byte) :=
  CApply (adder 3) (fun x => CBatch incr 2 (CIntoInner (fun t => (x, t)))).

Lemma vt_ok : 0 <= 24576 < usize_modulus. Proof. done. Qed.

Lemma program_runs :
  runs (H1 := Remote.laws statics 24576 u8_fits vt_ok eq_refl) program
    Byte.x05 Byte.x0a false (Byte.x08, Byte.x0a).
Proof.
  eapply RunsApply; [|reflexivity|].
  { split; [exact u8_fits|]. split; [exact adder_linked|reflexivity]. }
  eapply RunsBatch; [|lia|reflexivity|].
  { split; [exact incr_linked|reflexivity]. }
  apply (RunsIntoInner (fun t => (Byte.x08, t))).
Qed.

Lemma client : Remote.client_handle (make 3 false) Byte.x05.
Proof. constructor; try done. Qed.
End Handles.

Lemma remote_refines_local_witness :
  (exists h',
     run_client (H := Wrapper.TrustLike_Trust (H := Remote.TrustLike_Remote Counter.statics 24576))
       Handles.program (Wrapper.new (Handles.make 3 false))
     = Ok (Wrapper.new h', Finished (Returned (Byte.x08, Byte.x0a))) /\
     (false = true -> Remote.client_handle h' Byte.x0a)) /\
  (exists l,
     run_client (H := Wrapper.TrustLike_Trust (H := Local.TrustLike_Local))
       Handles.program (Wrapper.new Byte.x05)
     = Ok (Wrapper.new l, Finished (Returned (Byte.x08, Byte.x0a))) /\
     (false = true -> l = Byte.x0a)).
Proof.
  exact (remote_refines_local Counter.statics 24576 Handles.program (Handles.make 3 false)
           Byte.x05 Byte.x0a false (Byte.x08, Byte.x0a) Counter.u8_fits Handles.vt_ok eq_refl
           Handles.client Handles.program_runs).
Defined.

(** The trustee's own thread has id 7. *)
Lemma shortcut_is_local_witness :
  Remote.apply Counter.statics (Counter.adder 3) (Handles.make 7 true) =
  in_place (Handles.make 7 true) (Ok (Byte.x08, Finished (Returned Byte.x08))).
Proof.
  exact (proj1 (proj1 (shortcut_is_local Counter.statics (Handles.make 7 true) Byte.x05
                         eq_refl eq_refl) Byte.byte _ (Counter.adder 3))).
Defined.

(** Thread 9 hosts another trustee. *)
Lemma calls_on_trustee_threads_witness :
  Remote.apply Counter.statics (Counter.adder 3) (Handles.make 9 true) = Panic prohibited.
Proof.
  exact (proj1 (proj1 (calls_on_trustee_threads Counter.statics 24576 (Handles.make 9 true)
           eq_refl eq_refl) Byte.byte _ (Counter.adder 3) Byte.byte (fun x => x))).
Defined.
