(* ===== verification/Ints.v ===== *)
(** * Ints: machine integers as property and result types

    An integer type of Rust is its range, with the bytes the slots carry: two's
    complement, little endian.  Arithmetic wraps or panics with the compiler's
    overflow checks. *)
From S2P Require Import Prelude Serialization Remote.
Local Open Scope Z_scope.

Definition int_size (bytes : nat) : Z := 256 ^ Z.of_nat bytes.
Definition int_lo (signed : bool) (bytes : nat) : Z := if signed then - (int_size bytes / 2) else 0.
Definition in_int (signed : bool) (bytes : nat) (z : Z) : Prop :=
  int_lo signed bytes <= z < int_lo signed bytes + int_size bytes.

Lemma in_i64 z : in_int true 8 z <-> - 2 ^ 63 <= z < 2 ^ 63.
Proof. reflexivity. Qed.
Lemma in_u64 z : in_int false 8 z <-> 0 <= z < 2 ^ 64.
Proof. reflexivity. Qed.

#[export] Instance in_int_dec s n z : Decision (in_int s n z).
Proof. unfold in_int. apply _. Defined.

Record int (s : bool) (n : nat) := Int { int_val : Z; int_range : bool_decide (in_int s n int_val) }.
Arguments int_val {s n} _.

Notation i32 := (int true 4).
Notation i64 := (int true 8).
Notation u8 := (int false 1).
Notation u32 := (int false 4).
Notation u64 := (int false 8).
Notation usize := (int false 8).

Section ints.
Context {s : bool} {n : nat}.
Implicit Types (a b : int s n).

Lemma int_size_pos m : 0 < int_size m.
Proof. unfold int_size. lia. Qed.

Lemma int_in a : in_int s n (int_val a).
Proof. destruct a as [z Hz]. exact (bool_decide_unpack _ Hz). Qed.

Lemma int_eq a b : int_val a = int_val b -> a = b.
Proof. destruct a as [x Hx], b as [y Hy]. simpl. intros He. subst y. f_equal. apply proof_irrel. Qed.

#[export] Instance int_eq_dec : EqDecision (int s n).
Proof.
  intros a b. destruct (decide (int_val a = int_val b)) as [He|He]; [left; by apply int_eq|right; by intros ->].
Defined.

(** [z as _]: the residue in range. *)
Definition residue (z : Z) : Z := (z - int_lo s n) mod int_size n + int_lo s n.
Lemma residue_in z : in_int s n (residue z).
Proof.
  unfold in_int, residue. pose proof (Z.mod_pos_bound (z - int_lo s n) (int_size n) (int_size_pos n)). lia.
Qed.
Definition wrap (z : Z) : int s n := Int s n (residue z) (bool_decide_pack _ (residue_in z)).

Lemma residue_small z : in_int s n z -> residue z = z.
Proof. unfold in_int, residue. intros Hz. rewrite Z.mod_small by lia. lia. Qed.
Lemma wrap_val z : in_int s n z -> int_val (wrap z) = z.
Proof. apply residue_small. Qed.
Lemma wrap_int a : wrap (int_val a) = a.
Proof. apply int_eq, wrap_val, int_in. Qed.
Lemma wrap_mod z : wrap (z mod int_size n) = wrap z.
Proof.
  apply int_eq. simpl. unfold residue. f_equal.
  rewrite Zminus_mod, Z.mod_mod by (pose proof (int_size_pos n); lia). by rewrite <-Zminus_mod.
Qed.

(** [a + k]. *)
Definition add (checks : bool) a (k : Z) : exit (int s n) :=
  if decide (in_int s n (int_val a + k)) then Returned (wrap (int_val a + k))
  else if checks then Panicked else Returned (wrap (int_val a + k)).

(** [*a += k] on the property. *)
Definition add_assign (checks : bool) (k : Z) a : int s n * exit unit :=
  match add checks a k with Returned b => (b, Returned tt) | Panicked => (a, Panicked) end.

Lemma add_small checks a k : in_int s n (int_val a + k) -> add checks a k = Returned (wrap (int_val a + k)).
Proof. intros Hk. unfold add. by rewrite decide_True. Qed.
Lemma add_assign_small checks k a :
  in_int s n (int_val a + k) -> add_assign checks k a = (wrap (int_val a + k), Returned tt).
Proof. intros Hk. unfold add_assign. by rewrite add_small. Qed.
End ints.

(** [a as u64], from [i64] or any other integer type. *)
Definition cast {s n s' n'} (a : int s n) : int s' n' := wrap (int_val a).

#[export] Instance Repr_int s n : Repr (int s n).
Proof.
  refine {| size_of := Z.of_nat n;
            to_bytes := fun a => le_bytes n (int_val a mod int_size n);
            of_bytes := fun bs => if decide (length bs = n) then Some (wrap (le_val bs)) else None |}.
  - intros a. unfold zlen. by rewrite length_le_bytes.
  - intros a. rewrite length_le_bytes, decide_True by done. rewrite le_val_bytes.
    + by rewrite wrap_mod, wrap_int.
    + apply Z.mod_pos_bound, int_size_pos.
Defined.


(** A closure that captures nothing, or a function item: zero-sized. *)
Definition fn_item {T A R} (vt : Z) (body : A -> prog T R) : user_fn T A R :=
  {| u_size := 0; u_align := 1; u_env := []; u_body := fun _ => body; u_vtable := vt |}.

Lemma call_fn_item {T A R} vt (body : A -> prog T R) a : call (fn_item vt body) a = body a.
Proof. done. Qed.
