(* ===== verification/Captures.v ===== *)
(** * Captures: closures that own what they capture
    ([src/runtime/serialization.rs], [examples/bincode.rs])

    A captured value is more than its bytes: it may own memory, and dropping it
    has an effect.  Here [encode_closure], [decode_and_call] and the two entries
    of the vtable are followed with the state on which closures and their drops
    act: who runs a closure's code or its drop, when, and how often.  The
    example whose closure consumes a [String] runs on a heap. *)
From S2P Require Import Prelude Slots Serialization Remote Ints.
Import header.
Local Open Scope Z_scope.

(** ** Closures with drops *)
Section moves.
(** What closures act on, their arguments and results. *)
Context {S A R : Type}.
Implicit Types (s : S) (w : SlotWriter) (mem f bytes : list Z) (hdr : RequestRecordHeader).

(** A type [F: FnOnce(A) -> R]: its layout, its code and its drop glue, both on
    the captured bytes, and the address of its vtable. *)
Record fn_type := {
  fn_size : Z;
  fn_align : Z;
  fn_code : list Z -> A -> S -> res (S * R);
  fn_drop : list Z -> S -> res S;
  fn_vtable : Z;
}.

(** What [encode_closure] looks at. *)
Definition shape (F : fn_type) : closure_type unit :=
  {| f_size := fn_size F; f_align := fn_align F; f_run := FnMut1 (fun _ => PRet ()); f_vtable := fn_vtable F |}.

(** [ErasedVTable<Args, Ret>]: the functions take the slot, its address and
    the env pointer. *)
Record ErasedVTable := {
  call_once_in_place : list Z -> Z -> Z -> A -> S -> res (S * R);
  drop_in_place : list Z -> Z -> Z -> S -> res S;
  env_align : Z;
  env_size : Z;
}.

(** [ptr::read(env.cast::<F>())]. *)
Definition move_out (F : fn_type) mem (base env : Z) : res (list Z) :=
  res_of_option "env read out of the slot" (read_at mem (env - base) (fn_size F)).

Definition call_once_shim (F : fn_type) mem (base env : Z) (args : A) s : res (S * R) :=
  if fn_size F =? 0 then fn_code F [] args s
  else f ← move_out F mem base env; fn_code F f args s.

Definition drop_shim (F : fn_type) mem (base env : Z) s : res S :=
  if negb (fn_size F =? 0) then f ← move_out F mem base env; fn_drop F f s else Ok s.

Definition VTABLE (F : fn_type) : ErasedVTable :=
  {| call_once_in_place := call_once_shim F; drop_in_place := drop_shim F;
     env_align := as_u32 (fn_align F); env_size := as_u32 (fn_size F) |}.

(** [encode_closure], and what it leaves of the program's state.  [f] has been
    moved once [ptr::write] is reached; if it is not, because the env does not
    fit or [F] is zero-sized, it is dropped at the end of the function, be it
    reached by returning or by unwinding. *)
Definition encode_closure w mem (pp : PropertyPtr) (F : fn_type) f bytes s
    : res (RequestRecordHeader * SlotWriter * list Z) * res S :=
  (Serialization.encode_closure w mem pp (shape F) f bytes,
   match alloc_aligned w (fn_size F) (fn_align F) with
   | Ok _ => if negb (fn_size F =? 0) then Ok s else fn_drop F f s
   | _ => fn_drop F f s
   end).

(** The static vtables of the program. *)
Context (statics : Z -> option ErasedVTable).

Definition decode_and_call mem (base : Z) hdr (args : A) s : res (S * R) :=
  vt ← res_of_option "dangling vtable" (statics (vtable (closure hdr)));
  call_once_in_place vt mem base (data (closure hdr)) args s.

(** [(vt.drop_in_place)(env_ptr)], what a trustee has to do with a record it
    does not execute. *)
Definition discard mem (base : Z) hdr s : res S :=
  vt ← res_of_option "dangling vtable" (statics (vtable (closure hdr)));
  drop_in_place vt mem base (data (closure hdr)) s.

(** ** Where the closure is *)

(** The header leads to [f]. *)
Definition holds_env mem (base : Z) hdr (F : fn_type) f : Prop :=
  statics (vtable (closure hdr)) = Some (VTABLE F) /\
  if fn_size F =? 0 then f = [] else read_at mem (data (closure hdr) - base) (fn_size F) = Some f.

Lemma decode_runs mem base hdr F f args s :
  holds_env mem base hdr F f -> decode_and_call mem base hdr args s = fn_code F f args s.
Proof.
  intros [Hv Hf]. unfold decode_and_call. rewrite Hv. cbn. unfold call_once_shim, move_out.
  destruct (fn_size F =? 0); [by subst|by rewrite Hf].
Qed.

Lemma discard_drops mem base hdr F f s :
  holds_env mem base hdr F f ->
  discard mem base hdr s = if fn_size F =? 0 then Ok s else fn_drop F f s.
Proof.
  intros [Hv Hf]. unfold discard. rewrite Hv. cbn. unfold drop_shim, move_out.
  destruct (fn_size F =? 0); [done|by rewrite Hf].
Qed.

(** Encoding leads there, whatever is written below the payload. *)
Lemma encode_holds w mem pp F f bytes hdr w' mem' mem'' s m :
  writer_ok w mem -> closure_ok (shape F) -> zlen f = fn_size F -> zlen bytes < 2 ^ 63 ->
  statics (fn_vtable F) = Some (VTABLE F) ->
  encode_closure w mem pp F f bytes s = (Ok (hdr, w', mem'), m) ->
  (forall o n, cursor w <= o -> read_at mem'' o n = read_at mem' o n) ->
  holds_env mem'' (base w) hdr F f.
Proof.
  intros Hw HF Hf Hz Hv He Hsame. injection He as He _.
  destruct (encode_closure_inv _ _ _ _ _ _ _ _ _ Hw HF Hf Hz He)
    as (envo & argo & [Hge _] & _ & -> & _ & _ & _ & Hr & _).
  split; [done|]. cbn. destruct (Z.eqb_spec (fn_size F) 0) as [E|E].
  - rewrite E in Hf. unfold zlen in Hf. destruct f; [done|simpl in Hf; lia].
  - replace (base w + envo - base w) with envo by lia. rewrite Hsame by lia. by apply Hr.
Qed.

(** Whether the env fits, whatever the arguments. *)
Definition env_fits w (F : fn_type) : bool :=
  next_boundary_offset (cursor w) (fn_size F) (fn_align F) + fn_size F <=? len w.

Lemma encode_state w mem pp F f bytes s :
  writer_ok w mem -> closure_ok (shape F) ->
  (encode_closure w mem pp F f bytes s).2 =
  if env_fits w F && negb (fn_size F =? 0) then Ok s else fn_drop F f s.
Proof.
  intros Hw HF. destruct (closure_ok_align _ HF) as (k & Hk & _ & Hmax). destruct HF as (Hsz & _ & _).
  destruct (alloc_aligned_spec w mem (fn_size F) (fn_align F) k Hw Hsz Hmax Hk) as [_ Hal].
  unfold encode_closure, env_fits. rewrite Hal. by destruct (_ <=? len w).
Qed.
End moves.
Arguments fn_type S A R : clear implicits.
Arguments ErasedVTable S A R : clear implicits.

(** ** Properties *)
Section properties.
Context {S A R : Type} (statics : Z -> option (ErasedVTable S A R)).

(** C32: what becomes of a captured value that takes room.  An encoding that
    succeeds moves it into the slot without touching anything; then, whatever
    is written below the payload, decoding runs the closure's code on the value
    itself, and the vtable's drop entry drops that value: each of them as often
    as it is asked to, so exactly one of them has to be, once.  An encoding
    that fails for lack of room drops the value while unwinding if the env did
    not fit, and leaks it if only the arguments did not. *)
Theorem captures_move_once (w : SlotWriter) (mem mem'' : list Z) (pp : PropertyPtr)
    (F : fn_type S A R) (f bytes : list Z) (args : A) (s s' : S)
    (Hw : writer_ok w mem) (HF : closure_ok (shape F)) (Hf : zlen f = fn_size F)
    (Hz : zlen bytes < 2 ^ 63) (Hv : statics (fn_vtable F) = Some (VTABLE F)) (Hsize : fn_size F <> 0) :
  match encode_closure w mem pp F f bytes s with
  | (Ok (hdr, w', mem'), m) =>
      m = Ok s /\
      ((forall o n, cursor w <= o -> read_at mem'' o n = read_at mem' o n) ->
       decode_and_call statics mem'' (base w) hdr args s' = fn_code F f args s' /\
       discard statics mem'' (base w) hdr s' = fn_drop F f s')
  | (Panic _, m) => m = if env_fits w F then Ok s else fn_drop F f s
  | (UB _, _) => False
  end.
Proof.
  pose proof (encode_state w mem pp F f bytes s Hw HF) as Hst.
  pose proof (encode_closure_cases w mem pp (shape F) f bytes Hw HF Hf Hz) as Hcases.
  apply Z.eqb_neq in Hsize as Hne. rewrite Hne, andb_true_r in Hst.
  destruct (encode_closure w mem pp F f bytes s) as [r m] eqn:He. cbn in Hst. subst m.
  pose proof (f_equal fst He) as Hr. cbn in Hr. rewrite Hr in Hcases.
  destruct r as [[[hdr w'] mem']|why|why].
  - split.
    + destruct (env_fits w F) eqn:Hfits; [done|]. exfalso.
      unfold encoding_fits in Hcases. unfold env_fits in Hfits. cbn in Hcases, Hfits.
      by rewrite Hfits in Hcases.
    + intros Hsame. pose proof (encode_holds statics _ _ _ _ _ _ _ _ _ _ _ _ Hw HF Hf Hz Hv He Hsame) as Hh.
      rewrite (decode_runs _ _ _ _ F f _ _ Hh), (discard_drops _ _ _ _ F f _ Hh), Hne. done.
  - done.
  - destruct (encoding_fits _ _ _); [by destruct Hcases|done].
Qed.

(** C38: a zero-sized closure is dropped by [encode_closure] and executed all
    the same.  Whatever it captures is dropped on the client's thread when it
    is encoded, before anybody has called it; decoding then conjures it and
    runs its code, which moves the captured values once more, while the
    vtable's drop entry does nothing.  Only a closure whose drop does nothing
    is used once. *)
Theorem zero_sized_dropped_early (w : SlotWriter) (mem mem'' : list Z) (pp : PropertyPtr)
    (F : fn_type S A R) (bytes : list Z) (args : A) (s s' : S)
    (Hw : writer_ok w mem) (HF : closure_ok (shape F))
    (Hz : zlen bytes < 2 ^ 63) (Hv : statics (fn_vtable F) = Some (VTABLE F)) (Hsize : fn_size F = 0) :
  match encode_closure w mem pp F [] bytes s with
  | (Ok (hdr, w', mem'), m) =>
      m = fn_drop F [] s /\
      ((forall o n, cursor w <= o -> read_at mem'' o n = read_at mem' o n) ->
       decode_and_call statics mem'' (base w) hdr args s' = fn_code F [] args s' /\
       discard statics mem'' (base w) hdr s' = Ok s')
  | (Panic _, m) => m = fn_drop F [] s
  | (UB _, _) => False
  end.
Proof.
  assert (Hf : zlen (@nil Z) = fn_size F) by (by rewrite Hsize).
  pose proof (encode_state w mem pp F [] bytes s Hw HF) as Hst.
  pose proof (encode_closure_cases w mem pp (shape F) [] bytes Hw HF Hf Hz) as Hcases.
  apply Z.eqb_eq in Hsize as Heq. rewrite Heq, andb_false_r in Hst.
  destruct (encode_closure w mem pp F [] bytes s) as [r m] eqn:He. cbn in Hst. subst m.
  pose proof (f_equal fst He) as Hr. cbn in Hr. rewrite Hr in Hcases.
  destruct r as [[[hdr w'] mem']|why|why]; [|done|destruct (encoding_fits _ _ _); [by destruct Hcases|done]].
  split; [done|]. intros Hsame.
  pose proof (encode_holds statics _ _ _ _ _ _ _ _ _ _ _ _ Hw HF Hf Hz Hv He Hsame) as Hh.
  by rewrite (decode_runs _ _ _ _ F [] _ _ Hh), (discard_drops _ _ _ _ F [] _ Hh), Heq.
Qed.
End properties.

(** ** Strings on a heap *)

(** The live allocations, with their initialised bytes. *)
Notation heap := (gmap Z (list Z)).

Record RString := { str_ptr : usize; str_cap : usize; str_len : usize }.

Definition bytes_of (x : string) : list Z :=
  (fun c => Z.of_N (Ascii.N_of_ascii c)) <$> String.list_ascii_of_string x.

(** The global allocator: where a new block lies, if there is room, and where
    a block lies that has grown; it may have moved. *)
Record allocator := {
  al_fresh : heap -> Z -> option usize;
  al_grow : heap -> usize -> Z -> option usize;
  al_fresh_free : forall h n p, al_fresh h n = Some p -> h !! int_val p = None;
  al_grow_free : forall h p n g, al_grow h p n = Some g -> g = p \/ h !! int_val g = None;
}.

(** Without room the program aborts. *)
Definition allocated {X} (o : option X) : res X :=
  match o with Some p => Ok p | None => Panic "memory allocation failed" end.

Section strings.
Context (al : allocator).
Implicit Types (h : heap) (x : RString) (bs : list Z).

(** The block behind a string; an empty one has none. *)
Definition block x h : res (list Z) :=
  if int_val (str_cap x) =? 0 then Ok [] else res_of_option "use after free" (h !! int_val (str_ptr x)).

Definition string_from bs h : res (heap * RString) :=
  if zlen bs =? 0 then Ok (h, {| str_ptr := wrap 1; str_cap := wrap 0; str_len := wrap 0 |})
  else
    p ← allocated (al_fresh al h (zlen bs));
    Ok (<[int_val p := bs]> h, {| str_ptr := p; str_cap := wrap (zlen bs); str_len := wrap (zlen bs) |}).

Definition string_drop x h : res heap :=
  if int_val (str_cap x) =? 0 then Ok h
  else _ ← res_of_option "double free" (h !! int_val (str_ptr x)); Ok (delete (int_val (str_ptr x)) h).

Definition string_read x h : res (list Z) := bs ← block x h; Ok (take (Z.to_nat (int_val (str_len x))) bs).

(** [push_str]: amortised growth, at least doubling, at least eight bytes. *)
Definition push_str x bs h : res (heap * RString) :=
  let n := int_val (str_len x) in
  old ← string_read x h;
  if zlen bs <=? int_val (str_cap x) - n
  then Ok (<[int_val (str_ptr x) := old ++ bs]> h,
           {| str_ptr := str_ptr x; str_cap := str_cap x; str_len := wrap (n + zlen bs) |})
  else
    let cap := Z.max 8 (Z.max (2 * int_val (str_cap x)) (n + zlen bs)) in
    if 2 ^ 63 <=? cap then Panic "capacity overflow" else
    p ← allocated (if int_val (str_cap x) =? 0 then al_fresh al h cap else al_grow al h (str_ptr x) cap);
    let h := if int_val (str_cap x) =? 0 then h else delete (int_val (str_ptr x)) h in
    Ok (<[int_val p := old ++ bs]> h, {| str_ptr := p; str_cap := wrap cap; str_len := wrap (n + zlen bs) |}).
End strings.

(** ** [examples/bincode.rs] *)
Section example.
Context (al : allocator) `{Repr RString} (statics : Z -> option (ErasedVTable heap unit RString)) (closure_vt : Z).
Implicit Types (h : heap) (env : list Z) (hdr : RequestRecordHeader).

(** [move |_| msg + " world"]. *)
Definition appender : fn_type heap unit RString :=
  {| fn_size := size_of RString; fn_align := 8;
     fn_code := fun env _ h => msg ← res_of_option "not a String" (of_bytes env); push_str al msg (bytes_of " world") h;
     fn_drop := fun env h => msg ← res_of_option "not a String" (of_bytes env); string_drop msg h;
     fn_vtable := closure_vt |}.

(** The client's half: from the slot's address to the header and the slot. *)
Definition client_side (addr : Z) h : res (RequestRecordHeader * list Z * heap) :=
  '(h, msg) ← string_from al (bytes_of "hello") h;
  let buf := replicate (Z.to_nat SLOT_BYTES) 0 in
  let '(r, m) := encode_closure (SlotWriter_new addr SLOT_BYTES) buf CallMutRetUnit appender (to_bytes msg) [] h in
  '(hdr, _, mem) ← r;
  h ← m;
  Ok (hdr, mem, h).

(** [println!("Result: {}", result)] and the end of [main]. *)
Definition print_result (result : RString) h : res (heap * list Z) :=
  text ← string_read result h;
  Ok (h, bytes_of "Result: " ++ text).

Definition main (addr : Z) h : res (heap * list Z) :=
  '(hdr, mem, h) ← client_side addr h;
  '(h, result) ← decode_and_call statics mem addr hdr tt h;
  '(h, out) ← print_result result h;
  h ← string_drop result h;
  Ok (h, out).

(** The other ends a record can have: dropped instead of called, and called
    again. *)
Definition dropped_instead (addr : Z) h : res heap :=
  '(hdr, mem, h) ← client_side addr h; discard statics mem addr hdr h.
Definition called_again (addr : Z) h : res heap :=
  '(hdr, mem, h) ← client_side addr h;
  '(h, result) ← decode_and_call statics mem addr hdr tt h;
  '(h, result') ← decode_and_call statics mem addr hdr tt h;
  h ← string_drop result' h;
  string_drop result h.

Context (Hvt : 0 <= closure_vt < usize_modulus) (Hlinked : statics closure_vt = Some (VTABLE appender))
  (Hsize : size_of RString = 24).

Lemma appender_ok : closure_ok (shape appender).
Proof. split; [cbn; rewrite Hsize; done|]. split; [by exists 3|done]. Qed.

(** What the client leaves: the string on the heap, and in the slot. *)
Definition hello_at (p : usize) : RString := {| str_ptr := p; str_cap := wrap 5; str_len := wrap 5 |}.

Lemma client_encodes addr h p :
  0 <= addr -> addr + SLOT_BYTES < usize_modulus -> al_fresh al h 5 = Some p ->
  exists hdr mem, client_side addr h = Ok (hdr, mem, <[int_val p := bytes_of "hello"]> h) /\
    holds_env statics mem addr hdr appender (to_bytes (hello_at p)).
Proof.
  intros Hlo Hhi Hp. unfold client_side. change (string_from al (bytes_of "hello") h)
    with (p ← allocated (al_fresh al h 5); Ok (<[int_val p := bytes_of "hello"]> h, hello_at p)).
  rewrite Hp. cbn [allocated mbind res_bind].
  set (buf := replicate _ 0). set (w := SlotWriter_new addr SLOT_BYTES).
  assert (Hb : zlen buf = SLOT_BYTES) by (unfold zlen, buf; by rewrite length_replicate).
  assert (Hw : writer_ok w buf) 
    by (unfold writer_ok; rewrite Hb; cbn [cursor len base w SlotWriter_new]; change SLOT_BYTES with 1152 in *; lia).
  assert (Hl : zlen (to_bytes (hello_at p)) = fn_size appender) by apply to_bytes_len.
  pose proof (encode_closure_cases w buf CallMutRetUnit (shape appender) (to_bytes (hello_at p)) []
                Hw appender_ok Hl ltac:(done)) as Hc.
  pose proof (encode_state w buf CallMutRetUnit appender (to_bytes (hello_at p)) []
                (<[int_val p := bytes_of "hello"]> h) Hw appender_ok) as Hst.
  assert (Hfit : encoding_fits w (shape appender) [] = true /\ env_fits w appender && negb (fn_size appender =? 0) = true).
  { unfold encoding_fits, env_fits, appender. cbn [f_size f_align shape fn_size fn_align]. rewrite Hsize. done. }
  destruct Hfit as [Hfit Hroom]. rewrite Hfit in Hc. rewrite Hroom in Hst. destruct Hc as [[[hdr w'] mem] He].
  destruct (encode_closure w buf CallMutRetUnit appender _ [] _) as [r m] eqn:Hall. cbn in Hst. subst m.
  pose proof (f_equal fst Hall) as Hr. cbn in Hr. rewrite He in Hr. subst r.
  exists hdr, mem. split; [done|].
  eapply (encode_holds statics w); [exact Hw|exact appender_ok|exact Hl| |exact Hlinked|exact Hall|done]; done.
Qed.

(** The closure, wherever the block of its string is now. *)
Lemma appends h (p : usize) bs :
  h !! int_val p = Some bs -> take 5 bs = bytes_of "hello" ->
  fn_code appender (to_bytes (hello_at p)) tt h =
  g ← allocated (al_grow al h p 11);
  Ok (<[int_val g := bytes_of "hello world"]> (delete (int_val p) h),
      {| str_ptr := g; str_cap := wrap 11; str_len := wrap 11 |}).
Proof.
  intros Hp Ht. cbn [fn_code appender]. rewrite of_to_bytes. cbn [res_of_option mbind res_bind].
  unfold push_str, string_read, block.
  change (int_val (str_cap (hello_at p)) =? 0) with false. cbn [str_ptr hello_at].
  rewrite Hp. cbn [res_of_option mbind res_bind]. change (Z.to_nat _) with 5%nat. rewrite Ht. reflexivity.
Qed.

Lemma drops_block h (p n l : usize) bs :
  h !! int_val p = Some bs -> int_val n <> 0 ->
  string_drop {| str_ptr := p; str_cap := n; str_len := l |} h = Ok (delete (int_val p) h).
Proof. intros Hp Hn. unfold string_drop. cbn. apply Z.eqb_neq in Hn as ->. by rewrite Hp. Qed.

(** The string is gone once it has been moved out. *)
Lemma second_call h p g h' :
  h !! int_val p = None ->
  let h2 := <[int_val g := bytes_of "hello world"]> h in
  ('(h3, result') ← fn_code appender (to_bytes (hello_at p)) tt h2;
   h4 ← string_drop result' h3;
   string_drop {| str_ptr := g; str_cap := wrap 11; str_len := wrap 11 |} h4) <> Ok h'.
Proof.
  intros Hp h2. destruct (decide (int_val g = int_val p)) as [Heq|Hne].
  - rewrite (appends h2 p (bytes_of "hello world")) by (done || (unfold h2; rewrite Heq; apply lookup_insert_eq)).
    destruct (al_grow al h2 p 11) as [g2|]; cbn [allocated mbind res_bind]; [|done].
    rewrite (drops_block _ g2 _ _ (bytes_of "hello world")) by (done || apply lookup_insert_eq).
    cbn [mbind res_bind]. unfold string_drop. cbn [str_cap str_ptr].
    change (int_val (wrap 11) =? 0) with false. rewrite Heq.
    destruct (decide (int_val g2 = int_val p)) as [->|Hne2]; [by rewrite lookup_delete_eq|].
    by rewrite lookup_delete_ne, lookup_insert_ne, lookup_delete_eq by done.
  - cbn [fn_code appender]. rewrite of_to_bytes. cbn [res_of_option mbind res_bind].
    unfold push_str, string_read, block. change (int_val (str_cap (hello_at p)) =? 0) with false.
    cbn [str_ptr hello_at]. unfold h2. by rewrite lookup_insert_ne, Hp by done.
Qed.

(** C35: [examples/bincode.rs] prints "Result: hello world" and leaves the heap
    as it was, wherever the allocator puts the string and whether or not it
    moves when it grows; so does a trustee that drops the record instead of
    calling it.  Calling the record a second time never ends well: the string
    has been moved out, and is used after its block is freed, or freed twice. *)
Theorem bincode_example_clean (addr : Z) (h : heap) (p g : usize)
    (Hlo : 0 <= addr) (Hhi : addr + SLOT_BYTES < usize_modulus) (Hp : al_fresh al h 5 = Some p)
    (Hg : al_grow al (<[int_val p := bytes_of "hello"]> h) p 11 = Some g) :
  main addr h = Ok (h, bytes_of "Result: hello world") /\
  dropped_instead addr h = Ok h /\
  forall h', called_again addr h <> Ok h'.
Proof.
  destruct (client_encodes addr h p Hlo Hhi Hp) as (hdr & mem & Hc & Hh).
  set (h1 := <[int_val p := bytes_of "hello"]> h) in *.
  apply al_fresh_free in Hp as Hpf. pose proof (al_grow_free _ _ _ _ _ Hg) as Hgf.
  assert (Hgh : h !! int_val g = None).
  { destruct Hgf as [->|Hgf]; [done|]. by apply lookup_insert_None in Hgf as [? _]. }
  assert (Hp1 : h1 !! int_val p = Some (bytes_of "hello")) by apply lookup_insert_eq.
  assert (Hdel : delete (int_val p) h1 = h) by (by apply delete_insert_id).
  pose proof (appends h1 p _ Hp1 eq_refl) as Hcall. rewrite Hg, Hdel in Hcall. cbn [allocated mbind res_bind] in Hcall.
  set (h2 := <[int_val g := bytes_of "hello world"]> h) in *.
  assert (Hdel2 : delete (int_val g) h2 = h) by (by apply delete_insert_id).
  assert (Hg2 : h2 !! int_val g = Some (bytes_of "hello world")) by apply lookup_insert_eq.
  unfold main, dropped_instead, called_again. rewrite Hc. cbn [mbind res_bind].
  rewrite !(decode_runs statics _ _ _ _ _ _ _ Hh), Hcall. cbn [mbind res_bind].
  rewrite (discard_drops statics _ _ _ _ _ _ Hh), (decode_runs statics _ _ _ _ _ _ _ Hh).
  split; [|split].
  - unfold print_result, string_read, block. cbn [str_cap str_ptr str_len].
    change (int_val (wrap 11) =? 0) with false. rewrite Hg2. cbn [res_of_option mbind res_bind].
    rewrite (drops_block h2 g _ _ _ Hg2) by done. cbn [mbind res_bind]. by rewrite Hdel2.
  - cbn [fn_size fn_drop appender]. rewrite Hsize, of_to_bytes. cbn [Z.eqb res_of_option mbind res_bind].
    unfold hello_at. by rewrite (drops_block h1 p _ _ _ Hp1), Hdel.
  - intros h'. by apply (second_call h p g).
Qed.
End example.

(** ** Three closures *)
Module Captured.
(** How often a value has been dropped. *)
Definition guard_fn (size align : Z) : fn_type Z unit Z :=
  {| fn_size := size; fn_align := align; fn_code := fun env _ s => Ok (s + 1, nth 0 env 0);
     fn_drop := fun _ s => Ok (s + 1); fn_vtable := 4096 |}.
Definition guard : fn_type Z unit Z := guard_fn 4 4.
Definition token : fn_type Z unit Z := guard_fn 0 1.
Definition table (F : fn_type Z unit Z) (a : Z) : option (ErasedVTable Z unit Z) :=
  if a =? 4096 then Some (VTABLE F) else None.

Lemma guard_fn_ok : closure_ok (shape guard).
Proof. split; [done|]. split; [by exists 2|done]. Qed.
Lemma token_fn_ok : closure_ok (shape token).
Proof. split; [done|]. split; [by exists 0|done]. Qed.

(** Encoded, and executed if that went well: the drops there have been. *)
Definition drops_of (F : fn_type Z unit Z) (f : list Z) : res Z :=
  let '(r, m) := encode_closure Examples.writer Examples.slot CallMutRetUnit F f [] 0 in
  '(hdr, _, mem) ← r; s ← m; '(s, _) ← decode_and_call (table F) mem 65536 hdr tt s; Ok s.

(** A layout of [String], an allocator of two blocks, and a vtable. *)
Definition string_bytes (x : RString) : list Z := to_bytes (str_cap x) ++ to_bytes (str_ptr x) ++ to_bytes (str_len x).
#[local] Instance Repr_RString : Repr RString.
Proof.
  refine {| size_of := 24; to_bytes := string_bytes;
            of_bytes := fun bs => c ← of_bytes (take 8 bs); p ← of_bytes (take 8 (drop 8 bs));
                                  l ← of_bytes (drop 16 bs);
                                  Some {| str_ptr := p; str_cap := c; str_len := l |} |}.
  - intros x. unfold string_bytes. rewrite !zlen_app, !to_bytes_len. done.
  - intros [p c l]. unfold string_bytes. cbn [str_ptr str_cap str_len].
    assert (Hl : forall a : usize, length (to_bytes a) = 8%nat) by (intros a; apply length_le_bytes).
    rewrite (take_app_length' (to_bytes c)), (drop_app_length' (to_bytes c) _ 8) by (by rewrite Hl).
    rewrite (take_app_length' (to_bytes p)), of_to_bytes by (by rewrite Hl). cbn [mbind option_bind].
    rewrite of_to_bytes. cbn [mbind option_bind]. rewrite app_assoc, (drop_app_length' (to_bytes c ++ to_bytes p)), of_to_bytes; [done|].
    by rewrite length_app, !Hl.
Defined.

Definition free_at (h : heap) (a : Z) : option usize := if decide (h !! a = None) then Some (wrap a) else None.
Lemma free_at_free h a p : free_at h a = Some p -> in_int false 8 a -> h !! int_val p = None.
Proof. unfold free_at. case_decide; [|done]. intros [= <-] Ha. by rewrite wrap_val. Qed.

(** Growing always moves. *)
Definition two_blocks : allocator.
Proof.
  refine {| al_fresh := fun h _ => free_at h 4096; al_grow := fun h _ _ => free_at h 8192 |}.
  - intros h n p Hp. by apply (free_at_free h 4096).
  - intros h p n g Hg. right. by apply (free_at_free h 8192).
Defined.
Definition statics (a : Z) : option (ErasedVTable heap unit RString) :=
  if a =? 4096 then Some (VTABLE (appender two_blocks 4096)) else None.
End Captured.

Lemma captures_move_once_witness :
  Captured.drops_of Captured.guard [7; 0; 0; 0] = Ok 1 /\
  match encode_closure Examples.writer Examples.slot CallMutRetUnit Captured.guard [7; 0; 0; 0] [] 0 with
  | (Ok (hdr, w', mem'), m) =>
      m = Ok 0 /\
      ((forall o n, cursor Examples.writer <= o -> read_at mem' o n = read_at mem' o n) ->
       decode_and_call (Captured.table Captured.guard) mem' 65536 hdr tt 0 = Ok (1, 7) /\
       discard (Captured.table Captured.guard) mem' 65536 hdr 0 = Ok 1)
  | _ => False
  end.
Proof.
  split; [vm_compute; reflexivity|].
  destruct (encode_closure Examples.writer Examples.slot CallMutRetUnit Captured.guard [7; 0; 0; 0] [] 0)
    as [[[[hdr w'] mem']|why|why] m] eqn:He; [|exfalso; revert He; vm_compute; discriminate..].
  pose proof (captures_move_once (Captured.table Captured.guard) Examples.writer Examples.slot mem' CallMutRetUnit
                Captured.guard [7; 0; 0; 0] [] tt 0 0 Examples.writer_slot_ok Captured.guard_fn_ok eq_refl
                ltac:(done) eq_refl ltac:(done)) as Hm.
  rewrite He in Hm. exact Hm.
Defined.

(** The one captured value is dropped twice. *)
Lemma zero_sized_dropped_early_witness :
  Captured.drops_of Captured.token [] = Ok 2 /\
  match encode_closure Examples.writer Examples.slot CallMutRetUnit Captured.token [] [] 0 with
  | (Ok (hdr, w', mem'), m) =>
      m = Ok 1 /\
      ((forall o n, cursor Examples.writer <= o -> read_at mem' o n = read_at mem' o n) ->
       decode_and_call (Captured.table Captured.token) mem' 65536 hdr tt 1 = Ok (2, 0) /\
       discard (Captured.table Captured.token) mem' 65536 hdr 1 = Ok 1)
  | _ => False
  end.
Proof.
  split; [vm_compute; reflexivity|].
  destruct (encode_closure Examples.writer Examples.slot CallMutRetUnit Captured.token [] [] 0)
    as [[[[hdr w'] mem']|why|why] m] eqn:He; [|exfalso; revert He; vm_compute; discriminate..].
  pose proof (zero_sized_dropped_early (Captured.table Captured.token) Examples.writer Examples.slot mem' CallMutRetUnit
                Captured.token [] tt 0 1 Examples.writer_slot_ok Captured.token_fn_ok
                ltac:(done) eq_refl eq_refl) as Hm.
  rewrite He in Hm. exact Hm.
Defined.

Lemma bincode_example_clean_witness :
  main (H := Captured.Repr_RString) Captured.two_blocks Captured.statics 4096 65536 ∅ =
    Ok (∅, bytes_of "Result: hello world") /\
  dropped_instead (H := Captured.Repr_RString) Captured.two_blocks Captured.statics 4096 65536 ∅ = Ok ∅ /\
  forall h', called_again (H := Captured.Repr_RString) Captured.two_blocks Captured.statics 4096 65536 ∅ <> Ok h'.
Proof.
  apply (bincode_example_clean (H := Captured.Repr_RString) Captured.two_blocks Captured.statics 4096
           ltac:(done) eq_refl eq_refl 65536 ∅ (wrap 4096) (wrap 8192)).
  - done.
  - done.
  - vm_compute. reflexivity.
  - vm_compute. reflexivity.
Defined.
