(* ===== verification/Sequential.v ===== *)
(** * Sequential: calls that do not overlap

    What a client sees whose calls, on whatever handles, never overlap: the
    answers it would get by running the closures itself, one after the other,
    on a property of its own.  This holds for [launch] too, whose closures are
    interleaved only with what others do. *)
From S2P Require Import Prelude Slots Serialization Remote Worker Delegation System Service.
From S2P Require Import Refinement Interleaving Trust.
Local Open Scope Z_scope.

(** ** Requests executed by a function *)

(** The property, and whether the trustee still serves. *)
Definition cell (T : Type) : Type := T * bool.

(** What a call comes to: these bytes; bytes that nobody wrote, after a
    launched closure has panicked; or no return. *)
Inductive outcome := Answers (bs : list Z) | Arbitrary | NoReturn.

Section sequential.
Context {T : Type} `{Repr T}.
Implicit Types (s : cell T) (q : rpc T) (evs : list (event T)) (b : istate T).

Definition call_alone s q : cell T * outcome :=
  if negb s.2 then (s, NoReturn) else
  match q_pp q, body q with
  | IntoInner, _ => ((s.1, false), Answers (to_bytes s.1))
  | _, None => (s, NoReturn)
  | pp, Some p =>
      match run_prog p s.1, pp with
      | (t, Returned bs), _ => ((t, true), Answers bs)
      | (t, Panicked), Launch => ((t, true), Arbitrary)
      | (t, Panicked), _ => ((t, false), NoReturn)
      end
  end.

(** [bs] may be what the call returns with. *)
Definition returns_with (o : outcome) q (bs : list Z) : Prop :=
  match o with Answers bs' => bs = bs' | Arbitrary => value_of (q_out q) bs | NoReturn => False end.

(** Every call returns before the next one is made. *)
Fixpoint one_at_a_time evs : Prop :=
  match evs with
  | [] | [ECall _ _] => True
  | ECall i _ :: EReturn j _ :: evs => i = j /\ one_at_a_time evs
  | _ => False
  end.

(** The calls and returns of a client that runs the closures itself. *)
Fixpoint sequential s evs : Prop :=
  match evs with
  | [] | [ECall _ _] => True
  | ECall i q :: EReturn j bs :: evs =>
      i = j /\ returns_with (call_alone s q).2 q bs /\ sequential (call_alone s q).1 evs
  | _ => False
  end.

(** The property after the calls that have returned. *)
Fixpoint left_by s evs : cell T :=
  match evs with
  | ECall _ q :: EReturn _ _ :: evs => left_by (call_alone s q).1 evs
  | _ => s
  end.
Fixpoint all_returned evs : bool :=
  match evs with
  | [] => true
  | ECall _ _ :: EReturn _ _ :: evs => all_returned evs
  | _ => false
  end.

(** ** The object between and during such calls *)

Definition others_idle (a : astate T) (i : nat) : Prop :=
  forall j x, j <> i -> a_clients a !! j = Some x -> x = AIdle.

Record quiet s b : Prop := {
  qt_turn : i_turn b = None;
  qt_prop : a_prop (i_obj b) = s.1;
  qt_open : a_open (i_obj b) = s.2;
  qt_idle : forall j x, a_clients (i_obj b) !! j = Some x -> x = AIdle;
}.

(** How far the call [q] on handle [i] has come, [s] being the cell before it. *)
Inductive progress (i : nat) q s : istate T -> Prop :=
| pg_called a :
    a_clients a !! i = Some (ACalled q) -> a_prop a = s.1 -> a_open a = s.2 -> progress i q s (free a)
| pg_turn a p p' :
    a_clients a !! i = Some (ACalled q) -> a_open a = true -> s.2 = true -> q_pp q <> Launch ->
    body q = Some p -> run_prog p' (a_prop a) = run_prog p s.1 -> progress i q s (busy a i p' false)
| pg_take a :
    a_clients a !! i = Some (ACalled q) -> a_open a = true -> s.2 = true -> q_pp q = IntoInner ->
    a_prop a = s.1 -> progress i q s (busy a i (PRet (to_bytes s.1)) true)
| pg_fiber a p p' :
    a_clients a !! i = Some (ARunning q p') -> a_open a = true -> s.2 = true -> q_pp q = Launch ->
    body q = Some p -> run_prog p' (a_prop a) = run_prog p s.1 -> progress i q s (free a)
| pg_done a bs :
    a_clients a !! i = Some (ADone q (Some bs)) ->
    call_alone s q = ((a_prop a, a_open a), Answers bs) -> progress i q s (free a)
| pg_panicked a :
    a_clients a !! i = Some (ADone q None) ->
    call_alone s q = ((a_prop a, a_open a), Arbitrary) -> progress i q s (free a)
| pg_dead a :
    a_clients a !! i = Some (ACalled q) -> a_open a = false ->
    call_alone s q = ((a_prop a, a_open a), NoReturn) -> progress i q s (free a).

Definition calling i q s b : Prop := others_idle (i_obj b) i /\ progress i q s b.

(** *** The function on the cases of the object *)

Lemma call_alone_into t q : q_pp q = IntoInner -> call_alone (t, true) q = ((t, false), Answers (to_bytes t)).
Proof. unfold call_alone. by intros ->. Qed.

Lemma body_not_into q p : body q = Some p -> q_pp q <> IntoInner.
Proof. unfold body. by destruct (q_pp q). Qed.

Lemma call_alone_body t q p : body q = Some p ->
  call_alone (t, true) q =
  match run_prog p t with
  | (t', Returned bs) => ((t', true), Answers bs)
  | (t', Panicked) => if decide (q_pp q = Launch) then ((t', true), Arbitrary) else ((t', false), NoReturn)
  end.
Proof.
  intros Hb. pose proof (body_not_into _ _ Hb). unfold call_alone. simpl. rewrite Hb.
  destruct (run_prog p t) as [t' []]; by destruct (q_pp q).
Qed.

(** *** Steps *)

Lemma idle_set (a : astate T) i x t o j y :
  (forall j x, a_clients a !! j = Some x -> x = AIdle) \/ others_idle a i ->
  j <> i -> a_clients (set_client a i x t o) !! j = Some y -> y = AIdle.
Proof.
  simpl. intros Hall Hne Hj. rewrite list_lookup_insert_ne in Hj by done.
  destruct Hall as [Hall|Hall]; eauto.
Qed.

Lemma set_at (a : astate T) i x y t o : a_clients a !! i = Some y -> a_clients (set_client a i x t o) !! i = Some x.
Proof. intros Hi. simpl. rewrite list_lookup_insert_eq; [done|by eapply lookup_lt_Some]. Qed.

Lemma quiet_step s b ev b' : istep b ev b' -> quiet s b ->
  (ev = [] /\ quiet s b') \/ exists i q, ev = [ECall i q] /\ calling i q s b'.
Proof.
  intros Hst [Ht Hp Ho Hi]. destruct Hst as [a ev a' tn Hst|a i q p Ha|a i q p Ha|a i q Ha| |a i q bs l Ha|];
    simpl in *; subst; try done; try (by apply Hi in Ha).
  destruct Hst as [a|a i q Ha|a i q upd k Ha|a i q bs Ha|a i q Ha|a i q bs Ha|a i q bs Ha Hz];
    try (by apply Hi in Ha).
  - left. split; [done|]. constructor; try done. simpl. intros j x Hj.
    apply lookup_app_Some in Hj as [Hj|[_ Hj]]; [eauto|]. by apply list_lookup_singleton_Some in Hj as [_ <-].
  - right. exists i, q. split; [done|]. split.
    + intros j x Hne. apply (idle_set _ i); auto.
    + apply pg_called; [by eapply set_at|done|done].
Qed.

(** A step of the object that the call on handle [i] makes, or another one. *)
Definition next_calling i q s ev b' : Prop :=
  (ev = [] /\ calling i q s b') \/
  (exists bs, ev = [EReturn i bs] /\ returns_with (call_alone s q).2 q bs /\ quiet (call_alone s q).1 b') \/
  (exists j q', ev = [ECall j q']).

Lemma others_set (a : astate T) i x t o : others_idle a i -> others_idle (set_client a i x t o) i.
Proof. intros Ho j y Hne. by apply (idle_set _ i); auto. Qed.

Lemma others_same (a : astate T) i j x :
  others_idle a i -> a_clients a !! j = Some x -> x <> AIdle -> j = i.
Proof. intros Ho Hj Hx. destruct (decide (j = i)) as [->|Hne]; [done|]. by apply Ho in Hj. Qed.

Lemma all_idle (a : astate T) i t o j y :
  others_idle a i -> a_clients (set_client a i AIdle t o) !! j = Some y -> y = AIdle.
Proof.
  intros Ho Hj. destruct (decide (j = i)) as [->|Hne]; [|by eapply (idle_set a i); eauto].
  simpl in Hj. apply list_lookup_insert_Some in Hj as [(_ & <- & _)|[? _]]; [done|done].
Qed.

Lemma progress_new a tn i q s :
  progress i q s {| i_obj := a; i_turn := tn |} ->
  progress i q s {| i_obj := {| a_prop := a_prop a; a_clients := a_clients a ++ [AIdle]; a_open := a_open a |};
                    i_turn := tn |}.
Proof.
  set (a' := {| a_prop := a_prop a; a_clients := a_clients a ++ [AIdle]; a_open := a_open a |}).
  assert (forall x, a_clients a !! i = Some x -> a_clients a' !! i = Some x) as Hx
    by (intros x Hx; by apply lookup_app_l_Some).
  intros Hp. inversion Hp; subst; unfold free, busy in *; simplify_eq.
  - apply (pg_called i q s a'); auto.
  - eapply (pg_turn i q s a'); eauto.
  - eapply (pg_take i q s a'); eauto.
  - eapply (pg_fiber i q s a'); eauto.
  - eapply (pg_done i q s a'); eauto.
  - eapply (pg_panicked i q s a'); eauto.
  - eapply (pg_dead i q s a'); eauto.
Qed.

Lemma calling_client i q s a tn ev a' :
  cstep a ev a' -> calling i q s {| i_obj := a; i_turn := tn |} ->
  next_calling i q s ev {| i_obj := a'; i_turn := tn |}.
Proof.
  intros Hst [Ho Hp]. simpl in Ho.
  destruct Hst as [a|a j q' Ha|a j q' upd k Ha|a j q' bs Ha|a j q' Ha|a j q' bs Ha|a j q' bs Ha Hz].
  - left. split; [done|]. split; [|by apply progress_new]. intros j x Hne. simpl. intros Hj.
    apply lookup_app_Some in Hj as [Hj|[_ Hj]]; [by eapply Ho|]. by apply list_lookup_singleton_Some in Hj as [_ <-].
  - right. right. by exists j, q'.
  - assert (j = i) as -> by (by eapply others_same). left. split; [done|]. split; [by apply others_set|].
    inversion Hp; subst; unfold free, busy in *; simplify_eq.
    eapply pg_fiber; [by eapply set_at|done..].
  - assert (j = i) as -> by (by eapply others_same). left. split; [done|]. split; [by apply others_set|].
    inversion Hp; subst; unfold free, busy in *; simplify_eq.
    eapply pg_done; [by eapply set_at|]. destruct s as [t o]. simpl in *. subst o.
    erewrite call_alone_body by done.
    match goal with H : _ = run_prog _ _ |- _ => rewrite <-H end. simpl.
    by match goal with H : a_open _ = true |- _ => rewrite H end.
  - assert (j = i) as -> by (by eapply others_same). left. split; [done|]. split; [by apply others_set|].
    inversion Hp; subst; unfold free, busy in *; simplify_eq.
    eapply pg_panicked; [by eapply set_at|]. destruct s as [t o]. simpl in *. subst o.
    erewrite call_alone_body by done.
    match goal with H : _ = run_prog _ _ |- _ => rewrite <-H end. simpl.
    rewrite decide_True by done. by match goal with H : a_open _ = true |- _ => rewrite H end.
  - assert (j = i) as -> by (by eapply others_same). right. left. exists bs. split; [done|].
    inversion Hp; subst; unfold free, busy in *; simplify_eq.
    match goal with H : call_alone _ _ = _ |- _ => rewrite H end. split; [done|].
    constructor; try done. intros j x. by apply all_idle.
  - assert (j = i) as -> by (by eapply others_same). right. left. exists bs. split; [done|].
    inversion Hp; subst; unfold free, busy in *; simplify_eq.
    match goal with H : call_alone _ _ = _ |- _ => rewrite H end. split; [done|].
    constructor; try done. intros j x. by apply all_idle.
Qed.

Lemma calling_step i q s b ev b' : istep b ev b' -> calling i q s b -> next_calling i q s ev b'.
Proof.
  intros Hst Hc. destruct Hst as [a ev a' tn Hst|a j q' p Ha Hop Hl Hb|a j q' p Ha Hop Hl Hb|a j q' Ha Hop Hl|
    a j upd k l|a j q' bs l Ha|a j l]; [by eapply calling_client| | | | | |]; destruct Hc as [Ho Hp]; left;
    (split; [done|]); simpl in Ho; destruct s as [t o].
  - assert (j = i) as -> by (by eapply others_same). split; [by apply others_set|].
    inversion Hp; subst; unfold free, busy in *; simplify_eq; simpl in *; [|congruence].
    eapply pg_fiber; [by eapply set_at|done|simpl; congruence|done..|]. simpl. congruence.
  - assert (j = i) as -> by (by eapply others_same). split; [done|].
    inversion Hp; subst; unfold free, busy in *; simplify_eq; simpl in *; [|congruence].
    eapply pg_turn; [done|done|simpl; congruence|done..|]. simpl. congruence.
  - assert (j = i) as -> by (by eapply others_same). split; [done|].
    inversion Hp; subst; unfold free, busy in *; simplify_eq; simpl in *; [|congruence].
    match goal with H : a_prop a = _ |- _ => rewrite H end.
    apply (pg_take i q' (t, o)); [done|done|simpl; congruence|done|done].
  - inversion Hp; subst; unfold free, busy in *; simplify_eq; simpl in *. split; [done|].
    eapply pg_turn; [done..|]. simpl. by match goal with H : _ = run_prog _ _ |- _ => rewrite <-H end.
  - inversion Hp; subst; unfold free, busy in *; simplify_eq; simpl in *; subst;
      (split; [by apply others_set|]); eapply pg_done; try (by eapply set_at); simpl.
    + erewrite call_alone_body by done. by match goal with H : _ = run_prog _ _ |- _ => rewrite <-H end.
    + rewrite call_alone_into by done. done.
  - inversion Hp; subst; unfold free, busy in *; simplify_eq; simpl in *; subst. split; [done|].
    eapply pg_dead; [done|done|]. simpl. erewrite call_alone_body by done.
    match goal with H : _ = run_prog _ _ |- _ => rewrite <-H end. simpl. by rewrite decide_False.
Qed.

(** ** Executions *)

(** The object after a trace, [s] being the cell before it. *)
Definition rests s evs b' : Prop :=
  sequential s evs /\ (all_returned evs = true -> quiet (left_by s evs) b').

Lemma isteps_sequential b evs b' :
  isteps b evs b' -> forall s,
  (quiet s b -> one_at_a_time evs -> rests s evs b') /\
  (forall i q, calling i q s b -> one_at_a_time (ECall i q :: evs) -> rests s (ECall i q :: evs) b').
Proof.
  induction 1 as [b|b ev b1 evs b2 Hst _ IH]; intros s.
  { split; [by intros|]. intros i q Hc _. by split. }
  split.
  - intros Hq Hev. destruct (quiet_step _ _ _ _ Hst Hq) as [[-> Hq1]|(i & q & -> & Hc)].
    + by apply (proj1 (IH s)).
    + by apply (proj2 (IH s)).
  - intros i q Hc Hev. destruct (calling_step _ _ _ _ _ _ Hst Hc) as [[-> Hc1]|[(bs & -> & Hbs & Hq)|(j & q' & ->)]].
    + by apply (proj2 (IH s)).
    + destruct Hev as [_ Hev]. destruct (proj1 (IH (call_alone s q).1) Hq Hev) as [Hs Hl].
      split; [by split|]. exact Hl.
    + done.
Qed.

Lemma start_quiet (t : T) : quiet (t, true) (free (astart t)).
Proof. constructor; try done. intros [|j] x; [by intros [= <-]|done]. Qed.
End sequential.

(** ** Programs of such calls *)

(** Calls, each chosen from the bytes the earlier ones returned; [Fail] is a
    failed assertion. *)
Inductive script (T A : Type) :=
| Return (a : A)
| Fail
| Do (i : nat) (q : rpc T) (k : list Z -> script T A).
Arguments Return {T A} a.
Arguments Fail {T A}.
Arguments Do {T A} i q k.

(** Between calls, or inside one. *)
Inductive stage (T A : Type) := At (p : script T A) | InCall (i : nat) (q : rpc T) (k : list Z -> script T A).
Arguments At {T A} p.
Arguments InCall {T A} i q k.

Section programs.
Context {T A : Type} `{Repr T} (statics : Z -> option (ErasedVTable T)).
Implicit Types (s : cell T) (p : script T A) (c : stage T A) (evs : list (event T)) (b : istate T) (f : fstate T).

Inductive stage_step : stage T A -> event T -> stage T A -> Prop :=
| stage_calls i q k : stage_step (At (Do i q k)) (ECall i q) (InCall i q k)
| stage_returns i q k bs : stage_step (InCall i q k) (EReturn i bs) (At (k bs)).

Inductive stage_runs : stage T A -> list (event T) -> stage T A -> Prop :=
| runs_nil c : stage_runs c [] c
| runs_cons c e c1 evs c2 : stage_step c e c1 -> stage_runs c1 evs c2 -> stage_runs c (e :: evs) c2.

(** The program run on a cell, if every call returns and no assertion fails. *)
Fixpoint computes s p : option (cell T * A) :=
  match p with
  | Return a => Some (s, a)
  | Fail => None
  | Do _ q k => match call_alone s q with (s', Answers bs) => computes s' (k bs) | _ => None end
  end.

(** The slots can carry the requests of that run. *)
Fixpoint fits s p : Prop :=
  match p with
  | Do _ q k =>
      request_ok statics q /\ match call_alone s q with (s', Answers bs) => fits s' (k bs) | _ => True end
  | _ => True
  end.

Lemma stages_app c evs c1 evs' c2 : stage_runs c evs c1 -> stage_runs c1 evs' c2 -> stage_runs c (evs ++ evs') c2.
Proof. induction 1; intros; [done|]. simpl. econstructor; eauto. Qed.

Lemma stages_split c evs evs' c' :
  stage_runs c (evs ++ evs') c' -> exists c1, stage_runs c evs c1 /\ stage_runs c1 evs' c'.
Proof.
  revert c. induction evs as [|e evs IH]; intros c Hr; [exists c; split; [constructor|done]|].
  inversion Hr as [|? ? c1 ? ? Hst Hr']; subst. destruct (IH _ Hr') as (c2 & H1 & H2).
  exists c2. split; [by econstructor|done].
Qed.

Lemma computes_open s p t' a : computes s p = Some ((t', true), a) -> s.2 = true.
Proof. destruct p; simpl; [by intros [= -> _]|done|]. unfold call_alone. by destruct s as [t []]. Qed.

(** The rest of the program is carried and ends with [t'] and [a]. *)
Definition ends_with (t' : T) (a : A) s p : Prop := fits s p /\ computes s p = Some ((t', true), a).

(** The object stands where the program is. *)
Definition stands (t' : T) (a : A) c b : Prop :=
  match c with
  | At p => exists s, quiet s b /\ ends_with t' a s p
  | InCall i q k =>
      exists s, calling i q s b /\ s.2 = true /\
        exists s' bs, call_alone s q = (s', Answers bs) /\ ends_with t' a s' (k bs)
  end.

Lemma ends_with_do t' a s i q k :
  ends_with t' a s (Do i q k) -> request_ok statics q /\ s.2 = true /\
  exists s' bs, call_alone s q = (s', Answers bs) /\ ends_with t' a s' (k bs).
Proof.
  intros [[Hq Hf] Hc]. pose proof (computes_open _ _ _ _ Hc). simpl in Hc.
  destruct (call_alone s q) as [s' [bs| |]]; try done. split; [done|]. split; [done|]. by exists s', bs.
Qed.

Lemma stands_step t' a c b ev b' c' : istep b ev b' -> stage_runs c ev c' -> stands t' a c b -> stands t' a c' b'.
Proof.
  intros Hst Hr Hc. destruct c as [p|i q k].
  - destruct Hc as (s & Hq & He). destruct (quiet_step _ _ _ _ Hst Hq) as [[-> Hq1]|(i & q & -> & Hc1)].
    + inversion Hr; subst. by exists s.
    + inversion Hr as [|? ? c1 ? ? Hs Hr']; subst. inversion Hr'; subst. inversion Hs; subst.
      destruct (ends_with_do _ _ _ _ _ _ He) as (_ & Ho & Hn). by exists s.
  - destruct Hc as (s & Hcalling & Hopen & s' & bs & Hcall & He).
    destruct (calling_step _ _ _ _ _ _ Hst Hcalling) as [[-> Hc1]|[(bs' & -> & Hbs & Hq)|(j & q' & ->)]].
    + inversion Hr; subst. exists s. split; [done|]. split; [done|]. by exists s', bs.
    + inversion Hr as [|? ? c1 ? ? Hs Hr']; subst. inversion Hr'; subst. inversion Hs; subst.
      rewrite Hcall in Hbs, Hq. simpl in Hbs, Hq. subst bs'. by exists s'.
    + inversion Hr as [|? ? c1 ? ? Hs Hr']; subst. inversion Hs.
Qed.

Lemma stands_steps t' a b evs b' :
  isteps b evs b' -> forall c c', stage_runs c evs c' -> stands t' a c b -> stands t' a c' b'.
Proof.
  induction 1 as [b|b ev b1 evs b2 Hst _ IH]; intros c c' Hr Hc; [by inversion Hr; subst|].
  destruct (stages_split _ _ _ _ Hr) as (c1 & Hr1 & Hr2). apply (IH _ _ Hr2). by eapply stands_step.
Qed.

Lemma stands_open t' a i q k b : stands t' a (InCall i q k) b -> a_open (i_obj b) = true.
Proof.
  intros (s & [_ Hp] & Hopen & s' & bs & Hcall & _ & Hcomp). pose proof (computes_open _ _ _ _ Hcomp) as Hs'.
  destruct Hp as [x _ _ Ho|x p p' _ Ho|x _ Ho|x p p' _ Ho|x bs' _ Hd|x _ Hd|x _ _ Hd]; simpl in *; try congruence;
    rewrite Hd in Hcall; simplify_eq/=; done.
Qed.

(** A call that the cell answers does not end in a panic. *)
Lemma stands_answered t' a i q k b q' :
  stands t' a (InCall i q k) b -> a_clients (i_obj b) !! i <> Some (ADone q' None).
Proof.
  intros (s & [_ Hp] & _ & s' & bs & Hcall & _) Hi. inversion Hp; subst; simpl in *; congruence.
Qed.

Lemma stands_calling t' a i q k b : stands t' a (InCall i q k) b ->
  exists x, a_clients (i_obj b) !! i = Some x /\ x <> AIdle.
Proof. intros (s & [_ Hp] & _). by destruct Hp; eexists. Qed.

(** *** Over the machine *)

Definition at_stage (t' : T) (a : A) f c : Prop := exists b, fsim statics f b /\ stands t' a c b.

Lemma at_stage_steps t' a f c acts evs f' c' :
  fsteps statics f acts evs f' -> Forall (faction_ok statics) acts -> stage_runs c evs c' ->
  at_stage t' a f c -> at_stage t' a f' c'.
Proof.
  intros Hst Hok Hr (b & Hs & Hc). destruct (fsteps_sim statics _ _ _ _ _ Hst Hok Hs) as (b' & Hb & Hs').
  exists b'. split; [done|]. by eapply stands_steps.
Qed.

(** [c] can be brought to stage [c']. *)
Definition gets_to f c f' c' : Prop :=
  exists acts evs, fsteps statics f acts evs f' /\ Forall (faction_ok statics) acts /\ stage_runs c evs c'.

Lemma gets_to_trans f c f1 c1 f2 c2 : gets_to f c f1 c1 -> gets_to f1 c1 f2 c2 -> gets_to f c f2 c2.
Proof.
  intros (acts & evs & Hst & Hok & Hr) (acts' & evs' & Hst' & Hok' & Hr'). exists (acts ++ acts'), (evs ++ evs').
  split; [by eapply fsteps_app|]. split; [by apply Forall_app|by eapply stages_app].
Qed.

Lemma gets_to_stage t' a f c f' c' : gets_to f c f' c' -> at_stage t' a f c -> at_stage t' a f' c'.
Proof. intros (acts & evs & Hst & Hok & Hr). by eapply at_stage_steps. Qed.

Lemma stage_enters t' a f i q k :
  at_stage t' a f (At (Do i q k)) -> exists f', gets_to f (At (Do i q k)) f' (InCall i q k).
Proof.
  intros (b & Hs & s & Hquiet & He). destruct (ends_with_do _ _ _ _ _ _ He) as (Hq & _).
  destruct (call_enters statics f b i q Hs Hq) as (acts & f' & Hst & Hok).
  { intros cs Hi. destruct (sim_lookup _ _ _ _ _ (fs_sim _ _ _ Hs) Hi) as (x & Hx & Hrel).
    apply (rel_idle _ _ _ Hrel). by eapply qt_idle. }
  exists f', acts, [ECall i q]. split; [done|]. split; [done|]. repeat econstructor.
Qed.

Lemma stage_returned t' a f i q k :
  at_stage t' a f (InCall i q k) -> exists f' bs, gets_to f (InCall i q k) f' (At (k bs)).
Proof.
  intros Hat. pose proof Hat as (b & Hs & Hc). destruct (stands_calling _ _ _ _ _ _ Hc) as (x & Hx & Hni).
  destruct (Forall2_lookup_r _ _ _ _ _ (sim_chans _ _ _ (fs_sim _ _ _ Hs)) Hx) as (cs & Hi & Hrel).
  assert (cs_client cs <> CIdle) as Hcs by (intros E; by apply Hni, (rel_idle _ _ _ Hrel)).
  destruct (call_returns statics f b _ cs Hs Hi Hcs) as (acts & evs & f' & Hst & Hok & [[bs ->]|[-> Hw]]).
  - exists f', bs, acts, [EReturn i bs]. split; [done|]. split; [done|]. repeat econstructor.
  - exfalso. destruct (at_stage_steps t' a f (InCall i q k) _ _ _ (InCall i q k) Hst Hok ltac:(constructor) Hat)
      as (b' & Hs' & Hc'). destruct Hw as [Hw|Hg].
    2: { destruct (garbage_panicked statics _ _ _ Hs' Hg) as (q' & Hq' & _). by eapply stands_answered in Hq'. }
    apply stands_open in Hc'. by rewrite (sim_open _ _ _ (fs_sim _ _ _ Hs')), Hw in Hc'.
Qed.

Lemma script_finishes t' a p : forall f, at_stage t' a f (At p) -> exists f', gets_to f (At p) f' (At (Return a)).
Proof.
  induction p as [a'| |i q k IH]; intros f Hat.
  - destruct Hat as (b & _ & s & _ & _ & [= _ ->]). exists f, [], []. split; [constructor|]. split; constructor.
  - by destruct Hat as (b & _ & s & _ & _ & ?).
  - destruct (stage_enters _ _ _ _ _ _ Hat) as (f1 & H1). pose proof (gets_to_stage _ _ _ _ _ _ H1 Hat) as Hat1.
    destruct (stage_returned _ _ _ _ _ _ Hat1) as (f2 & bs & H2). pose proof (gets_to_stage _ _ _ _ _ _ H2 Hat1) as Hat2.
    destruct (IH bs f2 Hat2) as (f3 & H3). exists f3. eapply gets_to_trans; [exact H1|]. by eapply gets_to_trans.
Qed.

Lemma stage_finishes t' a f c : at_stage t' a f c -> exists f', gets_to f c f' (At (Return a)).
Proof.
  destruct c as [p|i q k]; [by apply script_finishes|]. intros Hat.
  destruct (stage_returned _ _ _ _ _ _ Hat) as (f2 & bs & H2). pose proof (gets_to_stage _ _ _ _ _ _ H2 Hat) as Hat2.
  destruct (script_finishes _ _ _ _ Hat2) as (f3 & H3). exists f3. by eapply gets_to_trans.
Qed.

Lemma at_stage_start t t' a p addr :
  0 <= addr /\ addr + SLOT_BYTES < usize_modulus -> ends_with t' a (t, true) p ->
  at_stage t' a (fstart t addr) (At p).
Proof.
  intros Ha He. exists (free (astart t)). split; [by apply fstart_sim|]. exists (t, true).
  split; [apply start_quiet|done].
Qed.

Lemma at_stage_end t' a f a' : at_stage t' a f (At (Return a')) -> a' = a /\ s_prop (f_sys f) = t'.
Proof.
  intros (b & Hs & s & Hq & _ & [= -> ->]). split; [done|].
  by rewrite <-(sim_prop _ _ _ (fs_sim _ _ _ Hs)), (qt_prop _ _ Hq).
Qed.
(** What every stage comes to. *)
Lemma at_stage_outcome t' a f c :
  at_stage t' a f c ->
  c <> At Fail /\ (forall a', c = At (Return a') -> a' = a /\ s_prop (f_sys f) = t') /\
  exists acts' evs' f', fsteps statics f acts' evs' f' /\ Forall (faction_ok statics) acts' /\
    stage_runs c evs' (At (Return a)).
Proof.
  intros Hc. split; [by intros ->; destruct Hc as (? & _ & ? & _ & _ & ?)|]. split.
  - intros a' ->. by eapply at_stage_end.
  - destruct (stage_finishes _ _ _ _ Hc) as (f' & acts' & evs' & Hend). by exists acts', evs', f'.
Qed.
End programs.

(** ** Programs written against the interface *)
Section clients.
Context {T : Type} `{Repr T} (statics : Z -> option (ErasedVTable T)) (into_inner_vt : Z).

(** What a program does with a value read from the bytes of a return. *)
Definition reading {R A} `{Repr R} (k : R -> script T A) (bs : list Z) : script T A :=
  match of_bytes bs with Some r => k r | None => Fail end.

(** The program over handle [i], delegating every call. *)
Fixpoint script_of {A} (i : nat) (c : client T A) : script T A :=
  match c with
  | CRet a => Return a
  | CApply u k => Do i (apply_request u) (reading (fun r => script_of i (k r)))
  | CApplyWith u w k => Do i (apply_with_request u w) (reading (fun r => script_of i (k r)))
  | CWith u k => Do i (apply_request u) (reading (fun r => script_of i (k r)))
  | CBatch u n k => Do i (apply_batch_mut_request u n) (fun _ => script_of i k)
  | CLaunch u k => Do i (launch_request u) (reading (fun r => script_of i (k r)))
  | CIntoInner k => Do i (into_inner_request into_inner_vt) (reading (fun t => Return (k t)))
  end.

Lemma reading_bytes {R A} `{Repr R} (k : R -> script T A) r : reading k (to_bytes r) = k r.
Proof. unfold reading. by rewrite of_to_bytes. Qed.

Lemma call_alone_out {R} `{Repr R} (u : user_fn T unit R) q t t' r :
  (q = apply_request u \/ q = launch_request u) -> run_prog (call u tt) t = (t', Returned r) ->
  call_alone (t, true) q = ((t', true), Answers (to_bytes r)).
Proof.
  intros Hq Hr. assert (body q = Some (prog_map to_bytes (call u tt))) as Hb by (by destruct Hq as [->| ->]).
  erewrite call_alone_body by exact Hb. by rewrite run_prog_map, Hr.
Qed.

Lemma call_alone_args {V R} `{Repr R} `{Bincode V} (u : user_fn T V R) w t t' r :
  run_prog (call u w) t = (t', Returned r) ->
  call_alone (t, true) (apply_with_request u w) = ((t', true), Answers (to_bytes r)).
Proof.
  intros Hr. assert (body (apply_with_request u w) = Some (prog_map to_bytes (call u w))) as Hb
    by (unfold body; simpl; by rewrite bincode_roundtrip).
  erewrite call_alone_body by exact Hb. by rewrite run_prog_map, Hr.
Qed.

Lemma call_alone_batch (u : user_fn T unit unit) n t t' :
  repeat_prog (Z.to_nat n) (call u tt) t = (t', Returned tt) ->
  call_alone (t, true) (apply_batch_mut_request u n) = ((t', true), Answers []).
Proof.
  intros Hr. assert (body (apply_batch_mut_request u n) = Some (prog_repeat (Z.to_nat n) (call u tt))) as Hb by done.
  erewrite call_alone_body by exact Hb. by rewrite run_prog_repeat, Hr.
Qed.

Context (Hsize : result_fits T) (Hvt : 0 <= into_inner_vt < usize_modulus)
  (Hlinked : statics into_inner_vt = Some (VTABLE (into_inner_closure T into_inner_vt))).

(** The sequential specification of [Trust] is the run on a cell. *)
Lemma runs_computes {A} (i : nat) (c : client T A) t t' alive a :
  runs (H1 := Remote.laws statics into_inner_vt Hsize Hvt Hlinked) c t t' alive a -> alive = true ->
  ends_with statics t' a (t, true) (script_of i c).
Proof.
  induction 1 as [a t|R HR u k t t1 x t' b a Hok Hr _ IH|V R HR HV u w k t t1 x t' b a Hok Hr _ IH|
    R HR u k t t1 x t' b a Hok Hr _ IH|u n k t t1 t' b a Hok Hn Hr _ IH|R HR u k t t1 x t' b a Hok Hr _ IH|k t];
    intros Halive; [done|..|done]; destruct (IH Halive) as [Hf Hc]; simpl in Hok; unfold ends_with; cbn [script_of fits computes].
  - rewrite (call_alone_out u _ _ _ _ (or_introl eq_refl) Hr), reading_bytes. destruct Hok as (Hs & Hl & Hfit).
    split; [|done]. split; [|done]. apply out_request_ok; [done|done|done|by left|by eapply size_of_nonneg].
  - rewrite (call_alone_args _ _ _ _ _ Hr), reading_bytes. destruct Hok as (Hs & Hl & Hfit & Hz).
    split; [|done]. split; [|done]. apply apply_with_request_ok; [done|done|done|done|by eapply size_of_nonneg].
  - rewrite (call_alone_out u _ _ _ _ (or_introl eq_refl) Hr), reading_bytes. destruct Hok as (Hs & Hl & Hfit).
    split; [|done]. split; [|done]. apply out_request_ok; [done|done|done|by left|by eapply size_of_nonneg].
  - rewrite (call_alone_batch _ _ _ _ Hr). destruct Hok as (Hl & Hfit).
    split; [|done]. split; [|done]. by apply apply_batch_mut_request_ok.
  - rewrite (call_alone_out u _ _ _ _ (or_intror eq_refl) Hr), reading_bytes. destruct Hok as (Hs & Hl & Hfit).
    split; [|done]. split; [|done]. apply out_request_ok; [done|done|done|by right|by eapply size_of_nonneg].
Qed.
End clients.

(** ** Properties *)
Section properties.
Context {T : Type} `{Repr T} (statics : Z -> option (ErasedVTable T)).

(** C11: calls that do not overlap are local calls: in every execution in which
    each call returns before the next is made, on whatever handle, the answers
    are those of the closures run one after the other on a cell (launched
    closures and [into_inner] included), and when all have returned the
    property is that cell's. *)
Theorem lone_calls_are_local (t : T) (addr : Z) acts evs f
    (Haddr : 0 <= addr /\ addr + SLOT_BYTES < usize_modulus)
    (Hacts : Forall (faction_ok statics) acts)
    (Hrun : fsteps statics (fstart t addr) acts evs f)
    (Hone : one_at_a_time evs) :
  sequential (t, true) evs /\
  (all_returned evs = true -> s_prop (f_sys f) = (left_by (t, true) evs).1).
Proof.
  destruct (fsteps_sim _ _ _ _ _ _ Hrun Hacts (fstart_sim statics t addr Haddr)) as (a & Ha & [[Hp _ _ _] _]).
  destruct (proj1 (isteps_sequential _ _ _ Ha (t, true)) (start_quiet t) Hone) as [Hs Hl].
  split; [done|]. intros Hr. by rewrite <-Hp, (qt_prop _ _ (Hl Hr)).
Qed.

(** A program of calls that do not overlap, each chosen from what the
    earlier ones returned, with assertions: if it runs through on a cell,
    closure after closure, and the slots can carry its requests, then in every
    execution of the machine, whatever its schedule, no assertion fails, the
    result and the property at the end are those of the cell, and from every
    stage the end can be reached. *)
Theorem programs_run_through {A} (t t' : T) (a : A) (addr : Z) (p : script T A) acts evs f c
    (Haddr : 0 <= addr /\ addr + SLOT_BYTES < usize_modulus)
    (Hfits : fits statics (t, true) p)
    (Hcell : computes (t, true) p = Some ((t', true), a))
    (Hacts : Forall (faction_ok statics) acts)
    (Hrun : fsteps statics (fstart t addr) acts evs f)
    (Hprog : stage_runs (At p) evs c) :
  c <> At Fail /\ (forall a', c = At (Return a') -> a' = a /\ s_prop (f_sys f) = t') /\
  exists acts' evs' f', fsteps statics f acts' evs' f' /\ Forall (faction_ok statics) acts' /\
    stage_runs c evs' (At (Return a)).
Proof.
  apply at_stage_outcome. eapply at_stage_steps; [exact Hrun|exact Hacts|exact Hprog|by apply at_stage_start].
Qed.

(** C12: the refinement of [Trust] at the level of threads: a client program
    written against [TrustLike], run over delegation on any handle of the
    concurrent machine, gets the answers that the sequential specification
    (and so [Local]) gives it, leaves the same property, and always can go on
    to its end, in every execution whose calls are the program's own and
    nobody else's, for a program whose closures return and whose records and
    results fit their slots ([runs]). *)
Theorem clients_run_through {A} (into_inner_vt : Z) (c : client T A) (i : nat) (t t' : T) (a : A) (addr : Z)
    acts evs f c1
    (Hsize : result_fits T) (Hvt : 0 <= into_inner_vt < usize_modulus)
    (Hlinked : statics into_inner_vt = Some (VTABLE (into_inner_closure T into_inner_vt)))
    (Haddr : 0 <= addr /\ addr + SLOT_BYTES < usize_modulus)
    (Hspec : runs (H1 := Remote.laws statics into_inner_vt Hsize Hvt Hlinked) c t t' true a)
    (Hacts : Forall (faction_ok statics) acts)
    (Hrun : fsteps statics (fstart t addr) acts evs f)
    (Hprog : stage_runs (At (script_of into_inner_vt i c)) evs c1) :
  c1 <> At Fail /\ (forall a', c1 = At (Return a') -> a' = a /\ s_prop (f_sys f) = t') /\
  exists acts' evs' f', fsteps statics f acts' evs' f' /\ Forall (faction_ok statics) acts' /\
    stage_runs c1 evs' (At (Return a)).
Proof.
  apply at_stage_outcome. eapply at_stage_steps; [exact Hrun|exact Hacts|exact Hprog|].
  apply at_stage_start; [done|]. by eapply runs_computes.
Qed.
End properties.

(** ** A run: an [apply] and a [launch] of the byte counter *)
Module SeqRun.
Import Counter Byte.

Definition A : rpc byte := apply_request (adder 3).
Definition L : rpc byte := launch_request (adder 3).
Definition program : client byte (byte * byte) := CApply (adder 3) (fun a => CLaunch (adder 3) (fun b => CRet (a, b))).
Definition lines : script byte (byte * byte) := script_of 24576 0 program.
(** Inside the second call, whose closure has not run. *)
Definition before : list (faction byte * option (list Z)) :=
  based [Drain] ++ whole_call 0 A 4 [8] ++ sent 0 L ++ served_in 0 2.
Definition whole : list (faction byte * option (list Z)) := before ++ fiber_runs 0 4 ++ answered 0 [11].
Definition first : fstate byte := fstart x05 65536.
Definition inside : stage byte (byte * byte) := InCall 0 L (reading (fun b => Return (x08, b))).

Lemma apply_ok : request_ok statics A.
Proof. apply out_request_ok; [apply adder_linked|reflexivity|apply u8_fits|by left|done]. Qed.
Lemma seq_whole_ok : Forall (faction_ok statics) whole.*1.
Proof.
  simpl. repeat (constructor; [first [exact apply_ok|exact Refinement.Schedule.adder_request_ok|exact I|done]|]).
  constructor.
Qed.
Lemma seq_before_ok : Forall (faction_ok statics) before.*1.
Proof. pose proof seq_whole_ok as Hall. unfold whole in Hall. rewrite fmap_app in Hall. by apply Forall_app in Hall as [? _]. Qed.
Lemma plays_whole : fsteps statics first whole.*1 (script_events whole) (played statics first whole).
Proof. apply plays, is_Some_alt. vm_compute. exact I. Qed.
Lemma plays_part : fsteps statics first before.*1 (script_events before) (played statics first before).
Proof. apply plays, is_Some_alt. vm_compute. exact I. Qed.
Definition after_apply (a : byte) : script byte (byte * byte) := Do 0 L (reading (fun b => Return (a, b))).
Lemma stage_inside : stage_runs (At lines) (script_events before) inside.
Proof.
  apply (runs_cons _ (ECall 0 A) (InCall 0 A (reading after_apply))); [constructor|].
  apply (runs_cons _ (EReturn 0 [8]) (At (after_apply x08))); [exact (stage_returns 0 A (reading after_apply) [8])|].
  apply (runs_cons _ (ECall 0 L) inside); [constructor|]. constructor.
Qed.
Lemma lines_fit : fits statics (x05, true) lines.
Proof. split; [exact apply_ok|]. vm_compute call_alone. split; [exact Refinement.Schedule.adder_request_ok|]. by vm_compute. Qed.
Lemma seq_addr_ok : 0 <= 65536 /\ 65536 + SLOT_BYTES < usize_modulus.
Proof. done. Qed.
Lemma into_linked : statics 24576 = Some (VTABLE (into_inner_closure byte 24576)).
Proof. reflexivity. Qed.
Lemma into_vt_ok : 0 <= 24576 < usize_modulus.
Proof. done. Qed.
End SeqRun.

(** Both calls have returned. *)
Lemma lone_calls_are_local_witness :
  s_prop (f_sys (played Counter.statics SeqRun.first SeqRun.whole)) = Byte.x0b.
Proof.
  destruct (lone_calls_are_local Counter.statics Byte.x05 65536 _ _ _ SeqRun.seq_addr_ok SeqRun.seq_whole_ok
              SeqRun.plays_whole) as [_ Hl]; [by vm_compute|].
  rewrite Hl by reflexivity. vm_compute. reflexivity.
Defined.

Lemma programs_run_through_witness :
  exists acts' evs' f', fsteps Counter.statics (played Counter.statics SeqRun.first SeqRun.before) acts' evs' f' /\
    Forall (faction_ok Counter.statics) acts' /\ stage_runs SeqRun.inside evs' (At (Return (Byte.x08, Byte.x0b))).
Proof.
  exact (proj2 (proj2 (programs_run_through Counter.statics Byte.x05 Byte.x0b (Byte.x08, Byte.x0b) 65536 SeqRun.lines
           _ _ _ SeqRun.inside SeqRun.seq_addr_ok SeqRun.lines_fit ltac:(vm_compute; reflexivity)
           SeqRun.seq_before_ok SeqRun.plays_part SeqRun.stage_inside))).
Defined.

Lemma clients_run_through_witness :
  exists acts' evs' f', fsteps Counter.statics (played Counter.statics SeqRun.first SeqRun.before) acts' evs' f' /\
    Forall (faction_ok Counter.statics) acts' /\ stage_runs SeqRun.inside evs' (At (Return (Byte.x08, Byte.x0b))).
Proof.
  refine (proj2 (proj2 (clients_run_through Counter.statics 24576 SeqRun.program 0 Byte.x05 Byte.x0b (Byte.x08, Byte.x0b)
           65536 _ _ _ SeqRun.inside Counter.u8_fits SeqRun.into_vt_ok SeqRun.into_linked SeqRun.seq_addr_ok _
           SeqRun.seq_before_ok SeqRun.plays_part SeqRun.stage_inside))).
  apply (RunsApply _ _ _ _ _ Byte.x08 Byte.x08);
    [split; [apply Counter.u8_fits|split; [apply Counter.adder_linked|reflexivity]]|vm_compute; reflexivity|].
  apply (RunsLaunch _ _ _ _ _ Byte.x0b Byte.x0b);
    [split; [apply Counter.u8_fits|split; [apply Counter.adder_linked|reflexivity]]|vm_compute; reflexivity|].
  constructor.
Defined.
