(* ===== verification/Latched.v ===== *)
(** * Latched: a latch behind a remote handle ([src/single_thread/latch.rs],
    [src/trust/common.rs], [examples/launch_test.rs])

    [launch] "is intended for [Latch<T>] or other types that support concurrent
    access": here is [Latch]'s critical section access by access, as closures
    on the trustee and on fibers run it.  Alone it is the section of [Latch];
    closures that the trustee runs itself never find the latch taken; launched
    ones do not exclude each other, because the flag is a plain cell. *)
From S2P Require Import Prelude Slots Serialization Remote Worker Delegation System Service.
From S2P Require Import Refinement Interleaving Ints Latch.
Local Open Scope Z_scope.

(** ** Critical sections, access by access *)
Section sections.
Context {U R : Type}.
Implicit Types (p : prog (Latch U) R) (l : Latch U).

Definition set_locked (b : bool) l : Latch U := {| locked := b; inner := inner l |}.

(** [lock]: the flag is read, then written. *)
Definition p_lock p : prog (Latch U) R :=
  PStep (fun l => l) (fun l => if locked l then PPanic else PStep (set_locked true) (fun _ => p)).

(** The end of the guard's scope, by return or by unwinding. *)
Fixpoint p_guarded p : prog (Latch U) R :=
  match p with
  | PStep upd k => PStep upd (fun l => p_guarded (k l))
  | p => PStep (set_locked false) (fun _ => p)
  end.

(** [let mut g = l.lock(); ..] *)
Definition p_section p : prog (Latch U) R := p_lock (p_guarded p).

Lemma run_guarded p l :
  run_prog (p_guarded p) l = (set_locked false (run_prog p l).1, (run_prog p l).2).
Proof. revert l. induction p as [r| |upd k IH]; intros l; simpl; [done|done|apply IH]. Qed.

(** Alone, it is the section of [Latch]. *)
Lemma run_section p l : run_prog (p_section p) l = with_guard (run_prog p) l.
Proof.
  unfold with_guard, lock, try_lock. cbn [p_section p_lock run_prog]. destruct (locked l); [done|].
  cbn [run_prog]. rewrite run_guarded. unfold set_locked. by destruct (run_prog p _).
Qed.
End sections.

(** ** Through the guard *)

(** Code that works on the value of a latch, as it runs through a guard:
    each access is to [*guard]. *)
Fixpoint through_guard {U R} (g : prog U R) : prog (Latch U) R :=
  match g with
  | PRet r => PRet r
  | PPanic => PPanic
  | PStep upd k => PStep (fun l => guard_deref_mut l upd) (fun l => through_guard (k (guard_deref l)))
  end.

Lemma run_through_guard {U R} (g : prog U R) (l : Latch U) :
  run_prog (through_guard g) l =
  ({| locked := locked l; inner := (run_prog g (inner l)).1 |}, (run_prog g (inner l)).2).
Proof. revert l. induction g as [r| |upd k IH]; intros [b u]; simpl; [done|done|]. by rewrite IH. Qed.

(** [*v += k] and [*v]. *)
Section numbers.
Context {s : bool} {n : nat} (checks : bool).

Definition g_add_assign (k : Z) {R} (p : prog (int s n) R) : prog (int s n) R :=
  PStep (fun v => v) (fun v =>
    match add checks v k with Returned v => PStep (fun _ => v) (fun _ => p) | Panicked => PPanic end).
Definition g_read : prog (int s n) (int s n) := PStep (fun v => v) (fun v => PRet v).
End numbers.

(** ** [examples/launch_test.rs] *)
Section launch_test.
Context (checks : bool) (vt_incr vt_read : Z).

(** The closure it launches, [sleep]ing first. *)
Definition locked_incr : user_fn (Latch i32) unit i32 :=
  fn_item vt_incr (fun _ => p_section (through_guard (g_add_assign checks 1 g_read))).
(** [|l| *l.lock()]. *)
Definition locked_read : user_fn (Latch i32) unit i32 := fn_item vt_read (fun _ => p_section (through_guard g_read)).

Definition launch_incr : rpc (Latch i32) := launch_request locked_incr.
Definition with_read : rpc (Latch i32) := apply_request locked_read.
End launch_test.

(** ** Sections on the trustee *)

(** Alone on a free latch, a section gives what its body gives on the value,
    and leaves the latch free, also when the body panics. *)
Lemma run_guarded_section {U R} (g : prog U R) (l : Latch U) :
  locked l = false ->
  run_prog (p_section (through_guard g)) l =
  ({| locked := false; inner := (run_prog g (inner l)).1 |}, (run_prog g (inner l)).2).
Proof.
  intros Hl. rewrite run_section, with_guard_unlocked by done. cbv zeta. by rewrite run_through_guard.
Qed.

Section exclusive.
Context {U : Type} `{Repr (Latch U)}.
Implicit Types (q : rpc (Latch U)) (a : astate (Latch U)).

(** Requests of the trustee whose closures are sections, with bodies in [P]. *)
Inductive sections (P : forall R, prog U R -> Prop) : rpc (Latch U) -> Prop :=
| sections_apply R `{Repr R} (u : user_fn (Latch U) unit R) g :
    call u tt = p_section (through_guard g) -> P R g -> sections P (apply_request u)
| sections_apply_with V R `{Repr R} `{Bincode V} (u : user_fn (Latch U) V R) (w : V) g :
    call u w = p_section (through_guard g) -> P R g -> sections P (apply_with_request u w)
| sections_batch (u : user_fn (Latch U) unit unit) n g :
    call u tt = p_section (through_guard g) -> P unit g -> sections P (apply_batch_mut_request u n).

Definition any_body (R : Type) (g : prog U R) : Prop := True.
Definition body_returns (R : Type) (g : prog U R) : Prop := forall v, exists r, (run_prog g v).2 = Returned r.

Context (P : forall R, prog U R -> Prop).

Definition event_sections (e : event (Latch U)) : Prop :=
  match e with ECall _ q => sections P q | EReturn _ _ => True end.

Lemma sections_on_trustee q : sections P q -> q_pp q <> Launch /\ q_pp q <> IntoInner.
Proof. by intros []. Qed.

Lemma repeat_sections R (g : prog U R) (p : prog (Latch U) unit) n l :
  (forall l, locked l = false -> locked (run_prog p l).1 = false /\
     (body_returns R g -> (run_prog p l).2 = Returned tt)) ->
  locked l = false ->
  locked (run_prog (prog_repeat n p) l).1 = false /\
  (body_returns R g -> exists bs, (run_prog (prog_repeat n p) l).2 = Returned bs).
Proof.
  intros Hp. revert l. induction n as [|n IH]; intros l Hl; simpl; [split; [done|by eexists]|].
  rewrite run_prog_then. destruct (Hp l Hl) as [Hf Hr]. destruct (run_prog p l) as [l' [[]|]]; simpl in *.
  - by apply IH.
  - split; [done|]. intros Hb. by specialize (Hr Hb).
Qed.

(** They find a free latch and leave it free; they panic only in a body. *)
Lemma sections_free q p l :
  sections P q -> body q = Some p -> locked l = false ->
  locked (run_prog p l).1 = false /\
  ((forall R g, P R g -> body_returns R g) -> exists bs, (run_prog p l).2 = Returned bs).
Proof.
  intros [R HR u g Hu Hg|V R HR HV u w g Hu Hg|u n g Hu Hg] [= <-] Hl.
  - rewrite run_prog_map. change (u_body u (u_env u) tt) with (call u tt). rewrite Hu, run_guarded_section by done.
    split; [done|]. intros HP. destruct (HP _ _ Hg (inner l)) as [r ->]. by eexists.
  - simpl. rewrite bincode_roundtrip, run_prog_map. change (u_body u (u_env u) w) with (call u w).
    rewrite Hu, run_guarded_section by done.
    split; [done|]. intros HP. destruct (HP _ _ Hg (inner l)) as [r ->]. by eexists.
  - change (u_body u (u_env u) tt) with (call u tt). rewrite Hu.
    destruct (repeat_sections unit g (p_section (through_guard g)) (Z.to_nat n) l) as [Hf Hr]; [|done|].
    + intros l0 Hl0. rewrite run_guarded_section by done. split; [done|]. intros Hb. by destruct (Hb (inner l0)) as [[] ->].
    + split; [exact Hf|]. intros HP. by apply Hr, HP.
Qed.

Definition free_latch a : Prop :=
  locked (a_prop a) = false /\ ((forall R g, P R g -> body_returns R g) -> a_open a = true) /\
  forall i q, a_clients a !! i = Some (ACalled q) -> sections P q.

Lemma free_latch_set a i x t o :
  free_latch a -> locked t = false -> o = true \/ o = a_open a -> (forall q, x = ACalled q -> sections P q) ->
  free_latch (set_client a i x t o).
Proof.
  intros (_ & Hop & Hc) Ht Ho Hx. split; [done|]. split; [by destruct Ho as [->| ->]|].
  intros j q Hj. simpl in Hj.
  apply list_lookup_insert_Some in Hj as [(_ & -> & _)|[_ Hj]]; [by apply Hx|by eapply Hc].
Qed.

Lemma free_latch_step a ev a' :
  astep a ev a' /\ Forall event_sections ev -> Forall unlaunched (a_clients a) -> free_latch a ->
  free_latch a' /\ Forall unlaunched (a_clients a').
Proof.
  intros [Hst Hev] Hun Hf. pose proof Hf as (Hl & Ho & Hc).
  assert (forall i x t o, unlaunched x -> Forall unlaunched (a_clients (set_client a i x t o))) as Hset
    by (intros; by apply Forall_insert).
  destruct Hst as [a ev a' Hst|a a' Hst];
    [destruct Hst as [a|a i q Hi|a i q upd k Hi|a i q bs Hi|a i q Hi|a i q bs Hi|a i q bs Hi Hz]|
     destruct Hst as [a i q p t' bs Hi _ Hp Hb Hr|a i q p t' Hi _ Hp Hb Hr|a i q Hi _ Hp|a i q p Hi _ Hp Hb]];
    try (by eapply (Forall_lookup_1 _ _ _ _ Hun) in Hi).
  - split; [|apply Forall_app; split; [done|by repeat constructor]]. split; [done|]. split; [done|].
    intros i q Hi. simpl in Hi. apply lookup_app_Some in Hi as [Hi|[_ Hi]]; [by eapply Hc|].
    by apply list_lookup_singleton_Some in Hi as [_ ?].
  - apply Forall_cons_1 in Hev as [Hq _]. split; [apply free_latch_set; auto; by intros ? [= <-]|].
    apply Hset. by apply sections_on_trustee.
  - split; [apply free_latch_set; auto|by apply Hset]; done.
  - split; [apply free_latch_set; auto|by apply Hset]; done.
  - destruct (sections_free _ _ _ (Hc _ _ Hi) Hb Hl) as [Hf' _]. rewrite Hr in Hf'.
    split; [apply free_latch_set; auto|by apply Hset]; done.
  - destruct (sections_free _ _ _ (Hc _ _ Hi) Hb Hl) as [Hf' Hret]. rewrite Hr in Hf', Hret.
    split; [|exact Hun]. split; [exact Hf'|]. split; [|exact Hc].
    intros HP. by destruct (Hret HP) as [bs ?].
  - by destruct (sections_on_trustee _ (Hc _ _ Hi)).
Qed.

Lemma free_latch_steps a evs a' :
  asteps a evs a' -> Forall event_sections evs -> Forall unlaunched (a_clients a) -> free_latch a ->
  free_latch a'.
Proof.
  intros Hst Hev. apply traces_events with (P := event_sections) in Hst; [|done]. clear Hev.
  induction Hst as [|a ev a1 evs a2 Hs _ IH]; [done|]. intros Hun Hf.
  destruct (free_latch_step _ _ _ Hs Hun Hf). auto.
Qed.

(** What the machine's property is, when only sections are called. *)
Lemma sections_keep_free (statics : Z -> option (ErasedVTable (Latch U))) (u : U) addr acts evs f :
  0 <= addr /\ addr + SLOT_BYTES < usize_modulus -> Forall (faction_ok statics) acts ->
  fsteps statics (fstart (new u) addr) acts evs f -> Forall event_sections evs ->
  (f_service f = None -> is_locked (s_prop (f_sys f)) = false) /\
  ((forall R g, P R g -> body_returns R g) -> s_worker (f_sys f) <> WStopped).
Proof.
  intros Haddr Hacts Hrun Hev.
  destruct (fsteps_sim _ _ _ _ _ _ Hrun Hacts (fstart_sim statics (new u) addr Haddr)) as (b & Hb & [[Hp Ho _ _] Ht]).
  assert (Forall no_launch evs) as Hn.
  { eapply Forall_impl; [exact Hev|]. intros [i q|] Hq; [by apply sections_on_trustee|done]. }
  destruct (isteps_serial _ _ _ _ Hb Hn (astart_serial (new u))) as (a & Ha & t0 & -> & _ & Hs).
  destruct (free_latch_steps _ _ _ Ha Hev) as (Hl & Hop & _).
  - by repeat constructor.
  - split; [done|]. split; [done|]. by intros [] ?.
  - simpl in Hl, Hop. split; [|intros HP Hw; by rewrite Ho, Hw in Hop; specialize (Hop HP)].
    intros Hnone. rewrite Hnone in Ht. rewrite Ht in Hs. by rewrite <-Hp, <-Hs.
Qed.
End exclusive.

(** Inside a section the latch is taken: a second [lock] panics, and the first
    guard is dropped on the way out. *)
Lemma section_not_reentrant {U R} (g : prog U unit) (k : prog (Latch U) R) (l : Latch U) v :
  locked l = false -> run_prog g (inner l) = (v, Returned tt) ->
  run_prog (p_section (prog_then (through_guard g) (p_section k))) l =
  ({| locked := false; inner := v |}, Panicked).
Proof.
  intros Hl Hg. rewrite run_section, with_guard_unlocked by done. cbv zeta.
  rewrite run_prog_then, run_through_guard. cbn [locked inner]. rewrite Hg. cbn [fst snd].
  by rewrite run_section, with_guard_locked.
Qed.

(** ** A worker that is gone *)
Section gone.
Context {T : Type} `{Repr T} (statics : Z -> option (ErasedVTable T)).
Implicit Types (f : fstate T) (b : istate T).

(** A client that waits for a visit. *)
Definition unserved f (i : nat) : bool :=
  match s_chans (f_sys f) !! i with
  | Some cs => match cs_client cs, cs_fibers cs with
               | CWaiting _ b, [] => eqb (resp_bit (cs_chan cs)) (negb b)
               | _, _ => false
               end
  | None => false
  end.

Lemma unserved_called f b i : fsim statics f b -> unserved f i = true -> exists q, a_clients (i_obj b) !! i = Some (ACalled q).
Proof.
  intros [[_ _ Hch _] _]. unfold unserved. destruct (s_chans _ !! i) as [cs|] eqn:Hi; [|done].
  destruct (Forall2_lookup_l _ _ _ _ _ Hch Hi) as (x & Hx & _ & Hcl). unfold client_rel in Hcl.
  destruct (cs_client cs) as [|q|q w|q w|q]; try done. destruct (cs_fibers cs) as [|fb fs] eqn:Hf; [|done].
  intros Hr%eqb_prop. destruct Hcl as (_ & _ & _ & _ & Hw).
  destruct Hw as [_ _ _|fb x _ Hf' _ _ _|o Hr' _ _ _]; [by exists q|congruence|].
  rewrite Hr in Hr'. by destruct w.
Qed.

Definition closed_on b (i : nat) : Prop :=
  a_open (i_obj b) = false /\ i_turn b = None /\ exists q, a_clients (i_obj b) !! i = Some (ACalled q).

Lemma closed_step b ev b' i : istep b ev b' -> closed_on b i -> closed_on b' i /\ forall bs, EReturn i bs ∉ ev.
Proof.
  intros Hst (Ho & Ht & q & Hq).
  assert (forall a j x y t o, a_clients a !! i = Some (ACalled q) -> a_clients a !! j = Some y ->
    y <> ACalled q -> i <> j /\ a_clients (set_client a j x t o) !! i = Some (ACalled q)) as Hother.
  { intros a j x y t o Hi Hj Hy. assert (i <> j) as Hne by (intros ->; rewrite Hi in Hj; by injection Hj as <-).
    split; [done|]. simpl. by rewrite list_lookup_insert_ne. }
  destruct Hst as [a ev a' tn Hst| | | | | |]; simpl in *; try congruence. subst tn.
  destruct Hst as [a|a j q' Hj|a j q' upd k Hj|a j q' bs Hj|a j q' Hj|a j q' bs Hj|a j q' bs Hj Hz];
    [|(match goal with |- closed_on {| i_obj := set_client _ _ ?x ?t ?o; i_turn := _ |} _ /\ _ =>
         destruct (Hother a j x _ t o Hq Hj ltac:(done)) as [Hne Hi] end;
       split; [by split; [|split; [|exists q]]|];
       intros bs' Hin; inversion Hin as [|? ? ? Hin']; simplify_eq; inversion Hin')..].
  split; [|intros bs' Hin; inversion Hin]. split; [done|]. split; [done|]. exists q. by apply lookup_app_l_Some.
Qed.

Lemma closed_steps b evs b' i bs : isteps b evs b' -> closed_on b i -> EReturn i bs ∉ evs.
Proof.
  induction 1 as [b|b ev b1 evs b2 Hs _ IH]; intros Hc; [intros Hin; inversion Hin|].
  destruct (closed_step _ _ _ _ Hs Hc) as [Hc1 Hev]. intros [Hin|Hin]%elem_of_app; [by eapply Hev|by apply IH].
Qed.

Lemma gone_answers_nobody f b i acts evs f' bs :
  fsim statics f b -> s_worker (f_sys f) = WStopped -> f_service f = None -> unserved f i = true ->
  Forall (faction_ok statics) acts -> fsteps statics f acts evs f' -> EReturn i bs ∉ evs.
Proof.
  intros Hs Hw Hn Hu Hok Hst. destruct (unserved_called _ _ _ Hs Hu) as [q Hq].
  destruct (fsteps_sim statics _ _ _ _ _ Hst Hok Hs) as (b' & Hb & _).
  eapply closed_steps; [exact Hb|]. destruct Hs as [[_ Ho _ _] Ht]. split; [by rewrite Ho, Hw|].
  split; [by rewrite Hn in Ht|by exists q].
Qed.
End gone.

(** ** Two launches, and a launch beside a request of the trustee *)
Section Overlap.
Context `{Repr (Latch i32)}.

Definition incr_vt : Z := 4096.
Definition read_vt : Z := 8192.
Definition L : rpc (Latch i32) := launch_incr true incr_vt.
Definition W : rpc (Latch i32) := with_read read_vt.
Definition statics (a : Z) : option (ErasedVTable (Latch i32)) :=
  if a =? incr_vt then Some (VTABLE (q_fn L)) else if a =? read_vt then Some (VTABLE (q_fn W)) else None.

Lemma launch_incr_ok : request_ok statics L.
Proof. apply out_request_ok; [by apply (linked_layout _ _ _ 0)|reflexivity|done|by right|done]. Qed.
Lemma with_read_ok : request_ok statics W.
Proof. apply out_request_ok; [by apply (linked_layout _ _ _ 0)|reflexivity|done|by left|done]. Qed.

Definition start : fstate (Latch i32) := fstart (new (wrap 0)) 65536.

(** Both fibers have read the flag before either writes it. *)
Definition both : list (faction (Latch i32) * option (list Z)) :=
  based [Register 131072; Drain; Drain] ++ sent 0 L ++ sent 1 L ++ served_in 0 2 ++ served_in 1 2 ++
  fiber_runs 0 2 ++ fiber_runs 1 2 ++ fiber_runs 0 2 ++ fiber_runs 1 2 ++ fiber_runs 0 5 ++ fiber_runs 1 5 ++ answered 0 (le_bytes 4 1) ++ answered 1 (le_bytes 4 1).

(** The fiber has the latch when the trustee runs the other client's closure. *)
Definition beside : list (faction (Latch i32) * option (list Z)) :=
  based [Register 131072; Drain; Drain] ++ sent 0 L ++ sent 1 W ++ served_in 0 2 ++ fiber_runs 0 3 ++ served_in 1 3.

Lemma both_ok : Forall (faction_ok statics) both.*1.
Proof. simpl. repeat (constructor; [first [exact launch_incr_ok|exact I|done]|]). constructor. Qed.
Lemma beside_ok : Forall (faction_ok statics) beside.*1.
Proof. simpl. repeat (constructor; [first [exact launch_incr_ok|exact with_read_ok|exact I|done]|]). constructor. Qed.
Lemma plays_both : fsteps statics start both.*1 (script_events both) (played statics start both).
Proof. apply plays, is_Some_alt. vm_compute. exact I. Qed.
Lemma plays_beside : fsteps statics start beside.*1 (script_events beside) (played statics start beside).
Proof. apply plays, is_Some_alt. vm_compute. exact I. Qed.
End Overlap.

(** ** Properties *)

(** C16: sections that the trustee runs itself exclude each other.  In every
    execution whose calls, from any number of threads, are [apply],
    [apply_with], [with] and [apply_batch_mut] of closures that lock the latch
    and work through the guard: between visits the latch is free, also after a
    body has panicked, since the guard drops; if the bodies return, no closure
    panics in [lock] and the worker keeps serving.  And a section is one: while
    its guard lives, to lock again panics. *)
Theorem trustee_sections_exclude {U} `{Repr (Latch U)} (statics : Z -> option (ErasedVTable (Latch U)))
    (u : U) (addr : Z) acts evs f
    (Haddr : 0 <= addr /\ addr + SLOT_BYTES < usize_modulus)
    (Hacts : Forall (faction_ok statics) acts)
    (Hrun : fsteps statics (fstart (new u) addr) acts evs f)
    (Hev : Forall (event_sections any_body) evs) :
  (f_service f = None -> is_locked (s_prop (f_sys f)) = false) /\
  (Forall (event_sections body_returns) evs -> s_worker (f_sys f) <> WStopped) /\
  (forall R (g : prog U unit) (k : prog (Latch U) R) l v,
     locked l = false -> run_prog g (inner l) = (v, Returned tt) ->
     run_prog (p_section (prog_then (through_guard g) (p_section k))) l =
     ({| locked := false; inner := v |}, Panicked)).
Proof.
  split; [by eapply sections_keep_free|]. split; [|intros; by apply section_not_reentrant].
  intros Hret. by eapply (sections_keep_free body_returns).
Qed.

(** C15: launched closures do not exclude each other, nor the trustee: [lock]
    reads the flag and then writes it.  There is an execution in which two
    launches of the closure of [launch_test.rs] are in the section together,
    both answer 1, and the latch is left with 1; and one in which the closure
    of a [with] finds the latch taken by a launched one: it panics in [lock],
    the worker is gone, and its caller is never answered. *)
Theorem launched_sections_overlap `{Repr (Latch i32)} :
  (exists acts f, Forall (faction_ok statics) acts /\
     fsteps statics start acts [ECall 0 L; ECall 1 L; EReturn 0 (le_bytes 4 1); EReturn 1 (le_bytes 4 1)] f /\
     int_val (inner (s_prop (f_sys f))) = 1 /\ is_locked (s_prop (f_sys f)) = false) /\
  (exists acts f, Forall (faction_ok statics) acts /\ fsteps statics start acts [ECall 0 L; ECall 1 W] f /\
     s_worker (f_sys f) = WStopped /\
     forall acts' evs' f' bs, Forall (faction_ok statics) acts' -> fsteps statics f acts' evs' f' ->
       EReturn 1 bs ∉ evs').
Proof.
  split.
  - exists both.*1, (played statics start both). split; [exact both_ok|]. split; [exact plays_both|].
    split; vm_compute; reflexivity.
  - exists beside.*1, (played statics start beside). split; [exact beside_ok|]. split; [exact plays_beside|].
    split; [vm_compute; reflexivity|]. intros acts' evs' f' bs Hok Hst.
    destruct (fsteps_sim _ _ _ _ _ _ plays_beside beside_ok (fstart_sim statics (new (wrap 0)) 65536 ltac:(done)))
      as (b & _ & Hs).
    eapply gone_answers_nobody; [exact Hs| | | |exact Hok|exact Hst]; vm_compute; reflexivity.
Qed.

(** ** A run *)
Module LatchRun.
(** A layout of the latch; another would do. *)
Definition Repr_latch : Repr (Latch i32).
Proof.
  refine {| size_of := 8;
            to_bytes := fun l => to_bytes (inner l) ++ [Z.b2z (locked l); 0; 0; 0];
            of_bytes := fun bs => v ← of_bytes (take 4 bs); z ← bs !! 4%nat;
                                  Some {| locked := z =? 1; inner := v |} |}.
  - intros l. rewrite zlen_app, to_bytes_len. done.
  - intros [b v]. rewrite take_app_length' by done. simpl inner. rewrite of_to_bytes. by destruct b.
Defined.
#[local] Existing Instance Repr_latch.

(** Two threads read the latch with [with]. *)
Definition script : list (faction (Latch i32) * option (list Z)) :=
  based [Register 131072; Drain; Drain] ++ sent 0 W ++ sent 1 W ++ served_in 1 7 ++
  answered 1 (le_bytes 4 0) ++ served_in 0 7 ++ answered 0 (le_bytes 4 0).
Lemma latch_script_ok : Forall (faction_ok statics) script.*1.
Proof. simpl. repeat (constructor; [first [exact with_read_ok|exact I|done]|]). constructor. Qed.
Lemma plays_latch : fsteps statics start script.*1 (script_events script) (played statics start script).
Proof. apply plays, is_Some_alt. vm_compute. exact I. Qed.
Lemma read_sections : sections body_returns W.
Proof. by apply (sections_apply _ i32 (locked_read read_vt) g_read); [done|intros v; eexists]. Qed.
Lemma read_events (P : forall R, prog i32 R -> Prop) :
  sections P W -> Forall (event_sections P) (script_events script).
Proof. intros HW. simpl. repeat (constructor; [first [exact HW|exact I]|]). constructor. Qed.
End LatchRun.

Lemma trustee_sections_exclude_witness :
  is_locked (s_prop (f_sys (played (H := LatchRun.Repr_latch) statics start LatchRun.script))) = false /\
  s_worker (f_sys (played (H := LatchRun.Repr_latch) statics start LatchRun.script)) <> WStopped.
Proof.
  destruct (trustee_sections_exclude (H := LatchRun.Repr_latch) statics (wrap 0) 65536 _ _ _ ltac:(done)
              LatchRun.latch_script_ok LatchRun.plays_latch) as (Hl & Hw & _).
  - apply LatchRun.read_events. by apply (sections_apply _ i32 (locked_read read_vt) g_read).
  - split; [apply Hl; vm_compute; reflexivity|]. apply Hw, LatchRun.read_events, LatchRun.read_sections.
Defined.
