(* ===== verification/F64.v ===== *)
(** * F64: Rust's [f64] and its exact integers

    [f64] is IEEE 754 binary64, here the Standard Library's [spec_float] at
    precision 53 and exponent bound 1024 (one NaN instead of many).  Sums,
    differences and comparisons of integers below [2^53] are exact; this file
    proves it, for the example of [Bank]. *)
From S2P Require Import Prelude.
From stdpp Require Import pretty.
From Stdlib Require Import SpecFloat.
Local Open Scope Z_scope.

(** ** Operations *)

Definition f64 : Type := spec_float.
Definition f64_nan : f64 := S754_nan.
Definition f64_add : f64 -> f64 -> f64 := SFadd 53 1024.
Definition f64_sub : f64 -> f64 -> f64 := SFsub 53 1024.
Definition f64_mul : f64 -> f64 -> f64 := SFmul 53 1024.
Definition f64_lt : f64 -> f64 -> bool := SFltb.

(** [n as f64], and the literals of integral value. *)
Definition f64_of_int (n : Z) : f64 := binary_normalize 53 1024 n 0 false.

Definition max_safe : Z := 2 ^ 53.

(** The integer nearest to [n / d], ties to even. *)
Definition div_round_even (n d : Z) : Z :=
  let q := n / d in
  let r := n mod d in
  if 2 * r <? d then q else if d <? 2 * r then q + 1 else if Z.even q then q else q + 1.

(** [format!("{:.2}", x)]. *)
Definition f64_fixed2 (x : f64) : string :=
  let digits s q :=
    ((if s : bool then "-" else "") +:+ pretty (q / 100) +:+ "." +:+ pretty (q mod 100 / 10) +:+
     pretty (q mod 10))%string in
  match x with
  | S754_nan => "NaN"
  | S754_infinity s => (if s then "-inf" else "inf")%string
  | S754_zero s => digits s 0
  | S754_finite s m e =>
      digits s (if 0 <=? e then Z.pos m * 2 ^ e * 100 else div_round_even (Z.pos m * 100) (2 ^ (- e)))
  end.

(** ** Binary digits *)

Definition dg (m : positive) : Z := Z.pos (digits2_pos m).

Lemma dg_bounds m : 2 ^ (dg m - 1) <= Z.pos m < 2 ^ dg m.
Proof.
  unfold dg. induction m as [m IH|m IH|]; cbn [digits2_pos]; [| |by cbv].
  all: rewrite Pos2Z.inj_succ; set (d := Z.pos (digits2_pos m)) in *;
    replace (Z.succ d - 1) with (Z.succ (d - 1)) by lia; rewrite !Z.pow_succ_r by lia; lia.
Qed.

Lemma dg_unique m d : 0 < d -> 2 ^ (d - 1) <= Z.pos m < 2 ^ d -> dg m = d.
Proof.
  intros Hd [Hl Hu]. destruct (dg_bounds m) as [Hl' Hu'].
  assert (0 < dg m) by (unfold dg; lia).
  assert (d - 1 < dg m) by (apply (Z.pow_lt_mono_r_iff 2); lia).
  assert (dg m - 1 < d) by (apply (Z.pow_lt_mono_r_iff 2); lia). lia.
Qed.

Lemma dg_shift m m' k : 0 <= k -> Z.pos m' = Z.pos m * 2 ^ k -> dg m' = dg m + k.
Proof.
  intros Hk He. destruct (dg_bounds m) as [Hl Hu]. assert (0 < dg m) by (unfold dg; lia).
  apply dg_unique; [lia|]. rewrite He.
  replace (dg m + k - 1) with (dg m - 1 + k) by lia. rewrite !Z.pow_add_r by lia.
  assert (0 < 2 ^ k) by lia. nia.
Qed.

Lemma dg_le m d : Z.pos m < 2 ^ d -> 0 <= d -> dg m <= d.
Proof.
  intros Hm Hd. destruct (dg_bounds m) as [Hl _].
  assert (dg m - 1 < d); [|lia]. apply (Z.pow_lt_mono_r_iff 2); lia.
Qed.

Lemma iter_xO m p : Z.pos (Pos.iter xO m p) = Z.pos m * 2 ^ Z.pos p.
Proof.
  induction p as [|p IH] using Pos.peano_ind; [simpl; lia|].
  rewrite Pos.iter_succ, Pos2Z.inj_succ, Z.pow_succ_r by lia. lia.
Qed.

Lemma shr_1_even m : shr_1 {| shr_m := Z.pos m~0; shr_r := false; shr_s := false |} =
  {| shr_m := Z.pos m; shr_r := false; shr_s := false |}.
Proof. reflexivity. Qed.

Lemma iter_shr_1 m m' p :
  Z.pos m' = Z.pos m * 2 ^ Z.pos p ->
  SpecFloat.iter_pos shr_1 p {| shr_m := Z.pos m'; shr_r := false; shr_s := false |} =
  {| shr_m := Z.pos m; shr_r := false; shr_s := false |}.
Proof.
  revert m m'. induction p as [p IH|p IH|]; intros m m' Hm; cbn [SpecFloat.iter_pos].
  - set (mid := Pos.iter xO m p). pose proof (iter_xO m p) as Hmid. fold mid in Hmid.
    set (low := Pos.iter xO mid p). pose proof (iter_xO mid p) as Hlow. fold low in Hlow.
    assert (m' = low~0)%positive as ->.
    { enough (Z.pos m' = 2 * Z.pos low) by lia. rewrite Hm, Hlow, Hmid.
      replace (Z.pos p~1) with (Z.succ (Z.pos p + Z.pos p)) by lia.
      rewrite Z.pow_succ_r, Z.pow_add_r by lia. lia. }
    by rewrite shr_1_even, (IH mid low), (IH m mid).
  - set (mid := Pos.iter xO m p). pose proof (iter_xO m p) as Hmid. fold mid in Hmid.
    rewrite (IH mid m'), (IH m mid); [done|done|].
    rewrite Hm, Hmid. replace (Z.pos p~0) with (Z.pos p + Z.pos p) by lia.
    rewrite Z.pow_add_r by lia. lia.
  - assert (m' = m~0)%positive as -> by lia. reflexivity.
Qed.

(** ** Normal forms of integers *)

(** The 53-bit mantissa of [m]. *)
Definition mant (m : positive) : positive := Z.to_pos (Z.pos m * 2 ^ (53 - dg m)).
Definition canon (s : bool) (m : positive) : f64 := S754_finite s (mant m) (dg m - 53).

Lemma mant_eq m : dg m <= 53 -> Z.pos (mant m) = Z.pos m * 2 ^ (53 - dg m).
Proof. intros Hd. unfold mant. rewrite Z2Pos.id; [done|]. assert (0 < 2 ^ (53 - dg m)) by lia. nia. Qed.

Lemma fexp_int d : 1 <= d <= 53 -> fexp 53 1024 d = d - 53.
Proof. intros Hd. unfold fexp, emin. lia. Qed.

(** [shr_fexp] brings an exact multiple to its mantissa. *)
Lemma shr_fexp_exact m m' k :
  dg m <= 53 -> 53 - dg m <= k -> Z.pos m' = Z.pos m * 2 ^ k ->
  shr_fexp 53 1024 (Z.pos m') (- k) loc_Exact =
  ({| shr_m := Z.pos (mant m); shr_r := false; shr_s := false |}, dg m - 53).
Proof.
  intros Hd Hk Hm. assert (0 < dg m) by (unfold dg; lia).
  unfold shr_fexp. cbn [shr_record_of_loc Zdigits2]. fold (dg m').
  rewrite (dg_shift m m' k) by (lia || done).
  replace (dg m + k + - k) with (dg m) by lia. rewrite fexp_int by lia. unfold shr.
  destruct (dg m - 53 - - k) as [|p|p] eqn:Hp; [| |lia].
  - f_equal; [|lia]. f_equal. rewrite mant_eq, Hm by done. do 2 f_equal. lia.
  - f_equal; [|lia]. apply iter_shr_1. rewrite mant_eq, Hm, <-Z.mul_assoc, <-Z.pow_add_r by lia.
    do 2 f_equal. lia.
Qed.

Lemma round_aux_exact s m m' k :
  dg m <= 53 -> 53 - dg m <= k -> Z.pos m' = Z.pos m * 2 ^ k ->
  binary_round_aux 53 1024 s (Z.pos m') (- k) loc_Exact = canon s m.
Proof.
  intros Hd Hk Hm. unfold binary_round_aux. rewrite (shr_fexp_exact m m' k) by done.
  cbn [shr_m loc_of_shr_record round_nearest_even].
  replace (dg m - 53) with (- (53 - dg m)) by lia.
  rewrite (shr_fexp_exact m (mant m) (53 - dg m)) by (try lia; by apply mant_eq).
  cbn [shr_m]. rewrite (proj2 (Z.leb_le (dg m - 53) (1024 - 53))) by lia. done.
Qed.

Lemma binary_round_exact s m m' k :
  dg m <= 53 -> 0 <= k -> Z.pos m' = Z.pos m * 2 ^ k ->
  binary_round 53 1024 s m' (- k) = canon s m.
Proof.
  intros Hd Hk Hm. assert (0 < dg m) by (unfold dg; lia).
  unfold binary_round. fold (dg m'). rewrite (dg_shift m m' k) by (lia || done).
  replace (dg m + k + - k) with (dg m) by lia. rewrite fexp_int by lia. unfold shl_align.
  destruct (dg m - 53 - - k) as [|p|p] eqn:Hp; [apply round_aux_exact; lia..|].
  replace (dg m - 53) with (- (53 - dg m)) by lia. apply round_aux_exact; [done|lia|].
  rewrite iter_xO, Hm, <-Z.mul_assoc, <-Z.pow_add_r by lia. do 2 f_equal. lia.
Qed.

Definition exact (n : Z) : f64 :=
  match n with 0 => S754_zero false | Z.pos m => canon false m | Z.neg m => canon true m end.

Lemma normalize_exact n k :
  Z.abs n < max_safe -> 0 <= k -> binary_normalize 53 1024 (n * 2 ^ k) (- k) false = exact n.
Proof.
  intros Hn Hk. unfold max_safe in Hn. assert (0 < 2 ^ k) by lia. destruct n as [|m|m]; [done|..].
  - destruct (Z.pos m * 2 ^ k) as [|m'|m'] eqn:Hm; [lia| |lia]. cbn [binary_normalize exact].
    apply binary_round_exact; [apply dg_le; lia|done|done].
  - destruct (Z.neg m * 2 ^ k) as [|m'|m'] eqn:Hm; [lia|lia|]. cbn [binary_normalize exact].
    apply binary_round_exact; [apply dg_le; lia|done|lia].
Qed.

Lemma f64_of_int_exact n : Z.abs n < max_safe -> f64_of_int n = exact n.
Proof. intros Hn. rewrite <-(normalize_exact n 0) by (done || lia). by rewrite Z.mul_1_r. Qed.

(** ** Exact arithmetic *)

(** A mantissa aligned to the exponent [-k]. *)
Lemma align_exact m k :
  dg m <= 53 -> 53 - dg m <= k ->
  Z.pos (fst (shl_align (mant m) (dg m - 53) (- k))) = Z.pos m * 2 ^ k.
Proof.
  intros Hd Hk. unfold shl_align. destruct (- k - (dg m - 53)) as [|p|p] eqn:Hp; cbn [fst]; [|lia|].
  - rewrite mant_eq by done. do 2 f_equal. lia.
  - rewrite iter_xO, mant_eq, <-Z.mul_assoc, <-Z.pow_add_r by lia. do 2 f_equal. lia.
Qed.

Lemma cond_Zopp_mul s a b : cond_Zopp s (a * b) = cond_Zopp s a * b.
Proof. destruct s; simpl; lia. Qed.

(** Both operations on two non-zero integers. *)
Lemma aligned_exact (op : Z -> Z -> Z) s m s' m' :
  (forall a b c, op (a * c) (b * c) = op a b * c) ->
  dg m <= 53 -> dg m' <= 53 ->
  let n := op (cond_Zopp s (Z.pos m)) (cond_Zopp s' (Z.pos m')) in
  Z.abs n < max_safe ->
  (let ez := Z.min (dg m - 53) (dg m' - 53) in
   binary_normalize 53 1024
     (op (cond_Zopp s (Z.pos (fst (shl_align (mant m) (dg m - 53) ez))))
         (cond_Zopp s' (Z.pos (fst (shl_align (mant m') (dg m' - 53) ez))))) ez false) = exact n.
Proof.
  intros Hop Hd Hd' n Hn. cbv zeta.
  replace (Z.min (dg m - 53) (dg m' - 53)) with (- (53 - Z.min (dg m) (dg m'))) by lia.
  rewrite !align_exact, !cond_Zopp_mul, Hop by lia. apply normalize_exact; [done|lia].
Qed.

Lemma safe_dg m : Z.pos m < max_safe -> dg m <= 53.
Proof. intros Hm. apply dg_le; [done|lia]. Qed.

Lemma f64_add_int a b :
  Z.abs a < max_safe -> Z.abs b < max_safe -> Z.abs (a + b) < max_safe ->
  f64_add (f64_of_int a) (f64_of_int b) = f64_of_int (a + b).
Proof.
  intros Ha Hb Hab. rewrite !f64_of_int_exact by done.
  destruct a as [|m|m]; [by destruct b| |]; (destruct b as [|m'|m']; [done| |]);
    unfold f64_add, exact, canon, SFadd;
    (apply (aligned_exact Z.add); [intros; lia|apply safe_dg; lia..|simpl; lia]).
Qed.

Lemma f64_sub_int a b :
  Z.abs a < max_safe -> Z.abs b < max_safe -> Z.abs (a - b) < max_safe ->
  f64_sub (f64_of_int a) (f64_of_int b) = f64_of_int (a - b).
Proof.
  intros Ha Hb Hab. rewrite !f64_of_int_exact by done.
  destruct a as [|m|m]; [by destruct b| |]; (destruct b as [|m'|m']; [by rewrite Z.sub_0_r| |]);
    unfold f64_sub, exact, canon, SFsub;
    (apply (aligned_exact Z.sub); [intros; lia|apply safe_dg; lia..|simpl; lia]).
Qed.

Lemma mant_compare m m' :
  dg m <= 53 -> dg m' <= 53 ->
  match dg m - 53 ?= dg m' - 53 with Eq => Pos.compare_cont Eq (mant m) (mant m') | c => c end =
  (Z.pos m ?= Z.pos m').
Proof.
  intros Hd Hd'. destruct (dg_bounds m) as [Hl Hu], (dg_bounds m') as [Hl' Hu'].
  assert (0 < dg m) by (unfold dg; lia). assert (0 < dg m') by (unfold dg; lia).
  destruct (Z.compare_spec (dg m - 53) (dg m' - 53)) as [He|He|He].
  - change (Pos.compare_cont Eq (mant m) (mant m')) with (Z.pos (mant m) ?= Z.pos (mant m')).
    rewrite !mant_eq by done. replace (dg m') with (dg m) by lia.
    assert (0 < 2 ^ (53 - dg m)) by lia.
    destruct (Z.compare_spec (Z.pos m) (Z.pos m')); [apply Z.compare_eq_iff|apply Z.compare_lt_iff|
      apply Z.compare_gt_iff]; nia.
  - symmetry. apply Z.compare_lt_iff. assert (2 ^ dg m <= 2 ^ (dg m' - 1)) by (apply Z.pow_le_mono_r; lia). lia.
  - symmetry. apply Z.compare_gt_iff. assert (2 ^ dg m' <= 2 ^ (dg m - 1)) by (apply Z.pow_le_mono_r; lia). lia.
Qed.

Lemma f64_lt_int a b :
  Z.abs a < max_safe -> Z.abs b < max_safe -> f64_lt (f64_of_int a) (f64_of_int b) = (a <? b).
Proof.
  intros Ha Hb. rewrite !f64_of_int_exact by done. unfold f64_lt, SFltb.
  destruct a as [|m|m], b as [|m'|m']; try done; cbn [exact canon SFcompare].
  - rewrite mant_compare by (apply safe_dg; lia). done.
  - unfold canon. cbn [SFcompare].
    pose proof (mant_compare m m' ltac:(apply safe_dg; lia) ltac:(apply safe_dg; lia)) as Hc.
    unfold Z.ltb. cbn [Z.compare] in *. unfold Pos.compare in *. rewrite <-Hc.
    by destruct (dg m - 53 ?= dg m' - 53).
Qed.
