(* ===== verification/Bank.v ===== *)
(** * Bank: the property of a larger client ([examples/remote_complex.rs])

    A bank is entrusted to a remote trustee; threads create users and transfer
    money with [apply_with].  The trustee runs these closures one after the
    other ([Interleaving]), in some order; this file models them with the
    [f64] arithmetic they use and proves what any such order preserves. *)
From S2P Require Import Prelude F64.
From stdpp Require Import pretty.
Local Open Scope Z_scope.

(** ** Data *)

Record User := { id : Z; name : string; balance : f64; last_login : Z }.

Record Transaction := { from : Z; to : Z; amount : f64; timestamp : Z }.

Record BankState := {
  users : gmap Z User;
  transactions : list Transaction;
  next_user_id : Z;
  total_balance : f64;
}.

Definition set_balance (u : User) (x : f64) : User :=
  {| id := id u; name := name u; balance := x; last_login := last_login u |}.

(** ** Operations *)

(** [BankState::new]. *)
Definition new : BankState :=
  {| users := ∅; transactions := []; next_user_id := 1; total_balance := f64_of_int 0 |}.

(** [x + 1] on [u64]: a panic with overflow checks, a wrap without. *)
Definition incr_u64 (checks : bool) (x : Z) : res Z :=
  if x + 1 <? 2 ^ 64 then Ok (x + 1)
  else if checks then Panic "attempt to add with overflow" else Ok ((x + 1) mod 2 ^ 64).

Definition create_user (checks : bool) (b : BankState) (nm : string) (initial : f64) : res (Z * BankState) :=
  let user_id := next_user_id b in
  next ← incr_u64 checks (next_user_id b);
  let user := {| id := user_id; name := nm; balance := initial; last_login := 0 |} in
  Ok (user_id, {| users := <[user_id := user]> (users b); transactions := transactions b;
                  next_user_id := next; total_balance := f64_add (total_balance b) initial |}).

Definition not_found (k : Z) : string := ("User " +:+ pretty k +:+ " not found")%string.
Definition insufficient (x : f64) : string := ("Insufficient balance: " +:+ f64_fixed2 x)%string.

(** [get_mut(&k)] followed by an assignment to [balance]. *)
Definition update_balance (k : Z) (f : f64 -> f64) (m : gmap Z User) : gmap Z User :=
  alter (fun u => set_balance u (f (balance u))) k m.

Definition transfer (b : BankState) (f t : Z) (x : f64) : (unit + string) * BankState :=
  match users b !! f, users b !! t with
  | None, _ => (inr (not_found f), b)
  | _, None => (inr (not_found t), b)
  | Some from_user, Some _ =>
      if f64_lt (balance from_user) x then (inr (insufficient (balance from_user)), b)
      else
        let m := update_balance f (fun y => f64_sub y x) (users b) in
        let m := update_balance t (fun y => f64_add y x) m in
        let tx := {| from := f; to := t; amount := x; timestamp := Z.of_nat (length (transactions b)) |} in
        (inl (), {| users := m; transactions := transactions b ++ [tx]; next_user_id := next_user_id b;
                    total_balance := total_balance b |})
  end.

(** The two closures that clients delegate, and their replies. *)
Inductive op := Create (nm : string) (initial : f64) | Transfer (f t : Z) (x : f64).
Inductive reply := Created (k : Z) | Transferred (r : unit + string).

Definition perform (checks : bool) (b : BankState) (o : op) : res (reply * BankState) :=
  match o with
  | Create nm x => '(k, b) ← create_user checks b nm x; Ok (Created k, b)
  | Transfer f t x => let '(r, b) := transfer b f t x in Ok (Transferred r, b)
  end.

Fixpoint performs (checks : bool) (b : BankState) (ops : list op) : res (list reply * BankState) :=
  match ops with
  | [] => Ok ([], b)
  | o :: ops =>
      '(r, b) ← perform checks b o;
      '(rs, b) ← performs checks b ops;
      Ok (r :: rs, b)
  end.

Example insufficient_message :
  insufficient (f64_of_int 200) = "Insufficient balance: 200.00"%string.
Proof. vm_compute. reflexivity. Qed.

(** ** The ledger: the bank on whole amounts *)

Record ledger := {
  l_balances : gmap Z Z;
  l_log : list (Z * Z * Z);
  l_next : Z;
}.

Definition l_new : ledger := {| l_balances := ∅; l_log := []; l_next := 1 |}.

Inductive l_op := LCreate (nm : string) (v : Z) | LTransfer (f t v : Z).
Inductive refusal := NoUser (k : Z) | Short (v : Z).
Inductive l_reply := LCreated (k : Z) | LTransferred (r : unit + refusal).

Definition l_perform (L : ledger) (o : l_op) : l_reply * ledger :=
  match o with
  | LCreate _ v =>
      (LCreated (l_next L), {| l_balances := <[l_next L := v]> (l_balances L); l_log := l_log L;
                               l_next := l_next L + 1 |})
  | LTransfer f t v =>
      match l_balances L !! f, l_balances L !! t with
      | None, _ => (LTransferred (inr (NoUser f)), L)
      | _, None => (LTransferred (inr (NoUser t)), L)
      | Some x, Some _ =>
          if x <? v then (LTransferred (inr (Short x)), L)
          else (LTransferred (inl ()),
                {| l_balances := alter (fun y => y + v) t (alter (fun y => y - v) f (l_balances L));
                   l_log := l_log L ++ [(f, t, v)]; l_next := l_next L |})
      end
  end.

Fixpoint l_performs (L : ledger) (ops : list l_op) : list l_reply * ledger :=
  match ops with
  | [] => ([], L)
  | o :: ops =>
      let '(r, L) := l_perform L o in
      let '(rs, L) := l_performs L ops in (r :: rs, L)
  end.

(** All the money in the bank. *)
Definition total (m : gmap Z Z) : Z := map_fold (fun _ v acc => v + acc) 0 m.

(** ** The bank represents the ledger *)

Definition op_of (o : l_op) : op :=
  match o with
  | LCreate nm v => Create nm (f64_of_int v)
  | LTransfer f t v => Transfer f t (f64_of_int v)
  end.
Definition refusal_message (r : refusal) : string :=
  match r with NoUser k => not_found k | Short v => insufficient (f64_of_int v) end.
Definition reply_of (r : l_reply) : reply :=
  match r with
  | LCreated k => Created k
  | LTransferred r => Transferred (sum_map (fun u => u) refusal_message r)
  end.

Definition tx_of (i : nat) (e : Z * Z * Z) : Transaction :=
  let '(f, t, v) := e in {| from := f; to := t; amount := f64_of_int v; timestamp := Z.of_nat i |}.

Record represents (b : BankState) (L : ledger) : Prop := {
  rp_balances : balance <$> users b = f64_of_int <$> l_balances L;
  rp_ids : forall k u, users b !! k = Some u -> id u = k;
  rp_log : transactions b = imap tx_of (l_log L);
  rp_next : next_user_id b = l_next L;
  rp_total : total_balance b = f64_of_int (total (l_balances L));
}.

(** Nobody owes money, and the identifiers are below the next one. *)
Record solvent (L : ledger) : Prop := {
  sv_balances : map_Forall (fun k v => k < l_next L /\ 0 <= v) (l_balances L);
  sv_total : total (l_balances L) < max_safe;
  sv_next : 1 <= l_next L;
}.

(** *** Totals *)

Lemma total_insert m k v : m !! k = None -> total (<[k := v]> m) = v + total m.
Proof. intros Hk. unfold total. rewrite map_fold_insert_L; [done| |done]. intros. lia. Qed.

Lemma total_delete m k v : m !! k = Some v -> total m = v + total (delete k m).
Proof. intros Hk. unfold total. rewrite (map_fold_delete_L _ _ k v); [done| |done]. intros. lia. Qed.

Lemma total_alter m k f v : m !! k = Some v -> total (alter f k m) = total m - v + f v.
Proof.
  intros Hk. rewrite (total_delete m k v Hk), (total_delete _ k (f v)), delete_alter_eq.
  - lia.
  - by rewrite lookup_alter_eq, Hk.
Qed.

Lemma total_ge m : map_Forall (fun _ v => 0 <= v) m -> 0 <= total m.
Proof.
  induction m as [|k v m Hk IH] using map_ind; [done|]. intros Hall.
  apply map_Forall_insert in Hall as [Hv Hall]; [|done]. rewrite total_insert by done.
  specialize (IH Hall). lia.
Qed.

Lemma total_lookup m k v : map_Forall (fun _ v => 0 <= v) m -> m !! k = Some v -> 0 <= v <= total m.
Proof.
  intros Hall Hk. split; [by apply (Hall k)|]. rewrite (total_delete m k v Hk).
  assert (0 <= total (delete k m)); [|lia]. apply total_ge. by apply map_Forall_delete.
Qed.

Lemma solvent_nonneg L : solvent L -> map_Forall (fun _ v => 0 <= v) (l_balances L).
Proof. intros [Hb _ _] k v Hk. by apply (Hb k v Hk). Qed.

(** *** One operation *)

Lemma balance_alter m n k f g :
  balance <$> m = f64_of_int <$> n ->
  (forall v, n !! k = Some v -> f (f64_of_int v) = f64_of_int (g v)) ->
  balance <$> update_balance k f m = f64_of_int <$> alter g k n.
Proof.
  intros Hm Hk. unfold update_balance.
  rewrite (fmap_alter balance (fun u => set_balance u (f (balance u))) f) by done.
  rewrite Hm. symmetry. apply fmap_alter. intros v Hv. symmetry. by apply Hk.
Qed.

Lemma represents_lookup b L k :
  represents b L ->
  match l_balances L !! k with
  | Some v => exists u, users b !! k = Some u /\ balance u = f64_of_int v
  | None => users b !! k = None
  end.
Proof.
  intros Hr. pose proof (f_equal (lookup k) (rp_balances _ _ Hr)) as He. rewrite !lookup_fmap in He.
  destruct (l_balances L !! k) as [v|], (users b !! k) as [u|]; simplify_eq/=; eauto.
Qed.

Lemma update_ids k f m :
  (forall j (u : User), m !! j = Some u -> id u = j) ->
  forall j u, update_balance k f m !! j = Some u -> id u = j.
Proof.
  intros Hm j u Hj. unfold update_balance in Hj. apply lookup_alter_Some in Hj as [(-> & v & Hv & ->)|[_ Hj]].
  - by apply (Hm _ v).
  - by apply Hm.
Qed.

Lemma represents_create checks b L nm v :
  represents b L -> solvent L -> 0 <= v -> total (l_balances L) + v < max_safe -> l_next L + 1 < 2 ^ 64 ->
  exists b', create_user checks b nm (f64_of_int v) = Ok (l_next L, b') /\
    represents b' (snd (l_perform L (LCreate nm v))) /\ solvent (snd (l_perform L (LCreate nm v))).
Proof.
  intros [Hb Hi Hl Hn Ht] Hs Hv Htot Hnext. pose proof (solvent_nonneg _ Hs) as Hnn.
  pose proof (total_ge _ Hnn) as Hge. pose proof Hs as [Hs1 Hs2 Hs3].
  assert (Hfresh : l_balances L !! l_next L = None).
  { destruct (l_balances L !! l_next L) as [x|] eqn:Hx; [|done]. destruct (Hs1 _ _ Hx). lia. }
  unfold create_user, incr_u64. rewrite Hn, (proj2 (Z.ltb_lt _ _)) by lia.
  eexists. split; [reflexivity|]. split.
  - split; cbn; [by rewrite !fmap_insert, Hb| |done|done|].
    + intros k u [[<- <-]|[_ Hk]]%lookup_insert_Some; [done|]. by apply Hi.
    + rewrite Ht, f64_add_int, total_insert by (done || lia). by rewrite Z.add_comm.
  - split; cbn; [|rewrite total_insert by done; lia|lia].
    apply map_Forall_insert_2; [lia|]. eapply map_Forall_impl; [exact Hs1|]. cbn. intros k x ?. lia.
Qed.

Lemma represents_transfer b L f t v :
  represents b L -> solvent L -> 0 <= v < max_safe ->
  let '(r, L') := l_perform L (LTransfer f t v) in
  let '(r', b') := transfer b f t (f64_of_int v) in
  Transferred r' = reply_of r /\ represents b' L' /\ solvent L'.
Proof.
  intros Hr Hs Hv. pose proof (represents_lookup _ _ f Hr) as Hf. pose proof (represents_lookup _ _ t Hr) as Ht.
  unfold l_perform, transfer. destruct (l_balances L !! f) as [x|] eqn:Hx; [|by rewrite Hf].
  destruct Hf as (uf & Huf & Hbf). rewrite Huf.
  destruct (l_balances L !! t) as [y|] eqn:Hy; [|by rewrite Ht].
  destruct Ht as (ut & Hut & Hbt). rewrite Hut, Hbf.
  pose proof (solvent_nonneg _ Hs) as Hnn. pose proof Hs as [Hs1 Hs2 Hs3].
  pose proof (total_lookup _ _ _ Hnn Hx) as Hxt. rewrite f64_lt_int by lia.
  destruct (x <? v) eqn:Hlt; [done|]. apply Z.ltb_ge in Hlt.
  set (m1 := alter (fun y => y - v) f (l_balances L)).
  assert (Hnn1 : map_Forall (fun _ z => 0 <= z) m1).
  { intros k z [(-> & w & Hw & ->)|[_ Hz]]%lookup_alter_Some; [|by apply (Hnn k)].
    rewrite Hx in Hw. simplify_eq. lia. }
  assert (Htot1 : total m1 = total (l_balances L) - v) by (unfold m1; rewrite (total_alter _ _ _ _ Hx); lia).
  assert (Hy1 : exists z, m1 !! t = Some z).
  { unfold m1. destruct (decide (f = t)) as [->|Hne]; [rewrite lookup_alter_eq, Hy; by eexists|].
    rewrite lookup_alter_ne by done. eauto. }
  destruct Hy1 as [z Hz]. pose proof (total_lookup _ _ _ Hnn1 Hz) as Hzt.
  assert (Htot : total (alter (fun y => y + v) t m1) = total (l_balances L))
    by (rewrite (total_alter _ _ _ _ Hz); lia).
  destruct Hr as [Hb Hi Hl Hn Ht]. split; [done|]. split.
  - split; cbn; [| | |done|].
    + apply balance_alter; [apply balance_alter; [done|]|].
      * intros w Hw. rewrite Hx in Hw. simplify_eq. apply f64_sub_int; lia.
      * intros w Hw. fold m1 in Hw. rewrite Hz in Hw. simplify_eq. apply f64_add_int; lia.
    + by apply update_ids, update_ids.
    + rewrite Hl, imap_app. cbn. by rewrite length_imap, Nat.add_0_r.
    + fold m1. by rewrite Htot.
  - split; cbn; fold m1; [|by rewrite Htot|done].
    intros k w Hk. split.
    + assert (is_Some (l_balances L !! k)) as [w' Hw'].
      { apply (lookup_alter_is_Some (fun y => y - v) (l_balances L) f k).
        apply (lookup_alter_is_Some (fun y => y + v) m1 t k). eauto. }
      by apply (Hs1 _ _ Hw').
    + apply lookup_alter_Some in Hk as [(-> & w' & Hw' & ->)|[_ Hk]]; [|by apply (Hnn1 k)].
      specialize (Hnn1 _ _ Hw'). cbn in Hnn1. lia.
Qed.

(** *** Many operations *)

Definition l_op_ok (o : l_op) : Prop :=
  match o with LCreate _ v => 0 <= v | LTransfer _ _ v => 0 <= v < max_safe end.

(** The money that users bring. *)
Definition brought (ops : list l_op) : Z :=
  foldr (fun o acc => match o with LCreate _ v => v + acc | LTransfer _ _ _ => acc end) 0 ops.

Lemma brought_nonneg ops : Forall l_op_ok ops -> 0 <= brought ops.
Proof.
  induction 1 as [|o ops Ho _ IH]; [done|]. unfold brought in *. destruct o; cbn [l_op_ok foldr] in *; lia.
Qed.

Lemma l_transfer_total L f t v :
  total (l_balances (snd (l_perform L (LTransfer f t v)))) = total (l_balances L).
Proof.
  cbn. destruct (l_balances L !! f) as [x|] eqn:Hx; [|done].
  destruct (l_balances L !! t) as [y|] eqn:Hy; [|done]. destruct (x <? v); [done|]. cbn.
  assert (exists z, alter (fun y => y - v) f (l_balances L) !! t = Some z) as [z Hz].
  { destruct (decide (f = t)) as [->|Hne]; [rewrite lookup_alter_eq, Hy; by eexists|].
    rewrite lookup_alter_ne by done. eauto. }
  rewrite (total_alter _ _ _ _ Hz), (total_alter _ _ _ _ Hx). lia.
Qed.

Lemma performs_represents checks ops b L :
  represents b L -> solvent L -> Forall l_op_ok ops ->
  total (l_balances L) + brought ops < max_safe -> l_next L + Z.of_nat (length ops) < 2 ^ 64 ->
  exists b', performs checks b (op_of <$> ops) = Ok (reply_of <$> fst (l_performs L ops), b') /\
    represents b' (snd (l_performs L ops)) /\
    total (l_balances (snd (l_performs L ops))) = total (l_balances L) + brought ops.
Proof.
  revert b L. induction ops as [|o ops IH]; intros b L Hr Hs Hok Htot Hn.
  { exists b. split; [done|]. split; [done|]. cbn. lia. }
  apply Forall_cons in Hok as [Ho Hok]. pose proof (brought_nonneg _ Hok) as Hbr.
  cbn [length] in Hn.
  assert (Hone : exists b1, perform checks b (op_of o) = Ok (reply_of (fst (l_perform L o)), b1) /\
    represents b1 (snd (l_perform L o)) /\ solvent (snd (l_perform L o)) /\
    total (l_balances (snd (l_perform L o))) + brought ops = total (l_balances L) + brought (o :: ops) /\
    l_next (snd (l_perform L o)) <= l_next L + 1).
  { destruct o as [nm v|f t v]; cbn in Ho.
    - change (brought (LCreate nm v :: ops)) with (v + brought ops) in *.
      destruct (represents_create checks b L nm v) as (b1 & Hc & Hr1 & Hs1); [done..|lia|lia|].
      exists b1. unfold perform, op_of. rewrite Hc. split; [done|]. split; [done|]. split; [done|].
      pose proof Hs as [Hs0 _ _]. cbn [l_perform snd l_balances l_next]. rewrite total_insert; [lia|].
      destruct (l_balances L !! l_next L) as [x|] eqn:Hx; [|done]. destruct (Hs0 _ _ Hx). lia.
    - pose proof (represents_transfer b L f t v Hr Hs Ho) as Ht.
      pose proof (l_transfer_total L f t v) as Hsum.
      assert (l_next (snd (l_perform L (LTransfer f t v))) = l_next L) as Hnx.
      { cbn. destruct (l_balances L !! f); [|done]. destruct (l_balances L !! t); [|done]. by destruct (_ <? _). }
      destruct (l_perform L (LTransfer f t v)) as [r L1]. unfold perform, op_of.
      destruct (transfer b f t (f64_of_int v)) as [r1 b1]. destruct Ht as (He & Hr1 & Hs1).
      exists b1. cbn [fst snd] in *. rewrite He. split; [done|]. split; [done|]. split; [done|].
      change (brought (LTransfer f t v :: ops)) with (brought ops) in *. lia. }
  destruct Hone as (b1 & Hp & Hr1 & Hs1 & Hbal & Hnx). rewrite fmap_cons. cbn [l_performs performs].
  rewrite Hp. cbn [mbind res_bind].
  destruct (l_perform L o) as [r L1]. cbn [fst snd] in *.
  destruct (IH b1 L1) as (b2 & Hp2 & Hr2 & Ht2); [done..|lia|lia|].
  destruct (l_performs L1 ops) as [rs L2]. cbn [fst snd] in *.
  exists b2. rewrite Hp2. split; [done|]. split; [done|]. cbn [snd]. lia.
Qed.

Lemma new_represents : represents new l_new.
Proof. by split. Qed.
Lemma new_solvent : solvent l_new.
Proof. split; cbn; [apply map_Forall_empty|done|lia]. Qed.

(** ** Properties *)


(** [transfer] does not look at the sign of the amount, nor at NaN: a
    negative amount is accepted whatever the payee owns and moves the money
    the other way, below zero if need be; NaN is accepted and both balances
    become NaN. *)
Theorem transfer_accepts_any_amount (b : BankState) (f t : Z) (uf ut : User) (x y k : Z)
    (Hf : users b !! f = Some uf) (Ht : users b !! t = Some ut) (Hne : f <> t)
    (Hx : balance uf = f64_of_int x) (Hy : balance ut = f64_of_int y)
    (Hk : 0 < k < 2 ^ 51) (Hxr : 0 <= x < 2 ^ 51) (Hyr : 0 <= y < 2 ^ 51) :
  (exists b', transfer b f t (f64_of_int (- k)) = (inl (), b') /\
     balance <$> users b' !! f = Some (f64_of_int (x + k)) /\
     balance <$> users b' !! t = Some (f64_of_int (y - k))) /\
  (exists b', transfer b f t f64_nan = (inl (), b') /\
     balance <$> users b' !! f = Some f64_nan /\ balance <$> users b' !! t = Some f64_nan).
Proof.
  assert (Hlook : forall v,
    (balance <$> update_balance t (fun z => f64_add z v) (update_balance f (fun z => f64_sub z v) (users b)) !! f =
       Some (f64_sub (balance uf) v)) /\
    (balance <$> update_balance t (fun z => f64_add z v) (update_balance f (fun z => f64_sub z v) (users b)) !! t =
       Some (f64_add (balance ut) v))).
  { intros v. unfold update_balance.
    rewrite lookup_alter_ne, !lookup_alter_eq, lookup_alter_ne, Hf, Ht by done. done. }
  assert (max_safe = 4 * 2 ^ 51) by reflexivity. unfold transfer. rewrite Hf, Ht. split.
  - rewrite Hx, f64_lt_int, (proj2 (Z.ltb_ge _ _)) by lia. eexists. split; [reflexivity|]. cbn [users].
    destruct (Hlook (f64_of_int (- k))) as [-> ->].
    rewrite Hx, Hy, f64_sub_int, f64_add_int by lia. split; do 2 f_equal; lia.
  - assert (f64_lt (balance uf) f64_nan = false) as -> by (by destruct (balance uf)).
    eexists. split; [reflexivity|]. cbn [users]. destruct (Hlook f64_nan) as [-> ->].
    split; f_equal; [by destruct (balance uf)|by destruct (balance ut)].
Qed.

(** ** Runs *)

(** The first calls of [main], a refused transfer and an accepted one. *)
Definition run : list l_op :=
  [LCreate "Alice" 1000; LCreate "Bob" 500; LCreate "Charlie" 200; LTransfer 3 1 300; LTransfer 1 2 10;
   LTransfer 9 1 1].


Definition two_users : BankState :=
  {| users := {[ 1 := {| id := 1; name := "Alice"; balance := f64_of_int 10; last_login := 0 |};
                 2 := {| id := 2; name := "Bob"; balance := f64_of_int 5; last_login := 0 |} ]};
     transactions := []; next_user_id := 3; total_balance := f64_of_int 15 |}.

(** Alice takes 20 out of Bob's 5. *)
Lemma transfer_accepts_any_amount_witness :
  exists b', transfer two_users 1 2 (f64_of_int (- 20)) = (inl (), b') /\
    balance <$> users b' !! 1 = Some (f64_of_int 30) /\
    balance <$> users b' !! 2 = Some (f64_of_int (- 15)).
Proof.
  refine (proj1 (transfer_accepts_any_amount two_users 1 2 _ _ 10 5 20 eq_refl eq_refl _ eq_refl eq_refl
            _ _ _)); lia.
Defined.
