(* ===== verification/BankMain.v ===== *)
(** * BankMain: the threads of [examples/remote_complex.rs]

    [main] creates three users, five threads create one each, ten threads
    transfer money between the first three.  The trustee runs the closures of
    the threads in some order that keeps the order of each thread, as [Linear]
    shows of all clients: every such order is considered.  Each transfer thread
    counts the answers it gets in two [i32]. *)
From stdpp Require Import pretty.
From S2P Require Import Prelude Serialization Remote Ints Linear F64 Bank.
Local Open Scope Z_scope.

(** ** The program *)

(** The three calls of [main], whose replies are [alice_id], [bob_id] and
    [charlie_id]. *)
Definition founders : list l_op := [LCreate "Alice" 1000; LCreate "Bob" 500; LCreate "Charlie" 200].

(** [for i in 0..5]: one call in each thread. *)
Definition joiner (i : nat) : l_op :=
  LCreate ("ConcurrentUser" +:+ pretty (Z.of_nat i)) (100 * (Z.of_nat i + 1)).
Definition joiners : list (list l_op) := map (fun i => [joiner i]) (seq 0 5).

(** One iteration of a stress thread. *)
Definition pick (ids : Z * Z * Z) (j : nat) : Z :=
  let '(alice_id, bob_id, charlie_id) := ids in
  if (j mod 3 =? 0)%nat then alice_id else if (j mod 3 =? 1)%nat then bob_id else charlie_id.
Definition stress (ids : Z * Z * Z) (j : nat) : l_op :=
  LTransfer (pick ids j) (pick ids (j + 1)) (Z.of_nat (j mod 10) + 1).
(** [for _ in 0..10], each thread with [iter] iterations. *)
Definition stressors (ids : Z * Z * Z) (iter : nat) : list (list l_op) := replicate 10 (map (stress ids) (seq 0 iter)).

(** [match result { Ok(()) => success_count += 1, Err(_) => fail_count += 1 }],
    and all iterations of a thread, from the answers its calls return. *)
Definition count (checks : bool) (c : i32 * i32) (result : unit + string) : exit (i32 * i32) :=
  let '(success_count, fail_count) := c in
  match result with
  | inl _ => match add checks success_count 1 with Returned n => Returned (n, fail_count) | Panicked => Panicked end
  | inr _ => match add checks fail_count 1 with Returned n => Returned (success_count, n) | Panicked => Panicked end
  end.
Fixpoint counts (checks : bool) (c : i32 * i32) (results : list (unit + string)) : exit (i32 * i32) :=
  match results with
  | [] => Returned c
  | r :: results => match count checks c r with Returned c => counts checks c results | Panicked => Panicked end
  end.
Definition stress_thread (checks : bool) (results : list (unit + string)) : exit (i32 * i32) :=
  counts checks (wrap 0, wrap 0) results.

(** The answers to thread [i], if the calls were served in this order. *)
Definition answers_of (i : nat) (order : list (nat * l_op)) (rs : list (unit + string)) : list (unit + string) :=
  of_client i (zip order.*1 rs).

(** An order in which the trustee can meet the transfers of the ten threads. *)
Definition stress_order (ids : Z * Z * Z) (iter : nat) (order : list (nat * l_op)) : Prop :=
  Forall (fun x => x.1 < 10)%nat order /\
  forall i, (i < 10)%nat -> of_client i order = map (stress ids) (seq 0 iter).

Lemma stress_order_interleaves ids iter order :
  stress_order ids iter order -> interleaves (stressors ids iter) order.*2.
Proof.
  intros [Hlt Hall]. replace (stressors ids iter) with (map (fun i => of_client i order) (seq 0 10)).
  - by apply interleaves_clients.
  - cbn [seq map]. rewrite !Hall by lia. reflexivity.
Qed.

(** ** The counters *)

Definition oks (results : list (unit + string)) : nat := length (filter (fun r => r = inl ()) results).

Lemma oks_cons r results : oks (r :: results) = ((match r with inl _ => 1 | inr _ => 0 end) + oks results)%nat.
Proof. unfold oks. rewrite filter_cons. destruct r as [[]|]; [by rewrite decide_True|by rewrite decide_False]. Qed.
Lemma oks_le results : (oks results <= length results)%nat.
Proof. apply length_filter. Qed.

Lemma in_i32 z : in_int true 4 z <-> - 2 ^ 31 <= z < 2 ^ 31.
Proof. reflexivity. Qed.

(** As long as they fit, the counters count. *)
Lemma counts_ok checks s f results :
  int_val s + Z.of_nat (length results) < 2 ^ 31 -> int_val f + Z.of_nat (length results) < 2 ^ 31 ->
  exists s' f', counts checks (s, f) results = Returned (s', f') /\
    int_val s' = int_val s + Z.of_nat (oks results) /\
    int_val f' = int_val f + Z.of_nat (length results - oks results).
Proof.
  revert s f. induction results as [|r results IH]; intros s f Hs Hf.
  { exists s, f. unfold oks. cbn. split; [done|]. lia. }
  assert (forall a : i32, int_val a + Z.of_nat (length (r :: results)) < 2 ^ 31 ->
    add checks a 1 = Returned (wrap (int_val a + 1)) /\ int_val (wrap (s := true) (n := 4) (int_val a + 1)) = int_val a + 1)
    as Hadd.
  { intros a Ha. pose proof (proj1 (in_i32 _) (int_in a)) as Hin. cbn [length] in Ha.
    assert (in_int true 4 (int_val a + 1)) by (apply in_i32; lia).
    split; [by apply add_small|by apply wrap_val]. }
  destruct (Hadd s Hs) as [Hs1 Hs2]. destruct (Hadd f Hf) as [Hf1 Hf2]. cbn [length] in Hs, Hf.
  pose proof (oks_le results). rewrite oks_cons. cbn [counts count length]. destruct r as [u|e].
  - rewrite Hs1. destruct (IH (wrap (int_val s + 1)) f) as (s' & f' & He & H1 & H2); [lia|lia|].
    exists s', f'. split; [exact He|]. lia.
  - rewrite Hf1. destruct (IH s (wrap (int_val f + 1))) as (s' & f' & He & H1 & H2); [lia|lia|].
    exists s', f'. split; [exact He|]. lia.
Qed.

(** One success more than [i32] holds, and the thread panics if overflow is
    checked. *)
Lemma success_count_overflows s f results :
  int_val s = 2 ^ 31 - 1 -> counts true (s, f) (inl () :: results) = Panicked.
Proof.
  intros Hs. cbn [counts count]. unfold add. rewrite decide_False; [done|].
  rewrite in_i32. lia.
Qed.

Lemma answers_length i order rs :
  length rs = length order -> length (answers_of i order rs) = length (of_client i order).
Proof.
  intros Hl. apply of_client_length. rewrite fst_zip; [done|]. rewrite length_fmap. lia.
Qed.

(** The balance a joiner asks for is computed in [f64]. *)
Lemma joiner_balance i : (i < 5)%nat ->
  f64_mul (f64_of_int 100) (f64_of_int (Z.of_nat i + 1)) = f64_of_int (100 * (Z.of_nat i + 1)).
Proof. intros Hi. do 5 (destruct i as [|i]; [vm_compute; reflexivity|]). lia. Qed.

(** ** Orders *)

Lemma brought_perm ops ops' : ops ≡ₚ ops' -> brought ops = brought ops'.
Proof. unfold brought. induction 1 as [|o ops ops' _ IH|o o' ops|]; simpl; [done|by rewrite IH|destruct o, o'; lia|congruence]. Qed.

Lemma brought_app ops ops' : brought (ops ++ ops') = brought ops + brought ops'.
Proof. unfold brought. induction ops as [|o ops IH]; simpl; [done|]. rewrite IH. destruct o; lia. Qed.

(** ** The ledger on the three phases *)

Lemma l_performs_app L ops ops' :
  l_performs L (ops ++ ops') =
  let '(rs, L1) := l_performs L ops in let '(rs', L2) := l_performs L1 ops' in (rs ++ rs', L2).
Proof.
  revert L. induction ops as [|o ops IH]; intros L; simpl; [by destruct (l_performs L ops')|].
  destruct (l_perform L o) as [r L1]. rewrite IH. destruct (l_performs L1 ops) as [rs L2].
  by destruct (l_performs L2 ops').
Qed.

Lemma l_performs_length L ops : length (fst (l_performs L ops)) = length ops.
Proof.
  revert L. induction ops as [|o ops IH]; intros L; simpl; [done|]. destruct (l_perform L o) as [r L1].
  specialize (IH L1). destruct (l_performs L1 ops). simpl in *. lia.
Qed.

Definition is_create (o : l_op) : Prop := match o with LCreate _ _ => True | LTransfer _ _ _ => False end.

(** Creations answer with successive ids and keep the users there are. *)
Lemma l_creates L ops :
  Forall is_create ops ->
  fst (l_performs L ops) = LCreated <$> seqZ (l_next L) (Z.of_nat (length ops)) /\
  (forall k, k < l_next L -> l_balances (snd (l_performs L ops)) !! k = l_balances L !! k) /\
  l_next (snd (l_performs L ops)) = l_next L + Z.of_nat (length ops) /\
  l_log (snd (l_performs L ops)) = l_log L.
Proof.
  intros Hall. revert L. induction Hall as [|o ops Ho _ IH]; intros L.
  { split; [done|]. split; [done|]. split; [simpl; lia|done]. }
  destruct o as [nm v|]; [|done]. cbn [l_performs l_perform].
  set (L1 := {| l_balances := <[l_next L := v]> (l_balances L); l_log := l_log L; l_next := l_next L + 1 |}).
  destruct (IH L1) as (Hr & Hb & Hn & Hlog). destruct (l_performs L1 ops) as [rs L2]. cbn [fst snd length] in *.
  split; [rewrite seqZ_cons by lia; rewrite Hr; simpl; repeat f_equal; lia|].
  split; [|split; [rewrite Hn; simpl; lia|by rewrite Hlog]].
  intros k Hk. rewrite Hb by (simpl; lia). simpl. by rewrite lookup_insert_ne by lia.
Qed.

(** A reply of a transfer between users that exist. *)
Definition moved_or_short (r : l_reply) : Prop :=
  exists e, r = LTransferred e /\ (e = inl () \/ exists v, e = inr (Short v)).
Definition succeeded (r : l_reply) : bool := match r with LTransferred (inl _) => true | _ => false end.

Definition between (users : gset Z) (o : l_op) : Prop :=
  match o with LTransfer f t _ => f ∈ users /\ t ∈ users | LCreate _ _ => False end.

Lemma l_transfer_between L f t v :
  is_Some (l_balances L !! f) -> is_Some (l_balances L !! t) ->
  let '(r, L1) := l_perform L (LTransfer f t v) in
  moved_or_short r /\ dom (l_balances L1) = dom (l_balances L) /\
  length (l_log L1) = (length (l_log L) + if succeeded r then 1 else 0)%nat.
Proof.
  intros [x Hx] [y Hy]. cbn. rewrite Hx, Hy. destruct (x <? v) eqn:Hlt.
  - split; [|split; [done|simpl; lia]]. eexists. split; [done|]. right. by eexists.
  - split; [eexists; split; [done|by left]|]. split; [simpl; by rewrite !dom_alter_L|]. simpl. by rewrite length_app.
Qed.

Lemma l_transfers L users ops :
  Forall (between users) ops -> users ⊆ dom (l_balances L) ->
  let '(rs, L1) := l_performs L ops in
  Forall moved_or_short rs /\ dom (l_balances L1) = dom (l_balances L) /\
  length (l_log L1) = (length (l_log L) + length (filter (fun r => succeeded r = true) rs))%nat.
Proof.
  intros Hall Hu. revert L Hu. induction Hall as [|o ops Ho _ IH]; intros L Hu.
  { split; [done|]. split; [done|]. simpl. lia. }
  destruct o as [|f t v]; [done|]. destruct Ho as [Hf Ht]. cbn [l_performs].
  pose proof (l_transfer_between L f t v) as Hone. destruct (l_perform L (LTransfer f t v)) as [r L1].
  destruct Hone as (Hr & Hd & Hl); [by apply elem_of_dom, Hu|by apply elem_of_dom, Hu|].
  specialize (IH L1 ltac:(by rewrite Hd)). destruct (l_performs L1 ops) as [rs L2]. destruct IH as (Hrs & Hd2 & Hl2).
  split; [by constructor|]. split; [by rewrite Hd2|]. rewrite Hl2, Hl, filter_cons. destruct (succeeded r); simpl; lia.
Qed.

(** Nobody is overdrawn. *)
Definition no_debts (L : ledger) : Prop := map_Forall (fun _ v => 0 <= v) (l_balances L).

Lemma l_perform_no_debts L o : l_op_ok o -> no_debts L -> no_debts (snd (l_perform L o)).
Proof.
  intros Ho Hn. destruct o as [nm v|f t v]; cbn in *; [by apply map_Forall_insert_2|].
  destruct (l_balances L !! f) as [x|] eqn:Hx; [|done]. destruct (l_balances L !! t) as [y|]; [|done].
  destruct (Z.ltb_spec x v) as [Hlt|Hge]; [done|]. cbn.
  assert (map_Forall (fun _ z => 0 <= z) (alter (fun y => y - v) f (l_balances L))) as H1.
  { intros k z [(-> & w & Hw & ->)|[_ Hz]]%lookup_alter_Some; [|by apply (Hn k)].
    rewrite Hx in Hw. simplify_eq. lia. }
  intros k z Hk. cbn in Hk. apply lookup_alter_Some in Hk as [(-> & w & Hw & ->)|[_ Hz]]; [|by apply (H1 k)].
  specialize (H1 _ _ Hw). cbn in H1. lia.
Qed.

Lemma l_performs_no_debts L ops : Forall l_op_ok ops -> no_debts L -> no_debts (snd (l_performs L ops)).
Proof.
  intros Hall. revert L. induction Hall as [|o ops Ho _ IH]; intros L Hn; [done|]. cbn [l_performs].
  pose proof (l_perform_no_debts L o Ho Hn) as H1. destruct (l_perform L o) as [r L1]. cbn in H1.
  specialize (IH L1 H1). by destruct (l_performs L1 ops).
Qed.

(** ** The phases of [main] *)

Lemma joiner_creates : Forall (Forall is_create) joiners.
Proof. unfold joiners. repeat constructor. Qed.

Lemma stress_between ids iter users :
  (forall j, pick ids j ∈ users) -> Forall (Forall (between users)) (stressors ids iter).
Proof.
  intros Hp. unfold stressors. apply Forall_replicate, Forall_fmap, Forall_true. intros j. by split.
Qed.

Lemma stress_brought ids iter : brought (concat (stressors ids iter)) = 0.
Proof.
  unfold stressors. generalize 10%nat as n. intros n.
  assert (forall l : list nat, forall ops, brought ops = 0 -> brought (map (stress ids) l ++ ops) = 0) as Happ.
  { intros l ops Ho. induction l as [|j l IH]; [done|]. exact IH. }
  induction n as [|n IH]; [done|]. simpl. by apply Happ.
Qed.

Lemma ops_of_main_ok ids iter r1 r2 :
  interleaves joiners r1 -> interleaves (stressors ids iter) r2 -> Forall l_op_ok (founders ++ r1 ++ r2).
Proof.
  intros H1 H2. apply Forall_app. split; [repeat constructor; simpl; lia|]. apply Forall_app. split.
  - eapply interleaves_forall; [exact H1|]. repeat constructor; simpl; lia.
  - eapply interleaves_forall; [exact H2|]. apply Forall_replicate, Forall_fmap, Forall_true. intros j.
    pose proof (Nat.mod_upper_bound j 10). unfold compose. simpl. unfold max_safe. lia.
Qed.

(** What the three phases do to the ledger. *)
Lemma l_main iter r1 r2 (L := snd (l_performs l_new founders)) :
  interleaves joiners r1 -> interleaves (stressors (1, 2, 3) iter) r2 ->
  let '(rs, L2) := l_performs l_new (founders ++ r1 ++ r2) in
  exists rs2, rs = (LCreated <$> [1; 2; 3; 4; 5; 6; 7; 8]) ++ rs2 /\ length rs2 = length r2 /\
    Forall moved_or_short rs2 /\ length (l_log L2) = length (filter (fun r => succeeded r = true) rs2).
Proof.
  intros H1 H2. rewrite l_performs_app. destruct (l_performs l_new founders) as [rs0 L0] eqn:H0. rewrite l_performs_app.
  assert (Forall is_create r1) as Hc by (eapply interleaves_forall; [exact H1|apply joiner_creates]).
  assert (length r1 = 5%nat) as Hlen by (by rewrite (interleaves_perm _ _ H1)).
  destruct (l_creates L0 r1 Hc) as (Hr & Hb & Hn & Hlog). rewrite Hlen in Hr.
  destruct (l_performs L0 r1) as [rs1 L1]. cbn [fst snd] in *.
  pose proof (l_transfers L1 {[1; 2; 3]} r2) as Ht. destruct (l_performs L1 r2) as [rs2 L2] eqn:E2.
  assert (L0 = snd (l_performs l_new founders)) as HL0 by (by rewrite H0).
  destruct Ht as (Hrs & _ & Hl).
  - eapply interleaves_forall; [exact H2|]. apply stress_between. intros j. unfold pick.
    repeat case_match; set_solver.
  - intros k Hk. rewrite !elem_of_union, !elem_of_singleton in Hk. apply elem_of_dom.
    destruct Hk as [[->| ->]| ->]; (rewrite Hb; subst L0; [by eexists|done]).
  - exists rs2. split; [|split; [|split; [done|]]].
    + rewrite Hr. replace rs0 with (fst (l_performs l_new founders)) by (by rewrite H0). subst L0. reflexivity.
    + change rs2 with (fst (rs2, L2)). rewrite <-E2. apply l_performs_length.
    + rewrite Hl, Hlog. by subst L0.
Qed.

Lemma replies_of_transfers rs :
  Forall moved_or_short rs ->
  exists rs', reply_of <$> rs = Transferred <$> rs' /\ length rs' = length rs /\
    Forall (fun r => r = inl () \/ exists v, r = inr (insufficient (f64_of_int v))) rs' /\
    length (filter (fun r => r = inl ()) rs') = length (filter (fun r => succeeded r = true) rs).
Proof.
  induction 1 as [|r rs Hr _ (rs' & He & Hl & Hf & Hn)]; [by exists []|].
  destruct Hr as (e & -> & [->|[v ->]]).
  - exists (inl () :: rs'). split; [by rewrite !fmap_cons, He|]. split; [by simpl; rewrite Hl|].
    split; [constructor; [by left|done]|]. rewrite !filter_cons, !decide_True by done. simpl. by rewrite Hn.
  - exists (inr (insufficient (f64_of_int v)) :: rs'). split; [by rewrite !fmap_cons, He|].
    split; [by simpl; rewrite Hl|]. split; [constructor; [right; by eexists|done]|].
    rewrite !filter_cons, !decide_False by done. done.
Qed.

(** What the bank is after the three phases. *)
Lemma bank_on_ledger checks iter r1 r2 :
  interleaves joiners r1 -> interleaves (stressors (1, 2, 3) iter) r2 -> length r2 = (10 * iter)%nat ->
  10 * Z.of_nat iter + 8 < 2 ^ 64 - 1 ->
  exists rs b L, performs checks new (op_of <$> founders ++ r1 ++ r2) =
      Ok ((Created <$> [1; 2; 3; 4; 5; 6; 7; 8]) ++ (Transferred <$> rs), b) /\
    length rs = (10 * iter)%nat /\
    Forall (fun r => r = inl () \/ exists v, r = inr (insufficient (f64_of_int v))) rs /\
    length (transactions b) = oks rs /\
    balance <$> users b = f64_of_int <$> l_balances L /\ no_debts L /\ total (l_balances L) = 3200 /\
    total_balance b = f64_of_int 3200.
Proof.
  intros Hjoin Hstress Hl2 Hiter.
  pose proof (ops_of_main_ok _ _ _ _ Hjoin Hstress) as Hok. pose proof (l_main iter r1 r2 Hjoin Hstress) as Hm.
  assert (brought (founders ++ r1 ++ r2) = 3200) as Hb.
  { rewrite (brought_perm (founders ++ r1 ++ r2) (founders ++ concat joiners ++ concat (stressors (1, 2, 3) iter))).
    - by rewrite !brought_app, stress_brought.
    - by rewrite (interleaves_perm _ _ Hjoin), (interleaves_perm _ _ Hstress). }
  assert (length r1 = 5%nat) as Hl1 by (by rewrite (interleaves_perm _ _ Hjoin)).
  destruct (performs_represents checks _ new l_new new_represents new_solvent Hok) as (b & Hp & Hr & Ht).
  { rewrite Hb. by cbn. }
  { rewrite !length_app, Hl1, Hl2. cbn. lia. }
  pose proof (l_performs_no_debts l_new _ Hok) as Hd.
  destruct (l_performs l_new (founders ++ r1 ++ r2)) as [rs L]. cbn [fst snd] in *.
  destruct Hm as (rs2 & -> & Hlen & Hmoved & Hlog). destruct (replies_of_transfers _ Hmoved) as (rs' & He & Hl' & Hf & Hn).
  change (total (l_balances l_new)) with 0 in Ht. rewrite Hb in Ht. destruct Hr as [Hbal _ Hlg _ Htb].
  exists rs', b, L. split; [rewrite Hp, fmap_app, He; done|]. split; [lia|]. split; [done|].
  split; [by rewrite Hlg, length_imap, Hlog, <-Hn|]. split; [done|].
  split; [apply Hd; apply map_Forall_empty|]. split; [lia|]. rewrite Htb, Ht. done.
Qed.

(** ** Properties *)

(** C34: [main] of the example runs through with at most [i32::MAX]
    iterations, in every order in which the trustee can meet the closures of
    its threads, with or without overflow checks: no closure panics; the
    founders get the identifiers 1, 2 and 3 and the joiners 4 to 8; no transfer
    is refused because of a missing user; each of the ten transfer threads
    returns to its [join] with its [success_count] and [fail_count], which
    count its [Ok] and its [Err] answers, [iter] in all; as many transactions
    are recorded as transfers succeed; at the end the balances are whole
    numbers, none negative, and they add up to 3200, which is
    [total_balance]. *)
Theorem bank_main_runs (checks : bool) (iter : nat) (r1 : list l_op) (order : list (nat * l_op))
    (Hjoin : interleaves joiners r1) (Hstress : stress_order (1, 2, 3) iter order)
    (Hiter : Z.of_nat iter < 2 ^ 31) :
  exists rs b L, performs checks new (op_of <$> founders ++ r1 ++ order.*2) =
      Ok ((Created <$> [1; 2; 3; 4; 5; 6; 7; 8]) ++ (Transferred <$> rs), b) /\
    length rs = (10 * iter)%nat /\
    Forall (fun r => r = inl () \/ exists v, r = inr (insufficient (f64_of_int v))) rs /\
    (forall i, (i < 10)%nat -> exists success_count fail_count,
      stress_thread checks (answers_of i order rs) = Returned (success_count, fail_count) /\
      int_val success_count = Z.of_nat (oks (answers_of i order rs)) /\
      int_val success_count + int_val fail_count = Z.of_nat iter) /\
    length (transactions b) = oks rs /\
    balance <$> users b = f64_of_int <$> l_balances L /\ no_debts L /\ total (l_balances L) = 3200 /\
    total_balance b = f64_of_int 3200.
Proof.
  pose proof (stress_order_interleaves _ _ _ Hstress) as Hint. set (r2 := order.*2) in *.
  assert (length r2 = (10 * iter)%nat) as Hl2.
  { rewrite (interleaves_perm _ _ Hint). unfold stressors. simpl. rewrite !length_app, length_map, length_seq. simpl. lia. }
  destruct (bank_on_ledger checks iter r1 r2 Hjoin Hint Hl2) as (rs & b & L & Hp & Hl & Hf & Hrest); [lia|].
  exists rs, b, L. split; [exact Hp|]. split; [exact Hl|]. split; [exact Hf|]. split; [|exact Hrest].
  intros i Hi. assert (length (answers_of i order rs) = iter) as Hlen.
  { rewrite answers_length; [|by rewrite Hl, <-Hl2; unfold r2; rewrite length_fmap].
    by rewrite (proj2 Hstress i Hi), length_map, length_seq. }
  destruct (counts_ok checks (wrap 0) (wrap 0) (answers_of i order rs)) as (s & f & Hc & Hs & Hf');
    [rewrite Hlen; exact Hiter..|].
  exists s, f. pose proof (oks_le (answers_of i order rs)). change (int_val (wrap 0)) with 0 in *.
  split; [exact Hc|]. rewrite Hs, Hf', Hlen. lia.
Qed.

(** ** A run: the threads one after the other *)
Definition one_by_one (iter : nat) : list (nat * l_op) :=
  concat (map (fun i => map (pair i) (map (stress (1, 2, 3)) (seq 0 iter))) (seq 0 10)).

Lemma of_client_block {B} i j (l : list B) :
  of_client i (map (pair j) l) = if decide (j = i) then l else [].
Proof. induction l as [|x l IH]; cbn; [by case_decide|]. unfold of_client in IH. rewrite IH. by case_decide. Qed.

Lemma one_by_one_order iter : stress_order (1, 2, 3) iter (one_by_one iter).
Proof.
  unfold one_by_one. split.
  - apply Forall_concat, Forall_map, Forall_forall. intros i Hi%elem_of_seq. apply Forall_map, Forall_true.
    intros o. cbn. lia.
  - intros i Hi. do 10 (destruct i as [|i]; [cbn [seq map concat];
      rewrite !of_client_app, !of_client_block; cbn; by rewrite ?app_nil_r|]). lia.
Qed.

Lemma bank_main_runs_witness :
  exists rs b, performs true new (op_of <$> founders ++ concat joiners ++ (one_by_one 50).*2) =
      Ok ((Created <$> [1; 2; 3; 4; 5; 6; 7; 8]) ++ (Transferred <$> rs), b) /\
    length rs = 500%nat /\ total_balance b = f64_of_int 3200.
Proof.
  destruct (bank_main_runs true 50 _ _ (interleaves_concat joiners) (one_by_one_order 50))
    as (rs & b & L & Hp & Hl & _ & _ & _ & _ & _ & _ & Ht); [lia|].
  exists rs, b. split; [exact Hp|]. split; [exact Hl|exact Ht].
Defined.
