(* ===== verification/Increments.v ===== *)
(** * Increments: a client program of three threads ([examples/remote_simple.rs])

    [main] entrusts a counter, increments and checks it, and gives two clones
    of its handle to threads that increment it [iter] times each; after their
    joins it checks the sum.  The threads are clients of the machine of
    [Interleaving]: the program says which calls they make and when, the
    machine how the calls are carried out. *)
From S2P Require Import Prelude Slots Serialization Remote Worker Delegation System Service.
From S2P Require Import Refinement Interleaving Ints.
Local Open Scope Z_scope.

(** ** The program *)

(** A thread's loop: iterations to come, and whether it is inside a call. *)
Record looper := { to_go : nat; busy : bool }.

(** Where [main] is; the flag says that it is inside the call. *)
Inductive main_pc :=
| Incr (waits : bool)
| Get (waits : bool)
| Joining                    (* both threads spawned, in their joins *)
| GetFinal                   (* inside its last call *)
| Done
| AssertFailed.

Record program := { main : main_pc; t1 : looper; t2 : looper }.

Section program.
(** Overflow checks on or off; the vtables of the adapters. *)
Context (checks : bool) (vt_incr vt_get : Z).

Definition incr : user_fn i64 unit unit := fn_item vt_incr (fun _ => prog_of_fn (add_assign checks 1)).
Definition get : user_fn i64 unit u64 :=
  fn_item vt_get (fun _ => PStep (fun c => c) (fun c => PRet (cast c))).

Definition call_incr : rpc i64 := apply_request incr.
Definition call_get : rpc i64 := apply_request get.

(** [assert_eq!(v, n)] on the [u64] that a call has returned. *)
Definition equals (bs : list Z) (n : Z) : bool :=
  match of_bytes (A := u64) bs with Some v => int_val v =? n | None => false end.

Definition at_main (s : program) (p : main_pc) : program := {| main := p; t1 := t1 s; t2 := t2 s |}.
Definition at_t1 (s : program) (l : looper) : program := {| main := main s; t1 := l; t2 := t2 s |}.
Definition at_t2 (s : program) (l : looper) : program := {| main := main s; t1 := t1 s; t2 := l |}.

(** [for _ in 0..iter { h.apply(incr); }] on handle [i]. *)
Inductive loop_step (i : nat) : looper -> event i64 -> looper -> Prop :=
| loop_call n : loop_step i {| to_go := S n; busy := false |} (ECall i call_incr) {| to_go := n; busy := true |}
| loop_return n bs : loop_step i {| to_go := n; busy := true |} (EReturn i bs) {| to_go := n; busy := false |}.

(** [main] holds handle 0, its threads the handles 1 and 2. *)
Inductive program_step (iter : nat) : program -> event i64 -> program -> Prop :=
| main_incr s : main s = Incr false -> program_step iter s (ECall 0 call_incr) (at_main s (Incr true))
| main_incr_ret s bs : main s = Incr true -> program_step iter s (EReturn 0 bs) (at_main s (Get false))
| main_get s : main s = Get false -> program_step iter s (ECall 0 call_get) (at_main s (Get true))
| main_get_ret s bs :
    main s = Get true ->
    program_step iter s (EReturn 0 bs) (at_main s (if equals bs 1 then Joining else AssertFailed))
| thread_1 s e l : main s = Joining -> loop_step 1 (t1 s) e l -> program_step iter s e (at_t1 s l)
| thread_2 s e l : main s = Joining -> loop_step 2 (t2 s) e l -> program_step iter s e (at_t2 s l)
| main_final s :
    main s = Joining -> t1 s = {| to_go := 0; busy := false |} -> t2 s = {| to_go := 0; busy := false |} ->
    program_step iter s (ECall 0 call_get) (at_main s GetFinal)
| main_final_ret s bs :
    main s = GetFinal ->
    program_step iter s (EReturn 0 bs)
      (at_main s (if equals bs (1 + Z.of_nat iter * 2) then Done else AssertFailed)).

Definition begin (iter : nat) : program :=
  {| main := Incr false; t1 := {| to_go := iter; busy := false |}; t2 := {| to_go := iter; busy := false |} |}.

Inductive program_runs (iter : nat) : program -> list (event i64) -> program -> Prop :=
| program_nil s : program_runs iter s [] s
| program_cons s e s1 evs s2 :
    program_step iter s e s1 -> program_runs iter s1 evs s2 -> program_runs iter s (e :: evs) s2.

Lemma program_app iter s evs s1 evs' s2 :
  program_runs iter s evs s1 -> program_runs iter s1 evs' s2 -> program_runs iter s (evs ++ evs') s2.
Proof. induction 1; intros; [done|]. simpl. econstructor; eauto. Qed.
End program.

(** ** What the threads have contributed *)
Section counting.
Context (checks : bool) (vt_incr vt_get : Z) (iter : nat) (Hiter : 1 + Z.of_nat iter * 2 < 2 ^ 63).
Implicit Types (s : program) (a : astate i64).
Local Notation I := (call_incr checks vt_incr).
Local Notation G := (call_get vt_get).
Local Notation prog_step := (program_step checks vt_incr vt_get iter).
Local Notation prog_runs := (program_runs checks vt_incr vt_get iter).

(** The call that the program is making on handle [i]: of [incr] or of [get]. *)
Inductive kind := KIncr | KGet.
Definition request_of (k : kind) : rpc i64 := match k with KIncr => I | KGet => G end.
Definition making s (i : nat) : option kind :=
  match i with
  | 0%nat => match main s with Incr true => Some KIncr | Get true | GetFinal => Some KGet | _ => None end
  | 1%nat => if busy (t1 s) then Some KIncr else None
  | 2%nat => if busy (t2 s) then Some KIncr else None
  | _ => None
  end.

Definition client_of a (i : nat) : aclient i64 := default AIdle (a_clients a !! i).
Definition stands a (k : option kind) (x : aclient i64) : Prop :=
  match k with
  | None => x = AIdle
  | Some KIncr => x = ACalled I \/ exists bs, x = ADone I (Some bs)
  | Some KGet => x = ACalled G \/ x = ADone G (Some (to_bytes (cast (a_prop a) : u64)))
  end.

(** An increment that was called for and is not in the counter yet. *)
Definition pending (k : option kind) (x : aclient i64) : Z :=
  match k, x with Some KIncr, ACalled _ => 1 | _, _ => 0 end.
Definition pending_at s a (i : nat) : Z := pending (making s i) (client_of a i).
Definition called_for s : Z :=
  (match main s with Incr false => 0 | _ => 1 end) +
  (Z.of_nat iter - Z.of_nat (to_go (t1 s))) + (Z.of_nat iter - Z.of_nat (to_go (t2 s))).

Definition fresh_loop : looper := {| to_go := iter; busy := false |}.
Definition spent_loop : looper := {| to_go := 0; busy := false |}.

Record counted s a : Prop := {
  ct_clients : forall i, stands a (making s i) (client_of a i);
  ct_sum : int_val (a_prop a) + pending_at s a 0 + pending_at s a 1 + pending_at s a 2 = called_for s;
  ct_open : a_open a = true;
  ct_phase : match main s with
             | Incr _ | Get _ => t1 s = fresh_loop /\ t2 s = fresh_loop
             | Joining => (to_go (t1 s) <= iter /\ to_go (t2 s) <= iter)%nat
             | GetFinal | Done => t1 s = spent_loop /\ t2 s = spent_loop
             | AssertFailed => False
             end;
}.

Lemma client_set a i x t o j :
  (i < length (a_clients a))%nat ->
  client_of (set_client a i x t o) j = if decide (i = j) then x else client_of a j.
Proof.
  intros Hi. unfold client_of. simpl. destruct (decide (i = j)) as [<-|Hne].
  - by rewrite list_lookup_insert_eq.
  - by rewrite list_lookup_insert_ne.
Qed.

Lemma client_at a i x : a_clients a !! i = Some x -> client_of a i = x /\ (i < length (a_clients a))%nat.
Proof. intros Hi. unfold client_of. rewrite Hi. split; [done|by eapply lookup_lt_Some]. Qed.

Lemma pending_range k x : 0 <= pending k x <= 1.
Proof. unfold pending. destruct k as [[]|], x; lia. Qed.

Lemma called_for_le s a : counted s a -> called_for s <= 1 + Z.of_nat iter * 2.
Proof. intros _. unfold called_for. destruct (main s) as [[]|[]| | | |]; lia. Qed.

Lemma incr_body : body I = Some (prog_map to_bytes (prog_of_fn (add_assign checks 1))).
Proof. done. Qed.
Lemma get_body : body G = Some (PStep (fun c => c) (fun c => PRet (to_bytes (cast c : u64)))).
Proof. done. Qed.

(** Nobody calls [get] while another call is under way. *)
Lemma get_alone s a i j : counted s a -> making s i = Some KGet -> j <> i -> making s j = None.
Proof.
  intros Hc Hi Hj. pose proof (ct_phase _ _ Hc) as Hph.
  assert (i = 0%nat) as ->.
  { destruct i as [|[|[|i]]]; simpl in Hi; [done|by destruct (busy (t1 s))|by destruct (busy (t2 s))|done]. }
  assert (t1 s = fresh_loop /\ t2 s = fresh_loop \/ t1 s = spent_loop /\ t2 s = spent_loop) as Ht.
  { simpl in Hi. destruct (main s) as [[]|[]| | | |]; simplify_eq; auto. }
  destruct j as [|[|[|j]]]; [done|..|done]; simpl; destruct Ht as [[E1 E2]|[E1 E2]]; by rewrite ?E1, ?E2.
Qed.

(** The value of the counter when [get] runs. *)
Lemma get_value s a : counted s a -> making s 0 = Some KGet ->
  int_val (a_prop a) = match main s with Get _ => 1 | _ => 1 + Z.of_nat iter * 2 end.
Proof.
  intros Hc H0. pose proof (ct_phase _ _ Hc) as Hph. pose proof (ct_sum _ _ Hc) as Hsum.
  unfold pending_at in Hsum. rewrite (get_alone s a 0 1), (get_alone s a 0 2), H0 in Hsum by done.
  simpl in Hsum, H0. unfold called_for in Hsum.
  destruct (main s) as [[]|[]| | | |]; simplify_eq; destruct Hph as [E1 E2]; rewrite E1, E2 in Hsum;
    unfold fresh_loop, spent_loop in Hsum; simpl in Hsum; lia.
Qed.

Lemma stands_called s a i q :
  counted s a -> a_clients a !! i = Some (ACalled q) ->
  exists k, making s i = Some k /\ q = request_of k /\ client_of a i = ACalled q.
Proof.
  intros Hc Hi. destruct (client_at _ _ _ Hi) as [Hcl _].
  pose proof (ct_clients _ _ Hc i) as Hst. rewrite Hcl in Hst.
  destruct (making s i) as [[]|]; simpl in Hst; [|destruct Hst as [[= ->]|]|done].
  - destruct Hst as [[= ->]|(bs & ?)]; [|done]. by exists KIncr.
  - by exists KGet.
  - done.
Qed.

Lemma sum_room s a i :
  counted s a -> making s i = Some KIncr -> client_of a i = ACalled I ->
  in_int true 8 (int_val (a_prop a) + 1).
Proof.
  intros Hc Hk Hcl. pose proof (ct_sum _ _ Hc) as Hsum. pose proof (called_for_le _ _ Hc) as Hle.
  pose proof (int_in (a_prop a)) as Hin. rewrite !in_i64 in *.
  assert (1 <= pending_at s a 0 + pending_at s a 1 + pending_at s a 2).
  { unfold pending_at. pose proof (pending_range (making s 0) (client_of a 0)).
    pose proof (pending_range (making s 1) (client_of a 1)).
    pose proof (pending_range (making s 2) (client_of a 2)).
    assert (pending (making s i) (client_of a i) = 1) as Hp1 by (by rewrite Hk, Hcl).
    destruct i as [|[|[|i]]]; [lia..|done]. }
  lia.
Qed.

(** The trustee increments. *)
Lemma counted_incr s a i :
  counted s a -> making s i = Some KIncr -> client_of a i = ACalled I -> (i < length (a_clients a))%nat ->
  counted s (set_client a i (ADone I (Some [])) (wrap (int_val (a_prop a) + 1)) true).
Proof.
  intros Hc Hk Hcl Hlt. pose proof (sum_room _ _ _ Hc Hk Hcl) as Hroom.
  pose proof (ct_sum _ _ Hc) as Hsum. constructor; [| |done|apply Hc].
  - intros j. rewrite client_set by done. pose proof (ct_clients _ _ Hc j) as Hj.
    destruct (decide (i = j)) as [<-|Hne]; [rewrite Hk; right; by eexists|].
    destruct (making s j) as [[]|] eqn:Hm; try done.
    by rewrite (get_alone s a j i) in Hk.
  - unfold pending_at in *. rewrite !client_set by done. simpl a_prop. rewrite wrap_val by done.
    destruct i as [|[|[|i]]]; [..|done]; simpl decide; rewrite Hk in *; rewrite Hcl in Hsum; simpl in *; lia.
Qed.

(** The trustee reads. *)
Lemma counted_get s a i :
  counted s a -> making s i = Some KGet -> (i < length (a_clients a))%nat ->
  counted s (set_client a i (ADone G (Some (to_bytes (cast (a_prop a) : u64)))) (a_prop a) true).
Proof.
  intros Hc Hk Hlt. pose proof (ct_sum _ _ Hc) as Hsum. constructor; [| |done|apply Hc].
  - intros j. rewrite client_set by done. pose proof (ct_clients _ _ Hc j) as Hj.
    destruct (decide (i = j)) as [<-|Hne]; [rewrite Hk; by right|exact Hj].
  - unfold pending_at in *. rewrite !client_set by done.
    destruct i as [|[|[|i]]]; [|simpl in Hk; by destruct (busy _)..|done].
    simpl decide. rewrite Hk in *. simpl in *. lia.
Qed.

(** The program and its client on handle [i] move together. *)
Lemma counted_move s s' a i x :
  counted s a -> (i < 3)%nat -> (i < length (a_clients a))%nat ->
  (forall j, j <> i -> making s' j = making s j) -> stands a (making s' i) x ->
  called_for s' - pending (making s' i) x = called_for s - pending_at s a i ->
  match main s' with
  | Incr _ | Get _ => t1 s' = fresh_loop /\ t2 s' = fresh_loop
  | Joining => (to_go (t1 s') <= iter /\ to_go (t2 s') <= iter)%nat
  | GetFinal | Done => t1 s' = spent_loop /\ t2 s' = spent_loop
  | AssertFailed => False
  end -> counted s' (set_client a i x (a_prop a) (a_open a)).
Proof.
  intros Hc Hi Hlt Hm Hst Hsum Hph. pose proof (ct_sum _ _ Hc) as Hs.
  constructor; [| |apply Hc|done].
  - intros j. rewrite client_set by done. destruct (decide (i = j)) as [<-|Hne].
    + destruct (making s' i) as [[]|]; exact Hst.
    + rewrite Hm by done. exact (ct_clients _ _ Hc j).
  - unfold pending_at in *. rewrite !client_set by done.
    destruct i as [|[|[|i]]]; [..|lia]; repeat case_decide; try lia;
      rewrite ?(Hm 0%nat), ?(Hm 1%nat), ?(Hm 2%nat) by done; simpl a_prop; lia.
Qed.

Lemma idle_pending s a i : a_clients a !! i = Some AIdle -> pending_at s a i = 0.
Proof. intros Hi. unfold pending_at. rewrite (proj1 (client_at _ _ _ Hi)). by destruct (making s i) as [[]|]. Qed.

Lemma done_pending s a i q o : a_clients a !! i = Some (ADone q o) -> pending_at s a i = 0.
Proof. intros Hi. unfold pending_at. rewrite (proj1 (client_at _ _ _ Hi)). by destruct (making s i) as [[]|]. Qed.

Lemma loop_cases l i e l' :
  loop_step checks vt_incr i l e l' ->
  (e = ECall i I /\ busy l = false /\ busy l' = true /\ to_go l = S (to_go l')) \/
  (exists bs, e = EReturn i bs /\ busy l = true /\ busy l' = false /\ to_go l' = to_go l).
Proof. destruct 1; [left|right]; eauto. Qed.

Lemma counted_call s a i q s' :
  counted s a -> prog_step s (ECall i q) s' -> a_clients a !! i = Some AIdle ->
  counted s' (set_client a i (ACalled q) (a_prop a) (a_open a)).
Proof.
  intros Hc Hst Hi. destruct (client_at _ _ _ Hi) as [Hcl Hlt]. pose proof (ct_phase _ _ Hc) as Hph.
  pose proof (idle_pending s a i Hi) as Hp. remember (ECall i q) as e eqn:He.
  destruct Hst as [s Hm|s bs Hm|s Hm|s bs Hm|s e l Hm Hl|s e l Hm Hl|s Hm H1 H2|s bs Hm]; simplify_eq;
    try (destruct (loop_cases _ _ _ _ Hl) as [(He & Hb & Hb' & Hn)|(bs & He & _)]; [|done]; injection He as -> ->).
  all: rewrite Hm in Hph; apply (counted_move s); simpl; rewrite ?Hm, ?Hb'; try done; try lia; try (by left).
  - intros [|j]; done.
  - rewrite Hp. unfold called_for. simpl. rewrite Hm. lia.
  - intros [|j]; done.
  - rewrite Hp. unfold called_for. simpl. rewrite Hm. lia.
  - intros [|[|j]]; simpl; by rewrite ?Hm.
  - rewrite Hp. unfold called_for. simpl. rewrite Hm. lia.
  - intros [|[|[|j]]]; simpl; by rewrite ?Hm.
  - rewrite Hp. unfold called_for. simpl. rewrite Hm. lia.
  - intros [|j]; done.
  - rewrite Hp. unfold called_for. simpl. rewrite Hm. lia.
Qed.

(** What [get] has read passes the assertion. *)
Lemma got_value s a q bs :
  counted s a -> making s 0 = Some KGet -> a_clients a !! 0%nat = Some (ADone q (Some bs)) ->
  equals bs (match main s with Get _ => 1 | _ => 1 + Z.of_nat iter * 2 end) = true.
Proof.
  intros Hc Hk Hi. pose proof (ct_clients _ _ Hc 0) as Hst.
  rewrite Hk, (proj1 (client_at _ _ _ Hi)) in Hst. destruct Hst as [?|Hst]; [done|].
  assert (bs = to_bytes (cast (a_prop a) : u64)) as -> by congruence.
  pose proof (get_value _ _ Hc Hk) as Hv. unfold equals. rewrite of_to_bytes. unfold cast.
  assert (0 <= int_val (a_prop a) < 2 ^ 64) as Hr by (rewrite Hv; destruct (main s); lia).
  rewrite wrap_val by (by apply in_u64). apply Z.eqb_eq, Hv.
Qed.

Lemma counted_return s a i q bs s' :
  counted s a -> prog_step s (EReturn i bs) s' -> a_clients a !! i = Some (ADone q (Some bs)) ->
  counted s' (set_client a i AIdle (a_prop a) (a_open a)).
Proof.
  intros Hc Hst Hi. destruct (client_at _ _ _ Hi) as [Hcl Hlt]. pose proof (ct_phase _ _ Hc) as Hph.
  pose proof (done_pending s a i _ _ Hi) as Hp. remember (EReturn i bs) as e eqn:He.
  destruct Hst as [s Hm|s bs' Hm|s Hm|s bs' Hm|s e l Hm Hl|s e l Hm Hl|s Hm H1 H2|s bs' Hm]; simplify_eq;
    try (destruct (loop_cases _ _ _ _ Hl) as [(He & _)|(bs' & He & Hb & Hb' & Hn)]; [done|]; injection He as -> ->);
    try (assert (making s 0 = Some KGet) as Hk by (simpl; by rewrite Hm);
         pose proof (got_value _ _ _ _ Hc Hk Hi) as Hv; rewrite Hm in Hv; rewrite Hv);
    rewrite Hm in Hph; apply (counted_move s); simpl; rewrite ?Hm, ?Hb'; try done; try lia;
    try (rewrite Hp; unfold called_for; simpl; rewrite Hm; lia);
    try (intros [|j]; done); try (intros [|[|j]]; simpl; by rewrite ?Hm);
    try (intros [|[|[|j]]]; simpl; by rewrite ?Hm).
  destruct Hph as [-> ->]. unfold fresh_loop. simpl. lia.
Qed.

(** The two move together, event by event. *)
Lemma counted_step s a ev a' s' :
  astep a ev a' -> prog_runs s ev s' -> counted s a -> counted s' a'.
Proof.
  intros Hst Hrun Hc.
  assert (ev = [] -> s' = s) as Hsame by (intros ->; by inversion Hrun).
  assert (forall e, ev = [e] -> prog_step s e s') as Hone.
  { intros e ->. inversion Hrun as [|? ? s1 ? ? H1 H2]; subst. by inversion H2; subst. }
  assert (Hno : forall i q p, a_clients a !! i <> Some (ARunning q p)).
  { intros i q p Hi. pose proof (ct_clients _ _ Hc i) as Hs. rewrite (proj1 (client_at _ _ _ Hi)) in Hs.
    destruct (making s i) as [[]|]; simpl in Hs; [destruct Hs as [?|[? ?]]|destruct Hs|]; done. }
  destruct Hst as [a ev a' Hst|a a' Hst].
  - destruct Hst as [a|a i q Hi|a i q upd k Hi|a i q bs Hi|a i q Hi|a i q bs Hi|a i q bs Hi Hbs];
      try (by destruct (Hno _ _ _ Hi)).
    + rewrite Hsame by done. destruct Hc as [Hcl Hsum Ho Hph].
      assert (forall j, client_of {| a_prop := a_prop a; a_clients := a_clients a ++ [AIdle];
                a_open := a_open a |} j = client_of a j) as Hcl'.
      { intros j. unfold client_of. simpl.
        destruct (a_clients a !! j) as [x|] eqn:Hj; [by rewrite (lookup_app_l_Some _ _ _ _ Hj)|].
        rewrite lookup_app_r by (by apply lookup_ge_None). by destruct (_ - _)%nat as [|[]]. }
      constructor; try done; [intros j; rewrite Hcl'; apply Hcl|].
      unfold pending_at in *. by rewrite !Hcl'.
    + by apply (counted_call s); [|apply Hone|].
    + eapply counted_return; [exact Hc|by apply Hone|exact Hi].
    + pose proof (ct_clients _ _ Hc i) as Hs. rewrite (proj1 (client_at _ _ _ Hi)) in Hs.
      destruct (making s i) as [[]|]; simpl in Hs; [destruct Hs as [?|[? ?]]|destruct Hs|]; done.
  - rewrite Hsame by done.
    destruct Hst as [a i q p t' bs Hi Ho Hl Hb Hr|a i q p t' Hi Ho Hl Hb Hr|a i q Hi Ho Hl|a i q p Hi Ho Hl Hb];
      destruct (stands_called _ _ _ _ Hc Hi) as (k & Hk & -> & Hcl); destruct (client_at _ _ _ Hi) as [_ Hlt];
      destruct k; try done.
    + change (body I = Some p) in Hb. rewrite incr_body in Hb. apply (inj Some) in Hb as <-. rewrite run_prog_map, run_prog_of_fn in Hr.
      rewrite add_assign_small in Hr by (by eapply sum_room). injection Hr as <- <-.
      by apply counted_incr.
    + change (body G = Some p) in Hb. rewrite get_body in Hb. apply (inj Some) in Hb as <-.
      assert (t' = a_prop a /\ bs = to_bytes (cast (a_prop a) : u64)) as [-> ->] by (cbn [run_prog] in Hr; injection Hr as <- Hr; split; [done|exact (eq_sym Hr)]).
      by apply counted_get.
    + change (body I = Some p) in Hb. rewrite incr_body in Hb. apply (inj Some) in Hb as <-. rewrite run_prog_map, run_prog_of_fn in Hr.
      rewrite add_assign_small in Hr by (by eapply sum_room). done.
    + change (body G = Some p) in Hb. rewrite get_body in Hb. by apply (inj Some) in Hb as <-.
Qed.
End counting.

(** ** The program over the machine *)
Section over_machine.
Context (statics : Z -> option (ErasedVTable i64)).
Context (checks : bool) (vt_incr vt_get : Z) (iter : nat) (Hiter : 1 + Z.of_nat iter * 2 < 2 ^ 63).
Implicit Types (s : program) (f : fstate i64).
Local Notation I := (call_incr checks vt_incr).
Local Notation G := (call_get vt_get).
Local Notation prog_step := (program_step checks vt_incr vt_get iter).
Local Notation prog_runs := (program_runs checks vt_incr vt_get iter).
Local Notation counted := (counted checks vt_incr vt_get iter).

(** The machine stands where the program is. *)
Definition tracks f s : Prop :=
  exists b a, fsim statics f b /\ serial b a /\ counted s a.

Lemma runs_no_launch s evs s' : prog_runs s evs s' -> Forall no_launch evs.
Proof.
  induction 1 as [|s e s1 evs s2 Hst _ IH]; [constructor|]. constructor; [|done].
  destruct Hst as [| | | |s e l _ Hl|s e l _ Hl| |]; try done; by destruct Hl.
Qed.

Lemma runs_split s evs evs' s' :
  prog_runs s (evs ++ evs') s' -> exists s1, prog_runs s evs s1 /\ prog_runs s1 evs' s'.
Proof.
  revert s. induction evs as [|e evs IH]; intros s Hr; [exists s; split; [constructor|done]|].
  inversion Hr as [|? ? s1 ? ? Hst Hr']; subst. destruct (IH _ Hr') as (s2 & H1 & H2).
  exists s2. split; [by econstructor|done].
Qed.

Lemma counted_traces s a evs a' s' :
  asteps a evs a' -> prog_runs s evs s' -> counted s a -> counted s' a'.
Proof.
  intros Hst. revert s. induction Hst as [a|a ev a1 evs a2 Hx _ IH]; intros s Hr Hc.
  - by inversion Hr; subst.
  - destruct (runs_split _ _ _ _ Hr) as (s1 & H1 & H2).
    apply (IH s1 H2). by eapply counted_step.
Qed.

Lemma tracks_steps f s acts evs f' s' :
  fsteps statics f acts evs f' -> Forall (faction_ok statics) acts -> prog_runs s evs s' ->
  tracks f s -> tracks f' s'.
Proof.
  intros Hst Hok Hr (b & a & Hs & Hser & Hc).
  destruct (fsteps_sim statics _ _ _ _ _ Hst Hok Hs) as (b' & Hb & Hs').
  destruct (isteps_serial _ _ _ _ Hb (runs_no_launch _ _ _ Hr) Hser) as (a' & Ha & Hser').
  exists b', a'. split; [done|]. split; [done|]. by eapply counted_traces.
Qed.

Lemma counted_begin : counted (begin iter) (astart (wrap 0)).
Proof.
  constructor; try done.
  - intros [|[|[|i]]]; done.
  - unfold pending_at, called_for. simpl. rewrite residue_small by done. lia.
Qed.

Lemma tracks_begin addr :
  0 <= addr /\ addr + SLOT_BYTES < usize_modulus -> tracks (fstart (wrap 0) addr) (begin iter).
Proof.
  intros Ha. exists (free (astart (wrap 0))), (astart (wrap 0)).
  split; [by apply fstart_sim|]. split; [apply astart_serial|apply counted_begin].
Qed.

(** What the machine's state says of a handle. *)
Lemma tracks_client f s i cs :
  tracks f s -> s_chans (f_sys f) !! i = Some cs ->
  (cs_client cs = CIdle <-> making s i = None).
Proof.
  intros (b & a & [Hs _] & (t0 & -> & _) & Hc) Hi.
  destruct (sim_lookup _ _ _ _ _ Hs Hi) as (x & Hx & Hrel). rewrite <-(rel_idle _ _ _ Hrel).
  pose proof (ct_clients _ _ _ _ _ _ Hc i) as Hst. unfold client_of in Hst. simpl in Hst.
  rewrite Hx in Hst. simpl in Hst. destruct (making s i) as [[]|]; [..|done]; split; try done;
    intros ->; [by destruct Hst as [?|[? ?]]|by destruct Hst].
Qed.

Lemma tracks_exists f s i : tracks f s -> making s i <> None -> is_Some (s_chans (f_sys f) !! i).
Proof.
  intros (b & a & [Hs _] & (t0 & -> & _) & Hc) Hm.
  pose proof (ct_clients _ _ _ _ _ _ Hc i) as Hst. unfold client_of in Hst. simpl in Hst.
  destruct (a_clients (i_obj b) !! i) as [x|] eqn:Hx.
  - apply lookup_lt_is_Some. rewrite (Forall2_length _ _ _ (sim_chans _ _ _ Hs)). by eapply lookup_lt_Some.
  - simpl in Hst. by destruct (making s i) as [[]|]; [destruct Hst as [?|[? ?]]|destruct Hst|].
Qed.

Lemma tracks_open f s : tracks f s -> s_worker (f_sys f) <> WStopped.
Proof.
  intros (b & a & [Hs _] & (t0 & -> & _) & Hc) Hw. pose proof (ct_open _ _ _ _ _ _ Hc) as Ho.
  simpl in Ho. rewrite (sim_open _ _ _ Hs), Hw in Ho. done.
Qed.

(** The program launches nothing, so there is always an answer to read. *)
Lemma tracks_answers f s i : tracks f s -> ~ garbage_next statics f i.
Proof.
  intros (b & a & Hs & (t0 & -> & _) & Hc) Hg. destruct (garbage_panicked statics _ _ _ Hs Hg) as (q & Hi & _).
  pose proof (ct_clients _ _ _ _ _ _ Hc i) as Hst. unfold client_of in Hst. simpl in Hst. rewrite Hi in Hst.
  simpl in Hst. by destruct (making s i) as [[]|]; [destruct Hst as [|[? ?]]|destruct Hst|].
Qed.

Lemma tracks_safe f s : tracks f s -> main s <> AssertFailed.
Proof. intros (b & a & _ & _ & Hc) Hm. pose proof (ct_phase _ _ _ _ _ _ Hc) as Hp. by rewrite Hm in Hp. Qed.

(** ** Progress *)

(** Calls and returns to come. *)
Definition loop_left (l : looper) : nat := 2 * to_go l + if busy l then 1 else 0.
Definition events_left s : nat :=
  match main s with
  | Incr false => 6 | Incr true => 5 | Get false => 4 | Get true => 3 | Joining => 2 | GetFinal => 1
  | Done | AssertFailed => 0
  end + loop_left (t1 s) + loop_left (t2 s).

(** [s] can get on, to a state with fewer events left. *)
Definition gets_on f s : Prop :=
  exists acts evs f' s', fsteps statics f acts evs f' /\ Forall (faction_ok statics) acts /\
    prog_runs s evs s' /\ (events_left s' < events_left s)%nat.

Lemma tracks_silent f s acts f1 :
  fsteps statics f acts [] f1 -> Forall (faction_ok statics) acts -> tracks f s -> tracks f1 s.
Proof. intros Hst Hok. eapply tracks_steps; [done|done|constructor]. Qed.

(** The threads call only while [main] joins them. *)
Lemma loops_joining f s : tracks f s -> busy (t1 s) = true \/ busy (t2 s) = true -> main s = Joining.
Proof.
  intros (b & a & _ & _ & Hc) Hb. pose proof (ct_phase _ _ _ _ _ _ Hc) as Hp.
  destruct (main s) as [[]|[]| | | |]; try done; destruct Hp as [E1 E2]; rewrite E1, E2 in Hb; by destruct Hb.
Qed.

(** A call that is under way returns, and the program goes on. *)
Lemma return_step f s i bs :
  tracks f s -> making s i <> None ->
  exists s', prog_step s (EReturn i bs) s' /\ (events_left s' < events_left s)%nat.
Proof.
  intros Ht Hm. pose proof (loops_joining _ _ Ht) as Hj.
  unfold events_left. destruct i as [|[|[|i]]]; simpl in Hm; [| | |done].
  - destruct (main s) as [[]|[]| | | |] eqn:E; try done.
    + eexists. split; [by apply main_incr_ret|]. simpl. lia.
    + eexists. split; [by apply main_get_ret|]. simpl. destruct (equals bs 1); simpl; lia.
    + eexists. split; [by apply main_final_ret|]. simpl. destruct (equals bs _); simpl; lia.
  - destruct s as [m [n []] l2]; simpl in *; [|done]. rewrite Hj by auto.
    eexists. split; [apply thread_1; [done|apply loop_return]|]. unfold loop_left. simpl. lia.
  - destruct s as [m l1 [n []]]; simpl in *; [|done]. rewrite Hj by auto.
    eexists. split; [apply thread_2; [done|apply loop_return]|]. unfold loop_left. simpl. lia.
Qed.

Lemma waiting_gets_on f s i : tracks f s -> making s i <> None -> gets_on f s.
Proof.
  intros Ht Hm. pose proof Ht as (b & _ & Hs & _). destruct (tracks_exists _ _ _ Ht Hm) as [cs Hi].
  assert (cs_client cs <> CIdle) as Hc by (intros Hc; by apply (tracks_client _ _ _ _ Ht Hi) in Hc).
  destruct (call_returns statics _ _ _ _ Hs Hi Hc) as (acts & evs & f1 & Hst & Hok & [[bs ->]|[-> Hstop]]).
  - destruct (return_step _ _ i bs Ht Hm) as (s' & Hp & Hl). exists acts, [EReturn i bs], f1, s'.
    split; [done|]. split; [done|]. split; [|done]. econstructor; [exact Hp|constructor].
  - apply (tracks_silent _ _ _ _ Hst Hok) in Ht. destruct Hstop as [Hw|Hg]; [by apply tracks_open in Ht|by apply (tracks_answers _ _ _ Ht) in Hg].
Qed.

(** The next call of a program whose threads are all outside calls. *)
Lemma next_call f s :
  tracks f s -> main s <> Done -> (forall i, making s i = None) ->
  exists i q s', (q = I \/ q = G) /\ prog_step s (ECall i q) s' /\ (events_left s' < events_left s)%nat.
Proof.
  intros Ht Hd Hm. pose proof (tracks_safe _ _ Ht) as Hsafe.
  pose proof (Hm 0%nat) as H0. pose proof (Hm 1%nat) as H1. pose proof (Hm 2%nat) as H2. simpl in H0, H1, H2.
  destruct s as [m [n1 b1] [n2 b2]]. simpl in *. destruct b1, b2; try done.
  unfold events_left, loop_left. simpl. destruct m as [[]|[]| | | |]; try done.
  - exists 0%nat, I. eexists. split; [by left|]. split; [by apply main_incr|]. simpl. lia.
  - exists 0%nat, G. eexists. split; [by right|]. split; [by apply main_get|]. simpl. lia.
  - destruct n1 as [|n1]; [destruct n2 as [|n2]|].
    + exists 0%nat, G. eexists. split; [by right|]. split; [by apply main_final|]. simpl. lia.
    + exists 2%nat, I. eexists. split; [by left|]. split; [apply thread_2; [done|apply loop_call]|]. simpl. lia.
    + exists 1%nat, I. eexists. split; [by left|]. split; [apply thread_1; [done|apply loop_call]|]. simpl. lia.
Qed.

Lemma call_gets_on f s i q s' :
  request_ok statics q -> tracks f s -> making s i = None -> prog_step s (ECall i q) s' ->
  (events_left s' < events_left s)%nat -> gets_on f s.
Proof.
  intros Hq Ht Hm Hp Hl. pose proof Ht as (b & _ & Hs & _).
  destruct (call_enters statics _ _ i _ Hs Hq) as (acts & f1 & Hst & Hok).
  { intros cs Hi. by apply (tracks_client _ _ _ _ Ht Hi). }
  exists acts, [ECall i q], f1, s'. split; [done|]. split; [done|]. split; [|done].
  econstructor; [exact Hp|constructor].
Qed.

Lemma program_gets_on f s :
  request_ok statics I -> request_ok statics G -> tracks f s -> main s <> Done -> gets_on f s.
Proof.
  intros HI HG Ht Hd.
  destruct (making s 0) as [k|] eqn:H0; [by eapply (waiting_gets_on _ _ 0); rewrite ?H0|].
  destruct (making s 1) as [k|] eqn:H1; [by eapply (waiting_gets_on _ _ 1); rewrite ?H1|].
  destruct (making s 2) as [k|] eqn:H2; [by eapply (waiting_gets_on _ _ 2); rewrite ?H2|].
  assert (forall i, making s i = None) as Hm by (by intros [|[|[|i]]]).
  destruct (next_call _ _ Ht Hd Hm) as (i & q & s' & Hq & Hp & Hl).
  assert (request_ok statics q) as Hok by (by destruct Hq as [->| ->]).
  eapply call_gets_on; [exact Hok|exact Ht|apply Hm|exact Hp|exact Hl].
Qed.

(** The program can be brought to its end. *)
Lemma program_finishes f s :
  request_ok statics I -> request_ok statics G -> tracks f s ->
  exists acts evs f' s', fsteps statics f acts evs f' /\ Forall (faction_ok statics) acts /\
    prog_runs s evs s' /\ main s' = Done.
Proof.
  intros HI HG. remember (events_left s) as n eqn:Hn. revert f s Hn.
  induction n as [n IH] using lt_wf_ind. intros f s Hn Ht.
  assert (main s = Done \/ main s <> Done) as [Hd|Hd] by (destruct (main s); auto).
  { exists [], [], f, s. split_and!; try done; constructor. }
  destruct (program_gets_on _ _ HI HG Ht Hd) as (acts & evs & f1 & s1 & Hst & Hok & Hr & Hl).
  destruct (IH (events_left s1)) with (f := f1) (s := s1) as (acts2 & evs2 & f2 & s2 & Hst2 & Hok2 & Hr2 & Hd2);
    [lia|done|by eapply tracks_steps|].
  exists (acts ++ acts2), (evs ++ evs2), f2, s2. split; [by eapply fsteps_app|].
  split; [by apply Forall_app|]. split; [by eapply program_app|done].
Qed.
End over_machine.

(** ** Properties *)
Section properties.
Context (statics : Z -> option (ErasedVTable i64)).
Context (checks : bool) (vt_incr vt_get : Z) (iter : nat).

(** C13: the assertions of the program hold in every execution: whatever the
    interleaving of its threads, of the worker's accesses and of the order of
    its visits, both [assert_eq!] pass, no increment panics, the worker keeps
    serving, and at the end the property is [1 + 2 * iter]. *)
Theorem asserts_hold (addr : Z) acts evs (f : fstate i64) (s : program)
    (Haddr : 0 <= addr /\ addr + SLOT_BYTES < usize_modulus)
    (Hiter : 1 + Z.of_nat iter * 2 < 2 ^ 63)
    (Hacts : Forall (faction_ok statics) acts)
    (Hrun : fsteps statics (fstart (wrap 0) addr) acts evs f)
    (Hprog : program_runs checks vt_incr vt_get iter (begin iter) evs s) :
  main s <> AssertFailed /\ s_worker (f_sys f) <> WStopped /\
  (main s = Done -> f_service f = None -> int_val (s_prop (f_sys f)) = 1 + Z.of_nat iter * 2).
Proof.
  assert (tracks statics checks vt_incr vt_get iter f s) as Ht
    by (eapply tracks_steps; [exact Hiter|exact Hrun|exact Hacts|exact Hprog|by apply tracks_begin]).
  split; [by eapply tracks_safe|]. split; [by eapply tracks_open|]. intros Hd Hn.
  destruct Ht as (b & a & [Hs Hturn] & (t0 & -> & _ & Ht0) & Hc). rewrite Hn in Hturn. rewrite Hturn in Ht0.
  pose proof (ct_sum _ _ _ _ _ _ Hc) as Hsum. pose proof (ct_phase _ _ _ _ _ _ Hc) as Hp.
  rewrite Hd in Hp. destruct Hp as [E1 E2].
  unfold pending_at, called_for, making in Hsum. rewrite Hd, E1, E2 in Hsum. simpl in Hsum.
  rewrite <-(sim_prop _ _ _ Hs), <-Ht0. lia.
Qed.

(** C14: and it never gets stuck: from every state the threads can be in, they
    can all be brought to their ends, by calls the program makes and steps of
    clients and worker. *)
Theorem program_can_finish (addr : Z) acts evs (f : fstate i64) (s : program)
    (Haddr : 0 <= addr /\ addr + SLOT_BYTES < usize_modulus)
    (Hiter : 1 + Z.of_nat iter * 2 < 2 ^ 63)
    (Hincr : request_ok statics (call_incr checks vt_incr))
    (Hget : request_ok statics (call_get vt_get))
    (Hacts : Forall (faction_ok statics) acts)
    (Hrun : fsteps statics (fstart (wrap 0) addr) acts evs f)
    (Hprog : program_runs checks vt_incr vt_get iter (begin iter) evs s) :
  exists acts' evs' f' s', fsteps statics f acts' evs' f' /\ Forall (faction_ok statics) acts' /\
    program_runs checks vt_incr vt_get iter s evs' s' /\ main s' = Done.
Proof.
  eapply program_finishes; [exact Hiter|exact Hincr|exact Hget|].
  eapply tracks_steps; [exact Hiter|exact Hrun|exact Hacts|exact Hprog|by apply tracks_begin].
Qed.
End properties.

(** ** An execution with one increment per thread *)
Module Run.
Definition incr_vt : Z := 4096.
Definition get_vt : Z := 8192.
Definition I : rpc i64 := call_incr true incr_vt.
Definition G : rpc i64 := call_get get_vt.
Definition statics (a : Z) : option (ErasedVTable i64) :=
  if a =? incr_vt then Some (VTABLE (q_fn I)) else if a =? get_vt then Some (VTABLE (q_fn G)) else None.

Lemma incr_request_ok : request_ok statics I.
Proof. apply out_request_ok; [by apply (linked_layout _ _ _ 0)|reflexivity|done|by left|done]. Qed.
Lemma get_request_ok : request_ok statics G.
Proof. apply out_request_ok; [by apply (linked_layout _ _ _ 0)|reflexivity|done|by left|done]. Qed.

(** Both threads call; the second is served first. *)
Definition before : list (faction i64 * option (list Z)) :=
  based [Register 131072; Register 196608; Drain; Drain; Drain] ++
  whole_call 0 I 4 [] ++ whole_call 0 G 4 (le_bytes 8 1) ++ sent 1 I ++ sent 2 I ++ served_in 2 4 ++ served_in 1 4 ++ answered 1 [].
Definition script : list (faction i64 * option (list Z)) :=
  before ++ answered 2 [] ++ whole_call 0 G 4 (le_bytes 8 3).
Definition first : fstate i64 := fstart (wrap 0) 65536.
Definition joining : program :=
  {| main := Joining; t1 := {| to_go := 0; busy := false |}; t2 := {| to_go := 0; busy := true |} |}.
Definition finished : program :=
  {| main := Done; t1 := {| to_go := 0; busy := false |}; t2 := {| to_go := 0; busy := false |} |}.

Lemma incr_script_ok : Forall (faction_ok statics) script.*1.
Proof. repeat (constructor; [first [exact incr_request_ok|exact get_request_ok|exact Logic.I|done]|]). constructor. Qed.
Lemma incr_before_ok : Forall (faction_ok statics) before.*1.
Proof. pose proof incr_script_ok as Hall. unfold script in Hall. rewrite fmap_app in Hall. by apply Forall_app in Hall as [? _]. Qed.
Lemma plays_before : fsteps statics first before.*1 (script_events before) (played statics first before).
Proof. apply plays, is_Some_alt. vm_compute. exact Logic.I. Qed.
Lemma plays_script : fsteps statics first script.*1 (script_events script) (played statics first script).
Proof. apply plays, is_Some_alt. vm_compute. exact Logic.I. Qed.

Lemma program_before : program_runs true incr_vt get_vt 1 (begin 1) (script_events before) joining.
Proof.
  econstructor; [by apply main_incr|]. econstructor; [by apply main_incr_ret|].
  econstructor; [by apply main_get|]. econstructor; [by apply main_get_ret|].
  econstructor; [apply thread_1; [reflexivity|apply loop_call]|].
  econstructor; [apply thread_2; [reflexivity|apply loop_call]|].
  econstructor; [apply thread_1; [reflexivity|apply loop_return]|]. constructor.
Qed.
Lemma program_whole : program_runs true incr_vt get_vt 1 (begin 1) (script_events script) finished.
Proof.
  unfold script_events, script. rewrite flat_map_app. eapply program_app; [exact program_before|].
  econstructor; [apply thread_2; [reflexivity|apply loop_return]|].
  econstructor; [by apply main_final|]. econstructor; [by apply main_final_ret|]. constructor.
Qed.
Lemma run_addr_ok : 0 <= 65536 /\ 65536 + SLOT_BYTES < usize_modulus.
Proof. done. Qed.
End Run.

Lemma asserts_hold_witness :
  s_worker (f_sys (played Run.statics Run.first Run.script)) <> WStopped /\ int_val (s_prop (f_sys (played Run.statics Run.first Run.script))) = 3.
Proof.
  destruct (asserts_hold Run.statics true Run.incr_vt Run.get_vt 1 65536 _ _ _ _ Run.run_addr_ok
              ltac:(done) Run.incr_script_ok Run.plays_script Run.program_whole) as (_ & Hw & Hv).
  split; [exact Hw|]. apply Hv; [reflexivity|]. vm_compute. reflexivity.
Defined.

(** With the second thread inside its call. *)
Lemma program_can_finish_witness :
  exists acts' evs' f' s', fsteps Run.statics (played Run.statics Run.first Run.before) acts' evs' f' /\
    Forall (faction_ok Run.statics) acts' /\
    program_runs true Run.incr_vt Run.get_vt 1 Run.joining evs' s' /\ main s' = Done.
Proof.
  exact (program_can_finish Run.statics true Run.incr_vt Run.get_vt 1 65536 _ _ _ _ Run.run_addr_ok
           ltac:(done) Run.incr_request_ok Run.get_request_ok Run.incr_before_ok Run.plays_before
           Run.program_before).
Defined.
