(* ===== verification/Examples.v ===== *)
(** * Examples: the programs of [examples/] that use one handle

    [local_trustee.rs], [latch.rs], [basic_usage.rs], [pinning.rs],
    [recursive_apply.rs] and [launch_test.rs] as programs against the
    interface of [Trust], with their assertions, and what they come to: on a
    [Local] by computation, on a [Remote] in every execution of the machine. *)
From S2P Require Import Prelude Slots Serialization Remote Worker Delegation System Service.
From S2P Require Import Refinement Interleaving Trust Ints Sequential Latch Latched.
Local Open Scope Z_scope.

(** ** Closures *)
Section closures.
Context {s : bool} {n : nat} (checks : bool).

(** [{ *c += k; *c }]. *)
Definition add_and_get (k : Z) (a : int s n) : int s n * exit (int s n) :=
  let '(b, e) := add_assign checks k a in (b, exit_map (fun _ => b) e).

(** [|c| *c += k], [|c| { *c += k; *c }] and [|c| *c]. *)
Definition adder (vt k : Z) : user_fn (int s n) unit unit := fn_item vt (fun _ => prog_of_fn (add_assign checks k)).
Definition bumper (vt k : Z) : user_fn (int s n) unit (int s n) := fn_item vt (fun _ => prog_of_fn (add_and_get k)).
Definition getter (vt : Z) : user_fn (int s n) unit (int s n) := fn_item vt (fun _ => PStep (fun c => c) (fun c => PRet c)).
(** [|c| *c as u64]. *)
Definition caster (vt : Z) : user_fn (int s n) unit u64 := fn_item vt (fun _ => PStep (fun c => c) (fun c => PRet (cast c))).
End closures.

Definition assert {T} (b : bool) (k : client T bool) : client T bool := if b then k else CRet false.

Section programs.
(** Overflow checks, and the vtables of the closures of a program in order. *)
Context (checks : bool) (vt : nat -> Z).

(** ** [examples/local_trustee.rs] *)
Definition local_trustee : client i64 bool :=
  CApply (adder checks (vt 0%nat) 1) (fun _ =>
  CApply (adder checks (vt 1%nat) 1) (fun _ =>
  CApply (getter (vt 2%nat)) (fun v => assert (int_val v =? 19) (
  CApply (bumper checks (vt 3%nat) 1) (fun v => assert (int_val v =? 20) (
  CApply (getter (vt 4%nat)) (fun _ => CRet true))))))).

(** ** [examples/basic_usage.rs]: what it prints *)
Definition basic_local : client u32 Z := CApply (bumper checks (vt 0%nat) 1) (fun r => CRet (int_val r)).
Definition basic_latch (l : Latch u32) : Latch u32 * exit u32 := lock_apply (on_inner (add_and_get checks 10)) l.
Definition basic_remote : client u32 Z :=
  CApply (adder checks (vt 0%nat) 1) (fun _ => CApply (caster (vt 1%nat)) (fun r => CRet (int_val r))).

(** ** [examples/pinning.rs] *)
Definition pinning : client i64 Z :=
  CApply (adder checks (vt 0%nat) 1) (fun _ => CApply (caster (vt 1%nat)) (fun v => CRet (int_val v))).

(** ** [examples/recursive_apply.rs] *)

(** A call on a clone of the handle from inside a closure, on the thread of
    the trustee: [apply] takes the shortcut. *)
Definition nested_apply {T R} (u : user_fn T unit unit) (k : prog T R) : prog T R := prog_then (call u tt) k.

(** The outer closures own the clone they call on: an [Arc], a [Registrar]
    and an owner, here as bytes. *)
Definition recursive_incr (clone : list Z) : user_fn usize unit usize :=
  {| u_size := zlen clone; u_align := 8; u_env := clone; u_vtable := vt 0%nat;
     u_body := fun _ _ =>
       prog_then (prog_of_fn (add_assign checks 1))
         (nested_apply (adder checks (vt 1%nat) 1) (PStep (fun c => c) (fun c => PRet c))) |}.
Definition recursive_loop (iters : nat) (clone : list Z) : user_fn usize unit unit :=
  {| u_size := zlen clone; u_align := 8; u_env := clone; u_vtable := vt 2%nat;
     u_body := fun _ _ => Nat.iter iters (nested_apply (adder checks (vt 3%nat) 1)) (PRet tt) |}.

Definition recursive_apply (iters : nat) (clone1 clone2 : list Z) : client usize bool :=
  CApply (recursive_incr clone1) (fun result => assert (int_val result =? 2) (
  CApply (recursive_loop iters clone2) (fun _ => CRet true))).

(** ** [examples/launch_test.rs] *)
Definition launch_remote : client (Latch i32) bool :=
  CLaunch (locked_incr checks (vt 0%nat)) (fun result => assert (int_val result =? 1) (
  CWith (locked_read (vt 1%nat)) (fun val => CRet (int_val val =? 1)))).
Definition launch_local : client (Latch i32) bool :=
  CLaunch (locked_incr checks (vt 2%nat)) (fun result => CRet (int_val result =? 11)).
End programs.

(** ** [examples/latch.rs] *)
Section latch_example.
Context (checks : bool).

(** [v.push(x)] and the length, as [usize]. *)
Definition len {U} (v : list U) : Z := zlen v.
(** [.map(|x| x as u32).sum::<u32>()]. *)
Definition sum_u32 (v : list u8) : exit u32 :=
  foldl (fun acc x => match acc with Returned a => add checks a (int_val x) | Panicked => Panicked end)
    (Returned (wrap 0)) v.

Definition ints {s n} (l : list Z) : list (int s n) := map wrap l.

Definition latch_main : exit bool :=
  let guarded : Latch usize := new (wrap 0) in
  let '(guarded, e1) := with_guard (on_inner (add_assign checks 1)) guarded in
  let '(guarded, v) := with_guard (on_inner (fun u => (u, Returned u))) guarded in
  let '(_, n) := lock_apply (on_inner (fun v : list u32 =>
                   let v := v ++ ints [10] ++ ints [20] in (v, Returned (len v)))) (new []) in
  let vec_t : Latch (list u8) := new [] in
  let '(vec_t, observed) := lock_apply_then (on_inner (fun v =>
                   let v := v ++ ints [1; 2; 3; 4] in (v, Returned (len v)))) (fun l => l) vec_t in
  let '(vec_t, pushed) := lock_apply_with (fun g to_add => on_inner (fun v =>
                   let v := v ++ to_add in (v, Returned (len v))) g) (ints [9; 9]) vec_t in
  let '(vec_t, sum) := lock_with sum_u32 vec_t in
  match e1, v, n, observed, pushed, sum with
  | Returned _, Returned v, Returned n, Returned observed, Returned pushed, Returned sum =>
      Returned ((int_val v =? 1) && (n =? 2) && (observed =? 4) && (pushed =? 6) &&
                (int_val sum =? 1 + 2 + 3 + 4 + 9 + 9))
  | _, _, _, _, _, _ => Panicked
  end.
End latch_example.

(** ** What they come to *)

(** A program on a [Local]. *)
Definition run_local {T A} (c : client T A) (t : T) : res (T * reply A) :=
  run_client (H := Local.TrustLike_Local) c t.

(** The local programs, with or without overflow checks. *)
Theorem local_examples_hold (checks : bool) (vt : nat -> Z) :
  run_local (local_trustee checks vt) (wrap 17) = Ok (wrap 20, Finished (Returned true)) /\
  run_local (basic_local checks vt) (wrap 42) = Ok (wrap 43, Finished (Returned 43)) /\
  (exists l r, basic_latch checks (new (wrap 100)) = (l, Returned r) /\ int_val r = 110) /\
  run_local (launch_local checks vt) (new (wrap 10)) = Ok (new (wrap 11), Finished (Returned true)) /\
  latch_main checks = Returned true.
Proof.
  split; [|split; [|split; [|split]]]; destruct checks; try (vm_compute; reflexivity); eexists _, _; by vm_compute.
Qed.

(** A program whose calls do not overlap with others, over any handle of the
    machine and in any of its executions: the property [t'] and the result [a]
    at its end, which it always can reach. *)
Definition holds_remotely {T A} `{Repr T} (t : T) (c : client T A) (t' : T) (a : A) : Prop :=
  forall statics into_inner_vt i addr acts evs f st,
    0 <= addr /\ addr + SLOT_BYTES < usize_modulus ->
    fits statics (t, true) (script_of into_inner_vt i c) ->
    Forall (faction_ok statics) acts -> fsteps statics (fstart t addr) acts evs f ->
    stage_runs (At (script_of into_inner_vt i c)) evs st ->
    st <> At Fail /\ (forall a', st = At (Return a') -> a' = a /\ s_prop (f_sys f) = t') /\
    exists acts' evs' f', fsteps statics f acts' evs' f' /\ Forall (faction_ok statics) acts' /\
      stage_runs st evs' (At (Return a)).

Lemma computes_remotely {T A} `{Repr T} (t : T) (c : client T A) (t' : T) (a : A) :
  (forall vt i, computes (t, true) (script_of vt i c) = Some ((t', true), a)) -> holds_remotely t c t' a.
Proof.
  intros Hc statics vt i addr acts evs f st Haddr Hfits Hok Hst Hr. apply at_stage_outcome.
  eapply at_stage_steps; [exact Hst|exact Hok|exact Hr|]. apply at_stage_start; [done|]. by split.
Qed.

Lemma run_adder {s n} checks vt k (a : int s n) :
  in_int s n (int_val a + k) ->
  run_prog (call (adder checks vt k) tt) a = (wrap (int_val a + k), Returned tt).
Proof.
  intros Hk. unfold adder. by rewrite call_fn_item, run_prog_of_fn, add_assign_small.
Qed.

Lemma run_loop checks vt iters (a : usize) :
  int_val a + Z.of_nat iters < 2 ^ 64 ->
  run_prog (Nat.iter iters (nested_apply (adder checks vt 1)) (PRet tt)) a =
  (wrap (int_val a + Z.of_nat iters), Returned tt).
Proof.
  revert a. induction iters as [|iters IH]; intros a Ha.
  { simpl. by rewrite Z.add_0_r, wrap_int. }
  pose proof (int_in a) as Hin. rewrite in_u64 in Hin.
  assert (in_int false 8 (int_val a + 1)) as H1 by (rewrite in_u64; lia).
  rewrite Nat.iter_succ. unfold nested_apply at 1.
  rewrite run_prog_then, run_adder by done. simpl fst. simpl snd. rewrite IH; rewrite !wrap_val by done; [|lia].
  do 2 f_equal. lia.
Qed.

Lemma recursive_computes checks vt iters c1 c2 into_vt i :
  2 + Z.of_nat iters < 2 ^ 64 ->
  computes (wrap 0 : usize, true) (script_of into_vt i (recursive_apply checks vt iters c1 c2)) =
  Some ((wrap (2 + Z.of_nat iters), true), true).
Proof.
  intros Hi. cbn [recursive_apply script_of computes].
  rewrite (call_alone_out _ _ (wrap 0) (wrap 2) (wrap 2) (or_introl eq_refl)), reading_bytes;
    [|by destruct checks; vm_compute].
  change (int_val (wrap 2 : usize) =? 2) with true. cbn [assert script_of computes].
  assert (int_val (wrap 2 : usize) = 2) as H2 by reflexivity.
  rewrite (call_alone_out _ _ (wrap 2) (wrap (2 + Z.of_nat iters)) tt (or_introl eq_refl)), reading_bytes; [done|].
  etrans; [apply (run_loop checks (vt 3%nat) iters (wrap 2)); rewrite H2; lia|]. by rewrite H2.
Qed.

(** ** Properties *)

(** The assertions of the examples that use a remote handle hold in every
    execution of the machine, and the programs end: [basic_usage] and
    [pinning] print 201 and 1; [recursive_apply], whose closures call [apply]
    on their own trustee, gets 2 and leaves [2 + iters]; [launch_test] gets 1
    from its launched closure and reads 1. *)
Theorem remote_examples_hold (checks : bool) (vt : nat -> Z) (iters : nat) (clone1 clone2 : list Z)
    `{Repr (Latch i32)} (Hiters : 2 + Z.of_nat iters < 2 ^ 64) :
  holds_remotely (wrap 200) (basic_remote checks vt) (wrap 201) 201 /\
  holds_remotely (wrap 0) (pinning checks vt) (wrap 1) 1 /\
  holds_remotely (wrap 0) (recursive_apply checks vt iters clone1 clone2) (wrap (2 + Z.of_nat iters)) true /\
  holds_remotely (new (wrap 0)) (launch_remote checks vt) (new (wrap 1)) true.
Proof.
  repeat split_and; apply computes_remotely; intros into_vt i; [| |by apply recursive_computes|];
    destruct checks; vm_compute; reflexivity.
Qed.

(** ** A run of [launch_test] *)
Module LaunchTest.
#[local] Existing Instance LatchRun.Repr_latch.

Definition vt (n : nat) : Z := match n with O => incr_vt | _ => read_vt end.
Definition program : script (Latch i32) bool := script_of 0 0 (launch_remote true vt).
Definition run : list (faction (Latch i32) * option (list Z)) :=
  based [Drain] ++ sent 0 L ++ served_in 0 2 ++ fiber_runs 0 9 ++ answered 0 (le_bytes 4 1) ++
  whole_call 0 W 7 (le_bytes 4 1).

Lemma launch_test_ok : Forall (faction_ok statics) run.*1.
Proof. simpl. repeat (constructor; [first [exact launch_incr_ok|exact with_read_ok|exact I|done]|]). constructor. Qed.
Lemma plays_launch_test : fsteps statics start run.*1 (script_events run) (played statics start run).
Proof. apply plays, is_Some_alt. vm_compute. exact I. Qed.
Lemma launch_test_fits : fits statics (new (wrap 0), true) program.
Proof.
  split; [exact launch_incr_ok|].
  rewrite (call_alone_out (locked_incr true (vt 0)) _ _ (new (wrap 1)) (wrap 1) (or_intror eq_refl)), reading_bytes;
    [|vm_compute; reflexivity].
  split; [exact with_read_ok|].
  rewrite (call_alone_out (locked_read (vt 1)) _ _ (new (wrap 1)) (wrap 1) (or_introl eq_refl)), reading_bytes;
    [exact I|vm_compute; reflexivity].
Qed.
Lemma stages_launch_test : stage_runs (At program) (script_events run) (At (Return true)).
Proof.
  apply (runs_cons _ (ECall 0 L) _ _ _ (stage_calls _ _ _)).
  apply (runs_cons _ (EReturn 0 (le_bytes 4 1)) _ _ _ (stage_returns _ _ _ _)).
  apply (runs_cons _ (ECall 0 W) _ _ _ (stage_calls _ _ _)).
  apply (runs_cons _ (EReturn 0 (le_bytes 4 1)) _ _ _ (stage_returns _ _ _ _)).
  constructor.
Qed.
End LaunchTest.

Lemma remote_examples_hold_witness :
  s_prop (f_sys (played (H := LatchRun.Repr_latch) statics start LaunchTest.run)) = new (wrap 1).
Proof.
  destruct (remote_examples_hold true LaunchTest.vt (Z.to_nat 1000000) [] [] (H := LatchRun.Repr_latch)) as (_ & _ & _ & Hrun);
    [lia|].
  destruct (Hrun statics 0 0%nat 65536 _ _ _ _ ltac:(done) LaunchTest.launch_test_fits LaunchTest.launch_test_ok
              LaunchTest.plays_launch_test LaunchTest.stages_launch_test) as (_ & Hend & _).
  by destruct (Hend true eq_refl) as [_ ->].
Defined.
